(* ===== verification/_CoqProject ===== *)
-Q . S2P
Prelude.v
Bytes.v
BlockIo.v
RbTree.v
Layout.v
DiskStructs.v
Memtable.v
Cache.v
SegValidator.v
Rit.v
Dst.v
BitCatalogue.v
Metadata.v
Crypto.v
BitFile.v
BitNode.v
BitBuilder.v
BitLevel.v
LevelFiles.v
Merge.v
MergeSource.v
LsmTree.v
Compaction.v
SegmentBuffer.v
SegmentAllocator.v
Journal.v
Jindisk.v
Storage.v
Gc.v
Checkpoint.v
Commit.v
Shutdown.v
DataLog.v
DeferredBios.v
Target.v
Lifecycle.v
UserKeys.v
UserDevice.v
UserCli.v
