(* ===== verification/Prelude.v ===== *)
(** * JinDisk: a verification library for the log-structured secure disk

    JinDisk is a device-mapper target that turns an untrusted block device into
    an encrypted and authenticated one. This library models its kernel module
    ([src/kernel-module/c]) and the C tool that sets targets up
    ([src/user-cli/src/c]) as Rocq definitions that evaluate, and proves what
    makes them correct. File names below without a directory are those of
    [src/kernel-module/c/src].

    ** How the program works

    A write goes to the write buffer ([segment_buffer.c]), a ring of four buffers
    of one segment (1024 blocks of 4096 bytes). A full buffer gets a free segment
    of the data region from the allocator ([segment_allocator.c]), every block of
    it is encrypted and authenticated under a key of its own buffer, and a record
    (physical address, key, mac) is put into the index. The index is a
    log-structured merge tree ([lsm_tree.c]): a memtable ([memtable.c]), an
    immutable memtable and levels of files, each an encrypted block index table
    with a cache of leaves ([cache.c]). A read looks into the buffers, newest
    first, then into the index, reads the block and checks it. Blocks that are
    overwritten are given up in the reverse index and the data segment table; the
    collector moves what is left of the segments with the fewest valid blocks and
    frees them. The tables ([metadata.c], on the disk arrays of [disk_structs.c])
    exist twice on the device; a checkpoint copies each to its other place, and the
    journal ([journal.c]), a ring of chained encrypted records, remembers since
    when. The requests, the constructor and the control device are in
    [dm-jindisk.c].

    ** Where each part is modelled

    Foundations
    - [Prelude]: error codes, results, machine integers, lists and options,
      tactics and the hint database; [Bytes]: memory images, little-endian words,
      bitmaps; [RbTree]: red-black trees, whose kernel operations are the class
      [RbTreeSpec]; [BlockIo]: the raw device, class [BlockDevSpec].
    Layout and metadata ([metadata.c], [disk_structs.c])
    - [Layout]: sizes and places of the regions, the formatted superblock, the
      capacity probe and the admission test; [DiskStructs]: arrays and bit sets of
      encrypted blocks, which discharge the interface [ArraySpec] that all tables
      are verified against; [SegValidator], [Rit], [Dst], [BitCatalogue]: the four
      tables; [Metadata]: the superblock on the device and formatting;
      [Checkpoint]: the two copies of the tables.
    Index ([lsm_tree.c], [memtable.c], [cache.c])
    - [Memtable], [Cache]; [BitFile]: search and iteration of a file; [BitNode]:
      its nodes as bytes; [BitBuilder]: how it is written; [BitLevel] and
      [LevelFiles]: the files of a level; [Merge] and [MergeSource]: the k-way
      merge; [Compaction]: compaction jobs, major and minor compaction; [LsmTree]:
      put and search.
    Data ([segment_buffer.c], [segment_allocator.c], [dm-jindisk.c])
    - [SegmentBuffer], [SegmentAllocator]; [Jindisk]: the flush of a buffer, the
      collector, reads and writes, over one record with the whole state; [Storage]:
      the invariant of that state and the flush; [Gc]: the collector under the
      invariant; [Commit]: a flush request; [DataLog]: the log of written blocks;
      [Shutdown]: taking buffer and tree down.
    Others
    - [Crypto] ([crypto.c]); [Journal] ([journal.c]); [DeferredBios]: the queue of
      requests, its worker and the readers, as a step relation; [Target]:
      constructor, destructor, control device; [Lifecycle]: the allocations and
      frees of all constructors and destructors.
    - [UserKeys], [UserDevice], [UserCli]: the command line tool.

    A definition has the name of the C function it translates; a helper that is a
    part of one (the body of a loop, a group of statements) says of which. The
    state of an object is a record with the fields of the struct, but for locks,
    function pointers and constants. A function that fails returns [result] with
    the errno. [option] on top of that has two meanings, told by the comments:
    [None] of a loop is fuel that ran out, and [None] elsewhere an access that the
    code does not guard against (a null pointer, an index out of range, a block
    freed twice). The theorems prove that the result is [Some].

    ** What the theorems show

    - Functional correctness and refinement: each table, the memtable, the write
      buffer and the bit set refine a finite map, a list or a set under their
      operations, on every branch; the journal refines a log with a window
      ([Journal.journal_refines_log]); a put into the tree refines an update of
      the layered map ([LsmTree.lsm_tree_put_refines]); a builder makes the file
      of its entries; the merge and the compactions keep what the levels show
      ([Merge.merge_keeps_newest], [Compaction.compaction_job_run_correct],
      [Compaction.lsm_tree_minor_compaction_correct]).
    - End to end: a flushed block is read back as written and every other block is
      as before ([Storage.segbuf_flush_bios_stores]); reads in merged runs are block
      by block reads of the newest data ([Jindisk.jindisk_do_read_correct]); the
      collector loses nothing and terminates ([Gc]); a flush request and the
      taking down make all writes durable ([Commit], [Shutdown]).
    - Crashes and copies: a restart recovers the synchronized window of the journal;
      a checkpoint leaves the copies in use alone; the superblock and the nodes
      are read back as written.
    - Interleavings: in every reachable state of the deferred queue the reads see the
      writes submitted before them, and the queue drains.
    - Safety and bounds: every data block of an admitted device lies inside it;
      construction is all or nothing; the metadata is created and destroyed
      without freeing anything twice.
    - Where the code does something else than it means to, a theorem states what it
      does (flush orders that put older data over newer, records of the data log
      with the wrong address, a block dropped by the collector, arrays that are
      never freed, memory freed twice while formatting, and others).

    ** Bounds and fuel

    Loops over machine integers and linked structures have fuel, and the theorem
    about each says that the fuel given is enough: 200 rounds for the capacity
    probe, whose step has less than 64 bits and is taken a bounded number of times
    before it is halved; 65 for the loops of [__bit_height] and [__bit_array_len],
    whose size is multiplied by the degree each time; one step more than the number
    of files for the binary searches, than the size for the eviction of the cache,
    than the number of nodes for emptying a tree, than the number of records for a
    merge, than the number of victims for the collector, than the height of the tree
    for the cascade of the builder; the capacity of the ring for the recovery of the
    journal. All
    integers that can wrap do so by [u32], [u64] and [i32].

    ** Assumptions

    - Kernel code is given by classes with its documented laws, each with a concrete
      instance: red-black trees, [bsearch], the min-heap, radix trees, dm-bufio,
      dm-io, AES-GCM and AES-CBC, the checksum, reading and writing of the index
      file. Authenticated decryption under the same key and sequence number gives
      back the plaintext.
    - An operation under its lock is one step; where requests of different
      threads meet, the steps are interleaved ([DeferredBios], [Shutdown]).
    - Memory is granted, except in [Target], [Lifecycle] and the tool, which model
      its refusal. Device errors are modelled by the tables and the journal; the
      theorems about compaction, storage, collection and flush requests suppose
      that the devices work, as their sections say.
    - Each region of the raw device is a device of its own in the models, since the
      regions do not overlap ([Layout]).
    - Uninitialised variables of the code are parameters, so that nothing is
      assumed of their contents.
    - The theorems about compaction are for the two levels of the default
      configuration; the definitions are for any number.

    ** Not modelled

    Debug output and the printing of statistics, the sysfs attributes, the work
    item of [async.c], the structure of function pointers of [iterator.h], the
    callbacks that only wait for dm-io, the timer that queues the background
    collector: they neither decide nor store anything of the disk. The Rust parts
    are in another language; tests, demos and documents are no program code. *)
From stdpp Require Export base option numbers list gmap sorting.
From Stdlib Require Export ZArith Lia.

(** ** Error codes and results

    The C code returns [0] or a negated errno. [result A] is the value an
    operation hands back through its out-parameter, or its errno. [EFAULT]
    stands for an access through a null or out-of-range pointer, which the code
    does not guard against; the theorems show where it cannot happen. *)
Inductive errno : Type :=
  | EFAULT | EIO | EINVAL | ENODATA | ENOMEM | EBUSY | ENOSPC | EAGAIN | EACCES | EBADMSG
  | ENOTBLK | ENODEV | EEXIST | ENOTSUP.

#[export] Instance errno_eq_dec : EqDecision errno.
Proof. solve_decision. Defined.

Inductive result (A : Type) : Type :=
  | Ok (a : A)
  | Err (e : errno).
Arguments Ok {A} a.
Arguments Err {A} e.

#[export] Instance result_eq_dec {A} `{EqDecision A} : EqDecision (result A).
Proof. solve_decision. Defined.

Definition result_bind {A B : Type} (m : result A) (k : A -> result B) : result B :=
  match m with
  | Ok a => k a
  | Err e => Err e
  end.

Definition is_ok {A : Type} (m : result A) : bool :=
  match m with Ok _ => true | Err _ => false end.

Declare Scope jindisk_scope.
Delimit Scope jindisk_scope with jindisk.
Notation "'let!' x ':=' m 'in' k" := (result_bind m (fun x => k))
  (at level 10, x pattern, m at level 100, k at level 200)
  : jindisk_scope.
Open Scope Z_scope.
Open Scope jindisk_scope.

(** ** Machine integers

    A [w]-bit unsigned value is a [Z] in [0, 2^w); every C operation that may
    leave that range is followed by the wrap-around below. *)
Definition u32 (z : Z) : Z := z mod 2 ^ 32.
Definition u64 (z : Z) : Z := z mod 2 ^ 64.

(** Conversion of a 64-bit difference to [int]: two's complement, 32 bits. *)
Definition i32 (z : Z) : Z := (z + 2 ^ 31) mod 2 ^ 32 - 2 ^ 31.

Lemma u64_small z : 0 <= z < 2 ^ 64 -> u64 z = z.
Proof. intros. by apply Z.mod_small. Qed.

Lemma u32_small z : 0 <= z < 2 ^ 32 -> u32 z = z.
Proof. intros. by apply Z.mod_small. Qed.

Lemma u64_range z : 0 <= u64 z < 2 ^ 64.
Proof. by apply Z.mod_pos_bound. Qed.

Lemma u32_range z : 0 <= u32 z < 2 ^ 32.
Proof. by apply Z.mod_pos_bound. Qed.

Lemma i32_small z : - 2 ^ 31 <= z < 2 ^ 31 -> i32 z = z.
Proof. intros. unfold i32. rewrite Z.mod_small; lia. Qed.

(** [INF_ADDR] is [~0ULL]: the address of no block. *)
Definition INF_ADDR : Z := 2 ^ 64 - 1.

(** ** Automation *)
Create HintDb jindisk.
Create Rewrite HintDb jindisk_rw.
#[export] Hint Resolve u64_range u32_range : jindisk.
#[export] Hint Rewrite u64_small u32_small using lia : jindisk_rw.

(** Replace divisions and remainders by the equations that define them. *)
Ltac divmod_lia := Z.div_mod_to_equations; lia.

(** Remove wrap-arounds from the inside out, each by a bound [lia] finds. *)
Ltac u64_norm :=
  repeat match goal with
  | |- context [u64 ?x] =>
      lazymatch x with
      | context [u64 _] => fail
      | _ => rewrite (u64_small x) by (try divmod_lia; lia)
      end
  end.

(** Case analysis on every boolean comparison of the goal and the context. *)
Ltac case_bool :=
  repeat match goal with
  | |- context [Z.eqb ?a ?b] => destruct (Z.eqb_spec a b)
  | |- context [Z.ltb ?a ?b] => destruct (Z.ltb_spec a b)
  | |- context [Z.leb ?a ?b] => destruct (Z.leb_spec a b)
  | H : context [Z.eqb ?a ?b] |- _ => destruct (Z.eqb_spec a b)
  | H : context [Z.ltb ?a ?b] |- _ => destruct (Z.ltb_spec a b)
  | H : context [Z.leb ?a ?b] |- _ => destruct (Z.leb_spec a b)
  end.

(** Division by a positive number rounding up. *)
Lemma ceil_div_mono (a b d : Z) :
  0 < d -> a <= b -> (a - 1) / d + 1 <= (b - 1) / d + 1.
Proof. intros Hd Hab. apply Z.add_le_mono_r, Z.div_le_mono; lia. Qed.

Lemma ceil_div_spec (a d : Z) :
  0 < d -> 0 < a -> ((a - 1) / d + 1 - 1) * d < a <= ((a - 1) / d + 1) * d.
Proof. intros Hd Ha. pose proof (Z.div_mod (a - 1) d). pose proof (Z.mod_pos_bound (a - 1) d). nia. Qed.
