(* ===== verification/Bytes.v ===== *)
(** * Bytes and bitmaps: memory images, little-endian words, bit arrays

    A buffer is a list of byte values in [0, 256). The kernel runs on a
    little-endian machine, so a word in memory is its little-endian image; a
    [DECLARE_BITMAP] of [n] bits is the integer with those bits. *)
From S2P Require Import Prelude.

(** ** Little-endian words *)

Fixpoint le_encode (n : nat) (z : Z) : list Z :=
  match n with
  | O => []
  | S n => z mod 256 :: le_encode n (z / 256)
  end.

Fixpoint le_decode (l : list Z) : Z :=
  match l with
  | [] => 0
  | b :: l => b + 256 * le_decode l
  end.

Definition byte (b : Z) : Prop := 0 <= b < 256.

Lemma le_encode_length n z : length (le_encode n z) = n.
Proof. revert z. induction n as [|n IH]; intros z; [done|]. cbn. by rewrite IH. Qed.

Lemma le_encode_bytes n z : Forall byte (le_encode n z).
Proof.
  revert z. induction n as [|n IH]; intros z; [constructor|]. cbn. constructor; [|apply IH].
  by apply Z.mod_pos_bound.
Qed.

Lemma le_decode_encode n z : 0 <= z < 256 ^ Z.of_nat n -> le_decode (le_encode n z) = z.
Proof.
  revert z. induction n as [|n IH]; intros z Hz.
  - cbn in *. lia.
  - rewrite Nat2Z.inj_succ, Z.pow_succ_r in Hz by lia. cbn [le_encode le_decode].
    rewrite IH; [divmod_lia|]. split; [apply Z.div_pos; lia|]. apply Z.div_lt_upper_bound; lia.
Qed.

Lemma le_decode_zeros n : le_decode (replicate n 0) = 0.
Proof. induction n as [|n IH]; [done|]. cbn [replicate le_decode]. lia. Qed.

(** ** Slices of a buffer *)

Definition slice (off len : nat) (l : list Z) : list Z := take len (drop off l).

(** [memcpy(l + off, new, length new)] *)
Definition splice (off : nat) (new l : list Z) : list Z :=
  take off l ++ new ++ drop (off + length new) l.

Lemma splice_length off new l :
  (off + length new <= length l)%nat -> length (splice off new l) = length l.
Proof. intros. unfold splice. rewrite !length_app, length_take, length_drop. lia. Qed.

Lemma slice_length off len l : (off + len <= length l)%nat -> length (slice off len l) = len.
Proof. intros. unfold slice. rewrite length_take, length_drop. lia. Qed.

Lemma slice_splice_same off new l :
  (off + length new <= length l)%nat -> slice off (length new) (splice off new l) = new.
Proof.
  intros. unfold slice, splice. rewrite drop_app_ge; rewrite length_take; [|lia].
  replace (off - off `min` length l)%nat with 0%nat by lia. rewrite drop_0. by rewrite take_app_length.
Qed.

Lemma slice_splice_exact off len new l :
  length new = len -> (off + len <= length l)%nat -> slice off len (splice off new l) = new.
Proof. intros <- Hl. by apply slice_splice_same. Qed.

Lemma slice_splice_other off new l off' len :
  (off + length new <= length l)%nat ->
  (off' + len <= off)%nat \/ (off + length new <= off')%nat ->
  slice off' len (splice off new l) = slice off' len l.
Proof.
  intros Hl Hdisj. apply list_eq. intros i. unfold slice, splice.
  destruct (Nat.lt_ge_cases i len) as [Hi|Hi];
    [|by rewrite !lookup_take_ge by lia].
  rewrite !lookup_take_lt, !lookup_drop by lia. destruct Hdisj as [Hd|Hd].
  - rewrite lookup_app_l by (rewrite length_take; lia). by rewrite lookup_take_lt by lia.
  - rewrite lookup_app_r by (rewrite length_take; lia). rewrite length_take.
    rewrite lookup_app_r by lia. rewrite lookup_drop. f_equal. lia.
Qed.

(** The [n] bytes at a pointer. *)
Definition bytes_at (n : nat) (p : list Z) : list Z := take n (p ++ replicate n 0).

Lemma bytes_at_length n p : length (bytes_at n p) = n.
Proof. unfold bytes_at. rewrite length_take, length_app, length_replicate. lia. Qed.

Lemma bytes_at_exact n p : length p = n -> bytes_at n p = p.
Proof. intros <-. unfold bytes_at. by rewrite take_app_length. Qed.

(** ** Bitmaps *)

Definition set_bit (n b : Z) : Z := Z.setbit b n.
Definition clear_bit (n b : Z) : Z := Z.clearbit b n.
Definition test_bit (n b : Z) : bool := Z.testbit b n.
Definition bitmap_fill (nbits : Z) : Z := Z.ones nbits.

(** Positions of a bitmap of [n] bits, from [off] on. *)
Fixpoint find_bit_from (v : bool) (n : nat) (off b : Z) : option Z :=
  match n with
  | O => None
  | S n => if Bool.eqb (Z.testbit b off) v then Some off else find_bit_from v n (off + 1) b
  end.

(** [find_first_zero_bit(b, n)] and [find_next_bit(b, n, off)]: [n] if none. *)
Definition find_first_zero_bit (b nbits : Z) : Z :=
  default nbits (find_bit_from false (Z.to_nat nbits) 0 b).
Definition find_next_bit (b nbits off : Z) : Z :=
  default nbits (find_bit_from true (Z.to_nat (nbits - off)) off b).

(** The number of bits set among the first [n]. *)
Fixpoint popcount (n : nat) (b : Z) : Z :=
  match n with
  | O => 0
  | S n => Z.b2z (Z.testbit b (Z.of_nat n)) + popcount n b
  end.

Lemma find_bit_from_some v n : forall off b i,
  find_bit_from v n off b = Some i ->
  off <= i < off + Z.of_nat n /\ Z.testbit b i = v /\ forall j, off <= j < i -> Z.testbit b j = negb v.
Proof.
  induction n as [|n IH]; intros off b i; [done|]. cbn [find_bit_from].
  destruct (Bool.eqb_spec (Z.testbit b off) v) as [Hv|Hv].
  - intros [= <-]. split; [lia|]. split; [done|]. intros. lia.
  - intros Hf. apply IH in Hf as (Hr & Hi & Hlow). split; [lia|]. split; [done|]. intros j Hj.
    destruct (Z.eq_dec j off) as [->|]; [|apply Hlow; lia]. by destruct (Z.testbit b off), v.
Qed.

Lemma find_bit_from_none v n : forall off b,
  find_bit_from v n off b = None ->
  forall j, off <= j < off + Z.of_nat n -> Z.testbit b j = negb v.
Proof.
  induction n as [|n IH]; intros off b; [intros; lia|]. cbn [find_bit_from].
  destruct (Bool.eqb_spec (Z.testbit b off) v) as [Hv|Hv]; [done|]. intros Hf j Hj.
  destruct (Z.eq_dec j off) as [->|]; [by destruct (Z.testbit b off), v|].
  apply (IH (off + 1) b Hf). lia.
Qed.

Lemma popcount_range n b : 0 <= popcount n b <= Z.of_nat n.
Proof. induction n as [|n IH]; cbn [popcount]; [lia|]. pose proof (Z.b2z_bit0). destruct (Z.testbit b (Z.of_nat n)); cbn; lia. Qed.

Lemma popcount_ext n b b' :
  (forall i, 0 <= i < Z.of_nat n -> Z.testbit b i = Z.testbit b' i) -> popcount n b = popcount n b'.
Proof.
  induction n as [|n IH]; intros Heq; [done|]. cbn [popcount].
  rewrite (Heq (Z.of_nat n)) by lia. rewrite IH; [done|]. intros. apply Heq. lia.
Qed.

Lemma popcount_setbit n b i : 0 <= i < Z.of_nat n -> Z.testbit b i = false ->
  popcount n (set_bit i b) = popcount n b + 1.
Proof.
  induction n as [|n IH]; intros Hi Hb; [lia|]. cbn [popcount]. unfold set_bit in *.
  destruct (Z.eq_dec i (Z.of_nat n)) as [->|Hne].
  - rewrite Z.setbit_eq, Hb by lia. rewrite (popcount_ext n (Z.setbit b (Z.of_nat n)) b).
    + cbn. lia.
    + intros j Hj. rewrite Z.setbit_neq by lia. done.
  - rewrite Z.setbit_neq by lia. rewrite IH by (done || lia). lia.
Qed.

Lemma popcount_clearbit n b i : 0 <= i < Z.of_nat n -> Z.testbit b i = true ->
  popcount n (clear_bit i b) = popcount n b - 1.
Proof.
  induction n as [|n IH]; intros Hi Hb; [lia|]. cbn [popcount]. unfold clear_bit in *.
  destruct (Z.eq_dec i (Z.of_nat n)) as [->|Hne].
  - rewrite Z.clearbit_eq, Hb by lia. rewrite (popcount_ext n (Z.clearbit b (Z.of_nat n)) b).
    + cbn. lia.
    + intros j Hj. rewrite Z.clearbit_neq by lia. done.
  - rewrite Z.clearbit_neq by lia. rewrite IH by (done || lia). lia.
Qed.

Lemma popcount_zero_bit n b i : popcount n b = 0 -> 0 <= i < Z.of_nat n -> Z.testbit b i = false.
Proof.
  induction n as [|n IH]; intros Hz Hi; [lia|]. cbn [popcount] in Hz. pose proof (popcount_range n b).
  destruct (Z.testbit b (Z.of_nat n)) eqn:Hb; cbn [Z.b2z] in Hz; [lia|].
  destruct (Z.eq_dec i (Z.of_nat n)) as [->|]; [done|]. apply IH; lia.
Qed.

Lemma popcount_zero n : popcount n 0 = 0.
Proof. induction n as [|n IH]; [done|]. cbn [popcount]. by rewrite Z.bits_0, IH. Qed.

Lemma popcount_ones n m : Z.of_nat n <= m -> popcount n (bitmap_fill m) = Z.of_nat n.
Proof.
  intros Hm. induction n as [|n IH]; [done|]. cbn [popcount]. unfold bitmap_fill in *.
  rewrite Z.ones_spec_low, IH by lia. cbn. lia.
Qed.

(** A bitmap that is not full has a clear bit; one that is not empty, a set bit. *)
Lemma popcount_full n b :
  (forall i, 0 <= i < Z.of_nat n -> Z.testbit b i = true) -> popcount n b = Z.of_nat n.
Proof.
  induction n as [|n IH]; intros Hb; [done|]. cbn [popcount]. rewrite Hb, IH by (lia || (intros; apply Hb; lia)).
  cbn. lia.
Qed.

Lemma popcount_pos n b i : 0 <= i < Z.of_nat n -> Z.testbit b i = true -> 1 <= popcount n b.
Proof.
  induction n as [|n IH]; intros Hi Hb; [lia|]. cbn [popcount].
  destruct (Z.eq_dec i (Z.of_nat n)) as [->|Hne].
  - rewrite Hb. pose proof (popcount_range n b). cbn. lia.
  - pose proof (IH ltac:(lia) Hb). pose proof (Z.b2z_bit0). destruct (Z.testbit b (Z.of_nat n)); cbn; lia.
Qed.

Lemma find_first_zero_bit_spec b nbits : 0 <= nbits -> popcount (Z.to_nat nbits) b < nbits ->
  let i := find_first_zero_bit b nbits in
  0 <= i < nbits /\ Z.testbit b i = false.
Proof.
  intros Hn Hp. cbv zeta. unfold find_first_zero_bit.
  destruct (find_bit_from false (Z.to_nat nbits) 0 b) as [i|] eqn:Hf; cbn.
  - apply find_bit_from_some in Hf as (Hr & Hi & _). split; [lia|done].
  - pose proof (find_bit_from_none _ _ _ _ Hf) as Hall. rewrite popcount_full in Hp; [lia|].
    intros j Hj. apply Hall. lia.
Qed.

(** A bitmap of [w] bits stays one when a bit below [w] changes. *)
Lemma bitmap_bound w x : 0 <= w -> 0 <= x -> (forall k, w <= k -> Z.testbit x k = false) -> 0 <= x < 2 ^ w.
Proof.
  intros Hw Hx Hbits. split; [done|]. destruct (Z.eq_dec x 0) as [->|]; [lia|].
  apply Z.log2_lt_pow2; [lia|]. destruct (Z.lt_ge_cases (Z.log2 x) w) as [|Hge]; [done|].
  specialize (Hbits _ Hge). rewrite Z.bit_log2 in Hbits by lia. done.
Qed.

Lemma bitmap_high w x k : 0 <= x < 2 ^ w -> w <= k -> Z.testbit x k = false.
Proof.
  intros Hx Hk. destruct (Z.eq_dec x 0) as [->|]; [apply Z.bits_0|]. apply Z.bits_above_log2; [lia|].
  apply Z.lt_le_trans with w; [|done]. apply Z.log2_lt_pow2; lia.
Qed.

Lemma bitmap_update_range w (v : bool) g o : 0 <= g < 2 ^ w -> 0 <= o < w ->
  0 <= (if v then set_bit else clear_bit) o g < 2 ^ w.
Proof.
  intros Hg Ho. pose proof (bitmap_high w g) as Hgk.
  unfold set_bit, clear_bit. apply bitmap_bound; [lia|..]; destruct v.
  - apply Z.bits_iff_nonneg_ex. exists w. intros k Hk. rewrite Z.setbit_neq by lia. apply Hgk; lia.
  - apply Z.bits_iff_nonneg_ex. exists w. intros k Hk. rewrite Z.clearbit_neq by lia. apply Hgk; lia.
  - intros k Hk. rewrite Z.setbit_neq by lia. by apply Hgk.
  - intros k Hk. rewrite Z.clearbit_neq by lia. by apply Hgk.
Qed.
