(* ===== verification/BlockIo.v ===== *)
(** * BlockIo: dm-io on the raw device

    Requests to the raw device that bypass the buffer cache: the data region
    ([dm-jindisk.c]) and the journal region ([journal.c]). dm-io is kernel code;
    the class states what a read finds after writes. *)
From S2P Require Import Prelude Bytes.

(** dm-io on the raw device, in blocks of 4096 bytes: [dev_write d start bs]
    writes consecutive blocks. Errors of the device are only reported in the
    log; requests are supposed to succeed. *)
Class BlockDev : Type := {
  dev : Type;
  dev_read : dev -> Z -> list Z;
  dev_write : dev -> Z -> list (list Z) -> dev
}.

Class BlockDevSpec `{BlockDev} : Prop := {
  dev_read_write : forall (d : dev) start (bs : list (list Z)) q,
    dev_read (dev_write d start bs) q =
      if (start <=? q) && (q <? start + Z.of_nat (length bs)) then default [] (bs !! Z.to_nat (q - start)) else dev_read d q
}.

(** ** Concrete runs *)

(** A device as a finite map from addresses to blocks. *)
Fixpoint map_dev_write (d : gmap Z (list Z)) (start : Z) (bs : list (list Z)) : gmap Z (list Z) :=
  match bs with
  | [] => d
  | b :: bs => <[start := b]> (map_dev_write d (start + 1) bs)
  end.

#[export] Instance map_dev : BlockDev := {|
  dev := gmap Z (list Z);
  dev_read d q := default [] (d !! q);
  dev_write := map_dev_write
|}.

Lemma map_dev_lookup bs : forall d start q, map_dev_write d start bs !! q =
  if decide (start <= q < start + Z.of_nat (length bs)) then bs !! Z.to_nat (q - start) else d !! q.
Proof.
  induction bs as [|b bs IH]; intros d start q; cbn [map_dev_write length].
  { rewrite decide_False by lia. done. }
  destruct (decide (q = start)) as [->|Hne].
  - rewrite lookup_insert_eq, decide_True by lia. by rewrite Z.sub_diag.
  - rewrite lookup_insert_ne, IH by done. repeat case_decide; try lia; [|done].
    replace (Z.to_nat (q - start)) with (S (Z.to_nat (q - (start + 1)))) by lia. done.
Qed.

#[export] Instance map_dev_spec : BlockDevSpec.
Proof.
  split. intros d start bs q. cbn [dev_read dev_write map_dev]. rewrite map_dev_lookup.
  destruct (Z.leb_spec start q); destruct (Z.ltb_spec q (start + Z.of_nat (length bs))); cbn [andb]; case_decide; try lia; done.
Qed.
