(* ===== verification/RbTree.v ===== *)
(** * RbTree: the kernel's red-black trees and key-ordered lists

    [<linux/rbtree.h>] is library code: the source walks a tree through the
    [rb_left] and [rb_right] links and changes it only by [rb_add],
    [rb_find_add] and [rb_erase]. Trees are therefore concrete binary trees;
    the library operations are a class whose laws state, on the in-order
    sequence of the nodes, what the header documents. Every component that
    keeps a tree is proved against the class; [list_rb] is an instance. *)
From S2P Require Import Prelude.

(** [struct rb_node] links and the payload that embeds them. *)
Inductive rbtree (A : Type) : Type :=
  | rb_nil
  | rb_node (l : rbtree A) (x : A) (r : rbtree A).
Arguments rb_nil {A}.
Arguments rb_node {A} l x r.

(** The nodes in the order [rb_first], [rb_next], ... visits them. *)
Fixpoint rb_inorder {A : Type} (t : rbtree A) : list A :=
  match t with
  | rb_nil => []
  | rb_node l x r => rb_inorder l ++ x :: rb_inorder r
  end.

Definition rb_first {A : Type} (t : rbtree A) : option A := head (rb_inorder t).
Definition rb_last {A : Type} (t : rbtree A) : option A := last (rb_inorder t).
Definition RB_EMPTY_ROOT {A : Type} (t : rbtree A) : bool :=
  match t with rb_nil => true | rb_node _ _ _ => false end.

(** A store through a pointer to the payload of the nodes that satisfy [p]:
    the shape of the tree does not change. *)
Fixpoint rb_update {A : Type} (p : A -> bool) (f : A -> A) (t : rbtree A) : rbtree A :=
  match t with
  | rb_nil => rb_nil
  | rb_node l x r => rb_node (rb_update p f l) (if p x then f x else x) (rb_update p f r)
  end.

(** [rb_erase] takes the node to unlink: [p] tells it from the others. A
    comparison is the sign of its result; [cmp x y < 0] sends [x] to the left
    of [y]. *)
Class RbTree : Type := {
  rb_add : forall {A : Type}, (A -> A -> bool) -> A -> rbtree A -> rbtree A;
  rb_find_add : forall {A : Type}, (A -> A -> Z) -> A -> rbtree A -> rbtree A * option A;
  rb_find : forall {A : Type}, (A -> Z) -> rbtree A -> option A;
  rb_erase : forall {A : Type}, (A -> bool) -> rbtree A -> rbtree A
}.

Class RbTreeSpec `{RbTree} : Prop := {
  rb_add_inorder : forall {A : Type} (less : A -> A -> bool) (x : A) (t : rbtree A) (l1 l2 : list A),
    rb_inorder t = l1 ++ l2 ->
    Forall (fun y => less x y = false) l1 -> Forall (fun y => less x y = true) l2 ->
    rb_inorder (rb_add less x t) = l1 ++ x :: l2;
  rb_find_add_new : forall {A : Type} (cmp : A -> A -> Z) (x : A) (t : rbtree A) (l1 l2 : list A),
    rb_inorder t = l1 ++ l2 ->
    Forall (fun y => 0 < cmp x y) l1 -> Forall (fun y => cmp x y < 0) l2 ->
    exists t', rb_find_add cmp x t = (t', None) /\ rb_inorder t' = l1 ++ x :: l2;
  rb_find_add_old : forall {A : Type} (cmp : A -> A -> Z) (x : A) (t : rbtree A) (l1 : list A) (y : A) (l2 : list A),
    rb_inorder t = l1 ++ y :: l2 ->
    Forall (fun y => 0 < cmp x y) l1 -> cmp x y = 0 -> Forall (fun y => cmp x y < 0) l2 ->
    rb_find_add cmp x t = (t, Some y);
  rb_find_some : forall {A : Type} (cmp : A -> Z) (t : rbtree A) (l1 : list A) (y : A) (l2 : list A),
    rb_inorder t = l1 ++ y :: l2 ->
    Forall (fun y => 0 < cmp y) l1 -> cmp y = 0 -> Forall (fun y => cmp y < 0) l2 ->
    rb_find cmp t = Some y;
  rb_find_none : forall {A : Type} (cmp : A -> Z) (t : rbtree A) (l1 l2 : list A),
    rb_inorder t = l1 ++ l2 ->
    Forall (fun y => 0 < cmp y) l1 -> Forall (fun y => cmp y < 0) l2 ->
    rb_find cmp t = None;
  rb_erase_inorder : forall {A : Type} (p : A -> bool) (t : rbtree A) (l1 : list A) (y : A) (l2 : list A),
    rb_inorder t = l1 ++ y :: l2 -> p y = true ->
    Forall (fun z => p z = false) l1 -> Forall (fun z => p z = false) l2 ->
    rb_inorder (rb_erase p t) = l1 ++ l2
}.

Lemma rb_inorder_update {A : Type} (p : A -> bool) f (t : rbtree A) :
  rb_inorder (rb_update p f t) = (fun x => if p x then f x else x) <$> rb_inorder t.
Proof. induction t as [|l IHl x r IHr]; [done|]. cbn. by rewrite IHl, IHr, fmap_app. Qed.

Lemma RB_EMPTY_ROOT_inorder {A : Type} (t : rbtree A) :
  RB_EMPTY_ROOT t = true <-> rb_inorder t = [].
Proof.
  destruct t as [|l x r]; cbn; split; try done.
  intros Hnil. by destruct (app_eq_nil _ _ Hnil).
Qed.

(** ** An instance: trees rebuilt from their in-order sequence *)

Fixpoint rb_of_list {A : Type} (l : list A) : rbtree A :=
  match l with
  | [] => rb_nil
  | x :: l => rb_node rb_nil x (rb_of_list l)
  end.

Lemma rb_of_list_inorder {A : Type} (l : list A) : rb_inorder (rb_of_list l) = l.
Proof. induction l as [|x l IH]; [done|]. cbn. by rewrite IH. Qed.

Fixpoint list_add {A : Type} (less : A -> bool) (x : A) (l : list A) : list A :=
  match l with
  | [] => [x]
  | y :: l => if less y then x :: y :: l else y :: list_add less x l
  end.

Lemma list_add_split {A : Type} (less : A -> bool) (x : A) (l1 l2 : list A) :
  Forall (fun y => less y = false) l1 -> Forall (fun y => less y = true) l2 ->
  list_add less x (l1 ++ l2) = l1 ++ x :: l2.
Proof.
  intros H1 H2. induction H1 as [|y l1 Hy _ IH]; cbn.
  - destruct H2 as [|y l2 Hy _]; [done|]. cbn. by rewrite Hy.
  - by rewrite Hy, IH.
Qed.

Fixpoint list_zero {A : Type} (cmp : A -> Z) (l : list A) : option A :=
  match l with
  | [] => None
  | y :: l => if cmp y =? 0 then Some y else list_zero cmp l
  end.

Lemma list_zero_split {A : Type} (cmp : A -> Z) (l1 : list A) :
  Forall (fun y => 0 < cmp y) l1 -> forall l2, list_zero cmp (l1 ++ l2) = list_zero cmp l2.
Proof.
  induction 1 as [|y l1 Hy _ IH]; intros l2; [done|]. cbn.
  destruct (Z.eqb_spec (cmp y) 0); [lia|apply IH].
Qed.

Lemma list_zero_after {A : Type} (cmp : A -> Z) (l : list A) :
  Forall (fun y => cmp y < 0) l -> list_zero cmp l = None.
Proof. induction 1 as [|y l Hy _ IH]; [done|]. cbn. destruct (Z.eqb_spec (cmp y) 0); [lia|done]. Qed.

#[export] Instance list_rb : RbTree := {
  rb_add A less x t := rb_of_list (list_add (less x) x (rb_inorder t));
  rb_find_add A cmp x t :=
    match list_zero (cmp x) (rb_inorder t) with
    | Some y => (t, Some y)
    | None => (rb_of_list (list_add (fun y => cmp x y <? 0) x (rb_inorder t)), None)
    end;
  rb_find A cmp t := list_zero cmp (rb_inorder t);
  rb_erase A p t := rb_of_list (filter (fun x => p x = false) (rb_inorder t))
}.

Lemma filter_out_one {A : Type} (p : A -> bool) (l : list A) :
  Forall (fun z => p z = false) l -> filter (fun x => p x = false) l = l.
Proof. induction 1 as [|y l Hy _ IH]; [done|]. rewrite filter_cons_True by done. by rewrite IH. Qed.

#[export] Instance list_rb_spec : RbTreeSpec.
Proof.
  split; intros A; cbn.
  - intros less x t l1 l2 -> H1 H2. rewrite rb_of_list_inorder. by apply list_add_split.
  - intros cmp x t l1 l2 -> H1 H2. rewrite list_zero_split, list_zero_after by done.
    eexists. split; [done|]. rewrite rb_of_list_inorder.
    apply list_add_split; (eapply Forall_impl; [eassumption|]; cbn; intros; lia).
  - intros cmp x t l1 y l2 -> H1 Hy H2. rewrite list_zero_split by done. cbn. by rewrite Hy.
  - intros cmp t l1 y l2 -> H1 Hy H2. rewrite list_zero_split by done. cbn. by rewrite Hy.
  - intros cmp t l1 l2 -> H1 H2. by rewrite list_zero_split, list_zero_after.
  - intros p t l1 y l2 -> Hy H1 H2. rewrite rb_of_list_inorder, filter_app.
    rewrite filter_cons_False by congruence. by rewrite !filter_out_one.
Qed.

(** ** Sequences ordered by a key *)
Section keyed.
Context {A : Type} (key : A -> Z).

(** Strictly increasing keys. *)
Definition keys_sorted (l : list A) : Prop := StronglySorted Z.lt (key <$> l).

Lemma keys_sorted_app l1 l2 :
  keys_sorted (l1 ++ l2) <->
  keys_sorted l1 /\ keys_sorted l2 /\ forall x y, x ∈ l1 -> y ∈ l2 -> key x < key y.
Proof.
  unfold keys_sorted. rewrite fmap_app. induction l1 as [|x l1 IH]; cbn.
  - split; [|tauto]. intros H. repeat split; [constructor|done|]. intros x y Hx. by apply elem_of_nil in Hx.
  - split.
    + intros [Hs Hall]%StronglySorted_inv. apply IH in Hs as (H1 & H2 & H3).
      apply Forall_app in Hall as [Ha Hb]. repeat split; [by constructor|done|].
      intros x' y [->|Hx]%elem_of_cons Hy; [|auto].
      rewrite Forall_forall in Hb. apply Hb. by apply list_elem_of_fmap_2.
    + intros ([Hs Hall]%StronglySorted_inv & H2 & H3). constructor.
      * apply IH. repeat split; [done..|]. intros. apply H3; [by right|done].
      * apply Forall_app. split; [done|]. apply Forall_forall. intros z (y & -> & Hy)%list_elem_of_fmap.
        apply H3; [by left|done].
Qed.

Lemma keys_sorted_cons x l :
  keys_sorted (x :: l) <-> keys_sorted l /\ Forall (fun y => key x < key y) l.
Proof.
  unfold keys_sorted. cbn. split.
  - intros [Hs Hall]%StronglySorted_inv. split; [done|]. by rewrite Forall_fmap in Hall.
  - intros [Hs Hall]. constructor; [done|]. by rewrite Forall_fmap.
Qed.

(** A sorted sequence splits at any key. *)
Lemma keys_split (k : Z) (l : list A) : keys_sorted l ->
  (exists l1 x l2, l = l1 ++ x :: l2 /\ key x = k /\
     Forall (fun y => key y < k) l1 /\ Forall (fun y => k < key y) l2) \/
  (exists l1 l2, l = l1 ++ l2 /\ Forall (fun y => key y < k) l1 /\ Forall (fun y => k < key y) l2).
Proof.
  induction l as [|x l IH]; intros Hs.
  - right. exists [], []. auto.
  - apply keys_sorted_cons in Hs as [Hs Hx].
    destruct (Z.lt_trichotomy (key x) k) as [Hlt|[Heq|Hgt]].
    + destruct (IH Hs) as [(l1 & y & l2 & -> & Hy & H1 & H2)|(l1 & l2 & -> & H1 & H2)].
      * left. exists (x :: l1), y, l2. auto.
      * right. exists (x :: l1), l2. auto.
    + left. exists [], x, l. subst k. auto.
    + right. exists [], (x :: l). repeat split; [by constructor|]. constructor; [done|].
      eapply Forall_impl; [exact Hx|]. cbn. lia.
Qed.

Lemma keys_sorted_insert l1 x l2 :
  keys_sorted (l1 ++ l2) -> Forall (fun y => key y < key x) l1 -> Forall (fun y => key x < key y) l2 ->
  keys_sorted (l1 ++ x :: l2).
Proof.
  rewrite !keys_sorted_app, keys_sorted_cons. intros (H1 & H2 & H3) Hl Hr.
  repeat split; [done..|]. intros a b Ha [->|Hb]%elem_of_cons; [|auto].
  rewrite Forall_forall in Hl. auto.
Qed.

Lemma keys_sorted_remove l1 x l2 : keys_sorted (l1 ++ x :: l2) -> keys_sorted (l1 ++ l2).
Proof.
  rewrite !keys_sorted_app, keys_sorted_cons. intros (H1 & [H2 _] & H3).
  repeat split; [done..|]. intros a b Ha Hb. apply H3; [done|by right].
Qed.

Lemma keys_sorted_middle l1 x l2 : keys_sorted (l1 ++ x :: l2) ->
  Forall (fun y => key y < key x) l1 /\ Forall (fun y => key x < key y) l2.
Proof.
  rewrite keys_sorted_app, keys_sorted_cons. intros (_ & [_ H2] & H3). split; [|done].
  apply Forall_forall. intros y Hy. apply H3; [done|by left].
Qed.

(** Keys in a range bound the length. *)
Lemma keys_sorted_length (a b : Z) l : keys_sorted l -> Forall (fun x => a <= key x < b) l ->
  Z.of_nat (length l) <= Z.max 0 (b - a).
Proof.
  revert a. induction l as [|x l IH]; intros a Hs Hr; [cbn; lia|].
  apply keys_sorted_cons in Hs as [Hs Hx]. apply Forall_cons in Hr as [Hxr Hr].
  assert (Forall (fun y => key x + 1 <= key y < b) l) as Hr'.
  { apply Forall_forall. intros y Hy. rewrite Forall_forall in Hx. rewrite Forall_forall in Hr.
    specialize (Hx y Hy). specialize (Hr y Hy). lia. }
  specialize (IH (key x + 1) Hs Hr'). cbn [length]. lia.
Qed.

(** Changing payloads but no key keeps the order. *)
Lemma keys_sorted_fmap (f : A -> A) l :
  (forall x, key (f x) = key x) -> keys_sorted (f <$> l) <-> keys_sorted l.
Proof.
  intros Hf. unfold keys_sorted. rewrite <- list_fmap_compose.
  by rewrite (list_fmap_ext (key ∘ f) key l) by (intros; apply Hf).
Qed.

(** The finite map a sequence stands for. *)
Definition kmap {B : Type} (f : A -> B) (l : list A) : gmap Z B :=
  list_to_map ((fun x => (key x, f x)) <$> l).

Lemma kmap_lookup_none {B : Type} (f : A -> B) l k :
  Forall (fun y => key y <> k) l -> kmap f l !! k = None.
Proof.
  induction 1 as [|x l Hx _ IH]; [done|]. cbn. by rewrite lookup_insert_ne.
Qed.

Lemma kmap_middle {B : Type} (f : A -> B) l1 x l2 :
  Forall (fun y => key y <> key x) l1 ->
  kmap f (l1 ++ x :: l2) = <[key x := f x]> (kmap f (l1 ++ l2)).
Proof.
  induction 1 as [|y l1 Hy _ IH]; [done|]. cbn in *. fold (kmap f (l1 ++ x :: l2)).
  unfold kmap in *. rewrite IH. by rewrite insert_insert_ne.
Qed.

Lemma keys_lt_ne k l : Forall (fun y => key y < k) l -> Forall (fun y => key y <> k) l.
Proof. intros H. eapply Forall_impl; [exact H|]. cbn. lia. Qed.

Lemma keys_gt_ne k l : Forall (fun y => k < key y) l -> Forall (fun y => key y <> k) l.
Proof. intros H. eapply Forall_impl; [exact H|]. cbn. lia. Qed.

Lemma kmap_app_none {B : Type} (f : A -> B) l1 l2 k :
  Forall (fun y => key y < k) l1 -> Forall (fun y => k < key y) l2 -> kmap f (l1 ++ l2) !! k = None.
Proof.
  intros H1 H2. apply kmap_lookup_none, Forall_app. split; [by apply keys_lt_ne|by apply keys_gt_ne].
Qed.

Lemma kmap_middle_lookup {B : Type} (f : A -> B) l1 x l2 :
  Forall (fun y => key y < key x) l1 -> kmap f (l1 ++ x :: l2) !! key x = Some (f x).
Proof. intros H. rewrite kmap_middle by (by apply keys_lt_ne). apply lookup_insert_eq. Qed.

Lemma fmap_other_keys (f : A -> A) k l :
  Forall (fun y => key y <> k) l -> (fun x => if key x =? k then f x else x) <$> l = l.
Proof.
  induction 1 as [|y l Hy _ IH]; [done|]. cbn. rewrite IH. by destruct (Z.eqb_spec (key y) k).
Qed.

(** A store through the pointer to one node of a sorted tree. *)
Lemma rb_update_middle (f : A -> A) (t : rbtree A) l1 x l2 :
  rb_inorder t = l1 ++ x :: l2 -> keys_sorted (l1 ++ x :: l2) ->
  rb_inorder (rb_update (fun y => key y =? key x) f t) = l1 ++ f x :: l2.
Proof.
  intros Ht Hs. apply keys_sorted_middle in Hs as [H1 H2].
  rewrite rb_inorder_update, Ht, fmap_app. cbn. rewrite Z.eqb_refl.
  by rewrite !fmap_other_keys by auto using keys_lt_ne, keys_gt_ne.
Qed.

(** Unlinking one node of a sorted tree. *)
Lemma rb_erase_middle `{RbTreeSpec} (t : rbtree A) l1 x l2 :
  rb_inorder t = l1 ++ x :: l2 -> keys_sorted (l1 ++ x :: l2) ->
  rb_inorder (rb_erase (fun y => key y =? key x) t) = l1 ++ l2.
Proof.
  intros Ht Hs. apply keys_sorted_middle in Hs as [H1 H2].
  eapply rb_erase_inorder; [exact Ht|apply Z.eqb_refl|..];
    (eapply Forall_impl; [eassumption|]; cbn; intros y Hy; apply Z.eqb_neq; lia).
Qed.

(** Replacing the value of one key, and adding or dropping one key. *)
Lemma kmap_replace {B : Type} (f : A -> B) l1 x x' l2 :
  key x' = key x -> keys_sorted (l1 ++ x :: l2) ->
  kmap f (l1 ++ x' :: l2) = <[key x := f x']> (kmap f (l1 ++ x :: l2)).
Proof.
  intros Hk Hs. apply keys_sorted_middle in Hs as [H1 _]. pose proof (keys_lt_ne _ _ H1).
  rewrite (kmap_middle f l1 x), (kmap_middle f l1 x') by (rewrite ?Hk; done).
  by rewrite Hk, insert_insert_eq.
Qed.

Lemma kmap_remove {B : Type} (f : A -> B) l1 x l2 :
  keys_sorted (l1 ++ x :: l2) -> kmap f (l1 ++ l2) = delete (key x) (kmap f (l1 ++ x :: l2)).
Proof.
  intros Hs. apply keys_sorted_middle in Hs as [H1 H2]. pose proof (keys_lt_ne _ _ H1).
  rewrite kmap_middle by done. rewrite delete_insert_eq. symmetry. apply delete_id.
  by apply kmap_app_none.
Qed.
End keyed.

#[export] Hint Resolve keys_lt_ne keys_gt_ne : jindisk.
