(* ===== verification/Layout.v ===== *)
(** * Layout: the on-disk regions and the capacity of a device

    The size and position formulas of [kernel-module/c/src/metadata.c] and
    [lsm_tree.c], the superblock that [superblock_init] builds when it
    formats, the capacity probe [calc_avail_sectors] and the admission test of
    [dm_jindisk_target_ctr]. All arithmetic is 64-bit unsigned. *)
From S2P Require Import Prelude.

Notation "a +u b" := (u64 (a + b)) (at level 50, left associativity) : jindisk_scope.
Notation "a -u b" := (u64 (a - b)) (at level 50, left associativity) : jindisk_scope.
Notation "a *u b" := (u64 (a * b)) (at level 40, left associativity) : jindisk_scope.

(** ** Constants of the headers *)
Definition SECTOR_SIZE : Z := 512.
Definition SECTORS_PER_BLOCK : Z := 8.
Definition BLOCKS_PER_SEGMENT : Z := 1024.
Definition SECTORS_PER_SEGMENT : Z := SECTORS_PER_BLOCK * BLOCKS_PER_SEGMENT.
Definition DATA_BLOCK_SIZE : Z := SECTORS_PER_BLOCK * SECTOR_SIZE.
Definition METADATA_BLOCK_SIZE : Z := 4096.
Definition BITS_PER_LONG : Z := 64.
Definition NR_GC_PRESERVED : Z := 320.
Definition NR_JOURNAL_SEGMENT : Z := 16.
Definition NR_CHECKPOINT_PACKS : Z := 2.
Definition DEFAULT_LSM_TREE_NR_DISK_LEVEL : Z := 2.
Definition DEFAULT_LSM_LEVEL0_NR_FILE : Z := 1.
Definition DEFAULT_LSM_FILE_CAPACITY : Z := 131072.
Definition LSM_TREE_DISK_LEVEL_COMMON_RATIO : Z := 10.
Definition DEFAULT_BIT_DEGREE : Z := 32.
Definition BIT_LEAF_LEN : Z := 128.
Definition SUPERBLOCK_LOCATION : Z := 0.
Definition SUPERBLOCK_MAGIC : Z := 0x22946.
Definition AES_GCM_KEY_SIZE : Z := 16.
Definition AES_GCM_IV_SIZE : Z := 12.
Definition AES_GCM_AUTH_SIZE : Z := 16.

(** ** Sizes of the packed structures, field by field *)

(** [struct record]: pba, mac, key. *)
Definition sizeof_record : Z := 8 + AES_GCM_AUTH_SIZE + AES_GCM_KEY_SIZE.
(** [struct bit_child]: the one-bit flag occupies a byte; key, pos. *)
Definition sizeof_bit_child : Z := 1 + 4 + 8.
(** [struct bit_leaf]: nr_record, keys, records, next_pos. *)
Definition BIT_LEAF_SIZE : Z := 8 + BIT_LEAF_LEN * 4 + BIT_LEAF_LEN * sizeof_record + 8.
(** [struct bit_inner]: nr_child, children. *)
Definition BIT_INNER_SIZE : Z := 8 + DEFAULT_BIT_DEGREE * sizeof_bit_child.
Definition BIT_NODE_UNION_SIZE : Z := Z.max BIT_LEAF_SIZE BIT_INNER_SIZE.
(** [struct bit_node]: the flag byte, the union, the mac. *)
Definition BIT_NODE_SIZE : Z := 1 + BIT_NODE_UNION_SIZE + AES_GCM_AUTH_SIZE.
Definition BIT_LEAF_NODE_SIZE : Z := BIT_NODE_SIZE - BIT_NODE_UNION_SIZE + BIT_LEAF_SIZE.
Definition BIT_INNER_NODE_SIZE : Z := BIT_NODE_SIZE - BIT_NODE_UNION_SIZE + BIT_INNER_SIZE.
(** [struct dst_entry]: nr_valid_block and a bitmap of a segment's blocks. *)
Definition sizeof_dst_entry : Z := 8 + BLOCKS_PER_SEGMENT / 8.
Definition sizeof_reverse_index_entry : Z := 8.
(** [struct file_stat]: root, root_key, root_iv, id/level/version,
    first_key/last_key/nr_record, list node. *)
Definition sizeof_file_stat : Z :=
  8 + AES_GCM_KEY_SIZE + AES_GCM_IV_SIZE + 3 * 8 + 3 * 4 + 16.
(** [struct journal_record]: the tag, then the largest member of the union,
    [checkpoint_pack_record] (76 bytes, padded to 80), aligned to 64. *)
Definition sizeof_journal_record : Z := ((8 + 80 - 1) / 64 + 1) * 64.
(** [struct crypto_info]: a mac and an iv, aligned to 32. *)
Definition sizeof_crypto_info : Z := ((AES_GCM_AUTH_SIZE + AES_GCM_IV_SIZE - 1) / 32 + 1) * 32.
Definition RECORDS_PER_BLOCK : Z := (4096 - 2 * sizeof_crypto_info) / sizeof_journal_record.
Definition RECORDS_PER_SEGMENT : Z := RECORDS_PER_BLOCK * BLOCKS_PER_SEGMENT.
Definition MAX_BLOCKS : Z := BLOCKS_PER_SEGMENT * NR_JOURNAL_SEGMENT.
Definition MAX_RECORDS : Z := MAX_BLOCKS * RECORDS_PER_BLOCK.
(** [struct superblock] with its in-memory tail: the 132 bytes that are
    encrypted, root_mac, root_key, root_iv, bc and four method pointers. *)
Definition SUPERBLOCK_ENCRYPTED_SIZE : Z := 132.
Definition sizeof_superblock : Z :=
  SUPERBLOCK_ENCRYPTED_SIZE + AES_GCM_AUTH_SIZE + AES_GCM_KEY_SIZE + AES_GCM_IV_SIZE + 8 + 4 * 8.
Definition STRUCTURE_BLOCKS (size : Z) : Z :=
  if size =? 0 then 0 else (size - 1) / METADATA_BLOCK_SIZE + 1.

(** ** Shape of a block index table *)
Definition nr_leaf_of (nr_record : Z) : Z :=
  let nr_leaf := nr_record / BIT_LEAF_LEN in
  let rem := u32 (nr_record mod BIT_LEAF_LEN) in
  if rem =? 0 then nr_leaf else nr_leaf +u 1.

(** The two [while (size < nr_leaf)] loops; [None] when the fuel runs out. *)
Fixpoint bit_height_loop (fuel : nat) (height size nr_leaf nr_degree : Z) : option Z :=
  match fuel with
  | O => None
  | S fuel =>
      if size <? nr_leaf
      then bit_height_loop fuel (height +u 1) (size *u nr_degree) nr_leaf nr_degree
      else Some height
  end.

Definition __bit_height (nr_record nr_degree : Z) : option Z :=
  if nr_record =? 0 then Some 0
  else bit_height_loop 65 1 1 (nr_leaf_of nr_record) nr_degree.

Fixpoint bit_array_len_loop (fuel : nat) (len size nr_leaf nr_degree : Z) : option Z :=
  match fuel with
  | O => None
  | S fuel =>
      if size <? nr_leaf
      then bit_array_len_loop fuel (len +u size) (size *u nr_degree) nr_leaf nr_degree
      else Some len
  end.

Definition __bit_array_len (nr_record nr_degree : Z) : option Z :=
  if nr_record =? 0 then Some 0
  else
    let nr_leaf := nr_leaf_of nr_record in
    match bit_array_len_loop 65 0 1 nr_leaf nr_degree with
    | Some len => Some (len +u nr_leaf)
    | None => None
    end.

Definition calculate_bit_size (nr_record nr_degree : Z) : option Z :=
  if nr_record =? 0 then Some 0
  else
    let nr_leaf := nr_leaf_of nr_record in
    match __bit_array_len nr_record nr_degree with
    | Some len => Some (((len -u nr_leaf) *u BIT_INNER_NODE_SIZE) +u (nr_leaf *u BIT_LEAF_NODE_SIZE))
    | None => None
    end.

(** Size in bytes of the area of one index file:
    [calculate_bit_size(DEFAULT_LSM_FILE_CAPACITY, DEFAULT_BIT_DEGREE)], a
    call that terminates ([lsm_file_size_value]). *)
Definition lsm_file_size : Z :=
  default 0 (calculate_bit_size DEFAULT_LSM_FILE_CAPACITY DEFAULT_BIT_DEGREE).

(** ** Blocks taken by each region *)
Definition __bytes_to_block (bytes block_size : Z) : Z :=
  if bytes =? 0 then 0 else ((bytes -u 1) / block_size) +u 1.

Definition __disk_array_blocks (nr_elem elem_size block_size : Z) : Z :=
  if elem_size =? 0 then 0
  else
    let elems_per_block := block_size / elem_size in
    (nr_elem / elems_per_block) +u 1.

(** The loop [for (i = 1; i < nr_disk_level; ++i)]. *)
Fixpoint total_bit_loop (n : nat) (common_ratio capacity total : Z) : Z :=
  match n with
  | O => total
  | S n =>
      total_bit_loop n common_ratio (capacity / common_ratio)
        (total +u (if capacity =? 0 then 0
                   else ((capacity -u 1) / DEFAULT_LSM_FILE_CAPACITY) +u 1))
  end.

Definition __total_bit (nr_disk_level common_ratio max_disk_level_capacity : Z) : Z :=
  total_bit_loop (Z.to_nat (nr_disk_level - 1)) common_ratio max_disk_level_capacity 0
    +u DEFAULT_LSM_LEVEL0_NR_FILE.

Definition __extra_bit (max_disk_level_capacity : Z) : Z :=
  __total_bit 2 LSM_TREE_DISK_LEVEL_COMMON_RATIO max_disk_level_capacity.

Definition __index_region_blocks (nr_disk_level common_ratio max_disk_level_capacity : Z) : Z :=
  let total_bit := __total_bit nr_disk_level common_ratio max_disk_level_capacity in
  let extra_bit := __extra_bit max_disk_level_capacity in
  __bytes_to_block ((total_bit +u extra_bit) *u lsm_file_size) METADATA_BLOCK_SIZE.

Definition __seg_validity_table_blocks (nr_segment : Z) : Z :=
  if nr_segment =? 0 then 0
  else ((((((nr_segment -u 1) / BITS_PER_LONG) +u 1) *u 8) -u 1) / METADATA_BLOCK_SIZE) +u 1.

Definition __data_seg_table_blocks (nr_segment : Z) : Z :=
  __disk_array_blocks nr_segment sizeof_dst_entry METADATA_BLOCK_SIZE.

Definition __reverse_index_table_blocks (nr_block : Z) : Z :=
  __disk_array_blocks nr_block sizeof_reverse_index_entry METADATA_BLOCK_SIZE.

Definition __bit_catalogue_blocks (nr_fd : Z) : Z :=
  __disk_array_blocks nr_fd sizeof_file_stat METADATA_BLOCK_SIZE.

Definition calc_metadata_blocks (nr_segment : Z) : Z :=
  let nr_bits :=
    __total_bit DEFAULT_LSM_TREE_NR_DISK_LEVEL LSM_TREE_DISK_LEVEL_COMMON_RATIO
      (nr_segment *u BLOCKS_PER_SEGMENT)
    +u __extra_bit (nr_segment *u BLOCKS_PER_SEGMENT) in
  STRUCTURE_BLOCKS sizeof_superblock
  +u __index_region_blocks DEFAULT_LSM_TREE_NR_DISK_LEVEL LSM_TREE_DISK_LEVEL_COMMON_RATIO
       (nr_segment *u BLOCKS_PER_SEGMENT)
  +u NR_JOURNAL_SEGMENT * BLOCKS_PER_SEGMENT
  +u (__seg_validity_table_blocks nr_segment *u NR_CHECKPOINT_PACKS)
  +u (__data_seg_table_blocks nr_segment *u NR_CHECKPOINT_PACKS)
  +u (__reverse_index_table_blocks (nr_segment *u BLOCKS_PER_SEGMENT) *u NR_CHECKPOINT_PACKS)
  +u (__seg_validity_table_blocks nr_bits *u NR_CHECKPOINT_PACKS)
  +u (__bit_catalogue_blocks nr_bits *u NR_CHECKPOINT_PACKS).

(** ** The superblock

    [struct superblock] without its method pointers and buffer client; the
    root key and iv are kept by the caller of the operations. *)
Record superblock : Type := Superblock {
  csum : Z;
  magic : Z;
  blocks_per_seg : Z;
  nr_segment : Z;
  data_start : Z;
  common_ratio : Z;
  nr_disk_level : Z;
  max_disk_level_capacity : Z;
  index_region_start : Z;
  journal_size : Z;
  nr_journal : Z;
  record_start : Z;
  record_end : Z;
  last_checkpoint_pack : Z;
  journal_region_start : Z;
  seg_validity_table_start : Z;
  data_seg_table_start : Z;
  reverse_index_table_start : Z;
  block_index_table_catalogue_start : Z
}.

#[export] Instance superblock_eq_dec : EqDecision superblock.
Proof. solve_decision. Defined.

(** The assignments of the [format] branch of [superblock_init], before the
    superblock is written. [NR_SEGMENT] is the global the constructor sets;
    [csum0] and [lcp0] are the fields of the [kmalloc]ed object the branch
    does not assign. *)
Definition superblock_format (NR_SEGMENT csum0 lcp0 : Z) : superblock :=
  let nr_segment := NR_SEGMENT +u NR_GC_PRESERVED in
  let common_ratio := LSM_TREE_DISK_LEVEL_COMMON_RATIO in
  let nr_disk_level := DEFAULT_LSM_TREE_NR_DISK_LEVEL in
  let capacity := nr_segment *u BLOCKS_PER_SEGMENT in
  let index_region_start := SUPERBLOCK_LOCATION +u STRUCTURE_BLOCKS sizeof_superblock in
  let journal_region_start :=
    index_region_start +u __index_region_blocks nr_disk_level common_ratio capacity in
  let seg_validity_table_start :=
    journal_region_start +u NR_JOURNAL_SEGMENT * BLOCKS_PER_SEGMENT in
  let data_seg_table_start :=
    seg_validity_table_start +u (__seg_validity_table_blocks nr_segment *u NR_CHECKPOINT_PACKS) in
  let reverse_index_table_start :=
    data_seg_table_start +u (__data_seg_table_blocks nr_segment *u NR_CHECKPOINT_PACKS) in
  let block_index_table_catalogue_start :=
    reverse_index_table_start
    +u (__reverse_index_table_blocks (nr_segment *u BLOCKS_PER_SEGMENT) *u NR_CHECKPOINT_PACKS) in
  let nr_bits := __total_bit nr_disk_level common_ratio capacity +u __extra_bit capacity in
  let data_start :=
    block_index_table_catalogue_start
    +u ((__seg_validity_table_blocks nr_bits +u __bit_catalogue_blocks nr_bits)
          *u NR_CHECKPOINT_PACKS) in
  {| csum := csum0; magic := SUPERBLOCK_MAGIC; blocks_per_seg := BLOCKS_PER_SEGMENT;
     nr_segment := nr_segment; data_start := data_start; common_ratio := common_ratio;
     nr_disk_level := nr_disk_level; max_disk_level_capacity := capacity;
     index_region_start := index_region_start; journal_size := sizeof_journal_record;
     nr_journal := MAX_RECORDS; record_start := 0; record_end := 0;
     last_checkpoint_pack := lcp0; journal_region_start := journal_region_start;
     seg_validity_table_start := seg_validity_table_start;
     data_seg_table_start := data_seg_table_start;
     reverse_index_table_start := reverse_index_table_start;
     block_index_table_catalogue_start := block_index_table_catalogue_start |}.

(** ** Capacity of a device *)

(** The probing loop of [calc_avail_sectors]; [None] when the fuel runs out. *)
Fixpoint calc_avail_loop (fuel : nat) (real_sectors avail_sectors step_segments : Z) : option Z :=
  match fuel with
  | O => None
  | S fuel =>
      if (avail_sectors <? real_sectors) && negb (step_segments =? 0) then
        let probe_sectors := avail_sectors +u (step_segments *u SECTORS_PER_SEGMENT) in
        let total_segments := (probe_sectors / SECTORS_PER_SEGMENT) +u NR_GC_PRESERVED in
        let meta_sectors := calc_metadata_blocks total_segments *u SECTORS_PER_BLOCK in
        if meta_sectors <=? real_sectors -u probe_sectors
        then calc_avail_loop fuel real_sectors probe_sectors step_segments
        else calc_avail_loop fuel real_sectors avail_sectors (Z.shiftr step_segments 1)
      else Some avail_sectors
  end.

Definition calc_avail_sectors (real_sectors : Z) : option Z :=
  if real_sectors <? NR_GC_PRESERVED * SECTORS_PER_SEGMENT then Some 0
  else
    let real_sectors := real_sectors -u NR_GC_PRESERVED * SECTORS_PER_SEGMENT in
    calc_avail_loop 200 real_sectors 0 (Z.shiftr real_sectors 1 / SECTORS_PER_SEGMENT).

(** The admission test of [dm_jindisk_target_ctr]: the metadata of the target,
    its own length and the preserved segments must fit on the raw device. *)
Definition ctr_nr_segment (target_len : Z) : Z := target_len / SECTORS_PER_SEGMENT.

Definition ctr_total_sector (target_len : Z) : Z :=
  (calc_metadata_blocks (ctr_nr_segment target_len +u NR_GC_PRESERVED) *u SECTORS_PER_BLOCK)
  +u target_len +u NR_GC_PRESERVED * SECTORS_PER_SEGMENT.

Definition ctr_admits (target_len devsize : Z) : bool :=
  negb (devsize <? ctr_total_sector target_len).

(** ** Arithmetic of the formulas *)

Lemma lsm_file_size_value : lsm_file_size = 5815513.
Proof. reflexivity. Qed.

(** The formulas without wrap-around, for a device of less than 2^50 segments. *)
Definition seg_table_blocks_z (n : Z) : Z := (((n - 1) / 64 + 1) * 8 - 1) / 4096 + 1.
Definition total_bit_z (n : Z) : Z := (n * 1024 - 1) / 131072 + 2.
Definition metadata_blocks_z (n : Z) : Z :=
  1 + ((2 * total_bit_z n * 5815513 - 1) / 4096 + 1) + 16384
  + seg_table_blocks_z n * 2 + (n / 30 + 1) * 2 + (n * 1024 / 512 + 1) * 2
  + seg_table_blocks_z (2 * total_bit_z n) * 2 + (2 * total_bit_z n / 46 + 1) * 2.

Lemma total_bit_exact n : 0 < n < 2 ^ 46 ->
  __total_bit 2 10 (n *u 1024) = total_bit_z n.
Proof.
  intros Hn. unfold __total_bit, total_bit_z. change (Z.to_nat (2 - 1)) with 1%nat. cbn [total_bit_loop].
  unfold DEFAULT_LSM_FILE_CAPACITY, DEFAULT_LSM_LEVEL0_NR_FILE.
  rewrite (u64_small (n * 1024)) by lia.
  destruct (Z.eqb_spec (n * 1024) 0); [lia|]. u64_norm. lia.
Qed.

Lemma seg_table_blocks_exact n : 0 < n < 2 ^ 50 ->
  __seg_validity_table_blocks n = seg_table_blocks_z n.
Proof.
  intros Hn. unfold __seg_validity_table_blocks, seg_table_blocks_z, BITS_PER_LONG, METADATA_BLOCK_SIZE.
  destruct (Z.eqb_spec n 0); [lia|]. u64_norm. lia.
Qed.

Lemma disk_array_blocks_exact n size per : 0 <= n < 2 ^ 62 ->
  size <> 0 -> 4096 / size = per -> 0 < per ->
  __disk_array_blocks n size 4096 = n / per + 1.
Proof.
  intros Hn Hs Hp Hpos. unfold __disk_array_blocks. destruct (Z.eqb_spec size 0); [done|].
  rewrite Hp. apply u64_small.
  assert (0 <= n / per <= n) by (split; [apply Z.div_pos | apply Z.div_le_upper_bound]; nia). lia.
Qed.

Lemma total_bit_z_bounds n : 0 < n < 2 ^ 46 ->
  n <= 128 * (total_bit_z n - 1) /\ 128 * (total_bit_z n - 2) < n.
Proof. intros. unfold total_bit_z. divmod_lia. Qed.

Lemma index_region_blocks_exact n : 0 < n < 2 ^ 46 ->
  __index_region_blocks 2 10 (n *u 1024) = (2 * total_bit_z n * 5815513 - 1) / 4096 + 1.
Proof.
  intros Hn. pose proof (total_bit_z_bounds n Hn) as Hb.
  unfold __index_region_blocks, __extra_bit, __bytes_to_block, METADATA_BLOCK_SIZE,
    LSM_TREE_DISK_LEVEL_COMMON_RATIO.
  rewrite lsm_file_size_value, !total_bit_exact by done.
  rewrite (u64_small (total_bit_z n + total_bit_z n)) by lia.
  replace (total_bit_z n + total_bit_z n) with (2 * total_bit_z n) by lia.
  rewrite (u64_small (2 * total_bit_z n * 5815513)) by lia.
  destruct (Z.eqb_spec (2 * total_bit_z n * 5815513) 0); [lia|]. u64_norm. lia.
Qed.

Lemma calc_metadata_blocks_exact n : 0 < n < 2 ^ 46 ->
  calc_metadata_blocks n = metadata_blocks_z n.
Proof.
  intros Hn. pose proof (total_bit_z_bounds n Hn) as Hb.
  unfold calc_metadata_blocks, __extra_bit, __data_seg_table_blocks, __reverse_index_table_blocks,
    __bit_catalogue_blocks, sizeof_dst_entry, sizeof_reverse_index_entry, sizeof_file_stat,
    DEFAULT_LSM_TREE_NR_DISK_LEVEL, LSM_TREE_DISK_LEVEL_COMMON_RATIO, BLOCKS_PER_SEGMENT,
    METADATA_BLOCK_SIZE, NR_JOURNAL_SEGMENT, NR_CHECKPOINT_PACKS.
  rewrite index_region_blocks_exact, total_bit_exact, seg_table_blocks_exact by lia.
  rewrite (u64_small (total_bit_z n + total_bit_z n)) by lia.
  replace (total_bit_z n + total_bit_z n) with (2 * total_bit_z n) by lia.
  rewrite (u64_small (n * 1024)) by lia.
  rewrite (disk_array_blocks_exact n _ 30), (disk_array_blocks_exact (n * 1024) _ 512),
    (disk_array_blocks_exact (2 * total_bit_z n) _ 46) by (lia || done || reflexivity).
  rewrite seg_table_blocks_exact by lia.
  change (STRUCTURE_BLOCKS sizeof_superblock) with 1. change (16 * 1024) with 16384.
  unfold metadata_blocks_z.
  assert (seg_table_blocks_z n <= 2 ^ 46 /\ 0 <= seg_table_blocks_z n) by (unfold seg_table_blocks_z; divmod_lia).
  assert (seg_table_blocks_z (2 * total_bit_z n) <= 2 ^ 46 /\ 0 <= seg_table_blocks_z (2 * total_bit_z n))
    by (unfold seg_table_blocks_z; divmod_lia).
  assert (0 <= n / 30 <= 2 ^ 46) by divmod_lia.
  assert (0 <= n * 1024 / 512 <= 2 ^ 47) by divmod_lia.
  assert (0 <= 2 * total_bit_z n / 46 <= 2 ^ 46) by divmod_lia.
  assert (0 <= (2 * total_bit_z n * 5815513 - 1) / 4096 <= 2 ^ 57) by divmod_lia.
  rewrite !(u64_small (_ * 2)) by lia. 
  repeat (rewrite (u64_small (1 + _)) by lia). 
  u64_norm. lia.
Qed.

Lemma seg_table_blocks_mono a b : a <= b -> seg_table_blocks_z a <= seg_table_blocks_z b.
Proof. intros. unfold seg_table_blocks_z. divmod_lia. Qed.

Lemma total_bit_mono a b : a <= b -> total_bit_z a <= total_bit_z b.
Proof. intros. unfold total_bit_z. divmod_lia. Qed.

Lemma metadata_blocks_mono a b : a <= b -> metadata_blocks_z a <= metadata_blocks_z b.
Proof.
  intros Hab. pose proof (total_bit_mono a b Hab).
  pose proof (seg_table_blocks_mono a b Hab).
  pose proof (seg_table_blocks_mono (2 * total_bit_z a) (2 * total_bit_z b) ltac:(lia)).
  unfold metadata_blocks_z.
  assert (a / 30 <= b / 30) by (apply Z.div_le_mono; lia).
  assert (a * 1024 / 512 <= b * 1024 / 512) by (apply Z.div_le_mono; lia).
  assert (2 * total_bit_z a / 46 <= 2 * total_bit_z b / 46) by (apply Z.div_le_mono; lia).
  assert ((2 * total_bit_z a * 5815513 - 1) / 4096 <= (2 * total_bit_z b * 5815513 - 1) / 4096)
    by (apply Z.div_le_mono; lia).
  lia.
Qed.

(** Metadata grows by at least 25 blocks per segment, on top of a constant. *)
Lemma metadata_blocks_lower n : 0 <= n -> 25 * n + 19000 <= metadata_blocks_z (n + 320).
Proof.
  intros Hn. unfold metadata_blocks_z.
  assert (n + 320 <= 128 * (total_bit_z (n + 320) - 1)) by (unfold total_bit_z; divmod_lia).
  assert (1 <= seg_table_blocks_z (n + 320)) by (unfold seg_table_blocks_z; divmod_lia).
  assert (1 <= seg_table_blocks_z (2 * total_bit_z (n + 320))) by (unfold seg_table_blocks_z; divmod_lia).
  assert (0 <= (n + 320) / 30) by (apply Z.div_pos; lia).
  assert ((n + 320) * 1024 / 512 = (n + 320) * 2) as -> by (rewrite <- (Z.div_mul ((n + 320) * 2) 512); [f_equal; lia | lia]).
  assert (0 <= 2 * total_bit_z (n + 320) / 46) by (apply Z.div_pos; lia).
  assert (2839 * total_bit_z (n + 320) - 1 <= (2 * total_bit_z (n + 320) * 5815513 - 1) / 4096)
    by (apply Z.div_le_lower_bound; lia).
  lia.
Qed.

(** ** The capacity probe finds the largest capacity *)

(** [n] segments of data, their metadata and the preserved segments fit on a
    device of [real] sectors. *)
Definition device_fits (real n : Z) : Prop :=
  calc_metadata_blocks (n + NR_GC_PRESERVED) * SECTORS_PER_BLOCK
  + (n + NR_GC_PRESERVED) * SECTORS_PER_SEGMENT <= real.

Section capacity_probe.
(** [R]: the sectors left once the preserved segments are set aside;
    [T]: twice the first step, the furthest position that is probed. *)
Context (R T : Z).
Context (HR : 0 <= R < 2 ^ 58) (HT : 0 <= T) (HTR : T * 8192 <= R < (T + 2) * 8192).

Let fits (n : Z) : Prop := metadata_blocks_z (n + 320) * 8 + n * 8192 <= R.

Lemma fits_anti a b : a <= b -> fits b -> fits a.
Proof. unfold fits. intros Hab ?. pose proof (metadata_blocks_mono (a + 320) (b + 320)). lia. Qed.

Lemma fits_bound n : 0 <= n -> fits n -> 8392 * n + 152000 <= R.
Proof. unfold fits. intros Hn ?. pose proof (metadata_blocks_lower n Hn). lia. Qed.

Lemma fits_dec n : { fits n } + { ~ fits n }.
Proof. apply Z_le_dec. Defined.

(** One iteration of the loop at a position inside the device. *)
Lemma calc_avail_loop_step fuel a s :
  0 <= a -> 0 < s -> a + s <= T ->
  calc_avail_loop (S fuel) R (a * 8192) s =
  if fits_dec (a + s) then calc_avail_loop fuel R ((a + s) * 8192) s
  else calc_avail_loop fuel R (a * 8192) (s / 2).
Proof.
  intros Ha Hs Hp. cbn [calc_avail_loop].
  change SECTORS_PER_SEGMENT with 8192. change NR_GC_PRESERVED with 320. change SECTORS_PER_BLOCK with 8.
  destruct (Z.ltb_spec (a * 8192) R); [|lia]. destruct (Z.eqb_spec s 0); [lia|]. cbn [andb negb].
  rewrite (u64_small (s * 8192)), (u64_small (a * 8192 + s * 8192)) by lia.
  replace (a * 8192 + s * 8192) with ((a + s) * 8192) by lia.
  rewrite Z.div_mul, (u64_small (a + s + 320)), (u64_small (R - _)) by lia.
  rewrite calc_metadata_blocks_exact by lia.
  assert (0 <= metadata_blocks_z (a + s + 320) < 2 ^ 60) as Hm.
  { pose proof (metadata_blocks_lower (a + s)). rewrite <- calc_metadata_blocks_exact by lia.
    rewrite calc_metadata_blocks_exact by lia. split; [lia|].
    pose proof (total_bit_z_bounds (a + s + 320) ltac:(lia)).
    unfold metadata_blocks_z, seg_table_blocks_z. divmod_lia. }
  rewrite u64_small by lia. rewrite Z.shiftr_div_pow2 by lia. change (2 ^ 1) with 2.
  unfold fits in *. destruct (Z.leb_spec (metadata_blocks_z (a + s + 320) * 8) (R - (a + s) * 8192));
    destruct (fits_dec (a + s)) as [H'|H']; unfold fits in H'; try reflexivity; lia.
Qed.

(** Where the probe stands. Below the first half it doubles back on the end
    of the device ([probe_high], [probe_mid]); once a position has failed
    well inside, it stays below it ([probe_low]). *)
Inductive probe_phase (a s : Z) : Prop :=
  | probe_low F : ~ fits F -> a < F -> F - 1 + s <= T -> probe_phase a s
  | probe_high j : 0 <= j <= 6 -> T - j <= a + 2 * s <= T -> s * 2 ^ (j + 1) <= T -> probe_phase a s
  | probe_mid j : 0 <= j <= 6 -> fits a -> T - j <= a + s <= T -> s * 2 ^ (j + 1) <= T -> probe_phase a s.

Lemma probe_phase_inside a s : 0 <= s -> probe_phase a s -> a + s <= T.
Proof. intros Hs []; lia. Qed.

Lemma probe_phase_success a s :
  0 <= a -> 0 < s -> fits (a + s) -> probe_phase a s -> probe_phase (a + s) s.
Proof.
  intros Ha Hs Hf []; pose proof (fits_bound (a + s) ltac:(lia) Hf).
  - apply (probe_low _ _ F); [done| |done]. destruct (Z.lt_ge_cases (a + s) F); [done|].
    exfalso. eauto using fits_anti.
  - apply (probe_mid _ _ j); auto; lia.
  - lia.
Qed.

Lemma probe_phase_failure a s :
  0 <= a -> 0 < s -> ~ fits (a + s) -> probe_phase a s -> probe_phase a (s / 2).
Proof.
  intros Ha Hs Hf [F ? ? ?|j Hj ? Hp|j Hj Hfa ? Hp].
  - apply (probe_low _ _ F); [done..|]. divmod_lia.
  - apply (probe_low _ _ (a + s)); [done|lia|divmod_lia].
  - pose proof (fits_bound a Ha Hfa).
    destruct (Z.eq_dec j 6) as [->|]; [exfalso; change (2 ^ (6 + 1)) with 128 in Hp; lia|].
    apply (probe_high _ _ (j + 1)); [lia|divmod_lia|].
    rewrite Z.pow_add_r by lia. change (2 ^ 1) with 2.
    assert (s / 2 * 2 <= s) by divmod_lia. nia.
Qed.

(** [k] more steps of this size reach a position that does not fit. *)
Definition probe_fuel (fuel : nat) (a s : Z) : Prop :=
  (1 <= fuel)%nat /\
  (s = 0 -> ~ fits (a + 1)) /\
  (0 < s -> exists k, 1 <= k /\ ~ fits (a + k * s) /\ k + 3 * Z.log2 s + 2 <= Z.of_nat fuel).

Lemma probe_fuel_success fuel a s :
  0 < s -> fits (a + s) -> probe_fuel (S fuel) a s -> probe_fuel fuel (a + s) s.
Proof.
  intros Hs Hf (_ & _ & Hk). destruct (Hk Hs) as (k & Hk1 & Hnf & Hfuel).
  pose proof (Z.log2_nonneg s).
  destruct (Z.eq_dec k 1) as [->|]; [by rewrite Z.mul_1_l in Hnf|].
  split; [lia|]. split; [lia|]. intros _. exists (k - 1). split; [lia|]. split; [|lia].
  by replace (a + s + (k - 1) * s) with (a + k * s) by lia.
Qed.

Lemma probe_fuel_failure fuel a s :
  0 < s -> ~ fits (a + s) -> probe_fuel (S fuel) a s -> probe_fuel fuel a (s / 2).
Proof.
  intros Hs Hf (_ & _ & Hk). destruct (Hk Hs) as (k & Hk1 & Hnf & Hfuel).
  pose proof (Z.log2_nonneg s). split; [lia|]. split.
  - intros H0. assert (s = 1) as -> by divmod_lia. done.
  - intros Hs2. exists 3. split; [lia|]. split.
    + intros H3. apply Hf. eapply fits_anti; [|exact H3]. divmod_lia.
    + pose proof (Z.log2_shiftr s 1 Hs) as Hl. rewrite Z.shiftr_div_pow2 in Hl by lia.
      change (2 ^ 1) with 2 in Hl. assert (2 <= s) as H2 by divmod_lia.
      apply Z.log2_le_mono in H2. change (Z.log2 2) with 1 in H2. lia.
Qed.

Lemma calc_avail_loop_correct fuel : forall a s,
  0 <= a -> 0 <= s -> a = 0 \/ fits a ->
  probe_phase a s -> probe_fuel fuel a s ->
  exists n, calc_avail_loop fuel R (a * 8192) s = Some (n * 8192) /\ 0 <= n /\
    (n = 0 \/ fits n) /\ ~ fits (n + 1).
Proof.
  induction fuel as [|fuel IH]; intros a s Ha Hs Hfa Hph Hfu; [destruct Hfu; lia|].
  destruct (Z.eq_dec s 0) as [->|Hs0].
  - exists a. destruct Hfu as (_ & Hz & _). cbn [calc_avail_loop].
    rewrite Z.eqb_refl, Bool.andb_false_r. auto.
  - pose proof (probe_phase_inside a s Hs Hph).
    rewrite calc_avail_loop_step by lia. destruct (fits_dec (a + s)) as [Hf|Hf].
    + apply IH; [lia..|by right| |].
      * apply probe_phase_success; auto; lia.
      * apply probe_fuel_success; auto; lia.
    + apply IH; [done|apply Z.div_pos; lia|done| |].
      * apply probe_phase_failure; auto; lia.
      * apply probe_fuel_failure; auto; lia.
Qed.
End capacity_probe.

(** [device_fits] over the formula without wrap-around. *)
Lemma device_fits_exact real n : 0 <= n -> 0 <= real < 2 ^ 58 ->
  device_fits real n <->
  metadata_blocks_z (n + 320) * 8 + n * 8192 <= real - 320 * 8192.
Proof.
  intros Hn Hreal. unfold device_fits, SECTORS_PER_BLOCK, NR_GC_PRESERVED.
  change SECTORS_PER_SEGMENT with 8192.
  destruct (Z.lt_ge_cases (n + 320) (2 ^ 46)) as [Hlt|Hge].
  - rewrite calc_metadata_blocks_exact by lia. lia.
  - assert (0 <= calc_metadata_blocks (n + 320)) by (unfold calc_metadata_blocks; apply u64_range).
    pose proof (metadata_blocks_lower n Hn). lia.
Qed.

(** The result of the probe, in terms of the formula without wrap-around. *)
Lemma calc_avail_sectors_exact real :
  0 <= real < 2 ^ 58 ->
  exists n, calc_avail_sectors real = Some (n * SECTORS_PER_SEGMENT) /\ 0 <= n /\
    (n = 0 \/ metadata_blocks_z (n + 320) * 8 + n * 8192 <= real - 320 * 8192) /\
    (forall m, 0 <= m ->
       metadata_blocks_z (m + 320) * 8 + m * 8192 <= real - 320 * 8192 -> m <= n).
Proof.
  intros Hreal. unfold calc_avail_sectors.
  change (NR_GC_PRESERVED * SECTORS_PER_SEGMENT) with 2621440. change SECTORS_PER_SEGMENT with 8192.
  destruct (Z.ltb_spec real 2621440) as [Hlt|Hge].
  { exists 0. split; [done|]. split; [lia|]. split; [by left|].
    intros m Hm Hf. pose proof (metadata_blocks_lower m Hm). lia. }
  rewrite (u64_small (real - 2621440)) by lia. rewrite Z.shiftr_div_pow2 by lia.
  rewrite Z.div_div by lia. change (2 ^ 1 * 8192) with 16384.
  set (R := real - 2621440) in *. set (s := R / 16384).
  assert (2 * s * 8192 <= R < (2 * s + 2) * 8192) as HTR by (subst s; divmod_lia).
  assert (0 <= s) by (apply Z.div_pos; lia).
  assert (forall n, 0 <= n -> 2 * s <= n ->
    ~ metadata_blocks_z (n + 320) * 8 + n * 8192 <= R) as Hout.
  { intros n Hn Hsn Hf. pose proof (metadata_blocks_lower n Hn). lia. }
  destruct (calc_avail_loop_correct R (2 * s) ltac:(lia) HTR 200 0 s) as (n & Hrun & Hn & Hfit & Hnf);
    [lia|done|by left| | |].
  - apply (probe_high _ _ _ _ 0); [lia..|]. change (2 ^ (0 + 1)) with 2. lia.
  - split; [lia|]. split.
    + intros Hs0. apply Hout; lia.
    + intros Hs0. exists 2. split; [lia|]. split; [apply Hout; lia|].
      assert (Z.log2 s < 58); [|lia]. apply Z.log2_lt_pow2; lia.
  - exists n. split; [done|]. split; [done|]. split.
    + destruct Hfit as [->|Hf]; [by left|right]. lia.
    + intros m Hm Hf. change (320 * 8192) with 2621440 in Hf. fold R in Hf. destruct (Z.le_gt_cases m n) as [|Hgt]; [done|]. exfalso. apply Hnf.
      eapply fits_anti; [|exact Hf]. lia.
Qed.

(** C18. [calc_avail_sectors] returns, within its 200 iterations of fuel, the
    size in sectors of the largest whole number of segments whose data,
    metadata and preserved segments fit on the device: the result fits unless
    it is zero, and no larger number of segments does. *)
Theorem calc_avail_sectors_max real :
  0 <= real < 2 ^ 58 ->
  exists n, calc_avail_sectors real = Some (n * SECTORS_PER_SEGMENT) /\ 0 <= n /\
    (n = 0 \/ device_fits real n) /\
    (forall m, 0 <= m -> device_fits real m -> m <= n).
Proof.
  intros Hreal. destruct (calc_avail_sectors_exact real Hreal) as (n & Hrun & Hn & Hfit & Hmax).
  exists n. split; [done|]. split; [done|]. split.
  - destruct Hfit as [->|Hf]; [by left|right]. by apply device_fits_exact.
  - intros m Hm Hf. apply Hmax; [done|]. by apply device_fits_exact.
Qed.

Lemma calc_avail_sectors_max_witness :
  exists n, calc_avail_sectors 25165824 = Some (n * SECTORS_PER_SEGMENT) /\ 0 <= n /\
    (n = 0 \/ device_fits 25165824 n) /\
    (forall m, 0 <= m -> device_fits 25165824 m -> m <= n).
Proof. apply (calc_avail_sectors_max 25165824). lia. Defined.

(** The figure of the user guide: a 12G disk. *)
Example calc_avail_12g : calc_avail_sectors 25165824 = Some (2654 * SECTORS_PER_SEGMENT).
Proof. vm_compute. reflexivity. Qed.

(** ** The constructor admits what the probe offers *)

Lemma ctr_total_sector_exact len : 0 <= len < 2 ^ 56 ->
  ctr_total_sector len =
  metadata_blocks_z (len / 8192 + 320) * 8 + len + 320 * 8192.
Proof.
  intros Hlen. unfold ctr_total_sector, ctr_nr_segment, SECTORS_PER_BLOCK, NR_GC_PRESERVED.
  change SECTORS_PER_SEGMENT with 8192.
  assert (0 <= len / 8192 < 2 ^ 45) as Hd by divmod_lia.
  rewrite (u64_small (len / 8192 + 320)) by lia. rewrite calc_metadata_blocks_exact by lia.
  assert (0 <= metadata_blocks_z (len / 8192 + 320) < 2 ^ 60).
  { pose proof (metadata_blocks_lower (len / 8192)).
    pose proof (total_bit_z_bounds (len / 8192 + 320) ltac:(lia)). split; [lia|].
    unfold metadata_blocks_z, seg_table_blocks_z. divmod_lia. }
  rewrite (u64_small (metadata_blocks_z _ * 8)) by lia. u64_norm. lia.
Qed.

(** A device whose length is the capacity [calc_avail_sectors] offers (the
    figure [jindisksetup] obtains by ioctl and passes as the target length)
    passes the size test of [dm_jindisk_target_ctr] on the same raw device. *)
Theorem ctr_admits_calc_avail devsize avail :
  0 <= devsize < 2 ^ 56 ->
  calc_avail_sectors devsize = Some avail -> 0 < avail ->
  ctr_admits avail devsize = true.
Proof.
  intros Hdev Hcalc Hpos.
  destruct (calc_avail_sectors_exact devsize ltac:(lia)) as (n & Hn & Hn0 & Hfit & _).
  rewrite Hcalc in Hn. injection Hn as ->. change SECTORS_PER_SEGMENT with 8192 in *.
  destruct Hfit as [->|Hfit]; [lia|].
  assert (0 <= n * 8192 < 2 ^ 56) as Hb by (pose proof (metadata_blocks_lower n Hn0); lia).
  unfold ctr_admits. rewrite ctr_total_sector_exact by lia. rewrite Z.div_mul by lia.
  destruct (Z.ltb_spec devsize (metadata_blocks_z (n + 320) * 8 + n * 8192 + 320 * 8192)); [lia|done].
Qed.

Lemma ctr_admits_calc_avail_witness : ctr_admits (2654 * SECTORS_PER_SEGMENT) 25165824 = true.
Proof.
  apply ctr_admits_calc_avail; [lia| vm_compute; reflexivity | vm_compute; reflexivity].
Defined.

(** ** The regions of a formatted device *)

(** The number of blocks of every region, without wrap-around and bounded. *)
Lemma region_blocks_bounds n : 0 < n < 2 ^ 46 ->
  let bits := 2 * total_bit_z n in
  __index_region_blocks 2 10 (n *u 1024) = (bits * 5815513 - 1) / 4096 + 1 /\
  0 <= (bits * 5815513 - 1) / 4096 <= 2 ^ 57 /\
  __seg_validity_table_blocks n = seg_table_blocks_z n /\ 0 <= seg_table_blocks_z n <= 2 ^ 46 /\
  __data_seg_table_blocks n = n / 30 + 1 /\ 0 <= n / 30 <= 2 ^ 46 /\
  __reverse_index_table_blocks (n * 1024) = n * 1024 / 512 + 1 /\ 0 <= n * 1024 / 512 <= 2 ^ 47 /\
  __total_bit 2 10 (n *u 1024) = total_bit_z n /\ 0 <= bits <= 2 ^ 46 /\
  __seg_validity_table_blocks bits = seg_table_blocks_z bits /\
  0 <= seg_table_blocks_z bits <= 2 ^ 46 /\
  __bit_catalogue_blocks bits = bits / 46 + 1 /\ 0 <= bits / 46 <= 2 ^ 46.
Proof.
  intros Hn bits. pose proof (total_bit_z_bounds n Hn) as Hb. subst bits.
  unfold __data_seg_table_blocks, __reverse_index_table_blocks, __bit_catalogue_blocks,
    sizeof_dst_entry, sizeof_reverse_index_entry, sizeof_file_stat, METADATA_BLOCK_SIZE.
  rewrite index_region_blocks_exact, total_bit_exact, !seg_table_blocks_exact by lia.
  rewrite (disk_array_blocks_exact n _ 30), (disk_array_blocks_exact (n * 1024) _ 512),
    (disk_array_blocks_exact (2 * total_bit_z n) _ 46) by (lia || done || reflexivity).
  unfold seg_table_blocks_z. repeat split; try lia; divmod_lia.
Qed.

(** The field values [superblock_format] computes, without wrap-around. *)
Lemma superblock_format_exact NR_SEGMENT csum0 lcp0 :
  0 <= NR_SEGMENT < 2 ^ 45 ->
  let n := NR_SEGMENT + 320 in
  let bits := 2 * total_bit_z n in
  let index := (bits * 5815513 - 1) / 4096 + 1 in
  let svt := seg_table_blocks_z n * 2 in
  let dst := (n / 30 + 1) * 2 in
  let rit := (n * 1024 / 512 + 1) * 2 in
  let bitc := (seg_table_blocks_z bits + (bits / 46 + 1)) * 2 in
  superblock_format NR_SEGMENT csum0 lcp0 =
  {| csum := csum0; magic := SUPERBLOCK_MAGIC; blocks_per_seg := 1024; nr_segment := n;
     data_start := 1 + index + 16384 + svt + dst + rit + bitc; common_ratio := 10;
     nr_disk_level := 2; max_disk_level_capacity := n * 1024; index_region_start := 1;
     journal_size := 128; nr_journal := MAX_RECORDS; record_start := 0; record_end := 0;
     last_checkpoint_pack := lcp0; journal_region_start := 1 + index;
     seg_validity_table_start := 1 + index + 16384;
     data_seg_table_start := 1 + index + 16384 + svt;
     reverse_index_table_start := 1 + index + 16384 + svt + dst;
     block_index_table_catalogue_start := 1 + index + 16384 + svt + dst + rit |}.
Proof.
  intros Hn. cbv zeta. unfold superblock_format, __extra_bit, NR_GC_PRESERVED, BLOCKS_PER_SEGMENT,
    NR_CHECKPOINT_PACKS, NR_JOURNAL_SEGMENT, DEFAULT_LSM_TREE_NR_DISK_LEVEL,
    LSM_TREE_DISK_LEVEL_COMMON_RATIO, SUPERBLOCK_LOCATION.
  change (STRUCTURE_BLOCKS sizeof_superblock) with 1. change (16 * 1024) with 16384. change (0 +u 1) with 1.
  cbv zeta. rewrite (u64_small (NR_SEGMENT + 320)) by lia.
  destruct (region_blocks_bounds (NR_SEGMENT + 320) ltac:(lia))
    as (-> & ? & -> & ? & -> & ? & Hrit & ? & -> & ? & Hsvt & ? & Hbitc & ?).
  rewrite (u64_small (total_bit_z _ + total_bit_z _)) by lia.
  replace (total_bit_z (NR_SEGMENT + 320) + total_bit_z (NR_SEGMENT + 320))
    with (2 * total_bit_z (NR_SEGMENT + 320)) by lia.
  rewrite (u64_small ((NR_SEGMENT + 320) * 1024)) by lia.
  rewrite Hrit, Hsvt, Hbitc.
  repeat (rewrite (u64_small (1 + _)) by lia || rewrite (u64_small (_ * 2)) by lia
    || rewrite (u64_small (seg_table_blocks_z _ + _)) by lia).
  u64_norm. reflexivity.
Qed.

(** On a freshly formatted device the regions follow one another: each
    starts where the previous one, with both of its checkpoint packs, ends; and
    the data region starts exactly [calc_metadata_blocks] blocks into the
    device, the figure the capacity test uses. *)
Theorem superblock_format_regions NR_SEGMENT csum0 lcp0 :
  0 <= NR_SEGMENT < 2 ^ 45 ->
  let sb := superblock_format NR_SEGMENT csum0 lcp0 in
  let capacity := max_disk_level_capacity sb in
  let nr_bits := __total_bit 2 10 capacity + __extra_bit capacity in
  nr_segment sb = NR_SEGMENT + NR_GC_PRESERVED /\
  capacity = nr_segment sb * blocks_per_seg sb /\
  index_region_start sb = 1 /\
  journal_region_start sb = index_region_start sb + __index_region_blocks 2 10 capacity /\
  seg_validity_table_start sb = journal_region_start sb + MAX_BLOCKS /\
  data_seg_table_start sb =
    seg_validity_table_start sb + __seg_validity_table_blocks (nr_segment sb) * 2 /\
  reverse_index_table_start sb =
    data_seg_table_start sb + __data_seg_table_blocks (nr_segment sb) * 2 /\
  block_index_table_catalogue_start sb =
    reverse_index_table_start sb + __reverse_index_table_blocks capacity * 2 /\
  data_start sb = block_index_table_catalogue_start sb
    + (__seg_validity_table_blocks nr_bits + __bit_catalogue_blocks nr_bits) * 2 /\
  data_start sb = calc_metadata_blocks (nr_segment sb).
Proof.
  intros Hn. rewrite superblock_format_exact by done. cbv zeta.
  cbn [nr_segment max_disk_level_capacity blocks_per_seg index_region_start journal_region_start
       seg_validity_table_start data_seg_table_start reverse_index_table_start
       block_index_table_catalogue_start data_start].
  rewrite calc_metadata_blocks_exact by lia. unfold metadata_blocks_z.
  destruct (region_blocks_bounds (NR_SEGMENT + 320) ltac:(lia))
    as (Hi & ? & -> & ? & -> & ? & -> & ? & Ht & ? & Hsvt & ? & Hbitc & ?).
  unfold __extra_bit, LSM_TREE_DISK_LEVEL_COMMON_RATIO, NR_GC_PRESERVED.
  rewrite (u64_small ((NR_SEGMENT + 320) * 1024)) in Hi, Ht by lia. rewrite Hi, Ht.
  replace (total_bit_z (NR_SEGMENT + 320) + total_bit_z (NR_SEGMENT + 320))
    with (2 * total_bit_z (NR_SEGMENT + 320)) by lia.
  rewrite Hsvt, Hbitc. change MAX_BLOCKS with 16384. repeat split; lia.
Qed.

Lemma superblock_format_regions_witness :
  data_start (superblock_format 2654 0 0) = calc_metadata_blocks 2974.
Proof. apply (superblock_format_regions 2654 0 0). lia. Defined.

(** C28. Once the constructor has admitted a target of [len] sectors on a raw
    device of [devsize] sectors, every block of every segment of the formatted
    data region (preserved segments included) lies inside the raw device: the
    sector [jindisk_block_io] computes for it, and the seven after it, exist. *)
Theorem data_blocks_inside_device len devsize csum0 lcp0 pba :
  0 <= len < 2 ^ 56 ->
  ctr_admits len devsize = true ->
  let sb := superblock_format (ctr_nr_segment len) csum0 lcp0 in
  0 <= pba < nr_segment sb * blocks_per_seg sb ->
  0 <= (data_start sb + pba) * SECTORS_PER_BLOCK /\
  (data_start sb + pba) * SECTORS_PER_BLOCK + SECTORS_PER_BLOCK <= devsize.
Proof.
  intros Hlen Hadm. unfold ctr_admits in Hadm. rewrite ctr_total_sector_exact in Hadm by done.
  unfold ctr_nr_segment, SECTORS_PER_BLOCK. change SECTORS_PER_SEGMENT with 8192.
  assert (0 <= len / 8192 < 2 ^ 45) as Hd by divmod_lia.
  assert (len / 8192 * 8192 <= len) by divmod_lia.
  destruct (superblock_format_regions (len / 8192) csum0 lcp0 Hd)
    as (Hseg & _ & _ & _ & _ & _ & _ & _ & _ & Hdata).
  rewrite superblock_format_exact in * by done. cbv zeta in *.
  cbn [nr_segment blocks_per_seg data_start] in *. rewrite Hdata.
  rewrite calc_metadata_blocks_exact by lia. pose proof (metadata_blocks_lower (len / 8192)).
  destruct (Z.ltb_spec devsize (metadata_blocks_z (len / 8192 + 320) * 8 + len + 320 * 8192)); [done|lia].
Qed.

Lemma data_blocks_inside_device_witness :
  let sb := superblock_format (ctr_nr_segment 21741568) 0 0 in
  0 <= (data_start sb + 3000000) * 8 /\ (data_start sb + 3000000) * 8 + 8 <= 25165824.
Proof.
  apply (data_blocks_inside_device 21741568 25165824 0 0 3000000);
    [lia | vm_compute; reflexivity | vm_compute; split; [discriminate | reflexivity]].
Defined.

(** ** The size loops terminate; their closed form *)

Lemma nr_leaf_of_ceil n : 0 < n < 2 ^ 63 -> nr_leaf_of n = (n - 1) / 128 + 1.
Proof.
  intros Hn. unfold nr_leaf_of, BIT_LEAF_LEN. rewrite u32_small by (pose proof (Z.mod_pos_bound n 128); lia).
  destruct (Z.eqb_spec (n mod 128) 0); [divmod_lia|]. rewrite u64_small; divmod_lia.
Qed.

Section size_loops.
(** [nl] leaves under inner nodes of degree [d], no wrap-around of [size]. *)
Context (nl d : Z) (Hd : 2 <= d) (Hnl : 1 <= nl) (Hwrap : nl * d < 2 ^ 64).

Lemma size_loops_step fuel h len size :
  1 <= h -> size = d ^ (h - 1) -> (d - 1) * len = size - 1 -> size < nl -> h < 2 ^ 63 ->
  bit_height_loop (S fuel) h size nl d = bit_height_loop fuel (h + 1) (d ^ h) nl d /\
  bit_array_len_loop (S fuel) len size nl d = bit_array_len_loop fuel (len + size) (d ^ h) nl d /\
  (d - 1) * (len + size) = d ^ h - 1.
Proof.
  intros Hh Hsize Hlen Hlt Hh64.
  assert (d ^ h = size * d) as Hpow.
  { rewrite Hsize. replace h with (h - 1 + 1) at 1 by lia. by rewrite Z.pow_add_r, Z.pow_1_r by lia. }
  assert (1 <= size) by (rewrite Hsize; apply Z.lt_pred_le, Z.pow_pos_nonneg; lia).
  assert (0 <= len < size) by nia. assert (size * d < 2 ^ 64) by nia.
  cbn [bit_height_loop bit_array_len_loop]. destruct (Z.ltb_spec size nl); [|lia].
  rewrite (u64_small (h + 1)), (u64_small (len + size)), (u64_small (size * d)) by nia.
  rewrite Hpow. repeat split; nia.
Qed.

Lemma size_loops_spec fuel : forall h len size,
  1 <= h -> size = d ^ (h - 1) -> (d - 1) * len = size - 1 -> h = 1 \/ d ^ (h - 2) < nl ->
  nl <= size * 2 ^ Z.of_nat fuel -> h + Z.of_nat fuel < 2 ^ 63 ->
  exists h' len', 1 <= h' /\
    bit_height_loop (S fuel) h size nl d = Some h' /\
    bit_array_len_loop (S fuel) len size nl d = Some len' /\
    nl <= d ^ (h' - 1) /\ (h' = 1 \/ d ^ (h' - 2) < nl) /\ (d - 1) * len' = d ^ (h' - 1) - 1.
Proof.
  induction fuel as [|fuel IH]; intros h len size Hh Hsize Hlen Hlow Hfuel Hbig.
  all: destruct (Z.lt_ge_cases size nl) as [Hlt|Hge];
    [|exists h, len; cbn [bit_height_loop bit_array_len_loop];
      destruct (Z.ltb_spec size nl); [lia|]; rewrite <- Hsize; auto 7].
  - rewrite Z.mul_1_r in Hfuel. lia.
  - destruct (size_loops_step (S fuel) h len size) as (-> & -> & Hlen'); [done..|lia|].
    assert (d ^ h = size * d) as Hpow.
    { rewrite Hsize. replace h with (h - 1 + 1) at 1 by lia. by rewrite Z.pow_add_r, Z.pow_1_r by lia. }
    destruct (IH (h + 1) (len + size) (d ^ h)) as (h' & len' & Hres); [lia| | |..|lia|exists h', len'; exact Hres].
    + f_equal. lia.
    + done.
    + right. replace (h + 1 - 2) with (h - 1) by lia. by rewrite <- Hsize.
    + rewrite Hpow. rewrite Nat2Z.inj_succ, Z.pow_succ_r in Hfuel by lia.
      assert (0 < 2 ^ Z.of_nat fuel) by (apply Z.pow_pos_nonneg; lia).
      assert (0 <= size) by (rewrite Hsize; apply Z.pow_nonneg; lia). nia.
Qed.
End size_loops.

(** For any number of records whose leaves times the degree fit in 64 bits,
    [__bit_height] and [__bit_array_len] terminate; the height is the least
    [h] with [nr_degree ^ (h - 1)] at least the number of leaves (records
    divided by [BIT_LEAF_LEN], rounded up), and the length is the number of
    leaves plus the nodes of a complete tree of [h - 1] inner levels. *)
Theorem bit_shape_spec n d :
  0 < n < 2 ^ 63 -> 2 <= d -> ((n - 1) / BIT_LEAF_LEN + 1) * d < 2 ^ 64 ->
  exists h len, 1 <= h /\
    __bit_height n d = Some h /\
    __bit_array_len n d = Some (len +u ((n - 1) / BIT_LEAF_LEN + 1)) /\
    (n - 1) / BIT_LEAF_LEN + 1 <= d ^ (h - 1) /\
    (h = 1 \/ d ^ (h - 2) < (n - 1) / BIT_LEAF_LEN + 1) /\
    (d - 1) * len = d ^ (h - 1) - 1.
Proof.
  intros Hn Hd Hw. unfold __bit_height, __bit_array_len, BIT_LEAF_LEN in *.
  destruct (Z.eqb_spec n 0); [lia|]. rewrite nr_leaf_of_ceil by done.
  assert (0 <= (n - 1) / 128) by (apply Z.div_pos; lia).
  destruct (size_loops_spec ((n - 1) / 128 + 1) d Hd ltac:(lia) Hw 64 1 0 1)
    as (h & len & Hh & Hhl & Hll & Hrest); [lia|done|lia|by left|..|lia|].
  - change (1 * 2 ^ Z.of_nat 64) with (2 ^ 64). nia.
  - exists h, len. rewrite Hhl, Hll. auto.
Qed.

Lemma bit_shape_spec_witness :
  exists h len, 1 <= h /\ __bit_height 131072 32 = Some h /\
    __bit_array_len 131072 32 = Some (len +u 1024) /\ 1024 <= 32 ^ (h - 1) /\
    (h = 1 \/ 32 ^ (h - 2) < 1024) /\ (32 - 1) * len = 32 ^ (h - 1) - 1.
Proof. apply (bit_shape_spec 131072 32); [lia|lia|vm_compute; reflexivity]. Defined.
