(* ===== verification/DiskStructs.v ===== *)
(** * DiskStructs: arrays and bit sets on the device

    [kernel-module/c/src/disk_structs.c] and the write callback of
    [metadata.c]. A disk array keeps fixed-size entries in metadata blocks that
    go through dm-bufio and are encrypted on the device. The buffer cache and
    the block cipher are library code, given as classes with the behaviour
    their documentation states. The specification is a plain list with bounds
    checks ([array_get], [array_set]); every table of the metadata is verified
    against that list. *)
From S2P Require Import Prelude Layout Bytes.

(** ** The specification: a bounded array *)
Section bounded_array.
Context {E : Type}.

Definition array_get (a : list E) (index : Z) : result E :=
  if index <? 0 then Err EINVAL
  else match a !! Z.to_nat index with Some e => Ok e | None => Err EINVAL end.

Definition array_set (a : list E) (index : Z) (entry : E) : list E * result unit :=
  if (index <? 0) || (Z.of_nat (length a) <=? index) then (a, Err EINVAL)
  else (<[Z.to_nat index := entry]> a, Ok tt).

Definition array_format (a : list E) (e : E) : list E := replicate (length a) e.

Lemma array_get_ok a i e : array_get a i = Ok e <-> 0 <= i /\ a !! Z.to_nat i = Some e.
Proof.
  unfold array_get. destruct (Z.ltb_spec i 0).
  - split; [done|lia].
  - destruct (a !! Z.to_nat i) as [e'|]; split; try done.
    + by intros [= ->].
    + by intros [_ [= ->]].
    + by intros [_ ?].
Qed.

Lemma array_get_in_range a i : 0 <= i < Z.of_nat (length a) -> exists e, array_get a i = Ok e.
Proof.
  intros Hi. destruct (lookup_lt_is_Some_2 a (Z.to_nat i)) as [e He]; [lia|].
  exists e. apply array_get_ok. split; [lia|done].
Qed.

Lemma array_get_out_of_range a i : Z.of_nat (length a) <= i -> array_get a i = Err EINVAL.
Proof.
  intros Hi. unfold array_get. destruct (Z.ltb_spec i 0); [done|].
  rewrite lookup_ge_None_2 by lia. done.
Qed.

Lemma array_set_in_range a i e : 0 <= i < Z.of_nat (length a) ->
  array_set a i e = (<[Z.to_nat i := e]> a, Ok tt).
Proof.
  intros Hi. unfold array_set. destruct (Z.ltb_spec i 0); [lia|].
  destruct (Z.leb_spec (Z.of_nat (length a)) i); [lia|done].
Qed.

Lemma array_set_length a i e : length (array_set a i e).1 = length a.
Proof.
  unfold array_set. destruct ((i <? 0) || (Z.of_nat (length a) <=? i)); [done|]. apply length_insert.
Qed.

Lemma array_get_set_same a i e : 0 <= i < Z.of_nat (length a) ->
  array_get (<[Z.to_nat i := e]> a) i = Ok e.
Proof. intros Hi. apply array_get_ok. split; [lia|]. apply list_lookup_insert_eq. lia. Qed.

Lemma array_get_set_other a i j e : 0 <= i -> i <> j ->
  array_get (<[Z.to_nat i := e]> a) j = array_get a j.
Proof.
  intros Hi Hij. unfold array_get. destruct (Z.ltb_spec j 0); [done|].
  by rewrite list_lookup_insert_ne by lia.
Qed.
End bounded_array.

#[export] Hint Rewrite @array_set_length : jindisk_rw.

(** ** Library interfaces *)

(** The memory image of an entry. *)
Class Codec (E : Type) : Type := {
  entry_size : nat;
  encode : E -> list Z;
  decode : list Z -> E;
  entry_ok : E -> Prop
}.

Class CodecSpec (E : Type) `{Codec E} : Prop := {
  entry_size_range : (0 < entry_size <= 4096)%nat;
  encode_length : forall e, length (encode e) = entry_size;
  decode_encode : forall e, entry_ok e -> decode (encode e) = e;
  decode_ok : forall l, entry_ok (decode l)
}.

(** [struct skcipher]: a length-preserving cipher keyed by [key] and seeded by
    the block number; decryption undoes encryption. *)
Class Skcipher : Type := {
  sk_encrypt : list Z -> Z -> list Z -> list Z;
  sk_decrypt : list Z -> Z -> list Z -> list Z
}.

Class SkcipherSpec `{Skcipher} : Prop := {
  sk_decrypt_encrypt : forall key seq data, length data = 4096%nat ->
    sk_decrypt key seq (sk_encrypt key seq data) = data;
  sk_decrypt_length : forall key seq data, length data = 4096%nat ->
    length (sk_decrypt key seq data) = 4096%nat;
  sk_encrypt_length : forall key seq data, length data = 4096%nat ->
    length (sk_encrypt key seq data) = 4096%nat
}.

(** dm-bufio: [bufio_cached] is the content of the buffer of a block when the
    cache holds one ([dm_bufio_get]), [bufio_device] the block on the device;
    [dm_bufio_read] yields the buffer, reading the block in if there is none, or
    reports [PTR_ERR], [dm_bufio_new] provides a buffer without
    reading, [bufio_store] writes through the data pointer of a held buffer,
    [bufio_write] writes a buffer to the device after the write callback has
    run on it (in the buffer itself), [bufio_write_drop] also frees it. *)
Class Bufio : Type := {
  bufio : Type;
  bufio_cached : bufio -> Z -> option (list Z);
  bufio_device : bufio -> Z -> list Z;
  dm_bufio_read : bufio -> Z -> bufio * result (list Z);
  dm_bufio_new : bufio -> Z -> bufio * result (list Z);
  bufio_store : bufio -> Z -> list Z -> bufio;
  bufio_write : (list Z -> list Z) -> bufio -> Z -> bufio;
  bufio_write_drop : (list Z -> list Z) -> bufio -> Z -> bufio
}.

Class BufioSpec `{Bufio} : Prop := {
  bufio_device_length : forall s b, length (bufio_device s b) = 4096%nat;
  bufio_read_ok : forall s b s' d, dm_bufio_read s b = (s', Ok d) ->
    d = default (bufio_device s b) (bufio_cached s b) /\ bufio_cached s' b = Some d /\
    (forall c, c <> b -> bufio_cached s' c = bufio_cached s c) /\
    (forall c, bufio_device s' c = bufio_device s c);
  bufio_read_error : forall s b s' e, dm_bufio_read s b = (s', Err e) ->
    (forall c, bufio_cached s' c = bufio_cached s c) /\
    (forall c, bufio_device s' c = bufio_device s c);
  bufio_new_ok : forall s b s' d, dm_bufio_new s b = (s', Ok d) ->
    length d = 4096%nat /\ bufio_cached s' b = Some d /\
    (forall c, c <> b -> bufio_cached s' c = bufio_cached s c) /\
    (forall c, bufio_device s' c = bufio_device s c);
  bufio_new_error : forall s b s' e, dm_bufio_new s b = (s', Err e) ->
    (forall c, bufio_cached s' c = bufio_cached s c) /\
    (forall c, bufio_device s' c = bufio_device s c);
  bufio_store_same : forall s b d, bufio_cached (bufio_store s b d) b = Some d;
  bufio_store_other : forall s b d c, c <> b -> bufio_cached (bufio_store s b d) c = bufio_cached s c;
  bufio_store_device : forall s b d c, bufio_device (bufio_store s b d) c = bufio_device s c;
  bufio_write_same : forall cb s b d, bufio_cached s b = Some d -> length (cb d) = 4096%nat ->
    bufio_cached (bufio_write cb s b) b = Some (cb d) /\
    bufio_device (bufio_write cb s b) b = cb d;
  bufio_drop_same : forall cb s b d, bufio_cached s b = Some d -> length (cb d) = 4096%nat ->
    bufio_cached (bufio_write_drop cb s b) b = None /\
    bufio_device (bufio_write_drop cb s b) b = cb d;
  bufio_drop_other : forall cb s b c, c <> b ->
    bufio_cached (bufio_write_drop cb s b) c = bufio_cached s c /\
    bufio_device (bufio_write_drop cb s b) c = bufio_device s c
}.

(** ** The disk array *)

Record disk_array : Type := DiskArray {
  da_start : Z;
  da_nr_entry : Z;
  da_key : list Z
}.

Section disk_array.
Context {E : Type} `{CodecSpec E} `{SkcipherSpec} `{BufioSpec}.
Implicit Types (this : disk_array) (s : bufio).

Definition entries_per_block : Z := METADATA_BLOCK_SIZE / Z.of_nat entry_size.

Definition disk_array_entry_block this (index : Z) : Z := da_start this + index / entries_per_block.

Definition disk_array_entry_offset (index : Z) : Z :=
  (index mod entries_per_block) * Z.of_nat entry_size.

(** The common prologue of [set] and [get]: the decrypted buffer of the block,
    from the cache, or read and decrypted in place. *)
Definition disk_array_buffer this (index : Z) s : bufio * result (list Z) :=
  let b := disk_array_entry_block this index in
  match bufio_cached s b with
  | Some data => (s, Ok data)
  | None =>
      match dm_bufio_read s b with
      | (s, Err e) => (s, Err e)
      | (s, Ok data) =>
          let data := sk_decrypt (da_key this) b data in
          (bufio_store s b data, Ok data)
      end
  end.

Definition disk_array_set this (index : Z) (entry : E) s : bufio * result unit :=
  if (index <? 0) || (da_nr_entry this <=? index) then (s, Err EINVAL)
  else
    match disk_array_buffer this index s with
    | (s, Err e) => (s, Err e)
    | (s, Ok data) =>
        let data := splice (Z.to_nat (disk_array_entry_offset index)) (encode entry) data in
        (bufio_store s (disk_array_entry_block this index) data, Ok tt)
    end.

Definition disk_array_get this (index : Z) s : bufio * result E :=
  if (index <? 0) || (da_nr_entry this <=? index) then (s, Err EINVAL)
  else
    match disk_array_buffer this index s with
    | (s, Err e) => (s, Err e)
    | (s, Ok data) =>
        (s, Ok (decode (slice (Z.to_nat (disk_array_entry_offset index)) entry_size data)))
    end.

(** The [while (total > 0)] loop, one iteration per metadata block. *)
Fixpoint disk_array_format_loop (n : nat) this (shift : Z) (value : bool) s : bufio * result unit :=
  match n with
  | O => (s, Ok tt)
  | S n =>
      match dm_bufio_new s (da_start this + shift) with
      | (s, Err e) => (s, Err e)
      | (s, Ok _) =>
          let data := replicate 4096 (if value then 255 else 0) in
          disk_array_format_loop n this (shift + 1) value
            (bufio_store s (da_start this + shift) data)
      end
  end.

Definition disk_array_format this (value : bool) s : bufio * result unit :=
  disk_array_format_loop
    (Z.to_nat (__disk_array_blocks (da_nr_entry this) (Z.of_nat entry_size) METADATA_BLOCK_SIZE))
    this 0 value s.

(** [meta_write_cb] encrypts the content of the buffer. *)
Definition meta_write_cb this (b : Z) (data : list Z) : list Z := sk_encrypt (da_key this) b data.

(** ** Abstraction: the entries an array holds *)

(** The plaintext of a block, wherever it is. *)
Definition block_view this s (b : Z) : list Z :=
  match bufio_cached s b with
  | Some data => data
  | None => sk_decrypt (da_key this) b (bufio_device s b)
  end.

Definition entry_view this s (index : Z) : E :=
  decode (slice (Z.to_nat (disk_array_entry_offset index)) entry_size
            (block_view this s (disk_array_entry_block this index))).

Definition array_view this s : list E :=
  entry_view this s <$> seqZ 0 (da_nr_entry this).

Definition buffers_ok s : Prop := forall b d, bufio_cached s b = Some d -> length d = 4096%nat.

(** ** Geometry *)

Lemma entries_per_block_pos : 0 < entries_per_block.
Proof.
  unfold entries_per_block, METADATA_BLOCK_SIZE. pose proof entry_size_range.
  apply Z.div_str_pos. lia.
Qed.

Lemma entry_offset_range index : 0 <= index ->
  0 <= disk_array_entry_offset index /\ disk_array_entry_offset index + Z.of_nat entry_size <= 4096.
Proof.
  intros Hi. pose proof entries_per_block_pos as Hp. pose proof entry_size_range.
  pose proof (Z.mod_pos_bound index entries_per_block Hp) as Hm.
  unfold disk_array_entry_offset. split; [nia|].
  assert (entries_per_block * Z.of_nat entry_size <= 4096); [|nia].
  unfold entries_per_block, METADATA_BLOCK_SIZE.
  rewrite Z.mul_comm. apply Z.mul_div_le. lia.
Qed.

(** Two entries of one block do not overlap. *)
Lemma entry_offset_disjoint this i j :
  0 <= i -> 0 <= j -> i <> j -> disk_array_entry_block this i = disk_array_entry_block this j ->
  (Z.to_nat (disk_array_entry_offset j) + entry_size <= Z.to_nat (disk_array_entry_offset i))%nat \/
  (Z.to_nat (disk_array_entry_offset i) + entry_size <= Z.to_nat (disk_array_entry_offset j))%nat.
Proof.
  intros Hi Hj Hne Hb. pose proof entries_per_block_pos as Hp.
  unfold disk_array_entry_block in Hb. assert (i / entries_per_block = j / entries_per_block) as Hq by lia.
  pose proof (Z.div_mod i entries_per_block ltac:(lia)) as Hdi.
  pose proof (Z.div_mod j entries_per_block ltac:(lia)) as Hdj. rewrite Hq in Hdi.
  pose proof (Z.mod_pos_bound i entries_per_block Hp). pose proof (Z.mod_pos_bound j entries_per_block Hp).
  unfold disk_array_entry_offset.
  destruct (Z.lt_ge_cases (i mod entries_per_block) (j mod entries_per_block)); [right|left]; nia.
Qed.

(** ** The buffer of a block *)

Lemma disk_array_buffer_spec this index s s' r :
  buffers_ok s -> disk_array_buffer this index s = (s', r) ->
  buffers_ok s' /\
  (forall other b, b <> disk_array_entry_block this index -> block_view other s' b = block_view other s b) /\
  block_view this s' (disk_array_entry_block this index) = block_view this s (disk_array_entry_block this index) /\
  match r with
  | Ok data => data = block_view this s (disk_array_entry_block this index) /\ length data = 4096%nat /\
      bufio_cached s' (disk_array_entry_block this index) = Some data
  | Err e => exists s1, dm_bufio_read s (disk_array_entry_block this index) = (s1, Err e)
  end.
Proof.
  intros Hok. unfold disk_array_buffer. set (b := disk_array_entry_block this index).
  destruct (bufio_cached s b) as [data|] eqn:Hc.
  - intros [= <- <-]. split; [done|]. split; [done|]. split; [done|].
    unfold block_view. rewrite Hc. split; [done|]. split; [by eapply Hok|done].
  - destruct (dm_bufio_read s b) as [s1 [data|e]] eqn:Hread; intros [= <- <-].
    + apply bufio_read_ok in Hread as (Hd & Hsame & Hother & Hdev). rewrite Hc in Hd. cbn in Hd. subst data.
      pose proof (bufio_device_length s b). split; [|split; [|split; [|split; [|split]]]].
      * intros c d Hcd. destruct (Z.eq_dec c b) as [->|Hne].
        { rewrite bufio_store_same in Hcd. injection Hcd as <-. by apply sk_decrypt_length. }
        rewrite bufio_store_other, Hother in Hcd by done. by eapply Hok.
      * intros other c Hne. unfold block_view.
        by rewrite bufio_store_other, Hother, bufio_store_device, Hdev by done.
      * unfold block_view. by rewrite bufio_store_same, Hc.
      * unfold block_view. by rewrite Hc.
      * by apply sk_decrypt_length.
      * apply bufio_store_same.
    + pose proof (bufio_read_error _ _ _ _ Hread) as [Hcache Hdev]. split; [|split; [|split]].
      * intros c d. rewrite Hcache. apply Hok.
      * intros other c _. unfold block_view. by rewrite Hcache, Hdev.
      * unfold block_view. by rewrite Hcache, Hdev.
      * eauto.
Qed.

(** The views of all blocks give the views of all entries. *)
Lemma entry_view_ext this s s' :
  (forall b, block_view this s' b = block_view this s b) -> array_view this s' = array_view this s.
Proof. intros Hb. unfold array_view. apply list_fmap_ext. intros i x _. unfold entry_view. by rewrite Hb. Qed.

Lemma array_view_length this s : length (array_view this s) = Z.to_nat (da_nr_entry this).
Proof. unfold array_view. by rewrite length_fmap, length_seqZ. Qed.

Lemma array_view_lookup this s i : 0 <= i < da_nr_entry this ->
  array_view this s !! Z.to_nat i = Some (entry_view this s i).
Proof.
  intros Hi. unfold array_view. rewrite list_lookup_fmap, lookup_seqZ_lt by lia. cbn. do 2 f_equal. lia.
Qed.

(** What a store of entry [i] does to the entries. *)
Lemma entry_view_store this s i e data :
  0 <= i -> entry_ok e -> length data = 4096%nat ->
  data = block_view this s (disk_array_entry_block this i) ->
  let s' := bufio_store s (disk_array_entry_block this i)
              (splice (Z.to_nat (disk_array_entry_offset i)) (encode e) data) in
  entry_view this s' i = e /\ forall j, 0 <= j -> j <> i -> entry_view this s' j = entry_view this s j.
Proof.
  intros Hi He Hlen Hdata. cbv zeta. pose proof (entry_offset_range i Hi) as [Ho1 Ho2].
  pose proof (encode_length e) as Hel. unfold entry_view. split.
  - unfold block_view at 1. rewrite bufio_store_same.
    rewrite <- Hel at 1. rewrite slice_splice_same by lia. by apply decode_encode.
  - intros j Hj Hne.
    destruct (Z.eq_dec (disk_array_entry_block this j) (disk_array_entry_block this i)) as [Hb|Hb].
    + rewrite Hb. unfold block_view at 1. rewrite bufio_store_same.
      rewrite slice_splice_other, Hdata by (rewrite ?Hel; first [lia | by apply (entry_offset_disjoint this)]).
      done.
    + unfold block_view. by rewrite bufio_store_other, bufio_store_device by done.
Qed.

(** ** The operations refine the bounded array *)

Lemma disk_array_get_map this i s :
  buffers_ok s -> 0 <= i ->
  let '(s', r) := disk_array_get this i s in
  buffers_ok s' /\ array_view this s' = array_view this s /\
  (forall other b, b <> disk_array_entry_block this i -> block_view other s' b = block_view other s b) /\
  (r = array_get (array_view this s) i \/
   exists er s1, r = Err er /\ dm_bufio_read s (disk_array_entry_block this i) = (s1, Err er)).
Proof.
  intros Hok Hi. unfold disk_array_get. destruct (Z.ltb_spec i 0); [lia|]. cbn [orb].
  destruct (Z.leb_spec (da_nr_entry this) i).
  { split; [done|]. split; [done|]. split; [done|]. left. rewrite array_get_out_of_range; [done|].
    rewrite array_view_length. lia. }
  destruct (disk_array_buffer this i s) as [s' r] eqn:Hbuf.
  apply disk_array_buffer_spec in Hbuf as (Hok' & Hother & Hthis & Hr); [|done].
  assert (array_view this s' = array_view this s) as Hview.
  { apply entry_view_ext. intros b. destruct (Z.eq_dec b (disk_array_entry_block this i)) as [->|]; auto. }
  destruct r as [data|er].
  - destruct Hr as (Hdata & _ & _). split; [done|]. split; [done|]. split; [done|]. left. symmetry.
    apply array_get_ok. split; [done|]. rewrite array_view_lookup by lia. unfold entry_view. by rewrite Hdata.
  - destruct Hr as [s1 Hs1]. split; [done|]. split; [done|]. split; [done|]. right. eauto.
Qed.

(** [disk_array_get] returns what the array holds at the index, with
    [-EINVAL] outside of it, or the error of dm-bufio when it cannot read the
    block; in all cases neither this array nor any block of
    another changes, although a block may be brought in and decrypted. *)
Theorem disk_array_get_refines this i s :
  buffers_ok s -> 0 <= i ->
  let '(s', r) := disk_array_get this i s in
  buffers_ok s' /\ array_view this s' = array_view this s /\
  (forall other b, b <> disk_array_entry_block this i -> block_view other s' b = block_view other s b) /\
  (r = array_get (array_view this s) i \/
   exists er s1, r = Err er /\ dm_bufio_read s (disk_array_entry_block this i) = (s1, Err er)).
Proof. apply disk_array_get_map. Qed.

Lemma disk_array_set_map this i e s :
  buffers_ok s -> 0 <= i -> entry_ok e ->
  let '(s', r) := disk_array_set this i e s in
  buffers_ok s' /\
  (forall other b, b <> disk_array_entry_block this i -> block_view other s' b = block_view other s b) /\
  ((array_view this s', r) = array_set (array_view this s) i e \/
   array_view this s' = array_view this s /\
   exists er s1, r = Err er /\ dm_bufio_read s (disk_array_entry_block this i) = (s1, Err er)).
Proof.
  intros Hok Hi He. unfold disk_array_set, array_set. rewrite array_view_length.
  destruct (Z.ltb_spec i 0); [lia|]. cbn [orb].
  destruct (Z.leb_spec (da_nr_entry this) i) as [Hge|Hlt].
  { split; [done|]. split; [done|]. left. by destruct (Z.leb_spec (Z.of_nat (Z.to_nat (da_nr_entry this))) i); [|lia]. }
  destruct (Z.leb_spec (Z.of_nat (Z.to_nat (da_nr_entry this))) i); [lia|].
  destruct (disk_array_buffer this i s) as [s' r] eqn:Hbuf.
  apply disk_array_buffer_spec in Hbuf as (Hok' & Hother & Hthis & Hr); [|done].
  assert (array_view this s' = array_view this s) as Hview.
  { apply entry_view_ext. intros b. destruct (Z.eq_dec b (disk_array_entry_block this i)) as [->|]; auto. }
  destruct r as [data|er];
    [|destruct Hr as [s1 Hs1]; split; [done|]; split; [done|]; right; split; [done|]; eauto].
  destruct Hr as (Hdata & Hlen & Hcached). pose proof (entry_offset_range i Hi) as [Ho1 Ho2].
  pose proof (encode_length e) as Hel. rewrite <- Hthis in Hdata.
  destruct (entry_view_store this s' i e data Hi He Hlen Hdata) as [Hsame Hdiff].
  split; [|split].
  - intros b d Hb. destruct (Z.eq_dec b (disk_array_entry_block this i)) as [->|Hne].
    + rewrite bufio_store_same in Hb. injection Hb as <-. rewrite splice_length; [done|lia].
    + rewrite bufio_store_other in Hb by done. by eapply Hok'.
  - intros other b Hne. rewrite <- Hother by done. unfold block_view.
    by rewrite bufio_store_other, bufio_store_device by done.
  - left. f_equal. rewrite <- Hview. apply list_eq. intros k. unfold array_view at 1.
    rewrite list_lookup_fmap. destruct (Nat.lt_ge_cases k (Z.to_nat (da_nr_entry this))) as [Hk|Hk].
    + rewrite lookup_seqZ_lt by lia. cbn.
      destruct (Nat.eq_dec k (Z.to_nat i)) as [->|Hne].
      * rewrite list_lookup_insert_eq by (rewrite array_view_length; lia).
        replace (0 + Z.of_nat (Z.to_nat i)) with i by lia. by rewrite Hsame.
      * rewrite list_lookup_insert_ne by done. replace k with (Z.to_nat (0 + Z.of_nat k)) at 2 by lia.
        rewrite array_view_lookup by lia. rewrite Hdiff by lia. done.
    + rewrite lookup_ge_None_2 by (rewrite length_seqZ; lia).
      rewrite lookup_ge_None_2; [done|]. rewrite length_insert, array_view_length. lia.
Qed.

(** C19. [disk_array_set] stores the entry at the index and nowhere else,
    refuses an index outside the array with [-EINVAL] and fails on an
    unreadable block without changing anything, and touches no other block. *)
Theorem disk_array_set_refines this i e s :
  buffers_ok s -> 0 <= i -> entry_ok e ->
  let '(s', r) := disk_array_set this i e s in
  buffers_ok s' /\
  (forall other b, b <> disk_array_entry_block this i -> block_view other s' b = block_view other s b) /\
  ((array_view this s', r) = array_set (array_view this s) i e \/
   array_view this s' = array_view this s /\
   exists er s1, r = Err er /\ dm_bufio_read s (disk_array_entry_block this i) = (s1, Err er)).
Proof. apply disk_array_set_map. Qed.

(** Writing a buffer out through [meta_write_cb] and freeing it, which
    dm-bufio may do at any time, does not change what the array holds, nor any
    other block. *)
Theorem disk_array_write_back this s b :
  buffers_ok s -> bufio_cached s b <> None ->
  let s' := bufio_write_drop (meta_write_cb this b) s b in
  buffers_ok s' /\ array_view this s' = array_view this s /\
  (forall other c, c <> b -> block_view other s' c = block_view other s c).
Proof.
  intros Hok Hc. cbv zeta. destruct (bufio_cached s b) as [d|] eqn:Hd; [|done].
  pose proof (Hok b d Hd) as Hlen.
  destruct (bufio_drop_same (meta_write_cb this b) s b d Hd) as [Hn Hdev]; [by apply sk_encrypt_length|].
  split; [|split].
  - intros c d' Hc'. destruct (Z.eq_dec c b) as [->|Hne]; [congruence|].
    destruct (bufio_drop_other (meta_write_cb this b) s b c Hne) as [Hcc _]. rewrite Hcc in Hc'. by eapply Hok.
  - apply entry_view_ext. intros c. unfold block_view. destruct (Z.eq_dec c b) as [->|Hne].
    + rewrite Hn, Hdev, Hd. apply sk_decrypt_encrypt. by eapply Hok.
    + by destruct (bufio_drop_other (meta_write_cb this b) s b c Hne) as [-> ->].
  - intros other c Hne. unfold block_view.
    by destruct (bufio_drop_other (meta_write_cb this b) s b c Hne) as [-> ->].
Qed.

(** The write callback encrypts the buffer in place and the buffer stays in
    the cache: a [disk_array_get] that follows a write-back of a block still
    cached decodes the ciphertext of the block, not its entries. *)
Theorem disk_array_get_after_flush this s i d :
  buffers_ok s -> 0 <= i < da_nr_entry this ->
  bufio_cached s (disk_array_entry_block this i) = Some d ->
  let b := disk_array_entry_block this i in
  let s' := bufio_write (meta_write_cb this b) s b in
  entry_view this s i = decode (slice (Z.to_nat (disk_array_entry_offset i)) entry_size d) /\
  (disk_array_get this i s').2 =
    Ok (decode (slice (Z.to_nat (disk_array_entry_offset i)) entry_size (sk_encrypt (da_key this) b d))).
Proof.
  intros Hok Hi Hc. cbv zeta. split; [unfold entry_view, block_view; by rewrite Hc|].
  destruct (bufio_write_same (meta_write_cb this (disk_array_entry_block this i)) s _ d Hc) as [Hn _];
    [by apply sk_encrypt_length, (Hok _ _ Hc)|].
  unfold disk_array_get. destruct (Z.ltb_spec i 0); [lia|]. destruct (Z.leb_spec (da_nr_entry this) i); [lia|].
  cbn [orb]. unfold disk_array_buffer. by rewrite Hn.
Qed.
End disk_array.

(** ** Formatting *)
Section disk_array_format.
Context {E : Type} `{CodecSpec E} `{SkcipherSpec} `{BufioSpec}.
Implicit Types (this : disk_array) (s : bufio).

Definition format_byte (value : bool) : Z := if value then 255 else 0.

(** The entry whose memory image is the fill pattern. *)
Definition fill_entry (value : bool) : E := decode (replicate entry_size (format_byte value)).

Lemma disk_array_format_loop_spec this value n : forall shift s s' r,
  buffers_ok s -> disk_array_format_loop n this shift value s = (s', r) ->
  buffers_ok s' /\
  (forall other b, b < da_start this + shift \/ da_start this + shift + Z.of_nat n <= b ->
     block_view other s' b = block_view other s b) /\
  (r = Ok tt -> forall b, da_start this + shift <= b < da_start this + shift + Z.of_nat n ->
     block_view this s' b = replicate 4096 (format_byte value)).
Proof.
  induction n as [|n IH]; intros shift s s' r Hok; cbn [disk_array_format_loop].
  - intros [= <- <-]. split; [done|]. split; [done|]. intros. lia.
  - destruct (dm_bufio_new s (da_start this + shift)) as [s1 [d|e]] eqn:Hnew.
    + apply bufio_new_ok in Hnew as (Hd & Hsame & Hother & Hdev). fold (format_byte value). intros Hrun.
      apply IH in Hrun as (Hok' & Hout & Hin).
      * split; [done|]. split.
        { intros other b Hb. rewrite Hout by lia. unfold block_view.
          by rewrite bufio_store_other, Hother, bufio_store_device, Hdev by lia. }
        intros Hr b Hb. destruct (Z.eq_dec b (da_start this + shift)) as [->|Hne]; [|apply Hin; [done|lia]].
        rewrite Hout by lia. unfold block_view. by rewrite bufio_store_same.
      * intros b d' Hb. destruct (Z.eq_dec b (da_start this + shift)) as [->|Hne].
        { rewrite bufio_store_same in Hb. injection Hb as <-. apply (length_replicate 4096). }
        rewrite bufio_store_other, Hother in Hb by done. by eapply Hok.
    + intros [= <- <-]. destruct (bufio_new_error _ _ _ _ Hnew) as [Hc Hdev]. split; [|split; [|done]].
      * intros b d Hb. rewrite Hc in Hb. by eapply Hok.
      * intros other b _. unfold block_view. by rewrite Hc, Hdev.
Qed.

(** The blocks [disk_array_format] fills are exactly those that hold entries. *)
Lemma format_blocks_cover this i : 0 <= i < da_nr_entry this -> da_nr_entry this < 2 ^ 63 ->
  0 <= i / entries_per_block < __disk_array_blocks (da_nr_entry this) (Z.of_nat entry_size) METADATA_BLOCK_SIZE.
Proof.
  intros Hi Hn. pose proof entries_per_block_pos as Hp. pose proof entry_size_range.
  unfold __disk_array_blocks. destruct (Z.eqb_spec (Z.of_nat entry_size) 0); [lia|].
  fold entries_per_block. split; [apply Z.div_pos; lia|].
  pose proof (Z.div_le_mono i (da_nr_entry this) entries_per_block Hp ltac:(lia)).
  pose proof (Z.div_le_upper_bound (da_nr_entry this) entries_per_block (da_nr_entry this) Hp ltac:(nia)).
  pose proof (Z.div_pos i entries_per_block ltac:(lia) Hp).
  rewrite u64_small by lia. lia.
Qed.

Lemma slice_replicate off len n (x : Z) : (off + len <= n)%nat -> slice off len (replicate n x) = replicate len x.
Proof. intros. unfold slice. rewrite drop_replicate, take_replicate. f_equal. lia. Qed.

Lemma disk_array_format_map this value s :
  buffers_ok s -> da_nr_entry this < 2 ^ 63 ->
  let '(s', r) := disk_array_format this value s in
  let nr := __disk_array_blocks (da_nr_entry this) (Z.of_nat entry_size) METADATA_BLOCK_SIZE in
  buffers_ok s' /\
  (r = Ok tt -> array_view this s' = replicate (Z.to_nat (da_nr_entry this)) (fill_entry value)) /\
  (forall other b, b < da_start this \/ da_start this + Z.max 0 nr <= b ->
     block_view other s' b = block_view other s b).
Proof.
  intros Hok Hn. destruct (disk_array_format this value s) as [s' r] eqn:Hrun. cbv zeta.
  apply disk_array_format_loop_spec in Hrun as (Hok' & Hout & Hin); [|done].
  split; [done|]. split.
  - intros Hr. specialize (Hin Hr). apply list_eq. intros k. unfold array_view.
    rewrite list_lookup_fmap. destruct (Nat.lt_ge_cases k (Z.to_nat (da_nr_entry this))) as [Hk|Hk].
    + rewrite lookup_seqZ_lt, lookup_replicate_2 by lia. cbn. f_equal. rewrite Z.add_0_l.
      unfold entry_view, disk_array_entry_block.
      pose proof (format_blocks_cover this (Z.of_nat k) ltac:(lia) Hn) as Hcov.
      rewrite Hin by lia. unfold fill_entry. f_equal.
      pose proof (entry_offset_range (Z.of_nat k) ltac:(lia)).
      apply slice_replicate. lia.
    + rewrite lookup_ge_None_2 by (rewrite length_seqZ; lia).
      rewrite lookup_ge_None_2; [done|]. rewrite length_replicate. lia.
  - intros other b Hb. apply Hout. lia.
Qed.

(** A successful [disk_array_format] leaves in every entry of the array the
    value whose bytes are all [0x00] (or all [0xff]); whether it succeeds or
    not it changes no block outside the blocks of the array. *)
Theorem disk_array_format_fills this value s :
  buffers_ok s -> da_nr_entry this < 2 ^ 63 ->
  let '(s', r) := disk_array_format this value s in
  let nr := __disk_array_blocks (da_nr_entry this) (Z.of_nat entry_size) METADATA_BLOCK_SIZE in
  buffers_ok s' /\
  (r = Ok tt -> array_view this s' = replicate (Z.to_nat (da_nr_entry this)) (fill_entry value)) /\
  (forall other b, b < da_start this \/ da_start this + Z.max 0 nr <= b ->
     block_view other s' b = block_view other s b).
Proof. apply disk_array_format_map. Qed.
End disk_array_format.

(** ** The interface of the tables

    A table of the metadata uses an array through [get], [set] and [format].
    [darr_view] is the list of entries the array stands for. A device error
    leaves the entries unchanged. *)
Class ArrayIntf (E : Type) : Type := {
  darr : Type;
  darr_get : darr -> Z -> darr * result E;
  darr_set : darr -> Z -> E -> darr * result unit;
  darr_format : darr -> bool -> darr * result unit;
  darr_view : darr -> list E;
  darr_fill : bool -> E;
  darr_ok : darr -> Prop;
  darr_entry_ok : E -> Prop
}.

Class ArraySpec (E : Type) `{ArrayIntf E} : Prop := {
  darr_get_spec : forall a i a' r, darr_ok a -> 0 <= i -> darr_get a i = (a', r) ->
    darr_ok a' /\ darr_view a' = darr_view a /\
    (r = array_get (darr_view a) i \/ is_ok r = false);
  darr_set_spec : forall a i e a' r, darr_ok a -> 0 <= i -> darr_entry_ok e -> darr_set a i e = (a', r) ->
    darr_ok a' /\
    ((darr_view a', r) = array_set (darr_view a) i e \/ darr_view a' = darr_view a /\ is_ok r = false);
  darr_format_spec : forall a v a' r, darr_ok a -> darr_format a v = (a', r) ->
    darr_ok a' /\ length (darr_view a') = length (darr_view a) /\
    (r = Ok tt -> darr_view a' = array_format (darr_view a) (darr_fill v));
  darr_view_ok : forall a, darr_ok a -> Forall darr_entry_ok (darr_view a)
}.

(** The disk array of this file implements the interface. *)
Section disk_array_interface.
Context {E : Type} `{CodecSpec E} `{SkcipherSpec} `{BufioSpec}.
Context (this : disk_array) (Hnr : da_nr_entry this < 2 ^ 63).

Definition disk_array_intf : ArrayIntf E := {|
  darr := bufio;
  darr_get s i := disk_array_get this i s;
  darr_set s i e := disk_array_set this i e s;
  darr_format s v := disk_array_format this v s;
  darr_view s := array_view this s;
  darr_fill v := fill_entry v;
  darr_ok := buffers_ok;
  darr_entry_ok := entry_ok
|}.

Lemma disk_array_implements : @ArraySpec E disk_array_intf.
Proof.
  split; cbn.
  - intros a i a' r Hok Hi Hrun. pose proof (disk_array_get_map this i a Hok Hi) as Hget.
    rewrite Hrun in Hget. destruct Hget as (Hok' & Hv & _ & Hr). split; [done|]. split; [done|].
    destruct Hr as [->|(e & s1 & -> & _)]; auto.
  - intros a i e a' r Hok Hi He Hrun. pose proof (disk_array_set_map this i e a Hok Hi He) as Hset.
    rewrite Hrun in Hset. destruct Hset as (Hok' & _ & Hr). split; [done|].
    destruct Hr as [Heq|(Hv & er & s1 & -> & _)]; auto.
  - intros a v a' r Hok Hrun. pose proof (disk_array_format_map this v a Hok Hnr) as Hfmt.
    rewrite Hrun in Hfmt. destruct Hfmt as (Hok' & Hfill & _). split; [done|].
    split; [by rewrite !array_view_length|]. intros Hr. unfold array_format. rewrite array_view_length. auto.
  - intros a Hok. unfold array_view. apply Forall_fmap, Forall_true. intros i. apply decode_ok.
Qed.
End disk_array_interface.

(** ** The bit set: one bit per entry in 64-bit groups of a disk array *)

(** The image of an [unsigned long]. *)
#[export] Instance group_codec : Codec Z := {|
  entry_size := 8;
  encode z := le_encode 8 z;
  decode l := u64 (le_decode l);
  entry_ok z := 0 <= z < 2 ^ 64
|}.

#[export] Instance group_codec_spec : CodecSpec Z.
Proof.
  split; cbn [entry_size encode decode entry_ok group_codec].
  - lia.
  - intros. apply le_encode_length.
  - intros e He. rewrite le_decode_encode by (cbn; lia). by apply u64_small.
  - intros l. apply u64_range.
Qed.

Definition __disk_bitset_group (index : Z) : Z := index / BITS_PER_LONG.
Definition __disk_bitset_offset (index : Z) : Z := index mod BITS_PER_LONG.
Definition __disk_bitset_nr_group (nr_bit : Z) : Z :=
  if nr_bit =? 0 then 0 else (nr_bit - 1) / BITS_PER_LONG + 1.

Record disk_bitset `{ArrayIntf Z} : Type := DiskBitset { bs_nr_bit : Z; bs_array : darr }.

Section disk_bitset.
Context `{ArraySpec Z}.
Implicit Types (this : disk_bitset) (a : darr).

Definition __disk_bitset_operate this (index : Z) (set : bool) : disk_bitset * result unit :=
  if (index <? 0) || (bs_nr_bit this <=? index) then (this, Err EINVAL)
  else
    match darr_get (bs_array this) (__disk_bitset_group index) with
    | (a, Err e) => ({| bs_nr_bit := bs_nr_bit this; bs_array := a |}, Err e)
    | (a, Ok group) =>
        let group := (if set then set_bit else clear_bit) (__disk_bitset_offset index) group in
        let '(a, r) := darr_set a (__disk_bitset_group index) group in
        ({| bs_nr_bit := bs_nr_bit this; bs_array := a |}, r)
    end.

Definition disk_bitset_set this (index : Z) := __disk_bitset_operate this index true.
Definition disk_bitset_clear this (index : Z) := __disk_bitset_operate this index false.

Definition disk_bitset_get this (index : Z) : disk_bitset * result bool :=
  match darr_get (bs_array this) (__disk_bitset_group index) with
  | (a, Err e) => ({| bs_nr_bit := bs_nr_bit this; bs_array := a |}, Err e)
  | (a, Ok group) =>
      ({| bs_nr_bit := bs_nr_bit this; bs_array := a |}, Ok (test_bit (__disk_bitset_offset index) group))
  end.

Definition disk_bitset_format this (value : bool) : disk_bitset * result unit :=
  let '(a, r) := darr_format (bs_array this) value in
  ({| bs_nr_bit := bs_nr_bit this; bs_array := a |}, r).

(** *** The bits a set holds *)

Definition group_bit (l : list Z) (index : Z) : bool :=
  test_bit (__disk_bitset_offset index) (default 0 (l !! Z.to_nat (__disk_bitset_group index))).

Definition bitset_view this : list bool :=
  group_bit (darr_view (bs_array this)) <$> seqZ 0 (bs_nr_bit this).

(** The groups cover the bits, fit in 64 bits, and a fill byte fills them. *)
Record bitset_wf this : Prop := {
  bs_wf_ok : darr_ok (bs_array this);
  bs_wf_nr : 0 <= bs_nr_bit this;
  bs_wf_groups : Z.of_nat (length (darr_view (bs_array this))) = __disk_bitset_nr_group (bs_nr_bit this)
}.

(** What the client of a bit set may rely on of its 64-bit groups. *)
Class GroupArray : Prop := {
  group_entry_ok : forall z, darr_entry_ok z <-> 0 <= z < 2 ^ 64;
  group_fill : forall v i, 0 <= i < 64 -> Z.testbit (darr_fill v) i = v
}.
Context `{GroupArray}.

Lemma group_index_range this i : bitset_wf this -> 0 <= i < bs_nr_bit this ->
  0 <= __disk_bitset_group i < Z.of_nat (length (darr_view (bs_array this))).
Proof.
  intros [_ Hnr Hg] Hi. rewrite Hg. unfold __disk_bitset_group, __disk_bitset_nr_group, BITS_PER_LONG.
  destruct (Z.eqb_spec (bs_nr_bit this) 0); [lia|]. divmod_lia.
Qed.

Lemma offset_range i : 0 <= i -> 0 <= __disk_bitset_offset i < 64.
Proof. intros. apply Z.mod_pos_bound. unfold BITS_PER_LONG. lia. Qed.

Lemma index_parts i j : 0 <= i -> 0 <= j ->
  __disk_bitset_group i = __disk_bitset_group j -> __disk_bitset_offset i = __disk_bitset_offset j -> i = j.
Proof. unfold __disk_bitset_group, __disk_bitset_offset, BITS_PER_LONG. intros. divmod_lia. Qed.

Lemma bitset_view_length this : length (bitset_view this) = Z.to_nat (bs_nr_bit this).
Proof. unfold bitset_view. by rewrite length_fmap, length_seqZ. Qed.

Lemma bitset_view_lookup this i : 0 <= i < bs_nr_bit this ->
  bitset_view this !! Z.to_nat i = Some (group_bit (darr_view (bs_array this)) i).
Proof.
  intros Hi. unfold bitset_view. rewrite list_lookup_fmap, lookup_seqZ_lt by lia. cbn. do 2 f_equal. lia.
Qed.

(** Storing one group changes one bit. *)
Lemma group_bit_update (l : list Z) (v : bool) g i :
  0 <= i -> l !! Z.to_nat (__disk_bitset_group i) = Some g ->
  let l' := <[Z.to_nat (__disk_bitset_group i) := (if v then set_bit else clear_bit) (__disk_bitset_offset i) g]> l in
  forall j, 0 <= j -> group_bit l' j = if decide (j = i) then v else group_bit l j.
Proof.
  intros Hi Hg. cbv zeta. intros j Hj. unfold group_bit.
  assert (forall k, 0 <= k -> 0 <= __disk_bitset_group k) as Hpos by (intros; apply Z.div_pos; unfold BITS_PER_LONG; lia).
  pose proof (Hpos i Hi). pose proof (Hpos j Hj). pose proof (offset_range i Hi). pose proof (offset_range j Hj).
  destruct (Z.eq_dec (__disk_bitset_group j) (__disk_bitset_group i)) as [Heq|Hne].
  - rewrite Heq, list_lookup_insert_eq by (by eapply lookup_lt_Some). rewrite Hg. cbn [default].
    unfold set_bit, clear_bit, test_bit. destruct (decide (j = i)) as [->|Hij].
    + destruct v; [apply Z.setbit_eq; lia|apply Z.clearbit_eq; lia].
    + assert (__disk_bitset_offset i <> __disk_bitset_offset j)
        by (intros Ho; apply Hij, index_parts; done).
      destruct v; [apply Z.setbit_neq; lia|by apply Z.clearbit_neq].
  - rewrite list_lookup_insert_ne by lia. destruct (decide (j = i)) as [->|]; done.
Qed.

Lemma bitset_operate_map this i v : bitset_wf this -> 0 <= i ->
  let '(this', r) := __disk_bitset_operate this i v in
  bitset_wf this' /\ bs_nr_bit this' = bs_nr_bit this /\
  match r with
  | Ok _ => i < bs_nr_bit this /\ bitset_view this' = <[Z.to_nat i := v]> (bitset_view this)
  | Err _ => bitset_view this' = bitset_view this
  end.
Proof.
  intros Hwf Hi. unfold __disk_bitset_operate. destruct (Z.ltb_spec i 0); [lia|].
  destruct (Z.leb_spec (bs_nr_bit this) i); [done|]. cbn [orb].
  pose proof (group_index_range this i Hwf ltac:(lia)) as Hgi. pose proof Hwf as [Hok Hnr Hlen].
  destruct (darr_get (bs_array this) (__disk_bitset_group i)) as [a r] eqn:Hget.
  apply darr_get_spec in Hget as (Hok' & Hv & Hr); [|done|lia]. destruct r as [g|e].
  2: { split; [|split; [done|]]; [by split; cbn; rewrite ?Hv|]. unfold bitset_view. cbn. by rewrite Hv. }
  destruct Hr as [Hr|Hr]; [|done]. symmetry in Hr. apply array_get_ok in Hr as [_ Hg].
  set (g' := (if v then set_bit else clear_bit) (__disk_bitset_offset i) g).
  assert (darr_entry_ok g') as Hg'.
  { apply group_entry_ok, (bitmap_update_range 64); [|by apply offset_range]. apply group_entry_ok.
    pose proof (darr_view_ok _ Hok) as Hall. rewrite Forall_lookup in Hall. by eapply Hall. }
  destruct (darr_set a (__disk_bitset_group i) g') as [a' r'] eqn:Hset.
  apply darr_set_spec in Hset as (Hok'' & Hset); [|done..|lia|done].
  rewrite Hv in Hset. destruct Hset as [Hset|[Hv' Hr']].
  - rewrite array_set_in_range in Hset by lia. injection Hset as Hv' ->.
    split; [split; cbn; rewrite ?Hv', ?length_insert; done|]. split; [done|]. split; [done|].
    apply list_eq. intros k. unfold bitset_view. cbn. rewrite Hv'.
    destruct (Nat.lt_ge_cases k (Z.to_nat (bs_nr_bit this))) as [Hk|Hk].
    + rewrite list_lookup_fmap, lookup_seqZ_lt by lia. cbn. rewrite (group_bit_update _ v g i) by (done || lia).
      destruct (decide (0 + Z.of_nat k = i)) as [Heq|Hne].
      * replace (Z.to_nat i) with k by lia. rewrite list_lookup_insert_eq; [done|]. rewrite length_fmap, length_seqZ. lia.
      * rewrite list_lookup_insert_ne by lia. rewrite list_lookup_fmap, lookup_seqZ_lt by lia. done.
    + rewrite !lookup_ge_None_2; [done|..]; rewrite ?length_insert, length_fmap, length_seqZ; lia.
  - split; [split; cbn; rewrite ?Hv'; done|]. split; [done|]. destruct r'; [done|].
    unfold bitset_view. cbn. by rewrite Hv'.
Qed.

Lemma bitset_get_map this i : bitset_wf this -> 0 <= i ->
  let '(this', r) := disk_bitset_get this i in
  bitset_wf this' /\ bs_nr_bit this' = bs_nr_bit this /\ bitset_view this' = bitset_view this /\
  (i < bs_nr_bit this -> forall b, r = Ok b -> bitset_view this !! Z.to_nat i = Some b).
Proof.
  intros Hwf Hi. unfold disk_bitset_get. pose proof Hwf as [Hok Hnr Hlen].
  assert (0 <= __disk_bitset_group i) by (apply Z.div_pos; unfold BITS_PER_LONG; lia).
  destruct (darr_get (bs_array this) (__disk_bitset_group i)) as [a r] eqn:Hget.
  apply darr_get_spec in Hget as (Hok' & Hv & Hr); [|done..].
  destruct r as [g|e]; cbn; (split; [by split; cbn; rewrite ?Hv|]); (split; [done|]);
    (split; [unfold bitset_view; cbn; by rewrite Hv|]); [|done].
  intros Hlt b [= <-]. rewrite bitset_view_lookup by lia. f_equal. unfold group_bit.
  destruct Hr as [Hr|Hr]; [|done]. symmetry in Hr. apply array_get_ok in Hr as [_ ->]. done.
Qed.

Lemma bitset_format_map this v : bitset_wf this ->
  let '(this', r) := disk_bitset_format this v in
  bitset_wf this' /\ bs_nr_bit this' = bs_nr_bit this /\
  (r = Ok tt -> bitset_view this' = replicate (Z.to_nat (bs_nr_bit this)) v).
Proof.
  intros Hwf. unfold disk_bitset_format. pose proof Hwf as [Hok Hnr Hlen].
  destruct (darr_format (bs_array this) v) as [a r] eqn:Hf.
  apply darr_format_spec in Hf as (Hok' & Hl & Hr); [|done].
  split; [split; cbn; rewrite ?Hl; done|]. split; [done|]. intros ->. specialize (Hr eq_refl).
  apply list_eq. intros k. destruct (Nat.lt_ge_cases k (Z.to_nat (bs_nr_bit this))) as [Hk|Hk].
  - rewrite lookup_replicate_2 by done. unfold bitset_view. cbn.
    rewrite list_lookup_fmap, lookup_seqZ_lt by lia. cbn [option_map fmap option_fmap]. f_equal. unfold group_bit.
    pose proof (group_index_range this (0 + Z.of_nat k) Hwf ltac:(lia)).
    rewrite Hr. unfold array_format. rewrite lookup_replicate_2 by lia. cbn [default].
    apply group_fill, offset_range. lia.
  - rewrite !lookup_ge_None_2; [done|..]; rewrite ?length_replicate, ?bitset_view_length; cbn; lia.
Qed.

(** C27. [set] and [clear] change exactly the bit at the index and fail without
    changing any bit: on an index past the last bit, or when the array reports
    an error; [get] of a bit that exists returns it. *)
Theorem disk_bitset_refines this i v : bitset_wf this -> 0 <= i ->
  (let '(this', r) := __disk_bitset_operate this i v in
   bitset_wf this' /\
   match r with
   | Ok _ => i < bs_nr_bit this /\ bitset_view this' = <[Z.to_nat i := v]> (bitset_view this)
   | Err _ => bitset_view this' = bitset_view this
   end) /\
  (let '(this', r) := disk_bitset_get this i in
   bitset_view this' = bitset_view this /\
   (i < bs_nr_bit this -> forall b, r = Ok b -> bitset_view this !! Z.to_nat i = Some b)).
Proof.
  intros Hwf Hi. pose proof (bitset_operate_map this i v Hwf Hi) as Hop.
  pose proof (bitset_get_map this i Hwf Hi) as Hget.
  destruct (__disk_bitset_operate this i v), (disk_bitset_get this i). tauto.
Qed.
End disk_bitset.

(** ** Instances *)

(** An array held in memory, for running the tables on concrete inputs. *)
Section list_array.
Context {E : Type} (ok : E -> Prop) (fill : bool -> E) (fill_ok : forall v, ok (fill v)).

Definition list_array : ArrayIntf E := {|
  darr := list E;
  darr_get a i := (a, array_get a i);
  darr_set a i e := array_set a i e;
  darr_format a v := (array_format a (fill v), Ok tt);
  darr_view a := a;
  darr_fill := fill;
  darr_ok a := Forall ok a;
  darr_entry_ok := ok
|}.

Lemma list_array_spec : @ArraySpec E list_array.
Proof using fill_ok.
  split; cbn.
  - intros a i a' r Hok Hi [= <- <-]. auto.
  - intros a i e a' r Hok Hi He Hset. split; [|auto].
    unfold array_set in Hset. destruct ((i <? 0) || (Z.of_nat (length a) <=? i)); injection Hset as <- _; [done|].
    by apply Forall_insert.
  - intros a v a' r Hok [= <- <-]. unfold array_format. split; [|split; [by rewrite length_replicate|done]].
    by apply Forall_replicate.
  - done.
Qed.
End list_array.

(** Groups of 64 bits in memory. *)
Definition group_fill_value (v : bool) : Z := if v then bitmap_fill 64 else 0.

#[export] Instance group_list : ArrayIntf Z := list_array (fun z => 0 <= z < 2 ^ 64) group_fill_value.
#[export] Instance group_list_spec : ArraySpec Z.
Proof. apply list_array_spec. intros []; vm_compute; split; congruence || done. Qed.

#[export] Instance group_list_array : GroupArray.
Proof.
  split; [done|]. intros [] i Hi; cbn [darr_fill group_list list_array group_fill_value].
  - unfold bitmap_fill. apply Z.ones_spec_low. lia.
  - apply Z.bits_0.
Qed.

(** A cipher that shifts every byte by the block number. *)
#[export] Instance shift_cipher : Skcipher := {|
  sk_encrypt _ seq data := (fun b => b + (1 + seq)) <$> data;
  sk_decrypt _ seq data := (fun b => b - (1 + seq)) <$> data
|}.

#[export] Instance shift_cipher_spec : SkcipherSpec.
Proof.
  split; cbn; intros; rewrite ?length_fmap; [|done..].
  rewrite <- list_fmap_compose. rewrite <- (list_fmap_id data) at 2. apply list_fmap_ext. intros. cbn. lia.
Qed.

(** A buffer cache that never evicts on its own. *)
Definition fit_block (d : list Z) : list Z := resize 4096 0 d.

#[export] Instance map_bufio : Bufio := {|
  bufio := gmap Z (list Z) * gmap Z (list Z);
  bufio_cached s b := s.1 !! b;
  bufio_device s b := fit_block (default [] (s.2 !! b));
  dm_bufio_read s b :=
    match s.1 !! b with
    | Some d => (s, Ok d)
    | None => let d := fit_block (default [] (s.2 !! b)) in ((<[b := d]> s.1, s.2), Ok d)
    end;
  dm_bufio_new s b := let d := replicate 4096 0 in ((<[b := d]> s.1, s.2), Ok d);
  bufio_store s b d := (<[b := d]> s.1, s.2);
  bufio_write cb s b :=
    match s.1 !! b with Some d => (<[b := cb d]> s.1, <[b := cb d]> s.2) | None => s end;
  bufio_write_drop cb s b :=
    match s.1 !! b with Some d => (delete b s.1, <[b := cb d]> s.2) | None => s end
|}.

Lemma fit_block_length d : length (fit_block d) = 4096%nat.
Proof. apply length_resize. Qed.

Lemma fit_block_id d : length d = 4096%nat -> fit_block d = d.
Proof. intros Hd. unfold fit_block. rewrite <- Hd. apply resize_all. Qed.

#[export] Instance map_bufio_spec : BufioSpec.
Proof.
  split; cbn.
  - intros. apply fit_block_length.
  - intros s b s' d. destruct (s.1 !! b) as [d'|] eqn:Hc; intros [= <- <-]; cbn; [done|].
    repeat split; [by rewrite lookup_insert_eq|]. intros. by rewrite lookup_insert_ne.
  - intros s b s' e. by destruct (s.1 !! b).
  - intros s b s' d [= <- <-]. cbn [fst snd]. rewrite lookup_insert_eq.
    repeat split. intros. by rewrite lookup_insert_ne.
  - done.
  - intros. cbn. by rewrite lookup_insert_eq.
  - intros. cbn. by rewrite lookup_insert_ne.
  - done.
  - intros cb s b d Hd Hl. rewrite Hd. cbn [fst snd]. rewrite !lookup_insert_eq. cbn. by rewrite fit_block_id.
  - intros cb s b d Hd Hl. rewrite Hd. cbn [fst snd]. rewrite lookup_delete_eq, lookup_insert_eq. cbn. by rewrite fit_block_id.
  - intros cb s b c Hne. destruct (s.1 !! b) eqn:Hd; [|done]. cbn [fst snd].
    by rewrite lookup_delete_ne, lookup_insert_ne.
Qed.

(** ** Concrete runs *)

(** Six hundred groups from block 10 on: two metadata blocks. *)
Definition example_array : disk_array := {| da_start := 10; da_nr_entry := 600; da_key := [] |}.
Definition example_bufio : bufio := (∅, ∅).

Lemma example_bufio_ok : buffers_ok example_bufio.
Proof. intros b d Hb. done. Qed.

Definition example_cached : bufio := (disk_array_get (E := Z) example_array 0 example_bufio).1.

Lemma example_cached_ok : buffers_ok example_cached.
Proof.
  pose proof (disk_array_get_map (E := Z) example_array 0 example_bufio example_bufio_ok ltac:(lia)) as Hget.
  unfold example_cached. destruct (disk_array_get example_array 0 example_bufio). apply Hget.
Qed.

Lemma disk_array_get_refines_witness :
  let '(s', r) := disk_array_get (E := Z) example_array 599 example_bufio in
  buffers_ok s' /\ array_view (E := Z) example_array s' = array_view example_array example_bufio /\
  (forall other b, b <> disk_array_entry_block (E := Z) example_array 599 ->
     block_view other s' b = block_view other example_bufio b) /\
  (r = array_get (array_view (E := Z) example_array example_bufio) 599 \/
   exists er s1, r = Err er /\
     dm_bufio_read example_bufio (disk_array_entry_block (E := Z) example_array 599) = (s1, Err er)).
Proof. apply disk_array_get_refines; [apply example_bufio_ok | lia]. Defined.

Lemma disk_array_set_refines_witness :
  let '(s', r) := disk_array_set example_array 513 77 example_bufio in
  buffers_ok s' /\
  (forall other b, b <> disk_array_entry_block (E := Z) example_array 513 ->
     block_view other s' b = block_view other example_bufio b) /\
  ((array_view (E := Z) example_array s', r) = array_set (array_view example_array example_bufio) 513 77 \/
   array_view (E := Z) example_array s' = array_view example_array example_bufio /\
   exists er s1, r = Err er /\
     dm_bufio_read example_bufio (disk_array_entry_block (E := Z) example_array 513) = (s1, Err er)).
Proof. apply disk_array_set_refines; [apply example_bufio_ok | lia | cbn; lia]. Defined.

Lemma disk_array_write_back_witness :
  let s' := bufio_write_drop (meta_write_cb example_array 10) example_cached 10 in
  buffers_ok s' /\ array_view (E := Z) example_array s' = array_view example_array example_cached /\
  (forall other c, c <> 10 -> block_view other s' c = block_view other example_cached c).
Proof. apply disk_array_write_back; [apply example_cached_ok | vm_compute; discriminate]. Defined.

Lemma disk_array_get_after_flush_witness :
  let d := replicate 4096 (-11) in
  let b := disk_array_entry_block (E := Z) example_array 3 in
  let s' := bufio_write (meta_write_cb example_array b) example_cached b in
  entry_view (E := Z) example_array example_cached 3 =
    decode (slice (Z.to_nat (disk_array_entry_offset (E := Z) 3)) entry_size d) /\
  (disk_array_get (E := Z) example_array 3 s').2 =
    Ok (decode (slice (Z.to_nat (disk_array_entry_offset (E := Z) 3)) entry_size
                  (sk_encrypt (da_key example_array) b d))).
Proof.
  apply (disk_array_get_after_flush (E := Z) example_array example_cached 3 (replicate 4096 (-11)));
    [apply example_cached_ok | cbn; lia | vm_compute; reflexivity].
Defined.

Lemma disk_array_format_fills_witness :
  let this := example_array in let s := example_bufio in
  let '(s', r) := disk_array_format (E := Z) this true s in
  let nr := __disk_array_blocks (da_nr_entry this) (Z.of_nat (entry_size (E := Z))) METADATA_BLOCK_SIZE in
  buffers_ok s' /\
  (r = Ok tt -> array_view (E := Z) this s' = replicate (Z.to_nat (da_nr_entry this)) (fill_entry true)) /\
  (forall other b, b < da_start this \/ da_start this + Z.max 0 nr <= b ->
     block_view other s' b = block_view other s b).
Proof.
  exact (disk_array_format_fills (E := Z) example_array true example_bufio example_bufio_ok ltac:(cbn; lia)).
Defined.

(** A set of 70 bits. *)
Definition example_bitset : disk_bitset := {| bs_nr_bit := 70; bs_array := [5; 0] |}.

Lemma example_bitset_wf : bitset_wf example_bitset.
Proof. split; cbn; [|lia|done]. repeat constructor; lia. Qed.

Lemma disk_bitset_refines_witness :
  (let '(this', r) := __disk_bitset_operate example_bitset 69 true in
   bitset_wf this' /\
   match r with
   | Ok _ => 69 < bs_nr_bit example_bitset /\ bitset_view this' = <[69%nat := true]> (bitset_view example_bitset)
   | Err _ => bitset_view this' = bitset_view example_bitset
   end) /\
  (let '(this', r) := disk_bitset_get example_bitset 69 in
   bitset_view this' = bitset_view example_bitset /\
   (69 < bs_nr_bit example_bitset -> forall b, r = Ok b -> bitset_view example_bitset !! 69%nat = Some b)).
Proof. apply (disk_bitset_refines example_bitset 69 true); [apply example_bitset_wf | lia]. Defined.
