(* ===== verification/Memtable.v ===== *)
(** * Memtable: the in-memory table of the LSM tree

    [kernel-module/c/src/memtable.c]: records, entries and the red-black tree
    keyed by logical block address. An entry holds the latest record of a block
    and, apart from it, the negative record that the garbage collector leaves. *)
From S2P Require Import Prelude RbTree.

(** ** Records *)

Record record : Type := Record_ { pba : Z; mac : list Z; key : list Z }.

#[export] Instance record_eq_dec : EqDecision record.
Proof. solve_decision. Defined.

Definition zeros (n : nat) : list Z := replicate n 0.

(** [record_create(pba, key, mac)]; [random] is what [get_random_bytes] would
    write where no key is given. The object is zeroed first. *)
Definition record_create (random : list Z) (pba : Z) (key mac : option (list Z)) : record :=
  {| pba := pba;
     mac := match mac with Some m => m | None => zeros 16 end;
     key := if pba =? INF_ADDR then zeros 16
            else match key with Some k => k | None => random end |}.

(** [record_create(INF_ADDR, NULL, NULL)]. *)
Definition negative : record := record_create [] INF_ADDR None None.

Definition negative_record (r : record) : bool := pba r =? INF_ADDR.

(** ** Entries *)

Record memtable_entry : Type := MemtableEntry {
  me_key : Z;
  me_val : option record;
  me_negative_val : option record
}.

#[export] Instance memtable_entry_eq_dec : EqDecision memtable_entry.
Proof. solve_decision. Defined.

Definition new_memtable_entry (key : Z) (val : option record) : memtable_entry :=
  {| me_key := key; me_val := val;
     me_negative_val := match val with None => Some negative | Some _ => None end |}.

(** The 64-bit difference of the keys is returned as an [int]. *)
Definition memtable_entry_cmp (node parent : memtable_entry) : Z :=
  i32 (me_key node - me_key parent).

(** The key is read through an [int] pointer. *)
Definition memtable_entry_cmp_rb_key (key : Z) (entry : memtable_entry) : Z :=
  i32 (i32 key - me_key entry).

(** Presence of a record, as the source tests a pointer. *)
Definition present (r : option record) : Z := match r with Some _ => 1 | None => 0 end.

(** ** The table *)

Record memtable : Type := Memtable { mt_root : rbtree memtable_entry; mt_size : Z }.

Section operations.
Context `{RbTree}.

Definition rbtree_memtable_create : memtable := {| mt_root := rb_nil; mt_size := 0 |}.

Fixpoint __rbtree_memtable_search (root : rbtree memtable_entry) (key : Z) : option record :=
  match root with
  | rb_nil => None
  | rb_node rb_left cur rb_right =>
      if key <? me_key cur then __rbtree_memtable_search rb_left key
      else if me_key cur <? key then __rbtree_memtable_search rb_right key
      else match me_val cur with Some v => Some v | None => me_negative_val cur end
  end.

(** [NULL] is [None]: a put of [None] writes a negative record. *)
Definition rbtree_memtable_put (m : memtable) (key : Z) (val : option record)
  : memtable * option record :=
  let new_entry := new_memtable_entry key val in
  let '(root, node) := rb_find_add memtable_entry_cmp new_entry (mt_root m) in
  match node with
  | Some old =>
      let here := fun e => me_key e =? me_key old in
      match val with
      | None =>
          let size := u64 (u64 (mt_size m - present (me_val old)) - present (me_negative_val old)) in
          let root := rb_update here (fun e =>
            {| me_key := me_key e; me_val := None;
               me_negative_val := me_negative_val new_entry |}) root in
          ({| mt_root := root; mt_size := u64 (size + 1) |}, None)
      | Some _ =>
          let size := u64 (mt_size m - present (me_val old)) in
          let root := rb_update here (fun e =>
            {| me_key := me_key e; me_val := me_val new_entry;
               me_negative_val := me_negative_val e |}) root in
          ({| mt_root := root; mt_size := u64 (size + 1) |}, me_val old)
      end
  | None => ({| mt_root := root; mt_size := u64 (mt_size m + 1) |}, None)
  end.

Definition rbtree_memtable_get (m : memtable) (key : Z) : result record :=
  match __rbtree_memtable_search (mt_root m) key with
  | Some v => Ok v
  | None => Err ENODATA
  end.

Definition rbtree_memtable_remove (m : memtable) (key : Z) : memtable * option record :=
  match rb_find (memtable_entry_cmp_rb_key key) (mt_root m) with
  | None => (m, None)
  | Some entry =>
      let root := rb_erase (fun e => me_key e =? me_key entry) (mt_root m) in
      let size := u64 (u64 (mt_size m - present (me_val entry)) - present (me_negative_val entry)) in
      ({| mt_root := root; mt_size := size |}, me_val entry)
  end.

Definition rbtree_memtable_contains (m : memtable) (key : Z) : bool :=
  match __rbtree_memtable_search (mt_root m) key with Some _ => true | None => false end.

(** The entries are linked in the order of the tree. *)
Definition rbtree_memtable_get_all_entry (m : memtable) : list memtable_entry :=
  rb_inorder (mt_root m).

(** [while (!RB_EMPTY_ROOT(...)) erase rb_first]; [None] when out of fuel. *)
Fixpoint memtable_clear_loop (fuel : nat) (root : rbtree memtable_entry)
  : option (rbtree memtable_entry) :=
  match fuel with
  | O => None
  | S fuel =>
      match rb_first root with
      | None => Some root
      | Some entry => memtable_clear_loop fuel (rb_erase (fun e => me_key e =? me_key entry) root)
      end
  end.

Definition rbtree_memtable_clear (m : memtable) : option memtable :=
  match memtable_clear_loop (S (length (rb_inorder (mt_root m)))) (mt_root m) with
  | Some root => Some {| mt_root := root; mt_size := 0 |}
  | None => None
  end.
End operations.

(** ** Specification: a finite map from keys to cells *)

(** What an entry holds: its latest record and its negative record. *)
Definition cell : Type := option record * option record.
Definition entry_cell (e : memtable_entry) : cell := (me_val e, me_negative_val e).

Definition mt_map (m : memtable) : gmap Z cell := kmap me_key entry_cell (rb_inorder (mt_root m)).

Definition cell_value (c : cell) : option record :=
  match c.1 with Some v => Some v | None => c.2 end.

(** The latest record alone. *)
Definition cell_latest (c : option cell) : option record :=
  match c with Some (v, _) => v | None => None end.

Definition cell_put (c : option cell) (val : option record) : cell :=
  match val with
  | None => (None, Some negative)
  | Some v => (Some v, match c with Some (_, n) => n | None => None end)
  end.

Definition entry_weight (e : memtable_entry) : Z := present (me_val e) + present (me_negative_val e).
Fixpoint weight (l : list memtable_entry) : Z :=
  match l with
  | [] => 0
  | e :: l => entry_weight e + weight l
  end.

(** Keys increase and stay in the range in which the [int] comparisons are
    exact; every entry holds a record; [size] counts the records. *)
Record memtable_wf (m : memtable) : Prop := {
  wf_sorted : keys_sorted me_key (rb_inorder (mt_root m));
  wf_keys : Forall (fun e => 0 <= me_key e < 2 ^ 31) (rb_inorder (mt_root m));
  wf_cells : Forall (fun e => 1 <= entry_weight e) (rb_inorder (mt_root m));
  wf_size : mt_size m = weight (rb_inorder (mt_root m));
  wf_size_bound : mt_size m < 2 ^ 64
}.

Lemma weight_app l1 l2 : weight (l1 ++ l2) = weight l1 + weight l2.
Proof. induction l1 as [|e l1 IH]; cbn; lia. Qed.

Lemma present_range r : 0 <= present r <= 1.
Proof. destruct r; cbn; lia. Qed.

Lemma entry_weight_range e : 0 <= entry_weight e <= 2.
Proof. unfold entry_weight. pose proof (present_range (me_val e)). pose proof (present_range (me_negative_val e)). lia. Qed.

Lemma weight_nonneg l : 0 <= weight l.
Proof. induction l as [|e l IH]; cbn; [lia|]. pose proof (entry_weight_range e). lia. Qed.

(** In range, the truncated comparisons have the sign of the difference. *)
Lemma memtable_entry_cmp_exact x y :
  0 <= me_key x < 2 ^ 31 -> 0 <= me_key y < 2 ^ 31 ->
  memtable_entry_cmp x y = me_key x - me_key y.
Proof. intros. unfold memtable_entry_cmp. apply i32_small. lia. Qed.

Lemma memtable_cmp_rb_key_exact k y :
  0 <= k < 2 ^ 31 -> 0 <= me_key y < 2 ^ 31 ->
  memtable_entry_cmp_rb_key k y = k - me_key y.
Proof. intros. unfold memtable_entry_cmp_rb_key. rewrite (i32_small k) by lia. apply i32_small. lia. Qed.

Section correctness.
Context `{RbTreeSpec}.

(** The comparisons place a key between the two halves of a split. *)
Lemma cmp_split_find_add e l1 l2 :
  0 <= me_key e < 2 ^ 31 ->
  Forall (fun y => 0 <= me_key y < 2 ^ 31) l1 -> Forall (fun y => 0 <= me_key y < 2 ^ 31) l2 ->
  Forall (fun y => me_key y < me_key e) l1 -> Forall (fun y => me_key e < me_key y) l2 ->
  Forall (fun y => 0 < memtable_entry_cmp e y) l1 /\ Forall (fun y => memtable_entry_cmp e y < 0) l2.
Proof.
  intros He Hr1 Hr2 H1 H2. split; apply Forall_forall; intros y Hy;
    rewrite Forall_forall in *; rewrite memtable_entry_cmp_exact by auto.
  - specialize (H1 y Hy). lia.
  - specialize (H2 y Hy). lia.
Qed.

Lemma cmp_split_key k l1 l2 :
  0 <= k < 2 ^ 31 ->
  Forall (fun y => 0 <= me_key y < 2 ^ 31) l1 -> Forall (fun y => 0 <= me_key y < 2 ^ 31) l2 ->
  Forall (fun y => me_key y < k) l1 -> Forall (fun y => k < me_key y) l2 ->
  Forall (fun y => 0 < memtable_entry_cmp_rb_key k y) l1 /\
  Forall (fun y => memtable_entry_cmp_rb_key k y < 0) l2.
Proof.
  intros Hk Hr1 Hr2 H1 H2. split; apply Forall_forall; intros y Hy;
    rewrite Forall_forall in *; rewrite memtable_cmp_rb_key_exact by auto.
  - specialize (H1 y Hy). lia.
  - specialize (H2 y Hy). lia.
Qed.

(** The walk from the root finds what the map holds. *)
Lemma search_map root k :
  keys_sorted me_key (rb_inorder root) ->
  __rbtree_memtable_search root k = kmap me_key entry_cell (rb_inorder root) !! k ≫= cell_value.
Proof.
  induction root as [|lt IHl e rt IHr]; [done|]. cbn [rb_inorder __rbtree_memtable_search]. intros Hs.
  pose proof (keys_sorted_middle _ _ _ _ Hs) as [H1 H2].
  pose proof Hs as (Hsl & [Hsr _]%keys_sorted_cons & _)%keys_sorted_app.
  rewrite kmap_middle by eauto with jindisk.
  destruct (Z.ltb_spec k (me_key e)); [|destruct (Z.ltb_spec (me_key e) k)].
  - rewrite lookup_insert_ne, IHl by (done || lia). f_equal. unfold kmap. rewrite fmap_app, list_to_map_app.
    rewrite lookup_union. fold (kmap me_key entry_cell (rb_inorder rt)).
    rewrite (kmap_lookup_none me_key entry_cell (rb_inorder rt)); [by rewrite (right_id_L None _)|].
    eapply Forall_impl; [exact H2|]. cbn. lia.
  - rewrite lookup_insert_ne, IHr by (done || lia). f_equal. unfold kmap. rewrite fmap_app, list_to_map_app.
    rewrite lookup_union. fold (kmap me_key entry_cell (rb_inorder lt)).
    rewrite (kmap_lookup_none me_key entry_cell (rb_inorder lt)); [by rewrite (left_id_L None _)|].
    eapply Forall_impl; [exact H1|]. cbn. lia.
  - assert (k = me_key e) as -> by lia. by rewrite lookup_insert_eq.
Qed.

Lemma memtable_get_map m k : memtable_wf m ->
  rbtree_memtable_get m k =
  match mt_map m !! k ≫= cell_value with Some v => Ok v | None => Err ENODATA end.
Proof. intros Hwf. unfold rbtree_memtable_get. rewrite search_map; [done|apply Hwf]. Qed.

(** The parts of a well-formed table around a key. *)
Lemma wf_split m k : memtable_wf m ->
  (exists l1 e l2, rb_inorder (mt_root m) = l1 ++ e :: l2 /\ me_key e = k /\
     Forall (fun y => me_key y < k) l1 /\ Forall (fun y => k < me_key y) l2) \/
  (exists l1 l2, rb_inorder (mt_root m) = l1 ++ l2 /\
     Forall (fun y => me_key y < k) l1 /\ Forall (fun y => k < me_key y) l2).
Proof. intros Hwf. apply keys_split, Hwf. Qed.

(** Replacing the cell of an entry keeps the table well formed. *)
Lemma wf_replace m root' size' l1 e e' l2 :
  memtable_wf m -> rb_inorder (mt_root m) = l1 ++ e :: l2 -> me_key e' = me_key e ->
  1 <= entry_weight e' -> rb_inorder root' = l1 ++ e' :: l2 ->
  size' = mt_size m - entry_weight e + entry_weight e' -> size' < 2 ^ 64 ->
  memtable_wf {| mt_root := root'; mt_size := size' |}.
Proof.
  intros [Hs Hk Hc Hw Hb] Hin He Hwt Hin' Hsz Hlt. rewrite Hin in *.
  apply Forall_app in Hk as [Hk1 Hk2], Hc as [Hc1 Hc2].
  apply Forall_cons in Hk2 as [Hke Hk2], Hc2 as [Hce Hc2].
  split; cbn; rewrite ?Hin'.
  - pose proof (keys_sorted_middle _ _ _ _ Hs) as [H1 H2].
    apply keys_sorted_insert; [by eapply keys_sorted_remove|by rewrite He..].
  - apply Forall_app. split; [done|]. constructor; [by rewrite He|done].
  - apply Forall_app. split; [done|]. by constructor.
  - rewrite weight_app in *. cbn in *. lia.
  - done.
Qed.

(** ** The operations refine the map *)

Lemma put_new m k val l1 l2 :
  memtable_wf m -> 0 <= k < 2 ^ 31 -> mt_size m + 1 < 2 ^ 64 ->
  rb_inorder (mt_root m) = l1 ++ l2 ->
  Forall (fun y => me_key y < k) l1 -> Forall (fun y => k < me_key y) l2 ->
  let '(m', old) := rbtree_memtable_put m k val in
  memtable_wf m' /\ mt_map m' = <[k := cell_put None val]> (mt_map m) /\ old = None.
Proof.
  intros Hwf Hk Hsz Hin H1 H2. destruct Hwf as [Hs Hkeys Hc Hw Hb]. rewrite Hin in *.
  pose proof Hkeys as [Hr1 Hr2]%Forall_app. pose proof Hc as [Hc1 Hc2]%Forall_app.
  set (e := new_memtable_entry k val).
  destruct (cmp_split_find_add e l1 l2) as [Hcmp1 Hcmp2]; [done..|].
  destruct (rb_find_add_new memtable_entry_cmp e (mt_root m) l1 l2) as (t' & Hadd & Hin'); [done..|].
  unfold rbtree_memtable_put. fold e. rewrite Hadd.
  pose proof (weight_nonneg (l1 ++ l2)). rewrite u64_small by lia.
  assert (entry_weight e = 1) as He by (subst e; by destruct val).
  split; [|split; [|done]].
  - split; cbn; rewrite ?Hin'.
    + by apply keys_sorted_insert.
    + apply Forall_app. split; [done|]. by constructor.
    + apply Forall_app. split; [done|]. constructor; [lia|done].
    + rewrite weight_app in *. cbn. lia.
    + lia.
  - unfold mt_map. cbn [mt_root]. rewrite Hin', Hin. rewrite kmap_middle by (by apply keys_lt_ne).
    subst e. by destruct val.
Qed.

Lemma put_old m k val l1 e l2 :
  memtable_wf m -> me_key e = k -> mt_size m + 1 < 2 ^ 64 ->
  rb_inorder (mt_root m) = l1 ++ e :: l2 ->
  let '(m', old) := rbtree_memtable_put m k val in
  memtable_wf m' /\ mt_map m' = <[k := cell_put (Some (entry_cell e)) val]> (mt_map m) /\
  old = match val with None => None | Some _ => me_val e end.
Proof.
  intros Hwf Hk Hsz Hin. pose proof Hwf as [Hs Hkeys Hc Hw Hb]. rewrite Hin in Hs, Hkeys, Hc, Hw.
  pose proof (keys_sorted_middle _ _ _ _ Hs) as [H1 H2].
  apply Forall_app in Hkeys as [Hr1 [Hre Hr2]%Forall_cons], Hc as [_ [Hce _]%Forall_cons].
  set (n := new_memtable_entry k val).
  destruct (cmp_split_find_add n l1 l2) as [Hcmp1 Hcmp2];
    [by subst n; cbn; rewrite <- Hk|done|done|by subst n; cbn; rewrite <- Hk..|].
  assert (memtable_entry_cmp n e = 0) as Heq.
  { rewrite memtable_entry_cmp_exact; subst n; cbn; rewrite <- ?Hk; lia || done. }
  unfold rbtree_memtable_put. fold n.
  rewrite (rb_find_add_old memtable_entry_cmp n (mt_root m) l1 e l2) by done.
  rewrite weight_app in Hw. cbn in Hw. pose proof (weight_nonneg l1). pose proof (weight_nonneg l2).
  pose proof (present_range (me_val e)). pose proof (present_range (me_negative_val e)).
  unfold entry_weight in Hw.
  destruct val as [v|]; cbn zeta beta iota.
  - set (e' := {| me_key := me_key e; me_val := me_val n; me_negative_val := me_negative_val e |}).
    assert (rb_inorder (rb_update (fun x => me_key x =? me_key e) (fun x =>
      {| me_key := me_key x; me_val := me_val n; me_negative_val := me_negative_val x |}) (mt_root m))
      = l1 ++ e' :: l2) as Hin' by (by apply (rb_update_middle me_key)).
    rewrite (u64_small (_ - _)) by lia. rewrite u64_small by lia. split; [|split; [|done]].
    + eapply (wf_replace m _ _ l1 e e' l2); unfold entry_weight; cbn; try done; lia.
    + unfold mt_map. cbn [mt_root]. rewrite Hin', Hin, (kmap_replace me_key entry_cell l1 e e' l2) by done.
      by rewrite Hk.
  - set (e' := {| me_key := me_key e; me_val := None; me_negative_val := me_negative_val n |}).
    assert (rb_inorder (rb_update (fun x => me_key x =? me_key e) (fun x =>
      {| me_key := me_key x; me_val := None; me_negative_val := me_negative_val n |}) (mt_root m))
      = l1 ++ e' :: l2) as Hin' by (by apply (rb_update_middle me_key)).
    rewrite (u64_small (mt_size m - _)) by lia. rewrite (u64_small (_ - present (me_negative_val e))) by lia.
    rewrite u64_small by lia. split; [|split; [|done]].
    + eapply (wf_replace m _ _ l1 e e' l2); unfold entry_weight; cbn; try done; lia.
    + unfold mt_map. cbn [mt_root]. rewrite Hin', Hin, (kmap_replace me_key entry_cell l1 e e' l2) by done.
      by rewrite Hk.
Qed.

Lemma mt_map_split_some m k l1 e l2 : memtable_wf m ->
  rb_inorder (mt_root m) = l1 ++ e :: l2 -> me_key e = k -> mt_map m !! k = Some (entry_cell e).
Proof.
  intros Hwf Hin <-. unfold mt_map. rewrite Hin. apply kmap_middle_lookup.
  pose proof (wf_sorted _ Hwf) as Hs. rewrite Hin in Hs. by apply keys_sorted_middle in Hs as [H1 _].
Qed.

Lemma mt_map_split_none m k l1 l2 :
  rb_inorder (mt_root m) = l1 ++ l2 ->
  Forall (fun y => me_key y < k) l1 -> Forall (fun y => k < me_key y) l2 -> mt_map m !! k = None.
Proof. intros Hin H1 H2. unfold mt_map. rewrite Hin. by apply kmap_app_none. Qed.

(** With 2^31 keys and two records each the size cannot wrap around. *)
Lemma memtable_size_small m : memtable_wf m -> mt_size m <= 2 ^ 32.
Proof.
  intros [Hs Hk _ Hw _]. rewrite Hw.
  pose proof (keys_sorted_length me_key 0 (2 ^ 31) _ Hs Hk) as Hl.
  assert (forall l, weight l <= 2 * Z.of_nat (length l)) as Hb; [|specialize (Hb (rb_inorder (mt_root m))); lia].
  induction l as [|e l IH]; cbn [weight length]; [lia|]. pose proof (entry_weight_range e). lia.
Qed.

Lemma memtable_put_map m k val :
  memtable_wf m -> 0 <= k < 2 ^ 31 ->
  let '(m', old) := rbtree_memtable_put m k val in
  memtable_wf m' /\
  mt_map m' = <[k := cell_put (mt_map m !! k) val]> (mt_map m) /\
  old = match val with None => None | Some _ => cell_latest (mt_map m !! k) end.
Proof.
  intros Hwf Hk. pose proof (memtable_size_small m Hwf) as Hsm. assert (mt_size m + 1 < 2 ^ 64) as Hsz by lia.
  destruct (wf_split m k Hwf) as [(l1 & e & l2 & Hin & He & _)|(l1 & l2 & Hin & H1 & H2)].
  - rewrite (mt_map_split_some m k l1 e l2) by done. by apply (put_old m k val l1 e l2).
  - rewrite (mt_map_split_none m k l1 l2) by done. pose proof (put_new m k val l1 l2 Hwf Hk Hsz Hin H1 H2) as Hput.
    destruct (rbtree_memtable_put m k val) as [m' old]. destruct Hput as (? & ? & ->).
    split; [done|]. split; [done|]. by destruct val.
Qed.

(** C12. For keys below 2^31, a put keeps the table well formed (keys strictly
    increasing, the size equal to the number of records held), replaces the
    cell of the key and no other, keeps the negative record under a new value,
    and returns the value it replaces; a put of [NULL] leaves only a negative
    record and returns nothing. *)
Theorem memtable_put_refines m k val :
  memtable_wf m -> 0 <= k < 2 ^ 31 ->
  let '(m', old) := rbtree_memtable_put m k val in
  memtable_wf m' /\
  mt_map m' = <[k := cell_put (mt_map m !! k) val]> (mt_map m) /\
  old = match val with None => None | Some _ => cell_latest (mt_map m !! k) end.
Proof. apply memtable_put_map. Qed.

(** A put seen through [get]. *)
Lemma memtable_put_get m k r : memtable_wf m -> 0 <= k < 2 ^ 31 ->
  let m' := (rbtree_memtable_put m k (Some r)).1 in
  memtable_wf m' /\ rbtree_memtable_get m' k = Ok r /\
  forall k', k' <> k -> rbtree_memtable_get m' k' = rbtree_memtable_get m k'.
Proof.
  intros Hwf Hk. pose proof (memtable_put_map m k (Some r) Hwf Hk) as Hput.
  destruct (rbtree_memtable_put m k (Some r)) as [m' old]. destruct Hput as (Hwf' & Hmap & _). cbn.
  split; [done|]. rewrite memtable_get_map, Hmap, lookup_insert_eq by done. split; [done|].
  intros k' Hne. by rewrite !memtable_get_map, Hmap, lookup_insert_ne by done.
Qed.

(** Reading back: after a put, a get of the same key returns the record
    put (or the negative record), and a get of another key what it returned
    before; [contains] agrees with [get]. *)
Theorem memtable_get_put m k val k' :
  memtable_wf m -> 0 <= k < 2 ^ 31 ->
  let m' := (rbtree_memtable_put m k val).1 in
  rbtree_memtable_get m' k = Ok (match val with Some v => v | None => negative end) /\
  (k' <> k -> rbtree_memtable_get m' k' = rbtree_memtable_get m k') /\
  rbtree_memtable_contains m' k' = is_ok (rbtree_memtable_get m' k').
Proof.
  intros Hwf Hk. pose proof (memtable_put_map m k val Hwf Hk) as Hput.
  destruct (rbtree_memtable_put m k val) as [m' old]. destruct Hput as (Hwf' & Hmap & _).
  cbn. rewrite !memtable_get_map, Hmap by done. split; [|split].
  - rewrite lookup_insert_eq. by destruct val.
  - intros Hne. by rewrite lookup_insert_ne.
  - rewrite <- Hmap. unfold rbtree_memtable_contains, mt_map. rewrite search_map by apply Hwf'.
    by destruct (kmap me_key entry_cell (rb_inorder (mt_root m')) !! k' ≫= cell_value).
Qed.

(** [remove] deletes the key, with both of its records, keeps the table
    well formed and returns the value the key had; on an absent key it changes
    nothing. *)
Theorem memtable_remove_refines m k :
  memtable_wf m -> 0 <= k < 2 ^ 31 ->
  let '(m', val) := rbtree_memtable_remove m k in
  memtable_wf m' /\ mt_map m' = delete k (mt_map m) /\ val = cell_latest (mt_map m !! k).
Proof.
  intros Hwf Hk. pose proof Hwf as [Hs Hkeys Hc Hw Hb].
  destruct (wf_split m k Hwf) as [(l1 & e & l2 & Hin & He & H1 & H2)|(l1 & l2 & Hin & H1 & H2)];
    unfold rbtree_memtable_remove; rewrite Hin in Hs, Hkeys, Hc, Hw;
    pose proof Hkeys as [Hr1 Hr2]%Forall_app.
  - apply Forall_cons in Hr2 as [Hre Hr2].
    destruct (cmp_split_key k l1 l2) as [Hcmp1 Hcmp2]; [done..|].
    rewrite (rb_find_some _ _ l1 e l2) by (done || (rewrite memtable_cmp_rb_key_exact by done; lia)).
    pose proof (mt_map_split_some m k l1 e l2 Hwf Hin He) as Hlook.
    rewrite weight_app in Hw. cbn in Hw. pose proof (weight_nonneg l1). pose proof (weight_nonneg l2).
    pose proof (present_range (me_val e)). pose proof (present_range (me_negative_val e)).
    unfold entry_weight in Hw.
    rewrite (u64_small (mt_size m - _)) by lia. rewrite u64_small by lia.
    assert (rb_inorder (rb_erase (fun y => me_key y =? me_key e) (mt_root m)) = l1 ++ l2) as Hin'
      by (by apply (rb_erase_middle me_key)).
    split; [|split].
    + split; cbn; rewrite ?Hin'.
      * by eapply keys_sorted_remove.
      * by apply Forall_app.
      * apply Forall_app in Hc as [Hc1 [_ Hc2]%Forall_cons]. by apply Forall_app.
      * rewrite weight_app. lia.
      * lia.
    + unfold mt_map. cbn [mt_root]. rewrite Hin', Hin, (kmap_remove me_key entry_cell l1 e l2) by done. by rewrite He.
    + by rewrite Hlook.
  - destruct (cmp_split_key k l1 l2) as [Hcmp1 Hcmp2]; [done..|].
    rewrite (rb_find_none _ _ l1 l2) by done.
    rewrite (mt_map_split_none m k l1 l2) by done. split; [done|]. split; [|done].
    symmetry. apply delete_id. by apply (mt_map_split_none m k l1 l2).
Qed.

(** [clear] erases the entries one by one until the tree is empty. *)
Lemma memtable_clear_loop_spec l : forall root,
  rb_inorder root = l -> keys_sorted me_key l ->
  exists root', memtable_clear_loop (S (length l)) root = Some root' /\ rb_inorder root' = [].
Proof.
  induction l as [|e l IH]; intros root Hin Hs; cbn [length memtable_clear_loop];
    unfold rb_first; rewrite Hin; cbn [head].
  - eauto.
  - assert (rb_inorder (rb_erase (fun y => me_key y =? me_key e) root) = l) as Hin'
      by (apply (rb_erase_middle me_key root [] e l Hin Hs)).
    destruct (IH _ Hin') as (root' & Hrun & Hnil); [by apply keys_sorted_cons in Hs as [? _]|].
    exists root'. auto.
Qed.

(** [clear] terminates on every well-formed table and leaves it empty, with
    size zero. *)
Theorem memtable_clear_empties m :
  memtable_wf m ->
  exists m', rbtree_memtable_clear m = Some m' /\
    rbtree_memtable_get_all_entry m' = [] /\ mt_size m' = 0 /\ mt_map m' = ∅.
Proof.
  intros Hwf. unfold rbtree_memtable_clear.
  destruct (memtable_clear_loop_spec _ (mt_root m) eq_refl (wf_sorted _ Hwf)) as (root' & -> & Hnil).
  eexists. split; [done|]. unfold rbtree_memtable_get_all_entry, mt_map. cbn. by rewrite Hnil.
Qed.

Lemma memtable_create_wf : memtable_wf rbtree_memtable_create.
Proof. split; cbn; try done; constructor. Qed.

(** The comparison returns a 64-bit difference as an [int]: with two keys
    2^31 apart it orders each before the other, so that after putting blocks 0
    and 2^31 into an empty table one of the two cannot be found by the walk,
    whatever tree the library builds. *)
Theorem memtable_key_truncation (v w : record) :
  let m1 := (rbtree_memtable_put rbtree_memtable_create 0 (Some v)).1 in
  let m2 := (rbtree_memtable_put m1 (2 ^ 31) (Some w)).1 in
  rbtree_memtable_get m2 0 = Err ENODATA \/ rbtree_memtable_get m2 (2 ^ 31) = Err ENODATA.
Proof.
  destruct (rb_find_add_new memtable_entry_cmp (new_memtable_entry 0 (Some v)) rb_nil [] [])
    as (t1 & Hadd1 & Hin1); [done|constructor..|].
  cbn in Hin1.
  destruct (rb_find_add_new memtable_entry_cmp (new_memtable_entry (2 ^ 31) (Some w)) t1
    [] [new_memtable_entry 0 (Some v)]) as (t2 & Hadd2 & Hin2);
    [by rewrite Hin1|constructor|by repeat constructor|].
  cbv zeta. unfold rbtree_memtable_put, rbtree_memtable_create. cbn [mt_root mt_size].
  rewrite Hadd1. cbn [fst mt_root mt_size]. rewrite Hadd2. cbn [fst mt_root].
  unfold rbtree_memtable_get. cbn [mt_root].
  destruct t2 as [|l x r]; [done|]. cbn in Hin2. destruct (rb_inorder l) as [|a la] eqn:Hl.
  - injection Hin2 as -> _. left. cbn [__rbtree_memtable_search]. 
    destruct l as [|? ? ?]; [done|]. cbn in Hl. by destruct (app_eq_nil _ _ Hl).
  - destruct la as [|b la]; [|by destruct la].
    injection Hin2 as -> -> Hr. right. cbn [__rbtree_memtable_search].
    destruct r as [|? ? ?]; [done|]. cbn in Hr. by destruct (app_eq_nil _ _ Hr).
Qed.
End correctness.

(** ** Concrete runs *)

Definition example_record (p : Z) : record := record_create (zeros 16) p None None.

(** Block 5 relocated by the collector and rewritten, block 9 written once. *)
Definition example_table : memtable :=
  let m := (rbtree_memtable_put rbtree_memtable_create 5 None).1 in
  let m := (rbtree_memtable_put m 5 (Some (example_record 70))).1 in
  (rbtree_memtable_put m 9 (Some (example_record 71))).1.

Lemma example_table_wf : memtable_wf example_table.
Proof.
  split; [|by apply (bool_decide_unpack _); vm_compute..|vm_compute; reflexivity].
  unfold keys_sorted. change (me_key <$> rb_inorder (mt_root example_table)) with [5; 9].
  repeat constructor.
Qed.

Example example_table_size : mt_size example_table = 3.
Proof. reflexivity. Qed.

Lemma memtable_put_refines_witness :
  let '(m', old) := rbtree_memtable_put example_table 5 (Some (example_record 72)) in
  memtable_wf m' /\
  mt_map m' = <[5 := cell_put (mt_map example_table !! 5) (Some (example_record 72))]> (mt_map example_table) /\
  old = cell_latest (mt_map example_table !! 5).
Proof. apply memtable_put_refines; [apply example_table_wf | lia]. Defined.

Lemma memtable_get_put_witness :
  rbtree_memtable_get (rbtree_memtable_put example_table 5 None).1 5 = Ok negative.
Proof. apply (memtable_get_put example_table 5 None 9); [apply example_table_wf | lia]. Defined.

Lemma memtable_remove_refines_witness :
  let '(m', val) := rbtree_memtable_remove example_table 5 in
  memtable_wf m' /\ mt_map m' = delete 5 (mt_map example_table) /\
  val = cell_latest (mt_map example_table !! 5).
Proof. apply memtable_remove_refines; [apply example_table_wf | lia]. Defined.

Lemma memtable_clear_empties_witness :
  exists m', rbtree_memtable_clear example_table = Some m' /\
    rbtree_memtable_get_all_entry m' = [] /\ mt_size m' = 0 /\ mt_map m' = ∅.
Proof. apply memtable_clear_empties. apply example_table_wf. Defined.

Lemma memtable_key_truncation_witness :
  let m1 := (rbtree_memtable_put rbtree_memtable_create 0 (Some (example_record 70))).1 in
  let m2 := (rbtree_memtable_put m1 (2 ^ 31) (Some (example_record 71))).1 in
  rbtree_memtable_get m2 0 = Err ENODATA \/ rbtree_memtable_get m2 (2 ^ 31) = Err ENODATA.
Proof. exact (memtable_key_truncation (example_record 70) (example_record 71)). Defined.
