(* ===== verification/Cache.v ===== *)
(** * Cache: the least-recently-used cache of index leaves

    [kernel-module/c/src/cache.c]. A radix tree (kernel code, here a finite
    map) finds a node by key, a list keeps the nodes from the most to the least
    recently used; a node is identified by its key in both. The class
    [LeafCache] is what a client of [struct cache] relies on. *)
From S2P Require Import Prelude.

Record lru_cache (V : Type) : Type := LruCache {
  lc_size : Z;
  lc_capacity : Z;
  lc_root : gmap Z V;
  lc_entries : list Z
}.
Arguments LruCache {V}.
Arguments lc_size {V}.
Arguments lc_capacity {V}.
Arguments lc_root {V}.
Arguments lc_entries {V}.

Section lru_cache.
Context {V : Type}.
Implicit Types (this : lru_cache V).

Definition lru_cache_init (capacity : Z) : lru_cache V :=
  {| lc_size := 0; lc_capacity := capacity; lc_root := ∅; lc_entries := [] |}.

Definition list_del (key : Z) (entries : list Z) : list Z := filter (fun k => k <> key) entries.

(** [while (this->size >= this->capacity)]: drop the last node. The values
    handed to their destructor are collected; [None] when out of fuel, or when
    the list is empty and its last entry is not a node. *)
Fixpoint lru_evict (fuel : nat) this (destroyed : list V) : option (lru_cache V * list V) :=
  match fuel with
  | O => None
  | S fuel =>
      if lc_capacity this <=? lc_size this then
        match last (lc_entries this) with
        | None => None
        | Some key =>
            let node := lc_root this !! key in
            lru_evict fuel
              {| lc_size := lc_size this - 1; lc_capacity := lc_capacity this;
                 lc_root := delete key (lc_root this); lc_entries := list_del key (lc_entries this) |}
              (destroyed ++ option_list node)
        end
      else Some (this, destroyed)
  end.

Definition lru_cache_put this (key : Z) (val : V) : option (lru_cache V * list V) :=
  match lc_root this !! key with
  | Some old =>
      Some ({| lc_size := lc_size this; lc_capacity := lc_capacity this;
               lc_root := <[key := val]> (lc_root this);
               lc_entries := key :: list_del key (lc_entries this) |}, [old])
  | None =>
      match lru_evict (S (length (lc_entries this))) this [] with
      | None => None
      | Some (this, destroyed) =>
          Some ({| lc_size := lc_size this + 1; lc_capacity := lc_capacity this;
                   lc_root := <[key := val]> (lc_root this);
                   lc_entries := key :: lc_entries this |}, destroyed)
      end
  end.

Definition lru_cache_get this (key : Z) : lru_cache V * option V :=
  match lc_root this !! key with
  | None => (this, None)
  | Some val =>
      ({| lc_size := lc_size this; lc_capacity := lc_capacity this; lc_root := lc_root this;
          lc_entries := key :: list_del key (lc_entries this) |}, Some val)
  end.

Definition lru_cache_delete this (key : Z) : lru_cache V * list V :=
  match lc_root this !! key with
  | None => (this, [])
  | Some val =>
      ({| lc_size := lc_size this - 1; lc_capacity := lc_capacity this; lc_root := delete key (lc_root this);
          lc_entries := list_del key (lc_entries this) |}, [val])
  end.

(** ** Specification: the association list from the most recently used on *)

(** The pairs of a list of keys under a map. *)
Definition view_of (m : gmap Z V) (ks : list Z) : list (Z * V) := omap (fun k => v ← m !! k; Some (k, v)) ks.

Definition lru_view this : list (Z * V) := view_of (lc_root this) (lc_entries this).

Definition without (key : Z) (l : list (Z * V)) : list (Z * V) := filter (fun p => p.1 <> key) l.

Fixpoint assoc (key : Z) (l : list (Z * V)) : option V :=
  match l with
  | [] => None
  | (k, v) :: l => if decide (k = key) then Some v else assoc key l
  end.

(** A new key pushes out the tail once the capacity is reached. *)
Definition spec_put (capacity : nat) (l : list (Z * V)) (key : Z) (val : V) : list (Z * V) :=
  match assoc key l with
  | Some _ => (key, val) :: without key l
  | None => (key, val) :: take (capacity - 1) l
  end.

Definition spec_get (l : list (Z * V)) (key : Z) : list (Z * V) :=
  match assoc key l with
  | Some v => (key, v) :: without key l
  | None => l
  end.

Record lru_wf this : Prop := {
  lw_nodup : NoDup (lc_entries this);
  lw_root : forall k, k ∈ lc_entries this <-> is_Some (lc_root this !! k);
  lw_size : lc_size this = Z.of_nat (length (lc_entries this));
  lw_capacity : 0 < lc_capacity this;
  lw_bound : lc_size this <= lc_capacity this
}.

(** ** Lists of keys *)

Lemma list_del_notin k l : k ∉ l -> list_del k l = l.
Proof.
  induction l as [|x l IH]; [done|]. rewrite not_elem_of_cons. intros [Hx Hl]. unfold list_del in *.
  rewrite filter_cons_True by congruence. by rewrite IH.
Qed.

Lemma list_del_length k l : NoDup l -> k ∈ l -> length l = S (length (list_del k l)).
Proof.
  induction 1 as [|x l Hx _ IH]; [by intros ?%elem_of_nil|]. unfold list_del in *. intros [->|Hk]%elem_of_cons.
  - rewrite filter_cons_False by tauto. cbn. f_equal. symmetry. f_equal. by apply list_del_notin.
  - rewrite filter_cons_True by congruence. cbn. f_equal. by apply IH.
Qed.

Lemma elem_of_list_del k x l : x ∈ list_del k l <-> x <> k /\ x ∈ l.
Proof. unfold list_del. by rewrite list_elem_of_filter. Qed.

Lemma NoDup_list_del k l : NoDup l -> NoDup (list_del k l).
Proof. apply NoDup_filter. Qed.

Lemma view_of_ext (m m' : gmap Z V) ks : (forall k, k ∈ ks -> m !! k = m' !! k) -> view_of m ks = view_of m' ks.
Proof.
  induction ks as [|k ks IH]; [done|]. intros Heq. cbn. rewrite (Heq k) by (by left).
  fold (view_of m ks) (view_of m' ks). rewrite IH; [done|]. intros x Hx. apply Heq. by right.
Qed.

Lemma view_of_cons (m : gmap Z V) k ks :
  view_of m (k :: ks) = match m !! k with Some v => (k, v) :: view_of m ks | None => view_of m ks end.
Proof. unfold view_of. cbn. by destruct (m !! k). Qed.

Lemma list_del_cons k x ks : list_del k (x :: ks) = if decide (x = k) then list_del k ks else x :: list_del k ks.
Proof.
  unfold list_del. destruct (decide (x = k)); [by rewrite filter_cons_False by tauto|by rewrite filter_cons_True].
Qed.

Lemma without_cons k x v (l : list (Z * V)) :
  without k ((x, v) :: l) = if decide (x = k) then without k l else (x, v) :: without k l.
Proof.
  unfold without. destruct (decide (x = k)); [by rewrite filter_cons_False by (cbn; tauto)|by rewrite filter_cons_True].
Qed.

Lemma view_of_del (m : gmap Z V) k ks : view_of m (list_del k ks) = without k (view_of m ks).
Proof.
  induction ks as [|x ks IH]; [done|]. rewrite list_del_cons, view_of_cons.
  destruct (decide (x = k)) as [->|Hne]; rewrite ?view_of_cons, IH; destruct (m !! _); try done;
    rewrite without_cons; [by rewrite decide_True|by rewrite decide_False].
Qed.

Lemma assoc_view (m : gmap Z V) k ks : assoc k (view_of m ks) = if decide (k ∈ ks) then m !! k else None.
Proof.
  induction ks as [|x ks IH]; [done|]. rewrite view_of_cons.
  destruct (m !! x) as [v|] eqn:Hx; cbn [assoc].
  - destruct (decide (x = k)) as [->|Hne].
    + rewrite decide_True by (by left). done.
    + rewrite IH. destruct (decide (k ∈ ks)); [rewrite decide_True by (by right)|rewrite decide_False]; try done.
      rewrite elem_of_cons. intros [?|?]; [congruence|done].
  - rewrite IH. destruct (decide (k ∈ ks)); [rewrite decide_True by (by right)|]; try done.
    destruct (decide (k ∈ x :: ks)) as [[->|?]%elem_of_cons|]; done.
Qed.

Lemma view_of_length (m : gmap Z V) ks : (forall k, k ∈ ks -> is_Some (m !! k)) -> length (view_of m ks) = length ks.
Proof.
  induction ks as [|k ks IH]; [done|]. intros Hm. cbn. destruct (Hm k) as [v ->]; [by left|]. cbn.
  fold (view_of m ks). rewrite IH; [done|]. intros x Hx. apply Hm. by right.
Qed.

Lemma assoc_lru this k : lru_wf this -> assoc k (lru_view this) = lc_root this !! k.
Proof.
  intros Hwf. unfold lru_view. rewrite (assoc_view (lc_root this)). destruct (decide (k ∈ lc_entries this)) as [|Hn]; [done|].
  destruct (lc_root this !! k) eqn:Hk; [|done]. destruct Hn. apply (lw_root _ Hwf). by rewrite Hk.
Qed.

(** Dropping the last key drops the last pair of the view. *)
Lemma list_del_last (ks : list Z) (k : Z) : NoDup (ks ++ [k]) -> list_del k (ks ++ [k]) = ks.
Proof.
  intros Hnd. unfold list_del. rewrite filter_app, filter_cons_False by tauto. rewrite filter_nil, app_nil_r.
  apply list_del_notin. apply NoDup_app in Hnd as (_ & Hnd & _). intros Hin. apply (Hnd k Hin). by left.
Qed.

Lemma lru_evict_spec fuel : forall this destroyed, lru_wf this -> (length (lc_entries this) < fuel)%nat ->
  exists this' d', lru_evict fuel this destroyed = Some (this', d') /\
    lru_wf this' /\ lc_capacity this' = lc_capacity this /\ lc_size this' < lc_capacity this' /\
    lru_view this' = take (Z.to_nat (lc_capacity this) - 1) (lru_view this) /\
    (forall k, k ∈ lc_entries this' -> k ∈ lc_entries this) /\
    d' = destroyed ++ rev (drop (Z.to_nat (lc_capacity this) - 1) (lru_view this).*2).
Proof.
  induction fuel as [|fuel IH]; intros this destroyed Hwf Hf; [lia|]. cbn [lru_evict].
  pose proof Hwf as [Hnd Hroot Hsize Hcap Hbound].
  assert (length (lru_view this) = length (lc_entries this)) as Hvl by (apply view_of_length; intros k; apply Hroot).
  destruct (Z.leb_spec (lc_capacity this) (lc_size this)) as [Hge|Hlt].
  2: { exists this, destroyed. split; [done|]. split; [done|]. split; [done|]. split; [lia|]. split; [|split; [done|]].
       - rewrite take_ge; [done|]. lia.
       - rewrite drop_ge; [by rewrite app_nil_r|]. rewrite length_fmap. lia. }
  destruct (last (lc_entries this)) as [k|] eqn:Hlast.
  2: { apply last_None in Hlast. rewrite Hlast in Hsize. cbn in Hsize. lia. }
  apply last_Some in Hlast as [ks Hks]. rewrite Hks in *. 
  assert (is_Some (lc_root this !! k)) as [v Hv] by (apply Hroot, elem_of_app; right; by left).
  set (this1 := {| lc_size := lc_size this - 1; lc_capacity := lc_capacity this; lc_root := delete k (lc_root this);
                   lc_entries := list_del k (ks ++ [k]) |}).
  pose proof (list_del_last ks k Hnd) as Hdel.
  assert (k ∉ ks) as Hnin by (apply NoDup_app in Hnd as (_ & Hnd & _); intros Hin; apply (Hnd k Hin); by left).
  assert (lru_view this = lru_view this1 ++ [(k, v)]) as Hview.
  { unfold lru_view, this1. cbn [lc_root lc_entries]. rewrite Hdel, Hks. unfold view_of at 1. rewrite omap_app. cbn. rewrite Hv. cbn. f_equal.
    apply (view_of_ext (lc_root this) (delete k (lc_root this)) ks).
    intros x Hx. rewrite lookup_delete_ne; [done|]. by intros ->. }
  rewrite length_app in Hsize, Hf. cbn in Hsize, Hf.
  assert (lru_wf this1) as Hwf1.
  { split; unfold this1; cbn; rewrite ?Hdel; [by apply NoDup_app in Hnd as (? & _)| |lia|lia|lia].
    intros x. destruct (decide (x = k)) as [->|Hne].
    - rewrite lookup_delete_eq. split; [done|by intros [? ?]].
    - rewrite lookup_delete_ne, <- Hroot, elem_of_app, list_elem_of_singleton by done. tauto. }
  destruct (IH this1 (destroyed ++ option_list (lc_root this !! k)) Hwf1) as (this' & d' & Hrun & Hw & Hc & Hs & Hvw & Hsub & Hd).
  { unfold this1. cbn. rewrite Hdel. lia. }
  rewrite Hview, !length_app in Hvl. cbn [length] in Hvl.
  assert (length (lru_view this1) = Z.to_nat (lc_capacity this) - 1)%nat as Hl1 by lia.
  exists this', d'. split; [done|]. split; [done|]. split; [done|]. split; [done|].
  split; [|split].
  - rewrite Hvw, Hview. change (lc_capacity this1) with (lc_capacity this). rewrite take_app_le by lia. done.
  - intros x Hx. apply elem_of_app. left. specialize (Hsub x Hx). unfold this1 in Hsub. cbn in Hsub. by rewrite Hdel in Hsub.
  - rewrite Hd, Hv, Hview, fmap_app. cbn [option_list]. change (lc_capacity this1) with (lc_capacity this).
    rewrite drop_ge by (rewrite length_fmap; lia). rewrite drop_app_ge by (rewrite length_fmap; lia).
    rewrite length_fmap, Hl1. rewrite Nat.sub_diag. cbn. by rewrite app_nil_r.
Qed.

Lemma lru_put_map this key val : lru_wf this ->
  exists this' d, lru_cache_put this key val = Some (this', d) /\ lru_wf this' /\
    lru_view this' = spec_put (Z.to_nat (lc_capacity this)) (lru_view this) key val /\
    lc_capacity this' = lc_capacity this.
Proof.
  intros Hwf. pose proof Hwf as [Hnd Hroot Hsize Hcap Hbound]. unfold lru_cache_put, spec_put. rewrite assoc_lru by done.
  destruct (lc_root this !! key) as [old|] eqn:Hk.
  - eexists _, _. split; [done|].
    assert (key ∈ lc_entries this) as Hin by (apply Hroot; by rewrite Hk).
    pose proof (list_del_length key _ Hnd Hin) as Hlen.
    split; [|split; [|done]].
    + split; cbn [lc_entries lc_root lc_size lc_capacity]; [| |cbn [length]; lia|done|done].
      * constructor; [rewrite elem_of_list_del; tauto|by apply NoDup_list_del].
      * intros x. rewrite elem_of_cons, elem_of_list_del. destruct (decide (x = key)) as [->|Hne].
        { rewrite lookup_insert_eq. split; [done|auto]. }
        rewrite lookup_insert_ne, <- Hroot by done. tauto.
    + unfold lru_view. cbn [lc_entries lc_root]. rewrite view_of_cons, lookup_insert_eq. f_equal.
      rewrite <- view_of_del.
      apply (view_of_ext (<[key:=val]> (lc_root this)) (lc_root this)). intros x Hx. apply elem_of_list_del in Hx as [Hx _].
      by rewrite lookup_insert_ne.
  - destruct (lru_evict_spec (S (length (lc_entries this))) this [] Hwf) as (this' & d' & -> & Hw & Hc & Hs & Hvw & Hsub & _); [lia|].
    eexists _, _. split; [done|].
    assert (key ∉ lc_entries this') as Hnin.
    { intros Hin. apply Hsub, Hroot in Hin. rewrite Hk in Hin. by destruct Hin. }
    pose proof Hw as [Hnd' Hroot' Hsize' Hcap' Hbound'].
    split; [|split; [|done]].
    + split; cbn [lc_entries lc_root lc_size lc_capacity]; [by constructor| |cbn [length]; lia|done|lia].
      intros x. rewrite elem_of_cons. destruct (decide (x = key)) as [->|Hne].
      { rewrite lookup_insert_eq. split; [done|auto]. }
      rewrite lookup_insert_ne, <- Hroot' by done. tauto.
    + unfold lru_view at 1. cbn [lc_entries lc_root]. rewrite view_of_cons, lookup_insert_eq. f_equal.
      rewrite <- Hvw. apply (view_of_ext (<[key:=val]> (lc_root this')) (lc_root this')).
      intros x Hx. rewrite lookup_insert_ne; [done|]. by intros ->.
Qed.

Lemma lru_get_map this key : lru_wf this ->
  let '(this', r) := lru_cache_get this key in
  lru_wf this' /\ r = assoc key (lru_view this) /\ lru_view this' = spec_get (lru_view this) key /\
  lc_capacity this' = lc_capacity this /\ lc_root this' = lc_root this.
Proof.
  intros Hwf. pose proof Hwf as [Hnd Hroot Hsize Hcap Hbound]. unfold lru_cache_get, spec_get. rewrite assoc_lru by done.
  destruct (lc_root this !! key) as [v|] eqn:Hk; [|done].
  assert (key ∈ lc_entries this) as Hin by (apply Hroot; by rewrite Hk).
  pose proof (list_del_length key _ Hnd Hin) as Hlen.
  split; [|split; [done|split; [|done]]].
  - split; cbn [lc_entries lc_root lc_size lc_capacity]; [| |cbn [length]; lia|done|done].
    + constructor; [rewrite elem_of_list_del; tauto|by apply NoDup_list_del].
    + intros x. rewrite elem_of_cons, elem_of_list_del, <- Hroot. destruct (decide (x = key)) as [->|]; tauto.
  - unfold lru_view. cbn [lc_entries lc_root]. rewrite view_of_cons, Hk. f_equal. apply view_of_del.
Qed.

Lemma lru_delete_map this key : lru_wf this ->
  let '(this', d) := lru_cache_delete this key in
  lru_wf this' /\ lru_view this' = without key (lru_view this) /\ d = option_list (assoc key (lru_view this)).
Proof.
  intros Hwf. pose proof Hwf as [Hnd Hroot Hsize Hcap Hbound]. unfold lru_cache_delete. rewrite assoc_lru by done.
  destruct (lc_root this !! key) as [v|] eqn:Hk.
  2: { split; [done|]. split; [|done]. unfold lru_view. rewrite <- view_of_del, list_del_notin; [done|]. intros Hin. apply Hroot in Hin. rewrite Hk in Hin. by destruct Hin. }
  assert (key ∈ lc_entries this) as Hin by (apply Hroot; by rewrite Hk).
  pose proof (list_del_length key _ Hnd Hin) as Hlen. split; [|split; [|done]].
  - split; cbn [lc_entries lc_root lc_size lc_capacity]; [by apply NoDup_list_del| |lia|done|lia].
    intros x. rewrite elem_of_list_del. destruct (decide (x = key)) as [->|Hne].
    + rewrite lookup_delete_eq. split; [tauto|by intros [? ?]].
    + rewrite lookup_delete_ne, <- Hroot by done. tauto.
  - unfold lru_view. cbn [lc_entries lc_root]. rewrite <- view_of_del.
    apply (view_of_ext (delete key (lc_root this)) (lc_root this)). intros x Hx. apply elem_of_list_del in Hx as [Hx _].
    by rewrite lookup_delete_ne.
Qed.

(** The cache is an association list in order of use, cut at its capacity:
    [put] terminates and moves or adds the key to the front, dropping the least
    recently used entries beyond the capacity; [get] returns the value last put
    under the key if it is still there and makes it the most recent; [delete]
    removes it. The map and the list of nodes stay in agreement and the number
    of nodes never exceeds the capacity. *)
Theorem lru_cache_refines this key val : lru_wf this ->
  (exists this' d, lru_cache_put this key val = Some (this', d) /\ lru_wf this' /\
     lru_view this' = spec_put (Z.to_nat (lc_capacity this)) (lru_view this) key val) /\
  (let '(this', r) := lru_cache_get this key in
   lru_wf this' /\ r = assoc key (lru_view this) /\ lru_view this' = spec_get (lru_view this) key) /\
  (let '(this', d) := lru_cache_delete this key in
   lru_wf this' /\ lru_view this' = without key (lru_view this) /\ d = option_list (assoc key (lru_view this))).
Proof.
  intros Hwf. split; [|split; [|by apply lru_delete_map]].
  - destruct (lru_put_map this key val Hwf) as (this' & d & Hrun & Hw & Hv & _). eauto.
  - pose proof (lru_get_map this key Hwf) as Hg. destruct (lru_cache_get this key). tauto.
Qed.

Lemma assoc_take n k (l : list (Z * V)) v : assoc k (take n l) = Some v -> assoc k l = Some v.
Proof.
  revert n. induction l as [|[x w] l IH]; intros [|n]; cbn; try done. destruct (decide (x = k)); [done|]. apply IH.
Qed.

Lemma assoc_without k x (l : list (Z * V)) : x <> k -> assoc x (without k l) = assoc x l.
Proof.
  intros Hne. induction l as [|[y w] l IH]; [done|]. rewrite without_cons. destruct (decide (y = k)) as [->|Hy].
  - cbn. by rewrite decide_False.
  - cbn. by rewrite IH.
Qed.
End lru_cache.

(** ** The interface of a cache

    A client relies on [get] returning the value last put under the key, or
    nothing: entries may disappear, but never change. *)
Class LeafCache (V : Type) : Type := {
  cache : Type;
  cache_get : cache -> Z -> cache * option V;
  cache_put : cache -> Z -> V -> cache;
  cache_view : cache -> Z -> option V
}.

Class LeafCacheSpec (V : Type) `{LeafCache V} : Prop := {
  cache_get_spec : forall c k c' r, cache_get c k = (c', r) ->
    r = cache_view c k /\ forall x, cache_view c' x = cache_view c x;
  cache_put_spec : forall c k v x w, cache_view (cache_put c k v) x = Some w ->
    (x = k /\ w = v) \/ (x <> k /\ cache_view c x = Some w)
}.

(** The LRU cache implements it; a cache carries the proof that it is well
    formed. *)
Definition lru (V : Type) : Type := {c : lru_cache V | lru_wf c}.

Definition lru_get {V : Type} (c : lru V) (k : Z) : lru V * option V :=
  (exist _ (lru_cache_get (proj1_sig c) k).1
     (match lru_cache_get (proj1_sig c) k as p return (let '(c', r) := p in lru_wf c' /\ _) -> lru_wf p.1 with
      | (c', r) => fun H => proj1 H end (lru_get_map (proj1_sig c) k (proj2_sig c))),
   (lru_cache_get (proj1_sig c) k).2).

Lemma lru_put_some {V : Type} (c : lru V) (k : Z) (v : V) :
  match lru_cache_put (proj1_sig c) k v with Some p => lru_wf p.1 | None => False end.
Proof.
  destruct (lru_put_map (proj1_sig c) k v (proj2_sig c)) as (c' & d & -> & Hw & _). done.
Qed.

Definition lru_put {V : Type} (c : lru V) (k : Z) (v : V) : lru V :=
  match lru_cache_put (proj1_sig c) k v as o return match o with Some p => lru_wf p.1 | None => False end -> lru V with
  | Some p => fun H => exist _ p.1 H
  | None => fun H => match H with end
  end (lru_put_some c k v).

#[export] Instance lru_leaf_cache (V : Type) : LeafCache V := {|
  cache := lru V;
  cache_get := lru_get;
  cache_put := lru_put;
  cache_view c k := assoc k (lru_view (proj1_sig c))
|}.

Lemma lru_put_proj {V : Type} (c : lru V) k v :
  exists d, lru_cache_put (proj1_sig c) k v = Some (proj1_sig (lru_put c k v), d).
Proof.
  unfold lru_put. generalize (lru_put_some c k v). destruct (lru_cache_put (proj1_sig c) k v) as [[c' d]|]; [|done].
  intros H. exists d. done.
Qed.

#[export] Instance lru_leaf_cache_spec (V : Type) : LeafCacheSpec V.
Proof.
  split; cbn.
  - intros c k c' r [= <- <-]. pose proof (lru_get_map (proj1_sig c) k (proj2_sig c)) as Hg. cbn [proj1_sig].
    destruct (lru_cache_get (proj1_sig c) k) as [c1 r1] eqn:Hrun. cbn.
    destruct Hg as (Hw & Hr & Hv & Hcap & Hroot). split; [done|].
    intros x. rewrite !assoc_lru by (done || apply (proj2_sig c)). by rewrite Hroot.
  - intros c k v x w Hx. destruct (lru_put_proj c k v) as [d Hd].
    destruct (lru_put_map (proj1_sig c) k v (proj2_sig c)) as (c' & d' & Hrun & Hw & Hv & _).
    rewrite Hd in Hrun. injection Hrun as Hc _. rewrite Hc, Hv in Hx. unfold spec_put in Hx.
    destruct (assoc k (lru_view (proj1_sig c))) eqn:Hk; cbn in Hx;
      (destruct (decide (k = x)) as [->|Hne]; [left; split; [done|congruence]|right]).
    + rewrite assoc_without in Hx by congruence. split; [congruence|done].
    + apply assoc_take in Hx. split; [congruence|done].
Qed.

(** ** Concrete runs *)

Definition example_cache : lru_cache Z :=
  {| lc_size := 2; lc_capacity := 2; lc_root := <[1 := 10]> (<[2 := 20]> ∅); lc_entries := [2; 1] |}.

Lemma example_cache_wf : lru_wf example_cache.
Proof.
  split; [by apply (bool_decide_unpack _); vm_compute| |done|done|done]. intros k. cbn.
  rewrite !elem_of_cons, elem_of_nil. destruct (decide (k = 1)) as [->|]; [split; [by eexists|auto]|].
  destruct (decide (k = 2)) as [->|]; [split; [by eexists|auto]|].
  rewrite !lookup_insert_ne, lookup_empty by done. split; [tauto|by intros [? ?]].
Qed.

Example example_put : option_map (fun p => lru_view p.1) (lru_cache_put example_cache 3 30) = Some [(3, 30); (2, 20)].
Proof. vm_compute. reflexivity. Qed.

Lemma lru_cache_refines_witness :
  let this := example_cache in
  (exists this' d, lru_cache_put this 3 30 = Some (this', d) /\ lru_wf this' /\
     lru_view this' = spec_put (Z.to_nat (lc_capacity this)) (lru_view this) 3 30) /\
  (let '(this', r) := lru_cache_get this 3 in
   lru_wf this' /\ r = assoc 3 (lru_view this) /\ lru_view this' = spec_get (lru_view this) 3) /\
  (let '(this', d) := lru_cache_delete this 3 in
   lru_wf this' /\ lru_view this' = without 3 (lru_view this) /\ d = option_list (assoc 3 (lru_view this))).
Proof. exact (lru_cache_refines example_cache 3 30 example_cache_wf). Defined.
