(* ===== verification/SegValidator.v ===== *)
(** * SegValidator: which segments are in use

    [struct seg_validator] of [kernel-module/c/src/metadata.c]: a bit set with
    one bit per segment and a cursor from which the next free segment is looked
    for. The block index table catalogue uses another one for its files. *)
From S2P Require Import Prelude Layout Bytes DiskStructs.

Record seg_validator `{ArrayIntf Z} : Type := SegValidator {
  sv_nr_segment : Z;
  sv_cur_segment : Z;
  sv_table : disk_bitset
}.

Section seg_validator.
Context `{ArraySpec Z} `{!GroupArray}.
Implicit Types (this : seg_validator).

Definition with_table this (t : disk_bitset) : seg_validator :=
  {| sv_nr_segment := sv_nr_segment this; sv_cur_segment := sv_cur_segment this; sv_table := t |}.
Definition with_cur this (cur : Z) : seg_validator :=
  {| sv_nr_segment := sv_nr_segment this; sv_cur_segment := cur; sv_table := sv_table this |}.

Definition seg_validator_take this (seg : Z) : seg_validator * result unit :=
  match disk_bitset_set (sv_table this) seg with
  | (t, Err e) => (with_table this t, Err e)
  | (t, Ok _) => (with_cur (with_table this t) (sv_cur_segment this + 1), Ok tt)
  end.

(** [while (this->cur_segment < this->nr_segment)]; [n] bounds the iterations
    left. A bit that cannot be read is passed over like one that is set. *)
Fixpoint next_scan (n : nat) this : seg_validator * option Z :=
  match n with
  | O => (this, None)
  | S n =>
      if sv_cur_segment this <? sv_nr_segment this then
        match disk_bitset_get (sv_table this) (sv_cur_segment this) with
        | (t, Ok false) => (with_table this t, Some (sv_cur_segment this))
        | (t, _) => next_scan n (with_cur (with_table this t) (sv_cur_segment this + 1))
        end
      else (this, None)
  end.

Definition scan_length this : nat := Z.to_nat (sv_nr_segment this - sv_cur_segment this).

Definition seg_validator_next this : seg_validator * result Z :=
  match next_scan (scan_length this) this with
  | (this, Some next_seg) => (this, Ok next_seg)
  | (this, None) =>
      let this := with_cur this 0 in
      match next_scan (scan_length this) this with
      | (this, Some next_seg) => (this, Ok next_seg)
      | (this, None) => (this, Err ENODATA)
      end
  end.

Definition seg_validator_test_and_return this (seg : Z) : seg_validator * result bool :=
  match disk_bitset_get (sv_table this) seg with
  | (t, Err e) => (with_table this t, Err e)
  | (t, Ok valid) =>
      match disk_bitset_clear t seg with
      | (t, Err e) => (with_table this t, Err e)
      | (t, Ok _) => (with_table this t, Ok valid)
      end
  end.

Definition seg_validator_format this : seg_validator * result unit :=
  match disk_bitset_format (sv_table this) false with
  | (t, Err e) => (with_table this t, Err e)
  | (t, Ok _) => (with_cur (with_table this t) 0, Ok tt)
  end.

(** [for (segno = 0; segno < this->nr_segment; ++segno)] *)
Fixpoint count_loop (n : nat) this (segno count : Z) : seg_validator * result Z :=
  match n with
  | O => (this, Ok count)
  | S n =>
      match disk_bitset_get (sv_table this) segno with
      | (t, Err e) => (with_table this t, Err e)
      | (t, Ok valid) => count_loop n (with_table this t) (segno + 1) (count + Z.b2z valid)
      end
  end.

Definition seg_validator_valid_segment_count this : seg_validator * result Z :=
  count_loop (Z.to_nat (sv_nr_segment this)) this 0 0.

(** Where the table of the checkpoint pack in use starts. *)
Definition seg_validator_start (start nr_segment valid_field : Z) : Z :=
  start + valid_field * __seg_validity_table_blocks nr_segment.

(** ** The segments in use *)

Definition sv_view this : list bool := bitset_view (sv_table this).

Record sv_wf this : Prop := {
  sv_wf_bitset : bitset_wf (sv_table this);
  sv_wf_nr : bs_nr_bit (sv_table this) = sv_nr_segment this;
  sv_wf_cur : 0 <= sv_cur_segment this
}.

(** Reads of the array succeed. *)
Definition reliable : Prop := forall a i,
  darr_ok a -> 0 <= i < Z.of_nat (length (darr_view a)) -> is_ok (darr_get a i).2 = true.

Lemma sv_view_length this : sv_wf this -> length (sv_view this) = Z.to_nat (sv_nr_segment this).
Proof. intros [_ <- _]. apply bitset_view_length. Qed.

Lemma with_table_wf this t c : sv_wf this -> bitset_wf t -> bs_nr_bit t = bs_nr_bit (sv_table this) ->
  0 <= c -> sv_wf (with_cur (with_table this t) c).
Proof. intros [Hb Hn Hc] Ht Hnt. split; cbn; [done|congruence|done]. Qed.

Lemma with_table_only_wf this t : sv_wf this -> bitset_wf t -> bs_nr_bit t = bs_nr_bit (sv_table this) ->
  sv_wf (with_table this t).
Proof. intros [Hb Hn Hc] Ht Hnt. split; cbn; [done|congruence|done]. Qed.

(** A read of the bit of a segment. *)
Lemma sv_get_step this seg t r : sv_wf this -> 0 <= seg < sv_nr_segment this ->
  disk_bitset_get (sv_table this) seg = (t, r) ->
  bitset_wf t /\ bs_nr_bit t = bs_nr_bit (sv_table this) /\ bitset_view t = sv_view this /\
  (forall b, r = Ok b -> sv_view this !! Z.to_nat seg = Some b) /\
  (reliable -> is_ok r = true).
Proof.
  intros Hwf Hseg Hget. pose proof (bitset_get_map (sv_table this) seg (sv_wf_bitset _ Hwf) ltac:(lia)) as Hmap.
  rewrite Hget in Hmap. destruct Hmap as (Ht & Hn & Hv & Hb).
  split; [done|]. split; [done|]. split; [done|]. split.
  - intros b ->. apply Hb; [rewrite (sv_wf_nr _ Hwf); lia|done].
  - intros Hrel. unfold disk_bitset_get in Hget.
    pose proof (Hrel (bs_array (sv_table this)) (__disk_bitset_group seg) (bs_wf_ok _ (sv_wf_bitset _ Hwf))) as Hr.
    destruct (darr_get (bs_array (sv_table this)) (__disk_bitset_group seg)) as [a [g|e]]; injection Hget as <- <-; [done|].
    cbn in Hr. discriminate Hr. apply group_index_range; [apply Hwf|]. rewrite (sv_wf_nr _ Hwf). lia.
Qed.

Lemma next_scan_spec n : forall this this' o, sv_wf this ->
  (scan_length this <= n)%nat -> next_scan n this = (this', o) ->
  sv_wf this' /\ sv_view this' = sv_view this /\ sv_nr_segment this' = sv_nr_segment this /\
  match o with
  | Some seg => sv_cur_segment this <= seg < sv_nr_segment this /\ sv_cur_segment this' = seg /\
      sv_view this !! Z.to_nat seg = Some false
  | None => reliable -> forall seg, sv_cur_segment this <= seg < sv_nr_segment this ->
      sv_view this !! Z.to_nat seg = Some true
  end.
Proof.
  induction n as [|n IH]; intros this this' o Hwf Hn; cbn [next_scan].
  { intros [= <- <-]. repeat split; try apply Hwf. unfold scan_length in Hn. intros. lia. }
  destruct (Z.ltb_spec (sv_cur_segment this) (sv_nr_segment this)) as [Hlt|Hge].
  2: { intros [= <- <-]. repeat split; try apply Hwf. intros. lia. }
  pose proof (sv_wf_cur _ Hwf) as Hcur.
  destruct (disk_bitset_get (sv_table this) (sv_cur_segment this)) as [t r] eqn:Hget.
  apply sv_get_step in Hget as (Ht & Hnb & Hv & Hb & Hrel); [|done|lia].
  set (next := with_cur (with_table this t) (sv_cur_segment this + 1)).
  assert (sv_wf next) as Hwf' by (apply with_table_wf; done || lia).
  assert (scan_length next <= n)%nat as Hn' by (subst next; unfold scan_length in *; cbn; lia).
  assert (next_scan n next = (this', o) -> (r = Ok true \/ is_ok r = false) ->
    sv_wf this' /\ sv_view this' = sv_view this /\ sv_nr_segment this' = sv_nr_segment this /\
    match o with
    | Some seg => sv_cur_segment this <= seg < sv_nr_segment this /\ sv_cur_segment this' = seg /\
        sv_view this !! Z.to_nat seg = Some false
    | None => reliable -> forall seg, sv_cur_segment this <= seg < sv_nr_segment this ->
        sv_view this !! Z.to_nat seg = Some true
    end) as Hstep.
  { intros Hrun Hr. apply IH in Hrun as (Hw & Hvw & Hns & Ho); [|done..].
    change (sv_view next) with (bitset_view t) in *. rewrite Hv in *. split; [done|]. split; [done|].
    split; [done|]. destruct o as [seg|].
    - cbn in Ho. destruct Ho as (? & ? & ?). split; [lia|done].
    - intros Hre seg Hseg. destruct (Z.eq_dec seg (sv_cur_segment this)) as [->|Hne].
      + destruct Hr as [->|Hr]; [by apply Hb|]. rewrite Hrel in Hr; done.
      + apply Ho; [done|]. cbn. lia. }
  destruct r as [[]|e]; [auto| |auto]. intros [= <- <-].
  split; [by apply with_table_only_wf|]. split; [done|]. split; [done|]. split; [lia|]. split; [done|]. by apply Hb.
Qed.

Lemma seg_validator_next_map this : sv_wf this ->
  let '(this', r) := seg_validator_next this in
  sv_wf this' /\ sv_view this' = sv_view this /\ sv_nr_segment this' = sv_nr_segment this /\
  match r with
  | Ok seg => 0 <= seg < sv_nr_segment this /\ sv_cur_segment this' = seg /\
      sv_view this !! Z.to_nat seg = Some false
  | Err e => e = ENODATA /\ (reliable -> Forall (eq true) (sv_view this))
  end.
Proof.
  intros Hwf. unfold seg_validator_next. pose proof (sv_wf_cur _ Hwf).
  destruct (next_scan (scan_length this) this) as [this1 o1] eqn:Hscan1.
  apply next_scan_spec in Hscan1 as (Hw1 & Hv1 & Hn1 & Ho1); [|done..].
  destruct o1 as [seg|]; [split; [done|]; split; [done|]; split; [done|]; split; [lia|]; tauto|].
  assert (sv_wf (with_cur this1 0)) as Hw1' by (split; cbn; [apply Hw1..|lia]).
  destruct (next_scan (scan_length (with_cur this1 0)) (with_cur this1 0)) as [this2 o2] eqn:Hscan2.
  apply next_scan_spec in Hscan2 as (Hw2 & Hv2 & Hn2 & Ho2); [|done..].
  change (sv_view (with_cur this1 0)) with (sv_view this1) in *. cbn in *. rewrite Hv1, Hn1 in *.
  destruct o2 as [seg|]; [tauto|].
  split; [done|]. split; [done|]. split; [done|]. split; [done|]. intros Hrel. apply Forall_lookup. intros k b Hk.
  pose proof (lookup_lt_Some _ _ _ Hk) as Hlen. rewrite sv_view_length in Hlen by done.
  specialize (Ho2 Hrel (Z.of_nat k) ltac:(lia)). rewrite Nat2Z.id in Ho2. congruence.
Qed.

Lemma seg_validator_take_map this seg : sv_wf this -> 0 <= seg ->
  let '(this', r) := seg_validator_take this seg in
  sv_wf this' /\ sv_nr_segment this' = sv_nr_segment this /\
  match r with
  | Ok _ => seg < sv_nr_segment this /\ sv_view this' = <[Z.to_nat seg := true]> (sv_view this)
  | Err _ => sv_view this' = sv_view this
  end.
Proof.
  intros Hwf Hseg. unfold seg_validator_take, disk_bitset_set.
  pose proof (bitset_operate_map (sv_table this) seg true (sv_wf_bitset _ Hwf) Hseg) as Hop.
  pose proof (sv_wf_cur _ Hwf).
  destruct (__disk_bitset_operate (sv_table this) seg true) as [t [u|e]]; destruct Hop as (Ht & Hn & Hr).
  - split; [apply with_table_wf; done || lia|]. split; [done|]. by rewrite <- (sv_wf_nr _ Hwf).
  - split; [by apply with_table_only_wf|]. done.
Qed.

Lemma seg_validator_return_map this seg : sv_wf this -> 0 <= seg < sv_nr_segment this ->
  let '(this', r) := seg_validator_test_and_return this seg in
  sv_wf this' /\ sv_nr_segment this' = sv_nr_segment this /\
  match r with
  | Ok old => sv_view this !! Z.to_nat seg = Some old /\
      sv_view this' = <[Z.to_nat seg := false]> (sv_view this)
  | Err _ => sv_view this' = sv_view this
  end.
Proof.
  intros Hwf Hseg. unfold seg_validator_test_and_return, disk_bitset_clear.
  destruct (disk_bitset_get (sv_table this) seg) as [t r] eqn:Hget.
  apply sv_get_step in Hget as (Ht & Hn & Hv & Hb & _); [|done..].
  destruct r as [old|e]; [|split; [by apply with_table_only_wf|]; done].
  pose proof (bitset_operate_map t seg false Ht ltac:(lia)) as Hop.
  destruct (__disk_bitset_operate t seg false) as [t' [u|e]]; destruct Hop as (Ht' & Hn' & Hr).
  - split; [apply with_table_only_wf; [done..|congruence]|]. split; [done|]. split; [by apply Hb|].
    destruct Hr as [_ Hr]. unfold sv_view at 1. cbn. by rewrite Hr, Hv.
  - split; [apply with_table_only_wf; [done..|congruence]|]. split; [done|].
    unfold sv_view at 1. cbn. by rewrite Hr, Hv.
Qed.

Lemma seg_validator_format_map this : sv_wf this ->
  let '(this', r) := seg_validator_format this in
  sv_wf this' /\ sv_nr_segment this' = sv_nr_segment this /\
  (r = Ok tt -> sv_view this' = replicate (Z.to_nat (sv_nr_segment this)) false /\ sv_cur_segment this' = 0).
Proof.
  intros Hwf. unfold seg_validator_format.
  pose proof (bitset_format_map (sv_table this) false (sv_wf_bitset _ Hwf)) as Hf.
  destruct (disk_bitset_format (sv_table this) false) as [t [[]|e]]; destruct Hf as (Ht & Hn & Hr).
  - split; [apply with_table_wf; done || lia|]. split; [done|]. intros _. split; [|done].
    unfold sv_view. cbn. by rewrite Hr, (sv_wf_nr _ Hwf).
  - split; [by apply with_table_only_wf|]. done.
Qed.

(** The number of segments in use. *)
Definition in_use (l : list bool) : Z := Z.of_nat (length (filter (eq true) l)).

Lemma in_use_take_S l k b : l !! k = Some b -> in_use (take (S k) l) = in_use (take k l) + Z.b2z b.
Proof.
  intros Hk. unfold in_use. rewrite (take_S_r _ _ _ Hk), filter_app, length_app.
  destruct b; [rewrite filter_cons_True by done|rewrite filter_cons_False by done]; cbn [length filter list_filter Z.b2z];
    rewrite ?filter_nil; cbn; lia.
Qed.

Lemma count_loop_spec n : forall this segno count this' r, sv_wf this ->
  0 <= segno -> segno + Z.of_nat n = sv_nr_segment this ->
  count = in_use (take (Z.to_nat segno) (sv_view this)) ->
  count_loop n this segno count = (this', r) ->
  sv_wf this' /\ sv_view this' = sv_view this /\ forall c, r = Ok c -> c = in_use (sv_view this).
Proof.
  induction n as [|n IH]; intros this segno count this' r Hwf Hs Hn Hc; cbn [count_loop].
  - intros [= <- <-]. split; [done|]. split; [done|]. intros c [= <-]. rewrite Hc, take_ge; [done|].
    rewrite sv_view_length by done. lia.
  - destruct (disk_bitset_get (sv_table this) segno) as [t rb] eqn:Hget.
    apply sv_get_step in Hget as (Ht & Hnb & Hv & Hb & _); [|done|lia]. destruct rb as [b|e].
    + intros Hrun. apply IH in Hrun as (Hw & Hvw & Hr); [| |lia|cbn; lia|].
      * change (sv_view (with_table this t)) with (bitset_view t) in *. by rewrite Hv in *.
      * by apply with_table_only_wf.
      * change (sv_view (with_table this t)) with (bitset_view t). rewrite Hv.
        replace (Z.to_nat (segno + 1)) with (S (Z.to_nat segno)) by lia.
        rewrite (in_use_take_S _ _ b) by (by apply Hb). by rewrite Hc.
    + intros [= <- <-]. split; [by apply with_table_only_wf|]. done.
Qed.

(** C21. [seg_validator_next] hands out only a segment that is free, and reports
    [-ENODATA] only when none is, provided every bit can be read; it changes no
    bit. Taking the segment it returns marks that segment and no other. *)
Theorem seg_validator_alloc this : sv_wf this ->
  let '(this1, r) := seg_validator_next this in
  sv_view this1 = sv_view this /\
  match r with
  | Ok seg => 0 <= seg < sv_nr_segment this /\ sv_view this !! Z.to_nat seg = Some false /\
      let '(this2, r2) := seg_validator_take this1 seg in
      sv_wf this2 /\ (r2 = Ok tt -> sv_view this2 = <[Z.to_nat seg := true]> (sv_view this))
  | Err e => e = ENODATA /\ (reliable -> Forall (eq true) (sv_view this))
  end.
Proof.
  intros Hwf. pose proof (seg_validator_next_map this Hwf) as Hnext.
  destruct (seg_validator_next this) as [this1 [seg|e]]; destruct Hnext as (Hw & Hv & Hn & Hr); [|tauto].
  split; [done|]. destruct Hr as (Hseg & Hcur & Hfree). split; [done|]. split; [done|].
  pose proof (seg_validator_take_map this1 seg Hw ltac:(lia)) as Ht.
  destruct (seg_validator_take this1 seg) as [this2 [[]|e]]; destruct Ht as (Hw2 & _ & Ht); split; try done.
  intros _. destruct Ht as [_ ->]. by rewrite Hv.
Qed.

(** [test_and_return] frees exactly the segment given and reports whether it
    was in use, and [valid_segment_count] counts the segments in use, which is
    how the number of used segments is recomputed when a device is opened. *)
Theorem seg_validator_return_count this seg : sv_wf this -> 0 <= seg < sv_nr_segment this ->
  (let '(this', r) := seg_validator_test_and_return this seg in
   sv_wf this' /\
   match r with
   | Ok old => sv_view this !! Z.to_nat seg = Some old /\
       sv_view this' = <[Z.to_nat seg := false]> (sv_view this)
   | Err _ => sv_view this' = sv_view this
   end) /\
  (let '(this', r) := seg_validator_valid_segment_count this in
   sv_view this' = sv_view this /\ forall c, r = Ok c -> c = in_use (sv_view this)).
Proof.
  intros Hwf Hseg. split.
  - pose proof (seg_validator_return_map this seg Hwf Hseg) as Hret.
    destruct (seg_validator_test_and_return this seg). tauto.
  - destruct (seg_validator_valid_segment_count this) as [this' r] eqn:Hrun.
    apply count_loop_spec in Hrun; [tauto|done|lia| |done].
    pose proof (bs_wf_nr _ (sv_wf_bitset _ Hwf)). rewrite (sv_wf_nr _ Hwf) in *. lia.
Qed.
(** ** When the array neither fails to read nor to write *)

Definition writable : Prop := forall a i e,
  darr_ok a -> 0 <= i < Z.of_nat (length (darr_view a)) -> darr_entry_ok e -> is_ok (darr_set a i e).2 = true.

Lemma bitset_operate_works t i v : reliable -> writable -> bitset_wf t -> 0 <= i < bs_nr_bit t ->
  is_ok (__disk_bitset_operate t i v).2 = true.
Proof.
  intros Hrel Hwr Hwf Hi. unfold __disk_bitset_operate. destruct (Z.ltb_spec i 0); [lia|].
  destruct (Z.leb_spec (bs_nr_bit t) i); [lia|]. cbn [orb]. pose proof (group_index_range t i Hwf Hi) as Hgi.
  pose proof (Hrel _ _ (bs_wf_ok _ Hwf) Hgi) as Hr. destruct (darr_get (bs_array t) (__disk_bitset_group i)) as [a [g|e]] eqn:Hget; [|done].
  apply darr_get_spec in Hget as (Hok' & Hv & Hg); [|apply Hwf|lia]. destruct Hg as [Hg|]; [|done].
  symmetry in Hg. apply array_get_ok in Hg as [_ Hg].
  pose proof (Hwr a (__disk_bitset_group i) ((if v then set_bit else clear_bit) (__disk_bitset_offset i) g) Hok') as Hs.
  rewrite Hv in Hs. specialize (Hs Hgi).
  destruct (darr_set a _ _) as [a' r]. cbn [snd] in *. apply Hs.
  apply group_entry_ok, (bitmap_update_range 64); [|apply offset_range; lia]. apply group_entry_ok.
  pose proof (darr_view_ok _ (bs_wf_ok _ Hwf)) as Hall. rewrite Forall_lookup in Hall. by eapply Hall.
Qed.

(** A free segment is found and taken. *)
Lemma sv_alloc_works this i : reliable -> writable -> sv_wf this -> sv_view this !! i = Some false ->
  exists v seg v', seg_validator_next this = (v, Ok seg) /\ seg_validator_take v seg = (v', Ok tt) /\ sv_wf v' /\
    sv_nr_segment v' = sv_nr_segment this /\ 0 <= seg < sv_nr_segment this /\ sv_view this !! Z.to_nat seg = Some false /\
    sv_view v' = <[Z.to_nat seg := true]> (sv_view this).
Proof.
  intros Hrel Hwr Hwf Hi. pose proof (seg_validator_next_map this Hwf) as Hnext.
  destruct (seg_validator_next this) as [v [seg|e]]; destruct Hnext as (Hv & Hview & Hn & Hr).
  2: { destruct Hr as [_ Hr]. specialize (Hr Hrel). rewrite Forall_lookup in Hr. specialize (Hr _ _ Hi). done. }
  destruct Hr as (Hseg & _ & Hfree). pose proof (seg_validator_take_map v seg Hv (proj1 Hseg)) as Htake.
  pose proof (bitset_operate_works (sv_table v) seg true Hrel Hwr (sv_wf_bitset _ Hv)) as Hop.
  rewrite (sv_wf_nr _ Hv), Hn in Hop. specialize (Hop Hseg). unfold seg_validator_take, disk_bitset_set in *.
  destruct (__disk_bitset_operate (sv_table v) seg true) as [t [u|e]] eqn:Hrun; [|done].
  destruct Htake as (Hv' & Hn' & _ & Hview'). exists v, seg, (with_cur (with_table v t) (sv_cur_segment v + 1)).
  rewrite Hrun. split; [done|]. split; [done|]. split; [done|]. split; [cbn in *; congruence|]. split; [done|]. split; [done|].
  by rewrite <- Hview.
Qed.

Lemma sv_return_works this seg : reliable -> writable -> sv_wf this -> 0 <= seg < sv_nr_segment this ->
  exists v old, seg_validator_test_and_return this seg = (v, Ok old) /\ sv_wf v /\ sv_nr_segment v = sv_nr_segment this /\
    sv_view v = <[Z.to_nat seg := false]> (sv_view this).
Proof.
  intros Hrel Hwr Hwf Hseg. pose proof (seg_validator_return_map this seg Hwf Hseg) as Hret.
  destruct (seg_validator_test_and_return this seg) as [v [old|e]] eqn:Hrun; destruct Hret as (Hv & Hn & Hr).
  { destruct Hr as [_ Hr]. by exists v, old. }
  exfalso. unfold seg_validator_test_and_return, disk_bitset_clear in Hrun.
  destruct (disk_bitset_get (sv_table this) seg) as [t r] eqn:Hget.
  apply sv_get_step in Hget as (Ht & Hnt & _ & _ & Hok); [|done..]. specialize (Hok Hrel). destruct r as [old|]; [|done].
  pose proof (bitset_operate_works t seg false Hrel Hwr Ht) as Hop. rewrite Hnt, (sv_wf_nr _ Hwf) in Hop. specialize (Hop Hseg).
  by destruct (__disk_bitset_operate t seg false) as [t' [u|]].
Qed.
End seg_validator.

(** ** Concrete runs *)

Lemma group_list_reliable : reliable (H := group_list).
Proof.
  intros a i _ Hi. cbn. destruct (array_get_in_range a i) as [e ->]; [|done]. apply Hi.
Qed.

Lemma group_list_writable : writable (H := group_list).
Proof. intros a i e _ Hi _. cbn. rewrite array_set_in_range by exact Hi. done. Qed.

(** Seventy segments, of which 0 and 2 are in use; the cursor is at the end. *)
Definition example_validator : seg_validator :=
  {| sv_nr_segment := 70; sv_cur_segment := 70; sv_table := example_bitset |}.

Lemma example_validator_wf : sv_wf example_validator.
Proof. split; cbn; [apply example_bitset_wf|done|lia]. Qed.

Example example_next : (seg_validator_next example_validator).2 = Ok 1.
Proof. vm_compute. reflexivity. Qed.

Lemma seg_validator_alloc_witness :
  let this := example_validator in
  let '(this1, r) := seg_validator_next this in
  sv_view this1 = sv_view this /\
  match r with
  | Ok seg => 0 <= seg < sv_nr_segment this /\ sv_view this !! Z.to_nat seg = Some false /\
      let '(this2, r2) := seg_validator_take this1 seg in
      sv_wf this2 /\ (r2 = Ok tt -> sv_view this2 = <[Z.to_nat seg := true]> (sv_view this))
  | Err e => e = ENODATA /\ (reliable -> Forall (eq true) (sv_view this))
  end.
Proof. exact (seg_validator_alloc example_validator example_validator_wf). Defined.

Lemma seg_validator_return_count_witness :
  let this := example_validator in
  (let '(this', r) := seg_validator_test_and_return this 2 in
   sv_wf this' /\
   match r with
   | Ok old => sv_view this !! Z.to_nat 2 = Some old /\
       sv_view this' = <[Z.to_nat 2 := false]> (sv_view this)
   | Err _ => sv_view this' = sv_view this
   end) /\
  (let '(this', r) := seg_validator_valid_segment_count this in
   sv_view this' = sv_view this /\ forall c, r = Ok c -> c = in_use (sv_view this)).
Proof. exact (seg_validator_return_count example_validator 2 example_validator_wf ltac:(cbn; lia)). Defined.
