(* ===== verification/Rit.v ===== *)
(** * Rit: the reverse index table

    [struct reverse_index_table] of [kernel-module/c/src/metadata.c]: for every
    physical data block, the logical block it holds, or [INF_ADDR]. The garbage
    collector decides with it whether a block is still referenced. *)
From S2P Require Import Prelude Layout Bytes DiskStructs.

Record reverse_index_entry : Type := ReverseIndexEntry { lba : Z }.

#[export] Instance reverse_index_entry_eq_dec : EqDecision reverse_index_entry.
Proof. solve_decision. Defined.

#[export] Instance rit_codec : Codec reverse_index_entry := {|
  entry_size := 8;
  encode e := le_encode 8 (lba e);
  decode l := {| lba := u64 (le_decode l) |};
  entry_ok e := 0 <= lba e < 2 ^ 64
|}.

#[export] Instance rit_codec_spec : CodecSpec reverse_index_entry.
Proof.
  split; cbn [entry_size encode decode entry_ok rit_codec].
  - lia.
  - intros. apply le_encode_length.
  - intros [l] He. cbn [lba] in *. rewrite le_decode_encode by (cbn; lia). by rewrite u64_small.
  - intros l. apply u64_range.
Qed.

Record reverse_index_table `{ArrayIntf reverse_index_entry} : Type := Rit { rit_array : darr }.

Section rit.
Context `{ArraySpec reverse_index_entry}.
Context (entry_range : forall e, darr_entry_ok e <-> 0 <= lba e < 2 ^ 64).
Implicit Types (this : reverse_index_table).

Definition reverse_index_table_format this : reverse_index_table * result unit :=
  let '(a, r) := darr_format (rit_array this) false in ({| rit_array := a |}, r).

(** The second component is what is written to [*new_lba], [None] when it is
    left alone; it is written before the store that may fail. *)
Definition reverse_index_table_reset this (pba old_lba : Z) : reverse_index_table * option Z * result unit :=
  match darr_get (rit_array this) pba with
  | (a, Err e) => ({| rit_array := a |}, None, Err e)
  | (a, Ok entry) =>
      let new_lba := lba entry in
      if negb (old_lba =? INF_ADDR) && negb (old_lba =? lba entry) then ({| rit_array := a |}, Some new_lba, Ok tt)
      else
        match darr_set a pba {| lba := INF_ADDR |} with
        | (a, Err e) => ({| rit_array := a |}, Some new_lba, Err e)
        | (a, Ok _) => ({| rit_array := a |}, Some new_lba, Ok tt)
        end
  end.

Definition reverse_index_table_set this (pba lba : Z) : reverse_index_table * result unit :=
  let '(a, r) := darr_set (rit_array this) pba {| lba := lba |} in ({| rit_array := a |}, r).

Definition reverse_index_table_get this (pba : Z) : reverse_index_table * result Z :=
  match darr_get (rit_array this) pba with
  | (a, Err e) => ({| rit_array := a |}, Err e)
  | (a, Ok entry) => ({| rit_array := a |}, Ok (lba entry))
  end.

(** ** What the table maps *)

Definition rit_wf this : Prop := darr_ok (rit_array this).
Definition rit_view this : list Z := lba <$> darr_view (rit_array this).

Lemma rit_get_map this pba : rit_wf this -> 0 <= pba ->
  let '(this', r) := reverse_index_table_get this pba in
  rit_wf this' /\ rit_view this' = rit_view this /\
  forall l, r = Ok l -> rit_view this !! Z.to_nat pba = Some l.
Proof.
  intros Hwf Hp. unfold reverse_index_table_get, rit_wf, rit_view in *.
  destruct (darr_get (rit_array this) pba) as [a r] eqn:Hget.
  apply darr_get_spec in Hget as (Hok & Hv & Hr); [|done..].
  destruct r as [e|e]; cbn; rewrite Hv; (split; [done|]); (split; [done|]); [|done].
  intros l [= <-]. destruct Hr as [Hr|Hr]; [|done]. symmetry in Hr. apply array_get_ok in Hr as [_ Hr].
  by rewrite list_lookup_fmap, Hr.
Qed.

Lemma rit_array_set (a a' : darr) pba l r : darr_ok a -> 0 <= pba -> 0 <= l < 2 ^ 64 ->
  darr_set a pba {| lba := l |} = (a', r) ->
  darr_ok a' /\
  match r with
  | Ok _ => pba < Z.of_nat (length (darr_view a)) /\
      lba <$> darr_view a' = <[Z.to_nat pba := l]> (lba <$> darr_view a)
  | Err _ => darr_view a' = darr_view a
  end.
Proof.
  intros Hok Hp Hl Hset. apply darr_set_spec in Hset as (Hok' & Hset); [|done..|by apply entry_range].
  split; [done|]. destruct Hset as [Hset|[Hv Hr]]; [|by destruct r].
  unfold array_set in Hset. destruct ((pba <? 0) || (Z.of_nat (length (darr_view a)) <=? pba)) eqn:Hb.
  - injection Hset as -> ->. done.
  - injection Hset as -> ->. apply orb_false_iff in Hb as [_ Hb]. apply Z.leb_gt in Hb. split; [done|].
    by rewrite list_fmap_insert.
Qed.

Lemma rit_set_map this pba l : rit_wf this -> 0 <= pba -> 0 <= l < 2 ^ 64 ->
  let '(this', r) := reverse_index_table_set this pba l in
  rit_wf this' /\
  match r with
  | Ok _ => pba < Z.of_nat (length (rit_view this)) /\ rit_view this' = <[Z.to_nat pba := l]> (rit_view this)
  | Err _ => rit_view this' = rit_view this
  end.
Proof using entry_range H0.
  intros Hwf Hp Hl. unfold reverse_index_table_set, rit_wf, rit_view in *.
  destruct (darr_set (rit_array this) pba {| lba := l |}) as [a r] eqn:Hset.
  apply rit_array_set in Hset as [Hok Hr]; [|done..]. cbn. split; [done|].
  destruct r; [by rewrite length_fmap|by rewrite Hr].
Qed.

Lemma rit_reset_map this pba old : rit_wf this -> 0 <= pba ->
  let '(this', new_lba, r) := reverse_index_table_reset this pba old in
  rit_wf this' /\ length (rit_view this') = length (rit_view this) /\
  match new_lba with
  | Some cur => rit_view this !! Z.to_nat pba = Some cur /\
      rit_view this' = (if decide (is_ok r = true /\ (old = INF_ADDR \/ old = cur))
                        then <[Z.to_nat pba := INF_ADDR]> (rit_view this) else rit_view this)
  | None => is_ok r = false /\ rit_view this' = rit_view this
  end.
Proof using entry_range H0.
  intros Hwf Hp. unfold reverse_index_table_reset, rit_wf, rit_view in *.
  destruct (darr_get (rit_array this) pba) as [a r] eqn:Hget.
  apply darr_get_spec in Hget as (Hok & Hv & Hr); [|done..].
  destruct r as [e|e]; [|cbn; by rewrite Hv].
  destruct Hr as [Hr|Hr]; [|done]. symmetry in Hr. apply array_get_ok in Hr as [_ Hr].
  assert ((lba <$> darr_view (rit_array this)) !! Z.to_nat pba = Some (lba e)) as Hlook by (by rewrite list_lookup_fmap, Hr).
  destruct (negb (old =? INF_ADDR) && negb (old =? lba e)) eqn:Hcmp; cbn [rit_array].
  - split; [done|]. rewrite Hv. split; [done|]. split; [done|].
    destruct (decide _) as [[_ Hd]|]; [|done].
    destruct (Z.eqb_spec old INF_ADDR), (Z.eqb_spec old (lba e)); cbn in Hcmp; tauto || done.
  - assert (old = INF_ADDR \/ old = lba e) as Ho.
    { destruct (Z.eqb_spec old INF_ADDR), (Z.eqb_spec old (lba e)); cbn in Hcmp; tauto || done. }
    destruct (darr_set a pba {| lba := INF_ADDR |}) as [a' r'] eqn:Hset.
    apply rit_array_set in Hset as [Hok' Hr']; [|done..|by vm_compute].
    destruct r'; cbn [rit_array is_ok]; rewrite <- Hv.
    + destruct Hr' as [_ Hr']. rewrite Hr', length_insert. split; [done|]. split; [done|]. split; [by rewrite Hv|].
      destruct (decide _) as [|Hn]; [done|]. by destruct Hn.
    + rewrite Hr'. split; [done|]. split; [done|]. split; [by rewrite Hv|]. destruct (decide _) as [[? _]|]; done.
Qed.

(** [reset] with [old_lba] is a compare-and-clear: it hands back the
    logical block the physical block holds, and sets the entry to [INF_ADDR]
    exactly when [old_lba] is that block or [INF_ADDR]. An entry that another
    write has taken over meanwhile is left alone, no other entry changes, and
    an error changes none; an error of the read leaves [*new_lba] unset. [set]
    stores one entry. *)
Theorem reverse_index_table_reset_cas this pba old l :
  rit_wf this -> 0 <= pba -> 0 <= l < 2 ^ 64 ->
  (let '(this', new_lba, r) := reverse_index_table_reset this pba old in
   rit_wf this' /\ length (rit_view this') = length (rit_view this) /\
   match new_lba with
   | Some cur => rit_view this !! Z.to_nat pba = Some cur /\
       rit_view this' = (if decide (is_ok r = true /\ (old = INF_ADDR \/ old = cur))
                         then <[Z.to_nat pba := INF_ADDR]> (rit_view this) else rit_view this)
   | None => is_ok r = false /\ rit_view this' = rit_view this
   end) /\
  (let '(this', r) := reverse_index_table_set this pba l in
   match r with
   | Ok _ => rit_view this' = <[Z.to_nat pba := l]> (rit_view this)
   | Err _ => rit_view this' = rit_view this
   end).
Proof using entry_range H0.
  intros Hwf Hp Hl. split; [by apply rit_reset_map|]. pose proof (rit_set_map this pba l Hwf Hp Hl) as Hs.
  destruct (reverse_index_table_set this pba l) as [this' []]; tauto.
Qed.
End rit.

(** ** Concrete runs *)

#[export] Instance rit_list : ArrayIntf reverse_index_entry :=
  list_array (fun e => 0 <= lba e < 2 ^ 64) (fun v => {| lba := if v then INF_ADDR else 0 |}).
#[export] Instance rit_list_spec : ArraySpec reverse_index_entry.
Proof. apply list_array_spec. intros []; vm_compute; split; congruence || done. Qed.

Definition example_rit : reverse_index_table :=
  {| rit_array := [{| lba := 4 |}; {| lba := INF_ADDR |}; {| lba := 9 |}] |}.

Lemma reverse_index_table_reset_cas_witness :
  let this := example_rit in
  (let '(this', new_lba, r) := reverse_index_table_reset this 2 9 in
   rit_wf this' /\ length (rit_view this') = length (rit_view this) /\
   match new_lba with
   | Some cur => rit_view this !! Z.to_nat 2 = Some cur /\
       rit_view this' = (if decide (is_ok r = true /\ (9 = INF_ADDR \/ 9 = cur))
                         then <[Z.to_nat 2 := INF_ADDR]> (rit_view this) else rit_view this)
   | None => is_ok r = false /\ rit_view this' = rit_view this
   end) /\
  (let '(this', r) := reverse_index_table_set this 2 5 in
   match r with
   | Ok _ => rit_view this' = <[Z.to_nat 2 := 5]> (rit_view this)
   | Err _ => rit_view this' = rit_view this
   end).
Proof.
  refine (reverse_index_table_reset_cas (fun e => iff_refl _) example_rit 2 9 5 _ _ _); [|lia|lia].
  repeat constructor; vm_compute; congruence || done.
Defined.
