(* ===== verification/Dst.v ===== *)
(** * Dst: the data segment table

    [struct dst] of [kernel-module/c/src/metadata.c]: for every segment the
    number of its valid blocks and a bitmap of them, and in memory a red-black
    tree of the segments that are neither empty nor full, ordered by the number
    of valid blocks. The collector takes its victims from the low end of the
    tree, threaded logging fills the holes of the segment at the high end. *)
From S2P Require Import Prelude Layout Bytes RbTree DiskStructs SegValidator.

(** ** Data *)

Record dst_entry : Type := DstEntry { nr_valid_block : Z; block_validity_table : Z }.

#[export] Instance dst_entry_eq_dec : EqDecision dst_entry.
Proof. solve_decision. Defined.

#[export] Instance dst_codec : Codec dst_entry := {|
  entry_size := 136;
  encode e := le_encode 8 (nr_valid_block e) ++ le_encode 128 (block_validity_table e);
  decode l := {| nr_valid_block := u64 (le_decode (take 8 l));
                 block_validity_table := le_decode (drop 8 l) mod 2 ^ 1024 |};
  entry_ok e := 0 <= nr_valid_block e < 2 ^ 64 /\ 0 <= block_validity_table e < 2 ^ 1024
|}.

#[export] Instance dst_codec_spec : CodecSpec dst_entry.
Proof.
  split; cbn [entry_size encode decode entry_ok dst_codec].
  - lia.
  - intros. by rewrite length_app, !le_encode_length.
  - intros [n b] [Hn Hb]. cbn [nr_valid_block block_validity_table] in *.
    rewrite <- (le_encode_length 8 n) at 1. rewrite take_app_length.
    rewrite <- (le_encode_length 8 n) at 2. rewrite drop_app_length.
    rewrite !le_decode_encode by (rewrite <- ?(Z.pow_mul_r 2 8) by lia; cbn; lia || done).
    by rewrite u64_small, Z.mod_small by done.
  - intros l. split; [apply u64_range|]. by apply Z.mod_pos_bound.
Qed.

Record victim : Type := Victim { v_segno : Z; v_nr_valid : Z; v_table : Z }.

Definition victim_create (segno nr_valid : Z) (table : Z) : victim :=
  {| v_segno := segno; v_nr_valid := nr_valid; v_table := table |}.

Definition victim_less (victim1 victim2 : victim) : bool := v_nr_valid victim1 <? v_nr_valid victim2.

(** [node_list] maps a segment to its node in the tree; a node is identified by
    the victim that embeds it, which no code modifies. *)
Record dst `{ArrayIntf dst_entry} : Type := Dst {
  d_nr_segment : Z;
  d_logging_segno : Z;
  d_array : darr;
  d_node_list : gmap Z victim;
  d_victims : rbtree victim
}.

Definition __block_to_segment (pba : Z) : Z := pba / BLOCKS_PER_SEGMENT.
Definition __block_offset_whthin_segment (pba : Z) : Z := pba mod BLOCKS_PER_SEGMENT.

Section dst.
Context `{ArraySpec dst_entry} `{RbTreeSpec}.
Implicit Types (this : dst).

Definition with_array this a : dst :=
  {| d_nr_segment := d_nr_segment this; d_logging_segno := d_logging_segno this; d_array := a;
     d_node_list := d_node_list this; d_victims := d_victims this |}.
Definition with_logging this s : dst :=
  {| d_nr_segment := d_nr_segment this; d_logging_segno := s; d_array := d_array this;
     d_node_list := d_node_list this; d_victims := d_victims this |}.
Definition with_victims this nl t : dst :=
  {| d_nr_segment := d_nr_segment this; d_logging_segno := d_logging_segno this; d_array := d_array this;
     d_node_list := nl; d_victims := t |}.

(** ** Victims *)

Definition dst_remove_victim this (segno : Z) : dst * option victim :=
  match d_node_list this !! segno with
  | Some v =>
      (with_victims this (delete segno (d_node_list this))
         (rb_erase (fun w => v_segno w =? v_segno v) (d_victims this)), Some v)
  | None => (this, None)
  end.

Definition dst_destroy_victim this (segno : Z) : dst := (dst_remove_victim this segno).1.

Definition dst_add_victim this (segno nr_valid table : Z) : dst * result unit :=
  if BLOCKS_PER_SEGMENT <=? nr_valid then (this, Err EINVAL)
  else
    let v := victim_create segno nr_valid table in
    (with_victims this (<[segno := v]> (d_node_list this)) (rb_add victim_less v (d_victims this)), Ok tt).

Definition dst_update_victim this (segno nr_valid table : Z) : dst * result unit :=
  let this := dst_destroy_victim this segno in
  if BLOCKS_PER_SEGMENT <=? nr_valid then (this, Ok tt) else dst_add_victim this segno nr_valid table.

Definition dst_victim_empty this : bool := RB_EMPTY_ROOT (d_victims this).
Definition dst_peek_victim this : option victim := rb_first (d_victims this).

Definition dst_pop_victim this : dst * option victim :=
  match rb_first (d_victims this) with
  | None => (this, None)
  | Some v => ((dst_remove_victim this (v_segno v)).1, Some v)
  end.

(** ** Segments and blocks *)

Definition dst_take_segment this (segno : Z) : dst * result unit :=
  match darr_get (d_array this) segno with
  | (a, Err e) => (with_array this a, Err e)
  | (a, Ok entry) =>
      let this := with_array this a in
      if negb (nr_valid_block entry =? 0) then (this, Err EINVAL)
      else
        let entry := {| nr_valid_block := BLOCKS_PER_SEGMENT;
                        block_validity_table := bitmap_fill BLOCKS_PER_SEGMENT |} in
        match darr_set a segno entry with
        | (a, Err e) => (with_array this a, Err e)
        | (a, Ok _) => (dst_destroy_victim (with_array this a) segno, Ok tt)
        end
  end.

(** The victim goes even when the entry cannot be stored. *)
Definition dst_return_segment this (segno : Z) : dst * result unit :=
  let '(a, r) := darr_set (d_array this) segno {| nr_valid_block := 0; block_validity_table := 0 |} in
  (dst_destroy_victim (with_array this a) segno, r).

Definition dst_take_block this (pba : Z) : dst * result unit :=
  let segno := __block_to_segment pba in
  let offset := __block_offset_whthin_segment pba in
  match darr_get (d_array this) segno with
  | (a, Err e) => (with_array this a, Err e)
  | (a, Ok entry) =>
      let this := with_array this a in
      if BLOCKS_PER_SEGMENT <=? nr_valid_block entry then (this, Err EINVAL)
      else
        let entry := {| nr_valid_block := nr_valid_block entry + 1;
                        block_validity_table := set_bit offset (block_validity_table entry) |} in
        match darr_set a segno entry with
        | (a, Err e) => (with_array this a, Err e)
        | (a, Ok _) => dst_update_victim (with_array this a) segno (nr_valid_block entry) (block_validity_table entry)
        end
  end.

(** A block of a segment without valid blocks is refused with the result of
    the read, zero; a block that is already free only leaves a message. *)
Definition dst_return_block this (pba : Z) : dst * result unit :=
  let segno := __block_to_segment pba in
  let offset := __block_offset_whthin_segment pba in
  match darr_get (d_array this) segno with
  | (a, Err e) => (with_array this a, Err e)
  | (a, Ok entry) =>
      let this := with_array this a in
      if nr_valid_block entry =? 0 then (this, Ok tt)
      else
        let entry :=
          if test_bit offset (block_validity_table entry)
          then {| nr_valid_block := nr_valid_block entry - 1;
                  block_validity_table := clear_bit offset (block_validity_table entry) |}
          else entry in
        match darr_set a segno entry with
        | (a, Err e) => (with_array this a, Err e)
        | (a, Ok _) => dst_update_victim (with_array this a) segno (nr_valid_block entry) (block_validity_table entry)
        end
  end.

(** ** Opening and formatting *)

Fixpoint dst_load_loop (n : nat) (segno : Z) this : dst * result unit :=
  match n with
  | O => (this, Ok tt)
  | S n =>
      match darr_get (d_array this) segno with
      | (a, Err _) => (with_array this a, Err ENODATA)
      | (a, Ok entry) =>
          let this := with_array this a in
          dst_load_loop n (segno + 1)
            (if nr_valid_block entry =? 0 then this
             else (dst_add_victim this segno (nr_valid_block entry) (block_validity_table entry)).1)
      end
  end.

Definition dst_load this : dst * result unit := dst_load_loop (Z.to_nat (d_nr_segment this)) 0 this.

Definition dst_init (nr_segment : Z) (a : darr) : dst * result unit :=
  dst_load {| d_nr_segment := nr_segment; d_logging_segno := INF_ADDR; d_array := a;
              d_node_list := ∅; d_victims := rb_nil |}.

(** [while (!RB_EMPTY_ROOT(...)) pop_victim]; [None] when out of fuel. *)
Fixpoint dst_pop_loop (fuel : nat) this : option dst :=
  match fuel with
  | O => None
  | S fuel => if RB_EMPTY_ROOT (d_victims this) then Some this else dst_pop_loop fuel (dst_pop_victim this).1
  end.

Definition dst_format this : option (dst * result unit) :=
  match darr_format (d_array this) false with
  | (a, Err e) => Some (with_array this a, Err e)
  | (a, Ok _) =>
      match dst_pop_loop (S (length (rb_inorder (d_victims this)))) (with_array this a) with
      | None => None
      | Some this => Some (dst_init (d_nr_segment this) (d_array this))
      end
  end.

(** ** Threaded logging

    [find_logging_block] also advances the segment validator and the count of
    used segments of the segment allocator. [None] when out of fuel. *)
Section find_logging_block.
Context `{ArraySpec Z} `{!GroupArray}.

Record logging_state : Type := LoggingState {
  ls_dst : dst;
  ls_svt : seg_validator;
  ls_nr_valid_segment : Z
}.

(** What follows the choice of a logging segment, [None] for [goto retry]. *)
Definition logging_block_in (st : logging_state) : logging_state * option (result Z) :=
  let this := ls_dst st in
  let ret this := {| ls_dst := this; ls_svt := ls_svt st; ls_nr_valid_segment := ls_nr_valid_segment st |} in
  let logging := d_logging_segno this in
  match darr_get (d_array this) logging with
  | (a, Err e) => (ret (with_array this a), Some (Err e))
  | (a, Ok entry) =>
      let this := with_array this a in
      if BLOCKS_PER_SEGMENT <=? nr_valid_block entry
      then (ret (with_logging (dst_destroy_victim this logging) INF_ADDR), None)
      else
        let offset := find_first_zero_bit (block_validity_table entry) BLOCKS_PER_SEGMENT in
        if offset =? BLOCKS_PER_SEGMENT
        then (ret (with_logging (dst_destroy_victim this logging) INF_ADDR), None)
        else
          let entry := {| nr_valid_block := nr_valid_block entry + 1;
                          block_validity_table := set_bit offset (block_validity_table entry) |} in
          match darr_set a logging entry with
          | (a, Err e) => (ret (with_array this a), Some (Err e))
          | (a, Ok _) => (ret (with_array this a), Some (Ok (logging * BLOCKS_PER_SEGMENT + offset)))
          end
  end.

(** With no victim either, a whole segment is allocated. *)
Definition logging_segment_alloc (st : logging_state) : logging_state * result unit :=
  match seg_validator_next (ls_svt st) with
  | (svt, Err e) =>
      ({| ls_dst := ls_dst st; ls_svt := svt; ls_nr_valid_segment := ls_nr_valid_segment st |}, Err e)
  | (svt, Ok segno) =>
      let this := with_logging (ls_dst st) segno in
      match seg_validator_take svt segno with
      | (svt, Err e) =>
          ({| ls_dst := this; ls_svt := svt; ls_nr_valid_segment := ls_nr_valid_segment st |}, Err e)
      | (svt, Ok _) =>
          ({| ls_dst := this; ls_svt := svt; ls_nr_valid_segment := u64 (ls_nr_valid_segment st + 1) |}, Ok tt)
      end
  end.

Fixpoint find_logging_loop (fuel : nat) (st : logging_state) : option (logging_state * result Z) :=
  match fuel with
  | O => None
  | S fuel =>
      let finish st :=
        match logging_block_in st with
        | (st, None) => find_logging_loop fuel st
        | (st, Some r) => Some (st, r)
        end in
      if d_logging_segno (ls_dst st) =? INF_ADDR then
        match rb_last (d_victims (ls_dst st)) with
        | None =>
            match logging_segment_alloc st with
            | (st, Err e) => Some (st, Err e)
            | (st, Ok _) => find_logging_loop fuel st
            end
        | Some v =>
            let this := dst_destroy_victim (with_logging (ls_dst st) (v_segno v)) (v_segno v) in
            finish {| ls_dst := this; ls_svt := ls_svt st; ls_nr_valid_segment := ls_nr_valid_segment st |}
        end
      else finish st
  end.

Definition dst_find_logging_block (st : logging_state) : option (logging_state * result Z) :=
  find_logging_loop 4 st.
End find_logging_block.

(** ** Invariant *)

Definition bps : nat := Z.to_nat BLOCKS_PER_SEGMENT.

Lemma bps_val : Z.of_nat bps = BLOCKS_PER_SEGMENT.
Proof. reflexivity. Qed.
#[local] Opaque bps.

(** The number of valid blocks is the number of bits set. *)
Definition entry_wf (e : dst_entry) : Prop :=
  nr_valid_block e = popcount bps (block_validity_table e) /\ 0 <= block_validity_table e < 2 ^ 1024.

Definition dst_view this : list dst_entry := darr_view (d_array this).
Definition dst_victims this : list victim := rb_inorder (d_victims this).

Record tree_wf this : Prop := {
  tw_sorted : StronglySorted Z.le (v_nr_valid <$> dst_victims this);
  tw_nodup : NoDup (v_segno <$> dst_victims this);
  tw_list : forall s v, d_node_list this !! s = Some v <-> v ∈ dst_victims this /\ v_segno v = s;
  tw_range : forall v, v ∈ dst_victims this ->
    0 <= v_segno v < d_nr_segment this /\ 0 <= v_nr_valid v < BLOCKS_PER_SEGMENT
}.

(** The victims agree with the entries of their segments, those in [ex] apart. *)
Definition victims_agree (ex : Z -> Prop) this : Prop := forall v, v ∈ dst_victims this ->
  ~ ex (v_segno v) ->
  dst_view this !! Z.to_nat (v_segno v) =
    Some {| nr_valid_block := v_nr_valid v; block_validity_table := v_table v |}.

Record dst_wf_but (ex : Z -> Prop) this : Prop := {
  dw_ok : darr_ok (d_array this);
  dw_length : Z.of_nat (length (dst_view this)) = d_nr_segment this;
  dw_nr : d_nr_segment this < 2 ^ 54;
  dw_entries : Forall entry_wf (dst_view this);
  dw_tree : tree_wf this;
  dw_agree : victims_agree ex this;
  dw_logging : d_logging_segno this = INF_ADDR \/ 0 <= d_logging_segno this < d_nr_segment this
}.

(** Blocks of the logging segment are taken without updating its victim, which
    [return_block] may have put into the tree meanwhile. *)
Definition dst_wf this : Prop := dst_wf_but (eq (d_logging_segno this)) this.

Context (entry_range : forall e, entry_wf e -> darr_entry_ok e).

(** ** Bitmaps of entries *)

Lemma entry_nr_range e : entry_wf e -> 0 <= nr_valid_block e <= BLOCKS_PER_SEGMENT.
Proof. intros [-> _]. rewrite <- bps_val. apply popcount_range. Qed.

Lemma entry_wf_zero : entry_wf {| nr_valid_block := 0; block_validity_table := 0 |}.
Proof. split; cbn [nr_valid_block block_validity_table]; [by rewrite popcount_zero|lia]. Qed.

Lemma entry_wf_full : entry_wf {| nr_valid_block := BLOCKS_PER_SEGMENT; block_validity_table := bitmap_fill BLOCKS_PER_SEGMENT |}.
Proof.
  split; cbn [nr_valid_block block_validity_table]; [by rewrite popcount_ones, bps_val by (rewrite bps_val; lia)|].
  unfold bitmap_fill, BLOCKS_PER_SEGMENT. rewrite Z.ones_equiv. lia.
Qed.

Lemma entry_wf_set e o : entry_wf e -> 0 <= o < BLOCKS_PER_SEGMENT -> test_bit o (block_validity_table e) = false ->
  entry_wf {| nr_valid_block := nr_valid_block e + 1; block_validity_table := set_bit o (block_validity_table e) |}.
Proof.
  intros [Hn Hb] Ho Hfree. split; cbn [nr_valid_block block_validity_table].
  - rewrite popcount_setbit by (rewrite ?bps_val; done). lia.
  - by apply (bitmap_update_range 1024 true).
Qed.

Lemma entry_wf_clear e o : entry_wf e -> 0 <= o < BLOCKS_PER_SEGMENT -> test_bit o (block_validity_table e) = true ->
  entry_wf {| nr_valid_block := nr_valid_block e - 1; block_validity_table := clear_bit o (block_validity_table e) |}.
Proof.
  intros [Hn Hb] Ho Hset. split; cbn [nr_valid_block block_validity_table].
  - rewrite popcount_clearbit by (rewrite ?bps_val; done). lia.
  - by apply (bitmap_update_range 1024 false).
Qed.

Lemma offset_in_segment pba : 0 <= __block_offset_whthin_segment pba < BLOCKS_PER_SEGMENT.
Proof. by apply Z.mod_pos_bound. Qed.

(** ** The tree of victims *)

(** [rb_add] with [victim_less] goes after the victims with as many blocks. *)
Lemma victim_split (n : Z) (l : list victim) : StronglySorted Z.le (v_nr_valid <$> l) ->
  exists l1 l2, l = l1 ++ l2 /\ Forall (fun v => v_nr_valid v <= n) l1 /\ Forall (fun v => n < v_nr_valid v) l2.
Proof.
  induction l as [|v l IH]; cbn; intros Hs; [by exists [], []|].
  apply StronglySorted_inv in Hs as [Hs Hv]. destruct (Z.le_gt_cases (v_nr_valid v) n).
  - destruct (IH Hs) as (l1 & l2 & -> & Hle & Hgt). exists (v :: l1), l2. auto.
  - exists [], (v :: l). repeat split; [constructor|]. constructor; [lia|].
    rewrite Forall_fmap in Hv. eapply Forall_impl; [exact Hv|]. cbn. lia.
Qed.

Lemma dst_add_victim_tree this s n tb : tree_wf this -> 0 <= s < d_nr_segment this -> 0 <= n < BLOCKS_PER_SEGMENT ->
  d_node_list this !! s = None ->
  let v := victim_create s n tb in
  let this' := with_victims this (<[s := v]> (d_node_list this)) (rb_add victim_less v (d_victims this)) in
  tree_wf this' /\ (forall w, w ∈ dst_victims this' <-> w = v \/ w ∈ dst_victims this).
Proof.
  intros [Hs Hnd Hl Hr] Hseg Hn Hnone. cbv zeta. set (v := victim_create s n tb).
  destruct (victim_split n (dst_victims this) Hs) as (l1 & l2 & Heq & Hle & Hgt).
  assert (rb_inorder (rb_add victim_less v (d_victims this)) = l1 ++ v :: l2) as Hin.
  { apply rb_add_inorder; [done|..]; (eapply Forall_impl; [eassumption|]); intros w Hw;
      unfold victim_less; subst v; cbn in *; case_bool; lia || done. }
  assert (forall w, w ∈ l1 ++ v :: l2 <-> w = v \/ w ∈ dst_victims this) as Hmem
    by (intros w; rewrite Heq, !elem_of_app, elem_of_cons; tauto).
  assert (forall w, w ∈ dst_victims this -> v_segno w <> s) as Hfresh.
  { intros w Hw Hws. assert (d_node_list this !! s = Some w) by (apply Hl; auto). congruence. }
  split; [|unfold dst_victims at 1; cbn; by rewrite Hin]. split; unfold dst_victims; cbn; rewrite ?Hin.
  - rewrite fmap_app. cbn. rewrite Heq, fmap_app in Hs. apply StronglySorted_app in Hs as (Hs12 & Hs1 & Hs2).
    apply StronglySorted_app. split; [|split; [done|]].
    + intros x y (w & -> & Hw)%list_elem_of_fmap [->|Hy]%elem_of_cons.
      * rewrite Forall_forall in Hle. by apply Hle.
      * apply Hs12; [by apply list_elem_of_fmap_2|done].
    + constructor; [done|]. rewrite Forall_fmap. eapply Forall_impl; [exact Hgt|]. cbn. lia.
  - rewrite fmap_app. cbn. rewrite <- Permutation_middle. constructor.
    + intros Hs'. rewrite <- fmap_app, <- Heq in Hs'. apply list_elem_of_fmap in Hs' as (w & Hws & Hw).
      by eapply Hfresh.
    + by rewrite <- fmap_app, <- Heq.
  - intros s' w. rewrite Hmem. destruct (decide (s' = s)) as [->|Hne].
    + rewrite lookup_insert_eq. split; [intros [= <-]; auto|].
      intros [[->|Hw] Hws]; [done|]. by apply Hfresh in Hw.
    + rewrite lookup_insert_ne, Hl by done. split; [tauto|]. intros [[->|Hw] Hws]; [by cbn in Hws|auto].
  - intros w. rewrite Hmem. intros [->|Hw]; [done|auto].
Qed.

Lemma dst_remove_victim_tree this s : tree_wf this ->
  let '(this', o) := dst_remove_victim this s in
  tree_wf this' /\ (forall w, w ∈ dst_victims this' <-> w ∈ dst_victims this /\ v_segno w <> s) /\
  o = d_node_list this !! s /\ d_node_list this' !! s = None /\
  d_nr_segment this' = d_nr_segment this /\ d_logging_segno this' = d_logging_segno this /\
  d_array this' = d_array this.
Proof.
  intros Hwf. pose proof Hwf as [Hs Hnd Hl Hr]. unfold dst_remove_victim.
  destruct (d_node_list this !! s) as [v|] eqn:Hv.
  2: { split; [done|]. split; [|done]. intros w. split; [|tauto]. intros Hw. split; [done|].
       intros Hws. assert (d_node_list this !! s = Some w) by (apply Hl; auto). congruence. }
  apply Hl in Hv as [Hv Hvs]. apply list_elem_of_split in Hv as (l1 & l2 & Heq).
  assert (forall w, w ∈ l1 ++ l2 -> v_segno w <> v_segno v) as Hother.
  { intros w Hw Hws. rewrite Heq, fmap_app in Hnd. cbn in Hnd. rewrite <- Permutation_middle in Hnd.
    apply NoDup_cons in Hnd as [Hnin _]. apply Hnin. rewrite <- fmap_app, <- Hws. by apply list_elem_of_fmap_2. }
  assert (rb_inorder (rb_erase (fun w => v_segno w =? v_segno v) (d_victims this)) = l1 ++ l2) as Hin.
  { eapply rb_erase_inorder; [exact Heq|apply Z.eqb_refl|..]; apply Forall_forall; intros w Hw;
      apply Z.eqb_neq, Hother, elem_of_app; auto. }
  assert (forall w, w ∈ l1 ++ l2 <-> w ∈ dst_victims this /\ v_segno w <> s) as Hmem.
  { intros w. rewrite Heq. split.
    - intros Hw. split; [rewrite elem_of_app, elem_of_cons in *; tauto|]. rewrite <- Hvs. by apply Hother.
    - intros [Hw Hws]. assert (w <> v) by congruence. rewrite elem_of_app, elem_of_cons in *. tauto. }
  cbn. split; [|split; [unfold dst_victims at 1; cbn; by rewrite Hin|split; [done|split; [by rewrite lookup_delete_eq|done]]]].
  split; unfold dst_victims; cbn; rewrite ?Hin.
  - rewrite fmap_app. rewrite Heq, fmap_app in Hs. apply StronglySorted_app in Hs as (H12 & Hs1 & Hs2).
    cbn in *. apply StronglySorted_inv in Hs2 as [Hs2 _]. apply StronglySorted_app. split; [|done].
    intros x y Hx Hy. apply H12; [done|by right].
  - rewrite Heq, fmap_app in Hnd. cbn in Hnd. rewrite <- Permutation_middle in Hnd.
    apply NoDup_cons in Hnd as [_ Hnd]. by rewrite fmap_app.
  - intros s' w. rewrite Hmem. destruct (decide (s' = s)) as [->|Hne].
    + rewrite lookup_delete_eq. split; [done|]. by intros [[_ ?] ?].
    + rewrite lookup_delete_ne, Hl by done. split; [|tauto]. intros [? ?]. split; [|done]. split; congruence.
  - intros w. rewrite Hmem. intros [Hw _]. auto.
Qed.
(** ** Steps shared by the operations *)

Lemma tree_wf_ext this this' : d_nr_segment this' = d_nr_segment this ->
  d_node_list this' = d_node_list this -> d_victims this' = d_victims this -> tree_wf this -> tree_wf this'.
Proof. intros Hnr Hnl Hv [Hs Hnd Hl Hr]. split; unfold dst_victims; rewrite ?Hv, ?Hnl, ?Hnr; done. Qed.

Lemma wf_array_same ex this a : dst_wf_but ex this -> darr_ok a -> darr_view a = dst_view this ->
  dst_wf_but ex (with_array this a).
Proof.
  intros [Hok Hlen Hnr Hent Htree Hag Hlog] Hok' Hv.
  split; unfold victims_agree, dst_view; cbn [d_array with_array d_nr_segment]; rewrite ?Hv; try done.
  by apply (tree_wf_ext this).
Qed.

Lemma dst_get_step ex this s a r : dst_wf_but ex this -> 0 <= s -> darr_get (d_array this) s = (a, r) ->
  dst_wf_but ex (with_array this a) /\ dst_view (with_array this a) = dst_view this /\
  (forall e, r = Ok e -> dst_view this !! Z.to_nat s = Some e /\ entry_wf e /\ s < d_nr_segment this).
Proof.
  intros Hwf Hs Hget. pose proof Hwf as [Hok Hlen Hnr Hent Htree Hag Hlog].
  apply darr_get_spec in Hget as (Hok' & Hv & Hr); [|done..]. split; [by apply wf_array_same|].
  split; [done|]. intros e ->. destruct Hr as [Hr|Hr]; [|done]. symmetry in Hr.
  apply array_get_ok in Hr as [_ Hr]. split; [done|]. split.
  - rewrite Forall_lookup in Hent. by eapply Hent.
  - apply lookup_lt_Some in Hr. unfold dst_view in Hlen. lia.
Qed.

Lemma dst_set_step ex this s e a r : dst_wf_but ex this -> 0 <= s -> entry_wf e ->
  darr_set (d_array this) s e = (a, r) ->
  match r with
  | Ok _ => s < d_nr_segment this /\ dst_view (with_array this a) = <[Z.to_nat s := e]> (dst_view this) /\
      dst_wf_but (fun x => ex x \/ x = s) (with_array this a)
  | Err _ => dst_view (with_array this a) = dst_view this /\ dst_wf_but ex (with_array this a)
  end.
Proof.
  intros Hwf Hs He Hset. pose proof Hwf as [Hok Hlen Hnr Hent Htree Hag Hlog].
  apply darr_set_spec in Hset as (Hok' & Hset); [|done..|by apply entry_range].
  assert (darr_view a = dst_view this -> dst_view (with_array this a) = dst_view this /\ dst_wf_but ex (with_array this a)) as Hsame.
  { intros Hv. split; [done|]. by apply wf_array_same. }
  destruct Hset as [Hset|[Hv Hr]]; [|by destruct r; [|apply Hsame]].
  unfold array_set in Hset. fold (dst_view this) in Hset.
  destruct ((s <? 0) || (Z.of_nat (length (dst_view this)) <=? s)) eqn:Hb; injection Hset as Hv ->; [by apply Hsame|].
  apply orb_false_iff in Hb as [_ Hb]. apply Z.leb_gt in Hb. split; [lia|].
  assert (dst_view (with_array this a) = <[Z.to_nat s := e]> (dst_view this)) as Hv' by done.
  split; [done|]. split; unfold victims_agree; rewrite ?Hv'; try done.
  - by rewrite length_insert.
  - by apply Forall_insert.
  - by apply (tree_wf_ext this).
  - intros v Hin Hex. rewrite list_lookup_insert_ne; [apply Hag; tauto|].
    pose proof (proj1 (tw_range _ Htree v Hin)). intros Heq. apply Hex. right. lia.
Qed.

Lemma victims_wf ex this s nl t : dst_wf_but ex this ->
  (forall x, ex x -> x = d_logging_segno this \/ x = s) ->
  tree_wf (with_victims this nl t) ->
  (forall w, w ∈ rb_inorder t -> w ∈ dst_victims this \/
     v_segno w = s /\ dst_view this !! Z.to_nat s = Some {| nr_valid_block := v_nr_valid w; block_validity_table := v_table w |}) ->
  (forall w, w ∈ rb_inorder t -> v_segno w = s -> dst_view this !! Z.to_nat s = Some {| nr_valid_block := v_nr_valid w; block_validity_table := v_table w |}) ->
  dst_wf (with_victims this nl t).
Proof.
  intros [Hok Hlen Hnr Hent Htree Hag Hlog] Hex Htree' Hmem Hs. split; try done.
  intros w Hin Hnlog. unfold dst_victims in Hin. cbn in Hin, Hnlog.
  destruct (Z.eq_dec (v_segno w) s) as [Heq|Hne]; [rewrite Heq; auto|].
  destruct (Hmem w Hin) as [Hold|[? _]]; [|done]. apply (Hag w Hold). intros Hx. apply Hex in Hx. intuition congruence.
Qed.

Lemma dst_destroy_victim_map ex this s : dst_wf_but ex this ->
  (forall x, ex x -> x = d_logging_segno this \/ x = s) ->
  dst_wf (dst_destroy_victim this s) /\ dst_view (dst_destroy_victim this s) = dst_view this /\
  d_nr_segment (dst_destroy_victim this s) = d_nr_segment this /\
  d_logging_segno (dst_destroy_victim this s) = d_logging_segno this /\
  d_node_list (dst_destroy_victim this s) !! s = None /\
  (forall w, w ∈ dst_victims (dst_destroy_victim this s) <-> w ∈ dst_victims this /\ v_segno w <> s).
Proof.
  intros Hwf Hex. unfold dst_destroy_victim. pose proof (dst_remove_victim_tree this s (dw_tree _ _ Hwf)) as Hrm.
  destruct (dst_remove_victim this s) as [this' o] eqn:Hrun. cbn [fst].
  destruct Hrm as (Htree & Hmem & _ & Hnone & Hnr & Hlog & Harr).
  assert (dst_view this' = dst_view this) as Hview by (unfold dst_view; by rewrite Harr).
  split; [|done]. destruct Hwf as [Hok Hlen Hnr' Hent Htr Hag Hlg].
  split; rewrite ?Hview, ?Harr, ?Hnr, ?Hlog; try done.
  intros w Hin Hnlog. apply Hmem in Hin as [Hin Hne]. rewrite Hview. apply Hag; [done|].
  intros Hx. apply Hex in Hx. rewrite <- ?Hlog in Hx. intuition congruence.
Qed.

Lemma dst_update_victim_map ex this s n tb : dst_wf_but ex this -> 0 <= s < d_nr_segment this ->
  (forall x, ex x -> x = d_logging_segno this \/ x = s) ->
  dst_view this !! Z.to_nat s = Some {| nr_valid_block := n; block_validity_table := tb |} ->
  let '(this', r) := dst_update_victim this s n tb in
  r = Ok tt /\ dst_wf this' /\ dst_view this' = dst_view this.
Proof.
  intros Hwf Hs Hex Hn. unfold dst_update_victim.
  destruct (dst_destroy_victim_map ex this s Hwf Hex) as (Hwf1 & Hview & Hnr & Hlog & Hnone & Hmem).
  pose proof (dw_entries _ _ Hwf) as Hent. rewrite Forall_lookup in Hent.
  pose proof (entry_nr_range _ (Hent _ _ Hn)) as Hrange. cbn [nr_valid_block] in Hrange.
  set (this1 := dst_destroy_victim this s) in *.
  destruct (Z.leb_spec BLOCKS_PER_SEGMENT n); [done|]. unfold dst_add_victim.
  destruct (Z.leb_spec BLOCKS_PER_SEGMENT n); [lia|]. split; [done|].
  destruct (dst_add_victim_tree this1 s n tb (dw_tree _ _ Hwf1)) as [Htree Hin]; [lia|lia|done|].
  unfold dst_victims in Hin at 1. cbn [d_victims with_victims] in Hin.
  split; [|done]. eapply victims_wf; [exact Hwf1|auto|exact Htree|..].
  - intros w Hw. apply Hin in Hw as [->|Hw]; [right|by left]. cbn. by rewrite Hview, Hn.
  - intros w Hw Hws. apply Hin in Hw as [->|Hw]; [cbn; by rewrite Hview, Hn|].
    apply Hmem in Hw as [_ Hw]. done.
Qed.

Lemma wf_weaken (ex ex' : Z -> Prop) this : (forall x, ex x -> ex' x) -> dst_wf_but ex this -> dst_wf_but ex' this.
Proof. intros Himp [Hok Hlen Hnr Hent Htr Hag Hlg]. split; try done. intros v Hin Hx. apply Hag; auto. Qed.

(** ** The valid blocks *)

(** The abstract state of the table: which physical blocks hold live data. *)
Definition block_valid this (pba : Z) : bool :=
  match dst_view this !! Z.to_nat (__block_to_segment pba) with
  | Some e => test_bit (__block_offset_whthin_segment pba) (block_validity_table e)
  | None => false
  end.

Lemma block_parts pba q : 0 <= pba -> 0 <= q ->
  __block_to_segment pba = __block_to_segment q ->
  __block_offset_whthin_segment pba = __block_offset_whthin_segment q -> pba = q.
Proof. unfold __block_to_segment, __block_offset_whthin_segment, BLOCKS_PER_SEGMENT. intros. divmod_lia. Qed.

Lemma block_segment_nonneg pba : 0 <= pba -> 0 <= __block_to_segment pba.
Proof. intros. apply Z.div_pos; [done|]. unfold BLOCKS_PER_SEGMENT. lia. Qed.

Lemma block_valid_view this this' : dst_view this' = dst_view this -> forall q, block_valid this' q = block_valid this q.
Proof. intros Hv q. unfold block_valid. by rewrite Hv. Qed.

(** Storing an entry in which one bit has changed. *)
Lemma block_valid_store this this' pba e n (v : bool) : 0 <= pba ->
  dst_view this !! Z.to_nat (__block_to_segment pba) = Some e ->
  dst_view this' = <[Z.to_nat (__block_to_segment pba) := {| nr_valid_block := n;
    block_validity_table := (if v then set_bit else clear_bit) (__block_offset_whthin_segment pba) (block_validity_table e) |}]> (dst_view this) ->
  forall q, 0 <= q -> block_valid this' q = if decide (q = pba) then v else block_valid this q.
Proof.
  intros Hp He Hv q Hq. unfold block_valid. rewrite Hv.
  pose proof (offset_in_segment pba). pose proof (offset_in_segment q).
  destruct (Z.eq_dec (__block_to_segment q) (__block_to_segment pba)) as [Heq|Hne].
  - rewrite Heq, list_lookup_insert_eq by (by eapply lookup_lt_Some). rewrite He. cbn [block_validity_table].
    unfold set_bit, clear_bit, test_bit. destruct (decide (q = pba)) as [->|Hqp].
    + destruct v; [apply Z.setbit_eq; lia|apply Z.clearbit_eq].
    + assert (__block_offset_whthin_segment pba <> __block_offset_whthin_segment q)
        by (intros Ho; apply Hqp; symmetry; by apply block_parts).
      destruct v; [apply Z.setbit_neq; lia|by apply Z.clearbit_neq].
  - pose proof (block_segment_nonneg pba Hp). pose proof (block_segment_nonneg q Hq).
    rewrite list_lookup_insert_ne by lia. destruct (decide (q = pba)) as [->|]; done.
Qed.
(** ** The operations *)

(** After a successful store of an entry, its victim is brought up to date. *)
Lemma store_and_update this s e a r : dst_wf this -> 0 <= s -> entry_wf e ->
  darr_set (d_array this) s e = (a, r) ->
  let '(this', r') := match r with
    | Err x => (with_array this a, Err x)
    | Ok _ => dst_update_victim (with_array this a) s (nr_valid_block e) (block_validity_table e)
    end in
  dst_wf this' /\
  match r' with
  | Ok _ => s < d_nr_segment this /\ dst_view this' = <[Z.to_nat s := e]> (dst_view this)
  | Err _ => dst_view this' = dst_view this
  end.
Proof.
  intros Hwf Hs He Hset. apply (dst_set_step _ _ _ _ _ _ Hwf Hs He) in Hset. destruct r as [u|x].
  2: { destruct Hset as [Hv Hw]. by split. }
  destruct Hset as (Hlt & Hv & Hw).
  pose proof (dst_update_victim_map _ (with_array this a) s (nr_valid_block e) (block_validity_table e) Hw) as Hup.
  destruct (dst_update_victim (with_array this a) s (nr_valid_block e) (block_validity_table e)) as [this' r'].
  destruct Hup as (-> & Hwf' & Hv').
  - done.
  - intros x [Hx|Hx]; [left; done|by right].
  - rewrite Hv, list_lookup_insert_eq; [by destruct e|].
    pose proof (dw_length _ _ Hwf). lia.
  - split; [done|]. split; [done|]. congruence.
Qed.

Lemma dst_take_block_map this pba : dst_wf this -> 0 <= pba -> block_valid this pba = false ->
  let '(this', r) := dst_take_block this pba in
  dst_wf this' /\
  match r with
  | Ok _ => forall q, 0 <= q -> block_valid this' q = if decide (q = pba) then true else block_valid this q
  | Err _ => dst_view this' = dst_view this
  end.
Proof.
  intros Hwf Hp Hfree. unfold dst_take_block. pose proof (block_segment_nonneg pba Hp) as Hseg.
  destruct (darr_get (d_array this) (__block_to_segment pba)) as [a r] eqn:Hget.
  apply (dst_get_step _ _ _ _ _ Hwf Hseg) in Hget as (Hwf1 & Hv1 & He). destruct r as [e|x]; [|by split].
  destruct (He e eq_refl) as (Hlook & Hewf & _). destruct (Z.leb_spec BLOCKS_PER_SEGMENT (nr_valid_block e)); [by split|].
  assert (test_bit (__block_offset_whthin_segment pba) (block_validity_table e) = false) as Hbit
    by (unfold block_valid in Hfree; by rewrite Hlook in Hfree).
  pose proof (entry_wf_set e _ Hewf (offset_in_segment pba) Hbit) as Hewf'.
  set (e' := {| nr_valid_block := nr_valid_block e + 1; block_validity_table := _ |}) in *.
  destruct (darr_set a (__block_to_segment pba) e') as [a' r'] eqn:Hset.
  pose proof (store_and_update (with_array this a) (__block_to_segment pba) e' a' r' Hwf1 Hseg Hewf' Hset) as Hst.
  change (with_array (with_array this a) a') with (with_array this a') in *.
  destruct r' as [u|x]; [|destruct Hst; split; congruence || done].
  destruct (dst_update_victim (with_array this a') (__block_to_segment pba) (nr_valid_block e') (block_validity_table e'))
    as [this' [[]|x]]; destruct Hst as [Hw Hst]; (split; [done|]); [|congruence].
  destruct Hst as [_ Hst]. rewrite Hv1 in Hst. by apply (block_valid_store this this' pba e (nr_valid_block e + 1) true).
Qed.

Lemma dst_return_block_map this pba : dst_wf this -> 0 <= pba ->
  let '(this', r) := dst_return_block this pba in
  dst_wf this' /\
  match r with
  | Ok _ => forall q, 0 <= q -> block_valid this' q = if decide (q = pba) then false else block_valid this q
  | Err _ => dst_view this' = dst_view this
  end.
Proof.
  intros Hwf Hp. unfold dst_return_block. pose proof (block_segment_nonneg pba Hp) as Hseg.
  pose proof (offset_in_segment pba) as Hoff.
  destruct (darr_get (d_array this) (__block_to_segment pba)) as [a r] eqn:Hget.
  apply (dst_get_step _ _ _ _ _ Hwf Hseg) in Hget as (Hwf1 & Hv1 & He). destruct r as [e|x]; [|by split].
  destruct (He e eq_refl) as (Hlook & Hewf & _).
  destruct (test_bit (__block_offset_whthin_segment pba) (block_validity_table e)) eqn:Hbit.
  - pose proof Hewf as [Hn _]. assert (1 <= nr_valid_block e).
    { rewrite Hn. apply (popcount_pos _ _ (__block_offset_whthin_segment pba)); [by rewrite bps_val|done]. }
    destruct (Z.eqb_spec (nr_valid_block e) 0); [lia|].
    pose proof (entry_wf_clear e _ Hewf Hoff Hbit) as Hewf'.
    set (e' := {| nr_valid_block := nr_valid_block e - 1; block_validity_table := _ |}) in *.
    destruct (darr_set a (__block_to_segment pba) e') as [a' r'] eqn:Hset.
    pose proof (store_and_update (with_array this a) (__block_to_segment pba) e' a' r' Hwf1 Hseg Hewf' Hset) as Hst.
    change (with_array (with_array this a) a') with (with_array this a') in *.
    destruct r' as [u|x]; [|destruct Hst; split; congruence || done].
    destruct (dst_update_victim (with_array this a') (__block_to_segment pba) (nr_valid_block e') (block_validity_table e'))
      as [this' [[]|x]]; destruct Hst as [Hw Hst]; (split; [done|]); [|congruence].
    destruct Hst as [_ Hst]. rewrite Hv1 in Hst. by apply (block_valid_store this this' pba e (nr_valid_block e - 1) false).
  - assert (forall this', dst_view this' = dst_view this -> forall q, 0 <= q ->
      block_valid this' q = if decide (q = pba) then false else block_valid this q) as Hsame.
    { intros this' Hv' q Hq. rewrite (block_valid_view this this') by done.
      destruct (decide (q = pba)) as [->|]; [|done]. unfold block_valid. by rewrite Hlook. }
    destruct (Z.eqb_spec (nr_valid_block e) 0); [by split; [|apply Hsame]|].
    destruct (darr_set a (__block_to_segment pba) e) as [a' r'] eqn:Hset.
    pose proof (store_and_update (with_array this a) (__block_to_segment pba) e a' r' Hwf1 Hseg Hewf Hset) as Hst.
    change (with_array (with_array this a) a') with (with_array this a') in *.
    destruct r' as [u|x]; [|destruct Hst; split; congruence || done].
    destruct (dst_update_victim (with_array this a') (__block_to_segment pba) (nr_valid_block e) (block_validity_table e))
      as [this' [[]|x]]; destruct Hst as [Hw Hst]; (split; [done|]); [|congruence].
    apply Hsame. destruct Hst as [_ Hst]. rewrite Hst, Hv1. by apply list_insert_id.
Qed.

(** What an operation on one segment leaves alone. *)
Definition touches_segment this this' (s : Z) : Prop :=
  d_nr_segment this' = d_nr_segment this /\ d_logging_segno this' = d_logging_segno this /\
  (forall v, v ∈ dst_victims this' -> v ∈ dst_victims this \/ v_segno v = s) /\
  (forall t, 0 <= t -> t <> s -> dst_view this' !! Z.to_nat t = dst_view this !! Z.to_nat t).

Lemma touches_view this this' s : d_nr_segment this' = d_nr_segment this -> d_logging_segno this' = d_logging_segno this ->
  dst_victims this' = dst_victims this -> dst_view this' = dst_view this -> touches_segment this this' s.
Proof. intros Hn Hl Hv Hview. split; [done|]. split; [done|]. split; [rewrite Hv; tauto|]. by rewrite Hview. Qed.

Lemma dst_update_victim_frame ex this s n tb : dst_wf_but ex this -> 0 <= s < d_nr_segment this ->
  (forall x, ex x -> x = d_logging_segno this \/ x = s) ->
  dst_view this !! Z.to_nat s = Some {| nr_valid_block := n; block_validity_table := tb |} ->
  touches_segment this (dst_update_victim this s n tb).1 s.
Proof.
  intros Hwf Hs Hex Hn. unfold dst_update_victim.
  destruct (dst_destroy_victim_map ex this s Hwf Hex) as (Hwf1 & Hview & Hnr & Hlog & Hnone & Hmem).
  pose proof (dw_entries _ _ Hwf) as Hent. rewrite Forall_lookup in Hent.
  pose proof (entry_nr_range _ (Hent _ _ Hn)) as Hrange. cbn [nr_valid_block] in Hrange.
  set (this1 := dst_destroy_victim this s) in *.
  destruct (Z.leb_spec BLOCKS_PER_SEGMENT n).
  { split; [done|]. split; [done|]. split; [intros v Hv; left; by apply Hmem|]. cbn [fst]. by rewrite Hview. }
  unfold dst_add_victim. destruct (Z.leb_spec BLOCKS_PER_SEGMENT n); [lia|]. cbn [fst].
  destruct (dst_add_victim_tree this1 s n tb (dw_tree _ _ Hwf1)) as [Htree Hin]; [lia|lia|done|].
  split; [done|]. split; [done|]. split; [|intros t _ _; by rewrite <- Hview].
  intros v Hv. apply Hin in Hv as [->|Hv]; [by right|]. left. by apply Hmem.
Qed.

Lemma dst_return_block_frame this pba : dst_wf this -> 0 <= pba ->
  touches_segment this (dst_return_block this pba).1 (__block_to_segment pba).
Proof.
  intros Hwf Hp. unfold dst_return_block. pose proof (block_segment_nonneg pba Hp) as Hseg.
  pose proof (offset_in_segment pba) as Hoff. set (segno := __block_to_segment pba) in *.
  destruct (darr_get (d_array this) segno) as [a r] eqn:Hget.
  apply (dst_get_step _ _ _ _ _ Hwf Hseg) in Hget as (Hwf1 & Hv1 & He). destruct r as [e|x]; [|by apply touches_view].
  destruct (He e eq_refl) as (Hlook & Hewf & Hlt).
  destruct (Z.eqb_spec (nr_valid_block e) 0) as [|Hnz]; [by apply touches_view|].
  set (e' := if test_bit _ _ then _ else e).
  assert (entry_wf e') as Hewf'.
  { unfold e'. destruct (test_bit _ _) eqn:Hbit; [|done]. by apply entry_wf_clear. }
  destruct (darr_set a segno e') as [a' r'] eqn:Hset.
  apply (dst_set_step _ (with_array this a) segno e' a' r' Hwf1 Hseg Hewf') in Hset.
  change (with_array (with_array this a) a') with (with_array this a') in *.
  destruct r' as [u|x]; cbn [fst]; [|apply touches_view; try done; destruct Hset; congruence].
  destruct Hset as (_ & Hv2 & Hwf2). rewrite Hv1 in Hv2.
  destruct (dst_update_victim_frame _ (with_array this a') segno (nr_valid_block e') (block_validity_table e') Hwf2) as (Hn & Hl & Hvic & Hview);
    [done|intros x [Hx|Hx]; [left; done|by right]|rewrite Hv2, list_lookup_insert_eq; [by destruct e'|by eapply lookup_lt_Some]|].
  split; [exact Hn|]. split; [exact Hl|]. split; [exact Hvic|].
  intros t Ht Hne. rewrite Hview, Hv2 by done. by rewrite list_lookup_insert_ne by lia.
Qed.

(** C16. The table as a set of valid blocks: a successful [take_block] adds the
    block, a successful [return_block] removes it (whether or not it was there),
    no other block changes, and an error changes nothing. Both keep the counts
    equal to the number of bits set and the victim tree ordered and in agreement
    with the entries. *)
Theorem dst_block_ops_refine this pba : dst_wf this -> 0 <= pba ->
  (block_valid this pba = false ->
   let '(this', r) := dst_take_block this pba in
   dst_wf this' /\
   match r with
   | Ok _ => forall q, 0 <= q -> block_valid this' q = if decide (q = pba) then true else block_valid this q
   | Err _ => dst_view this' = dst_view this
   end) /\
  (let '(this', r) := dst_return_block this pba in
   dst_wf this' /\
   match r with
   | Ok _ => forall q, 0 <= q -> block_valid this' q = if decide (q = pba) then false else block_valid this q
   | Err _ => dst_view this' = dst_view this
   end).
Proof. intros Hwf Hp. split; [by apply dst_take_block_map|by apply dst_return_block_map]. Qed.

Lemma dst_take_segment_map this s : dst_wf this -> 0 <= s ->
  let '(this', r) := dst_take_segment this s in
  dst_wf this' /\ d_nr_segment this' = d_nr_segment this /\ d_logging_segno this' = d_logging_segno this /\
  match r with
  | Ok _ => dst_view this' = <[Z.to_nat s := {| nr_valid_block := BLOCKS_PER_SEGMENT;
      block_validity_table := bitmap_fill BLOCKS_PER_SEGMENT |}]> (dst_view this) /\
      (exists e, dst_view this !! Z.to_nat s = Some e /\ nr_valid_block e = 0) /\
      forall v, v ∈ dst_victims this' -> v ∈ dst_victims this /\ v_segno v <> s
  | Err _ => dst_view this' = dst_view this
  end.
Proof.
  intros Hwf Hs. unfold dst_take_segment.
  destruct (darr_get (d_array this) s) as [a r] eqn:Hget.
  apply (dst_get_step _ _ _ _ _ Hwf Hs) in Hget as (Hwf1 & Hv1 & He). destruct r as [e|x]; [|done].
  destruct (He e eq_refl) as (Hlook & Hewf & _).
  destruct (Z.eqb_spec (nr_valid_block e) 0) as [Hz|]; cbn [negb]; [|done].
  destruct (darr_set a s _) as [a' r'] eqn:Hset.
  apply (dst_set_step _ (with_array this a) s _ a' r' Hwf1 Hs entry_wf_full) in Hset.
  change (with_array (with_array this a) a') with (with_array this a') in *. rewrite Hv1 in Hset.
  destruct r' as [u|x]; [|by destruct Hset].
  destruct Hset as (Hlt & Hv & Hw).
  destruct (dst_destroy_victim_map _ (with_array this a') s Hw) as (Hwf' & Hview & Hnr & Hlog & _ & Hmem).
  { intros x [Hx|Hx]; [left; done|by right]. }
  split; [done|]. split; [done|]. split; [done|]. split; [congruence|]. split; [eauto|].
  intros v Hin. by apply Hmem in Hin.
Qed.

Lemma dst_return_segment_map this s : dst_wf this -> 0 <= s ->
  let '(this', r) := dst_return_segment this s in
  dst_wf this' /\ d_nr_segment this' = d_nr_segment this /\ d_logging_segno this' = d_logging_segno this /\
  (forall v, v ∈ dst_victims this' <-> v ∈ dst_victims this /\ v_segno v <> s) /\
  match r with
  | Ok _ => dst_view this' = <[Z.to_nat s := {| nr_valid_block := 0; block_validity_table := 0 |}]> (dst_view this)
  | Err _ => dst_view this' = dst_view this
  end.
Proof.
  intros Hwf Hs. unfold dst_return_segment.
  destruct (darr_set (d_array this) s _) as [a r] eqn:Hset.
  apply (dst_set_step _ _ s _ a r Hwf Hs entry_wf_zero) in Hset. destruct r as [u|x].
  - destruct Hset as (Hlt & Hv & Hw).
    destruct (dst_destroy_victim_map _ (with_array this a) s Hw) as (Hwf' & Hview & Hnr & Hlog & _ & Hmem).
    { intros x [Hx|Hx]; [left; done|by right]. }
    split; [done|]. split; [done|]. split; [done|]. split; [done|]. congruence.
  - destruct Hset as (Hv & Hw).
    destruct (dst_destroy_victim_map _ (with_array this a) s Hw) as (Hwf' & Hview & Hnr & Hlog & _ & Hmem).
    { intros y Hy. by left. }
    split; [done|]. split; [done|]. split; [done|]. split; [done|]. congruence.
Qed.

(** ** Victims for the collector *)

(** [peek_victim] and [pop_victim] yield a segment with the fewest valid
    blocks among all victims (so that cleaning it moves the least data), [pop]
    takes it out of the tree and [None] is returned only when there is none. *)
Theorem dst_pop_victim_min this : dst_wf this ->
  let '(this', o) := dst_pop_victim this in
  dst_wf this' /\ dst_view this' = dst_view this /\ dst_peek_victim this = o /\
  match o with
  | Some v => v ∈ dst_victims this /\ (forall w, w ∈ dst_victims this -> v_nr_valid v <= v_nr_valid w) /\
      (forall w, w ∈ dst_victims this' <-> w ∈ dst_victims this /\ w <> v) /\
      (v_segno v <> d_logging_segno this -> dst_view this !! Z.to_nat (v_segno v) =
         Some {| nr_valid_block := v_nr_valid v; block_validity_table := v_table v |})
  | None => dst_victims this = []
  end.
Proof.
  intros Hwf. unfold dst_pop_victim, dst_peek_victim, rb_first. fold (dst_victims this).
  destruct (dst_victims this) as [|v l] eqn:Hl; cbn [head]; [done|].
  destruct (dst_destroy_victim_map _ this (v_segno v) Hwf) as (Hwf' & Hview & _ & _ & _ & Hmem); [by left|].
  fold (dst_destroy_victim this (v_segno v)). split; [done|]. split; [done|]. split; [done|].
  pose proof (dw_tree _ _ Hwf) as [Hs Hnd _ _]. rewrite Hl in Hs, Hnd. cbn in Hs, Hnd.
  apply StronglySorted_inv in Hs as [_ Hs]. rewrite Forall_fmap, Forall_forall in Hs. apply NoDup_cons in Hnd as [Hnin _].
  split; [by left|]. split; [|split].
  - intros w [->|Hw]%elem_of_cons; [lia|by apply Hs].
  - intros w. rewrite Hmem, Hl, elem_of_cons. split.
    + intros [[->|Hw] Hne]; [done|]. split; [auto|congruence].
    + intros [[->|Hw] Hne]; [done|]. split; [auto|]. intros Heq. apply Hnin. rewrite <- Heq. by apply list_elem_of_fmap_2.
  - intros Hne. apply (dw_agree _ _ Hwf); [rewrite Hl; by left|congruence].
Qed.

(** ** Loading *)

Lemma dst_load_loop_spec n : forall this s this' r, dst_wf this -> 0 <= s -> d_logging_segno this = INF_ADDR ->
  s + Z.of_nat n = d_nr_segment this -> (forall v, v ∈ dst_victims this -> v_segno v < s) ->
  dst_load_loop n s this = (this', r) ->
  dst_wf this' /\ dst_view this' = dst_view this /\
  (r = Ok tt -> forall x e, s <= x < d_nr_segment this -> dst_view this !! Z.to_nat x = Some e ->
     0 < nr_valid_block e < BLOCKS_PER_SEGMENT ->
     exists v, v ∈ dst_victims this' /\ v_segno v = x) /\
  (forall v, v ∈ dst_victims this -> v ∈ dst_victims this').
Proof.
  induction n as [|n IH]; intros this s this' r Hwf Hs Hlog Hn Hold; cbn [dst_load_loop].
  { intros [= <- <-]. split; [done|]. split; [done|]. split; [intros; lia|done]. }
  destruct (darr_get (d_array this) s) as [a ra] eqn:Hget.
  apply (dst_get_step _ _ _ _ _ Hwf Hs) in Hget as (Hwf1 & Hv1 & He).
  destruct ra as [e|x]; [|by intros [= <- <-]].
  destruct (He e eq_refl) as (Hlook & Hewf & Hlt). pose proof (entry_nr_range e Hewf).
  assert (forall this1, dst_wf this1 -> d_nr_segment this1 = d_nr_segment this -> d_logging_segno this1 = INF_ADDR ->
    dst_view this1 = dst_view this -> (forall v, v ∈ dst_victims this1 -> v_segno v < s + 1) ->
    (0 < nr_valid_block e < BLOCKS_PER_SEGMENT -> exists v, v ∈ dst_victims this1 /\ v_segno v = s) ->
    (forall v, v ∈ dst_victims this -> v ∈ dst_victims this1) ->
    dst_load_loop n (s + 1) this1 = (this', r) ->
    dst_wf this' /\ dst_view this' = dst_view this /\
    (r = Ok tt -> forall x e, s <= x < d_nr_segment this -> dst_view this !! Z.to_nat x = Some e ->
       0 < nr_valid_block e < BLOCKS_PER_SEGMENT -> exists v, v ∈ dst_victims this' /\ v_segno v = x) /\
    (forall v, v ∈ dst_victims this -> v ∈ dst_victims this')) as Hstep.
  { intros this1 Hw1 Hnr1 Hlog1 Hview1 Hold1 Hnew1 Hsub1 Hrun.
    apply IH in Hrun as (Hw & Hv & Hall & Hsub); [|done|lia|done|lia|done].
    split; [done|]. split; [congruence|]. split; [|auto]. intros Hr x e' Hx Hex Hne.
    destruct (Z.eq_dec x s) as [->|Hxs].
    - assert (e' = e) as -> by congruence. destruct (Hnew1 Hne) as (v & Hin & Hvs). eauto.
    - apply (Hall Hr x e'); [lia|congruence|done]. }
  destruct (Z.eqb_spec (nr_valid_block e) 0) as [Hz|Hnz].
  { apply Hstep; try done; [|lia]. intros v Hv. specialize (Hold v Hv). lia. }
  unfold dst_add_victim. destruct (Z.leb_spec BLOCKS_PER_SEGMENT (nr_valid_block e)).
  { apply Hstep; try done; [|cbn; lia]. intros v Hv. specialize (Hold v Hv). lia. }
  cbn [fst]. set (v := victim_create s (nr_valid_block e) (block_validity_table e)).
  destruct (dst_add_victim_tree (with_array this a) s (nr_valid_block e) (block_validity_table e)) as [Htree Hmem];
    [apply Hwf1|done|lia| |].
  { destruct (d_node_list (with_array this a) !! s) as [w|] eqn:Hw; [|done].
    apply (tw_list _ (dw_tree _ _ Hwf1)) in Hw as [Hw Hws]. specialize (Hold w Hw). lia. }
  fold v in Htree, Hmem.
  assert (forall w, w ∈ dst_victims (with_array this a) -> v_segno w < s) as Hold' by done.
  apply Hstep; try done.
  - eapply (victims_wf _ _ s); [exact Hwf1|by left|exact Htree|..].
    + intros w Hw. apply Hmem in Hw as [->|Hw]; [right|by left]. cbn. rewrite Hv1, Hlook. by destruct e.
    + intros w Hw Hws. apply Hmem in Hw as [->|Hw]; [cbn; rewrite Hv1, Hlook; by destruct e|].
      specialize (Hold' w Hw). lia.
  - intros w Hw. apply Hmem in Hw as [->|Hw]; [cbn; lia|]. specialize (Hold' w Hw). lia.
  - intros _. exists v. split; [|done]. apply Hmem. by left.
  - intros w Hw. apply Hmem. by right.
Qed.

(** What opening a table requires of the entries on the device. *)
Definition array_wf (nr : Z) (a : darr) : Prop :=
  darr_ok a /\ Z.of_nat (length (darr_view a)) = nr /\ nr < 2 ^ 54 /\ Forall entry_wf (darr_view a).

Lemma dst_init_map nr a : array_wf nr a ->
  let '(this, r) := dst_init nr a in
  dst_wf this /\ dst_view this = darr_view a /\
  (r = Ok tt -> forall s e, 0 <= s < nr -> darr_view a !! Z.to_nat s = Some e ->
     0 < nr_valid_block e < BLOCKS_PER_SEGMENT -> exists v, v ∈ dst_victims this /\ v_segno v = s).
Proof.
  intros (Hok & Hlen & Hnr & Hent). unfold dst_init, dst_load. cbn [d_nr_segment].
  destruct (dst_load_loop _ 0 _) as [this r] eqn:Hrun.
  apply dst_load_loop_spec in Hrun; [|..].
  - destruct Hrun as (? & ? & ? & _). done.
  - split; try done; [|by intros v Hv%elem_of_nil|by left].
    split; unfold dst_victims; cbn; [constructor|constructor| |by intros v Hv%elem_of_nil].
    intros s v. rewrite lookup_empty. split; [done|]. by intros [Hv%elem_of_nil _].
  - done.
  - done.
  - cbn. lia.
  - by intros v Hv%elem_of_nil.
Qed.

(** Opening a table whose entries are consistent rebuilds a well-formed tree
    of victims that holds every segment that is neither empty nor full, without
    changing an entry. *)
Theorem dst_init_rebuilds nr a : array_wf nr a ->
  let '(this, r) := dst_init nr a in
  dst_wf this /\ dst_view this = darr_view a /\
  (r = Ok tt -> forall s e, 0 <= s < nr -> darr_view a !! Z.to_nat s = Some e ->
     0 < nr_valid_block e < BLOCKS_PER_SEGMENT -> exists v, v ∈ dst_victims this /\ v_segno v = s).
Proof. apply dst_init_map. Qed.
(** ** Formatting *)

Lemma dst_pop_loop_spec l : forall this, tree_wf this -> dst_victims this = l ->
  exists this', dst_pop_loop (S (length l)) this = Some this' /\
    d_nr_segment this' = d_nr_segment this /\ d_array this' = d_array this.
Proof.
  induction l as [|v l IH]; intros this Htree Hl; cbn [length dst_pop_loop].
  - rewrite (proj2 (RB_EMPTY_ROOT_inorder _) Hl). eauto.
  - destruct (RB_EMPTY_ROOT (d_victims this)) eqn:Hempty.
    { apply RB_EMPTY_ROOT_inorder in Hempty. unfold dst_victims in Hl. congruence. }
    pose proof Htree as [_ Hnd Hlist _].
    assert (d_node_list this !! v_segno v = Some v) as Hv by (apply Hlist; rewrite Hl; split; [by left|done]).
    pose proof (dst_remove_victim_tree this (v_segno v) Htree) as Hrm. unfold dst_pop_victim, rb_first.
    fold (dst_victims this). rewrite Hl. cbn [head fst].
    unfold dst_remove_victim in *. rewrite Hv in *. cbn [fst] in *.
    destruct Hrm as (Htree' & _ & _ & _ & Hnr & _ & Harr).
    destruct (IH _ Htree') as (this' & Hrun & Hnr' & Harr'); [|exists this'; split; [done|split; congruence]].
    rewrite Hl in Hnd. cbn in Hnd. apply NoDup_cons in Hnd as [Hnin _].
    unfold dst_victims. cbn. eapply (rb_erase_inorder _ _ [] v l); [exact Hl|apply Z.eqb_refl|constructor|].
    apply Forall_forall. intros w Hw. apply Z.eqb_neq. intros Heq. apply Hnin. rewrite <- Heq. by apply list_elem_of_fmap_2.
Qed.

(** Formatting terminates; when it succeeds no block is valid, there is no
    victim and no logging segment. *)
Theorem dst_format_empties this : dst_wf this ->
  darr_fill false = {| nr_valid_block := 0; block_validity_table := 0 |} ->
  exists this' r, dst_format this = Some (this', r) /\
    (r = Ok tt -> dst_wf this' /\ (forall q, block_valid this' q = false) /\
       dst_victims this' = [] /\ d_logging_segno this' = INF_ADDR).
Proof.
  intros Hwf Hfill. unfold dst_format.
  destruct (darr_format (d_array this) false) as [a rf] eqn:Hf.
  apply darr_format_spec in Hf as (Hok & Hlen & Hr); [|apply Hwf]. destruct rf as [[]|e];
    [|by eexists _, _; split; [reflexivity|discriminate]].
  specialize (Hr eq_refl). rewrite Hfill in Hr. unfold array_format in Hr.
  destruct (dst_pop_loop_spec (dst_victims this) (with_array this a)) as (this1 & Hloop & Hnr & Harr);
    [by apply (tree_wf_ext this); [..|apply Hwf]|done|].
  unfold dst_victims in Hloop. rewrite Hloop, Hnr, Harr. cbn [d_nr_segment d_array with_array].
  assert (array_wf (d_nr_segment this) a) as Hawf.
  { split; [done|]. split; [rewrite Hlen; apply Hwf|]. split; [apply Hwf|]. rewrite Hr. apply Forall_replicate, entry_wf_zero. }
  pose proof Hawf as (_ & Hlen' & _ & _).
  unfold dst_init, dst_load. cbn [d_nr_segment].
  set (this2 := {| d_nr_segment := d_nr_segment this |}).
  assert (forall n s this', dst_view this' = darr_view a -> darr_ok (d_array this') -> 0 <= s ->
    dst_victims this' = [] -> d_logging_segno this' = INF_ADDR ->
    dst_victims (dst_load_loop n s this').1 = [] /\ d_logging_segno (dst_load_loop n s this').1 = INF_ADDR) as Hnone.
  { clear -Hr H0. induction n as [|n IH]; intros s this' Hv Hok Hs Hvic Hlog; cbn [dst_load_loop]; [done|].
    destruct (darr_get (d_array this') s) as [a' ra] eqn:Hget.
    apply darr_get_spec in Hget as (Hok' & Hv' & Hra); [|done..]. destruct ra as [e|x]; [|done].
    destruct Hra as [Hra|Hra]; [|done]. symmetry in Hra. apply array_get_ok in Hra as [_ Hra].
    fold (dst_view this') in Hra, Hv'. rewrite Hv, Hr in Hra. apply lookup_replicate in Hra as [-> _]. cbn [nr_valid_block Z.eqb].
    apply IH; [unfold dst_view; cbn; congruence|done|lia|done|done]. }
  pose proof (dst_load_loop_spec (Z.to_nat (d_nr_segment this)) this2 0) as Hspec.
  specialize (Hnone (Z.to_nat (d_nr_segment this)) 0 this2 eq_refl Hok (Z.le_refl 0) eq_refl eq_refl).
  destruct (dst_load_loop _ 0 this2) as [this' r'] eqn:Hrun. exists this', r'. split; [done|]. intros ->.
  destruct (Hspec this' (Ok tt)) as (Hwf' & Hview & _); [|lia|done|cbn; lia|by intros v Hv%elem_of_nil|done|].
  - destruct Hawf as (_ & _ & Hnr54 & Hents). split; try done; [|by intros v Hv%elem_of_nil|by left].
    split; unfold dst_victims; cbn; [constructor|constructor| |by intros v Hv%elem_of_nil].
    intros s v. rewrite lookup_empty. split; [done|]. by intros [Hv%elem_of_nil _].
  - split; [done|]. split; [|done]. intros q. unfold block_valid. rewrite Hview. unfold dst_view. cbn. rewrite Hr.
    destruct (replicate _ _ !! _) eqn:Hlk; [|done]. apply lookup_replicate in Hlk as [-> _].
    apply Z.bits_0.
Qed.

(** ** Threaded logging *)
Section find_logging_block_correct.
Context `{ArraySpec Z} `{!GroupArray}.
Implicit Types (st : logging_state).

(** A segment free in the validator has no valid block, is not the logging
    segment and is no victim. *)
Definition free_agree st : Prop :=
  sv_nr_segment (ls_svt st) = d_nr_segment (ls_dst st) /\
  forall s, 0 <= s -> sv_view (ls_svt st) !! Z.to_nat s = Some false ->
    s <> d_logging_segno (ls_dst st) /\ (forall v, v ∈ dst_victims (ls_dst st) -> v_segno v <> s) /\
    forall e, dst_view (ls_dst st) !! Z.to_nat s = Some e -> nr_valid_block e = 0.

(** What taking one more block of the table does. *)
Definition takes_block this this' (pba : Z) : Prop :=
  block_valid this pba = false /\ 0 <= pba < d_nr_segment this * BLOCKS_PER_SEGMENT /\
  (forall q, 0 <= q -> block_valid this' q = if decide (q = pba) then true else block_valid this q) /\
  d_logging_segno this' = __block_to_segment pba /\
  (exists e, dst_view this' = <[Z.to_nat (__block_to_segment pba) := e]> (dst_view this)).

Lemma segment_parts s o : 0 <= o < BLOCKS_PER_SEGMENT ->
  __block_to_segment (s * BLOCKS_PER_SEGMENT + o) = s /\ __block_offset_whthin_segment (s * BLOCKS_PER_SEGMENT + o) = o.
Proof. unfold __block_to_segment, __block_offset_whthin_segment, BLOCKS_PER_SEGMENT. intros. split; divmod_lia. Qed.

Lemma logging_block_in_spec st : dst_wf (ls_dst st) ->
  0 <= d_logging_segno (ls_dst st) < d_nr_segment (ls_dst st) ->
  let '(st', o) := logging_block_in st in
  dst_wf (ls_dst st') /\ ls_svt st' = ls_svt st /\ d_nr_segment (ls_dst st') = d_nr_segment (ls_dst st) /\
  (forall v, v ∈ dst_victims (ls_dst st') -> v ∈ dst_victims (ls_dst st)) /\
  match o with
  | Some (Ok pba) => takes_block (ls_dst st) (ls_dst st') pba /\ d_logging_segno (ls_dst st) = __block_to_segment pba
  | Some (Err _) => dst_view (ls_dst st') = dst_view (ls_dst st)
  | None => dst_view (ls_dst st') = dst_view (ls_dst st) /\ d_logging_segno (ls_dst st') = INF_ADDR /\
      exists e, dst_view (ls_dst st) !! Z.to_nat (d_logging_segno (ls_dst st)) = Some e /\
        nr_valid_block e = BLOCKS_PER_SEGMENT
  end.
Proof.
  intros Hwf Hlog. unfold logging_block_in. set (this := ls_dst st) in *. set (s := d_logging_segno this) in *.
  destruct (darr_get (d_array this) s) as [a r] eqn:Hget.
  apply (dst_get_step _ _ _ _ _ Hwf (proj1 Hlog)) in Hget as (Hwf1 & Hv1 & He). destruct r as [e|x]; [|done].
  destruct (He e eq_refl) as (Hlook & Hewf & _). pose proof (entry_nr_range e Hewf) as Hrange.
  destruct (Z.leb_spec BLOCKS_PER_SEGMENT (nr_valid_block e)) as [Hfull|Hroom].
  { destruct (dst_destroy_victim_map _ (with_array this a) s Hwf1) as (Hwf2 & Hview & Hnr & Hlg & _ & Hmem); [by right|].
    cbn [ls_dst ls_svt]. split; [|split; [done|split; [done|split]]].
    2: { intros v Hv. by apply Hmem in Hv as [? _]. }
    - destruct Hwf2 as [Hok2 Hlen2 Hnr2 Hent2 Htr2 Hag2 _]. split; try done; [by apply (tree_wf_ext (dst_destroy_victim (with_array this a) s))| |by left].
      intros v Hin _. apply Hag2; [done|]. rewrite Hlg. apply Hmem in Hin as [_ Hne]. subst s. cbn. congruence.
    - split; [unfold dst_view in *; cbn in *; congruence|]. split; [done|]. exists e. split; [done|lia]. }
  pose proof Hewf as [Hn _].
  destruct (find_first_zero_bit_spec (block_validity_table e) BLOCKS_PER_SEGMENT) as [Ho Hbit]; [done|change (Z.to_nat BLOCKS_PER_SEGMENT) with bps; lia|].
  set (o := find_first_zero_bit (block_validity_table e) BLOCKS_PER_SEGMENT) in *.
  destruct (Z.eqb_spec o BLOCKS_PER_SEGMENT); [lia|].
  pose proof (entry_wf_set e o Hewf Ho Hbit) as Hewf'.
  destruct (darr_set a s _) as [a' r'] eqn:Hset.
  apply (dst_set_step _ (with_array this a) s _ a' r' Hwf1 (proj1 Hlog) Hewf') in Hset.
  change (with_array (with_array this a) a') with (with_array this a') in *. rewrite Hv1 in Hset.
  destruct r' as [u|x]; cbn [ls_dst ls_svt]; [|destruct Hset; done].
  destruct Hset as (_ & Hv2 & Hwf2). destruct (segment_parts s o Ho) as [Hps Hpo].
  split; [eapply wf_weaken; [|exact Hwf2]; intros x [Hx|Hx]; [done|by subst x]|].
  split; [done|]. split; [done|]. split; [done|]. split; [|by rewrite Hps]. split; [|split; [nia|split; [|split; [by rewrite Hps|rewrite Hps; eauto]]]].
  - unfold block_valid. by rewrite Hps, Hpo, Hlook.
  - apply (block_valid_store this _ _ e (nr_valid_block e + 1) true); [nia|by rewrite Hps|by rewrite Hps, Hpo].
Qed.

Lemma wf_with_logging this s : dst_wf this -> d_logging_segno this = INF_ADDR -> 0 <= s < d_nr_segment this ->
  dst_wf (with_logging this s).
Proof.
  intros [Hok Hlen Hnr Hent Htr Hag Hlg] Hlog Hs. split; try done.
  - by apply (tree_wf_ext this).
  - intros v Hin _. apply Hag; [done|]. rewrite Hlog. intros Heq.
    pose proof (proj1 (tw_range _ Htr v Hin)). unfold INF_ADDR in Heq. lia.
  - by right.
Qed.

Definition logging_post st (st' : logging_state) (r : result Z) : Prop :=
  dst_wf (ls_dst st') /\ sv_wf (ls_svt st') /\
  match r with
  | Ok pba => takes_block (ls_dst st) (ls_dst st') pba /\ free_agree st'
  | Err _ => dst_view (ls_dst st') = dst_view (ls_dst st)
  end.

(** A result of the last part is a result of the whole. *)
Lemma logging_block_in_post st st' r : dst_wf (ls_dst st) -> sv_wf (ls_svt st) -> free_agree st ->
  0 <= d_logging_segno (ls_dst st) < d_nr_segment (ls_dst st) ->
  logging_block_in st = (st', Some r) -> logging_post st st' r.
Proof.
  intros Hwf Hsv [Hn Hag] Hlog Hrun. pose proof (logging_block_in_spec st Hwf Hlog) as Hspec. rewrite Hrun in Hspec.
  destruct Hspec as (Hwf' & Hsvt & Hnr & Hvic & Hr). split; [done|]. split; [by rewrite Hsvt|].
  destruct r as [pba|]; [|done]. destruct Hr as [Htake Hseg]. split; [done|].
  destruct Htake as (_ & Hp & _ & Hlog' & e & Hview). split; [congruence|]. rewrite Hsvt. intros s Hs Hfree.
  destruct (Hag s Hs Hfree) as (Hne & Hv & Hz). split; [congruence|]. split; [auto|].
  intros e' He'. apply Hz. rewrite Hview in He'. rewrite list_lookup_insert_ne in He'; [done|]. lia.
Qed.

(** With room in the logging segment no retry is needed. *)
Lemma find_logging_room fuel st : dst_wf (ls_dst st) -> sv_wf (ls_svt st) -> free_agree st ->
  0 <= d_logging_segno (ls_dst st) < d_nr_segment (ls_dst st) ->
  (forall e, dst_view (ls_dst st) !! Z.to_nat (d_logging_segno (ls_dst st)) = Some e -> nr_valid_block e < BLOCKS_PER_SEGMENT) ->
  exists st' r, logging_block_in st = (st', Some r) /\ find_logging_loop (S fuel) st = Some (st', r) /\ logging_post st st' r.
Proof.
  intros Hwf Hsv Hag Hlog Hroom. pose proof (dw_nr _ _ Hwf).
  destruct (logging_block_in st) as [st' [r|]] eqn:Hrun.
  - exists st', r. split; [done|]. split; [|by apply logging_block_in_post].
    cbn [find_logging_loop]. rewrite Hrun.
    destruct (Z.eqb_spec (d_logging_segno (ls_dst st)) INF_ADDR) as [Heq|]; [unfold INF_ADDR in Heq; lia|done].
  - pose proof (logging_block_in_spec st Hwf Hlog) as Hspec. rewrite Hrun in Hspec.
    destruct Hspec as (_ & _ & _ & _ & _ & _ & e & He & Hfull). specialize (Hroom e He). lia.
Qed.

Lemma takes_block_same this this1 this' pba : dst_view this1 = dst_view this -> d_nr_segment this1 = d_nr_segment this ->
  takes_block this1 this' pba -> takes_block this this' pba.
Proof.
  intros Hv Hn (H1' & H2' & H3' & H4' & H5'). unfold takes_block. rewrite <- Hn, <- Hv.
  rewrite <- (block_valid_view this this1) by done. split; [done|]. split; [done|]. split; [|done].
  intros q Hq. rewrite <- (block_valid_view this this1) by done. auto.
Qed.

Lemma logging_post_same st st1 st' r : dst_view (ls_dst st1) = dst_view (ls_dst st) ->
  d_nr_segment (ls_dst st1) = d_nr_segment (ls_dst st) -> logging_post st1 st' r -> logging_post st st' r.
Proof.
  intros Hv Hn (Hwf & Hsv & Hr). split; [done|]. split; [done|]. destruct r; [|congruence].
  destruct Hr as [Ht Ha]. split; [|done]. by eapply takes_block_same.
Qed.

(** Without a logging segment one is chosen, which has room. *)
Lemma find_logging_choose fuel st : dst_wf (ls_dst st) -> sv_wf (ls_svt st) -> free_agree st ->
  d_logging_segno (ls_dst st) = INF_ADDR ->
  exists st' r, find_logging_loop (S (S fuel)) st = Some (st', r) /\ logging_post st st' r.
Proof.
  intros Hwf Hsv [Hn Hag] Hlog. set (f := S fuel). cbn [find_logging_loop]. rewrite Hlog, Z.eqb_refl.
  destruct (rb_last (d_victims (ls_dst st))) as [v|] eqn:Hlast.
  - apply last_Some_elem_of in Hlast. fold (dst_victims (ls_dst st)) in Hlast.
    pose proof (tw_range _ (dw_tree _ _ Hwf) v Hlast) as [Hvs Hvn].
    pose proof (dw_agree _ _ Hwf v Hlast) as Hent. rewrite Hlog in Hent.
    pose proof (dw_nr _ _ Hwf). specialize (Hent ltac:(unfold INF_ADDR; lia)).
    pose proof (wf_with_logging _ (v_segno v) Hwf Hlog Hvs) as Hwf1.
    destruct (dst_destroy_victim_map _ (with_logging (ls_dst st) (v_segno v)) (v_segno v) Hwf1)
      as (Hwf2 & Hview & Hnr & Hlg & _ & Hmem); [by right|].
    set (st1 := {| ls_dst := dst_destroy_victim (with_logging (ls_dst st) (v_segno v)) (v_segno v);
                   ls_svt := ls_svt st; ls_nr_valid_segment := ls_nr_valid_segment st |}).
    destruct (find_logging_room 0 st1) as (st' & r & Hin & _ & Hpost); subst st1; cbn [ls_dst ls_svt] in *.
    + done.
    + done.
    + split; cbn [ls_dst ls_svt]; [by rewrite Hnr|]. intros s Hs Hfree.
      destruct (Hag s Hs Hfree) as (_ & Hv & Hz). rewrite Hlg, Hview. cbn [d_logging_segno with_logging].
      split; [intros Heq; by apply (Hv v Hlast)|]. split; [|done]. intros w Hw. apply Hmem in Hw as [Hw _]. by apply Hv.
    + by rewrite Hlg, Hnr.
    + rewrite Hlg, Hview. cbn. intros e. unfold dst_view in *. cbn. rewrite Hent. intros [= <-]. cbn. lia.
    + rewrite Hin. exists st', r. split; [done|]. eapply logging_post_same; [| |exact Hpost]; done.
  - unfold logging_segment_alloc. pose proof (seg_validator_next_map (ls_svt st) Hsv) as Hnext.
    destruct (seg_validator_next (ls_svt st)) as [svt [seg|e]]; destruct Hnext as (Hsv1 & Hv1 & Hn1 & Hr).
    2: { eexists _, _. split; [done|]. by split. }
    destruct Hr as (Hseg & _ & Hfree). rewrite Hn in Hseg.
    pose proof (wf_with_logging _ seg Hwf Hlog Hseg) as Hwf1.
    pose proof (seg_validator_take_map svt seg Hsv1 (proj1 Hseg)) as Htake.
    destruct (seg_validator_take svt seg) as [svt' [u|e]]; destruct Htake as (Hsv2 & Hn2 & Ht).
    2: { eexists _, _. split; [done|]. by split. }
    destruct Ht as [_ Ht]. rewrite Hv1 in Ht. destruct (Hag seg (proj1 Hseg) Hfree) as (_ & _ & Hzero).
    set (st1 := {| ls_dst := with_logging (ls_dst st) seg |}).
    destruct (find_logging_room fuel st1) as (st' & r & _ & Hrun & Hpost); subst st1; cbn [ls_dst ls_svt] in *.
    + done.
    + done.
    + split; cbn [ls_dst ls_svt d_nr_segment with_logging d_logging_segno]; [congruence|]. intros s Hs Hfree'. rewrite Ht in Hfree'.
      destruct (Z.eq_dec s seg) as [->|Hne].
      { rewrite list_lookup_insert_eq in Hfree'; [done|]. by eapply lookup_lt_Some. }
      rewrite list_lookup_insert_ne in Hfree' by lia. destruct (Hag s Hs Hfree') as (_ & Hv & Hz). done.
    + done.
    + cbn. intros e He. rewrite (Hzero e He). done.
    + exists st', r. subst f. rewrite Hrun. split; [done|]. eapply logging_post_same; [| |exact Hpost]; done.
Qed.

(** C22. Threaded logging: [find_logging_block] terminates (within three retries);
    on success the block it returns was not valid, becomes valid, no other block
    changes, and the block lies in the logging segment; on an error no block
    changes. A segment still free in the validator stays empty. *)
Theorem dst_find_logging_block_correct st :
  dst_wf (ls_dst st) -> sv_wf (ls_svt st) -> free_agree st ->
  exists st' r, dst_find_logging_block st = Some (st', r) /\
    dst_wf (ls_dst st') /\ sv_wf (ls_svt st') /\
    match r with
    | Ok pba => block_valid (ls_dst st) pba = false /\
        0 <= pba < d_nr_segment (ls_dst st) * BLOCKS_PER_SEGMENT /\
        (forall q, 0 <= q -> block_valid (ls_dst st') q = if decide (q = pba) then true else block_valid (ls_dst st) q) /\
        d_logging_segno (ls_dst st') = __block_to_segment pba /\ free_agree st'
    | Err _ => dst_view (ls_dst st') = dst_view (ls_dst st)
    end.
Proof.
  intros Hwf Hsv Hag. unfold dst_find_logging_block.
  assert (exists st' r, find_logging_loop 4 st = Some (st', r) /\ logging_post st st' r) as (st' & r & Hrun & Hw & Hs & Hr).
  2: { exists st', r. split; [done|]. split; [done|]. split; [done|]. destruct r; [|done].
       destruct Hr as ((? & ? & ? & ? & _) & ?). done. }
  destruct (dw_logging _ _ Hwf) as [Hlog|Hlog]; [by apply find_logging_choose|].
  set (f := 3%nat). cbn [find_logging_loop]. pose proof (dw_nr _ _ Hwf).
  destruct (Z.eqb_spec (d_logging_segno (ls_dst st)) INF_ADDR) as [Heq|_]; [unfold INF_ADDR in Heq; lia|].
  destruct (logging_block_in st) as [st1 [r|]] eqn:Hin.
  - exists st1, r. split; [done|]. by apply logging_block_in_post.
  - pose proof (logging_block_in_spec st Hwf Hlog) as Hspec. rewrite Hin in Hspec.
    destruct Hspec as (Hwf1 & Hsvt & Hnr & Hvic & Hview & Hlog1 & _).
    destruct (find_logging_choose 1 st1) as (st' & r & Hrun & Hpost); [done|by rewrite Hsvt| |done|].
    + destruct Hag as [Hn Hag]. split; [congruence|]. rewrite Hsvt, Hview, Hlog1. intros s Hs Hfree.
      destruct (Hag s Hs Hfree) as (_ & Hv & Hz). split; [|split; [auto|done]]. intros ->.
      apply lookup_lt_Some in Hfree. rewrite sv_view_length, Hn in Hfree by done. unfold INF_ADDR in Hfree. lia.
    + exists st', r. split; [done|]. by eapply logging_post_same.
Qed.
End find_logging_block_correct.
End dst.

(** ** Concrete runs *)

#[export] Instance dst_list : ArrayIntf dst_entry :=
  list_array (fun e => 0 <= nr_valid_block e < 2 ^ 64 /\ 0 <= block_validity_table e < 2 ^ 1024)
    (fun v => if v then {| nr_valid_block := 2 ^ 64 - 1; block_validity_table := bitmap_fill 1024 |}
              else {| nr_valid_block := 0; block_validity_table := 0 |}).
#[export] Instance dst_list_spec : ArraySpec dst_entry.
Proof. apply list_array_spec. intros []; vm_compute; repeat split; congruence || done. Qed.

Lemma dst_list_range e : entry_wf e -> darr_entry_ok e.
Proof. intros [Hn Hb]. pose proof (entry_nr_range e (conj Hn Hb)). unfold BLOCKS_PER_SEGMENT in *. split; [lia|done]. Qed.

(** Segment 0 has blocks 0 and 3, segment 1 is full, segment 2 is empty. *)
Definition example_entries : list dst_entry :=
  [ {| nr_valid_block := 2; block_validity_table := 9 |};
    {| nr_valid_block := 1024; block_validity_table := bitmap_fill 1024 |};
    {| nr_valid_block := 0; block_validity_table := 0 |} ].

Lemma example_entries_wf : array_wf 3 example_entries.
Proof.
  split; [|split; [done|split; [lia|]]].
  - repeat constructor; vm_compute; congruence.
  - repeat (apply Forall_cons; split; [by split; vm_compute|]). constructor.
Qed.

Definition example_dst : dst := (dst_init 3 example_entries).1.

Lemma example_dst_wf : dst_wf example_dst.
Proof.
  pose proof (dst_init_map 3 example_entries example_entries_wf) as Hinit.
  unfold example_dst. destruct (dst_init 3 _). apply Hinit.
Qed.

Example example_dst_victims : dst_victims example_dst = [victim_create 0 2 9].
Proof. vm_compute. reflexivity. Qed.

Lemma dst_block_ops_refine_witness :
  let this := example_dst in
  (block_valid this 5 = false ->
   let '(this', r) := dst_take_block this 5 in
   dst_wf this' /\
   match r with
   | Ok _ => forall q, 0 <= q -> block_valid this' q = if decide (q = 5) then true else block_valid this q
   | Err _ => dst_view this' = dst_view this
   end) /\
  (let '(this', r) := dst_return_block this 5 in
   dst_wf this' /\
   match r with
   | Ok _ => forall q, 0 <= q -> block_valid this' q = if decide (q = 5) then false else block_valid this q
   | Err _ => dst_view this' = dst_view this
   end).
Proof. exact (dst_block_ops_refine dst_list_range example_dst 5 example_dst_wf ltac:(lia)). Defined.

Lemma dst_pop_victim_min_witness :
  let this := example_dst in
  let '(this', o) := dst_pop_victim this in
  dst_wf this' /\ dst_view this' = dst_view this /\ dst_peek_victim this = o /\
  match o with
  | Some v => v ∈ dst_victims this /\ (forall w, w ∈ dst_victims this -> v_nr_valid v <= v_nr_valid w) /\
      (forall w, w ∈ dst_victims this' <-> w ∈ dst_victims this /\ w <> v) /\
      (v_segno v <> d_logging_segno this -> dst_view this !! Z.to_nat (v_segno v) =
         Some {| nr_valid_block := v_nr_valid v; block_validity_table := v_table v |})
  | None => dst_victims this = []
  end.
Proof. exact (dst_pop_victim_min example_dst example_dst_wf). Defined.

Lemma dst_init_rebuilds_witness :
  let a : darr := example_entries in
  let '(this, r) := dst_init 3 a in
  dst_wf this /\ dst_view this = darr_view a /\
  (r = Ok tt -> forall s e, 0 <= s < 3 -> darr_view a !! Z.to_nat s = Some e ->
     0 < nr_valid_block e < BLOCKS_PER_SEGMENT -> exists v, v ∈ dst_victims this /\ v_segno v = s).
Proof. exact (dst_init_rebuilds 3 example_entries example_entries_wf). Defined.

Lemma dst_format_empties_witness :
  exists this' r, dst_format example_dst = Some (this', r) /\
    (r = Ok tt -> dst_wf this' /\ (forall q, block_valid this' q = false) /\
       dst_victims this' = [] /\ d_logging_segno this' = INF_ADDR).
Proof. exact (dst_format_empties example_dst example_dst_wf eq_refl). Defined.

(** Segments 0 and 1 are in use. *)
Definition example_logging : logging_state :=
  {| ls_dst := example_dst;
     ls_svt := {| sv_nr_segment := 3; sv_cur_segment := 2; sv_table := {| bs_nr_bit := 3; bs_array := [3] |} |};
     ls_nr_valid_segment := 2 |}.

Lemma example_logging_ok : sv_wf (ls_svt example_logging) /\ free_agree example_logging.
Proof.
  split; [split; cbn; [split; cbn; [|lia|done]|done|lia]; repeat constructor; lia|]. split; [done|].
  intros s Hs Hfree. pose proof (lookup_lt_Some _ _ _ Hfree) as Hlt. change (length _) with 3%nat in Hlt.
  assert (s = 0 \/ s = 1 \/ s = 2) as [->|[->| ->]] by lia; [done..|].
  split; [vm_compute; discriminate|]. split.
  - change (dst_victims (ls_dst example_logging)) with (dst_victims example_dst).
    rewrite example_dst_victims. intros v ->%list_elem_of_singleton. done.
  - intros e. by intros [= <-].
Qed.

Example example_logging_block : option_map snd (dst_find_logging_block example_logging) = Some (Ok 1).
Proof. vm_compute. reflexivity. Qed.

Lemma dst_find_logging_block_correct_witness :
  let st := example_logging in
  exists st' r, dst_find_logging_block st = Some (st', r) /\
    dst_wf (ls_dst st') /\ sv_wf (ls_svt st') /\
    match r with
    | Ok pba => block_valid (ls_dst st) pba = false /\
        0 <= pba < d_nr_segment (ls_dst st) * BLOCKS_PER_SEGMENT /\
        (forall q, 0 <= q -> block_valid (ls_dst st') q = if decide (q = pba) then true else block_valid (ls_dst st) q) /\
        d_logging_segno (ls_dst st') = __block_to_segment pba /\ free_agree st'
    | Err _ => dst_view (ls_dst st') = dst_view (ls_dst st)
    end.
Proof.
  exact (dst_find_logging_block_correct dst_list_range example_logging example_dst_wf
           (proj1 example_logging_ok) (proj2 example_logging_ok)).
Defined.
