(* ===== verification/BitCatalogue.v ===== *)
(** * BitCatalogue: the catalogue of block index tables

    [struct bit_catalogue] of [kernel-module/c/src/metadata.c], the
    implementation of [struct lsm_catalogue] of [lsm_tree.h]: which file slots
    of the index region are taken (a segment validator) and the statistics of
    each file (a disk array), and the formatting of the whole metadata. *)
From S2P Require Import Prelude Layout Bytes RbTree DiskStructs SegValidator Rit Dst.

Record file_stat : Type := FileStat {
  fs_root : Z;
  fs_root_key : list Z;
  fs_root_iv : list Z;
  fs_id : Z;
  fs_level : Z;
  fs_version : Z;
  fs_first_key : Z;
  fs_last_key : Z;
  fs_nr_record : Z
}.

#[export] Instance file_stat_eq_dec : EqDecision file_stat.
Proof. solve_decision. Defined.

Record bit_catalogue `{ArrayIntf Z} `{ArrayIntf file_stat} : Type := BitCatalogue {
  bc_max_version : Z;
  bc_validity : seg_validator;
  bc_file_stats : darr (E := file_stat)
}.

Section bit_catalogue.
Context `{ArraySpec Z} `{!GroupArray} `{ArraySpec file_stat}.
Implicit Types (this : bit_catalogue).

Definition bc_with_validity this v : bit_catalogue :=
  {| bc_max_version := bc_max_version this; bc_validity := v; bc_file_stats := bc_file_stats this |}.
Definition bc_with_stats this a : bit_catalogue :=
  {| bc_max_version := bc_max_version this; bc_validity := bc_validity this; bc_file_stats := a |}.

Definition bitc_alloc_file this : bit_catalogue * result Z :=
  match seg_validator_next (bc_validity this) with
  | (v, Err e) => (bc_with_validity this v, Err e)
  | (v, Ok fd) =>
      match seg_validator_take v fd with
      | (v, Err e) => (bc_with_validity this v, Err e)
      | (v, Ok _) => (bc_with_validity this v, Ok fd)
      end
  end.

Definition bitc_release_file this (fd : Z) : bit_catalogue * result unit :=
  match seg_validator_test_and_return (bc_validity this) fd with
  | (v, Err e) => (bc_with_validity this v, Err e)
  | (v, Ok _) => (bc_with_validity this v, Ok tt)
  end.

Definition bitc_set_file_stats this (fd : Z) (stats : file_stat) : bit_catalogue * result unit :=
  let '(a, r) := darr_set (bc_file_stats this) fd stats in (bc_with_stats this a, r).

Definition bitc_get_file_stats this (fd : Z) : bit_catalogue * result file_stat :=
  match darr_get (bc_file_stats this) fd with
  | (a, Ok info) => (bc_with_stats this a, Ok info)
  | (a, Err _) => (bc_with_stats this a, Err ENODATA)
  end.

(** The list gathered so far is left to the caller on an error; a slot in use
    whose statistics cannot be read is passed over. *)
Fixpoint get_all_loop (n : nat) (i : Z) this (stats : list file_stat)
  : bit_catalogue * list file_stat * result unit :=
  match n with
  | O => (this, stats, Ok tt)
  | S n =>
      match disk_bitset_get (sv_table (bc_validity this)) i with
      | (t, Err e) => (bc_with_validity this (with_table (bc_validity this) t), stats, Err e)
      | (t, Ok valid) =>
          let this := bc_with_validity this (with_table (bc_validity this) t) in
          if (valid : bool) then
            match darr_get (bc_file_stats this) i with
            | (a, Ok stat) => get_all_loop n (i + 1) (bc_with_stats this a) (stats ++ [stat])
            | (a, Err _) => get_all_loop n (i + 1) (bc_with_stats this a) stats
            end
          else get_all_loop n (i + 1) this stats
      end
  end.

Definition bitc_get_all_file_stats this : bit_catalogue * list file_stat * result unit :=
  get_all_loop (Z.to_nat (sv_nr_segment (bc_validity this))) 0 this [].

(** [return this->max_version++;] *)
Definition bitc_get_next_version this : bit_catalogue * Z :=
  ({| bc_max_version := u64 (bc_max_version this + 1); bc_validity := bc_validity this;
      bc_file_stats := bc_file_stats this |}, bc_max_version this).

Definition max_version_step (max_version : Z) (info : file_stat) : Z :=
  if max_version <? fs_version info then u64 (fs_version info + 1) else max_version.

Definition bitc_get_current_version this : bit_catalogue * Z :=
  let '(this, file_stats, _) := bitc_get_all_file_stats this in
  (this, fold_left max_version_step file_stats 0).

Definition bit_catalogue_format this : bit_catalogue * result unit :=
  match seg_validator_format (bc_validity this) with
  | (v, Err e) => (bc_with_validity this v, Err e)
  | (v, Ok _) =>
      let '(a, r) := darr_format (bc_file_stats this) false in
      (bc_with_stats (bc_with_validity this v) a, r)
  end.

(** ** The files of the catalogue *)

Record bc_wf this : Prop := {
  bc_wf_validity : sv_wf (bc_validity this);
  bc_wf_stats : darr_ok (bc_file_stats this);
  bc_wf_length : Z.of_nat (length (darr_view (bc_file_stats this))) = sv_nr_segment (bc_validity this)
}.

(** The slots in use, and what the catalogue knows of each. *)
Definition bc_slots this : list bool := sv_view (bc_validity this).
Definition bc_stats this : list file_stat := darr_view (bc_file_stats this).

(** The statistics of the files in use, in slot order. *)
Fixpoint live_stats (slots : list bool) (stats : list file_stat) : list file_stat :=
  match slots, stats with
  | true :: slots, s :: stats => s :: live_stats slots stats
  | false :: slots, _ :: stats => live_stats slots stats
  | _, _ => []
  end.

Definition stats_reliable : Prop := forall (a : darr (E := file_stat)) i,
  darr_ok a -> 0 <= i < Z.of_nat (length (darr_view a)) -> is_ok (darr_get a i).2 = true.

Lemma live_stats_drop (slots : list bool) (stats : list file_stat) (i : nat) (b : bool) s :
  slots !! i = Some b -> stats !! i = Some s ->
  live_stats (drop i slots) (drop i stats) =
    (if b then [s] else []) ++ live_stats (drop (S i) slots) (drop (S i) stats).
Proof. intros Hb Hs. rewrite (drop_S _ _ _ Hb), (drop_S _ _ _ Hs). cbn. by destruct b. Qed.

Lemma get_all_loop_spec n : forall i this stats this' stats' r, bc_wf this -> 0 <= i ->
  i + Z.of_nat n = sv_nr_segment (bc_validity this) ->
  get_all_loop n i this stats = (this', stats', r) ->
  bc_wf this' /\ bc_slots this' = bc_slots this /\ bc_stats this' = bc_stats this /\
  (reliable -> stats_reliable -> r = Ok tt /\
   stats' = stats ++ live_stats (drop (Z.to_nat i) (bc_slots this)) (drop (Z.to_nat i) (bc_stats this))).
Proof.
  induction n as [|n IH]; intros i this stats this' stats' r Hwf Hi Hn; cbn [get_all_loop].
  { intros [= <- <- <-]. split; [done|]. split; [done|]. split; [done|]. intros _ _. split; [done|].
    rewrite drop_ge; [by rewrite app_nil_r|]. unfold bc_slots. rewrite sv_view_length by apply Hwf. lia. }
  pose proof Hwf as [Hv Ha Hlen].
  destruct (disk_bitset_get (sv_table (bc_validity this)) i) as [t rb] eqn:Hget.
  apply sv_get_step in Hget as (Ht & Hnb & Hvt & Hb & Hrel); [|done|lia].
  pose proof (with_table_only_wf _ t Hv Ht Hnb) as Hv1. set (v1 := with_table (bc_validity this) t) in *.
  assert (sv_view v1 = bc_slots this) as Hview1 by (unfold sv_view; subst v1; cbn; by rewrite Hvt).
  destruct rb as [b|e].
  2: { intros [= <- <- <-]. split; [by split|]. split; [done|]. split; [done|]. intros Hr. by specialize (Hrel Hr). }
  specialize (Hb b eq_refl).
  assert (exists s, bc_stats this !! Z.to_nat i = Some s) as [s Hs].
  { apply lookup_lt_is_Some_2. unfold bc_stats. lia. }
  assert (bc_wf (bc_with_validity this v1)) as Hwf1 by (by split).
  pose proof (live_stats_drop _ _ _ _ _ Hb Hs) as Hdrop. fold (bc_slots this) in Hdrop. rewrite Hdrop.
  destruct b.
  - cbn [bc_file_stats bc_with_validity]. destruct (darr_get (bc_file_stats this) i) as [a rs] eqn:Hgs.
    pose proof Hgs as Hgs'. apply darr_get_spec in Hgs as (Hok & Hva & Hrs); [|done..].
    assert (bc_wf (bc_with_stats (bc_with_validity this v1) a)) as Hwf2 by (split; cbn; [done|done|by rewrite Hva]).
    set (this2 := bc_with_stats (bc_with_validity this v1) a) in *.
    assert (bc_slots this2 = bc_slots this) as Hsl2 by exact Hview1.
    assert (bc_stats this2 = bc_stats this) as Hst2 by exact Hva.
    destruct rs as [st|e]; intros Hrun; apply IH in Hrun as (Hw & Hsl & Hst & Hall); try done; try (cbn; lia);
      rewrite Hsl2, Hst2 in *; (split; [done|]); (split; [done|]); (split; [done|]); intros Hr1 Hr2.
    + destruct (Hall Hr1 Hr2) as [-> ->]. split; [done|]. rewrite <- app_assoc. cbn [app].
      destruct Hrs as [Hrs|Hrs]; [|done]. symmetry in Hrs. apply array_get_ok in Hrs as [_ Hrs].
      unfold bc_stats in Hs. assert (st = s) as -> by congruence.
      by replace (Z.to_nat (i + 1)) with (S (Z.to_nat i)) by lia.
    + pose proof (Hr2 (bc_file_stats this) i Ha ltac:(lia)) as Hf. by rewrite Hgs' in Hf.
  - set (this2 := bc_with_validity this v1) in *.
    assert (bc_slots this2 = bc_slots this) as Hsl2 by exact Hview1.
    intros Hrun. apply IH in Hrun as (Hw & Hsl & Hst & Hall); try done; try (cbn; lia).
    rewrite Hsl2 in *. split; [done|]. split; [done|]. split; [done|]. intros Hr1 Hr2.
    destruct (Hall Hr1 Hr2) as [-> ->]. split; [done|].
    by replace (Z.to_nat (i + 1)) with (S (Z.to_nat i)) by lia.
Qed.

(** The catalogue hands out a free file slot and marks that slot only;
    [-ENODATA] means that no slot is free (when every bit can be read).
    [get_all_file_stats] returns the statistics of exactly the slots in use, in
    slot order, when the table can be read, and changes nothing. *)
Theorem bit_catalogue_files this : bc_wf this ->
  (let '(this', r) := bitc_alloc_file this in
   bc_wf this' /\ bc_stats this' = bc_stats this /\
   match r with
   | Ok fd => bc_slots this !! Z.to_nat fd = Some false /\ bc_slots this' = <[Z.to_nat fd := true]> (bc_slots this)
   | Err e => bc_slots this' = bc_slots this
   end) /\
  (let '(this', stats, r) := bitc_get_all_file_stats this in
   bc_slots this' = bc_slots this /\ bc_stats this' = bc_stats this /\
   (reliable -> stats_reliable -> r = Ok tt /\ stats = live_stats (bc_slots this) (bc_stats this))).
Proof.
  intros Hwf. pose proof Hwf as [Hv Ha Hlen]. split.
  - unfold bitc_alloc_file. pose proof (seg_validator_next_map (bc_validity this) Hv) as Hnext.
    destruct (seg_validator_next (bc_validity this)) as [v [fd|e]]; destruct Hnext as (Hv1 & Hview & Hn & Hr).
    2: { split; [by split; cbn; rewrite ?Hn|]. done. }
    destruct Hr as (Hfd & _ & Hfree). pose proof (seg_validator_take_map v fd Hv1 (proj1 Hfd)) as Htake.
    destruct (seg_validator_take v fd) as [v' [u|e]]; destruct Htake as (Hv2 & Hn2 & Hr2);
      (split; [split; cbn; [done|done|congruence]|]); (split; [done|]).
    + split; [done|]. destruct Hr2 as [_ Hr2]. unfold bc_slots. cbn. by rewrite Hr2, Hview.
    + unfold bc_slots. cbn. by rewrite Hr2, Hview.
  - destruct (bitc_get_all_file_stats this) as [[this' stats] r] eqn:Hrun.
    apply get_all_loop_spec in Hrun as (_ & Hs & Hst & Hall); [|done|lia|].
    + split; [done|]. split; [done|]. intros Hr1 Hr2. by destruct (Hall Hr1 Hr2).
    + pose proof (bs_wf_nr _ (sv_wf_bitset _ Hv)). rewrite (sv_wf_nr _ Hv) in *. lia.
Qed.

(** A file that is released frees its slot and no other, and formatting the
    catalogue leaves no file. *)
Theorem bit_catalogue_release_format this fd : bc_wf this -> 0 <= fd < sv_nr_segment (bc_validity this) ->
  (let '(this', r) := bitc_release_file this fd in
   bc_wf this' /\ bc_stats this' = bc_stats this /\
   bc_slots this' = (if is_ok r then <[Z.to_nat fd := false]> (bc_slots this) else bc_slots this)) /\
  (let '(this', r) := bit_catalogue_format this in
   r = Ok tt -> bc_wf this' /\ Forall (eq false) (bc_slots this')).
Proof.
  intros Hwf Hfd. pose proof Hwf as [Hv Ha Hlen]. split.
  - unfold bitc_release_file. pose proof (seg_validator_return_map (bc_validity this) fd Hv Hfd) as Hret.
    destruct (seg_validator_test_and_return (bc_validity this) fd) as [v [b|e]]; destruct Hret as (Hv1 & Hn & Hr);
      (split; [by split; cbn; rewrite ?Hn|]); (split; [done|]); cbn; unfold bc_slots; cbn; [by destruct Hr|done].
  - unfold bit_catalogue_format. pose proof (seg_validator_format_map (bc_validity this) Hv) as Hf.
    destruct (seg_validator_format (bc_validity this)) as [v [[]|e]]; [|done]. destruct Hf as (Hv1 & Hn & Hr).
    destruct (darr_format (bc_file_stats this) false) as [a r] eqn:Hfa.
    apply darr_format_spec in Hfa as (Hok & Hl & _); [|done]. intros _. destruct (Hr eq_refl) as [Hview _].
    split; [split; cbn; [done|done|by rewrite Hl, Hn]|]. unfold bc_slots. cbn. rewrite Hview. by apply Forall_replicate.
Qed.

(** Versions order the files, newer ones first. Within a run they are
    distinct, but the version recomputed when a device is opened can be that of
    an existing file: with files of consecutive versions [v] and [v + 1] in slot
    order, the next version handed out is [v + 1] again. *)
Theorem bitc_current_version_repeats (f g : file_stat) :
  0 <= fs_version f -> fs_version g = fs_version f + 1 -> fs_version g < 2 ^ 64 - 1 -> 1 <= fs_version f ->
  fold_left max_version_step [f; g] 0 = fs_version g.
Proof.
  intros Hf Hg Hb H1f. unfold max_version_step. cbn [fold_left].
  destruct (Z.ltb_spec 0 (fs_version f)); [|lia]. rewrite u64_small by lia.
  destruct (Z.ltb_spec (fs_version f + 1) (fs_version g)); lia.
Qed.
(** ** Clients of the catalogue *)

Lemma bitc_alloc_works this i : reliable -> writable -> bc_wf this -> bc_slots this !! i = Some false ->
  exists this' fd, bitc_alloc_file this = (this', Ok fd) /\ bc_wf this' /\ bc_max_version this' = bc_max_version this /\
    0 <= fd < Z.of_nat (length (bc_slots this)) /\ bc_slots this !! Z.to_nat fd = Some false /\
    bc_slots this' = <[Z.to_nat fd := true]> (bc_slots this).
Proof.
  intros Hrel Hwr [Hv Ha Hl] Hi. destruct (sv_alloc_works (bc_validity this) i Hrel Hwr Hv Hi) as (v & fd & v' & Hn & Ht & Hv' & Hnr & Hfd & Hfree & Hview).
  exists (bc_with_validity this v'), fd. unfold bitc_alloc_file. rewrite Hn, Ht. split; [done|].
  split; [split; cbn; [done|done|congruence]|]. split; [done|]. split; [unfold bc_slots; rewrite sv_view_length by done; lia|]. done.
Qed.

Lemma bitc_release_works this fd : reliable -> writable -> bc_wf this -> 0 <= fd < Z.of_nat (length (bc_slots this)) ->
  exists this', bitc_release_file this fd = (this', Ok tt) /\ bc_wf this' /\ bc_max_version this' = bc_max_version this /\
    bc_slots this' = <[Z.to_nat fd := false]> (bc_slots this).
Proof.
  intros Hrel Hwr [Hv Ha Hl] Hfd. unfold bc_slots in Hfd. rewrite sv_view_length in Hfd by done.
  destruct (sv_return_works (bc_validity this) fd Hrel Hwr Hv ltac:(lia)) as (v & old & Hr & Hv' & Hnr & Hview).
  exists (bc_with_validity this v). unfold bitc_release_file. rewrite Hr. split; [done|].
  split; [split; cbn; [done|done|congruence]|]. done.
Qed.

Lemma bitc_set_stats_frame this fd s : bc_wf this -> 0 <= fd -> darr_entry_ok s ->
  let this' := (bitc_set_file_stats this fd s).1 in
  bc_wf this' /\ bc_max_version this' = bc_max_version this /\ bc_slots this' = bc_slots this.
Proof.
  intros [Hv Ha Hl] Hfd Hs. unfold bitc_set_file_stats. destruct (darr_set (bc_file_stats this) fd s) as [a r] eqn:Hset.
  apply darr_set_spec in Hset as (Hok & Hset); [|done..]. cbn [fst]. split; [|done]. split; cbn; [done|done|].
  destruct Hset as [Hset|[-> _]]; [|done]. unfold array_set in Hset. destruct (_ || _); injection Hset as -> ->; [done|].
  by rewrite length_insert.
Qed.

Lemma bitc_next_version_frame this : bc_wf this -> bc_wf (bitc_get_next_version this).1.
Proof. intros [Hv Ha Hl]. by split. Qed.
End bit_catalogue.

(** ** Concrete runs *)

Definition zero_stat : file_stat :=
  {| fs_root := 0; fs_root_key := replicate 16 0; fs_root_iv := replicate 12 0; fs_id := 0; fs_level := 0;
     fs_version := 0; fs_first_key := 0; fs_last_key := 0; fs_nr_record := 0 |}.

Definition example_stat (version first last : Z) : file_stat :=
  {| fs_root := 0; fs_root_key := replicate 16 0; fs_root_iv := replicate 12 0; fs_id := version; fs_level := 0;
     fs_version := version; fs_first_key := first; fs_last_key := last; fs_nr_record := last - first + 1 |}.

#[export] Instance stat_list : ArrayIntf file_stat := list_array (fun _ => True) (fun _ => zero_stat).
#[export] Instance stat_list_spec : ArraySpec file_stat.
Proof. by apply list_array_spec. Qed.

(** Three slots, 0 and 2 in use. *)
Definition example_catalogue : bit_catalogue :=
  {| bc_max_version := 5;
     bc_validity := {| sv_nr_segment := 3; sv_cur_segment := 0; sv_table := {| bs_nr_bit := 3; bs_array := [5] |} |};
     bc_file_stats := [example_stat 3 0 9; zero_stat; example_stat 4 10 20] |}.

Lemma example_catalogue_wf : bc_wf example_catalogue.
Proof.
  split; cbn; [|by repeat constructor|done].
  split; cbn; [split; cbn; [|lia|done]|done|lia]. repeat constructor; lia.
Qed.

Lemma bit_catalogue_files_witness :
  let this := example_catalogue in
  (let '(this', r) := bitc_alloc_file this in
   bc_wf this' /\ bc_stats this' = bc_stats this /\
   match r with
   | Ok fd => bc_slots this !! Z.to_nat fd = Some false /\ bc_slots this' = <[Z.to_nat fd := true]> (bc_slots this)
   | Err e => bc_slots this' = bc_slots this
   end) /\
  (let '(this', stats, r) := bitc_get_all_file_stats this in
   bc_slots this' = bc_slots this /\ bc_stats this' = bc_stats this /\
   (reliable -> stats_reliable -> r = Ok tt /\ stats = live_stats (bc_slots this) (bc_stats this))).
Proof. exact (bit_catalogue_files example_catalogue example_catalogue_wf). Defined.

Lemma bit_catalogue_release_format_witness :
  let this := example_catalogue in
  (let '(this', r) := bitc_release_file this 2 in
   bc_wf this' /\ bc_stats this' = bc_stats this /\
   bc_slots this' = (if is_ok r then <[Z.to_nat 2 := false]> (bc_slots this) else bc_slots this)) /\
  (let '(this', r) := bit_catalogue_format this in
   r = Ok tt -> bc_wf this' /\ Forall (eq false) (bc_slots this')).
Proof. exact (bit_catalogue_release_format example_catalogue 2 example_catalogue_wf ltac:(cbn; lia)). Defined.

Lemma bitc_current_version_repeats_witness :
  fold_left max_version_step [example_stat 3 0 9; example_stat 4 10 20] 0 = 4.
Proof. apply (bitc_current_version_repeats (example_stat 3 0 9) (example_stat 4 10 20)); cbn; lia. Defined.

Example example_current_version : (bitc_get_current_version example_catalogue).2 = 4.
Proof. vm_compute. reflexivity. Qed.
