(* ===== verification/Metadata.v ===== *)
(** * Metadata: the superblock on the device, and formatting

    The reading, writing and validation of the superblock, and the formatting
    of the tables, of [kernel-module/c/src/metadata.c]. The authenticated cipher
    and the checksum are kernel code, given as parameters. *)
From S2P Require Import Prelude Layout Bytes RbTree DiskStructs SegValidator Rit Dst BitCatalogue.

(** ** Fields of a packed structure *)

Fixpoint encode_fields (widths : list nat) (fields : list Z) : list Z :=
  match widths, fields with
  | w :: widths, z :: fields => le_encode w z ++ encode_fields widths fields
  | _, _ => []
  end.

Fixpoint decode_fields (widths : list nat) (data : list Z) : list Z :=
  match widths with
  | w :: widths => le_decode (take w data) :: decode_fields widths (drop w data)
  | [] => []
  end.

Lemma encode_fields_length widths fields : length fields = length widths ->
  length (encode_fields widths fields) = sum_list widths.
Proof.
  revert fields. induction widths as [|w ws IH]; intros [|z zs]; cbn; try done.
  intros [= Hl]. by rewrite length_app, le_encode_length, IH.
Qed.

Lemma decode_encode_fields widths : forall fields rest,
  Forall2 (fun w z => 0 <= z < 256 ^ Z.of_nat w) widths fields ->
  decode_fields widths (encode_fields widths fields ++ rest) = fields.
Proof.
  induction widths as [|w ws IH]; intros fields rest Hall; inversion Hall as [|? z ? zs Hz Hzs]; subst; [done|].
  cbn [encode_fields decode_fields]. rewrite <- app_assoc. rewrite <- (le_encode_length w z) at 1.
  rewrite take_app_length, le_decode_encode by done. f_equal.
  rewrite <- (le_encode_length w z) at 1. rewrite drop_app_length. by apply IH.
Qed.

(** ** The image of the superblock *)

(** The [__packed] fields that are written to the device, [csum] first. *)
Definition superblock_widths : list nat :=
  [4; 8; 4; 8; 8; 4; 4; 8; 8; 4; 8; 8; 8; 8; 8; 8; 8; 8; 8]%nat.

Definition superblock_fields (sb : superblock) : list Z :=
  [csum sb; magic sb; blocks_per_seg sb; nr_segment sb; data_start sb; common_ratio sb;
   nr_disk_level sb; max_disk_level_capacity sb; index_region_start sb; journal_size sb;
   nr_journal sb; record_start sb; record_end sb; last_checkpoint_pack sb; journal_region_start sb;
   seg_validity_table_start sb; data_seg_table_start sb; reverse_index_table_start sb;
   block_index_table_catalogue_start sb].

Definition superblock_image (sb : superblock) : list Z :=
  encode_fields superblock_widths (superblock_fields sb).

Definition superblock_fits (sb : superblock) : Prop :=
  Forall2 (fun w z => 0 <= z < 256 ^ Z.of_nat w) superblock_widths (superblock_fields sb).

Definition with_csum (sb : superblock) (c : Z) : superblock :=
  {| csum := c; magic := magic sb; blocks_per_seg := blocks_per_seg sb; nr_segment := nr_segment sb;
     data_start := data_start sb; common_ratio := common_ratio sb; nr_disk_level := nr_disk_level sb;
     max_disk_level_capacity := max_disk_level_capacity sb; index_region_start := index_region_start sb;
     journal_size := journal_size sb; nr_journal := nr_journal sb; record_start := record_start sb;
     record_end := record_end sb; last_checkpoint_pack := last_checkpoint_pack sb;
     journal_region_start := journal_region_start sb; seg_validity_table_start := seg_validity_table_start sb;
     data_seg_table_start := data_seg_table_start sb; reverse_index_table_start := reverse_index_table_start sb;
     block_index_table_catalogue_start := block_index_table_catalogue_start sb |}.

(** The assignments of [superblock_read]: every field of the image but
    [last_checkpoint_pack], which keeps the value of the object. *)
Definition superblock_assign (this : superblock) (fields : list Z) : superblock :=
  match fields with
  | [c; m; bps; nr; ds; cr; nl; cap; irs; js; nj; rs; re; _; jrs; svt; dst; rit; bitc] =>
      {| csum := c; magic := m; blocks_per_seg := bps; nr_segment := nr; data_start := ds;
         common_ratio := cr; nr_disk_level := nl; max_disk_level_capacity := cap;
         index_region_start := irs; journal_size := js; nr_journal := nj; record_start := rs;
         record_end := re; last_checkpoint_pack := last_checkpoint_pack this;
         journal_region_start := jrs; seg_validity_table_start := svt; data_seg_table_start := dst;
         reverse_index_table_start := rit; block_index_table_catalogue_start := bitc |}
  | _ => this
  end.

(** [struct aead_cipher]: decryption of a ciphertext under its key, iv and
    authentication tag gives back the plaintext. *)
Class AeadCipher : Type := {
  aead_encrypt : list Z -> list Z -> list Z -> result (list Z * list Z);
  aead_decrypt : list Z -> list Z -> list Z -> list Z -> result (list Z)
}.

Class AeadCipherSpec `{AeadCipher} : Prop := {
  aead_decrypt_encrypt : forall key iv data out mac,
    aead_encrypt key iv data = Ok (out, mac) -> aead_decrypt key iv mac out = Ok data;
  aead_encrypt_length : forall key iv data out mac,
    aead_encrypt key iv data = Ok (out, mac) -> length out = length data /\ length mac = 16%nat
}.

Section superblock.
Context `{AeadCipherSpec} `{BufioSpec}.
Context (crc32_be : Z -> list Z -> Z) (crc_range : forall init l, 0 <= crc32_be init l < 2 ^ 32).
Context (root_key root_iv : list Z).
Implicit Types (this : superblock) (s : bufio).

Definition SUPERBLOCK_CSUM_XOR : Z := 0x3828.

Definition crc32_checksum (data : list Z) (init_xor : Z) : Z :=
  Z.lxor (crc32_be (2 ^ 32 - 1) data) init_xor.

(** The checksum covers the image from [magic] on. *)
Definition superblock_csum this : Z :=
  crc32_checksum (drop 4 (superblock_image this)) SUPERBLOCK_CSUM_XOR.

(** The encrypted fields lie at the start of block 0, their tag after them. *)
Definition superblock_bytes : nat := Z.to_nat SUPERBLOCK_ENCRYPTED_SIZE.

Definition superblock_write this s : bufio * result superblock :=
  match dm_bufio_read s SUPERBLOCK_LOCATION with
  | (s, Err e) => (s, Err e)
  | (s, Ok data) =>
      let this := with_csum this (superblock_csum this) in
      match aead_encrypt root_key root_iv (superblock_image this) with
      | Err e => (s, Err e)
      | Ok (out, root_mac) =>
          (bufio_store s SUPERBLOCK_LOCATION (splice superblock_bytes root_mac (splice 0 out data)), Ok this)
      end
  end.

(** The fields are decrypted in the buffer. *)
Definition superblock_read this s : bufio * result superblock :=
  match dm_bufio_read s SUPERBLOCK_LOCATION with
  | (s, Err e) => (s, Err e)
  | (s, Ok data) =>
      let root_mac := slice superblock_bytes 16 data in
      match aead_decrypt root_key root_iv root_mac (slice 0 superblock_bytes data) with
      | Err e => (s, Err e)
      | Ok plain =>
          (bufio_store s SUPERBLOCK_LOCATION (splice 0 plain data),
           Ok (superblock_assign this (decode_fields superblock_widths plain)))
      end
  end.

Definition superblock_validate this : bool :=
  if negb (magic this =? SUPERBLOCK_MAGIC) then false
  else superblock_csum this =? csum this.

(** [superblock_init]; [this] is the [kmalloc]ed object. *)
Definition superblock_init (NR_SEGMENT : Z) (format : bool) this s : bufio * result superblock :=
  if format then
    superblock_write (superblock_format NR_SEGMENT (csum this) (last_checkpoint_pack this)) s
  else
    match superblock_read this s with
    | (s, Err e) => (s, Err e)
    | (s, Ok this) => if superblock_validate this then (s, Ok this) else (s, Err EACCES)
    end.

(** ** Writing and reading back *)

Definition with_last_checkpoint_pack (sb : superblock) (p : Z) : superblock :=
  superblock_assign {| csum := 0; magic := 0; blocks_per_seg := 0; nr_segment := 0; data_start := 0;
    common_ratio := 0; nr_disk_level := 0; max_disk_level_capacity := 0; index_region_start := 0;
    journal_size := 0; nr_journal := 0; record_start := 0; record_end := 0; last_checkpoint_pack := p;
    journal_region_start := 0; seg_validity_table_start := 0; data_seg_table_start := 0;
    reverse_index_table_start := 0; block_index_table_catalogue_start := 0 |} (superblock_fields sb).

Lemma lxor_range a b : 0 <= a < 2 ^ 32 -> 0 <= b < 2 ^ 32 -> 0 <= Z.lxor a b < 2 ^ 32.
Proof.
  intros Ha Hb. apply bitmap_bound; [lia|apply Z.lxor_nonneg; lia|]. intros k Hk.
  rewrite Z.lxor_spec, (bitmap_high 32 a), (bitmap_high 32 b) by done. done.
Qed.

Lemma superblock_csum_range this : 0 <= superblock_csum this < 2 ^ 32.
Proof using crc_range. apply lxor_range; [apply crc_range|]. by vm_compute. Qed.

Lemma fits_with_csum this c : superblock_fits this -> 0 <= c < 2 ^ 32 -> superblock_fits (with_csum this c).
Proof.
  unfold superblock_fits, superblock_fields, superblock_widths. intros Hf Hc.
  inversion Hf as [|? ? ? ? _ Hrest]; subst. constructor; [exact Hc|exact Hrest].
Qed.

Lemma image_length this : length (superblock_image this) = superblock_bytes.
Proof. unfold superblock_image. by rewrite encode_fields_length. Qed.

Lemma image_csum this c : drop 4 (superblock_image (with_csum this c)) = drop 4 (superblock_image this).
Proof. reflexivity. Qed.

(** What a read of the block finds after [superblock_write]. *)
Definition stored_superblock this (data : list Z) : Prop :=
  exists out mac, aead_encrypt root_key root_iv (superblock_image this) = Ok (out, mac) /\
    slice 0 superblock_bytes data = out /\ slice superblock_bytes 16 data = mac.

Lemma superblock_write_stores this s s' this' : (forall d, bufio_cached s 0 = Some d -> length d = 4096%nat) ->
  superblock_write this s = (s', Ok this') ->
  this' = with_csum this (superblock_csum this) /\
  exists data, bufio_cached s' SUPERBLOCK_LOCATION = Some data /\ stored_superblock this' data /\ length data = 4096%nat.
Proof.
  intros Hlen. unfold superblock_write. destruct (dm_bufio_read s SUPERBLOCK_LOCATION) as [s1 [data|]] eqn:Hread; [|done].
  apply bufio_read_ok in Hread as (Hd & _).
  assert (length data = 4096%nat) as Hdata.
  { subst data. unfold SUPERBLOCK_LOCATION. destruct (bufio_cached s 0) as [d|] eqn:Hc; cbn; [by apply Hlen|].
    apply bufio_device_length. }
  destruct (aead_encrypt _ _ _) as [[out mac]|] eqn:Henc; [|done]. intros [= <- <-]. split; [done|].
  pose proof (aead_encrypt_length _ _ _ _ _ Henc) as [Hlo Hlm]. rewrite image_length in Hlo.
  assert (superblock_bytes = 132%nat) as Hsb by done.
  assert (length (splice 0 out data) = 4096%nat) as Hl1 by (rewrite splice_length; lia).
  eexists. split; [apply bufio_store_same|]. split; [|rewrite splice_length; lia].
  exists out, mac. split; [done|]. split.
  - rewrite slice_splice_other by lia. apply slice_splice_exact; lia.
  - apply slice_splice_exact; lia.
Qed.

Lemma decode_image this : superblock_fits this ->
  decode_fields superblock_widths (superblock_image this) = superblock_fields this.
Proof.
  intros Hf. unfold superblock_image. rewrite <- (app_nil_r (encode_fields _ _)). by apply decode_encode_fields.
Qed.

Lemma superblock_read_back this this0 s : superblock_fits this ->
  (forall s1 data, dm_bufio_read s SUPERBLOCK_LOCATION = (s1, Ok data) -> stored_superblock this data) ->
  forall s' r, superblock_read this0 s = (s', Ok r) ->
  r = with_last_checkpoint_pack this (last_checkpoint_pack this0).
Proof.
  intros Hf Hst s' r. unfold superblock_read.
  destruct (dm_bufio_read s SUPERBLOCK_LOCATION) as [s1 [data|]] eqn:Hread; [|done].
  destruct (Hst s1 data eq_refl) as (out & mac & Henc & -> & ->).
  rewrite (aead_decrypt_encrypt _ _ _ _ _ Henc), decode_image by done. intros [= _ <-]. reflexivity.
Qed.

(** C25. A superblock that was written, and has reached the device, is read back
    with every field as written except [last_checkpoint_pack], which is covered
    by the checksum but not restored: the reload passes [superblock_validate]
    exactly when the object that is read into happens to hold a value with the
    same checksum as the one written (the same value, for instance). *)
Theorem superblock_reload this this0 s s1 s2 this' :
  superblock_fits this -> magic this = SUPERBLOCK_MAGIC ->
  (forall d, bufio_cached s 0 = Some d -> length d = 4096%nat) ->
  superblock_write this s = (s1, Ok this') ->
  s2 = bufio_write_drop (fun d => d) s1 SUPERBLOCK_LOCATION ->
  forall s3 r, superblock_read this0 s2 = (s3, Ok r) ->
  let p := last_checkpoint_pack this0 in
  r = with_last_checkpoint_pack this' p /\
  (superblock_validate r = true <->
   superblock_csum (with_last_checkpoint_pack this p) = superblock_csum this).
Proof using H0 H2 crc_range.
  intros Hf Hmagic Hlen Hw -> s3 r Hr. cbv zeta.
  apply superblock_write_stores in Hw as (-> & data & Hc & Hst & Hld); [|done].
  assert (r = with_last_checkpoint_pack (with_csum this (superblock_csum this)) (last_checkpoint_pack this0)) as ->.
  { eapply superblock_read_back; [apply fits_with_csum; [done|apply superblock_csum_range]| |exact Hr].
    intros s4 data4 Hread. apply bufio_read_ok in Hread as (Hd & _).
    destruct (bufio_drop_same (fun d => d) s1 SUPERBLOCK_LOCATION data Hc Hld) as [Hnone Hdev].
    rewrite Hnone in Hd. cbn in Hd. congruence. }
  split; [done|]. unfold superblock_validate. cbn [magic with_last_checkpoint_pack superblock_assign superblock_fields with_csum csum].
  rewrite Hmagic, Z.eqb_refl. cbn [negb]. rewrite Z.eqb_eq. reflexivity.
Qed.
End superblock.

(** ** Formatting the tables *)

Record metadata `{ArrayIntf Z} `{ArrayIntf reverse_index_entry} `{ArrayIntf dst_entry} `{ArrayIntf file_stat} : Type := Metadata_ {
  md_seg_validator : seg_validator;
  md_rit : reverse_index_table;
  md_dst : dst;
  md_bit_catalogue : bit_catalogue
}.

Section metadata.
Context `{ArraySpec Z} `{!GroupArray} `{ArraySpec reverse_index_entry} `{ArraySpec dst_entry} `{ArraySpec file_stat} `{RbTreeSpec}.

(** Each table in turn, until one fails. *)
Definition metadata_format (this : metadata) : option (metadata * result unit) :=
  match seg_validator_format (md_seg_validator this) with
  | (v, Err e) => Some ({| md_seg_validator := v; md_rit := md_rit this; md_dst := md_dst this;
                           md_bit_catalogue := md_bit_catalogue this |}, Err e)
  | (v, Ok _) =>
      match reverse_index_table_format (md_rit this) with
      | (rit, Err e) => Some ({| md_seg_validator := v; md_rit := rit; md_dst := md_dst this;
                                 md_bit_catalogue := md_bit_catalogue this |}, Err e)
      | (rit, Ok _) =>
          match dst_format (md_dst this) with
          | None => None
          | Some (dst, Err e) => Some ({| md_seg_validator := v; md_rit := rit; md_dst := dst;
                                          md_bit_catalogue := md_bit_catalogue this |}, Err e)
          | Some (dst, Ok _) =>
              let '(bitc, r) := bit_catalogue_format (md_bit_catalogue this) in
              Some ({| md_seg_validator := v; md_rit := rit; md_dst := dst; md_bit_catalogue := bitc |}, r)
          end
      end
  end.
End metadata.

(** ** Concrete runs *)

(** A cipher that adds one to every byte, with the sum of the bytes as tag. *)
#[export] Instance sum_aead : AeadCipher := {|
  aead_encrypt _ _ data := Ok ((fun b => b + 1) <$> data, replicate 16 (foldr Z.add 0 data));
  aead_decrypt _ _ mac data :=
    let plain := (fun b => b - 1) <$> data in
    if decide (mac = replicate 16 (foldr Z.add 0 plain)) then Ok plain else Err EBADMSG
|}.

#[export] Instance sum_aead_spec : AeadCipherSpec.
Proof.
  split; cbn.
  - intros key iv data out mac [= <- <-]. rewrite <- list_fmap_compose.
    assert (((fun b => b - 1) ∘ (fun b => b + 1)) <$> data = data) as ->.
    { rewrite <- (list_fmap_id data) at 2. apply list_fmap_ext. intros. cbn. lia. }
    by rewrite decide_True.
  - intros key iv data out mac [= <- <-]. rewrite length_fmap. done.
Qed.

Definition example_crc (init : Z) (l : list Z) : Z := foldr (fun b a => (b + 3 * a) mod 2 ^ 32) init l mod 2 ^ 32.

Definition example_superblock : superblock := superblock_format 1000 0 0.

Lemma example_superblock_fits : superblock_fits example_superblock.
Proof. apply (bool_decide_unpack _). vm_compute. exact I. Qed.

Lemma superblock_reload_witness :
  let csum_of := superblock_csum example_crc in
  let w := superblock_write example_crc [] [] example_superblock example_bufio in
  let s2 := bufio_write_drop (fun d => d) w.1 SUPERBLOCK_LOCATION in
  match superblock_read [] [] example_superblock s2 with
  | (_, Ok r) =>
      r = with_last_checkpoint_pack (with_csum example_superblock (csum_of example_superblock)) 0 /\
      (superblock_validate example_crc r = true <->
       csum_of (with_last_checkpoint_pack example_superblock 0) = csum_of example_superblock)
  | (_, Err _) => False
  end.
Proof.
  cbv zeta. destruct (superblock_read [] [] example_superblock _) as [s3 [r|e]] eqn:Hr.
  - refine (superblock_reload example_crc (fun i l => Z.mod_pos_bound _ _ _) [] [] example_superblock example_superblock
      example_bufio _ _ _ example_superblock_fits _ _ _ eq_refl s3 r Hr).
    + lia.
    + reflexivity.
    + intros d Hd. discriminate Hd.
    + vm_compute. reflexivity.
  - assert ((superblock_read [] [] example_superblock
      (bufio_write_drop (fun d => d) (superblock_write example_crc [] [] example_superblock example_bufio).1
         SUPERBLOCK_LOCATION)).2 = Err e) as Herr by (by rewrite Hr).
    vm_compute in Herr. discriminate Herr.
Defined.
