(* ===== verification/Crypto.v ===== *)
(** * Crypto: the ciphers of the module

    [kernel-module/c/src/crypto.c]: the gcm(aes) and cbc(aes) objects around the
    kernel's crypto API, which is a parameter. They discharge the interfaces
    [AeadCipher] and [Skcipher] the other parts are verified against. Allocation
    and the interruptible locks are supposed to succeed. *)
From S2P Require Import Prelude Layout Bytes DiskStructs Metadata.

(** ** The kernel's crypto API

    Keys and ivs have the length the algorithm asks for. gcm takes the
    associated data apart from the data; a cbc request whose length is no
    multiple of the block size is refused with [-EINVAL]. *)
Class CryptoApi : Type := {
  crypto_aead_encrypt : list Z -> list Z -> list Z -> list Z -> result (list Z * list Z);
  crypto_aead_decrypt : list Z -> list Z -> list Z -> list Z -> list Z -> result (list Z);
  crypto_skcipher_encrypt : list Z -> list Z -> list Z -> result (list Z);
  crypto_skcipher_decrypt : list Z -> list Z -> list Z -> result (list Z);
  crc32_be : Z -> list Z -> Z
}.

Definition AES_CBC_BLOCK_SIZE : Z := 16.
Definition AES_CBC_BLOCK_MASK : Z := AES_CBC_BLOCK_SIZE - 1.
Definition AES_CBC_KEY_SIZE : Z := 16.
Definition AES_CBC_IV_SIZE : Z := 16.

Class CryptoApiSpec `{CryptoApi} : Prop := {
  crypto_aead_decrypt_encrypt : forall key iv assoc data out mac,
    crypto_aead_encrypt key iv assoc data = Ok (out, mac) -> crypto_aead_decrypt key iv assoc out mac = Ok data;
  crypto_aead_encrypt_length : forall key iv assoc data out mac,
    crypto_aead_encrypt key iv assoc data = Ok (out, mac) -> length out = length data /\ length mac = 16%nat;
  crypto_aead_decrypt_length : forall key iv assoc data mac out,
    crypto_aead_decrypt key iv assoc data mac = Ok out -> length out = length data;
  crypto_skcipher_roundtrip : forall key iv data, length key = 16%nat -> length iv = 16%nat ->
    Z.of_nat (length data) mod AES_CBC_BLOCK_SIZE = 0 ->
    exists out, crypto_skcipher_encrypt key iv data = Ok out /\ length out = length data /\
      crypto_skcipher_decrypt key iv out = Ok data;
  crypto_skcipher_decrypt_ok : forall key iv data, length key = 16%nat -> length iv = 16%nat ->
    Z.of_nat (length data) mod AES_CBC_BLOCK_SIZE = 0 ->
    exists out, crypto_skcipher_decrypt key iv data = Ok out /\ length out = length data;
  crypto_skcipher_unaligned : forall key iv data, Z.of_nat (length data) mod AES_CBC_BLOCK_SIZE <> 0 ->
    crypto_skcipher_encrypt key iv data = Err EINVAL /\ crypto_skcipher_decrypt key iv data = Err EINVAL;
  crc32_range : forall seed l, 0 <= crc32_be seed l < 2 ^ 32
}.

(** ** Hexadecimal: [btox] *)

Definition hex_digits : list Z := [48; 49; 50; 51; 52; 53; 54; 55; 56; 57; 65; 66; 67; 68; 69; 70].

(** The digit of the half byte [n] of [bb]. *)
Definition btox_digit (bb : list Z) (n : Z) : Z :=
  let b := default 0 (bb !! Z.to_nat (Z.shiftr n 1)) in
  default 0 (hex_digits !! Z.to_nat (Z.land (Z.shiftr b (Z.shiftl (1 - Z.land n 1) 2)) 15)).

(** [while (--n >= 0)]: the digits are written from the last to the first. *)
Fixpoint btox (xp bb : list Z) (n : nat) : list Z :=
  match n with
  | O => xp
  | S n => btox (<[n := btox_digit bb (Z.of_nat n)]> xp) bb n
  end.

(** The value of a digit. *)
Definition hex_value (d : Z) : Z := if d <? 58 then d - 48 else d - 55.

Lemma btox_lookup bb : forall n xp i, (n <= length xp)%nat ->
  btox xp bb n !! i = if decide (i < n)%nat then Some (btox_digit bb (Z.of_nat i)) else xp !! i.
Proof.
  induction n as [|n IH]; intros xp i Hn; cbn [btox]; [by rewrite decide_False by lia|].
  rewrite IH by (rewrite length_insert; lia). destruct (decide (i < n)%nat); [by rewrite decide_True by lia|].
  destruct (decide (i = n)) as [->|Hne].
  - rewrite decide_True by lia. by rewrite list_lookup_insert_eq by lia.
  - rewrite decide_False by lia. by rewrite list_lookup_insert_ne by lia.
Qed.

Lemma hex_digit_value n : 0 <= n < 16 -> hex_value (default 0 (hex_digits !! Z.to_nat n)) = n.
Proof.
  intros Hn. assert (Forall (fun n => hex_value (default 0 (hex_digits !! Z.to_nat n)) = n) (seqZ 0 16)) as Hall
    by (apply (bool_decide_unpack _); vm_compute; exact I).
  rewrite Forall_forall in Hall. apply Hall. apply elem_of_seqZ. lia.
Qed.

Lemma btox_digit_value bb i b : bb !! i = Some b -> 0 <= b < 256 ->
  hex_value (btox_digit bb (Z.of_nat (2 * i))) = b / 16 /\
  hex_value (btox_digit bb (Z.of_nat (2 * i + 1))) = b mod 16.
Proof.
  intros Hb Hr. unfold btox_digit.
  assert (forall k, 0 <= k < 2 -> Z.shiftr (Z.of_nat (2 * i) + k) 1 = Z.of_nat i /\ Z.land (Z.of_nat (2 * i) + k) 1 = k) as Hk.
  { intros k Hk. split; [rewrite Z.shiftr_div_pow2 by lia; change (2 ^ 1) with 2; divmod_lia|].
    rewrite (Z.land_ones (Z.of_nat (2 * i) + k) 1 ltac:(lia) : Z.land _ 1 = _). change (2 ^ 1) with 2. divmod_lia. }
  destruct (Hk 0 ltac:(lia)) as [Hs0 Hl0]. destruct (Hk 1 ltac:(lia)) as [Hs1 Hl1].
  replace (Z.of_nat (2 * i) + 0) with (Z.of_nat (2 * i)) in * by lia.
  replace (Z.of_nat (2 * i) + 1) with (Z.of_nat (2 * i + 1)) in * by lia.
  rewrite Hs0, Hl0, Hs1, Hl1, Nat2Z.id, Hb. cbn [default from_option id].
  change (Z.shiftl (1 - 0) 2) with 4. change (Z.shiftl (1 - 1) 2) with 0. change 15 with (Z.ones 4).
  rewrite !Z.land_ones, !Z.shiftr_div_pow2 by lia. change (2 ^ 4) with 16. change (2 ^ 0) with 1.
  rewrite Z.div_1_r, !hex_digit_value by (apply Z.mod_pos_bound; lia). split; [|done].
  apply Z.mod_small. divmod_lia.
Qed.

(** [btox] writes exactly [n] digits and they read back as the bytes: digit
    [2 i] is the high half of byte [i], digit [2 i + 1] its low half, and what
    follows in the target is left alone. *)
Theorem btox_decodes xp bb n : (n <= length xp)%nat -> Forall byte bb -> (n <= 2 * length bb)%nat ->
  length (btox xp bb n) = length xp /\ drop n (btox xp bb n) = drop n xp /\
  forall i, (2 * i + 1 < n)%nat -> exists h l, btox xp bb n !! (2 * i)%nat = Some h /\ btox xp bb n !! (2 * i + 1)%nat = Some l /\
    bb !! i = Some (16 * hex_value h + hex_value l).
Proof.
  intros Hn Hbytes Hbb. split; [|split].
  - clear Hbytes Hbb. revert xp Hn. induction n as [|n IH]; intros xp Hn; cbn [btox]; [done|]. rewrite IH; rewrite length_insert; lia.
  - apply list_eq. intros i. rewrite !lookup_drop, btox_lookup by done. by rewrite decide_False by lia.
  - intros i Hi. rewrite !btox_lookup, !decide_True by lia.
    destruct (lookup_lt_is_Some_2 bb i) as [b Hb]; [lia|]. rewrite Forall_lookup in Hbytes. specialize (Hbytes _ _ Hb). unfold byte in Hbytes.
    destruct (btox_digit_value bb i b Hb Hbytes) as [Hh Hl]. eexists _, _. split; [done|]. split; [done|].
    rewrite Hh, Hl, Hb. f_equal. divmod_lia.
Qed.

Section crypto.
Context `{CryptoApiSpec}.

(** ** gcm(aes) *)

(** The sequence number and the iv are the associated data; without an iv a
    zero one is used. *)
Definition aes_gcm_iv (iv : option (list Z)) : list Z :=
  match iv with
  | Some iv => bytes_at (Z.to_nat AES_GCM_IV_SIZE) iv
  | None => replicate (Z.to_nat AES_GCM_IV_SIZE) 0
  end.

Definition aes_gcm_assoc (iv : option (list Z)) (seq : Z) : list Z := le_encode 8 seq ++ aes_gcm_iv iv.

Definition aes_gcm_cipher_encrypt (data key : list Z) (iv : option (list Z)) (seq : Z) : result (list Z * list Z) :=
  crypto_aead_encrypt (bytes_at (Z.to_nat AES_GCM_KEY_SIZE) key) (aes_gcm_iv iv) (aes_gcm_assoc iv seq) data.

Definition aes_gcm_cipher_decrypt (data key : list Z) (iv : option (list Z)) (mac : list Z) (seq : Z) : result (list Z) :=
  crypto_aead_decrypt (bytes_at (Z.to_nat AES_GCM_KEY_SIZE) key) (aes_gcm_iv iv) (aes_gcm_assoc iv seq) data mac.

(** What the superblock is encrypted with: sequence number zero. *)
#[export] Instance aes_gcm_aead : AeadCipher := {|
  aead_encrypt key iv data := aes_gcm_cipher_encrypt data key (Some iv) 0;
  aead_decrypt key iv mac data := aes_gcm_cipher_decrypt data key (Some iv) mac 0
|}.

#[export] Instance aes_gcm_aead_spec : AeadCipherSpec.
Proof.
  split; cbn [aead_encrypt aead_decrypt aes_gcm_aead]; intros key iv data out mac Henc.
  - by eapply crypto_aead_decrypt_encrypt.
  - by eapply crypto_aead_encrypt_length.
Qed.

(** ** cbc(aes) *)

(** [round] words are written, each the checksum of the buffer so far. *)
Fixpoint generate_iv_loop (round : nat) (p : nat) (seed : Z) (iv : list Z) : list Z :=
  match round with
  | O => iv
  | S round => generate_iv_loop round (p + 4) seed (splice p (le_encode 4 (crc32_be (u32 seed) iv)) iv)
  end.

Definition generate_iv (seed : Z) (len : nat) : list Z :=
  generate_iv_loop (len / 4) 0 seed (replicate len 0).

(** [BLOCK_SIZE] comes from the kernel's headers. *)
Context (BLOCK_SIZE : Z).

(** The length after the alignment step. *)
Definition aes_cbc_align (len : Z) : Z :=
  if negb (Z.land len AES_CBC_BLOCK_MASK =? 0)
  then Z.lxor (Z.lor len AES_CBC_BLOCK_MASK) AES_CBC_BLOCK_MASK + 1
  else len.

Inductive cbc_op : Type := AES_CBC_ENCRYPT | AES_CBC_DECRYPT.

(** [src] is the memory from the source pointer on. *)
Definition __aes_cbc_cipher_helper (op : cbc_op) (src : list Z) (len : Z) (key : list Z) (iv : option (list Z)) (seq : Z)
  : result (list Z) :=
  if (len <=? 0) || (BLOCK_SIZE <? len) then Err EINVAL
  else
    let len := aes_cbc_align len in
    let riv := match iv with
               | None => generate_iv seq (Z.to_nat AES_CBC_IV_SIZE)
               | Some iv => bytes_at (Z.to_nat AES_CBC_IV_SIZE) iv
               end in
    let key := bytes_at (Z.to_nat AES_CBC_KEY_SIZE) key in
    let src := bytes_at (Z.to_nat len) src in
    match op with
    | AES_CBC_ENCRYPT => crypto_skcipher_encrypt key riv src
    | AES_CBC_DECRYPT => crypto_skcipher_decrypt key riv src
    end.

Definition aes_cbc_cipher_encrypt (data : list Z) (len : Z) (key : list Z) (iv : option (list Z)) (seq : Z) : result (list Z) :=
  __aes_cbc_cipher_helper AES_CBC_ENCRYPT data len key iv seq.
Definition aes_cbc_cipher_decrypt (data : list Z) (len : Z) (key : list Z) (iv : option (list Z)) (seq : Z) : result (list Z) :=
  __aes_cbc_cipher_helper AES_CBC_DECRYPT data len key iv seq.

(** The metadata is encrypted and decrypted in place, block by block; the error
    code is ignored and an error leaves the buffer as it was. *)
Definition in_place (data : list Z) (r : result (list Z)) : list Z :=
  match r with Ok out => out | Err _ => data end.

#[export] Instance aes_cbc_skcipher : Skcipher := {|
  sk_encrypt key seq data := in_place data (aes_cbc_cipher_encrypt data METADATA_BLOCK_SIZE key None seq);
  sk_decrypt key seq data := in_place data (aes_cbc_cipher_decrypt data METADATA_BLOCK_SIZE key None seq)
|}.

Lemma generate_iv_loop_length round : forall p seed iv, (p + 4 * round <= length iv)%nat ->
  length (generate_iv_loop round p seed iv) = length iv.
Proof using Type.
  induction round as [|round IH]; intros p seed iv Hp; cbn [generate_iv_loop]; [done|].
  assert (length (splice p (le_encode 4 (crc32_be (u32 seed) iv)) iv) = length iv) as Hl
    by (apply splice_length; rewrite le_encode_length; lia).
  rewrite IH; [done|]. rewrite Hl. lia.
Qed.

Lemma generate_iv_length seed n : length (generate_iv seed (4 * n)) = (4 * n)%nat.
Proof using Type.
  unfold generate_iv. rewrite Nat.mul_comm, Nat.div_mul by lia.
  rewrite generate_iv_loop_length; rewrite length_replicate; lia.
Qed.

(** The iv depends on the low 32 bits of the seed only. *)
Lemma generate_iv_seed seed seed' len : seed mod 2 ^ 32 = seed' mod 2 ^ 32 -> generate_iv seed len = generate_iv seed' len.
Proof using Type.
  intros Heq. unfold generate_iv. assert (u32 seed = u32 seed') as Hu by exact Heq. clear Heq.
  assert (forall round p iv, generate_iv_loop round p seed iv = generate_iv_loop round p seed' iv) as Hl; [|apply Hl].
  induction round as [|round IH]; intros p iv; cbn [generate_iv_loop]; [done|]. by rewrite Hu, IH.
Qed.

(** The step aligns nothing: a length that needs it becomes one more than a
    multiple of the block size. *)
Lemma aes_cbc_align_spec len : 0 <= len ->
  aes_cbc_align len = if decide (len mod 16 = 0) then len else len - len mod 16 + 1.
Proof using Type.
  intros Hl. unfold aes_cbc_align, AES_CBC_BLOCK_MASK, AES_CBC_BLOCK_SIZE. change (16 - 1) with (Z.ones 4).
  assert (Z.land len (Z.ones 4) = len mod 16) as -> by exact (Z.land_ones len 4 ltac:(lia)).
  destruct (Z.eqb_spec (len mod 16) 0) as [Hz|Hnz]; [by rewrite decide_True|]. rewrite decide_False by done. cbn [negb].
  f_equal. replace (len - len mod 16) with (Z.shiftl (Z.shiftr len 4) 4)
    by (rewrite Z.shiftl_mul_pow2, Z.shiftr_div_pow2 by lia; change (2 ^ 4) with 16; divmod_lia).
  apply Z.bits_inj'. intros n Hn. rewrite Z.lxor_spec, Z.lor_spec, Z.shiftl_spec by lia.
  destruct (Z.lt_ge_cases n 4) as [Hlt|Hge].
  - rewrite Z.ones_spec_low by lia. rewrite (Z.testbit_neg_r _ (n - 4)) by lia. by destruct (Z.testbit len n).
  - rewrite Z.ones_spec_high by lia. rewrite Z.shiftr_spec by lia. replace (n - 4 + 4) with n by lia.
    by destruct (Z.testbit len n).
Qed.

(** The cbc wrapper refuses, with [-EINVAL], every length that is not a
    multiple of 16: the alignment step does not round it to one. A length that
    is one, up to [BLOCK_SIZE], is decrypted to what was encrypted. *)
Theorem aes_cbc_cipher_lengths data len key iv seq : length data = Z.to_nat len -> 0 < len <= BLOCK_SIZE ->
  (len mod 16 <> 0 -> aes_cbc_cipher_encrypt data len key iv seq = Err EINVAL /\
                      aes_cbc_cipher_decrypt data len key iv seq = Err EINVAL) /\
  (len mod 16 = 0 -> exists out, aes_cbc_cipher_encrypt data len key iv seq = Ok out /\ length out = length data /\
                      aes_cbc_cipher_decrypt out len key iv seq = Ok data).
Proof.
  intros Hdata Hlen. unfold aes_cbc_cipher_encrypt, aes_cbc_cipher_decrypt, __aes_cbc_cipher_helper.
  assert ((len <=? 0) || (BLOCK_SIZE <? len) = false) as -> by (case_bool; cbn; lia || done).
  rewrite aes_cbc_align_spec by lia. split; intros Hmod.
  - rewrite decide_False by done. apply crypto_skcipher_unaligned. rewrite bytes_at_length, Z2Nat.id by divmod_lia.
    unfold AES_CBC_BLOCK_SIZE. divmod_lia.
  - rewrite decide_True by done. rewrite (bytes_at_exact _ data) by done.
    set (riv := match iv with None => _ | Some _ => _ end).
    assert (length riv = 16%nat) as Hriv
      by (subst riv; destruct iv; [apply bytes_at_length|apply (generate_iv_length seq 4)]).
    destruct (crypto_skcipher_roundtrip (bytes_at (Z.to_nat AES_CBC_KEY_SIZE) key) riv data) as (out & He & Ho & Hd);
      [apply bytes_at_length|done|rewrite Hdata, Z2Nat.id by lia; exact Hmod|].
    exists out. rewrite (bytes_at_exact _ out) by lia. done.
Qed.

(** The result of encrypting one block of metadata. *)
Lemma metadata_cipher_cases key seq data : length data = 4096%nat ->
  if BLOCK_SIZE <? METADATA_BLOCK_SIZE
  then aes_cbc_cipher_encrypt data METADATA_BLOCK_SIZE key None seq = Err EINVAL /\
       aes_cbc_cipher_decrypt data METADATA_BLOCK_SIZE key None seq = Err EINVAL
  else (exists out, aes_cbc_cipher_encrypt data METADATA_BLOCK_SIZE key None seq = Ok out /\ length out = 4096%nat /\
          aes_cbc_cipher_decrypt out METADATA_BLOCK_SIZE key None seq = Ok data) /\
       (exists out, aes_cbc_cipher_decrypt data METADATA_BLOCK_SIZE key None seq = Ok out /\ length out = 4096%nat).
Proof.
  intros Hdata. unfold aes_cbc_cipher_encrypt, aes_cbc_cipher_decrypt, __aes_cbc_cipher_helper. cbn [orb Z.leb].
  change (METADATA_BLOCK_SIZE <=? 0) with false. cbn [orb]. destruct (BLOCK_SIZE <? METADATA_BLOCK_SIZE); [done|].
  change (aes_cbc_align METADATA_BLOCK_SIZE) with 4096. rewrite (bytes_at_exact _ data) by done.
  set (riv := generate_iv seq (Z.to_nat AES_CBC_IV_SIZE)).
  assert (length riv = 16%nat) as Hriv by (apply (generate_iv_length seq 4)).
  assert (Z.of_nat (length data) mod AES_CBC_BLOCK_SIZE = 0) as Hmod by (by rewrite Hdata). split.
  - destruct (crypto_skcipher_roundtrip (bytes_at (Z.to_nat AES_CBC_KEY_SIZE) key) riv data) as (out & He & Ho & Hd);
      [apply bytes_at_length|done|done|]. exists out. rewrite (bytes_at_exact _ out) by (by rewrite Ho). by rewrite <- Hdata.
  - destruct (crypto_skcipher_decrypt_ok (bytes_at (Z.to_nat AES_CBC_KEY_SIZE) key) riv data) as (out & He & Ho);
      [apply bytes_at_length|done|done|]. exists out. by rewrite <- Hdata.
Qed.

#[export] Instance aes_cbc_skcipher_spec : SkcipherSpec (H := aes_cbc_skcipher).
Proof.
  split; cbn [sk_encrypt sk_decrypt aes_cbc_skcipher]; intros key seq data Hdata;
    pose proof (metadata_cipher_cases key seq data Hdata) as Hc; destruct (BLOCK_SIZE <? METADATA_BLOCK_SIZE).
  - destruct Hc as [-> Hd]. cbn [in_place]. by rewrite Hd.
  - destruct Hc as [(out & -> & _ & Hd) _]. cbn [in_place]. by rewrite Hd.
  - by destruct Hc as [_ ->].
  - by destruct Hc as [_ (out & -> & ?)].
  - by destruct Hc as [-> _].
  - by destruct Hc as [(out & -> & ? & _) _].
Qed.

(** The metadata cipher is the inverse pair the tables need, whatever the
    kernel's [BLOCK_SIZE] is; but below 4096 (it is 1024 in [linux/fs.h], and
    nothing under [src/] defines it) both directions fail with [-EINVAL], which
    the callers ignore, and every block of metadata is stored in plaintext. *)
Theorem aes_cbc_metadata_cipher key seq data : length data = 4096%nat ->
  sk_decrypt (Skcipher := aes_cbc_skcipher) key seq (sk_encrypt (Skcipher := aes_cbc_skcipher) key seq data) = data /\
  (BLOCK_SIZE < METADATA_BLOCK_SIZE ->
     aes_cbc_cipher_encrypt data METADATA_BLOCK_SIZE key None seq = Err EINVAL /\
     sk_encrypt (Skcipher := aes_cbc_skcipher) key seq data = data) /\
  (METADATA_BLOCK_SIZE <= BLOCK_SIZE ->
     aes_cbc_cipher_encrypt data METADATA_BLOCK_SIZE key None seq =
       Ok (sk_encrypt (Skcipher := aes_cbc_skcipher) key seq data)).
Proof.
  intros Hdata. split; [by apply aes_cbc_skcipher_spec|]. pose proof (metadata_cipher_cases key seq data Hdata) as Hc.
  cbn [sk_encrypt aes_cbc_skcipher]. split; intros Hbs.
  - destruct (Z.ltb_spec BLOCK_SIZE METADATA_BLOCK_SIZE); [|lia]. by destruct Hc as [-> _].
  - destruct (Z.ltb_spec BLOCK_SIZE METADATA_BLOCK_SIZE); [lia|]. by destruct Hc as [(out & -> & _) _].
Qed.
End crypto.

(** ** Concrete runs *)

(** A crypto API that adds to the bytes; its tag also sums up the associated
    data and the key. *)
Definition aligned16 (data : list Z) : bool := Z.of_nat (length data) mod AES_CBC_BLOCK_SIZE =? 0.

#[export] Instance sum_api : CryptoApi := {|
  crypto_aead_encrypt key iv assoc data :=
    Ok ((fun b => b + 1) <$> data, replicate 16 (foldr Z.add 0 (key ++ iv ++ assoc ++ data)));
  crypto_aead_decrypt key iv assoc data mac :=
    let plain := (fun b => b - 1) <$> data in
    if decide (mac = replicate 16 (foldr Z.add 0 (key ++ iv ++ assoc ++ plain))) then Ok plain else Err EBADMSG;
  crypto_skcipher_encrypt key iv data := if aligned16 data then Ok ((fun b => b + 1) <$> data) else Err EINVAL;
  crypto_skcipher_decrypt key iv data := if aligned16 data then Ok ((fun b => b - 1) <$> data) else Err EINVAL;
  crc32_be seed l := foldr (fun b a => (b + 3 * a) mod 2 ^ 32) seed l mod 2 ^ 32
|}.

Lemma plus_minus_one (data : list Z) : (fun b => b - 1) <$> ((fun b => b + 1) <$> data) = data.
Proof. rewrite <- list_fmap_compose. rewrite <- (list_fmap_id data) at 2. apply list_fmap_ext. intros. cbn. lia. Qed.

#[export] Instance sum_api_spec : CryptoApiSpec.
Proof.
  split; cbn [crypto_aead_encrypt crypto_aead_decrypt crypto_skcipher_encrypt crypto_skcipher_decrypt crc32_be sum_api].
  - intros key iv assoc data out mac [= <- <-]. rewrite plus_minus_one. by rewrite decide_True.
  - intros key iv assoc data out mac [= <- <-]. by rewrite length_fmap.
  - intros key iv assoc data mac out. case_decide; [|done]. intros [= <-]. by rewrite length_fmap.
  - intros key iv data _ _ Ha. unfold aligned16. rewrite Ha. cbn [Z.eqb]. eexists. split; [done|].
    rewrite length_fmap, Ha. split; [done|]. cbn [Z.eqb]. by rewrite plus_minus_one.
  - intros key iv data _ _ Ha. unfold aligned16. rewrite Ha. cbn [Z.eqb]. eexists. split; [done|]. by rewrite length_fmap.
  - intros key iv data Ha. unfold aligned16. by destruct (Z.eqb_spec (Z.of_nat (length data) mod AES_CBC_BLOCK_SIZE) 0).
  - intros. by apply Z.mod_pos_bound.
Qed.

Example btox_example : btox [0; 0; 0; 0; 9] [0x3A; 0xF0] 4 = [51; 65; 70; 48; 9].
Proof. vm_compute. reflexivity. Qed.

Lemma btox_decodes_witness :
  let r := btox [0; 0; 0; 0; 9] [0x3A; 0xF0] 4 in
  length r = 5%nat /\ drop 4 r = [9] /\
  forall i, (2 * i + 1 < 4)%nat -> exists h l, r !! (2 * i)%nat = Some h /\ r !! (2 * i + 1)%nat = Some l /\
    [0x3A; 0xF0] !! i = Some (16 * hex_value h + hex_value l).
Proof.
  refine (btox_decodes [0; 0; 0; 0; 9] [0x3A; 0xF0] 4 _ _ _); [cbn; lia| |cbn; lia]. repeat constructor; vm_compute; congruence || done.
Defined.

Lemma aes_cbc_cipher_lengths_witness :
  let data := replicate 20 5 in
  (20 mod 16 <> 0 -> aes_cbc_cipher_encrypt 1024 data 20 [] None 3 = Err EINVAL /\
                     aes_cbc_cipher_decrypt 1024 data 20 [] None 3 = Err EINVAL) /\
  (20 mod 16 = 0 -> exists out, aes_cbc_cipher_encrypt 1024 data 20 [] None 3 = Ok out /\ length out = length data /\
                     aes_cbc_cipher_decrypt 1024 out 20 [] None 3 = Ok data).
Proof. refine (aes_cbc_cipher_lengths 1024 (replicate 20 5) 20 [] None 3 _ _); [reflexivity|lia]. Defined.

Lemma aes_cbc_metadata_cipher_witness :
  let data := replicate 4096 7 in
  let sk := aes_cbc_skcipher 1024 in
  sk_decrypt (Skcipher := sk) [] 3 (sk_encrypt (Skcipher := sk) [] 3 data) = data /\
  (1024 < METADATA_BLOCK_SIZE ->
     aes_cbc_cipher_encrypt 1024 data METADATA_BLOCK_SIZE [] None 3 = Err EINVAL /\ sk_encrypt (Skcipher := sk) [] 3 data = data) /\
  (METADATA_BLOCK_SIZE <= 1024 ->
     aes_cbc_cipher_encrypt 1024 data METADATA_BLOCK_SIZE [] None 3 = Ok (sk_encrypt (Skcipher := sk) [] 3 data)).
Proof.
  intros data sk. pose proof (aes_cbc_metadata_cipher 1024 [] 3 (replicate 4096 7) (length_replicate 4096 7)) as Hc. exact Hc.
Defined.
