(* ===== verification/BitFile.v ===== *)
(** * BitFile: the files of the LSM tree

    The block index tables ("bit") of [kernel-module/c/src/lsm_tree.c]: trees of
    height three whose leaves hold up to 128 sorted records. A file keeps its
    inner nodes in memory and recently used leaves in a cache. Reading a node
    from the index region and decrypting it is a parameter. *)
From S2P Require Import Prelude Layout RbTree Memtable Cache.

(** ** Nodes *)

(** [leaf->keys[i], leaf->records[i]] for [i < leaf->nr_record]. *)
Record bit_leaf : Type := BitLeaf { leaf_entries : list (Z * record); leaf_next_pos : Z }.
Record bit_child : Type := BitChild { child_is_leaf : bool; child_key : Z; child_pos : Z }.
Inductive bit_node : Type :=
  | LeafNode (leaf : bit_leaf)
  | InnerNode (children : list bit_child).

(** [kernel_read] at a position followed by [bit_node_decode] for a leaf or an
    inner node: the position of the authentication tag depends on the kind, so
    that a node of the other kind fails to decrypt. *)
Class NodeStore : Type := {
  store : Type;
  read_node : store -> Z -> bool -> result bit_node
}.

Class NodeStoreSpec `{NodeStore} : Prop := {
  read_node_kind : forall s pos is_leaf n, read_node s pos is_leaf = Ok n ->
    match n with LeafNode _ => is_leaf = true | InnerNode _ => is_leaf = false end
}.

(** [struct cached_inner], two levels of it. *)
Record cached_root : Type := CachedRoot { cr_children : list bit_child; cr_child_nodes : list (list bit_child) }.

Record bit_file `{NodeStore} `{LeafCache bit_leaf} : Type := BitFile {
  bf_file : store;
  bf_id : Z;
  bf_level : Z;
  bf_version : Z;
  bf_root : Z;
  bf_first_key : Z;
  bf_last_key : Z;
  bf_nr_record : Z;
  bf_cached_leaf : cache;
  bf_cached_root : option cached_root
}.

Section bit_file.
Context `{NodeStoreSpec} `{LeafCacheSpec bit_leaf}.
Implicit Types (this : bit_file).

Definition with_cache this (c : cache) : bit_file :=
  {| bf_file := bf_file this; bf_id := bf_id this; bf_level := bf_level this; bf_version := bf_version this;
     bf_root := bf_root this; bf_first_key := bf_first_key this; bf_last_key := bf_last_key this;
     bf_nr_record := bf_nr_record this; bf_cached_leaf := c; bf_cached_root := bf_cached_root this |}.

(** ** The nodes kept in memory *)

(** The loop over the children of the root; an error gives up the whole. *)
Fixpoint read_child_nodes (s : store) (children : list bit_child) : option (list (list bit_child)) :=
  match children with
  | [] => Some []
  | c :: children =>
      match read_node s (child_pos c) false with
      | Ok (InnerNode inner) =>
          match read_child_nodes s children with Some rest => Some (inner :: rest) | None => None end
      | _ => None
      end
  end.

Definition bit_file_build_cached_root (s : store) (root : Z) : option cached_root :=
  match read_node s root false with
  | Ok (InnerNode children) =>
      match read_child_nodes s children with
      | Some nodes => Some {| cr_children := children; cr_child_nodes := nodes |}
      | None => None
      end
  | _ => None
  end.

(** [for (i = 0; ...) if (key <= children[i].key) break;] *)
Fixpoint child_index (key : Z) (children : list bit_child) : nat :=
  match children with
  | [] => O
  | c :: children => if key <=? child_key c then O else S (child_index key children)
  end.

Definition bit_file_search_leaf_key_pos this (key : Z) : result (Z * Z) :=
  if (key <? bf_first_key this) || (bf_last_key this <? key) then Err ENODATA
  else
    match bf_cached_root this with
    | None => Err EFAULT
    | Some root =>
        match cr_child_nodes root !! child_index key (cr_children root) with
        | None => Err EFAULT
        | Some inner =>
            match inner !! child_index key inner with
            | Some c => Ok (child_key c, child_pos c)
            | None => Err ENODATA
            end
        end
    end.

(** ** Searching *)

(** The first record of a key in a leaf. *)
Fixpoint leaf_find (key : Z) (entries : list (Z * record)) : option record :=
  match entries with
  | [] => None
  | (k, r) :: entries => if k =? key then Some r else leaf_find key entries
  end.

Definition bit_leaf_search (leaf : bit_leaf) (key : Z) : result unit :=
  match leaf_find key (leaf_entries leaf) with Some _ => Ok tt | None => Err ENODATA end.

Definition bit_file_search_leaf this (key : Z) : result bit_leaf :=
  let! (leaf_key, leaf_pos) := bit_file_search_leaf_key_pos this key in
  let! node := read_node (bf_file this) leaf_pos true in
  match node with
  | LeafNode leaf => let! _ := bit_leaf_search leaf key in Ok leaf
  | InnerNode _ => Err ENODATA
  end.

Definition bit_file_first_leaf this : result bit_leaf := bit_file_search_leaf this (bf_first_key this).

Definition bit_file_search_cached_leaf this (key : Z) : bit_file * option record :=
  match bit_file_search_leaf_key_pos this key with
  | Err _ => (this, None)
  | Ok (leaf_key, _) =>
      let '(c, leaf) := cache_get (bf_cached_leaf this) leaf_key in
      (with_cache this c,
       match leaf with None => None | Some leaf => leaf_find key (leaf_entries leaf) end)
  end.

(** The key under which a leaf is cached: that of its last record. *)
Definition leaf_last_key (leaf : bit_leaf) : Z := default 0 (fst <$> last (leaf_entries leaf)).

Definition bit_file_search this (key : Z) : bit_file * result record :=
  match bit_file_search_cached_leaf this key with
  | (this, Some record) => (this, Ok record)
  | (this, None) =>
      match bit_file_search_leaf this key with
      | Err e => (this, Err e)
      | Ok leaf =>
          let this := with_cache this (cache_put (bf_cached_leaf this) (leaf_last_key leaf) leaf) in
          (this, match leaf_find key (leaf_entries leaf) with Some r => Ok r | None => Err ENODATA end)
      end
  end.

(** ** Range search: the results go to a memtable, and a bit set tells the keys
    found so far. Positions of [found] are relative to [start]. *)
Section range_search.
Context `{RbTree}.

(** Every record of the key in the leaf is put, one after the other. *)
Definition put_matches (key : Z) (entries : list (Z * record)) (results : memtable) : memtable :=
  fold_left (fun results (e : Z * record) =>
    if e.1 =? key then (rbtree_memtable_put results key (Some e.2)).1 else results) entries results.

Definition has_match (key : Z) (entries : list (Z * record)) : bool :=
  existsb (fun e : Z * record => e.1 =? key) entries.

Record range_state : Type := RangeState { rs_results : memtable; rs_found : Z }.

Definition range_found (start key found : Z) : bool := Z.testbit found (key - start).

Definition range_put (start key : Z) (r : record) (st : range_state) : range_state :=
  {| rs_results := (rbtree_memtable_put (rs_results st) key (Some r)).1;
     rs_found := Z.setbit (rs_found st) (key - start) |}.

(** [for (key = start; key <= end; ++key)], with the jump to [first_key]; [n]
    bounds the keys left. *)
Fixpoint bit_range_loop (n : nat) this (start key end_ : Z) (st : range_state) : bit_file * range_state :=
  match n with
  | O => (this, st)
  | S n =>
      if key <=? end_ then
        let key := if key <? bf_first_key this then bf_first_key this else key in
        if range_found start key (rs_found st) then bit_range_loop n this start (key + 1) end_ st
        else
          match bit_file_search_cached_leaf this key with
          | (this, Some record) => bit_range_loop n this start (key + 1) end_ (range_put start key record st)
          | (this, None) =>
              match bit_file_search_leaf this key with
              | Err _ => bit_range_loop n this start (key + 1) end_ st
              | Ok leaf =>
                  let this := with_cache this (cache_put (bf_cached_leaf this) (leaf_last_key leaf) leaf) in
                  let st := {| rs_results := put_matches key (leaf_entries leaf) (rs_results st);
                               rs_found := if has_match key (leaf_entries leaf)
                                           then Z.setbit (rs_found st) (key - start) else rs_found st |} in
                  bit_range_loop n this start (key + 1) end_ st
              end
          end
      else (this, st)
  end.

Definition bit_file_range_search this (start end_ : Z) (st : range_state) : bit_file * range_state :=
  if (bf_last_key this <? start) || (end_ <? bf_first_key this) then (this, st)
  else
    let end_ := if bf_last_key this <? end_ then bf_last_key this else end_ in
    bit_range_loop (Z.to_nat (end_ - start + 1)) this start start end_ st.
End range_search.

(** ** Iteration *)

Record bit_iterator : Type := BitIterator {
  bi_file : bit_file;
  bi_leaf : bit_leaf;
  bi_cur_record : Z;
  bi_count : Z;
  bi_has_next : bool
}.

Definition bit_iterator_init this : result bit_iterator :=
  let! leaf := bit_file_first_leaf this in
  Ok {| bi_file := this; bi_leaf := leaf; bi_cur_record := 0; bi_count := 0; bi_has_next := true |}.

Definition bit_iterator_has_next (it : bit_iterator) : bool := bi_has_next it.

(** The result of decoding the next leaf is not checked; [EFAULT] when the
    decoded block is no leaf, or when the record lies outside of the leaf. *)
Definition bit_iterator_next (it : bit_iterator) : bit_iterator * result (Z * record) :=
  if negb (bi_has_next it) then (it, Err ENODATA)
  else
    match leaf_entries (bi_leaf it) !! Z.to_nat (bi_cur_record it) with
    | None => (it, Err EFAULT)
    | Some data =>
        let count := bi_count it + 1 in
        if bf_nr_record (bi_file it) <=? count then
          ({| bi_file := bi_file it; bi_leaf := bi_leaf it; bi_cur_record := bi_cur_record it;
              bi_count := count; bi_has_next := false |}, Ok data)
        else
          let cur := bi_cur_record it + 1 in
          if cur =? BIT_LEAF_LEN then
            match read_node (bf_file (bi_file it)) (leaf_next_pos (bi_leaf it)) true with
            | Ok (LeafNode leaf) =>
                ({| bi_file := bi_file it; bi_leaf := leaf; bi_cur_record := 0;
                    bi_count := count; bi_has_next := true |}, Ok data)
            | _ => (it, Err EFAULT)
            end
          else
            ({| bi_file := bi_file it; bi_leaf := bi_leaf it; bi_cur_record := cur;
                bi_count := count; bi_has_next := true |}, Ok data)
    end.

(** [while (iter->has_next(iter)) iter->next(iter, &entry)] *)
Fixpoint iterate (fuel : nat) (it : bit_iterator) : option (result (list (Z * record))) :=
  match fuel with
  | O => None
  | S fuel =>
      if bit_iterator_has_next it then
        match bit_iterator_next it with
        | (_, Err e) => Some (Err e)
        | (it, Ok data) =>
            match iterate fuel it with
            | None => None
            | Some (Err e) => Some (Err e)
            | Some (Ok rest) => Some (Ok (data :: rest))
            end
        end
      else Some (Ok [])
  end.

(** ** Opening a file *)

Definition bit_file_init (s : store) (root id level version first_key last_key nr_record : Z) (c : cache) : bit_file :=
  {| bf_file := s; bf_id := id; bf_level := level; bf_version := version; bf_root := root;
     bf_first_key := first_key; bf_last_key := last_key; bf_nr_record := nr_record; bf_cached_leaf := c;
     bf_cached_root := bit_file_build_cached_root s root |}.
(** ** What a file holds *)

Definition keys_le (l : list (Z * record)) : Prop := StronglySorted Z.le l.*1.

Definition leaves_entries (ls : list bit_leaf) : list (Z * record) := concat (leaf_entries <$> ls).

Definition group_last (g : list bit_leaf) : Z := default 0 (leaf_last_key <$> last g).

(** The file [this] consists of the leaves [groups], those below one child of
    the root together; the inner nodes carry the last key of what lies below;
    every cached leaf is the leaf a search for its key leads to. *)
Fixpoint leaf_for (key : Z) (ls : list bit_leaf) : option bit_leaf :=
  match ls with
  | [] => None
  | l :: ls => if key <=? leaf_last_key l then Some l else leaf_for key ls
  end.

Definition child_of (s : store) (c : bit_child) (l : bit_leaf) : Prop :=
  child_key c = leaf_last_key l /\ read_node s (child_pos c) true = Ok (LeafNode l).

Record file_wf this (groups : list (list bit_leaf)) : Prop := {
  fw_root : exists root, bf_cached_root this = Some root /\
    Forall2 (fun c g => child_key c = group_last g) (cr_children root) groups /\
    Forall2 (fun inner g => Forall2 (child_of (bf_file this)) inner g) (cr_child_nodes root) groups;
  fw_groups : Forall (fun g => g <> []) groups;
  fw_leaves : Forall (fun l => leaf_entries l <> []) (concat groups);
  fw_sorted : keys_le (leaves_entries (concat groups));
  fw_first : fst <$> head (leaves_entries (concat groups)) = Some (bf_first_key this);
  fw_last : fst <$> last (leaves_entries (concat groups)) = Some (bf_last_key this);
  fw_cache : forall k l, cache_view (bf_cached_leaf this) k = Some l ->
    leaf_for k (concat groups) = Some l /\ leaf_last_key l = k
}.

(** ** Sorted leaves *)

Lemma leaf_find_app key a b :
  leaf_find key (a ++ b) = match leaf_find key a with Some r => Some r | None => leaf_find key b end.
Proof. induction a as [|[k r] a IH]; [done|]. cbn. by destruct (k =? key). Qed.

Lemma leaf_find_none key l : Forall (fun e : Z * record => e.1 <> key) l <-> leaf_find key l = None.
Proof.
  induction l as [|[k r] l IH]; cbn; [by split|]. rewrite Forall_cons, IH. cbn.
  destruct (Z.eqb_spec k key); split; try tauto; try done.
Qed.

Lemma leaf_last_in l : leaf_entries l <> [] -> exists r, (leaf_last_key l, r) ∈ leaf_entries l.
Proof.
  intros Hne. unfold leaf_last_key. destruct (last (leaf_entries l)) as [[k r]|] eqn:Hl.
  - exists r. cbn. by apply last_Some_elem_of.
  - by apply last_None in Hl.
Qed.

Lemma sorted_last_bound (l : list (Z * record)) k : keys_le l -> fst <$> last l = Some k ->
  Forall (fun e : Z * record => e.1 <= k) l.
Proof.
  induction l as [|e l IH]; intros Hs Hl; [done|]. unfold keys_le in *. cbn in Hs.
  apply StronglySorted_inv in Hs as [Hs He]. destruct l as [|e' l].
  - cbn in Hl. injection Hl as <-. by repeat constructor.
  - rewrite last_cons_cons in Hl. specialize (IH Hs Hl). constructor; [|done].
    apply Forall_cons in IH as [He' _]. apply Forall_cons in He as [He _]. lia.
Qed.

Lemma leaf_bound l : keys_le (leaf_entries l) -> Forall (fun e : Z * record => e.1 <= leaf_last_key l) (leaf_entries l).
Proof.
  intros Hs. unfold leaf_last_key. destruct (last (leaf_entries l)) as [[k r]|] eqn:Hl.
  - apply sorted_last_bound; [done|]. by rewrite Hl.
  - apply last_None in Hl. rewrite Hl. constructor.
Qed.

Lemma keys_le_app l1 l2 : keys_le (l1 ++ l2) <->
  keys_le l1 /\ keys_le l2 /\ forall x y, x ∈ l1 -> y ∈ l2 -> x.1 <= y.1.
Proof.
  unfold keys_le. rewrite fmap_app, StronglySorted_app. split.
  - intros (Hx & H1' & H2'). split; [done|]. split; [done|]. intros x y ? ?. apply Hx; by apply list_elem_of_fmap_2.
  - intros (H1' & H2' & Hx). split; [|done].
    intros ? ? (x & -> & ?)%list_elem_of_fmap (y & -> & ?)%list_elem_of_fmap. by apply Hx.
Qed.

(** The leaf a search leads to decides the whole file. *)
Lemma leaf_for_find key ls : keys_le (leaves_entries ls) -> Forall (fun l => leaf_entries l <> []) ls ->
  leaf_find key (leaves_entries ls) =
  match leaf_for key ls with Some l => leaf_find key (leaf_entries l) | None => None end.
Proof.
  induction ls as [|l ls IH]; [done|]. unfold leaves_entries. cbn [fmap list_fmap concat]. fold (leaves_entries ls).
  intros (Hl & Hs & Hx)%keys_le_app [Hne Hnes]%Forall_cons. rewrite leaf_find_app. cbn [leaf_for].
  destruct (leaf_last_in l Hne) as [r Hlast]. destruct (Z.leb_spec key (leaf_last_key l)) as [Hle|Hgt].
  - destruct (leaf_find key (leaf_entries l)) eqn:Hf; [done|]. apply leaf_find_none.
    apply leaf_find_none in Hf. rewrite Forall_forall in Hf. specialize (Hf _ Hlast). cbn in Hf.
    apply Forall_forall. intros e He. specialize (Hx _ e Hlast He). cbn in Hx. lia.
  - rewrite (proj1 (leaf_find_none key (leaf_entries l))); [by apply IH|].
    eapply Forall_impl; [apply (leaf_bound l Hl)|]. cbn. intros. lia.
Qed.

Lemma leaf_for_app key a b :
  leaf_for key (a ++ b) = match leaf_for key a with Some l => Some l | None => leaf_for key b end.
Proof. induction a as [|l a IH]; [done|]. cbn. by destruct (key <=? leaf_last_key l). Qed.

Lemma leaf_for_some key ls l : leaf_for key ls = Some l -> l ∈ ls /\ key <= leaf_last_key l.
Proof.
  induction ls as [|x ls IH]; [done|]. cbn. destruct (Z.leb_spec key (leaf_last_key x)).
  - intros [= <-]. split; [by left|done].
  - intros Hf. apply IH in Hf as [? ?]. split; [by right|done].
Qed.

Lemma leaf_for_none key ls : leaf_for key ls = None <-> Forall (fun l => leaf_last_key l < key) ls.
Proof.
  induction ls as [|x ls IH]; cbn; [by split|]. rewrite Forall_cons.
  destruct (Z.leb_spec key (leaf_last_key x)); [split; [done|lia]|]. rewrite IH. tauto.
Qed.

(** The last keys of sorted leaves increase. *)
Lemma leaf_lasts_le l ls : keys_le (leaves_entries (l :: ls)) -> Forall (fun l => leaf_entries l <> []) (l :: ls) ->
  Forall (fun x => leaf_last_key l <= leaf_last_key x) ls.
Proof.
  unfold leaves_entries. cbn [fmap list_fmap concat]. intros (_ & _ & Hx)%keys_le_app [Hne Hnes]%Forall_cons.
  apply Forall_forall. intros x Hin. rewrite Forall_forall in Hnes.
  destruct (leaf_last_in l Hne) as [r Hl]. destruct (leaf_last_in x (Hnes x Hin)) as [r' Hlx].
  apply (Hx _ (leaf_last_key x, r') Hl). apply list_elem_of_In, in_concat. exists (leaf_entries x).
  split; [|by apply list_elem_of_In]. apply list_elem_of_In. by apply list_elem_of_fmap_2.
Qed.

Lemma group_last_bound g : keys_le (leaves_entries g) -> Forall (fun l => leaf_entries l <> []) g ->
  Forall (fun l => leaf_last_key l <= group_last g) g.
Proof.
  unfold group_last. induction g as [|l g IH]; [constructor|]. intros Hs Hne.
  pose proof (leaf_lasts_le l g Hs Hne) as Hl. apply Forall_cons in Hne as [Hnl Hne].
  unfold leaves_entries in Hs. cbn in Hs. fold (leaves_entries g) in Hs. apply keys_le_app in Hs as (_ & Hs & _).
  destruct g as [|l' g]; [by repeat constructor|]. rewrite last_cons_cons. specialize (IH Hs Hne).
  constructor; [|done]. apply Forall_cons in Hl as [Hl _]. apply Forall_cons in IH as [IH _]. lia.
Qed.

Lemma leaves_entries_app a b : leaves_entries (a ++ b) = leaves_entries a ++ leaves_entries b.
Proof. unfold leaves_entries. by rewrite fmap_app, concat_app. Qed.

(** ** The descent to a leaf *)

Lemma inner_descent s key inner g l : Forall2 (child_of s) inner g -> leaf_for key g = Some l ->
  exists c, inner !! child_index key inner = Some c /\ child_of s c l.
Proof.
  intros Hall. induction Hall as [|c x inner g [Hk Hr] _ IH]; [done|]. cbn. rewrite Hk.
  destruct (key <=? leaf_last_key x); [|auto]. intros [= <-]. exists c. done.
Qed.

Lemma root_descent s key groups : forall children nodes,
  Forall2 (fun c g => child_key c = group_last g) children groups ->
  Forall2 (fun inner g => Forall2 (child_of s) inner g) nodes groups ->
  Forall (fun g => g <> []) groups -> Forall (fun l => leaf_entries l <> []) (concat groups) ->
  keys_le (leaves_entries (concat groups)) ->
  forall l, leaf_for key (concat groups) = Some l ->
  exists inner c, nodes !! child_index key children = Some inner /\
    inner !! child_index key inner = Some c /\ child_of s c l.
Proof.
  induction groups as [|g groups IH]; intros children nodes Hc Hn Hg Hl Hs l Hfor; [done|].
  apply Forall2_cons_inv_r in Hc as (c & children' & Hck & Hc & ->).
  apply Forall2_cons_inv_r in Hn as (inner & nodes' & Hin & Hn & ->).
  apply Forall_cons in Hg as [Hg Hgs]. cbn [concat] in *. apply Forall_app in Hl as [Hlg Hl].
  rewrite leaves_entries_app in Hs. apply keys_le_app in Hs as (Hsg & Hs & _).
  rewrite leaf_for_app in Hfor. cbn [child_index]. rewrite Hck.
  pose proof (group_last_bound g Hsg Hlg) as Hb.
  destruct (Z.leb_spec key (group_last g)) as [Hle|Hgt].
  - destruct (leaf_for key g) as [l'|] eqn:Hfg.
    + injection Hfor as <-. destruct (inner_descent _ _ _ _ _ Hin Hfg) as (c' & ? & ?). exists inner, c'. done.
    + apply leaf_for_none in Hfg. unfold group_last in Hle. destruct (last g) as [x|] eqn:Hlast.
      * apply last_Some_elem_of in Hlast. rewrite Forall_forall in Hfg. specialize (Hfg x Hlast). cbn in Hle. lia.
      * by apply last_None in Hlast.
  - rewrite (proj2 (leaf_for_none key g)) in Hfor; [|eapply Forall_impl; [exact Hb|]; cbn; intros; lia].
    by apply (IH children' nodes').
Qed.

Lemma leaf_for_in_range this groups key : file_wf this groups -> key <= bf_last_key this ->
  exists l, leaf_for key (concat groups) = Some l.
Proof.
  intros Hwf Hk. destruct (leaf_for key (concat groups)) as [l|] eqn:Hf; [eauto|].
  apply leaf_for_none in Hf. pose proof (fw_last _ _ Hwf) as Hlast.
  destruct (last (leaves_entries (concat groups))) as [[k r]|] eqn:Hl; [|done]. cbn in Hlast. injection Hlast as ->.
  apply last_Some_elem_of, list_elem_of_In, in_concat in Hl as (es & Hes & Hin).
  apply list_elem_of_In, list_elem_of_fmap in Hes as (x & -> & Hx). apply list_elem_of_In in Hin.
  pose proof (fw_sorted _ _ Hwf) as Hs. apply list_elem_of_split in Hx as (a & b & Hab).
  rewrite Hab, leaves_entries_app in Hs. apply keys_le_app in Hs as (_ & Hs & _).
  unfold leaves_entries in Hs. cbn in Hs. apply keys_le_app in Hs as (Hs & _ & _).
  pose proof (leaf_bound x Hs) as Hb. rewrite Forall_forall in Hb. rewrite Forall_forall in Hf. specialize (Hb _ Hin). cbn in Hb.
  assert (leaf_last_key x < key); [|lia]. apply Hf. rewrite Hab. apply elem_of_app. right. by left.
Qed.

Lemma search_leaf_key_pos_spec this groups key : file_wf this groups ->
  match bit_file_search_leaf_key_pos this key with
  | Ok (leaf_key, leaf_pos) => exists l, leaf_for key (concat groups) = Some l /\ leaf_last_key l = leaf_key /\
      read_node (bf_file this) leaf_pos true = Ok (LeafNode l)
  | Err e => e = ENODATA /\ leaf_find key (leaves_entries (concat groups)) = None
  end.
Proof.
  intros Hwf. unfold bit_file_search_leaf_key_pos. pose proof (fw_sorted _ _ Hwf) as Hs.
  destruct (Z.ltb_spec key (bf_first_key this)) as [Hlo|Hlo]; cbn [orb].
  { split; [done|]. apply leaf_find_none. pose proof (fw_first _ _ Hwf) as Hf.
    destruct (leaves_entries (concat groups)) as [|[k r] l]; [constructor|]. cbn in Hf. injection Hf as ->.
    unfold keys_le in Hs. cbn in Hs. apply StronglySorted_inv in Hs as [_ Hs]. rewrite Forall_fmap in Hs.
    constructor; [cbn; lia|]. eapply Forall_impl; [exact Hs|]. cbn. intros. lia. }
  destruct (Z.ltb_spec (bf_last_key this) key) as [Hhi|Hhi].
  { split; [done|]. apply leaf_find_none. eapply Forall_impl; [apply (sorted_last_bound _ _ Hs (fw_last _ _ Hwf))|].
    cbn. intros. lia. }
  destruct (leaf_for_in_range this groups key Hwf Hhi) as [l Hl].
  destruct (fw_root _ _ Hwf) as (root & -> & Hc & Hn).
  destruct (root_descent (bf_file this) key groups _ _ Hc Hn (fw_groups _ _ Hwf) (fw_leaves _ _ Hwf) Hs l Hl)
    as (inner & c & -> & -> & Hck & Hr).
  exists l. split; [done|]. split; [by rewrite Hck|done].
Qed.

(** ** Searching a well-formed file *)

Lemma file_wf_cache this groups c : file_wf this groups ->
  (forall k l, cache_view c k = Some l -> leaf_for k (concat groups) = Some l /\ leaf_last_key l = k) ->
  file_wf (with_cache this c) groups.
Proof. intros [] Hc. by split. Qed.

(** The leaf of a key is the leaf of the last key of that leaf. *)
Lemma leaf_for_last key ls l : keys_le (leaves_entries ls) -> Forall (fun l => leaf_entries l <> []) ls ->
  leaf_for key ls = Some l -> leaf_for (leaf_last_key l) ls = Some l.
Proof.
  induction ls as [|x ls IH]; [done|]. intros Hs Hne. cbn [leaf_for].
  destruct (Z.leb_spec key (leaf_last_key x)) as [Hle|Hgt].
  - intros [= ->]. by rewrite Z.leb_refl.
  - intros Hf. pose proof (leaf_for_some _ _ _ Hf) as [Hin Hk].
    pose proof Hne as [_ Hne']%Forall_cons.
    unfold leaves_entries in Hs. cbn in Hs. fold (leaves_entries ls) in Hs. apply keys_le_app in Hs as (_ & Hs & _).
    destruct (Z.leb_spec (leaf_last_key l) (leaf_last_key x)); [lia|]. by apply IH.
Qed.

Lemma file_wf_put this groups key l : file_wf this groups -> leaf_for key (concat groups) = Some l ->
  file_wf (with_cache this (cache_put (bf_cached_leaf this) (leaf_last_key l) l)) groups.
Proof.
  intros Hwf Hl. apply file_wf_cache; [done|]. intros k x Hx.
  apply cache_put_spec in Hx as [[-> ->]|[_ Hx]]; [|by apply (fw_cache _ _ Hwf)].
  split; [|done]. eapply leaf_for_last; [apply (fw_sorted _ _ Hwf)|apply (fw_leaves _ _ Hwf)|exact Hl].
Qed.

Lemma search_leaf_spec this groups key : file_wf this groups ->
  match bit_file_search_leaf this key with
  | Ok leaf => leaf_for key (concat groups) = Some leaf /\
      exists r, leaf_find key (leaf_entries leaf) = Some r /\ leaf_find key (leaves_entries (concat groups)) = Some r
  | Err e => e = ENODATA /\ leaf_find key (leaves_entries (concat groups)) = None
  end.
Proof.
  intros Hwf. unfold bit_file_search_leaf. pose proof (search_leaf_key_pos_spec this groups key Hwf) as Hpos.
  destruct (bit_file_search_leaf_key_pos this key) as [[lk pos]|e]; cbn [result_bind]; [|done].
  destruct Hpos as (l & Hl & Hlk & ->). cbn [result_bind].
  pose proof (leaf_for_find key (concat groups) (fw_sorted _ _ Hwf) (fw_leaves _ _ Hwf)) as Hf. rewrite Hl in Hf.
  unfold bit_leaf_search. destruct (leaf_find key (leaf_entries l)) as [r|] eqn:Hlf; cbn [result_bind]; [|done].
  split; [done|]. exists r. done.
Qed.

Lemma search_cached_leaf_spec this groups key : file_wf this groups ->
  let '(this', o) := bit_file_search_cached_leaf this key in
  file_wf this' groups /\ bf_file this' = bf_file this /\
  bf_first_key this' = bf_first_key this /\ bf_last_key this' = bf_last_key this /\
  (forall r, o = Some r -> leaf_find key (leaves_entries (concat groups)) = Some r).
Proof.
  intros Hwf. unfold bit_file_search_cached_leaf. pose proof (search_leaf_key_pos_spec this groups key Hwf) as Hpos.
  destruct (bit_file_search_leaf_key_pos this key) as [[lk pos]|e]; [|done].
  destruct Hpos as (l & Hl & Hlk & _). destruct (cache_get (bf_cached_leaf this) lk) as [c leaf] eqn:Hget.
  apply cache_get_spec in Hget as [-> Hview].
  split; [apply file_wf_cache; [done|]; intros k x; rewrite Hview; apply (fw_cache _ _ Hwf)|].
  split; [done|]. split; [done|]. split; [done|]. intros r.
  destruct (cache_view (bf_cached_leaf this) lk) as [x|] eqn:Hx; [|done].
  apply (fw_cache _ _ Hwf) in Hx as [Hx _].
  rewrite (leaf_for_find key _ (fw_sorted _ _ Hwf) (fw_leaves _ _ Hwf)), Hl. rewrite <- Hlk in Hx.
  rewrite (leaf_for_last key _ l (fw_sorted _ _ Hwf) (fw_leaves _ _ Hwf) Hl) in Hx. congruence.
Qed.

Lemma bit_file_search_map this groups key : file_wf this groups ->
  let '(this', r) := bit_file_search this key in
  file_wf this' groups /\
  r = match leaf_find key (leaves_entries (concat groups)) with Some r => Ok r | None => Err ENODATA end.
Proof.
  intros Hwf. unfold bit_file_search. pose proof (search_cached_leaf_spec this groups key Hwf) as Hc.
  destruct (bit_file_search_cached_leaf this key) as [this1 [r|]]; destruct Hc as (Hwf1 & _ & _ & _ & Hr).
  { split; [done|]. by rewrite (Hr r eq_refl). }
  pose proof (search_leaf_spec this1 groups key Hwf1) as Hs.
  destruct (bit_file_search_leaf this1 key) as [leaf|e]; [|destruct Hs as [-> ->]; done].
  destruct Hs as (Hl & r & -> & ->). split; [|done]. by eapply file_wf_put.
Qed.

(** C13. Point lookup in a file: whatever the cache holds, [bit_file_search]
    returns the first record of the key among the sorted records of the file,
    [-ENODATA] when there is none, never reads outside of the nodes it keeps in
    memory, and leaves in the cache only leaves of the file. *)
Theorem bit_file_search_correct this groups key : file_wf this groups ->
  let '(this', r) := bit_file_search this key in
  file_wf this' groups /\
  r = match leaf_find key (leaves_entries (concat groups)) with Some r => Ok r | None => Err ENODATA end.
Proof. apply bit_file_search_map. Qed.

(** ** Range search *)
Section range_search_correct.
Context `{RbTreeSpec}.
Implicit Types (st : range_state).

Definition file_find (groups : list (list bit_leaf)) (key : Z) : option record :=
  leaf_find key (leaves_entries (concat groups)).

Lemma put_matches_other key l results : Forall (fun e : Z * record => e.1 <> key) l -> put_matches key l results = results.
Proof.
  revert results. induction l as [|e l IH]; intros results; [done|]. intros [He Hl]%Forall_cons.
  unfold put_matches in *. cbn. destruct (Z.eqb_spec e.1 key); [done|]. by apply IH.
Qed.

(** With distinct keys the record found is the only one put. *)
Lemma put_matches_one key l r results : StronglySorted Z.lt l.*1 -> leaf_find key l = Some r ->
  put_matches key l results = (rbtree_memtable_put results key (Some r)).1 /\ has_match key l = true.
Proof.
  revert results. induction l as [|[k x] l IH]; intros results Hs Hf; [done|]. cbn in Hs, Hf.
  apply StronglySorted_inv in Hs as [Hs Hk]. unfold put_matches, has_match in *. cbn.
  destruct (Z.eqb_spec k key) as [->|Hne].
  - injection Hf as <-. split; [|done]. fold (put_matches key l (rbtree_memtable_put results key (Some x)).1).
    apply put_matches_other. rewrite Forall_fmap in Hk. eapply Forall_impl; [exact Hk|]. cbn. intros. lia.
  - by apply IH.
Qed.

Lemma leaf_strict key ls l : StronglySorted Z.lt (leaves_entries ls).*1 -> leaf_for key ls = Some l ->
  StronglySorted Z.lt (leaf_entries l).*1.
Proof.
  induction ls as [|x ls IH]; [done|]. unfold leaves_entries. cbn [fmap list_fmap concat leaf_for].
  fold (leaves_entries ls). rewrite fmap_app. intros (_ & Hx & Hs)%StronglySorted_app.
  destruct (key <=? leaf_last_key x); [by intros [= <-]|by apply IH].
Qed.

(** The results hold one record for each key marked as found, and nothing else. *)
Definition range_wf (start : Z) st : Prop :=
  memtable_wf (rs_results st) /\
  forall k c, mt_map (rs_results st) !! k = Some c ->
    start <= k /\ range_found start k (rs_found st) = true /\ exists r, c = (Some r, None).

Lemma range_put_wf start key st r : range_wf start st -> 0 <= start <= key -> key < 2 ^ 31 ->
  range_wf start (range_put start key r st).
Proof.
  intros [Hw Hm] Hs Hk. pose proof (memtable_put_map (rs_results st) key (Some r) Hw ltac:(lia)) as Hput.
  unfold range_wf, range_put. cbn [rs_results rs_found].
  destruct (rbtree_memtable_put (rs_results st) key (Some r)) as [m' old]. destruct Hput as (Hw' & Hmap & _). cbn [fst].
  split; [done|]. intros k c. rewrite Hmap. unfold range_found in *.
  destruct (Z.eq_dec k key) as [->|Hne].
  - rewrite lookup_insert_eq, Z.setbit_eq by lia. intros [= <-]. split; [lia|]. split; [done|]. exists r. cbn. f_equal.
    destruct (mt_map (rs_results st) !! key) as [[v n]|] eqn:Hc; [|done].
    destruct (Hm _ _ Hc) as (_ & _ & r' & Heq). by injection Heq.
  - rewrite lookup_insert_ne by done. intros Hc. destruct (Hm _ _ Hc) as (Hsk & Hf & Hr).
    split; [done|]. split; [|done]. rewrite Z.setbit_neq by lia. done.
Qed.

(** One step: the key is looked up unless it was found before. *)
Definition range_step_spec (find : Z -> option record) start key st st' : Prop :=
  range_wf start st' /\ forall k, start <= k ->
  range_found start k (rs_found st') =
    range_found start k (rs_found st) || ((k =? key) && bool_decide (is_Some (find k))) /\
  rbtree_memtable_get (rs_results st') k =
    if (k =? key) && negb (range_found start k (rs_found st))
    then match find k with Some r => Ok r | None => rbtree_memtable_get (rs_results st) k end
    else rbtree_memtable_get (rs_results st) k.

Lemma range_put_step find start key st r : range_wf start st -> 0 <= start <= key -> key < 2 ^ 31 ->
  find key = Some r -> range_found start key (rs_found st) = false ->
  range_step_spec find start key st (range_put start key r st).
Proof.
  intros Hwf Hs Hk Hr Hnf. destruct (memtable_put_get (rs_results st) key r (proj1 Hwf) ltac:(lia)) as (Hw & Hg & Ho).
  split; [by apply range_put_wf|]. intros k Hsk. unfold range_put. cbn [rs_found rs_results]. unfold range_found in *.
  destruct (Z.eqb_spec k key) as [->|Hne]; cbn [andb].
  - rewrite Z.setbit_eq, Hnf, Hr by lia. done.
  - rewrite Z.setbit_neq by lia. rewrite orb_false_r. split; [done|]. by apply Ho.
Qed.

Lemma range_skip_step find start key st : range_wf start st ->
  range_found start key (rs_found st) = true \/ find key = None ->
  range_step_spec find start key st st.
Proof.
  intros Hwf Hor. split; [done|]. intros k Hk.
  destruct (Z.eqb_spec k key) as [->|Hne]; cbn [andb]; [|by rewrite orb_false_r].
  destruct Hor as [->|Hn]; [done|]. rewrite Hn. rewrite bool_decide_eq_false_2 by (by intros [? ?]).
  rewrite orb_false_r. split; [done|]. by destruct (range_found start key (rs_found st)).
Qed.

(** What the loop from [key] to [end_] does. *)
Definition range_spec groups start key end_ st st' : Prop :=
  range_wf start st' /\ forall k, start <= k ->
  range_found start k (rs_found st') =
    range_found start k (rs_found st) || ((key <=? k) && (k <=? end_) && bool_decide (is_Some (file_find groups k))) /\
  rbtree_memtable_get (rs_results st') k =
    if (key <=? k) && (k <=? end_) && negb (range_found start k (rs_found st))
    then match file_find groups k with Some r => Ok r | None => rbtree_memtable_get (rs_results st) k end
    else rbtree_memtable_get (rs_results st) k.

Lemma range_spec_cons groups start key end_ st st1 st' : key <= end_ ->
  range_step_spec (file_find groups) start key st st1 -> range_spec groups start (key + 1) end_ st1 st' ->
  range_spec groups start key end_ st st'.
Proof.
  intros Hle [_ Hstep] [Hwf Hrest]. split; [done|]. intros k Hk.
  destruct (Hstep k Hk) as [Hf Hg]. destruct (Hrest k Hk) as [-> ->]. rewrite Hf, Hg.
  destruct (Z.eqb_spec k key) as [->|Hne]; cbn [andb].
  - rewrite Z.leb_refl. destruct (Z.leb_spec (key + 1) key); [lia|]. destruct (Z.leb_spec key end_); [|lia].
    cbn [andb]. by rewrite orb_false_r.
  - rewrite orb_false_r. destruct (Z.leb_spec (key + 1) k), (Z.leb_spec key k); try lia; done.
Qed.

Lemma range_spec_jump groups start key key' end_ st st' : key <= key' ->
  (forall k, key <= k < key' -> file_find groups k = None) ->
  range_spec groups start key' end_ st st' -> range_spec groups start key end_ st st'.
Proof.
  intros Hle Hnone [Hwf Hrest]. split; [done|]. intros k Hk. destruct (Hrest k Hk) as [-> ->].
  destruct (Z.leb_spec key' k), (Z.leb_spec key k); try lia; [done|..]; cbn [andb]; [|done].
  rewrite (Hnone k) by lia. rewrite bool_decide_eq_false_2 by (by intros [? ?]). rewrite andb_false_r.
  by destruct ((k <=? end_) && negb (range_found start k (rs_found st))).
Qed.

Lemma range_spec_nil groups start key end_ st : end_ < key -> range_wf start st -> range_spec groups start key end_ st st.
Proof.
  intros Hlt Hwf. split; [done|]. intros k _.
  destruct (Z.leb_spec key k), (Z.leb_spec k end_); try lia; cbn; by rewrite orb_false_r.
Qed.

Lemma below_first this groups k : file_wf this groups -> k < bf_first_key this -> file_find groups k = None.
Proof.
  intros Hwf Hk. apply leaf_find_none. pose proof (fw_first _ _ Hwf) as Hf. pose proof (fw_sorted _ _ Hwf) as Hs.
  destruct (leaves_entries (concat groups)) as [|[x r] l]; [constructor|]. cbn in Hf. injection Hf as ->.
  unfold keys_le in Hs. cbn in Hs. apply StronglySorted_inv in Hs as [_ Hs]. rewrite Forall_fmap in Hs.
  constructor; [cbn; lia|]. eapply Forall_impl; [exact Hs|]. cbn. intros. lia.
Qed.

Lemma bit_range_loop_spec groups start end_ n : StronglySorted Z.lt (leaves_entries (concat groups)).*1 ->
  0 <= start -> end_ < 2 ^ 31 ->
  forall this key st this' st', file_wf this groups -> range_wf start st -> start <= key ->
  (Z.to_nat (end_ - key + 1) <= n)%nat -> bf_first_key this <= end_ ->
  bit_range_loop n this start key end_ st = (this', st') ->
  file_wf this' groups /\ range_spec groups start key end_ st st'.
Proof.
  intros Hstrict Hs He. induction n as [|n IH]; intros this key st this' st' Hwf Hst Hk Hn Hfe; cbn [bit_range_loop].
  { intros [= <- <-]. split; [done|]. apply range_spec_nil; [lia|done]. }
  destruct (Z.leb_spec key end_) as [Hle|Hgt].
  2: { intros [= <- <-]. split; [done|]. by apply range_spec_nil. }
  set (key' := if key <? bf_first_key this then bf_first_key this else key).
  assert (key <= key' /\ key' <= end_ /\ forall k, key <= k < key' -> file_find groups k = None) as (Hkk & Hke & Hnone).
  { subst key'. destruct (Z.ltb_spec key (bf_first_key this)); (split; [lia|]; split; [lia|]); intros; [|lia].
    eapply below_first; [done|lia]. }
  assert (forall this1 st1, file_wf this1 groups -> bf_first_key this1 <= end_ -> range_step_spec (file_find groups) start key' st st1 ->
    bit_range_loop n this1 start (key' + 1) end_ st1 = (this', st') ->
    file_wf this' groups /\ range_spec groups start key end_ st st') as Hnext.
  { intros this1 st1 Hw1 Hf1 Hstep Hrun. pose proof Hstep as [Hwf1 _].
    apply IH in Hrun as [Hw' Hspec]; [|done|done|lia|lia|done].
    split; [done|]. eapply range_spec_jump; [exact Hkk|exact Hnone|]. by eapply range_spec_cons. }
  destruct (range_found start key' (rs_found st)) eqn:Hfound.
  { apply Hnext; [done|done|]. apply range_skip_step; auto. }
  pose proof (search_cached_leaf_spec this groups key' Hwf) as Hc.
  destruct (bit_file_search_cached_leaf this key') as [this1 [r|]]; destruct Hc as (Hw1 & _ & Hf1 & _ & Hr).
  { apply Hnext; [done|by rewrite Hf1|]. apply range_put_step; [done|lia|lia| |done]. by apply Hr. }
  pose proof (search_leaf_spec this1 groups key' Hw1) as Hsl.
  destruct (bit_file_search_leaf this1 key') as [leaf|e].
  2: { destruct Hsl as [_ Hsl]. apply Hnext; [done|by rewrite Hf1|]. apply range_skip_step; auto. }
  destruct Hsl as (Hl & r & Hlf & Hff).
  destruct (put_matches_one key' (leaf_entries leaf) r (rs_results st) (leaf_strict _ _ _ Hstrict Hl) Hlf) as [-> ->].
  apply Hnext; [by eapply file_wf_put|by rewrite <- Hf1 in Hfe|].
  by apply (range_put_step (file_find groups) start key' st r); [|lia|lia|..].
Qed.

Lemma above_last this groups k : file_wf this groups -> bf_last_key this < k -> file_find groups k = None.
Proof.
  intros Hwf Hk. apply leaf_find_none.
  eapply Forall_impl; [apply (sorted_last_bound _ _ (fw_sorted _ _ Hwf) (fw_last _ _ Hwf))|]. cbn. intros. lia.
Qed.

Lemma bit_file_range_search_map this groups start end_ st :
  file_wf this groups -> StronglySorted Z.lt (leaves_entries (concat groups)).*1 ->
  range_wf start st -> 0 <= start -> end_ < 2 ^ 31 ->
  let '(this', st') := bit_file_range_search this start end_ st in
  file_wf this' groups /\ range_spec groups start start end_ st st'.
Proof.
  intros Hwf Hstrict Hst Hs He. unfold bit_file_range_search.
  destruct (Z.ltb_spec (bf_last_key this) start) as [Hlo|Hlo]; cbn [orb].
  { split; [done|]. apply (range_spec_jump _ _ _ (Z.max start (end_ + 1))); [lia| |apply range_spec_nil; [lia|done]].
    intros. eapply above_last; [done|lia]. }
  destruct (Z.ltb_spec end_ (bf_first_key this)) as [Hhi|Hhi].
  { split; [done|]. apply (range_spec_jump _ _ _ (Z.max start (end_ + 1))); [lia| |apply range_spec_nil; [lia|done]].
    intros. eapply below_first; [done|lia]. }
  destruct (bit_range_loop _ this start start _ st) as [this' st'] eqn:Hrun.
  assert (bf_first_key this <= bf_last_key this) as Hfl.
  { destruct (Z.le_gt_cases (bf_first_key this) (bf_last_key this)) as [|Hgt]; [done|].
    pose proof (fw_first _ _ Hwf) as Hf. pose proof (sorted_last_bound _ _ (fw_sorted _ _ Hwf) (fw_last _ _ Hwf)) as Hb.
    destruct (leaves_entries (concat groups)) as [|e l]; [done|]. cbn in Hf. injection Hf as Hf.
    apply Forall_cons in Hb as [Hb _]. lia. }
  apply (bit_range_loop_spec groups start _ _ Hstrict Hs) in Hrun as [Hw' Hspec];
    [|destruct (Z.ltb_spec (bf_last_key this) end_); lia|done|done|lia|lia|destruct (Z.ltb_spec (bf_last_key this) end_); lia].
  split; [done|]. destruct (Z.ltb_spec (bf_last_key this) end_) as [Hl|]; [|done].
  destruct Hspec as [Hw Hspec]. split; [done|]. intros k Hk. destruct (Hspec k Hk) as [-> ->].
  destruct (Z.leb_spec k (bf_last_key this)), (Z.leb_spec k end_); try lia; try done.
  rewrite (above_last this groups k) by (done || lia). rewrite bool_decide_eq_false_2 by (by intros [? ?]).
  rewrite !andb_false_r. cbn. by destruct ((start <=? k) && true && negb (range_found start k (rs_found st))).
Qed.

(** A search changes nothing of a file but its cache. *)
Definition same_file this this' : Prop := exists c, this' = with_cache this c.

Lemma same_file_refl this : same_file this this.
Proof. exists (bf_cached_leaf this). by destruct this. Qed.

Lemma same_file_trans f g h : same_file f g -> same_file g h -> same_file f h.
Proof. intros [c ->] [c' ->]. by exists c'. Qed.

Lemma same_file_put this this1 k leaf : same_file this this1 ->
  same_file this (with_cache this1 (cache_put (bf_cached_leaf this1) k leaf)).
Proof. intros [c ->]. by eexists. Qed.

Lemma search_cached_leaf_same this key : same_file this (bit_file_search_cached_leaf this key).1.
Proof.
  unfold bit_file_search_cached_leaf. destruct (bit_file_search_leaf_key_pos this key) as [[lk pos]|e]; [|apply same_file_refl].
  destruct (cache_get (bf_cached_leaf this) lk) as [c o]. by exists c.
Qed.

Lemma bit_file_search_same this key : same_file this (bit_file_search this key).1.
Proof.
  unfold bit_file_search. pose proof (search_cached_leaf_same this key) as Hs.
  destruct (bit_file_search_cached_leaf this key) as [this1 [r|]]; [done|].
  destruct (bit_file_search_leaf this1 key); [by apply same_file_put|done].
Qed.

Lemma bit_range_loop_same n : forall this start key end_ st, same_file this (bit_range_loop n this start key end_ st).1.
Proof.
  induction n as [|n IH]; intros this start key end_ st; cbn [bit_range_loop]; [apply same_file_refl|].
  destruct (key <=? end_); [|apply same_file_refl]. destruct (range_found start _ _); [apply IH|].
  pose proof (search_cached_leaf_same this (if key <? bf_first_key this then bf_first_key this else key)) as Hs.
  destruct (bit_file_search_cached_leaf this _) as [this1 [r|]]; [by eapply same_file_trans|].
  destruct (bit_file_search_leaf this1 _); (eapply same_file_trans; [|apply IH]); [by apply same_file_put|done].
Qed.

Lemma bit_file_range_search_same this start end_ st : same_file this (bit_file_range_search this start end_ st).1.
Proof.
  unfold bit_file_range_search. destruct ((bf_last_key this <? start) || (end_ <? bf_first_key this)); [apply same_file_refl|].
  apply bit_range_loop_same.
Qed.

(** Range search agrees with point lookup when the keys of the file are
    distinct: every key of the interval that was not found before gets the
    record a point lookup returns, if there is one, and is marked found;
    the results of every other key stay as they were. *)
Theorem bit_file_range_search_agrees this groups start end_ st :
  file_wf this groups -> StronglySorted Z.lt (leaves_entries (concat groups)).*1 ->
  range_wf start st -> 0 <= start -> end_ < 2 ^ 31 ->
  let st' := (bit_file_range_search this start end_ st).2 in
  forall k, start <= k <= end_ ->
  rbtree_memtable_get (rs_results st') k =
    (if range_found start k (rs_found st) then rbtree_memtable_get (rs_results st) k
     else match (bit_file_search this k).2 with Ok r => Ok r | Err _ => rbtree_memtable_get (rs_results st) k end) /\
  range_found start k (rs_found st') = range_found start k (rs_found st) || is_ok (bit_file_search this k).2.
Proof.
  intros Hwf Hstrict Hst Hs He. cbv zeta. intros k Hk.
  pose proof (bit_file_range_search_map this groups start end_ st Hwf Hstrict Hst Hs He) as Hmap.
  destruct (bit_file_range_search this start end_ st) as [this' st']. destruct Hmap as (_ & _ & Hspec). cbn [snd].
  pose proof (bit_file_search_map this groups k Hwf) as Hp.
  destruct (bit_file_search this k) as [this2 r2]. destruct Hp as [_ ->]. cbn [snd].
  destruct (Hspec k ltac:(lia)) as [-> ->]. fold (file_find groups k).
  destruct (Z.leb_spec start k); [|lia]. destruct (Z.leb_spec k end_); [|lia]. cbn [andb].
  destruct (range_found start k (rs_found st)), (file_find groups k); cbn; done.
Qed.
End range_search_correct.

(** ** Iteration *)

(** Every leaf but the last is full and leads to the next one. *)
Fixpoint leaf_chain (s : store) (l : bit_leaf) (ls : list bit_leaf) : Prop :=
  match ls with
  | [] => True
  | l' :: ls => Z.of_nat (length (leaf_entries l)) = BIT_LEAF_LEN /\
      read_node s (leaf_next_pos l) true = Ok (LeafNode l') /\ leaf_chain s l' ls
  end.

Lemma iterate_chain this ls : forall l rest done_ fuel it,
  Forall (fun l => Z.of_nat (length (leaf_entries l)) <= BIT_LEAF_LEN) (l :: ls) ->
  Forall (fun l => leaf_entries l <> []) ls -> leaf_chain (bf_file this) l ls ->
  bi_file it = this -> bi_leaf it = l -> bi_has_next it = true ->
  leaf_entries l = done_ ++ rest -> rest <> [] -> bi_cur_record it = Z.of_nat (length done_) ->
  bf_nr_record this = bi_count it + Z.of_nat (length (rest ++ leaves_entries ls)) ->
  (length (rest ++ leaves_entries ls) < fuel)%nat ->
  iterate fuel it = Some (Ok (rest ++ leaves_entries ls)).
Proof.
  induction ls as [|l' ls IHls]; intros l rest.
  all: induction rest as [|e rest IHr]; intros done_ fuel it Hcap Hne Hch Hf Hl Hnext Hent Hr Hcur Hnr Hfuel; [done|].
  all: destruct fuel as [|fuel]; [lia|]; cbn [iterate]; unfold bit_iterator_has_next; rewrite Hnext.
  all: unfold bit_iterator_next; rewrite Hnext, Hf, Hl; cbn [negb]; rewrite Hcur, Nat2Z.id, Hent, list_lookup_middle by done.
  all: pose proof Hcap as [Hlen _]%Forall_cons; rewrite Hent, length_app in Hlen; cbn [length app] in Hlen, Hnr, Hfuel.
  - unfold leaves_entries in *. cbn [fmap list_fmap concat] in *. rewrite app_nil_r in *.
    destruct rest as [|e' rest].
    + destruct (Z.leb_spec (bf_nr_record this) (bi_count it + 1)); [|cbn in Hnr; lia].
      destruct fuel as [|fuel]; [cbn in Hfuel; lia|]. cbn [iterate bit_iterator_has_next bi_has_next]. done.
    + cbn [length] in *. destruct (Z.leb_spec (bf_nr_record this) (bi_count it + 1)); [lia|].
      destruct (Z.eqb_spec (Z.of_nat (length done_) + 1) BIT_LEAF_LEN); [lia|].
      erewrite (IHr (done_ ++ [e]) fuel); [done|..]; try done; cbn [bi_count bi_cur_record].
      * by rewrite <- app_assoc.
      * rewrite length_app. cbn. lia.
      * cbn. lia.
      * cbn. lia.
  - destruct Hch as (Hfull & Hread & Hch). rewrite Hent, length_app in Hfull. cbn [length] in Hfull.
    apply Forall_cons in Hne as [Hnel' Hne].
    assert (leaves_entries (l' :: ls) = leaf_entries l' ++ leaves_entries ls) as Hle by done.
    assert (1 <= length (leaf_entries l'))%nat by (destruct (leaf_entries l'); [done|cbn; lia]).
    rewrite length_app, Hle, length_app in Hnr, Hfuel.
    destruct (Z.leb_spec (bf_nr_record this) (bi_count it + 1)); [lia|].
    destruct rest as [|e' rest].
    + destruct (Z.eqb_spec (Z.of_nat (length done_) + 1) BIT_LEAF_LEN); [|cbn in Hfull; lia].
      rewrite Hread. cbn [app]. rewrite Hle.
      erewrite (IHls l' (leaf_entries l') [] fuel); [done|..]; try done; cbn [bi_count bi_cur_record].
      * by apply Forall_cons in Hcap as [_ ?].
      * rewrite length_app. cbn in *. lia.
      * rewrite length_app. cbn in *. lia.
    + destruct (Z.eqb_spec (Z.of_nat (length done_) + 1) BIT_LEAF_LEN); [cbn in Hfull; lia|].
      erewrite (IHr (done_ ++ [e]) fuel); [done|..]; try done; cbn [bi_count bi_cur_record].
      * by constructor.
      * cbn [leaf_chain]. rewrite Hent, length_app. done.
      * by rewrite <- app_assoc.
      * rewrite length_app. cbn. lia.
      * rewrite length_app, Hle, length_app. cbn in *. lia.
      * rewrite length_app, Hle, length_app. cbn in *. lia.
Qed.

(** What a scan of the whole file needs beyond [file_wf]. *)
Record file_scannable this (groups : list (list bit_leaf)) : Prop := {
  fs_chain : match concat groups with [] => True | l :: ls => leaf_chain (bf_file this) l ls end;
  fs_capacity : Forall (fun l => Z.of_nat (length (leaf_entries l)) <= BIT_LEAF_LEN) (concat groups);
  fs_count : bf_nr_record this = Z.of_nat (length (leaves_entries (concat groups)))
}.

(** A scan stops as soon as it has returned all records, so that fuel for one
    more step than there are records is enough. *)
Lemma bit_file_scan this groups : file_wf this groups -> file_scannable this groups ->
  exists it, bit_iterator_init this = Ok it /\
    iterate (S (length (leaves_entries (concat groups)))) it = Some (Ok (leaves_entries (concat groups))).
Proof.
  intros Hwf [Hch Hcap Hnr]. unfold bit_iterator_init, bit_file_first_leaf.
  pose proof (search_leaf_spec this groups (bf_first_key this) Hwf) as Hs.
  pose proof (fw_first _ _ Hwf) as Hf. pose proof (fw_leaves _ _ Hwf) as Hne.
  destruct (concat groups) as [|l ls] eqn:Hg; [done|].
  assert (leaves_entries (l :: ls) = leaf_entries l ++ leaves_entries ls) as Hle by done.
  pose proof Hne as [Hnl Hnls]%Forall_cons. destruct (leaf_entries l) as [|[k r] es] eqn:Hes; [done|].
  rewrite Hle in Hf. cbn in Hf. injection Hf as Hk. subst k.
  destruct (bit_file_search_leaf this (bf_first_key this)) as [leaf|e].
  2: { destruct Hs as [_ Hs]. rewrite Hle in Hs. cbn in Hs. by rewrite Z.eqb_refl in Hs. }
  destruct Hs as (Hfor & _). cbn [leaf_for] in Hfor.
  destruct (leaf_last_in l) as [x Hx]; [by rewrite Hes|].
  pose proof (fw_sorted _ _ Hwf) as Hsort. rewrite Hg, Hle in Hsort. unfold keys_le in Hsort. cbn in Hsort.
  apply StronglySorted_inv in Hsort as [_ Hsort]. rewrite Forall_fmap, Forall_app in Hsort. destruct Hsort as [Hsort _].
  assert (bf_first_key this <= leaf_last_key l) as Hfl.
  { rewrite Hes in Hx. apply elem_of_cons in Hx as [Hx|Hx]; [injection Hx as ->; lia|].
    rewrite Forall_forall in Hsort. by apply (Hsort _ Hx). }
  destruct (Z.leb_spec (bf_first_key this) (leaf_last_key l)); [|lia]. injection Hfor as <-.
  eexists. split; [reflexivity|].
  assert (leaves_entries (l :: ls) = ((bf_first_key this, r) :: es) ++ leaves_entries ls) as Hle' by (by rewrite Hle).
  rewrite Hle' in *.
  apply (iterate_chain this ls l ((bf_first_key this, r) :: es) []); try done; cbn [bi_count bi_cur_record]; lia.
Qed.

(** Between two calls of [next]: the records [rest] are still to come. *)
Definition iter_ok (groups : list (list bit_leaf)) (it : bit_iterator) (rest : list (Z * record)) : Prop :=
  (bi_has_next it = false /\ rest = []) \/
  (exists before ls done_ here, concat groups = before ++ bi_leaf it :: ls /\ bi_has_next it = true /\
     leaf_entries (bi_leaf it) = done_ ++ here /\ here <> [] /\ bi_cur_record it = Z.of_nat (length done_) /\
     rest = here ++ leaves_entries ls /\ bf_nr_record (bi_file it) = bi_count it + Z.of_nat (length rest)).

Lemma iter_has_next groups it rest : iter_ok groups it rest -> bit_iterator_has_next it = match rest with [] => false | _ => true end.
Proof.
  unfold bit_iterator_has_next. intros [[-> ->]|(before & ls & done_ & here & _ & -> & _ & Hne & _ & -> & _)]; [done|].
  by destruct here.
Qed.

Lemma iter_start this groups : file_wf this groups -> file_scannable this groups ->
  exists it, bit_iterator_init this = Ok it /\ bi_file it = this /\ iter_ok groups it (leaves_entries (concat groups)).
Proof.
  intros Hwf Hscan. destruct (bit_file_scan this groups Hwf Hscan) as (it & Hinit & _). exists it. split; [done|].
  unfold bit_iterator_init, bit_file_first_leaf in Hinit. pose proof (search_leaf_spec this groups (bf_first_key this) Hwf) as Hs.
  destruct (bit_file_search_leaf this (bf_first_key this)) as [leaf|]; [|done]. injection Hinit as <-. split; [done|].
  destruct Hscan as [Hch Hcap Hnr]. pose proof (fw_first _ _ Hwf) as Hf. pose proof (fw_leaves _ _ Hwf) as Hne.
  pose proof (fw_sorted _ _ Hwf) as Hsort. destruct (concat groups) as [|l ls] eqn:Hg; [done|].
  destruct Hs as (Hfor & _). cbn [leaf_for] in Hfor. apply Forall_cons in Hne as [Hnl _].
  assert (leaves_entries (l :: ls) = leaf_entries l ++ leaves_entries ls) as Hle by done. rewrite Hle in Hf, Hsort, Hnr.
  destruct (leaf_last_in l Hnl) as [x Hx].
  assert (bf_first_key this <= leaf_last_key l) as Hfl.
  { destruct (leaf_entries l) as [|[k r] es]; [done|]. cbn in Hf. injection Hf as <-.
    unfold keys_le in Hsort. cbn in Hsort. apply StronglySorted_inv in Hsort as [_ Hsort].
    rewrite Forall_fmap, Forall_app in Hsort. destruct Hsort as [Hsort _]. apply elem_of_cons in Hx as [Hx|Hx].
    - injection Hx as -> _. lia.
    - rewrite Forall_forall in Hsort. by apply (Hsort _ Hx). }
  destruct (Z.leb_spec (bf_first_key this) (leaf_last_key l)); [|lia]. injection Hfor as <-.
  right. exists [], ls, [], (leaf_entries l). cbn [bi_file bi_count bi_has_next bi_leaf bi_cur_record]. by rewrite Hle, Hnr.
Qed.

Lemma leaf_chain_step s before : forall l0 tl x y ls, leaf_chain s l0 tl -> l0 :: tl = before ++ x :: y :: ls ->
  Z.of_nat (length (leaf_entries x)) = BIT_LEAF_LEN /\ read_node s (leaf_next_pos x) true = Ok (LeafNode y).
Proof.
  induction before as [|b before IH]; intros l0 tl x y ls Hch Heq.
  - injection Heq as -> ->. cbn in Hch. tauto.
  - injection Heq as -> Heq. destruct tl as [|l1 tl]; [by destruct before|]. destruct Hch as (_ & _ & Hch).
    by apply (IH l1 tl x y ls).
Qed.

(** One call of [next]. *)
Lemma iter_step this groups it e rest : file_wf this groups -> file_scannable this groups -> bi_file it = this ->
  iter_ok groups it (e :: rest) ->
  exists it', bit_iterator_next it = (it', Ok e) /\ bi_file it' = this /\ iter_ok groups it' rest.
Proof.
  intros Hwf [Hch Hcap _] Hf [[_ Hn]|(before & ls & done_ & here & Hg & Hnext & Hent & Hne & Hcur & Hrest & Hnr)]; [done|].
  destruct here as [|e' here]; [done|]. injection Hrest as <- Hrest. unfold bit_iterator_next.
  rewrite Hnext, Hcur, Nat2Z.id, Hent, list_lookup_middle, Hf by done. rewrite Hf in Hnr. cbn [negb length] in *.
  assert (Z.of_nat (length (leaf_entries (bi_leaf it))) <= BIT_LEAF_LEN) as Hlen.
  { rewrite Forall_forall in Hcap. apply Hcap. rewrite Hg. apply elem_of_app. right. by left. }
  rewrite Hent, length_app in Hlen. cbn [length] in Hlen.
  destruct (Z.leb_spec (bf_nr_record this) (bi_count it + 1)).
  { eexists. split; [done|]. split; [done|]. left. split; [done|]. destruct rest; [done|cbn in Hnr; lia]. }
  destruct (Z.eqb_spec (Z.of_nat (length done_) + 1) BIT_LEAF_LEN) as [Hfull|Hmore].
  - assert (here = []) as -> by (destruct here; [done|cbn in Hlen; lia]). cbn [app] in Hrest.
    destruct ls as [|y ls]; [subst rest; cbn in Hnr; lia|].
    destruct (concat groups) as [|l0 tl] eqn:Hcg; [by destruct before|].
    destruct (leaf_chain_step _ before l0 tl (bi_leaf it) y ls Hch Hg) as [_ Hread]. rewrite Hread.
    eexists. split; [done|]. split; [done|]. right.
    assert (leaf_entries y <> []) as Hy.
    { pose proof (fw_leaves _ _ Hwf) as Hl. rewrite Hcg, Hg, Forall_app in Hl. destruct Hl as [_ Hl].
      by apply Forall_cons in Hl as [_ [Hl _]%Forall_cons]. }
    exists (before ++ [bi_leaf it]), ls, [], (leaf_entries y). cbn [bi_leaf bi_has_next bi_cur_record bi_file bi_count].
    rewrite <- app_assoc, Hcg. split; [done|]. split; [done|]. split; [done|]. split; [done|]. split; [done|].
    split; [done|]. lia.
  - eexists. split; [done|]. split; [done|]. destruct here as [|e2 here].
    + (* the last leaf of a file whose count is larger: impossible unless a leaf follows *)
      destruct ls as [|y ls]; [subst rest; cbn in Hnr; lia|].
      destruct (concat groups) as [|l0 tl] eqn:Hcg; [by destruct before|].
      destruct (leaf_chain_step _ before l0 tl (bi_leaf it) y ls Hch Hg) as [Hl _]. rewrite Hent, length_app in Hl. cbn in Hl. lia.
    + right. exists before, ls, (done_ ++ [e]), (e2 :: here). cbn [bi_leaf bi_has_next bi_cur_record bi_file bi_count].
      rewrite <- app_assoc, length_app. cbn [length app]. split; [done|]. split; [done|]. split; [done|]. split; [done|].
      split; [lia|]. split; [done|]. lia.
Qed.

(** Iterating over a file yields every record, in order, exactly once, and
    stops: the scan that compaction relies on. *)
Theorem bit_file_iterator_complete this groups : file_wf this groups -> file_scannable this groups ->
  exists it, bit_iterator_init this = Ok it /\
    iterate (S (length (leaves_entries (concat groups)))) it = Some (Ok (leaves_entries (concat groups))).
Proof. apply bit_file_scan. Qed.
End bit_file.

(** ** Concrete runs *)

(** Nodes at their positions, as written. *)
#[export] Instance map_nodes : NodeStore := {|
  store := gmap Z bit_node;
  read_node s pos is_leaf :=
    match s !! pos with
    | Some (LeafNode l) => if is_leaf then Ok (LeafNode l) else Err EBADMSG
    | Some (InnerNode c) => if is_leaf then Err EBADMSG else Ok (InnerNode c)
    | None => Err EBADMSG
    end
|}.

#[export] Instance map_nodes_spec : NodeStoreSpec.
Proof.
  split; cbn. intros s pos is_leaf n. destruct (s !! pos) as [[l|c]|], is_leaf; try done; by intros [= <-].
Qed.

Definition empty_lru : lru bit_leaf.
Proof.
  refine (exist _ (lru_cache_init 128) _).
  split; cbn; [constructor| |done|done|done].
  intros k. rewrite elem_of_nil, lookup_empty. split; [done|by intros [? ?]].
Defined.

(** Two leaves below one inner node below the root. *)
Definition example_leaf1 : bit_leaf :=
  {| leaf_entries := (fun n : nat => (Z.of_nat n, example_record (100 + Z.of_nat n))) <$> seq 0 128; leaf_next_pos := 9000 |}.
Definition example_leaf2 : bit_leaf :=
  {| leaf_entries := [(200, example_record 300); (205, example_record 301)]; leaf_next_pos := 9500 |}.
Definition example_inner : list bit_child :=
  [ {| child_is_leaf := true; child_key := 127; child_pos := 0 |};
    {| child_is_leaf := true; child_key := 205; child_pos := 9000 |} ].
Definition example_root : list bit_child := [ {| child_is_leaf := false; child_key := 205; child_pos := 9500 |} ].
Definition example_store : gmap Z bit_node :=
  <[0 := LeafNode example_leaf1]> (<[9000 := LeafNode example_leaf2]>
    (<[9500 := InnerNode example_inner]> (<[9800 := InnerNode example_root]> ∅))).
Definition example_file : bit_file :=
  bit_file_init example_store 9800 0 1 7 0 205 130 (empty_lru : cache (V := bit_leaf)).
Definition example_groups : list (list bit_leaf) := [[example_leaf1; example_leaf2]].

Lemma example_sorted : StronglySorted Z.lt (leaves_entries (concat example_groups)).*1.
Proof.
  apply Sorted_StronglySorted; [intros x y z; lia|].
  assert (exists l, (leaves_entries (concat example_groups)).*1 = l /\ Sorted Z.lt l) as (l & -> & Hs); [|done].
  eexists. split; [vm_compute; reflexivity|]. repeat constructor.
Qed.

Lemma sorted_lt_le (l : list (Z * record)) : StronglySorted Z.lt l.*1 -> keys_le l.
Proof.
  unfold keys_le. induction 1 as [|x l' Hs IH Hx]; constructor; [done|]. eapply Forall_impl; [exact Hx|]. cbn. lia.
Qed.

Lemma example_file_wf : file_wf example_file example_groups.
Proof.
  split.
  - eexists. split; [reflexivity|]. split; [by repeat constructor|]. by repeat constructor.
  - by repeat constructor.
  - by repeat constructor.
  - apply sorted_lt_le, example_sorted.
  - reflexivity.
  - reflexivity.
  - intros k l. done.
Qed.

Lemma example_file_scannable : file_scannable example_file example_groups.
Proof.
  split; [|by repeat constructor|reflexivity]. split; [reflexivity|]. split; [reflexivity|exact I].
Qed.

Lemma bit_file_search_correct_witness :
  let '(this', r) := bit_file_search example_file 205 in
  file_wf this' example_groups /\
  r = match leaf_find 205 (leaves_entries (concat example_groups)) with Some r => Ok r | None => Err ENODATA end.
Proof. exact (bit_file_search_correct example_file example_groups 205 example_file_wf). Defined.

Definition empty_range : range_state := {| rs_results := rbtree_memtable_create; rs_found := 0 |}.

Lemma empty_range_wf start : range_wf start empty_range.
Proof. split; [apply memtable_create_wf|]. intros k c Hc. by destruct (lookup_empty_Some k c Hc). Qed.

Lemma bit_file_range_search_agrees_witness :
  let st' := (bit_file_range_search example_file 100 300 empty_range).2 in
  rbtree_memtable_get (rs_results st') 200 =
    (if range_found 100 200 (rs_found empty_range) then rbtree_memtable_get (rs_results empty_range) 200
     else match (bit_file_search example_file 200).2 with
          | Ok r => Ok r | Err _ => rbtree_memtable_get (rs_results empty_range) 200 end) /\
  range_found 100 200 (rs_found st') = range_found 100 200 (rs_found empty_range) || is_ok (bit_file_search example_file 200).2.
Proof.
  refine (bit_file_range_search_agrees example_file example_groups 100 300 empty_range example_file_wf example_sorted
    _ _ _ 200 _); [apply empty_range_wf|lia|lia|lia].
Defined.

Lemma bit_file_iterator_complete_witness :
  exists it, bit_iterator_init example_file = Ok it /\
    iterate (S (length (leaves_entries (concat example_groups)))) it = Some (Ok (leaves_entries (concat example_groups))).
Proof. exact (bit_file_iterator_complete example_file example_groups example_file_wf example_file_scannable). Defined.

(** ** A relocated block

    The memtable entry of a block that the collector moved and that was then
    written again holds a record and a negative record; the builder stores both
    under the same key, the record first. *)
Definition relocated_leaf : bit_leaf :=
  {| leaf_entries := [(5, example_record 70); (5, negative)]; leaf_next_pos := 0 |}.
Definition relocated_store : gmap Z bit_node :=
  <[0 := LeafNode relocated_leaf]>
    (<[9500 := InnerNode [ {| child_is_leaf := true; child_key := 5; child_pos := 0 |} ]]>
      (<[9800 := InnerNode [ {| child_is_leaf := false; child_key := 5; child_pos := 9500 |} ]]> ∅)).
Definition relocated_file : bit_file :=
  bit_file_init relocated_store 9800 0 0 7 5 5 2 (empty_lru : cache (V := bit_leaf)).

(** For such a file the two lookups disagree: point lookup returns the
    record (the first of the key), while the first range search over a leaf
    that is not cached puts every record of the key in turn and ends with the
    negative one, so that the block reads as never written; once the leaf is
    cached, range search returns the record as well. *)
Theorem bit_file_range_search_relocated :
  (bit_file_search relocated_file 5).2 = Ok (example_record 70) /\
  rbtree_memtable_get (rs_results (bit_file_range_search relocated_file 5 5 empty_range).2) 5 = Ok negative /\
  let cached := (bit_file_range_search relocated_file 5 5 empty_range).1 in
  rbtree_memtable_get (rs_results (bit_file_range_search cached 5 5 empty_range).2) 5 = Ok (example_record 70).
Proof. vm_compute. repeat split. Qed.
