(* ===== verification/BitNode.v ===== *)
(** * BitNode: the nodes of a file on the disk

    [struct bit_node] of [kernel-module/c/include/lsm_tree.h] as it lies in
    memory, [bit_node_encode] and [bit_node_decode] of
    [kernel-module/c/src/lsm_tree.c], and the reading of a node. The packed
    structure is a byte list; the unused slots of its arrays, which nothing
    reads, are zero. The backing file is a parameter. *)
From S2P Require Import Prelude Layout Bytes Memtable Metadata Crypto BitFile.

(** ** Fixed-width fields *)

Lemma slice_app_l off len (a b : list Z) : (off + len <= length a)%nat -> slice off len (a ++ b) = slice off len a.
Proof.
  intros. unfold slice. rewrite drop_app_le by lia. rewrite take_app_le; [done|]. rewrite length_drop. lia.
Qed.

Lemma slice_app_r off len (a b : list Z) : (length a <= off)%nat -> slice off len (a ++ b) = slice (off - length a) len b.
Proof. intros. unfold slice. by rewrite drop_app_ge. Qed.

Lemma slice_all len (a : list Z) : length a = len -> slice 0 len a = a.
Proof. intros <-. unfold slice. rewrite drop_0. by rewrite firstn_all. Qed.

Lemma slice_prefix len (a b : list Z) : length a = len -> slice 0 len (a ++ b) = a.
Proof. intros Hl. rewrite slice_app_l by lia. by apply slice_all. Qed.

Lemma slice_suffix off len (a b : list Z) : length a = off -> length b = len -> slice off len (a ++ b) = b.
Proof. intros <- <-. rewrite slice_app_r, Nat.sub_diag by lia. by apply slice_all. Qed.

(** The [i]-th field of an array of fields of width [w]. *)
Lemma slice_field {A : Type} (f : A -> list Z) (w : nat) : (forall x, length (f x) = w) ->
  forall (l : list A) i x rest, l !! i = Some x -> slice (i * w) w (concat (f <$> l) ++ rest) = f x.
Proof.
  intros Hw. induction l as [|y l IH]; intros i x rest; [done|]. destruct i as [|i]; cbn [lookup list_lookup fmap list_fmap concat].
  - intros [= ->]. rewrite <- app_assoc. cbn [Nat.mul]. by apply slice_prefix.
  - intros Hi. rewrite <- app_assoc, slice_app_r by (rewrite Hw; lia). rewrite Hw.
    replace (S i * w - w)%nat with (i * w)%nat by lia. by apply IH.
Qed.

Lemma concat_fields_length {A : Type} (f : A -> list Z) (w : nat) : (forall x, length (f x) = w) ->
  forall l : list A, length (concat (f <$> l)) = (length l * w)%nat.
Proof.
  intros Hw. induction l as [|x l IH]; [done|]. cbn [fmap list_fmap concat length]. rewrite length_app, Hw, IH. lia.
Qed.

Lemma slice_bytes_at {A : Type} (f : A -> list Z) (w n : nat) (l : list A) i x : (forall x, length (f x) = w) ->
  (length l * w <= n)%nat -> l !! i = Some x -> slice (i * w) w (bytes_at n (concat (f <$> l))) = f x.
Proof.
  intros Hw Hn Hi. unfold bytes_at. apply lookup_lt_Some in Hi as Hlt.
  rewrite take_app_ge by (rewrite (concat_fields_length f w Hw); lia). by apply slice_field.
Qed.

(** ** The image of a node *)

Definition record_bytes (r : record) : list Z := le_encode 8 (pba r) ++ bytes_at 16 (mac r) ++ bytes_at 16 (key r).
Definition record_of (b : list Z) : record :=
  {| pba := le_decode (slice 0 8 b); mac := slice 8 16 b; key := slice 24 16 b |}.

Definition child_bytes (c : bit_child) : list Z :=
  Z.b2z (child_is_leaf c) :: le_encode 4 (child_key c) ++ le_encode 8 (child_pos c).
Definition child_of_bytes (b : list Z) : bit_child :=
  {| child_is_leaf := Z.odd (default 0 (head b)); child_key := le_decode (slice 1 4 b); child_pos := le_decode (slice 5 8 b) |}.

Definition leaf_len : nat := Z.to_nat BIT_LEAF_LEN.
Definition degree : nat := Z.to_nat DEFAULT_BIT_DEGREE.

Lemma leaf_len_val : leaf_len = 128%nat.
Proof. reflexivity. Qed.
Lemma degree_val : degree = 32%nat.
Proof. reflexivity. Qed.

Definition leaf_bytes (l : bit_leaf) : list Z :=
  le_encode 8 (Z.of_nat (length (leaf_entries l))) ++
  bytes_at (leaf_len * 4) (concat ((fun e : Z * record => le_encode 4 e.1) <$> leaf_entries l)) ++
  bytes_at (leaf_len * 40) (concat ((fun e : Z * record => record_bytes e.2) <$> leaf_entries l)) ++
  le_encode 8 (leaf_next_pos l).

Definition inner_bytes (children : list bit_child) : list Z :=
  le_encode 8 (Z.of_nat (length children)) ++ bytes_at (degree * 13) (concat (child_bytes <$> children)).

(** The flag and the union; the mac is apart. *)
Definition bit_node_bytes (n : bit_node) : list Z :=
  match n with
  | LeafNode l => 1 :: leaf_bytes l
  | InnerNode children => 0 :: inner_bytes children
  end.

Definition leaf_of_bytes (b : list Z) : bit_leaf :=
  let nr_record := Z.to_nat (le_decode (slice 0 8 b)) in
  {| leaf_entries := (fun i => (le_decode (slice (8 + i * 4) 4 b), record_of (slice (8 + leaf_len * 4 + i * 40) 40 b))) <$> seq 0 nr_record;
     leaf_next_pos := le_decode (slice (8 + leaf_len * 44) 8 b) |}.

Definition inner_of_bytes (b : list Z) : list bit_child :=
  let nr_child := Z.to_nat (le_decode (slice 0 8 b)) in
  (fun i => child_of_bytes (slice (8 + i * 13) 13 b)) <$> seq 0 nr_child.

(** The union is read as the caller expects, whatever the flag says. *)
Definition bit_node_of (is_leaf : bool) (plain : list Z) : bit_node :=
  if is_leaf then LeafNode (leaf_of_bytes (drop 1 plain)) else InnerNode (inner_of_bytes (drop 1 plain)).

Definition is_leaf_node (n : bit_node) : bool := match n with LeafNode _ => true | InnerNode _ => false end.

(** What the fields can hold. *)
Record record_ok (r : record) : Prop := {
  ro_pba : 0 <= pba r < 2 ^ 64;
  ro_mac : length (mac r) = 16%nat;
  ro_key : length (key r) = 16%nat
}.

Definition entry_ok (e : Z * record) : Prop := 0 <= e.1 < 2 ^ 32 /\ record_ok e.2.
Definition child_ok (c : bit_child) : Prop := 0 <= child_key c < 2 ^ 32 /\ 0 <= child_pos c < 2 ^ 64.

Definition node_ok (n : bit_node) : Prop :=
  match n with
  | LeafNode l => (length (leaf_entries l) <= leaf_len)%nat /\ Forall entry_ok (leaf_entries l) /\ 0 <= leaf_next_pos l < 2 ^ 64
  | InnerNode children => (length children <= degree)%nat /\ Forall child_ok children
  end.

Lemma record_bytes_length r : length (record_bytes r) = 40%nat.
Proof. unfold record_bytes. by rewrite !length_app, !bytes_at_length, le_encode_length. Qed.

Lemma child_bytes_length c : length (child_bytes c) = 13%nat.
Proof. unfold child_bytes. cbn [length]. by rewrite length_app, !le_encode_length. Qed.

Lemma record_of_bytes r : record_ok r -> record_of (record_bytes r) = r.
Proof.
  intros [Hp Hm Hk]. unfold record_of, record_bytes. rewrite !bytes_at_exact by done.
  rewrite slice_prefix, le_decode_encode by (apply le_encode_length || lia).
  rewrite slice_app_r, le_encode_length by (rewrite le_encode_length; lia). rewrite slice_prefix by done.
  rewrite slice_app_r, le_encode_length by (rewrite le_encode_length; lia). rewrite slice_suffix by done. by destruct r.
Qed.

Lemma child_of_child_bytes c : child_ok c -> child_of_bytes (child_bytes c) = c.
Proof.
  intros [Hk Hp]. unfold child_of_bytes, child_bytes. cbn [head].
  change (Z.b2z (child_is_leaf c) :: le_encode 4 (child_key c) ++ le_encode 8 (child_pos c)) with
    ([Z.b2z (child_is_leaf c)] ++ le_encode 4 (child_key c) ++ le_encode 8 (child_pos c)).
  rewrite (slice_app_r 1), (slice_app_r 5) by (cbn; lia). cbn [length Nat.sub].
  rewrite slice_prefix, le_decode_encode by (apply le_encode_length || lia).
  rewrite slice_suffix, le_decode_encode by (apply le_encode_length || lia). cbn [default from_option id].
  destruct c as [[] ? ?]; done.
Qed.

Lemma leaf_bytes_length l : (length (leaf_bytes l) = 8 + leaf_len * 4 + leaf_len * 40 + 8)%nat.
Proof. unfold leaf_bytes. rewrite !length_app, !bytes_at_length, !le_encode_length. lia. Qed.

Lemma inner_bytes_length c : (length (inner_bytes c) = 8 + degree * 13)%nat.
Proof. unfold inner_bytes. by rewrite length_app, bytes_at_length, le_encode_length. Qed.

Lemma seq_fields {A B : Type} (g : nat -> B) (f : A -> B) (l : list A) :
  (forall i x, l !! i = Some x -> g i = f x) -> g <$> seq 0 (length l) = f <$> l.
Proof.
  intros Hg. apply list_eq. intros i. rewrite !list_lookup_fmap. destruct (l !! i) as [x|] eqn:Hx.
  - rewrite lookup_seq_lt by (by eapply lookup_lt_Some). cbn. by rewrite (Hg _ _ Hx).
  - by rewrite lookup_seq_ge by (by apply lookup_ge_None).
Qed.

Lemma leaf_of_leaf_bytes l : node_ok (LeafNode l) -> leaf_of_bytes (leaf_bytes l) = l.
Proof.
  intros (Hlen & Hent & Hnext). pose proof leaf_len_val as Hll.
  assert (Z.to_nat (le_decode (slice 0 8 (leaf_bytes l))) = length (leaf_entries l)) as Hnr.
  { unfold leaf_bytes. rewrite slice_prefix, le_decode_encode, Nat2Z.id by (apply le_encode_length || lia). done. }
  unfold leaf_of_bytes. rewrite Hnr.
  rewrite (seq_fields _ id). 2: {
    intros i e He. rewrite Forall_lookup in Hent. destruct (Hent _ _ He) as [Hk Hr]. unfold leaf_bytes.
    rewrite slice_app_r, le_encode_length by (rewrite le_encode_length; lia).
    pose proof (lookup_lt_Some _ _ _ He) as Hi.
    rewrite slice_app_l by (rewrite bytes_at_length; lia).
    replace (8 + i * 4 - 8)%nat with (i * 4)%nat by lia.
    rewrite (slice_bytes_at (fun e : Z * record => le_encode 4 e.1) 4 _ _ i e)
      by (done || (intros; apply le_encode_length) || lia).
    rewrite le_decode_encode by lia.
    rewrite slice_app_r, le_encode_length by (rewrite le_encode_length; lia).
    rewrite slice_app_r, bytes_at_length by (rewrite bytes_at_length; lia).
    rewrite slice_app_l by (rewrite bytes_at_length; lia).
    match goal with |- context [slice ?o 40 _] => replace o with (i * 40)%nat by lia end.
    rewrite (slice_bytes_at (fun e : Z * record => record_bytes e.2) 40 _ _ i e)
      by (done || (intros; apply record_bytes_length) || lia).
    rewrite record_of_bytes by done. by destruct e. }
  rewrite list_fmap_id. unfold leaf_bytes.
  rewrite !slice_app_r by (rewrite ?le_encode_length, ?bytes_at_length; lia).
  rewrite !le_encode_length, !bytes_at_length. match goal with |- context [slice ?o 8 _] => replace o with 0%nat by lia end.
  rewrite slice_all, le_decode_encode by (apply le_encode_length || lia). by destruct l.
Qed.

Lemma inner_of_inner_bytes c : node_ok (InnerNode c) -> inner_of_bytes (inner_bytes c) = c.
Proof.
  intros (Hlen & Hc). pose proof degree_val as Hdl.
  assert (Z.to_nat (le_decode (slice 0 8 (inner_bytes c))) = length c) as Hnr.
  { unfold inner_bytes. rewrite slice_prefix, le_decode_encode, Nat2Z.id by (apply le_encode_length || lia). done. }
  unfold inner_of_bytes. rewrite Hnr.
  rewrite (seq_fields _ id); [apply list_fmap_id|]. intros i x Hx. rewrite Forall_lookup in Hc. specialize (Hc _ _ Hx).
  unfold inner_bytes. rewrite slice_app_r, le_encode_length by (rewrite le_encode_length; lia).
  replace (8 + i * 13 - 8)%nat with (i * 13)%nat by lia.
  rewrite (slice_bytes_at child_bytes 13 _ _ i x) by (done || apply child_bytes_length || lia).
  by apply child_of_child_bytes.
Qed.

Lemma bit_node_of_bytes n : node_ok n -> bit_node_of (is_leaf_node n) (bit_node_bytes n) = n.
Proof.
  destruct n as [l|c]; intros Hn.
  - change (LeafNode (leaf_of_bytes (leaf_bytes l)) = LeafNode l). by rewrite leaf_of_leaf_bytes.
  - change (InnerNode (inner_of_bytes (inner_bytes c)) = InnerNode c). by rewrite inner_of_inner_bytes.
Qed.

(** ** Encoding and decoding *)

(** The backing file: bytes at offsets, zero where nothing was written. *)
Class FileIO : Type := {
  kfile : Type;
  file_byte : kfile -> Z -> Z;
  kernel_write : kfile -> Z -> list Z -> kfile
}.

Class FileIOSpec `{FileIO} : Prop := {
  file_byte_write : forall (f : kfile) pos data q,
    file_byte (kernel_write f pos data) q =
      if (pos <=? q) && (q <? pos + Z.of_nat (length data)) then default 0 (data !! Z.to_nat (q - pos)) else file_byte f q
}.

Definition kernel_read `{FileIO} (f : kfile) (pos : Z) (len : nat) : list Z :=
  (fun i => file_byte f (pos + Z.of_nat i)) <$> seq 0 len.

Section bit_node.
Context `{CryptoApiSpec} `{FileIOSpec}.

Definition mac_offset (is_leaf : bool) : nat :=
  Z.to_nat ((if is_leaf then BIT_LEAF_NODE_SIZE else BIT_INNER_NODE_SIZE) - AES_GCM_AUTH_SIZE).

(** The node in memory after encoding in place: the ciphertext and the mac
    behind it. If encryption fails the node stays as it was, [old_mac]
    included, and so does the error, which no caller looks at. *)
Definition bit_node_encode (node : bit_node) (key : list Z) (iv : option (list Z)) (old_mac : list Z) : list Z * result unit :=
  match aes_gcm_cipher_encrypt (bit_node_bytes node) key iv 0 with
  | Ok (cipher, mac) => (cipher ++ mac, Ok tt)
  | Err e => (bit_node_bytes node ++ old_mac, Err e)
  end.

Definition bit_node_decode (data : list Z) (is_leaf : bool) (key : list Z) (iv : option (list Z)) : result (list Z) :=
  let len := mac_offset is_leaf in
  aes_gcm_cipher_decrypt (take len data) key iv (slice len 16 data) 0.

(** A leaf is read with the size of [struct bit_node]. *)
Definition node_size (is_leaf : bool) : nat :=
  Z.to_nat (if is_leaf then BIT_NODE_SIZE else BIT_INNER_NODE_SIZE).

(** What the files are verified against: a node store is the backing file with
    the key of one file. *)
#[export] Instance file_nodes : NodeStore := {|
  store := kfile * list Z;
  read_node s pos is_leaf :=
    match bit_node_decode (kernel_read s.1 pos (node_size is_leaf)) is_leaf s.2 None with
    | Ok plain => Ok (bit_node_of is_leaf plain)
    | Err e => Err e
    end
|}.

#[export] Instance file_nodes_spec : NodeStoreSpec.
Proof.
  split. cbn [read_node file_nodes]. intros s pos is_leaf n.
  destruct (bit_node_decode _ is_leaf s.2 None) as [plain|e]; [|done]. intros [= <-]. by destruct is_leaf.
Qed.

Lemma bit_node_bytes_length n : length (bit_node_bytes n) = mac_offset (is_leaf_node n).
Proof. destruct n as [l|c]; cbn [bit_node_bytes is_leaf_node length]; [rewrite leaf_bytes_length|rewrite inner_bytes_length]; done. Qed.

(** The file holds the bytes [bs] at [pos]. *)
Definition file_holds (f : kfile) (pos : Z) (bs : list Z) : Prop := kernel_read f pos (length bs) = bs.

Lemma kernel_read_lookup f pos len i : (i < len)%nat -> kernel_read f pos len !! i = Some (file_byte f (pos + Z.of_nat i)).
Proof. intros Hi. unfold kernel_read. rewrite list_lookup_fmap, lookup_seq_lt by done. done. Qed.

Lemma file_holds_ext f f' pos bs : file_holds f pos bs ->
  (forall q, pos <= q < pos + Z.of_nat (length bs) -> file_byte f' q = file_byte f q) -> file_holds f' pos bs.
Proof.
  unfold file_holds, kernel_read. intros <- Heq. rewrite length_fmap, length_seq in *.
  apply list_fmap_ext. intros i x Hx. apply lookup_seq in Hx as [-> Hi]. cbn. apply Heq. lia.
Qed.

(** Encoded nodes, when encryption works. *)
Definition encrypts (key : list Z) : Prop := forall data, exists out mac, aes_gcm_cipher_encrypt data key None 0 = Ok (out, mac).

Lemma encode_length node key old_mac : length old_mac = 16%nat ->
  length (bit_node_encode node key None old_mac).1 = node_size (is_leaf_node node).
Proof.
  intros Hm. unfold bit_node_encode.
  assert (node_size (is_leaf_node node) = (mac_offset (is_leaf_node node) + 16)%nat) as -> by (by destruct node).
  rewrite <- bit_node_bytes_length.
  destruct (aes_gcm_cipher_encrypt (bit_node_bytes node) key None 0) as [[out mac]|e] eqn:He; cbn [fst]; rewrite length_app; [|lia].
  unfold aes_gcm_cipher_encrypt in He. apply crypto_aead_encrypt_length in He as [-> ->]. done.
Qed.

Lemma read_node_holds f key pos node old_mac : node_ok node -> encrypts key -> length old_mac = 16%nat ->
  file_holds f pos (bit_node_encode node key None old_mac).1 ->
  read_node (f, key) pos (is_leaf_node node) = Ok node.
Proof.
  intros Hn Hc Hm Hh. unfold file_holds in Hh. rewrite encode_length in Hh by done.
  cbn [read_node file_nodes fst snd]. rewrite Hh. unfold bit_node_decode, bit_node_encode.
  destruct (Hc (bit_node_bytes node)) as (out & mac & He). rewrite He. cbn [fst].
  pose proof He as Hlen. unfold aes_gcm_cipher_encrypt in Hlen. apply crypto_aead_encrypt_length in Hlen as [Ho Hl].
  rewrite bit_node_bytes_length in Ho. rewrite take_app_length' by done. rewrite slice_suffix by done.
  unfold aes_gcm_cipher_decrypt. unfold aes_gcm_cipher_encrypt in He. rewrite (crypto_aead_decrypt_encrypt _ _ _ _ _ _ He).
  by rewrite bit_node_of_bytes.
Qed.

(** C26. A node that [bit_node_encode] has written to the file is read back as it
    was: record by record and child by child, through the packed layout, the
    cipher and the mac behind the data; a single byte range of [BIT_LEAF_NODE_SIZE]
    or [BIT_INNER_NODE_SIZE] is read. *)
Theorem bit_node_roundtrip f pos node key old_mac : node_ok node -> encrypts key -> length old_mac = 16%nat ->
  let bytes := (bit_node_encode node key None old_mac).1 in
  Z.of_nat (length bytes) = (if is_leaf_node node then BIT_LEAF_NODE_SIZE else BIT_INNER_NODE_SIZE) /\
  read_node (kernel_write f pos bytes, key) pos (is_leaf_node node) = Ok node.
Proof.
  intros Hn Hc Hm bytes. pose proof (encode_length node key old_mac Hm) as Hl. fold bytes in Hl. split.
  - rewrite Hl. by destruct node.
  - apply (read_node_holds _ key pos node old_mac); [done..|]. fold bytes. unfold file_holds.
    apply list_eq. intros i. destruct (Nat.lt_ge_cases i (length bytes)) as [Hi|Hi].
    + rewrite kernel_read_lookup, file_byte_write by done.
      destruct (Z.leb_spec pos (pos + Z.of_nat i)); [|lia].
      destruct (Z.ltb_spec (pos + Z.of_nat i) (pos + Z.of_nat (length bytes))); [|lia]. cbn [andb].
      replace (Z.to_nat (pos + Z.of_nat i - pos)) with i by lia.
      destruct (lookup_lt_is_Some_2 _ _ Hi) as [x ->]. done.
    + rewrite (proj2 (lookup_ge_None bytes i)) by lia. apply lookup_ge_None. unfold kernel_read. rewrite length_fmap, length_seq. lia.
Qed.
End bit_node.

(** ** Concrete runs *)

(** A file as the list of its writes, the last first. *)
Fixpoint log_byte (f : list (Z * list Z)) (q : Z) : Z :=
  match f with
  | [] => 0
  | (pos, data) :: f =>
      if (pos <=? q) && (q <? pos + Z.of_nat (length data)) then default 0 (data !! Z.to_nat (q - pos)) else log_byte f q
  end.

#[export] Instance log_file : FileIO := {|
  kfile := list (Z * list Z);
  file_byte := log_byte;
  kernel_write f pos data := (pos, data) :: f
|}.

#[export] Instance log_file_spec : FileIOSpec.
Proof. by split. Qed.

Lemma sum_api_encrypts key : encrypts key.
Proof. intros data. eexists _, _. reflexivity. Qed.

Definition example_children : list bit_child := [ {| child_is_leaf := true; child_key := 7; child_pos := 4096 |} ].

Lemma bit_node_roundtrip_witness :
  let bytes := (bit_node_encode (InnerNode example_children) [5] None (replicate 16 0)).1 in
  Z.of_nat (length bytes) = BIT_INNER_NODE_SIZE /\
  read_node (NodeStore := file_nodes) (kernel_write ([] : kfile) 100 bytes, [5]) 100 false = Ok (InnerNode example_children).
Proof.
  assert (node_ok (InnerNode example_children)) as Hn by (split; [vm_compute; lia|repeat constructor; cbn; lia]).
  pose proof (bit_node_roundtrip ([] : kfile) 100 (InnerNode example_children) [5] (replicate 16 0) Hn (sum_api_encrypts [5]) eq_refl) as Hr.
  exact Hr.
Defined.
