(* ===== verification/BitBuilder.v ===== *)
(** * BitBuilder: writing a file of the LSM tree

    [struct bit_builder] of [kernel-module/c/src/lsm_tree.c]: entries arrive in
    key order; full leaves and full inner nodes go to a buffer as they come up,
    and the buffer goes to the backing file. The buffer is a memory from offsets
    to bytes; [None] stands for a write outside of the buffer or of an array,
    which the code does not guard against. *)
From S2P Require Import Prelude Layout Bytes RbTree Memtable Metadata Crypto Cache BitFile BitNode.

Definition DEFAULT_LSM_FILE_BUILDER_BUFFER_SIZE : Z := SECTORS_PER_SEGMENT * SECTOR_SIZE.

(** [memcpy(buffer + off, bytes, length bytes)] *)
Definition mem_store (b : Z -> Z) (off : Z) (bytes : list Z) : Z -> Z :=
  fun q => if (off <=? q) && (q <? off + Z.of_nat (length bytes)) then default 0 (bytes !! Z.to_nat (q - off)) else b q.

Section bit_builder.
Context `{CryptoApiSpec} `{FileIOSpec} `{LeafCacheSpec bit_leaf}.

(** [old_mac] is what a freshly allocated node holds in its mac, [no_cache] the
    empty cache of a new file. *)
Context (old_mac : list Z) (no_cache : cache (V := bit_leaf)).

(** [struct bit_builder_context]: the nodes of a height that wait for their
    parent, with their positions; [nr] is the length. *)
Abbreviation bit_builder_context := (list (bit_node * Z)).

(** The part of the builder that is output: [file], [begin], [cur], [buffer]. *)
Record bit_output : Type := BitOutput {
  bo_file : kfile;
  bo_begin : Z;
  bo_cur : Z;
  bo_buffer : Z -> Z
}.

Record bit_builder : Type := BitBuilder {
  bb_out : bit_output;
  bb_ctx : list bit_builder_context;
  bb_cur_leaf : list (Z * record);
  bb_has_first_key : bool;
  bb_first_key : Z;
  bb_last_key : Z;
  bb_size : Z;
  bb_height : Z;
  bb_id : Z;
  bb_level : Z;
  bb_version : Z;
  bb_key : list Z
}.

Implicit Types (o : bit_output) (this : bit_builder).

Definition with_out this o (ctx : list bit_builder_context) (cur_leaf : list (Z * record)) : bit_builder :=
  {| bb_out := o; bb_ctx := ctx; bb_cur_leaf := cur_leaf; bb_has_first_key := bb_has_first_key this;
     bb_first_key := bb_first_key this; bb_last_key := bb_last_key this; bb_size := bb_size this;
     bb_height := bb_height this; bb_id := bb_id this; bb_level := bb_level this; bb_version := bb_version this;
     bb_key := bb_key this |}.

(** ** Output *)

(** [begin + cur] *)
Definition out_pos o : Z := u64 (bo_begin o + bo_cur o).

(** The first [cur] bytes of the buffer. *)
Definition out_bytes o : list Z := (fun i => bo_buffer o (Z.of_nat i)) <$> seq 0 (Z.to_nat (bo_cur o)).

Definition bit_builder_buffer_flush_if_full (height : Z) o : bit_output :=
  if DEFAULT_LSM_FILE_BUILDER_BUFFER_SIZE <? bo_cur o + height * BIT_NODE_SIZE
  then {| bo_file := kernel_write (bo_file o) (bo_begin o) (out_bytes o); bo_begin := bo_begin o + bo_cur o;
          bo_cur := 0; bo_buffer := bo_buffer o |}
  else o.

(** [cur += size] *)
Definition out_reserve o (size : Z) : bit_output :=
  {| bo_file := bo_file o; bo_begin := bo_begin o; bo_cur := bo_cur o + size; bo_buffer := bo_buffer o |}.

Definition out_memcpy o (cur : Z) (bytes : list Z) : option bit_output :=
  if cur + Z.of_nat (length bytes) <=? DEFAULT_LSM_FILE_BUILDER_BUFFER_SIZE
  then Some {| bo_file := bo_file o; bo_begin := bo_begin o; bo_cur := bo_cur o; bo_buffer := mem_store (bo_buffer o) cur bytes |}
  else None.

(** ** Inner nodes *)

Definition node_last_key (n : bit_node) : Z :=
  match n with
  | LeafNode l => leaf_last_key l
  | InnerNode children => default 0 (child_key <$> last children)
  end.

Definition __bit_inner (ctx : bit_builder_context) : list bit_child :=
  (fun np : bit_node * Z => {| child_is_leaf := is_leaf_node np.1; child_key := node_last_key np.1; child_pos := np.2 |}) <$> ctx.

(** [ctx[h].nodes[ctx[h].nr] = node; ctx[h].pos[ctx[h].nr] = pos; ctx[h].nr += 1] *)
Definition ctx_push (ctx : list bit_builder_context) (h : nat) (node : bit_node) (pos : Z) : option (list bit_builder_context) :=
  match ctx !! h with
  | Some c => if Z.of_nat (length c) <? DEFAULT_BIT_DEGREE then Some (<[h := c ++ [(node, pos)]]> ctx) else None
  | None => None
  end.

(** The inner node above the nodes waiting at height [h] goes to the buffer and
    waits one level up. *)
Definition push_inner (key : list Z) (h : nat) (c : bit_builder_context) o (ctx : list bit_builder_context)
  : option (bit_output * list bit_builder_context) :=
  let inner_node := InnerNode (__bit_inner c) in
  let node_pos := out_pos o in
  match out_memcpy o (bo_cur o) (bit_node_encode inner_node key None old_mac).1, ctx_push ctx (S h) inner_node node_pos with
  | Some o, Some ctx => Some (out_reserve o BIT_INNER_NODE_SIZE, <[h := []]> ctx)
  | _, _ => None
  end.

(** [while (ctx[h].nr == DEFAULT_BIT_DEGREE)] *)
Fixpoint push_full (fuel : nat) (key : list Z) (h : nat) o (ctx : list bit_builder_context)
  : option (bit_output * list bit_builder_context) :=
  match fuel with
  | O => None
  | S fuel =>
      match ctx !! h with
      | None => None
      | Some c =>
          if Z.of_nat (length c) =? DEFAULT_BIT_DEGREE then
            match push_inner key h c o ctx with
            | None => None
            | Some (o, ctx) => push_full fuel key (S h) o ctx
            end
          else Some (o, ctx)
      end
  end.

(** [while (h < height - 1)]; [n] heights are left. *)
Fixpoint push_rest (n : nat) (key : list Z) (h : nat) o (ctx : list bit_builder_context)
  : option (bit_output * list bit_builder_context) :=
  match n with
  | O => Some (o, ctx)
  | S n =>
      match ctx !! h with
      | None => None
      | Some [] => push_rest n key (S h) o ctx
      | Some c =>
          match push_inner key h c o ctx with
          | None => None
          | Some (o, ctx) => push_rest n key (S h) o ctx
          end
      end
  end.

(** ** Adding an entry *)

Definition note_entry this (key : Z) (val : record) : bit_builder :=
  {| bb_out := bb_out this; bb_ctx := bb_ctx this; bb_cur_leaf := bb_cur_leaf this ++ [(key, val)];
     bb_has_first_key := true; bb_first_key := if bb_has_first_key this then bb_first_key this else key;
     bb_last_key := key; bb_size := u64 (bb_size this + 1); bb_height := bb_height this; bb_id := bb_id this;
     bb_level := bb_level this; bb_version := bb_version this; bb_key := bb_key this |}.

Definition bit_builder_add_entry this (key : Z) (val : record) : option bit_builder :=
  let pos := out_pos (bb_out this) in
  let this := note_entry this key val in
  if Z.of_nat (length (bb_cur_leaf this)) <? BIT_LEAF_LEN then Some this
  else
    let leaf := {| leaf_entries := bb_cur_leaf this; leaf_next_pos := 0 |} in
    match ctx_push (bb_ctx this) 0 (LeafNode leaf) pos with
    | None => None
    | Some ctx =>
        let o := bit_builder_buffer_flush_if_full (bb_height this) (bb_out this) in
        let cur := bo_cur o in
        match push_full (S (Z.to_nat (bb_height this))) (bb_key this) 0 (out_reserve o BIT_LEAF_NODE_SIZE) ctx with
        | None => None
        | Some (o, ctx) =>
            let leaf := {| leaf_entries := bb_cur_leaf this; leaf_next_pos := out_pos o |} in
            match out_memcpy o cur (bit_node_encode (LeafNode leaf) (bb_key this) None old_mac).1 with
            | None => None
            | Some o => Some (with_out this o ctx [])
            end
        end
    end.

(** ** Completing the file *)

(** The leaf that is not full is written last, behind the inner nodes in time
    but at a position before them. *)
Definition complete_nodes this : option (bit_output * list bit_builder_context) :=
  let pos := out_pos (bb_out this) in
  let o := bit_builder_buffer_flush_if_full (bb_height this) (bb_out this) in
  let leaf_node := LeafNode {| leaf_entries := bb_cur_leaf this; leaf_next_pos := 0 |} in
  match bb_cur_leaf this with
  | [] => push_rest (Z.to_nat (bb_height this - 1)) (bb_key this) 0 o (bb_ctx this)
  | _ =>
      let cur := bo_cur o in
      match ctx_push (bb_ctx this) 0 leaf_node pos with
      | None => None
      | Some ctx =>
          match push_rest (Z.to_nat (bb_height this - 1)) (bb_key this) 0 (out_reserve o BIT_LEAF_NODE_SIZE) ctx with
          | None => None
          | Some (o, ctx) =>
              match out_memcpy o cur (bit_node_encode leaf_node (bb_key this) None old_mac).1 with
              | None => None
              | Some o => Some (o, ctx)
              end
          end
      end
  end.

Definition bit_builder_complete this : option (kfile * bit_file (H := file_nodes)) :=
  let finish o :=
    let file := kernel_write (bo_file o) (bo_begin o) (out_bytes o) in
    let root := bo_begin o + bo_cur o - BIT_INNER_NODE_SIZE in
    (file, bit_file_init ((file, bb_key this) : store (NodeStore := file_nodes)) root (bb_id this) (bb_level this) (bb_version this)
             (bb_first_key this) (bb_last_key this) (u32 (bb_size this)) no_cache) in
  match bb_ctx this !! Z.to_nat (bb_height this - 1) with
  | None => None
  | Some (_ :: _) => Some (finish (bb_out this))
  | Some [] =>
      match complete_nodes this with
      | None => None
      | Some (o, _) => Some (finish o)
      end
  end.

(** ** A new builder: [bit_key] comes from [get_random_bytes], [buffer] from
    [vmalloc]; the object is zeroed. *)
Definition bit_builder_init (file : kfile) (begin id level version : Z) (bit_key : list Z) (buffer : Z -> Z) : option bit_builder :=
  match __bit_height DEFAULT_LSM_FILE_CAPACITY DEFAULT_BIT_DEGREE with
  | None => None
  | Some height =>
      Some {| bb_out := {| bo_file := file; bo_begin := begin; bo_cur := 0; bo_buffer := buffer |};
              bb_ctx := replicate (Z.to_nat height) []; bb_cur_leaf := []; bb_has_first_key := false;
              bb_first_key := 0; bb_last_key := 0; bb_size := 0; bb_height := height; bb_id := id;
              bb_level := level; bb_version := version; bb_key := bit_key |}
  end.

(** A run of entries, as the compactions add them. *)
Fixpoint add_entries this (es : list (Z * record)) : option bit_builder :=
  match es with
  | [] => Some this
  | (key, val) :: es =>
      match bit_builder_add_entry this key val with
      | None => None
      | Some this => add_entries this es
      end
  end.

(** ** What the reader will see

    The backing file once the buffer is written to it. *)
Definition out_view o (q : Z) : Z :=
  if (bo_begin o <=? q) && (q <? bo_begin o + bo_cur o) then bo_buffer o (q - bo_begin o) else file_byte (bo_file o) q.

(** The next free position. *)
Definition out_end o : Z := bo_begin o + bo_cur o.

Definition holds (v : Z -> Z) (pos : Z) (bytes : list Z) : Prop :=
  forall i b, bytes !! i = Some b -> v (pos + Z.of_nat i) = b.

(** The bytes lie between [lo] and [hi]. *)
Definition placed (v : Z -> Z) (lo hi pos : Z) (bytes : list Z) : Prop :=
  lo <= pos /\ pos + Z.of_nat (length bytes) <= hi /\ holds v pos bytes.

Lemma placed_mono v v' lo hi lo' hi' pos bytes : placed v lo hi pos bytes ->
  (forall q, lo <= q < hi -> v' q = v q) -> lo' <= lo -> hi <= hi' -> placed v' lo' hi' pos bytes.
Proof.
  intros (Hlo & Hhi & Hh) Hv Hl Hu. split; [lia|]. split; [lia|]. intros i b Hi.
  rewrite Hv; [by apply Hh|]. apply lookup_lt_Some in Hi. lia.
Qed.

Lemma view_written o q : 0 <= bo_cur o -> file_byte (kernel_write (bo_file o) (bo_begin o) (out_bytes o)) q = out_view o q.
Proof.
  intros Hc. rewrite file_byte_write. unfold out_view, out_bytes. rewrite length_fmap, length_seq, Z2Nat.id by lia.
  destruct (Z.leb_spec (bo_begin o) q), (Z.ltb_spec q (bo_begin o + bo_cur o)); cbn [andb]; [|done..].
  rewrite list_lookup_fmap, lookup_seq_lt by lia. cbn. f_equal. lia.
Qed.

Lemma node_sizes : Z.of_nat (node_size true) = BIT_LEAF_NODE_SIZE /\ Z.of_nat (node_size false) = BIT_INNER_NODE_SIZE /\
  BIT_LEAF_NODE_SIZE = 5665 /\ BIT_INNER_NODE_SIZE = 441 /\ BIT_NODE_SIZE = 5665 /\ DEFAULT_LSM_FILE_BUILDER_BUFFER_SIZE = 4194304.
Proof. vm_compute. repeat split; reflexivity. Qed.

(** Room for one leaf and two inner nodes. *)
Definition has_room o : Prop := 0 <= bo_cur o /\ bo_cur o + 3 * BIT_NODE_SIZE <= DEFAULT_LSM_FILE_BUILDER_BUFFER_SIZE.

Lemma flush_spec o : 0 <= bo_cur o ->
  let o' := bit_builder_buffer_flush_if_full 3 o in
  has_room o' /\ out_end o' = out_end o /\ forall q, out_view o' q = out_view o q.
Proof.
  intros Hc. pose proof node_sizes as (_ & _ & _ & _ & Hn & Hb). cbv zeta. unfold has_room, out_end, bit_builder_buffer_flush_if_full.
  destruct (Z.ltb_spec DEFAULT_LSM_FILE_BUILDER_BUFFER_SIZE (bo_cur o + 3 * BIT_NODE_SIZE)); cbn [bo_cur bo_begin].
  - split; [lia|]. split; [lia|]. intros q. unfold out_view at 1. cbn [bo_file bo_begin bo_cur bo_buffer].
    destruct (Z.leb_spec (bo_begin o + bo_cur o) q), (Z.ltb_spec q (bo_begin o + bo_cur o + 0)); cbn [andb]; try lia; by apply view_written.
  - split; [lia|]. done.
Qed.

Lemma reserve_view o size q : 0 <= size -> q < out_end o \/ out_end o + size <= q -> out_view (out_reserve o size) q = out_view o q.
Proof.
  unfold out_view, out_end, out_reserve. cbn [bo_file bo_begin bo_cur bo_buffer]. intros Hs Hq.
  destruct (Z.leb_spec (bo_begin o) q), (Z.ltb_spec q (bo_begin o + (bo_cur o + size))), (Z.ltb_spec q (bo_begin o + bo_cur o)); cbn [andb]; done || lia.
Qed.

(** A copy into the buffer, below [cur]. *)
Lemma memcpy_spec o cur bytes : 0 <= cur -> cur + Z.of_nat (length bytes) <= bo_cur o ->
  cur + Z.of_nat (length bytes) <= DEFAULT_LSM_FILE_BUILDER_BUFFER_SIZE ->
  exists o', out_memcpy o cur bytes = Some o' /\ bo_begin o' = bo_begin o /\ bo_cur o' = bo_cur o /\ bo_file o' = bo_file o /\
    holds (out_view o') (bo_begin o + cur) bytes /\
    forall q, q < bo_begin o + cur \/ bo_begin o + cur + Z.of_nat (length bytes) <= q -> out_view o' q = out_view o q.
Proof.
  intros Hc Hl Hb. unfold out_memcpy. destruct (Z.leb_spec (cur + Z.of_nat (length bytes)) DEFAULT_LSM_FILE_BUILDER_BUFFER_SIZE); [|lia].
  eexists. split; [reflexivity|]. cbn [bo_begin bo_cur bo_file]. split; [done|]. split; [done|]. split; [done|].
  unfold out_view. cbn [bo_file bo_begin bo_cur bo_buffer]. unfold mem_store. split.
  - intros i b Hi. pose proof (lookup_lt_Some _ _ _ Hi).
    destruct (Z.leb_spec (bo_begin o) (bo_begin o + cur + Z.of_nat i)); [|lia].
    destruct (Z.ltb_spec (bo_begin o + cur + Z.of_nat i) (bo_begin o + bo_cur o)); [|lia]. cbn [andb].
    destruct (Z.leb_spec cur (bo_begin o + cur + Z.of_nat i - bo_begin o)); [|lia].
    destruct (Z.ltb_spec (bo_begin o + cur + Z.of_nat i - bo_begin o) (cur + Z.of_nat (length bytes))); [|lia]. cbn [andb].
    replace (Z.to_nat (bo_begin o + cur + Z.of_nat i - bo_begin o - cur)) with i by lia. by rewrite Hi.
  - intros q Hq. destruct ((bo_begin o <=? q) && (q <? bo_begin o + bo_cur o)); [|done].
    destruct (Z.leb_spec cur (q - bo_begin o)), (Z.ltb_spec (q - bo_begin o) (cur + Z.of_nat (length bytes))); cbn [andb]; done || lia.
Qed.

(** ** Files in their slots *)

(** A file whose nodes lie in the slot of [lsm_file_size] bytes at [lo]. *)
Record file_in_slot (f : bit_file (H := file_nodes)) (groups : list (list bit_leaf)) (lo : Z) : Prop := {
  sl_wf : file_wf f groups;
  sl_scan : file_scannable f groups;
  sl_nodes : exists root, bf_cached_root f = Some root /\
    Forall (Forall (fun c => lo <= child_pos c /\ child_pos c + BIT_LEAF_NODE_SIZE <= lo + lsm_file_size)) (cr_child_nodes root);
  sl_next : forall i l, concat groups !! i = Some l -> (S i < length (concat groups))%nat ->
    lo <= leaf_next_pos l /\ leaf_next_pos l + BIT_LEAF_NODE_SIZE <= lo + lsm_file_size
}.

(** ** Nodes in the output *)
Section nodes.
Context (key : list Z) (mac_length : length old_mac = 16%nat).

Definition node_at (v : Z -> Z) (lo hi : Z) (n : bit_node) (p : Z) : Prop :=
  placed v lo hi p (bit_node_encode n key None old_mac).1.

(** A leaf that waits for its parent, and the leaf the file will hold. *)
Definition leaf_child (v : Z -> Z) (lo hi : Z) (np : bit_node * Z) (l : bit_leaf) : Prop :=
  is_leaf_node np.1 = true /\ node_last_key np.1 = leaf_last_key l /\ 0 <= leaf_last_key l < 2 ^ 32 /\
  node_at v lo hi (LeafNode l) np.2.

(** An inner node that waits for the root, with the leaves below it. *)
Definition inner_child (v : Z -> Z) (lo hi : Z) (np : bit_node * Z) (g : list bit_leaf) : Prop :=
  exists c, np.1 = InnerNode (__bit_inner c) /\ c <> [] /\ (length c <= degree)%nat /\ Forall2 (leaf_child v lo hi) c g /\
    node_at v lo hi np.1 np.2.

(** The leaves follow one another: each names the position of the next. *)
Fixpoint chain_at (v : Z -> Z) (lo hi p : Z) (ls : list bit_leaf) (front : Z) : Prop :=
  match ls with
  | [] => p = front
  | l :: ls => node_at v lo hi (LeafNode l) p /\ chain_at v lo hi (leaf_next_pos l) ls front
  end.

Section mono.
Context (v v' : Z -> Z) (lo hi lo' hi' : Z).
Context (agree : forall q, lo <= q < hi -> v' q = v q) (lo_le : lo' <= lo) (hi_le : hi <= hi').

Lemma node_at_mono n p : node_at v lo hi n p -> node_at v' lo' hi' n p.
Proof using agree lo_le hi_le. intros Hp. by eapply placed_mono. Qed.

Lemma leaf_children_mono c ls : Forall2 (leaf_child v lo hi) c ls -> Forall2 (leaf_child v' lo' hi') c ls.
Proof using agree lo_le hi_le.
  intros Hall. eapply Forall2_impl; [exact Hall|]. intros np l (Hl & Hk & Hr & Hn). split; [done|]. split; [done|]. split; [done|]. by apply node_at_mono.
Qed.

Lemma inner_children_mono c gs : Forall2 (inner_child v lo hi) c gs -> Forall2 (inner_child v' lo' hi') c gs.
Proof using agree lo_le hi_le.
  intros Hall. eapply Forall2_impl; [exact Hall|]. intros np g (c' & Hn & Hne & Hlen & Hc & Hp). exists c'. split; [done|]. split; [done|]. split; [done|].
  split; [by apply leaf_children_mono|by apply node_at_mono].
Qed.

Lemma chain_at_mono ls : forall p front, chain_at v lo hi p ls front -> chain_at v' lo' hi' p ls front.
Proof using agree lo_le hi_le.
  induction ls as [|l ls IH]; intros p front; [done|]. cbn [chain_at]. intros [Hn Hc]. split; [by apply node_at_mono|by apply IH].
Qed.
End mono.

Lemma chain_at_snoc v lo hi ls : forall p front l, chain_at v lo hi p ls front -> node_at v lo hi (LeafNode l) front ->
  chain_at v lo hi p (ls ++ [l]) (leaf_next_pos l).
Proof.
  induction ls as [|x ls IH]; intros p front l; cbn [chain_at app].
  - intros -> Hn. done.
  - intros [Hx Hc] Hn. split; [done|]. by eapply IH.
Qed.

(** The node written for the context [c]. *)
Lemma push_inner_spec (h : nat) c o ctx up : ctx !! S h = Some up -> (length up < degree)%nat ->
  0 <= bo_cur o -> bo_cur o + BIT_INNER_NODE_SIZE <= DEFAULT_LSM_FILE_BUILDER_BUFFER_SIZE -> 0 <= out_end o < 2 ^ 64 ->
  exists o', push_inner key h c o ctx =
      Some (o', <[h := []]> (<[S h := up ++ [(InnerNode (__bit_inner c), out_end o)]]> ctx)) /\
    bo_begin o' = bo_begin o /\ bo_cur o' = bo_cur o + BIT_INNER_NODE_SIZE /\ out_end o' = out_end o + BIT_INNER_NODE_SIZE /\
    (forall q, q < out_end o \/ out_end o' <= q -> out_view o' q = out_view o q) /\
    node_at (out_view o') (out_end o) (out_end o') (InnerNode (__bit_inner c)) (out_end o).
Proof using mac_length H0.
  intros Hup Hlen Hc Hb He. unfold push_inner. set (bytes := (bit_node_encode (InnerNode (__bit_inner c)) key None old_mac).1).
  pose proof node_sizes as (_ & Hsz & _ & Hi & _ & _).
  assert (Z.of_nat (length bytes) = BIT_INNER_NODE_SIZE) as Hbl by (subst bytes; rewrite encode_length by done; exact Hsz).
  unfold out_pos. fold (out_end o). rewrite u64_small by lia.
  unfold ctx_push. rewrite Hup. pose proof degree_val. unfold DEFAULT_BIT_DEGREE. destruct (Z.ltb_spec (Z.of_nat (length up)) 32); [|lia].
  destruct (memcpy_spec (out_reserve o BIT_INNER_NODE_SIZE) (bo_cur o) bytes) as (o1 & Hm & Hbeg & Hcur & Hf & Hh & Ho);
    cbn [out_reserve bo_cur]; [lia..|].
  unfold out_memcpy in *. destruct (bo_cur o + Z.of_nat (length bytes) <=? DEFAULT_LSM_FILE_BUILDER_BUFFER_SIZE); [|done].
  injection Hm as <-. cbn [bo_begin bo_cur bo_file bo_buffer out_reserve] in *.
  eexists. split; [reflexivity|]. cbn [out_reserve bo_cur]. split; [done|]. split; [done|]. unfold out_end in *. cbn [bo_begin bo_cur out_reserve].
  split; [lia|]. split.
  - intros q Hq. etransitivity; [apply Ho; lia|]. apply reserve_view; unfold out_end; lia.
  - unfold node_at, placed. fold bytes. split; [lia|]. split; [lia|]. exact Hh.
Qed.

(** The ends of the positions: those of one file slot, below 2^64. *)
Context (file0 : kfile) (begin0 : Z) (begin_ok : 0 <= begin0) (end_ok : begin0 + lsm_file_size < 2 ^ 64).

(** The number of bytes of [leaves] leaves and [inners] inner nodes. *)
Definition tree_bytes (leaves inners : nat) : Z := Z.of_nat leaves * BIT_LEAF_NODE_SIZE + Z.of_nat inners * BIT_INNER_NODE_SIZE.

Lemma tree_bytes_bound leaves inners : (leaves <= 1024)%nat -> (inners <= 33)%nat -> tree_bytes leaves inners <= lsm_file_size.
Proof.
  intros. rewrite lsm_file_size_value. pose proof node_sizes as (_ & _ & Hl & Hi & _ & _). unfold tree_bytes. rewrite Hl, Hi. lia.
Qed.

Lemma tree_bytes_nonneg leaves inners : 0 <= tree_bytes leaves inners.
Proof. pose proof node_sizes as (_ & _ & Hl & Hi & _ & _). unfold tree_bytes. rewrite Hl, Hi. lia. Qed.

(** What the output of a builder is about: the nodes written so far. *)
Record out_ok o (leaves inners : nat) : Prop := {
  oo_cur : 0 <= bo_cur o;
  oo_end : out_end o = begin0 + tree_bytes leaves inners;
  oo_frame : forall q, q < begin0 \/ out_end o <= q -> out_view o q = file_byte file0 q
}.

(** The waiting nodes of a builder that has written the leaves of [groups] and
    [pend]: those of [pend] wait at height 0, an inner node for each group at
    height 1. *)
Record ctx_ok o c0 c1 (groups : list (list bit_leaf)) (pend : list bit_leaf) : Prop := {
  co_c0 : Forall2 (leaf_child (out_view o) begin0 (out_end o)) c0 pend;
  co_c1 : Forall2 (inner_child (out_view o) begin0 (out_end o)) c1 groups
}.

Definition full_leaf (l : bit_leaf) : Prop := length (leaf_entries l) = leaf_len.

(** Between two entries, as long as the root has not been written. *)
Record open_ok this (es : list (Z * record)) (groups : list (list bit_leaf)) (pend : list bit_leaf) : Prop := {
  ob_out : out_ok (bb_out this) (length (concat groups ++ pend)) (length groups);
  ob_ctx : exists c0 c1, bb_ctx this = [c0; c1; []] /\ ctx_ok (bb_out this) c0 c1 groups pend;
  ob_chain : chain_at (out_view (bb_out this)) begin0 (out_end (bb_out this)) begin0 (concat groups ++ pend) (out_end (bb_out this));
  ob_groups : (length groups < degree)%nat /\ Forall (fun g => length g = degree) groups;
  ob_pend : (length pend < degree)%nat;
  ob_full : Forall full_leaf (concat groups ++ pend);
  ob_cur : (length (bb_cur_leaf this) < leaf_len)%nat;
  ob_entries : leaves_entries (concat groups ++ pend) ++ bb_cur_leaf this = es
}.

(** Once the root has been written with the last leaf of a full file. *)
Record full_ok this (es : list (Z * record)) (groups : list (list bit_leaf)) : Prop := {
  fb_out : out_ok (bb_out this) (length (concat groups)) (S (length groups));
  fb_ctx : exists c1, bb_ctx this = [[]; []; [(InnerNode (__bit_inner c1), out_end (bb_out this) - BIT_INNER_NODE_SIZE)]] /\
    ctx_ok (bb_out this) [] c1 groups [] /\
    node_at (out_view (bb_out this)) begin0 (out_end (bb_out this)) (InnerNode (__bit_inner c1)) (out_end (bb_out this) - BIT_INNER_NODE_SIZE);
  fb_chain : exists front, 0 <= front < 2 ^ 64 /\ chain_at (out_view (bb_out this)) begin0 (out_end (bb_out this)) begin0 (concat groups) front;
  fb_groups : length groups = degree /\ Forall (fun g => length g = degree) groups;
  fb_full : Forall full_leaf (concat groups);
  fb_cur : bb_cur_leaf this = [];
  fb_entries : leaves_entries (concat groups) = es
}.

(** What does not depend on the output. *)
Record note_ok this (es : list (Z * record)) (id level version : Z) : Prop := {
  no_first : fst <$> head es = (if bb_has_first_key this then Some (bb_first_key this) else None);
  no_last : default 0 (fst <$> last es) = bb_last_key this;
  no_size : bb_size this = Z.of_nat (length es);
  no_height : bb_height this = 3;
  no_key : bb_key this = key;
  no_id : bb_id this = id /\ bb_level this = level /\ bb_version this = version
}.

Lemma note_entry_ok this es id level version k r : note_ok this es id level version ->
  Z.of_nat (length es) < DEFAULT_LSM_FILE_CAPACITY ->
  note_ok (note_entry this k r) (es ++ [(k, r)]) id level version.
Proof.
  intros [Hf Hl Hs Hh Hk Hi] Hc. assert (DEFAULT_LSM_FILE_CAPACITY = 131072) by reflexivity.
  split; cbn; [|by rewrite last_snoc| |done..].
  - destruct es as [|e es]; cbn in *; [by destruct (bb_has_first_key this)|].
    destruct (bb_has_first_key this); [done|]. done.
  - rewrite Hs, length_app, u64_small; cbn; lia.
Qed.

(** The number of entries behind a shape. *)
Lemma full_entries ls : Forall full_leaf ls -> length (leaves_entries ls) = (length ls * leaf_len)%nat.
Proof.
  unfold leaves_entries. induction 1 as [|l ls Hl _ IH]; [done|]. cbn [fmap list_fmap concat length].
  rewrite length_app, IH, Hl. lia.
Qed.

Lemma concat_length (groups : list (list bit_leaf)) : Forall (fun g => length g = degree) groups ->
  length (concat groups) = (length groups * degree)%nat.
Proof. induction 1 as [|g gs Hg _ IH]; [done|]. cbn [concat length]. rewrite length_app, IH, Hg. lia. Qed.

(** ** Adding an entry *)

(** The loop over the full contexts writes no, one or two inner nodes. *)
Lemma push_full_spec o c0 c1 : 0 <= bo_cur o -> bo_cur o + 2 * BIT_INNER_NODE_SIZE <= DEFAULT_LSM_FILE_BUILDER_BUFFER_SIZE ->
  0 <= out_end o -> out_end o + 2 * BIT_INNER_NODE_SIZE < 2 ^ 64 ->
  (length c0 <= degree)%nat -> (length c1 < degree)%nat ->
  exists o' ctx, push_full 4 key 0 o [c0; c1; []] = Some (o', ctx) /\ bo_begin o' = bo_begin o /\ bo_cur o <= bo_cur o' /\
    (forall q, q < out_end o \/ out_end o' <= q -> out_view o' q = out_view o q) /\
    if decide (length c0 < degree)%nat then out_end o' = out_end o /\ ctx = [c0; c1; []]
    else
      let c1' := c1 ++ [(InnerNode (__bit_inner c0), out_end o)] in
      node_at (out_view o') (out_end o) (out_end o') (InnerNode (__bit_inner c0)) (out_end o) /\
      if decide (length c1' < degree)%nat then out_end o' = out_end o + BIT_INNER_NODE_SIZE /\ ctx = [[]; c1'; []]
      else out_end o' = out_end o + 2 * BIT_INNER_NODE_SIZE /\
        ctx = [[]; []; [(InnerNode (__bit_inner c1'), out_end o' - BIT_INNER_NODE_SIZE)]] /\
        node_at (out_view o') (out_end o) (out_end o') (InnerNode (__bit_inner c1')) (out_end o' - BIT_INNER_NODE_SIZE).
Proof using mac_length H0.
  intros Hc Hb He He2 Hl0 Hl1. pose proof degree_val as Hdeg. pose proof node_sizes as (_ & _ & _ & Hi & _ & _).
  cbn [push_full lookup list_lookup]. unfold DEFAULT_BIT_DEGREE.
  destruct (decide (length c0 < degree)%nat) as [Hlt|Hge].
  { destruct (Z.eqb_spec (Z.of_nat (length c0)) 32); [lia|]. exists o, [c0; c1; []]. split; [done|]. split; [done|]. split; [lia|]. done. }
  destruct (Z.eqb_spec (Z.of_nat (length c0)) 32); [|lia].
  destruct (push_inner_spec 0 c0 o [c0; c1; []] c1 eq_refl Hl1) as (o1 & -> & Hbeg1 & Hcur1 & Hend1 & Hv1 & Hn1); [lia..|].
  set (c1' := c1 ++ _). change (<[0%nat:=[]]> (<[1%nat:=c1']> [c0; c1; []])) with [[]; c1'; []].
  cbn [lookup list_lookup]. destruct (decide (length c1' < degree)%nat) as [Hlt1|Hge1].
  { destruct (Z.eqb_spec (Z.of_nat (length c1')) 32); [lia|]. exists o1, [[]; c1'; []]. split; [done|]. split; [done|]. split; [lia|]. done. }
  assert (length c1' = degree) as Hc1' by (subst c1'; rewrite length_app in *; cbn in *; lia).
  destruct (Z.eqb_spec (Z.of_nat (length c1')) 32); [|lia].
  destruct (push_inner_spec 1 c1' o1 [[]; c1'; []] [] eq_refl) as (o2 & -> & Hbeg2 & Hcur2 & Hend2 & Hv2 & Hn2); [cbn; lia|lia..|].
  change (<[1%nat:=[]]> (<[2%nat:=[] ++ [(InnerNode (__bit_inner c1'), out_end o1)]]> [[]; c1'; []])) with
    [[]; []; [(InnerNode (__bit_inner c1'), out_end o1)]]. cbn [lookup list_lookup length].
  exists o2, [[]; []; [(InnerNode (__bit_inner c1'), out_end o1)]]. replace (out_end o2 - BIT_INNER_NODE_SIZE) with (out_end o1) by lia.
  split; [done|]. split; [congruence|]. split; [lia|]. split; [intros q Hq; rewrite Hv2 by lia; apply Hv1; lia|]. split.
  - eapply node_at_mono; [| | |exact Hn1]; [|lia..]. intros q Hq. apply Hv2. lia.
  - split; [lia|]. split; [done|]. eapply node_at_mono; [| | |exact Hn2]; [done|lia..].
Qed.

(** What a node written at [out_end o] leaves alone. *)
Definition extends o o' : Prop :=
  0 <= bo_cur o' /\ out_end o <= out_end o' /\ forall q, q < out_end o \/ out_end o' <= q -> out_view o' q = out_view o q.

(** The waiting nodes after the loop, for a leaf at [p]. *)
Definition pushed o' (from : Z) c0 c1 (ctx : list bit_builder_context) : Prop :=
  if decide (length c0 < degree)%nat then out_end o' = from /\ ctx = [c0; c1; []]
  else
    let c1' := c1 ++ [(InnerNode (__bit_inner c0), from)] in
    node_at (out_view o') from (out_end o') (InnerNode (__bit_inner c0)) from /\
    if decide (length c1' < degree)%nat then out_end o' = from + BIT_INNER_NODE_SIZE /\ ctx = [[]; c1'; []]
    else out_end o' = from + 2 * BIT_INNER_NODE_SIZE /\
      ctx = [[]; []; [(InnerNode (__bit_inner c1'), out_end o' - BIT_INNER_NODE_SIZE)]] /\
      node_at (out_view o') from (out_end o') (InnerNode (__bit_inner c1')) (out_end o' - BIT_INNER_NODE_SIZE).

Lemma pushed_mono o o' from c0 c1 ctx : out_end o' = out_end o -> (forall q, from <= q -> out_view o' q = out_view o q) ->
  pushed o from c0 c1 ctx -> pushed o' from c0 c1 ctx.
Proof.
  unfold pushed. intros -> Hv. destruct (decide (length c0 < degree)%nat); [done|]. cbv zeta. intros [Hn Hr].
  split; [eapply node_at_mono; [| | |exact Hn]; [|lia..]; intros; apply Hv; lia|].
  destruct (decide _); [done|]. destruct Hr as (? & ? & Hn2). split; [done|]. split; [done|].
  eapply node_at_mono; [| | |exact Hn2]; [|lia..]. intros; apply Hv; lia.
Qed.

Lemma add_full_leaf this k r c0 c1 : bb_height this = 3 -> bb_key this = key -> 0 <= bo_cur (bb_out this) ->
  0 <= out_end (bb_out this) -> out_end (bb_out this) + BIT_LEAF_NODE_SIZE + 2 * BIT_INNER_NODE_SIZE < 2 ^ 64 ->
  bb_ctx this = [c0; c1; []] -> (length c0 < degree)%nat -> (length c1 < degree)%nat ->
  S (length (bb_cur_leaf this)) = leaf_len ->
  exists o' ctx, let p := out_end (bb_out this) in
    let leaf := {| leaf_entries := bb_cur_leaf this ++ [(k, r)]; leaf_next_pos := out_end o' |} in
    let leaf0 := {| leaf_entries := bb_cur_leaf this ++ [(k, r)]; leaf_next_pos := 0 |} in
    bit_builder_add_entry this k r = Some (with_out (note_entry this k r) o' ctx []) /\
    extends (bb_out this) o' /\ p + BIT_LEAF_NODE_SIZE <= out_end o' < 2 ^ 64 /\
    node_at (out_view o') p (p + BIT_LEAF_NODE_SIZE) (LeafNode leaf) p /\
    pushed o' (p + BIT_LEAF_NODE_SIZE) (c0 ++ [(LeafNode leaf0, p)]) c1 ctx.
Proof using mac_length H0 H2.
  intros Hh Hkey Hc He Heb Hctx Hc0 Hc1 Hleaf. pose proof node_sizes as (Hls & _ & Hl & Hi & Hn & Hbuf).
  pose proof leaf_len_val as Hll. pose proof degree_val as Hdeg.
  unfold bit_builder_add_entry. cbn [bb_cur_leaf bb_ctx bb_out bb_height bb_key note_entry].
  rewrite length_app. cbn [length]. unfold BIT_LEAF_LEN. destruct (Z.ltb_spec (Z.of_nat (length (bb_cur_leaf this) + 1)) 128); [lia|].
  unfold out_pos at 1. fold (out_end (bb_out this)). rewrite u64_small by lia. rewrite Hctx, Hh, Hkey.
  unfold ctx_push. cbn [lookup list_lookup]. unfold DEFAULT_BIT_DEGREE. destruct (Z.ltb_spec (Z.of_nat (length c0)) 32); [|lia].
  cbn [list_insert insert]. set (p := out_end (bb_out this)) in *. set (c0' := c0 ++ _).
  destruct (flush_spec (bb_out this) Hc) as ([Hcf Hroom] & Hef & Hvf).
  set (o1 := bit_builder_buffer_flush_if_full 3 (bb_out this)) in *. fold p in Hef.
  assert (out_end (out_reserve o1 BIT_LEAF_NODE_SIZE) = p + BIT_LEAF_NODE_SIZE) as Her by (rewrite <- Hef; unfold out_end; cbn; lia).
  destruct (push_full_spec (out_reserve o1 BIT_LEAF_NODE_SIZE) c0' c1) as (o3 & ctx3 & Hp & Hbeg & Hcur & Hv3 & Hpush);
    [cbn [bo_cur out_reserve]; lia..|lia|lia|subst c0'; rewrite length_app; cbn; lia|done|].
  change (S (Z.to_nat 3)) with 4%nat. rewrite Hp. rewrite Her in Hv3, Hpush. fold (pushed o3 (p + BIT_LEAF_NODE_SIZE) c0' c1 ctx3) in Hpush.
  assert (p + BIT_LEAF_NODE_SIZE <= out_end o3 < 2 ^ 64) as He3.
  { unfold pushed in Hpush. destruct (decide _); [lia|]. destruct Hpush as [_ Hpush]. destruct (decide _); lia. }
  unfold out_pos. fold (out_end o3). rewrite u64_small by lia.
  set (leaf := {| leaf_entries := _; leaf_next_pos := out_end o3 |}). set (bytes := (bit_node_encode (LeafNode leaf) key None old_mac).1).
  assert (Z.of_nat (length bytes) = BIT_LEAF_NODE_SIZE) as Hbl by (subst bytes; rewrite encode_length by done; exact Hls).
  cbn [bo_begin bo_cur out_reserve] in Hbeg, Hcur.
  destruct (memcpy_spec o3 (bo_cur o1) bytes Hcf) as (o4 & -> & Hbeg4 & Hcur4 & _ & Hh4 & Hv4); [lia..|].
  assert (bo_begin o3 + bo_cur o1 = p) as Hpos by (rewrite Hbeg; exact Hef). rewrite Hpos, Hbl in *.
  assert (out_end o4 = out_end o3) as He4 by (unfold out_end; congruence).
  exists o4, ctx3. rewrite He4. split; [done|]. split; [|split; [done|split]].
  - unfold extends. fold p. rewrite He4. split; [lia|]. split; [lia|]. intros q Hq.
    rewrite Hv4, Hv3 by lia. rewrite reserve_view by (rewrite ?Hef; lia). apply Hvf.
  - change (placed (out_view o4) p (p + BIT_LEAF_NODE_SIZE) p bytes). split; [lia|]. split; [lia|]. exact Hh4.
  - eapply pushed_mono; [exact He4| |exact Hpush]. intros q Hq. apply Hv4. lia.
Qed.

Lemma leaf_last_snoc es k r p : leaf_last_key {| leaf_entries := es ++ [(k, r)]; leaf_next_pos := p |} = k.
Proof. unfold leaf_last_key. cbn [leaf_entries]. by rewrite last_snoc. Qed.

(** The output of an open builder after a leaf and [inners] inner nodes. *)
Lemma out_ok_extends o o' leaves inners more : out_ok o leaves inners -> extends o o' ->
  out_end o' = out_end o + BIT_LEAF_NODE_SIZE + Z.of_nat more * BIT_INNER_NODE_SIZE -> out_ok o' (S leaves) (more + inners).
Proof.
  intros [Hc He Hf] (Hc' & Hle & Hv) He'. split; [done|..].
  - rewrite He', He. unfold tree_bytes. rewrite Nat2Z.inj_add, Nat2Z.inj_succ. lia.
  - pose proof (tree_bytes_nonneg leaves inners). intros q Hq. rewrite Hv by lia. apply Hf. lia.
Qed.

(** The parts of a builder whose output has been extended by a leaf. *)
Lemma leaf_extends o o' c0 c1 groups pend leaf n : begin0 <= out_end o -> extends o o' -> ctx_ok o c0 c1 groups pend ->
  out_end o + BIT_LEAF_NODE_SIZE <= out_end o' -> is_leaf_node n = true -> node_last_key n = leaf_last_key leaf ->
  0 <= leaf_last_key leaf < 2 ^ 32 ->
  node_at (out_view o') (out_end o) (out_end o + BIT_LEAF_NODE_SIZE) (LeafNode leaf) (out_end o) ->
  chain_at (out_view o) begin0 (out_end o) begin0 (concat groups ++ pend) (out_end o) ->
  ctx_ok o' (c0 ++ [(n, out_end o)]) c1 groups (pend ++ [leaf]) /\
  chain_at (out_view o') begin0 (out_end o') begin0 ((concat groups ++ pend) ++ [leaf]) (leaf_next_pos leaf).
Proof.
  intros Hb (_ & Hle & Hv) [H0c H1c] Hend Hn Hk Hr Hnode Hch.
  assert (forall q, begin0 <= q < out_end o -> out_view o' q = out_view o q) as Hagree by (intros q Hq; apply Hv; lia).
  assert (node_at (out_view o') begin0 (out_end o') (LeafNode leaf) (out_end o)) as Hnode'
    by (eapply node_at_mono; [| | |exact Hnode]; (done || lia)).
  split.
  - split.
    + apply Forall2_app; [eapply leaf_children_mono; [exact Hagree|lia|lia|exact H0c]|]. constructor; [|constructor].
      split; [done|]. split; [done|]. split; [done|]. exact Hnode'.
    + eapply inner_children_mono; [exact Hagree|lia|lia|exact H1c].
  - apply (chain_at_snoc _ _ _ _ _ (out_end o)); [eapply chain_at_mono; [exact Hagree|lia|lia|exact Hch]|exact Hnode'].
Qed.

(** A full context becomes a child of the next height. *)
Lemma group_closes o c0 c1 groups pend p : ctx_ok o c0 c1 groups pend -> pend <> [] -> (length pend <= degree)%nat ->
  begin0 <= p -> node_at (out_view o) p (out_end o) (InnerNode (__bit_inner c0)) p ->
  ctx_ok o [] (c1 ++ [(InnerNode (__bit_inner c0), p)]) (groups ++ [pend]) [].
Proof.
  intros [H0c H1c] Hne Hl Hp Hn. pose proof (Forall2_length _ _ _ H0c) as Hlen. split; [constructor|].
  apply Forall2_app; [exact H1c|]. constructor; [|constructor]. exists c0. split; [done|].
  split; [intros ->; by destruct pend|]. split; [lia|]. split; [exact H0c|].
  eapply node_at_mono; [| | |exact Hn]; (done || lia).
Qed.

Lemma concat_snoc (groups : list (list bit_leaf)) g : concat (groups ++ [g]) = concat groups ++ g.
Proof. rewrite concat_app. cbn. by rewrite app_nil_r. Qed.

Lemma open_lengths this es groups pend : open_ok this es groups pend ->
  length (concat groups ++ pend) = (length groups * degree + length pend)%nat.
Proof. intros [_ _ _ [_ Hg] _ _ _ _]. by rewrite length_app, concat_length. Qed.

Definition built this es : Prop :=
  (exists groups pend, open_ok this es groups pend) \/ (exists groups, full_ok this es groups).

(** The leaf is full and finds its place. *)
Lemma leaf_step this es groups pend k r o' ctx c0 c1 :
  let o := bb_out this in
  let p := out_end o in
  let leaf := {| leaf_entries := bb_cur_leaf this ++ [(k, r)]; leaf_next_pos := out_end o' |} in
  let leaf0 := {| leaf_entries := bb_cur_leaf this ++ [(k, r)]; leaf_next_pos := 0 |} in
  let this' := with_out (note_entry this k r) o' ctx [] in
  open_ok this es groups pend -> ctx_ok o c0 c1 groups pend -> 0 <= k < 2 ^ 32 -> S (length (bb_cur_leaf this)) = leaf_len ->
  extends o o' -> p + BIT_LEAF_NODE_SIZE <= out_end o' < 2 ^ 64 ->
  node_at (out_view o') p (p + BIT_LEAF_NODE_SIZE) (LeafNode leaf) p ->
  pushed o' (p + BIT_LEAF_NODE_SIZE) (c0 ++ [(LeafNode leaf0, p)]) c1 ctx ->
  built this' (es ++ [(k, r)]).
Proof using begin_ok mac_length.
  intros o p leaf leaf0 this' Hopen Hctx Hk Hleaf Hext Hend Hnode Hpush. pose proof (open_lengths _ _ _ _ Hopen) as Hlens.
  destruct Hopen as [Hout _ Hch [Hg32 Hg] Hp32 Hfull Hcur Hent]. fold o in Hout, Hch. pose proof degree_val as Hdeg.
  pose proof (tree_bytes_nonneg (length (concat groups ++ pend)) (length groups)) as Htb.
  assert (begin0 <= p) as Hbp by (change (begin0 <= out_end o); rewrite (oo_end _ _ _ Hout); lia).
  pose proof node_sizes as (_ & _ & Hl & Hi & _ & _).
  assert (leaf_last_key leaf = k) as Hlast by apply leaf_last_snoc.
  destruct (leaf_extends o o' c0 c1 groups pend leaf (LeafNode leaf0) Hbp Hext Hctx (proj1 Hend) eq_refl) as [Hctx' Hch'];
    [by rewrite Hlast; apply leaf_last_snoc|by rewrite Hlast|exact Hnode|exact Hch|]. fold p in Hctx'.
  set (c0' := c0 ++ [(LeafNode leaf0, p)]) in *.
  assert (length c0' = S (length pend)) as Hc0' by (rewrite (Forall2_length _ _ _ (co_c0 _ _ _ _ _ Hctx')), length_app; cbn; lia).
  pose proof (Forall2_length _ _ _ (co_c1 _ _ _ _ _ Hctx')) as Hc1.
  assert (full_leaf leaf) as Hfl by (unfold full_leaf, leaf; cbn; rewrite length_app; cbn; lia).
  assert (Forall full_leaf ((concat groups ++ pend) ++ [leaf])) as Hfull' by (apply Forall_app; by split; [|constructor]).
  assert (leaves_entries ((concat groups ++ pend) ++ [leaf]) = es ++ [(k, r)]) as Hent'.
  { rewrite leaves_entries_app. unfold leaves_entries at 2. cbn [fmap list_fmap concat leaf_entries leaf].
    by rewrite app_nil_r, app_assoc, Hent. }
  assert (forall more, out_end o' = p + BIT_LEAF_NODE_SIZE + Z.of_nat more * BIT_INNER_NODE_SIZE ->
    out_ok o' (S (length (concat groups ++ pend))) (more + length groups)) as Hok by (intros; by eapply out_ok_extends).
  assert (length ((concat groups ++ pend) ++ [leaf]) = S (length (concat groups ++ pend))) as Hlen by (rewrite length_app; cbn; lia).
  cbn [leaf_next_pos leaf] in Hch'. unfold pushed in Hpush. cbv zeta in Hpush.
  destruct (decide (length c0' < degree)%nat) as [Hlt|Hge].
  - destruct Hpush as [He ->]. left. exists groups, (pend ++ [leaf]). rewrite <- app_assoc in *. split; try done.
    + rewrite Hlen. apply (Hok 0%nat). lia.
    + exists c0', c1. done.
    + rewrite length_app. cbn. lia.
    + cbn. rewrite leaf_len_val. lia.
    + cbn [bb_cur_leaf with_out this']. by rewrite app_nil_r.
  - assert (length (pend ++ [leaf]) = degree) as Hpl by (rewrite length_app; cbn; lia).
    destruct Hpush as [Hn1 Hpush]. assert (pend ++ [leaf] <> []) as Hne by (by destruct pend).
    pose proof (group_closes o' c0' c1 groups (pend ++ [leaf]) (p + BIT_LEAF_NODE_SIZE) Hctx' Hne ltac:(lia) ltac:(lia) Hn1) as Hctx2.
    set (c1' := c1 ++ _) in *. assert (length c1' = S (length groups)) as Hc1' by (unfold c1'; rewrite length_app; cbn; lia).
    rewrite <- app_assoc in *.
    assert (concat (groups ++ [pend ++ [leaf]]) = concat groups ++ pend ++ [leaf]) as Hcc by apply concat_snoc.
    assert (Forall (fun g => length g = degree) (groups ++ [pend ++ [leaf]])) as Hgs by (apply Forall_app; by split; [|constructor]).
    destruct (decide (length c1' < degree)%nat) as [Hlt1|Hge1].
    + destruct Hpush as [He ->]. left. exists (groups ++ [pend ++ [leaf]]), []. split; rewrite ?app_nil_r, ?Hcc; try done.
      * rewrite Hlen, (length_app groups), (Nat.add_comm (length groups)). apply (Hok 1%nat). lia.
      * exists [], c1'. done.
      * rewrite length_app. cbn. split; [lia|done].
      * rewrite degree_val. cbn. lia.
      * rewrite leaf_len_val. cbn. lia.
    + destruct Hpush as (He & -> & Hn2). right. exists (groups ++ [pend ++ [leaf]]). split; rewrite ?Hcc; try done.
      * rewrite Hlen, (length_app groups). cbn [length]. replace (S (length groups + 1)) with (2 + length groups)%nat by lia. apply (Hok 2%nat). lia.
      * exists c1'. split; [done|]. split; [done|]. eapply node_at_mono; [| | |exact Hn2]; (done || lia).
      * eexists. split; [|exact Hch']. lia.
      * rewrite length_app. cbn. split; [lia|done].
Qed.

Lemma add_entry_ok this es groups pend id level version k r : open_ok this es groups pend -> note_ok this es id level version ->
  0 <= k < 2 ^ 32 -> Z.of_nat (length es) < DEFAULT_LSM_FILE_CAPACITY ->
  exists this', bit_builder_add_entry this k r = Some this' /\ built this' (es ++ [(k, r)]) /\
    note_ok this' (es ++ [(k, r)]) id level version.
Proof using begin_ok end_ok mac_length H0 H2.
  intros Hopen Hnote Hk Hcap. pose proof (note_entry_ok _ _ _ _ _ k r Hnote Hcap) as Hnote'.
  pose proof (open_lengths _ _ _ _ Hopen) as Hlens. pose proof Hopen as [Hout (c0 & c1 & Hctx & Hc) Hch [Hg32 Hg] Hp32 Hfull Hcur Hent].
  pose proof degree_val as Hdeg. pose proof leaf_len_val as Hll.
  destruct (Nat.lt_ge_cases (S (length (bb_cur_leaf this))) leaf_len) as [Hlt|Hge].
  - exists (note_entry this k r). split; [|split; [|done]].
    + unfold bit_builder_add_entry. cbn [bb_cur_leaf note_entry]. rewrite length_app. cbn [length]. unfold BIT_LEAF_LEN.
      by destruct (Z.ltb_spec (Z.of_nat (length (bb_cur_leaf this) + 1)) 128); [|lia].
    + left. exists groups, pend. split; cbn [bb_out bb_ctx bb_cur_leaf note_entry]; try done.
      * by exists c0, c1.
      * rewrite length_app. cbn. lia.
      * by rewrite app_assoc, Hent.
  - pose proof (tree_bytes_bound 1024 33 ltac:(lia) ltac:(lia)) as Hbound. pose proof node_sizes as (_ & _ & Hl & Hi & _ & _).
    pose proof (oo_end _ _ _ Hout) as He. unfold tree_bytes in *. rewrite Hl, Hi, lsm_file_size_value in *.
    pose proof (Forall2_length _ _ _ (co_c0 _ _ _ _ _ Hc)). pose proof (Forall2_length _ _ _ (co_c1 _ _ _ _ _ Hc)).
    pose proof Hnote as [_ _ _ Hh Hkey _].
    destruct (add_full_leaf this k r c0 c1 Hh Hkey) as (o' & ctx & Hadd & Hext & Hend & Hnode & Hpush);
      [apply Hout|lia|lia|exact Hctx|lia|lia|lia|].
    eexists. split; [exact Hadd|]. split.
    + eapply leaf_step; [exact Hopen|exact Hc|exact Hk|lia|exact Hext|exact Hend|exact Hnode|exact Hpush].
    + destruct Hnote'. by split.
Qed.

Lemma add_entries_ok es : forall this done_ id level version, built this done_ -> note_ok this done_ id level version ->
  Forall (fun e : Z * record => 0 <= e.1 < 2 ^ 32) es -> Z.of_nat (length (done_ ++ es)) <= DEFAULT_LSM_FILE_CAPACITY ->
  exists this', add_entries this es = Some this' /\ built this' (done_ ++ es) /\ note_ok this' (done_ ++ es) id level version.
Proof using begin_ok end_ok mac_length H0 H2.
  induction es as [|[k r] es IH]; intros this done_ id level version Hb Hn Hes Hcap.
  { rewrite app_nil_r. by exists this. }
  apply Forall_cons in Hes as [Hk Hes]. cbn [add_entries]. rewrite length_app in Hcap. cbn [length] in Hcap.
  destruct Hb as [(groups & pend & Hopen)|(groups & Hfull)].
  - destruct (add_entry_ok _ _ _ _ id level version k r Hopen Hn Hk ltac:(lia)) as (this1 & -> & Hb1 & Hn1).
    destruct (IH this1 (done_ ++ [(k, r)]) id level version Hb1 Hn1 Hes) as (this2 & -> & Hb2 & Hn2).
    { rewrite <- app_assoc, length_app. cbn. lia. }
    rewrite <- app_assoc in *. by exists this2.
  - exfalso. destruct Hfull as [_ _ _ [Hl Hg] Hf _ He].
    assert (Z.of_nat (length done_) = 131072) as Hd.
    { rewrite <- He, full_entries, concat_length, Hl by done. by rewrite !Nat2Z.inj_mul. }
    unfold DEFAULT_LSM_FILE_CAPACITY in Hcap. lia.
Qed.

(** A fresh builder. *)
Lemma init_open id level version buffer :
  exists this, bit_builder_init file0 begin0 id level version key buffer = Some this /\
    built this [] /\ note_ok this [] id level version.
Proof using begin_ok mac_length.
  unfold bit_builder_init. assert (__bit_height DEFAULT_LSM_FILE_CAPACITY DEFAULT_BIT_DEGREE = Some 3) as -> by reflexivity.
  eexists. split; [reflexivity|]. split; [|by split].
  left. exists [], []. split; cbn [bb_out bb_ctx bb_cur_leaf concat app length chain_at]; try done.
  - split; unfold out_end; cbn [bo_cur bo_begin bo_file bo_buffer]; [lia|unfold tree_bytes; lia|]. intros q Hq. unfold out_view. cbn.
    destruct (Z.leb_spec begin0 q), (Z.ltb_spec q (begin0 + 0)); cbn [andb]; done || lia.
  - exists [], []. split; [done|]. split; constructor.
  - unfold out_end. cbn. lia.
  - rewrite degree_val. split; [lia|constructor].
  - rewrite degree_val. lia.
  - rewrite leaf_len_val. lia.
Qed.

(** ** Completing the file *)

Definition rest_children (from : Z) c0 c1 : bit_builder_context :=
  match c0 with [] => c1 | _ => c1 ++ [(InnerNode (__bit_inner c0), from)] end.

(** One or two inner nodes are left to write; the last one is the root. *)
Lemma push_rest_spec o c0 c1 : 0 <= bo_cur o -> bo_cur o + 2 * BIT_INNER_NODE_SIZE <= DEFAULT_LSM_FILE_BUILDER_BUFFER_SIZE ->
  0 <= out_end o -> out_end o + 2 * BIT_INNER_NODE_SIZE < 2 ^ 64 -> (length c1 < degree)%nat -> rest_children (out_end o) c0 c1 <> [] ->
  exists o' ctx, push_rest 2 key 0 o [c0; c1; []] = Some (o', ctx) /\ bo_begin o' = bo_begin o /\ bo_cur o <= bo_cur o' /\
    (forall q, q < out_end o \/ out_end o' <= q -> out_view o' q = out_view o q) /\
    out_end o + BIT_INNER_NODE_SIZE <= out_end o' <= out_end o + (match c0 with [] => 1 | _ => 2 end) * BIT_INNER_NODE_SIZE /\
    (c0 <> [] -> node_at (out_view o') (out_end o) (out_end o') (InnerNode (__bit_inner c0)) (out_end o)) /\
    node_at (out_view o') (out_end o) (out_end o') (InnerNode (__bit_inner (rest_children (out_end o) c0 c1))) (out_end o' - BIT_INNER_NODE_SIZE).
Proof using mac_length H0.
  intros Hc Hb He He2 Hl1 Hne. pose proof degree_val as Hdeg. pose proof node_sizes as (_ & _ & _ & Hi & _ & _).
  assert (forall o c1 c0, (length c1 <= degree)%nat -> c1 <> [] -> 0 <= bo_cur o ->
    bo_cur o + BIT_INNER_NODE_SIZE <= DEFAULT_LSM_FILE_BUILDER_BUFFER_SIZE -> 0 <= out_end o < 2 ^ 64 ->
    exists o' ctx, push_rest 1 key 1 o [c0; c1; []] = Some (o', ctx) /\ bo_begin o' = bo_begin o /\
      bo_cur o' = bo_cur o + BIT_INNER_NODE_SIZE /\ out_end o' = out_end o + BIT_INNER_NODE_SIZE /\
      (forall q, q < out_end o \/ out_end o' <= q -> out_view o' q = out_view o q) /\
      node_at (out_view o') (out_end o) (out_end o') (InnerNode (__bit_inner c1)) (out_end o)) as Hroot.
  { clear - mac_length H0. intros o c1 c0 Hl Hne Hc Hb He. cbn [push_rest lookup list_lookup]. destruct c1 as [|x c1]; [done|].
    destruct (push_inner_spec 1 (x :: c1) o [c0; x :: c1; []] [] eq_refl) as (o' & -> & ?); [cbn; rewrite degree_val; lia|lia..|].
    by eexists _, _. }
  cbn [push_rest lookup list_lookup]. destruct c0 as [|x c0]; cbn [rest_children] in *.
  - destruct (Hroot o c1 [] ltac:(lia) Hne Hc ltac:(lia) ltac:(lia)) as (o' & ctx & Hp & Hbeg & Hcur & Hend & Hv & Hn).
    exists o', ctx. split; [exact Hp|]. split; [done|]. split; [lia|]. split; [done|]. split; [lia|]. split; [done|].
    by replace (out_end o' - BIT_INNER_NODE_SIZE) with (out_end o) by lia.
  - destruct (push_inner_spec 0 (x :: c0) o [x :: c0; c1; []] c1 eq_refl Hl1) as (o1 & -> & Hbeg1 & Hcur1 & Hend1 & Hv1 & Hn1); [lia..|].
    set (c1' := c1 ++ _) in *. change (<[0%nat:=[]]> (<[1%nat:=c1']> [x :: c0; c1; []])) with [[]; c1'; []].
    destruct (Hroot o1 c1' []) as (o' & ctx & Hp & Hbeg & Hcur & Hend & Hv & Hn);
      [unfold c1'; rewrite length_app; cbn; lia|done|lia..|].
    exists o', ctx. split; [exact Hp|]. split; [congruence|]. split; [lia|].
    split; [intros q Hq; rewrite Hv by lia; apply Hv1; lia|]. split; [lia|]. split.
    + intros _. eapply node_at_mono; [| | |exact Hn1]; [|lia..]. intros q Hq. apply Hv. lia.
    + replace (out_end o' - BIT_INNER_NODE_SIZE) with (out_end o1) by lia. eapply node_at_mono; [| | |exact Hn]; (done || lia).
Qed.

(** The nodes of a complete file. *)
Record finished o (es : list (Z * record)) (groups : list (list bit_leaf)) : Prop := {
  fi_cur : 0 <= bo_cur o;
  fi_end : begin0 <= out_end o <= begin0 + lsm_file_size;
  fi_frame : forall q, q < begin0 \/ begin0 + lsm_file_size <= q -> out_view o q = file_byte file0 q;
  fi_root : exists c1, c1 <> [] /\ (length c1 <= degree)%nat /\
    Forall2 (inner_child (out_view o) begin0 (out_end o)) c1 groups /\
    node_at (out_view o) begin0 (out_end o) (InnerNode (__bit_inner c1)) (out_end o - BIT_INNER_NODE_SIZE);
  fi_chain : exists front, 0 <= front < 2 ^ 64 /\ chain_at (out_view o) begin0 (out_end o) begin0 (concat groups) front;
  fi_leaves : exists ls l, concat groups = ls ++ [l] /\ Forall full_leaf ls /\ leaf_entries l <> [] /\ (length (leaf_entries l) <= leaf_len)%nat;
  fi_entries : leaves_entries (concat groups) = es
}.

Lemma full_finished this es groups : full_ok this es groups -> finished (bb_out this) es groups.
Proof using begin_ok mac_length.
  intros [[Hc He Hf] (c1 & Hctx & [_ H1c] & Hroot) Hch [Hl Hg] Hfull Hcur Hent].
  pose proof (concat_length groups Hg) as Hlen. pose proof degree_val as Hdeg. pose proof leaf_len_val as Hll.
  pose proof (tree_bytes_bound (length (concat groups)) (S (length groups)) ltac:(nia) ltac:(lia)) as Hb.
  pose proof (tree_bytes_nonneg (length (concat groups)) (S (length groups))) as Hnn.
  split; [done|lia| | |done| |done].
  - intros q Hq. apply Hf. lia.
  - pose proof (Forall2_length _ _ _ H1c). exists c1. split; [intros ->; cbn in *; lia|]. split; [lia|]. by split.
  - destruct (exists_last (l := concat groups)) as (ls & l & Heq); [intros Hn; rewrite Hn in Hlen; cbn in Hlen; nia|].
    rewrite Heq in *. apply Forall_app in Hfull as [Hf1 Hf2]. apply Forall_cons in Hf2 as [Hf2 _]. exists ls, l. unfold full_leaf in Hf2.
    split; [done|]. split; [done|]. split; [intros Hn; rewrite Hn in Hf2; cbn in Hf2; lia|lia].
Qed.

Definition rest_groups (groups : list (list bit_leaf)) (pend : list bit_leaf) : list (list bit_leaf) :=
  match pend with [] => groups | _ => groups ++ [pend] end.

Lemma finish_nodes o from c0 c1 groups pend es :
  0 <= bo_cur o -> begin0 <= from <= out_end o -> out_end o <= begin0 + lsm_file_size ->
  (forall q, q < begin0 \/ begin0 + lsm_file_size <= q -> out_view o q = file_byte file0 q) ->
  ctx_ok o c0 c1 groups pend -> (length pend <= degree)%nat -> (length groups < degree)%nat -> rest_children from c0 c1 <> [] ->
  (c0 <> [] -> node_at (out_view o) from (out_end o) (InnerNode (__bit_inner c0)) from) ->
  node_at (out_view o) from (out_end o) (InnerNode (__bit_inner (rest_children from c0 c1))) (out_end o - BIT_INNER_NODE_SIZE) ->
  (exists front, 0 <= front < 2 ^ 64 /\ chain_at (out_view o) begin0 (out_end o) begin0 (concat groups ++ pend) front) ->
  (exists ls l, concat groups ++ pend = ls ++ [l] /\ Forall full_leaf ls /\ leaf_entries l <> [] /\ (length (leaf_entries l) <= leaf_len)%nat) ->
  leaves_entries (concat groups ++ pend) = es ->
  finished o es (rest_groups groups pend).
Proof.
  intros Hc Hfrom Hend Hframe Hctx Hp Hg Hne Hn Hroot Hch Hls Hent.
  assert (concat (rest_groups groups pend) = concat groups ++ pend) as Hcc.
  { unfold rest_groups. destruct pend; [by rewrite app_nil_r|apply concat_snoc]. }
  split; rewrite ?Hcc; [done|lia|done| |done..]. exists (rest_children from c0 c1). split; [done|].
  pose proof Hctx as [H0c H1c]. pose proof (Forall2_length _ _ _ H0c) as Hl0. pose proof (Forall2_length _ _ _ H1c) as Hl1.
  assert (Forall2 (inner_child (out_view o) begin0 (out_end o)) (rest_children from c0 c1) (rest_groups groups pend)) as Hall.
  { unfold rest_children, rest_groups. destruct c0 as [|x c0], pend as [|l pend]; cbn in Hl0; try lia; [exact H1c|].
    destruct (group_closes o (x :: c0) c1 groups (l :: pend) from Hctx ltac:(done) Hp ltac:(lia) (Hn ltac:(done))) as [_ Hall]. exact Hall. }
  split; [|split; [exact Hall|]].
  - rewrite (Forall2_length _ _ _ Hall). unfold rest_groups. destruct pend; [lia|]. rewrite length_app. cbn. lia.
  - eapply node_at_mono; [| | |exact Hroot]; (done || lia).
Qed.

Lemma rest_nonempty o from c0 c1 groups pend : ctx_ok o c0 c1 groups pend -> concat groups ++ pend <> [] -> rest_children from c0 c1 <> [].
Proof.
  intros [H0c H1c] Hne. unfold rest_children. destruct c0 as [|x c0]; [|by destruct c1].
  apply Forall2_nil_inv_l in H0c as ->. rewrite app_nil_r in Hne. intros ->. apply Forall2_nil_inv_l in H1c as ->. done.
Qed.

Lemma open_bounds this es groups pend : open_ok this es groups pend ->
  begin0 <= out_end (bb_out this) /\
  out_end (bb_out this) + BIT_LEAF_NODE_SIZE + 2 * BIT_INNER_NODE_SIZE <= begin0 + lsm_file_size.
Proof.
  intros Hopen. pose proof (open_lengths _ _ _ _ Hopen) as Hlens. destruct Hopen as [[_ He _] _ _ [Hg _] Hp _ _ _].
  pose proof degree_val as Hdeg. pose proof node_sizes as (_ & _ & Hl & Hi & _ & _).
  rewrite He. unfold tree_bytes. rewrite Hl, Hi, lsm_file_size_value. nia.
Qed.

Lemma last_leaf_full ls : Forall full_leaf ls -> ls <> [] ->
  exists ls' l, ls = ls' ++ [l] /\ Forall full_leaf ls' /\ leaf_entries l <> [] /\ (length (leaf_entries l) <= leaf_len)%nat.
Proof.
  intros Hf Hne. destruct (exists_last Hne) as (ls' & l & ->). apply Forall_app in Hf as [Hf1 Hf2].
  apply Forall_cons in Hf2 as [Hl _]. unfold full_leaf in Hl. pose proof leaf_len_val. exists ls', l.
  split; [done|]. split; [done|]. split; [intros Hn; rewrite Hn in Hl; cbn in Hl; lia|lia].
Qed.

(** Without a leaf of its own. *)
Lemma complete_no_leaf this es groups pend id level version : open_ok this es groups pend -> note_ok this es id level version ->
  es <> [] -> bb_cur_leaf this = [] ->
  exists o ctx groups', complete_nodes this = Some (o, ctx) /\ finished o es groups'.
Proof using begin_ok end_ok mac_length H0 H2.
  intros Hopen [_ _ _ Hh Hkey _] Hne Hcl. destruct (open_bounds _ _ _ _ Hopen) as [Hlo Hhi].
  pose proof Hopen as [[Hc He Hf] (c0 & c1 & Hctx & Hco) Hch [Hg32 Hg] Hp32 Hfull Hcur Hent].
  pose proof degree_val as Hdeg. pose proof node_sizes as (_ & _ & Hl & Hi & Hn & Hbuf).
  rewrite Hcl, app_nil_r in Hent. assert (concat groups ++ pend <> []) as Hleaves by (intros Hnil; rewrite Hnil in Hent; by subst es).
  unfold complete_nodes. rewrite Hcl, Hctx, Hh, Hkey. change (Z.to_nat (3 - 1)) with 2%nat.
  destruct (flush_spec (bb_out this) Hc) as ([Hcf Hroom] & Hef & Hvf).
  set (o1 := bit_builder_buffer_flush_if_full 3 (bb_out this)) in *.
  pose proof (Forall2_length _ _ _ (co_c1 _ _ _ _ _ Hco)) as Hl1.
  destruct (push_rest_spec o1 c0 c1) as (o' & ctx & Hp & Hbeg & Hcur' & Hv & Hend & Hn0 & Hroot);
    [lia..|by eapply rest_nonempty|]. rewrite Hef in *.
  assert (forall q, q < out_end (bb_out this) \/ out_end o' <= q -> out_view o' q = out_view (bb_out this) q) as Hv'
    by (intros q Hq; rewrite Hv by done; apply Hvf).
  assert (forall q, begin0 <= q < out_end (bb_out this) -> out_view o' q = out_view (bb_out this) q) as Hagree by (intros q Hq; apply Hv'; lia).
  exists o', ctx, (rest_groups groups pend). split; [exact Hp|].
  assert (out_end o' <= begin0 + lsm_file_size) as Hend' by (destruct c0; lia).
  eapply (finish_nodes o' (out_end (bb_out this)) c0 c1); try done; [lia|lia| |destruct Hco as [H0c H1c]; split| |by eapply rest_nonempty| |].
  - intros q Hq. rewrite Hv' by lia. apply Hf. lia.
  - eapply leaf_children_mono; [exact Hagree|lia|lia|exact H0c].
  - eapply inner_children_mono; [exact Hagree|lia|lia|exact H1c].
  - lia.
  - exists (out_end (bb_out this)). split; [lia|]. eapply chain_at_mono; [exact Hagree|lia|lia|exact Hch].
  - by apply last_leaf_full.
Qed.

Lemma complete_with_leaf this es groups pend id level version : open_ok this es groups pend -> note_ok this es id level version ->
  bb_cur_leaf this <> [] -> 0 <= default 0 (fst <$> last (bb_cur_leaf this)) < 2 ^ 32 ->
  exists o ctx groups', complete_nodes this = Some (o, ctx) /\ finished o es groups'.
Proof using begin_ok end_ok mac_length H0 H2.
  intros Hopen [_ _ _ Hh Hkey _] Hcl Hk. destruct (open_bounds _ _ _ _ Hopen) as [Hlo Hhi].
  pose proof Hopen as [[Hc He Hf] (c0 & c1 & Hctx & Hco) Hch [Hg32 Hg] Hp32 Hfull Hcur Hent].
  pose proof degree_val as Hdeg. pose proof node_sizes as (Hls & _ & Hl & Hi & Hn & Hbuf). set (p := out_end (bb_out this)) in *.
  set (leaf := {| leaf_entries := bb_cur_leaf this; leaf_next_pos := 0 |}).
  pose proof (Forall2_length _ _ _ (co_c1 _ _ _ _ _ Hco)) as Hl1. pose proof (Forall2_length _ _ _ (co_c0 _ _ _ _ _ Hco)) as Hl0.
  assert (complete_nodes this = match push_rest 2 key 0 (out_reserve (bit_builder_buffer_flush_if_full 3 (bb_out this)) BIT_LEAF_NODE_SIZE)
      [c0 ++ [(LeafNode leaf, p)]; c1; []] with
    | None => None
    | Some (o, ctx) =>
        match out_memcpy o (bo_cur (bit_builder_buffer_flush_if_full 3 (bb_out this))) (bit_node_encode (LeafNode leaf) key None old_mac).1 with
        | None => None
        | Some o => Some (o, ctx)
        end
    end) as ->.
  { unfold complete_nodes. rewrite Hctx, Hh, Hkey. change (Z.to_nat (3 - 1)) with 2%nat. unfold ctx_push. cbn [lookup list_lookup].
    unfold DEFAULT_BIT_DEGREE. destruct (Z.ltb_spec (Z.of_nat (length c0)) 32); [|lia].
    unfold out_pos. fold (out_end (bb_out this)). fold p. rewrite u64_small by lia. fold leaf. by destruct (bb_cur_leaf this). }
  destruct (flush_spec (bb_out this) Hc) as ([Hcf Hroom] & Hef & Hvf).
  set (o1 := bit_builder_buffer_flush_if_full 3 (bb_out this)) in *. fold p in Hef. set (c0' := c0 ++ [(LeafNode leaf, p)]).
  assert (out_end (out_reserve o1 BIT_LEAF_NODE_SIZE) = p + BIT_LEAF_NODE_SIZE) as Her by (rewrite <- Hef; unfold out_end; cbn; lia).
  assert (forall from, rest_children from c0' c1 <> []) as Hrest by (intros from; unfold c0'; destruct c0; cbn; by destruct c1).
  destruct (push_rest_spec (out_reserve o1 BIT_LEAF_NODE_SIZE) c0' c1) as (o3 & ctx & -> & Hbeg & Hcur3 & Hv3 & Hend3 & Hn3 & Hroot3);
    [cbn [bo_cur out_reserve]; lia..|lia|lia|lia|apply Hrest|]. rewrite Her in *. cbn [bo_begin bo_cur out_reserve] in Hbeg, Hcur3.
  set (bytes := (bit_node_encode (LeafNode leaf) key None old_mac).1).
  assert (Z.of_nat (length bytes) = BIT_LEAF_NODE_SIZE) as Hbl by (subst bytes; rewrite encode_length by done; exact Hls).
  destruct (memcpy_spec o3 (bo_cur o1) bytes Hcf) as (o4 & -> & Hbeg4 & Hcur4 & _ & Hh4 & Hv4); [lia..|].
  assert (bo_begin o3 + bo_cur o1 = p) as Hpos by (rewrite Hbeg; exact Hef). rewrite Hpos, Hbl in *.
  assert (out_end o4 = out_end o3) as He4 by (unfold out_end; congruence). rewrite <- He4 in *.
  assert (out_end o4 <= begin0 + lsm_file_size) as Hend' by (destruct c0'; lia).
  assert (extends (bb_out this) o4) as Hext.
  { split; [lia|]. fold p. split; [lia|]. intros q Hq. rewrite Hv4, Hv3 by lia. rewrite reserve_view by (rewrite ?Hef; lia). apply Hvf. }
  destruct (leaf_extends (bb_out this) o4 c0 c1 groups pend leaf (LeafNode leaf)) as [Hctx' Hch'];
    [fold p; lia|exact Hext|exact Hco|fold p; lia|done|done|exact Hk| |exact Hch|].
  { fold p. split; [lia|]. fold bytes. split; [lia|]. exact Hh4. }
  rewrite <- app_assoc in Hch'. exists o4, ctx, (rest_groups groups (pend ++ [leaf])). split; [done|].
  eapply (finish_nodes o4 (p + BIT_LEAF_NODE_SIZE) c0' c1); try done; [lia|lia| | | | |by exists 0| |].
  - destruct Hext as (_ & _ & Hv). fold p in Hv. intros q Hq. rewrite Hv by lia. apply Hf. fold p. lia.
  - rewrite length_app. cbn. lia.
  - intros Hc0. eapply node_at_mono; [| | |exact (Hn3 Hc0)]; [|lia..]. intros q Hq. apply Hv4. lia.
  - eapply node_at_mono; [| | |exact Hroot3]; [|lia..]. intros q Hq. apply Hv4. lia.
  - exists (concat groups ++ pend), leaf. split; [by rewrite app_assoc|]. split; [done|]. split; [done|]. cbn. lia.
  - rewrite app_assoc, leaves_entries_app. unfold leaves_entries at 2. cbn [fmap list_fmap concat leaf_entries leaf]. by rewrite app_nil_r.
Qed.

(** ** Reading the nodes back *)
Section reading.
Context (v : Z -> Z) (lo hi : Z) (lo_ok : 0 <= lo) (hi_ok : hi < 2 ^ 64).
Context (file : kfile) (sees : forall q, lo <= q < hi -> file_byte file q = v q) (key_encrypts : encrypts key).

Local Definition file_store : store (NodeStore := file_nodes) := (file, key).

Lemma placed_holds p bytes : placed v lo hi p bytes -> file_holds file p bytes.
Proof using sees mac_length.
  intros (Hlo & Hhi & Hh). unfold file_holds. apply list_eq. intros i. destruct (bytes !! i) as [b|] eqn:Hi.
  - pose proof (lookup_lt_Some _ _ _ Hi). rewrite kernel_read_lookup by done. rewrite sees by lia. by rewrite (Hh i b Hi).
  - apply lookup_ge_None in Hi. apply lookup_ge_None. unfold kernel_read. by rewrite length_fmap, length_seq.
Qed.

Lemma read_node_at n p : node_at v lo hi n p -> node_ok n -> read_node file_store p (is_leaf_node n) = Ok n.
Proof using sees key_encrypts mac_length H0.
  intros Hp Hn. eapply read_node_holds; [done|exact key_encrypts|exact mac_length|]. by apply placed_holds.
Qed.

Lemma node_at_bounds n p : node_at v lo hi n p -> lo <= p /\ p + Z.of_nat (node_size (is_leaf_node n)) <= hi.
Proof using mac_length H0. intros (Hlo & Hhi & _). rewrite encode_length in Hhi by done. lia. Qed.

Definition leaf_ok (l : bit_leaf) : Prop := node_ok (LeafNode l).

Lemma children_of_leaves c g : Forall2 (leaf_child v lo hi) c g -> Forall leaf_ok g ->
  Forall2 (child_of file_store) (__bit_inner c) g /\ Forall child_ok (__bit_inner c).
Proof using lo_ok hi_ok sees key_encrypts mac_length H0.
  intros Hall Hok. unfold __bit_inner. split.
  - rewrite Forall2_fmap_l. rewrite Forall_lookup in Hok. apply Forall2_same_length_lookup_2; [by eapply Forall2_length|].
    intros i np l Hnp Hl. destruct (Forall2_lookup_lr _ _ _ _ _ _ Hall Hnp Hl) as (_ & Hk & Hr & Hn).
    split; [done|]. cbn [child_pos]. apply (read_node_at (LeafNode l)); [exact Hn|]. by eapply Hok.
  - rewrite Forall_fmap. apply (Forall2_Forall_l _ (fun np => child_ok {| child_is_leaf := is_leaf_node np.1; child_key := node_last_key np.1; child_pos := np.2 |}) _ _ (Forall2_impl _ _ _ _ Hall (fun _ _ H => H))).
    apply Forall_true. intros l np (_ & Hk & Hr & Hn). apply node_at_bounds in Hn. split; cbn [child_key child_pos]; [by rewrite Hk|lia].
Qed.

Lemma inner_last c g : Forall2 (leaf_child v lo hi) c g -> c <> [] ->
  node_last_key (InnerNode (__bit_inner c)) = group_last g /\ 0 <= group_last g < 2 ^ 32.
Proof.
  intros Hall Hne. destruct (exists_last Hne) as (c' & np & ->). apply Forall2_app_inv_l in Hall as (g' & g2 & _ & Hall & ->).
  apply Forall2_cons_inv_l in Hall as (l & g3 & (_ & Hk & Hr & _) & Hnil & ->). apply Forall2_nil_inv_l in Hnil as ->.
  unfold group_last, node_last_key, __bit_inner. rewrite fmap_app. cbn [fmap list_fmap]. rewrite !last_snoc. cbn. by rewrite Hk.
Qed.

Definition children_of (np : bit_node * Z) : list bit_child := match np.1 with InnerNode c => c | LeafNode _ => [] end.

Lemma read_children c1 groups : Forall2 (inner_child v lo hi) c1 groups -> Forall (Forall leaf_ok) groups ->
  read_child_nodes file_store (__bit_inner c1) = Some (children_of <$> c1) /\
  Forall2 (fun c g => child_key c = group_last g) (__bit_inner c1) groups /\
  Forall2 (fun inner g => Forall2 (child_of file_store) inner g) (children_of <$> c1) groups /\
  Forall child_ok (__bit_inner c1) /\ Forall (fun g => g <> []) groups.
Proof using lo_ok hi_ok sees key_encrypts mac_length H0.
  intros Hall. induction Hall as [|[n p] g c1 groups (c & Hn & Hne & Hlen & Hc & Hat) _ IH]; intros Hok.
  { repeat split; constructor. }
  cbn [fst] in Hn. subst n. apply Forall_cons in Hok as [Hokg Hok]. destruct (IH Hok) as (Hrc & Hk & Hi & Hco & Hg).
  destruct (children_of_leaves c g Hc Hokg) as [Hch Hcok]. destruct (inner_last c g Hc Hne) as [Hlast Hrange].
  cbn [fst snd] in Hat. pose proof (node_at_bounds _ _ Hat) as Hb.
  assert (read_node file_store p false = Ok (InnerNode (__bit_inner c))) as Hread.
  { apply (read_node_at (InnerNode (__bit_inner c))); [exact Hat|]. split; [unfold __bit_inner; by rewrite length_fmap|exact Hcok]. }
  unfold __bit_inner at 1. cbn [fmap list_fmap read_child_nodes child_pos snd]. rewrite Hread.
  change ((fun np : bit_node * Z => {| child_is_leaf := is_leaf_node np.1; child_key := node_last_key np.1; child_pos := np.2 |}) <$> c1)
    with (__bit_inner c1). rewrite Hrc. split; [done|].
  split; [constructor; [exact Hlast|exact Hk]|]. split; [constructor; [exact Hch|exact Hi]|]. split.
  - constructor; [|exact Hco]. split; cbn [child_key child_pos fst snd]; [by rewrite Hlast|lia].
  - constructor; [|exact Hg]. intros ->. by apply Forall2_nil_inv_r in Hc.
Qed.

(** The chain of the leaves. *)
Lemma chain_next ls : forall p front, chain_at v lo hi p ls front -> 0 <= front < 2 ^ 64 ->
  Forall (fun l => 0 <= leaf_next_pos l < 2 ^ 64) ls.
Proof using lo_ok hi_ok mac_length H0.
  induction ls as [|l ls IH]; intros p front Hch Hf; [constructor|]. destruct Hch as [_ Hch]. constructor; [|by eapply IH].
  destruct ls as [|l' ls]; cbn [chain_at] in Hch; [lia|]. destruct Hch as [Hn _]. apply node_at_bounds in Hn. lia.
Qed.

Lemma chain_inside ls : forall p front i l, chain_at v lo hi p ls front -> ls !! i = Some l -> (S i < length ls)%nat ->
  lo <= leaf_next_pos l /\ leaf_next_pos l + BIT_LEAF_NODE_SIZE <= hi.
Proof using mac_length H0.
  pose proof node_sizes as (Hs & _). induction ls as [|x ls IH]; intros p front i l Hch Hi Hlen; [done|]. destruct Hch as [_ Hch].
  destruct i as [|i].
  - injection Hi as ->. destruct ls as [|y ls]; [cbn in Hlen; lia|]. destruct Hch as [Hn _]. apply node_at_bounds in Hn.
    cbn [is_leaf_node] in Hn. lia.
  - cbn in Hi, Hlen. eapply IH; [exact Hch|exact Hi|lia].
Qed.

Lemma chain_leaves ls : forall p front l init x, chain_at v lo hi p (l :: ls) front -> Forall leaf_ok (l :: ls) ->
  l :: ls = init ++ [x] -> Forall full_leaf init -> leaf_chain file_store l ls.
Proof using sees key_encrypts mac_length H0.
  induction ls as [|l' ls IH]; intros p front l init x Hch Hok Heq Hfull; [done|]. cbn [leaf_chain].
  destruct init as [|y init]; [done|]. injection Heq as <- Heq. apply Forall_cons in Hfull as [Hl Hfull].
  apply Forall_cons in Hok as [_ Hok]. destruct Hch as [_ Hch]. unfold full_leaf in Hl.
  split; [rewrite Hl, leaf_len_val; done|]. split; [|by eapply IH].
  destruct Hch as [Hn _]. apply Forall_cons in Hok as [Hok _]. by apply (read_node_at (LeafNode l')).
Qed.
End reading.

(** The file over the nodes of a finished output, once they are in [file]. *)
Section finished_file.
Context (file : kfile) (key_encrypts : encrypts key) (no_cache_empty : forall k, cache_view no_cache k = None).

Lemma finished_file o es groups id level version : finished o es groups -> keys_le es -> Forall entry_ok es ->
  Z.of_nat (length es) < 2 ^ 32 ->
  (forall q, begin0 <= q < out_end o -> file_byte file q = out_view o q) ->
  let f := bit_file_init (file_store file) (out_end o - BIT_INNER_NODE_SIZE) id level version
             (default 0 (fst <$> head es)) (default 0 (fst <$> last es)) (u32 (Z.of_nat (length es))) no_cache in
  file_in_slot f groups begin0.
Proof using begin_ok end_ok key_encrypts no_cache_empty mac_length H0.
  intros [Hc [He1 He2] Hf (c1 & Hne & Hlen & Hall & Hroot) (front & Hfront & Hch) (ls & l & Hcc & Hfull & Hl & Hll) Hent] Hsort Hok Hcount Hsee f.
  assert (out_end o < 2 ^ 64) as He by lia. pose proof leaf_len_val as Hll128.
  pose proof (chain_next _ _ _ begin_ok He _ _ _ Hch Hfront) as Hnext.
  assert (Forall (fun l => leaf_entries l <> [] /\ (length (leaf_entries l) <= leaf_len)%nat) (concat groups)) as Hlens.
  { rewrite Hcc. apply Forall_app. split; [|constructor; [by split|constructor]]. eapply Forall_impl; [exact Hfull|]. cbn. unfold full_leaf.
    intros x Hx. split; [intros Hn; rewrite Hn in Hx; cbn in Hx; lia|lia]. }
  assert (Forall leaf_ok (concat groups)) as Hleaves.
  { apply Forall_forall. intros x Hx. rewrite Forall_forall in Hnext, Hlens. destruct (Hlens x Hx) as [_ Hx2]. split; [done|].
    split; [|by apply Hnext]. apply Forall_forall. intros e Hin. rewrite Forall_forall in Hok. apply Hok. rewrite <- Hent.
    unfold leaves_entries. apply list_elem_of_In, in_concat. exists (leaf_entries x).
    split; apply list_elem_of_In; [by apply list_elem_of_fmap_2|done]. }
  assert (Forall (Forall leaf_ok) groups) as Hgl by (by apply Forall_concat).
  destruct (read_children _ _ _ begin_ok He file Hsee key_encrypts c1 groups Hall Hgl) as (Hread & Hk & Hi & Hco & Hgne).
  assert (bf_cached_root f = Some {| cr_children := __bit_inner c1; cr_child_nodes := children_of <$> c1 |}) as Hcr.
  { cbn [f bf_cached_root bit_file_init]. unfold bit_file_build_cached_root.
    assert (read_node (file_store file) (out_end o - BIT_INNER_NODE_SIZE) false = Ok (InnerNode (__bit_inner c1))) as ->; [|by rewrite Hread].
    apply (read_node_at _ _ _ file Hsee key_encrypts (InnerNode (__bit_inner c1)) _ Hroot).
    split; [unfold __bit_inner; by rewrite length_fmap|done]. }
  assert (es <> []) as Hes.
  { intros ->. rewrite Hcc, leaves_entries_app in Hent. apply app_eq_nil in Hent as [_ Hent].
    unfold leaves_entries in Hent. cbn in Hent. by rewrite app_nil_r in Hent. }
  assert (file_wf f groups) as Hwf.
  { split; cbn [bf_file bf_first_key bf_last_key bf_cached_leaf f bit_file_init]; rewrite ?Hent; try done.
    - eexists. split; [exact Hcr|]. by split.
    - eapply Forall_impl; [exact Hlens|]. by intros ? [? _].
    - by destruct es.
    - destruct (exists_last Hes) as (es' & e & ->). by rewrite last_snoc.
    - intros k x. by rewrite no_cache_empty. }
  split; [exact Hwf| | |].
  - split; cbn [bf_file bf_nr_record f bit_file_init].
    + destruct (concat groups) as [|x xs] eqn:Hx; [by destruct ls|]. eapply (chain_leaves _ _ _ file Hsee key_encrypts xs); done.
    + eapply Forall_impl; [exact Hlens|]. intros x [_ Hx]. unfold BIT_LEAF_LEN. cbn in Hx. lia.
    + rewrite Hent, u32_small; lia.
  - eexists. split; [exact Hcr|]. cbn [cr_child_nodes]. rewrite Forall_fmap. apply Forall_forall. intros np Hin.
    apply list_elem_of_lookup in Hin as (i & Hi'). destruct (Forall2_lookup_l _ _ _ _ _ Hall Hi') as (g & _ & c & Hn & _ & _ & Hcg & _).
    cbn [compose]. unfold children_of. rewrite Hn. unfold __bit_inner. rewrite Forall_fmap. apply Forall_forall. intros cp Hcp.
    apply list_elem_of_lookup in Hcp as (i' & Hi2). destruct (Forall2_lookup_l _ _ _ _ _ Hcg Hi2) as (x & _ & _ & _ & _ & Hat).
    apply node_at_bounds in Hat. pose proof node_sizes as (Hs & _). cbn [is_leaf_node] in Hat.
    change (begin0 <= cp.2 /\ cp.2 + BIT_LEAF_NODE_SIZE <= begin0 + lsm_file_size). lia.
  - intros i x Hx Hxl. pose proof (chain_inside _ _ _ _ _ _ _ _ Hch Hx Hxl). lia.
Qed.
End finished_file.
End nodes.

(** ** What the builder promises *)

(** The file read through another state of the backing file. *)
Definition with_store (f : bit_file (H := file_nodes)) (s : store (NodeStore := file_nodes)) : bit_file (H := file_nodes) :=
  {| bf_file := s; bf_id := bf_id f; bf_level := bf_level f; bf_version := bf_version f; bf_root := bf_root f;
     bf_first_key := bf_first_key f; bf_last_key := bf_last_key f; bf_nr_record := bf_nr_record f;
     bf_cached_leaf := bf_cached_leaf f; bf_cached_root := bf_cached_root f |}.

(** The file [f] holds the entries [es] in the slot at [lo]. *)
Definition file_of (file : kfile) (key : list Z) (id level version lo : Z) (es : list (Z * record)) (f : bit_file (H := file_nodes)) : Prop :=
  bf_file f = (file, key) /\ bf_id f = id /\ bf_level f = level /\ bf_version f = version /\
  exists groups, leaves_entries (concat groups) = es /\ file_in_slot f groups lo.

Definition same_outside (lo : Z) (file file' : kfile) : Prop :=
  forall q, q < lo \/ lo + lsm_file_size <= q -> file_byte file' q = file_byte file q.

Section building.
Context (mac_length : length old_mac = 16%nat) (no_cache_empty : forall k, cache_view no_cache k = None).

(** A builder in the middle of its work: it was given the slot at [begin] of the
    backing file [file] and has taken the entries [es]. *)
Record building (file : kfile) (key : list Z) (begin id level version : Z) (b : bit_builder) (es : list (Z * record)) : Prop := {
  bg_built : built key file begin b es;
  bg_note : note_ok key b es id level version;
  bg_begin : begin <= bo_begin (bb_out b)
}.

Lemma building_init file begin id level version key buffer : 0 <= begin ->
  exists b, bit_builder_init file begin id level version key buffer = Some b /\ building file key begin id level version b [] /\
    bo_file (bb_out b) = file.
Proof using mac_length.
  intros Hb. destruct (init_open key mac_length file begin Hb id level version buffer) as (b & Hinit & Hb0 & Hn0).
  exists b. split; [done|]. unfold bit_builder_init in Hinit. destruct (__bit_height _ _); [|done]. injection Hinit as <-.
  split; [|done]. split; [done|done|cbn; lia].
Qed.

Lemma push_full_begin fuel : forall key h o ctx o' ctx', push_full fuel key h o ctx = Some (o', ctx') ->
  bo_begin o' = bo_begin o.
Proof.
  induction fuel as [|fuel IH]; intros key h o ctx o' ctx'; cbn [push_full]; [done|].
  destruct (ctx !! h) as [c|]; [|done]. destruct (_ =? _); [|by intros [= <- <-]].
  destruct (push_inner key h c o ctx) as [[o1 ctx1]|] eqn:Hp; [|done]. intros Hr. apply IH in Hr. rewrite Hr.
  unfold push_inner, out_memcpy in Hp. destruct (_ <=? _); [|done]. destruct (ctx_push _ _ _ _); [|done].
  by injection Hp as <- <-.
Qed.

Lemma add_entry_begin b k r b' : 0 <= bo_cur (bb_out b) -> bit_builder_add_entry b k r = Some b' ->
  bo_begin (bb_out b) <= bo_begin (bb_out b').
Proof.
  intros Hc. unfold bit_builder_add_entry. cbn [bb_cur_leaf bb_ctx bb_out bb_height bb_key note_entry].
  destruct (_ <? _); [intros [= <-]; cbn; lia|]. destruct (ctx_push _ _ _ _); [|done].
  destruct (push_full _ _ _ _ _) as [[o ctx]|] eqn:Hp; [|done]. apply push_full_begin in Hp.
  unfold out_memcpy. destruct (_ <=? _); [|done]. intros [= <-]. cbn [bb_out with_out bo_begin]. rewrite Hp.
  unfold out_reserve, bit_builder_buffer_flush_if_full. destruct (_ <? _); cbn; lia.
Qed.

Lemma built_out file key begin b es : built key file begin b es -> exists leaves inners,
  out_ok file begin (bb_out b) leaves inners /\ (leaves <= 1024)%nat /\ (inners <= 33)%nat.
Proof.
  pose proof degree_val as Hdeg. intros [(groups & pend & Hopen)|(groups & Hfull)].
  - assert (length (concat groups ++ pend) = (length groups * degree + length pend)%nat) as Hl by (eapply open_lengths; [exact mac_length|exact Hopen]). destruct Hopen as [Hout _ _ [Hg _] Hp _ _ _].
    eexists _, _. split; [exact Hout|]. split; nia.
  - destruct Hfull as [Hout _ _ [Hl Hg] _ _ _]. pose proof (concat_length mac_length groups Hg). eexists _, _. split; [exact Hout|]. split; nia.
Qed.

Lemma building_add file key begin id level version b es k r : building file key begin id level version b es ->
  0 <= begin -> begin + lsm_file_size < 2 ^ 64 -> 0 <= k < 2 ^ 32 -> Z.of_nat (length es) < DEFAULT_LSM_FILE_CAPACITY ->
  exists b', bit_builder_add_entry b k r = Some b' /\ building file key begin id level version b' (es ++ [(k, r)]).
Proof using mac_length H0 H2.
  intros [Hb Hn Hge] Hbegin Hend Hk Hcap. pose proof (built_out _ _ _ _ _ Hb) as (l & i & [Hc _ _] & _).
  destruct (add_entries_ok key mac_length file begin Hbegin Hend [(k, r)] b es id level version Hb Hn) as (b' & Hadd & Hb' & Hn').
  { constructor; [exact Hk|constructor]. }
  { rewrite length_app. cbn. lia. }
  cbn [add_entries] in Hadd. destruct (bit_builder_add_entry b k r) as [b1|] eqn:Ha; [|done]. injection Hadd as ->.
  exists b'. split; [done|]. split; [done|done|]. apply add_entry_begin in Ha; [lia|done].
Qed.

(** What has been written so far lies in the slot. *)
Lemma building_frame file key begin id level version b es : building file key begin id level version b es ->
  same_outside begin file (bo_file (bb_out b)).
Proof.
  intros [Hb Hn Hge] q Hq. destruct (built_out _ _ _ _ _ Hb) as (l & i & [Hc He Hf] & Hl & Hi).
  pose proof (tree_bytes_bound mac_length l i Hl Hi). rewrite <- Hf by lia. unfold out_view, out_end in *.
  destruct (Z.leb_spec (bo_begin (bb_out b)) q), (Z.ltb_spec q (bo_begin (bb_out b) + bo_cur (bb_out b))); cbn [andb]; done || lia.
Qed.

Lemma building_complete file key begin id level version b es : building file key begin id level version b es ->
  0 <= begin -> begin + lsm_file_size < 2 ^ 64 -> es <> [] -> Z.of_nat (length es) <= DEFAULT_LSM_FILE_CAPACITY ->
  keys_le es -> Forall entry_ok es -> encrypts key ->
  exists file' f, bit_builder_complete b = Some (file', f) /\
    file_of file' key id level version begin es f /\ same_outside begin file file'.
Proof using mac_length no_cache_empty H0 H2.
  intros [Hb' Hn' _] Hb He Hne Hcap Hsort Hok Hkey. assert (DEFAULT_LSM_FILE_CAPACITY = 131072) as Hcv by reflexivity.
  (* the nodes are complete *)
  assert (exists o groups, finished key file begin o es groups /\ bit_builder_complete b =
    (let file' := kernel_write (bo_file o) (bo_begin o) (out_bytes o) in
     Some (file', bit_file_init ((file', bb_key b) : store (NodeStore := file_nodes)) (bo_begin o + bo_cur o - BIT_INNER_NODE_SIZE)
       (bb_id b) (bb_level b) (bb_version b) (bb_first_key b) (bb_last_key b) (u32 (bb_size b)) no_cache)))
    as (o & groups & Hfin & Hcomp).
  { unfold bit_builder_complete. rewrite (no_height _ _ _ _ _ _ Hn'). change (Z.to_nat (3 - 1)) with 2%nat.
    destruct Hb' as [(groups & pend & Hopen)|(groups & Hfull)].
    - pose proof Hopen as [_ (c0 & c1 & Hctx & _) _ _ _ _ _ Hent].
      assert (exists o ctx groups', complete_nodes b = Some (o, ctx) /\ finished key file begin o es groups') as (o & ctx & groups' & Hc & Hfin).
      { destruct (bb_cur_leaf b) as [|e es0] eqn:Hcl; [by eapply complete_no_leaf|]. rewrite <- Hcl in *.
        eapply complete_with_leaf; [done|exact Hb|exact He|exact Hopen|exact Hn'|by rewrite Hcl|].
        destruct (exists_last (l := bb_cur_leaf b)) as (es1 & e1 & Hl); [by rewrite Hcl|]. rewrite Hl, last_snoc. cbn.
        rewrite <- Hent, Hl, app_assoc in Hok. apply Forall_app in Hok as [_ Hok]. by apply Forall_cons in Hok as [[Hk _] _]. }
      exists o, groups'. split; [exact Hfin|]. rewrite Hctx. cbn [lookup list_lookup]. by rewrite Hc.
    - pose proof Hfull as [_ (c1 & Hctx & _ & _) _ _ _ _ _]. exists (bb_out b), groups. split; [by apply full_finished|].
      rewrite Hctx. done. }
  cbv zeta in Hcomp. destruct Hn' as [Hfirst Hlast Hsize _ Hk (Hid & Hlev & Hver)].
  set (file' := kernel_write (bo_file o) (bo_begin o) (out_bytes o)) in *.
  assert (forall q, file_byte file' q = out_view o q) as Hview by (intros q; apply view_written; apply Hfin).
  eexists file', _. split; [exact Hcomp|].
  assert (bb_first_key b = default 0 (fst <$> head es)) as Hf.
  { rewrite Hfirst. destruct (bb_has_first_key b); [done|]. by destruct es. }
  split.
  - split; [cbn; by rewrite Hk|]. split; [done|]. split; [done|]. split; [done|]. exists groups. split; [apply Hfin|].
    rewrite Hf, <- Hlast, Hsize, Hk.
    apply (finished_file key mac_length file begin Hb He file' Hkey no_cache_empty o es groups); done || lia.
  - intros q Hq. rewrite Hview. by apply (fi_frame _ _ _ _ _ _ Hfin).
Qed.

Lemma building_entries file key begin id level version es : forall b done_, building file key begin id level version b done_ ->
  0 <= begin -> begin + lsm_file_size < 2 ^ 64 -> Forall entry_ok es -> Z.of_nat (length (done_ ++ es)) <= DEFAULT_LSM_FILE_CAPACITY ->
  exists b', add_entries b es = Some b' /\ building file key begin id level version b' (done_ ++ es).
Proof using mac_length H0 H2.
  induction es as [|[k r] es IH]; intros b done_ Hb Hbegin Hend Hes Hcap.
  { rewrite app_nil_r. by exists b. }
  apply Forall_cons in Hes as [[Hk _] Hes]. cbn [add_entries]. rewrite length_app in Hcap. cbn [length] in Hcap.
  destruct (building_add _ _ _ _ _ _ _ _ k r Hb Hbegin Hend Hk ltac:(lia)) as (b1 & -> & Hb1).
  destruct (IH b1 _ Hb1 Hbegin Hend Hes) as (b2 & -> & Hb2); [rewrite <- app_assoc, length_app; cbn; lia|].
  rewrite <- app_assoc in Hb2. by exists b2.
Qed.

Lemma build_file file begin id level version key buffer es :
  0 <= begin -> begin + lsm_file_size < 2 ^ 64 -> es <> [] -> Z.of_nat (length es) <= DEFAULT_LSM_FILE_CAPACITY ->
  keys_le es -> Forall entry_ok es -> encrypts key ->
  exists b b' file' f, bit_builder_init file begin id level version key buffer = Some b /\
    add_entries b es = Some b' /\ bit_builder_complete b' = Some (file', f) /\
    file_of file' key id level version begin es f /\ same_outside begin file file'.
Proof using mac_length no_cache_empty H0 H2.
  intros Hb He Hne Hcap Hsort Hok Hkey. destruct (building_init file begin id level version key buffer Hb) as (b & Hinit & Hbg & _).
  destruct (building_entries _ _ _ _ _ _ es _ _ Hbg Hb He Hok Hcap) as (b' & Hadd & Hbg').
  destruct (building_complete _ _ _ _ _ _ _ _ Hbg' Hb He Hne Hcap Hsort Hok Hkey) as (file' & f & Hcomp & Hf & Hout).
  by exists b, b', file', f.
Qed.

(** C5. A builder that is given between one and [DEFAULT_LSM_FILE_CAPACITY]
    entries in key order never writes outside of its buffer and arrays, and
    completes a file that holds these entries in order: its root, inner nodes
    and leaves lie in the slot of the file and are read back through the cipher,
    so that searching, range searching and iterating over the file are correct.
    Bytes outside of the slot stay as they were. *)
Theorem bit_builder_builds file begin id level version key buffer es :
  0 <= begin -> begin + lsm_file_size < 2 ^ 64 -> es <> [] -> Z.of_nat (length es) <= DEFAULT_LSM_FILE_CAPACITY ->
  keys_le es -> Forall entry_ok es -> encrypts key ->
  exists b b' file' f, bit_builder_init file begin id level version key buffer = Some b /\
    add_entries b es = Some b' /\ bit_builder_complete b' = Some (file', f) /\
    file_of file' key id level version begin es f /\ same_outside begin file file'.
Proof using mac_length no_cache_empty H0 H2. apply build_file. Qed.
End building.

(** ** Files under later writes *)

Lemma read_node_agree file file' key pos n lo hi :
  (forall q, lo <= q < hi -> file_byte file' q = file_byte file q) -> lo <= pos -> pos + BIT_LEAF_NODE_SIZE <= hi ->
  read_node ((file, key) : store (NodeStore := file_nodes)) pos true = Ok n ->
  read_node ((file', key) : store (NodeStore := file_nodes)) pos true = Ok n.
Proof.
  intros Hag Hlo Hhi. pose proof node_sizes as (Hs & _). cbn [read_node file_nodes fst snd].
  assert (kernel_read file' pos (node_size true) = kernel_read file pos (node_size true)) as ->; [|done].
  unfold kernel_read. apply list_fmap_ext. intros i x Hx. apply lookup_seq in Hx as [-> Hi]. apply Hag. lia.
Qed.

(** A file stays what it is while its slot does. *)
Lemma slot_moves f groups lo file file' key : file_in_slot f groups lo -> bf_file f = (file, key) ->
  (forall q, lo <= q < lo + lsm_file_size -> file_byte file' q = file_byte file q) ->
  file_in_slot (with_store f (file', key)) groups lo.
Proof.
  intros [Hwf [Hch Hcap Hnr] (root & Hroot & Hch') Hnext] Hf Hag.
  assert (forall pos n, lo <= pos -> pos + BIT_LEAF_NODE_SIZE <= lo + lsm_file_size -> read_node (bf_file f) pos true = Ok n ->
    read_node ((file', key) : store (NodeStore := file_nodes)) pos true = Ok n) as Hread.
  { rewrite Hf. intros pos n Hlo Hhi. by apply (read_node_agree file file' key pos n lo (lo + lsm_file_size)). }
  split; [| |by exists root|done].
  - destruct Hwf as [(root' & Hr & Hk & Hn) Hg Hl Hs Hfk Hlk Hcache]. split; try done. exists root. split; [exact Hroot|].
    rewrite Hroot in Hr. injection Hr as <-. split; [exact Hk|]. cbn [bf_file with_store].
    apply Forall2_same_length_lookup_2; [by eapply Forall2_length|]. intros i inner g Hi Hgi.
    pose proof (Forall2_lookup_lr _ _ _ _ _ _ Hn Hi Hgi) as Hin. rewrite Forall_lookup in Hch'. specialize (Hch' _ _ Hi).
    apply Forall2_same_length_lookup_2; [by eapply Forall2_length|]. intros x c l Hx Hlx.
    destruct (Forall2_lookup_lr _ _ _ _ _ _ Hin Hx Hlx) as [Hck Hcr]. rewrite Forall_lookup in Hch'. destruct (Hch' _ _ Hx).
    split; [done|]. by apply Hread.
  - split; [|done|done]. cbn [bf_file with_store]. clear - Hch Hnext Hread. destruct (concat groups) as [|l ls]; [done|].
    revert l Hch Hnext. induction ls as [|l' ls IH]; intros l; [done|]. cbn [leaf_chain]. intros (Hlen & Hr & Hch) Hnext.
    split; [done|]. split; [|apply IH; [exact Hch|]].
    + destruct (Hnext 0%nat l eq_refl ltac:(cbn; lia)). by apply Hread.
    + intros i x Hi Hlt. apply (Hnext (S i) x Hi). cbn in *. lia.
Qed.
End bit_builder.

(** ** Concrete runs *)

Definition example_entries : list (Z * record) := (fun n : nat => (3 * Z.of_nat n, example_record (Z.of_nat n))) <$> seq 0 130.

(** 130 entries make a full leaf and one of two entries, below one inner node and
    the root; they are found again through the encrypted bytes. *)
Definition example_built : option (result record * result record * list Z) :=
  match bit_builder_init ([] : kfile) 1000 0 1 4 [9] (fun _ => 77) with
  | Some b =>
      match add_entries (replicate 16 0) b example_entries with
      | Some b =>
          match bit_builder_complete (replicate 16 0) (empty_lru : cache (V := bit_leaf)) b with
          | Some (_, f) => Some ((bit_file_search f 387).2, (bit_file_search f 388).2,
                                 [bf_first_key f; bf_last_key f; bf_nr_record f; bf_root f])
          | None => None
          end
      | None => None
      end
  | None => None
  end.

Example example_built_search : example_built = Some (Ok (example_record 129), Err ENODATA, [0; 387; 130; 1000 + 2 * 5665 + 441]).
Proof. vm_compute. reflexivity. Qed.

Lemma bit_builder_builds_witness :
  exists b b' file' f, bit_builder_init ([] : kfile) 1000 0 1 4 [9] (fun _ => 77) = Some b /\
    add_entries (replicate 16 0) b [(3, example_record 5); (8, example_record 6)] = Some b' /\
    bit_builder_complete (replicate 16 0) (empty_lru : cache (V := bit_leaf)) b' = Some (file', f) /\
    file_of file' [9] 0 1 4 1000 [(3, example_record 5); (8, example_record 6)] f /\ same_outside 1000 ([] : kfile) file'.
Proof.
  refine (bit_builder_builds (replicate 16 0) (empty_lru : cache (V := bit_leaf)) eq_refl (fun k => eq_refl) ([] : kfile) 1000 0 1 4 [9]
    (fun _ => 77) [(3, example_record 5); (8, example_record 6)] _ _ _ _ _ _ (sum_api_encrypts [9])).
  - lia.
  - vm_compute. reflexivity.
  - done.
  - vm_compute. congruence.
  - repeat constructor; cbn; lia.
  - repeat constructor; cbn; lia.
Defined.
