(* ===== verification/BitLevel.v ===== *)
(** * BitLevel: the levels of the LSM tree

    [struct bit_level] of [kernel-module/c/src/lsm_tree.c]: the files of one
    level, sorted by their first and last keys. The files of level 0 may
    overlap and are searched one by one, those of the other levels are disjoint
    and found by [bsearch]. The array [bit_files[0 .. size)] is a list. *)
From S2P Require Import Prelude Layout RbTree Memtable Cache BitFile.

(** The kernel's [bsearch]: an index of an element the comparison is zero on,
    found whenever the array is ordered around such an element. *)
Class Bsearch : Type := { bsearch : forall {A : Type}, (A -> Z) -> list A -> option nat }.

Class BsearchSpec `{Bsearch} : Prop := {
  bsearch_some : forall {A : Type} (cmp : A -> Z) (l : list A) i, bsearch cmp l = Some i ->
    exists x, l !! i = Some x /\ cmp x = 0;
  bsearch_none : forall {A : Type} (cmp : A -> Z) (l1 : list A) x (l2 : list A),
    bsearch cmp (l1 ++ x :: l2) = None ->
    Forall (fun y => 0 < cmp y) l1 -> Forall (fun y => cmp y < 0) l2 -> cmp x <> 0
}.

Section bit_level.
Context `{NodeStoreSpec} `{LeafCacheSpec bit_leaf} `{BsearchSpec}.

Record bit_level : Type := BitLevel {
  bl_level : Z;
  bl_capacity : Z;
  bl_max_size : Z;
  bl_files : list bit_file
}.

Implicit Types (this : bit_level) (file : bit_file).

Definition bl_size this : Z := Z.of_nat (length (bl_files this)).

Definition with_files this (files : list bit_file) : bit_level :=
  {| bl_level := bl_level this; bl_capacity := bl_capacity this; bl_max_size := bl_max_size this; bl_files := files |}.

Definition bit_level_init (level capacity : Z) : bit_level :=
  {| bl_level := level; bl_capacity := capacity;
     bl_max_size := 2 * capacity + DEFAULT_LSM_LEVEL0_NR_FILE; bl_files := [] |}.

Definition bit_level_is_full this : bool := bl_capacity this <=? bl_size this.

Definition bit_file_cmp (file1 file2 : bit_file) : Z :=
  if bf_first_key file1 =? bf_first_key file2
  then bf_last_key file1 - bf_last_key file2
  else bf_first_key file1 - bf_first_key file2.

(** [cmp] of the file at an index that is in range. *)
Definition cmp_at (files : list bit_file) (i : Z) file : Z :=
  match files !! Z.to_nat i with Some f => bit_file_cmp f file | None => 0 end.

(** [while (low < high)] *)
Fixpoint search_file_loop (fuel : nat) (files : list bit_file) file (low high : Z) : option Z :=
  match fuel with
  | O => None
  | S fuel =>
      if low <? high then
        let mid := low + Z.shiftr (high - low) 1 in
        if cmp_at files mid file <? 0
        then search_file_loop fuel files file (mid + 1) high
        else search_file_loop fuel files file low mid
      else Some low
  end.

Definition bit_level_search_file this file : option Z :=
  let low := 0 in
  let high := bl_size this - 1 in
  if bl_size this =? 0 then Some 0
  else if 0 <=? cmp_at (bl_files this) low file then Some low
  else if cmp_at (bl_files this) high file <=? 0 then Some (high + 1)
  else search_file_loop (S (length (bl_files this))) (bl_files this) file low high.

Definition bit_level_add_file this file : option (bit_level * result unit) :=
  if bl_max_size this <=? bl_size this then Some (this, Err ENOSPC)
  else
    match bit_level_search_file this file with
    | None => None
    | Some pos =>
        let before := take (Z.to_nat pos) (bl_files this) in
        let after := if pos + 1 <? bl_max_size this then drop (Z.to_nat pos) (bl_files this) else [] in
        Some (with_files this (before ++ file :: after), Ok tt)
    end.

(** [for (pos = 0; ...) if (bit_files[pos]->id == id) memmove(...)] *)
Fixpoint remove_id (id : Z) (files : list bit_file) : option (list bit_file) :=
  match files with
  | [] => None
  | f :: files =>
      if bf_id f =? id then Some files
      else match remove_id id files with Some rest => Some (f :: rest) | None => None end
  end.

Definition bit_level_remove_file this (id : Z) : bit_level * result unit :=
  match remove_id id (bl_files this) with
  | Some files => (with_files this files, Ok tt)
  | None => (this, Err EINVAL)
  end.

(** ** Lookup *)

Definition bit_file_cmp_key (key : Z) file : Z :=
  if (bf_first_key file <=? key) && (key <=? bf_last_key file) then 0
  else if key <? bf_first_key file then -1 else 1.

Definition bit_level_locate_file_pointer this (key : Z) : option nat :=
  bsearch (bit_file_cmp_key key) (bl_files this).

Definition bit_level_locate_file this (key : Z) : option bit_file :=
  match bit_level_locate_file_pointer this key with
  | Some i => bl_files this !! i
  | None => None
  end.

(** The loop of [bit_level_linear_search]; the files come back with their
    caches, [val] is the record copied last. *)
Fixpoint linear_search_loop (files : list bit_file) (key cur_version : Z) (val : option record)
  : list bit_file * option record :=
  match files with
  | [] => ([], val)
  | f :: files =>
      if (bf_version f <? cur_version) || ((key <? bf_first_key f) || (bf_last_key f <? key)) then
        let '(rest, r) := linear_search_loop files key cur_version val in (f :: rest, r)
      else
        match bit_file_search f key with
        | (f', Ok record) =>
            let '(rest, r) := linear_search_loop files key (bf_version f) (Some record) in (f' :: rest, r)
        | (f', Err _) =>
            let '(rest, r) := linear_search_loop files key cur_version val in (f' :: rest, r)
        end
  end.

Definition bit_level_linear_search this (key : Z) : bit_level * result record :=
  let '(files, val) := linear_search_loop (bl_files this) key 0 None in
  (with_files this files, match val with Some r => Ok r | None => Err ENODATA end).

Definition bit_level_search this (key : Z) : bit_level * result record :=
  if bl_level this =? 0 then bit_level_linear_search this key
  else
    match bit_level_locate_file_pointer this key with
    | None => (this, Err ENODATA)
    | Some i =>
        match bl_files this !! i with
        | None => (this, Err EFAULT)
        | Some f =>
            let '(f, r) := bit_file_search f key in
            (with_files this (<[i := f]> (bl_files this)), r)
        end
    end.

Section range_search.
Context `{RbTree}.

(** [for (key = start; key <= end; key++)] of the levels above 0. *)
Fixpoint level_range_loop (n : nat) this (start key end_ : Z) (st : range_state) : bit_level * range_state :=
  match n with
  | O => (this, st)
  | S n =>
      if range_found start key (rs_found st) then level_range_loop n this start (key + 1) end_ st
      else
        match bit_level_locate_file_pointer this key with
        | None => level_range_loop n this start (key + 1) end_ st
        | Some i =>
            match bl_files this !! i with
            | None => (this, st)
            | Some f =>
                let '(f, st) := bit_file_range_search f start end_ st in
                level_range_loop n (with_files this (<[i := f]> (bl_files this))) start (key + 1) end_ st
            end
        end
  end.

(** Only the first file of level 0 is searched. *)
Definition bit_level_range_search this (start end_ : Z) (st : range_state) : bit_level * range_state :=
  match bl_files this with
  | f :: files =>
      if bl_level this =? 0 then
        let '(f, st) := bit_file_range_search f start end_ st in (with_files this (f :: files), st)
      else level_range_loop (Z.to_nat (end_ - start + 1)) this start start end_ st
  | [] => level_range_loop (Z.to_nat (end_ - start + 1)) this start start end_ st
  end.
End range_search.

(** ** Choosing files for compaction *)

Definition bit_level_pick_demoted_files this : result (list bit_file) :=
  match bl_files this with
  | [] => Err EINVAL
  | f :: files => if bl_level this =? 0 then Ok (f :: files) else Ok [f]
  end.

Definition file_at (files : list bit_file) (i : Z) : option bit_file :=
  if i <? 0 then None else files !! Z.to_nat i.

(** [while (low < high)], on [int]s. *)
Fixpoint lower_bound_loop (fuel : nat) (files : list bit_file) (key low high : Z) : option Z :=
  match fuel with
  | O => None
  | S fuel =>
      if low <? high then
        let mid := low + Z.shiftr (high - low) 1 in
        match file_at files mid with
        | None => None
        | Some f =>
            if (bf_first_key f <=? key) && (key <=? bf_last_key f) then Some mid
            else if key <? bf_first_key f then lower_bound_loop fuel files key low (mid - 1)
            else lower_bound_loop fuel files key (mid + 1) high
        end
      else Some low
  end.

(** Called on a level that has files. *)
Definition bit_level_lower_bound this (key : Z) : option Z :=
  let low := 0 in
  let high := bl_size this - 1 in
  match file_at (bl_files this) low, file_at (bl_files this) high with
  | Some fl, Some fh =>
      if key <? bf_first_key fl then Some 0
      else if bf_last_key fh <? key then Some (high + 1)
      else lower_bound_loop (S (length (bl_files this))) (bl_files this) key low high
  | _, _ => None
  end.

(** [min] and [max] over the keys of the files. *)
Definition files_first_key (files : list bit_file) : Z := foldl (fun k f => Z.min k (bf_first_key f)) (2 ^ 32 - 1) files.
Definition files_last_key (files : list bit_file) : Z := foldl (fun k f => Z.max k (bf_last_key f)) 0 files.

(** [while (pos < size && bit_files[pos]->first_key <= last_key)] *)
Fixpoint take_relatives (files : list bit_file) (last_key : Z) : list bit_file :=
  match files with
  | [] => []
  | f :: files => if bf_first_key f <=? last_key then f :: take_relatives files last_key else []
  end.

Definition bit_level_find_relative_files this (files : list bit_file) : option (list bit_file) :=
  match bl_files this, last (bl_files this) with
  | f :: _, Some l =>
      let first_key := files_first_key files in
      let last_key := files_last_key files in
      if (last_key <? bf_first_key f) || (bf_last_key l <? first_key) then Some []
      else
        match bit_level_lower_bound this first_key with
        | None => None
        | Some pos => Some (take_relatives (drop (Z.to_nat pos) (bl_files this)) last_key)
        end
  | _, _ => Some []
  end.

(** ** Well-formed levels *)

(** The leaves of every file. *)
Definition level_wf this (gss : list (list (list bit_leaf))) : Prop :=
  Forall2 file_wf (bl_files this) gss.

(** The files of a level above 0 do not overlap and are in key order. *)
Definition files_disjoint (files : list bit_file) : Prop :=
  StronglySorted (fun f g => bf_last_key f < bf_first_key g) files /\
  Forall (fun f => bf_first_key f <= bf_last_key f) files.

Definition level_entries (gss : list (list (list bit_leaf))) : list (Z * record) :=
  concat ((fun g => leaves_entries (concat g)) <$> gss).

Lemma file_find_range f groups key r : file_wf f groups -> file_find groups key = Some r ->
  bf_first_key f <= key <= bf_last_key f.
Proof.
  intros Hwf Hf. split.
  - destruct (Z.le_gt_cases (bf_first_key f) key) as [|Hlt]; [done|].
    rewrite (below_first f groups) in Hf by (done || lia). done.
  - destruct (Z.le_gt_cases key (bf_last_key f)) as [|Hlt]; [done|].
    rewrite (above_last f groups) in Hf by (done || lia). done.
Qed.

Lemma level_find_middle key gs1 g gs2 :
  Forall (fun g => file_find g key = None) gs1 -> Forall (fun g => file_find g key = None) gs2 ->
  leaf_find key (level_entries (gs1 ++ g :: gs2)) = file_find g key.
Proof.
  assert (forall gs, Forall (fun g => file_find g key = None) gs -> leaf_find key (level_entries gs) = None) as Hnone.
  { induction 1 as [|x gs Hx _ IH]; [done|]. unfold level_entries. cbn. rewrite leaf_find_app.
    unfold file_find in Hx. by rewrite Hx. }
  intros Hg1 Hg2. unfold level_entries. rewrite fmap_app, concat_app, leaf_find_app.
  fold (level_entries gs1). rewrite Hnone by done. cbn. rewrite leaf_find_app. fold (level_entries gs2).
  rewrite (Hnone gs2) by done. unfold file_find. by destruct (leaf_find key (leaves_entries (concat g))).
Qed.

(** At most one file of disjoint files can hold a key. *)
Lemma disjoint_around files key l1 f l2 : files_disjoint files -> files = l1 ++ f :: l2 ->
  bf_first_key f <= key <= bf_last_key f ->
  Forall (fun g => 0 < bit_file_cmp_key key g) l1 /\ Forall (fun g => bit_file_cmp_key key g < 0) l2.
Proof.
  intros [Hs Hr] -> Hk. apply StronglySorted_app in Hs as (Hx & _ & Hs).
  apply StronglySorted_inv in Hs as [_ Hs]. apply Forall_app in Hr as [Hr1 Hr2]. apply Forall_cons in Hr2 as [Hrf Hr2].
  split; apply Forall_forall; intros g Hg; unfold bit_file_cmp_key.
  - specialize (Hx g f Hg ltac:(by left)). rewrite Forall_forall in Hr1. specialize (Hr1 g Hg).
    destruct (Z.leb_spec (bf_first_key g) key), (Z.leb_spec key (bf_last_key g)), (Z.ltb_spec key (bf_first_key g)); cbn; lia.
  - rewrite Forall_forall in Hs. specialize (Hs g Hg).
    destruct (Z.leb_spec (bf_first_key g) key), (Z.leb_spec key (bf_last_key g)), (Z.ltb_spec key (bf_first_key g)); cbn; lia.
Qed.

Lemma cmp_key_zero key f : bit_file_cmp_key key f = 0 <-> bf_first_key f <= key <= bf_last_key f.
Proof.
  unfold bit_file_cmp_key.
  destruct (Z.leb_spec (bf_first_key f) key), (Z.leb_spec key (bf_last_key f)), (Z.ltb_spec key (bf_first_key f)); cbn; lia.
Qed.

Lemma cmp_key_other groups key f : file_wf f groups -> bit_file_cmp_key key f <> 0 -> file_find groups key = None.
Proof.
  intros Hwf Hc. destruct (file_find groups key) eqn:Hf; [|done].
  destruct Hc. apply cmp_key_zero. by eapply file_find_range.
Qed.

Lemma file_search_find f groups key : file_wf f groups ->
  let '(f', r) := bit_file_search f key in
  file_wf f' groups /\ r = match file_find groups key with Some r => Ok r | None => Err ENODATA end.
Proof. apply bit_file_search_map. Qed.

Lemma bit_level_search_map this gss key : level_wf this gss -> files_disjoint (bl_files this) -> bl_level this <> 0 ->
  let '(this', r) := bit_level_search this key in
  level_wf this' gss /\
  r = match leaf_find key (level_entries gss) with Some r => Ok r | None => Err ENODATA end.
Proof.
  intros Hwf Hdis Hlev. unfold bit_level_search. destruct (Z.eqb_spec (bl_level this) 0); [done|].
  unfold bit_level_locate_file_pointer. destruct (bsearch (bit_file_cmp_key key) (bl_files this)) as [i|] eqn:Hb.
  - apply bsearch_some in Hb as (f & Hi & Hz). rewrite Hi. apply cmp_key_zero in Hz.
    pose proof (list_elem_of_split_length _ _ _ Hi) as (l1 & l2 & Heq & Hlen).
    destruct (disjoint_around _ key l1 f l2 Hdis Heq Hz) as [Hc1 Hc2].
    unfold level_wf in Hwf. rewrite Heq in Hwf. apply Forall2_app_inv_l in Hwf as (gs1 & gs2' & Hw1 & Hw2 & ->).
    apply Forall2_cons_inv_l in Hw2 as (g & gs2 & Hwg & Hw2 & ->).
    pose proof (file_search_find f g key Hwg) as Hs. destruct (bit_file_search f key) as [f' r]. destruct Hs as [Hwf' ->].
    split.
    + unfold level_wf. cbn [bl_files with_files]. rewrite Heq, Hlen, insert_app_r_alt, Nat.sub_diag by lia. cbn.
      apply Forall2_app; [done|]. by constructor.
    + rewrite level_find_middle; [done|..].
      * apply Forall_forall. intros x Hx. apply list_elem_of_lookup in Hx as [j Hj].
        destruct (Forall2_lookup_r _ _ _ _ _ Hw1 Hj) as (y & Hy & Hwy).
        eapply cmp_key_other; [exact Hwy|]. rewrite Forall_lookup in Hc1. specialize (Hc1 _ _ Hy). lia.
      * apply Forall_forall. intros x Hx. apply list_elem_of_lookup in Hx as [j Hj].
        destruct (Forall2_lookup_r _ _ _ _ _ Hw2 Hj) as (y & Hy & Hwy).
        eapply cmp_key_other; [exact Hwy|]. rewrite Forall_lookup in Hc2. specialize (Hc2 _ _ Hy). lia.
  - split; [done|]. destruct (leaf_find key (level_entries gss)) as [r|] eqn:Hf; [|done]. exfalso.
    assert (exists g, g ∈ gss /\ is_Some (file_find g key)) as (g & Hg & [x Hx]).
    { clear -Hf. induction gss as [|g gss IH]; [done|]. unfold level_entries in Hf. cbn in Hf. rewrite leaf_find_app in Hf.
      destruct (leaf_find key (leaves_entries (concat g))) eqn:Hg.
      - exists g. split; [by left|]. unfold file_find. by rewrite Hg.
      - destruct (IH Hf) as (g' & ? & ?). exists g'. split; [by right|done]. }
    apply list_elem_of_lookup in Hg as [j Hj]. destruct (Forall2_lookup_r _ _ _ _ _ Hwf Hj) as (f & Hfj & Hwg).
    pose proof (file_find_range f g key x Hwg Hx) as Hk.
    pose proof (list_elem_of_split_length _ _ _ Hfj) as (l1 & l2 & Heq & _).
    destruct (disjoint_around _ key l1 f l2 Hdis Heq Hk) as [Hc1 Hc2]. rewrite Heq in Hb.
    apply (bsearch_none _ _ _ _ Hb Hc1 Hc2). by apply cmp_key_zero.
Qed.

(** Level 0: the newest file that holds the key wins. *)
Definition newest (files : list (bit_file * list (list bit_leaf))) (key : Z) (r : record) : Prop :=
  exists f g, (f, g) ∈ files /\ file_find g key = Some r /\
    forall f' g' r', (f', g') ∈ files -> file_find g' key = Some r' -> bf_version f' <= bf_version f.

Lemma linear_search_loop_spec key : forall files gss cur val files' o,
  Forall2 file_wf files gss ->
  linear_search_loop files key cur val = (files', o) ->
  Forall2 file_wf files' gss /\
  match o with
  | None => val = None /\ (0 <= cur -> Forall (fun f => cur <= bf_version f) files -> Forall (fun g => file_find g key = None) gss)
  | Some r =>
      (exists f g, (f, g) ∈ zip files gss /\ file_find g key = Some r /\ cur <= bf_version f /\
         forall f' g' r', (f', g') ∈ zip files gss -> file_find g' key = Some r' -> bf_version f' <= bf_version f) \/
      (val = Some r /\ forall f' g' r', (f', g') ∈ zip files gss -> file_find g' key = Some r' -> bf_version f' < cur)
  end.
Proof.
  induction files as [|f files IH]; intros gss cur val files' o Hall; cbn [linear_search_loop].
  { intros [= <- <-]. apply Forall2_nil_inv_l in Hall as ->. split; [constructor|].
    destruct val as [r|]; [|by split]. right. split; [done|]. by intros ? ? ? ?%elem_of_nil. }
  apply Forall2_cons_inv_l in Hall as (g & gs & Hwg & Hall & ->).
  (* one step that leaves [cur] and [val], because [f] is older or lacks the key *)
  assert (forall f1, file_wf f1 g -> (file_find g key = None \/ bf_version f < cur) -> 
    (let '(rest, r) := linear_search_loop files key cur val in (f1 :: rest, r)) = (files', o) ->
    Forall2 file_wf files' (g :: gs) /\
    match o with
    | None => val = None /\ (0 <= cur -> Forall (fun f => cur <= bf_version f) (f :: files) -> Forall (fun g => file_find g key = None) (g :: gs))
    | Some r =>
        (exists f' g', (f', g') ∈ zip (f :: files) (g :: gs) /\ file_find g' key = Some r /\ cur <= bf_version f' /\
           forall f'' g'' r', (f'', g'') ∈ zip (f :: files) (g :: gs) -> file_find g'' key = Some r' -> bf_version f'' <= bf_version f') \/
        (val = Some r /\ forall f' g' r', (f', g') ∈ zip (f :: files) (g :: gs) -> file_find g' key = Some r' -> bf_version f' < cur)
    end) as Hskip.
  { intros f1 Hw1 Hor. destruct (linear_search_loop files key cur val) as [rest r] eqn:Hrun. intros [= <- <-].
    apply IH with (gss := gs) in Hrun as [Hr Ho]; [|done]. split; [by constructor|]. destruct r as [r|].
    - destruct Ho as [(f' & g' & Hin & Hf & Hc & Hmax)|[Hv Hmax]]; [left|right].
      + exists f', g'. split; [by right|]. split; [done|]. split; [done|].
        intros f'' g'' r' [[= -> ->]|Hin']%elem_of_cons Hf'; [|by eapply Hmax].
        destruct Hor as [Hn|Hlt]; [congruence|lia].
      + split; [done|]. intros f'' g'' r' [[= -> ->]|Hin']%elem_of_cons Hf'; [|by eapply Hmax].
        destruct Hor as [Hn|Hlt]; [congruence|lia].
    - destruct Ho as [-> Ho]. split; [done|]. intros Hcur [Hvf Hvs]%Forall_cons. constructor; [|auto].
      destruct Hor as [Hn|Hlt]; [done|lia]. }
  destruct ((bf_version f <? cur) || ((key <? bf_first_key f) || (bf_last_key f <? key))) eqn:Hcond.
  { apply Hskip; [done|]. destruct (Z.ltb_spec (bf_version f) cur); [by right|left]. cbn in Hcond.
    apply (cmp_key_other g key f); [done|]. rewrite cmp_key_zero. 
    destruct (Z.ltb_spec key (bf_first_key f)), (Z.ltb_spec (bf_last_key f) key); cbn in Hcond; lia || done. }
  apply orb_false_iff in Hcond as [Hver _]. apply Z.ltb_ge in Hver.
  pose proof (file_search_find f g key Hwg) as Hs. destruct (bit_file_search f key) as [f' r]. destruct Hs as [Hwf' ->].
  destruct (file_find g key) as [r|] eqn:Hfg; [|apply Hskip; auto].
  destruct (linear_search_loop files key (bf_version f) (Some r)) as [rest r'] eqn:Hrun. intros [= <- <-].
  apply IH with (gss := gs) in Hrun as [Hr Ho]; [|done]. split; [by constructor|].
  destruct r' as [r'|]; [|by destruct Ho]. left. destruct Ho as [(f2 & g2 & Hin & Hf2 & Hc & Hmax)|[[= <-] Hmax]].
  - exists f2, g2. split; [by right|]. split; [done|]. split; [lia|].
    intros f'' g'' x [[= -> ->]|Hin']%elem_of_cons Hf''; [done|by eapply Hmax].
  - exists f, g. split; [by left|]. split; [done|]. split; [done|].
    intros f'' g'' x [[= -> ->]|Hin']%elem_of_cons Hf''; [done|]. apply Z.lt_le_incl. by eapply Hmax.
Qed.

(** C24. Lookup in a level. Above level 0, where the files are disjoint and
    sorted, the result is the first record of the key in the whole level. In
    level 0 it is the record of a file whose version no other file holding the
    key exceeds. [-ENODATA] is returned exactly when no file holds the key. *)
Theorem bit_level_search_correct this gss key : level_wf this gss ->
  Forall (fun f => 0 <= bf_version f) (bl_files this) ->
  (bl_level this <> 0 -> files_disjoint (bl_files this)) ->
  let '(this', r) := bit_level_search this key in
  level_wf this' gss /\
  (bl_level this <> 0 -> r = match leaf_find key (level_entries gss) with Some r => Ok r | None => Err ENODATA end) /\
  (bl_level this = 0 -> match r with
     | Ok rec => newest (zip (bl_files this) gss) key rec
     | Err e => e = ENODATA /\ Forall (fun g => file_find g key = None) gss
     end).
Proof.
  intros Hwf Hver Hdis. destruct (Z.eq_dec (bl_level this) 0) as [Hz|Hnz].
  - unfold bit_level_search. rewrite Hz. cbn [Z.eqb]. unfold bit_level_linear_search.
    destruct (linear_search_loop (bl_files this) key 0 None) as [files o] eqn:Hrun.
    apply linear_search_loop_spec with (gss := gss) in Hrun as [Hall Ho]; [|done].
    split; [done|]. split; [done|]. intros _. destruct o as [rec|].
    + destruct Ho as [(f & g & Hin & Hf & _ & Hmax)|[? _]]; [|done]. exists f, g. done.
    + destruct Ho as [_ Ho]. split; [done|]. apply Ho; [lia|done].
  - pose proof (bit_level_search_map this gss key Hwf (Hdis Hnz) Hnz) as Hs.
    destruct (bit_level_search this key) as [this' r]. destruct Hs as [Hw Hr]. split; [done|]. split; [done|]. intros ?; done.
Qed.

Definition file_keys (f : bit_file) : Z * Z := (bf_first_key f, bf_last_key f).

Lemma files_disjoint_ext (l l' : list bit_file) : file_keys <$> l = file_keys <$> l' -> files_disjoint l -> files_disjoint l'.
Proof.
  revert l'. induction l as [|f l IH]; intros [|f' l'] Heq; try done. cbn in Heq. injection Heq as H1' H2' Heq.
  intros [Hs Hr]. apply StronglySorted_inv in Hs as [Hs Hf]. apply Forall_cons in Hr as [Hrf Hr].
  destruct (IH l' Heq (conj Hs Hr)) as [Hs' Hr']. split; constructor; try done; [|lia].
  apply Forall_forall. intros x Hx. apply (list_elem_of_fmap_2 file_keys) in Hx. rewrite <- Heq in Hx.
  apply list_elem_of_fmap in Hx as (y & Hxy & Hy). rewrite Forall_forall in Hf. specialize (Hf y Hy). injection Hxy as Hx1 Hx2. lia.
Qed.

(** ** A level as one map: what the tree relies on *)

Definition same_level this this' : Prop :=
  this' = with_files this (bl_files this') /\ Forall2 same_file (bl_files this) (bl_files this').

Lemma same_files_refl (files : list bit_file) : Forall2 same_file files files.
Proof. induction files; constructor; [apply same_file_refl|done]. Qed.

Lemma same_level_files this files : Forall2 same_file (bl_files this) files -> same_level this (with_files this files).
Proof. done. Qed.

Lemma same_level_refl this : same_level this this.
Proof. split; [by destruct this|apply same_files_refl]. Qed.

Lemma same_level_trans l1 l2 l3 : same_level l1 l2 -> same_level l2 l3 -> same_level l1 l3.
Proof.
  intros [Heq1 Hs1] [Heq2 Hs2]. split; [by rewrite Heq2, Heq1|].
  revert Hs2. generalize (bl_files l3). clear -Hs1. induction Hs1 as [|f g fs gs Hfg _ IH]; intros hs Hs2.
  - by apply Forall2_nil_inv_l in Hs2 as ->.
  - apply Forall2_cons_inv_l in Hs2 as (h & hs' & Hgh & Hs2 & ->). constructor; [by eapply same_file_trans|auto].
Qed.

Lemma same_files_insert (files : list bit_file) i f f' : files !! i = Some f -> same_file f f' ->
  Forall2 same_file files (<[i := f']> files).
Proof.
  intros Hi Hf. rewrite <- (list_insert_id files i f Hi) at 1. apply Forall2_insert; [apply same_files_refl|done].
Qed.

Lemma linear_search_loop_same key : forall files cur val, Forall2 same_file files (linear_search_loop files key cur val).1.
Proof.
  induction files as [|f files IH]; intros cur val; cbn [linear_search_loop]; [constructor|].
  destruct ((bf_version f <? cur) || _).
  { specialize (IH cur val). destruct (linear_search_loop files key cur val). constructor; [apply same_file_refl|done]. }
  pose proof (bit_file_search_same f key) as Hf. destruct (bit_file_search f key) as [f' [r|e]].
  - specialize (IH (bf_version f) (Some r)). destruct (linear_search_loop files key (bf_version f) (Some r)). by constructor.
  - specialize (IH cur val). destruct (linear_search_loop files key cur val). by constructor.
Qed.

Lemma bit_level_search_same this key : same_level this (bit_level_search this key).1.
Proof.
  unfold bit_level_search, bit_level_linear_search. destruct (bl_level this =? 0).
  - pose proof (linear_search_loop_same key (bl_files this) 0 None) as Hs.
    destruct (linear_search_loop (bl_files this) key 0 None). by apply same_level_files.
  - destruct (bit_level_locate_file_pointer this key) as [i|]; [|apply same_level_refl].
    destruct (bl_files this !! i) as [f|] eqn:Hi; [|apply same_level_refl].
    pose proof (bit_file_search_same f key) as Hf. destruct (bit_file_search f key) as [f' r].
    apply same_level_files. by eapply same_files_insert.
Qed.

(** Every level is searched as if its files were disjoint: level 0 has room for
    a single file ([DEFAULT_LSM_LEVEL0_NR_FILE]). *)
Record level_ok this gss : Prop := {
  lo_wf : level_wf this gss;
  lo_disjoint : files_disjoint (bl_files this);
  lo_versions : Forall (fun f => 0 <= bf_version f) (bl_files this);
  lo_zero : bl_level this = 0 -> (length (bl_files this) <= 1)%nat
}.

Lemma same_files_keys (files files' : list bit_file) : Forall2 same_file files files' -> file_keys <$> files' = file_keys <$> files.
Proof. induction 1 as [|f f' files files' [c ->] _ IH]; [done|]. cbn. by rewrite IH. Qed.

Lemma level_ok_same this this' gss : level_ok this gss -> same_level this this' -> level_wf this' gss -> level_ok this' gss.
Proof.
  intros [Hw Hd Hv Hz] [Heq Hs] Hw'. split; [done|..].
  - eapply files_disjoint_ext; [|exact Hd]. symmetry. by apply same_files_keys.
  - clear -Hs Hv. induction Hs as [|f f' files files' [c ->] _ IH]; [constructor|].
    apply Forall_cons in Hv as [Hf Hv]. constructor; [done|auto].
  - rewrite Heq. cbn. intros Hl. by rewrite <- (Forall2_length _ _ _ Hs), Hz.
Qed.

Definition level_find gss (key : Z) : option record := leaf_find key (level_entries gss).

Lemma level_search_find this gss key : level_ok this gss ->
  let '(this', r) := bit_level_search this key in
  level_ok this' gss /\ r = match level_find gss key with Some r => Ok r | None => Err ENODATA end.
Proof.
  intros Hok. pose proof Hok as [Hw Hd Hv Hz]. pose proof (bit_level_search_same this key) as Hsame.
  destruct (Z.eq_dec (bl_level this) 0) as [H0'|Hnz].
  2: { pose proof (bit_level_search_map this gss key Hw Hd Hnz) as Hs.
       destruct (bit_level_search this key) as [this' r]. destruct Hs as [Hw' Hr]. split; [by eapply level_ok_same|done]. }
  specialize (Hz H0'). unfold bit_level_search, bit_level_linear_search in *. rewrite H0' in *. cbn [Z.eqb] in *.
  destruct (linear_search_loop (bl_files this) key 0 None) as [files o] eqn:Hrun.
  apply linear_search_loop_spec with (gss := gss) in Hrun as [Hall Ho]; [|exact Hw].
  split; [by eapply level_ok_same|]. unfold level_find. destruct o as [r|].
  - destruct Ho as [(f & g & Hin & Hfg & _)|[? _]]; [|done]. unfold level_wf in Hw.
    destruct Hw as [|f1 g1 fs gs _ Hw]; [by apply elem_of_nil in Hin|].
    destruct fs; [|cbn in Hz; lia]. apply Forall2_nil_inv_l in Hw as ->. apply list_elem_of_singleton in Hin as [= -> ->].
    change [g1] with ([] ++ g1 :: []). by rewrite level_find_middle, Hfg by constructor.
  - destruct Ho as [_ Ho]. specialize (Ho ltac:(lia) Hv). clear -Ho.
    assert (leaf_find key (level_entries gss) = None) as ->; [|done].
    destruct gss as [|g gss]; [done|]. apply Forall_cons in Ho as [Hg Ho].
    change (g :: gss) with ([] ++ g :: gss). by rewrite level_find_middle by done.
Qed.

(** ** Range search *)
Section range_search_correct.
Context `{RbTreeSpec}.
Implicit Types (st : range_state).

(** A search over the keys [D] with [find] as the lookup: what it marks as
    found and what it adds to the results. *)
Definition range_upd (D : Z -> bool) (find : Z -> option record) (start : Z) st st' : Prop :=
  range_wf start st' /\ forall k, start <= k ->
  range_found start k (rs_found st') = range_found start k (rs_found st) || (D k && bool_decide (is_Some (find k))) /\
  rbtree_memtable_get (rs_results st') k =
    if D k && negb (range_found start k (rs_found st))
    then match find k with Some r => Ok r | None => rbtree_memtable_get (rs_results st) k end
    else rbtree_memtable_get (rs_results st) k.

Lemma range_upd_trans D1 D2 D find start st1 st2 st3 : (forall k, start <= k -> D k = D1 k || D2 k) ->
  range_upd D1 find start st1 st2 -> range_upd D2 find start st2 st3 -> range_upd D find start st1 st3.
Proof.
  intros HD [_ Hu1] [Hw3 Hu2]. split; [done|]. intros k Hk. rewrite (HD k Hk).
  destruct (Hu1 k Hk) as [Hf1 Hg1]. destruct (Hu2 k Hk) as [-> ->]. rewrite Hf1, Hg1.
  destruct (range_found start k (rs_found st1)), (D1 k), (D2 k), (find k); cbn; done.
Qed.

Lemma range_upd_refl D find start st : range_wf start st ->
  (forall k, start <= k -> D k = true -> range_found start k (rs_found st) = true \/ find k = None) ->
  range_upd D find start st st.
Proof.
  intros Hw HD. split; [done|]. intros k Hk. specialize (HD k Hk). destruct (D k); cbn; [|by rewrite orb_false_r].
  destruct (HD eq_refl) as [->| ->]; [done|]. cbn. rewrite orb_false_r. by destruct (range_found start k (rs_found st)).
Qed.

Lemma range_upd_ext D find find' start st st' : (forall k, start <= k -> D k = true -> find k = find' k) ->
  range_upd D find start st st' -> range_upd D find' start st st'.
Proof.
  intros Hext [Hw Hu]. split; [done|]. intros k Hk. destruct (Hu k Hk) as [-> ->].
  specialize (Hext k Hk). destruct (D k); [|done]. by rewrite Hext.
Qed.

Definition in_range (a b k : Z) : bool := (a <=? k) && (k <=? b).

(** A file of a level of disjoint files decides the keys of its interval. *)
Lemma level_find_file l1 f l2 gs1 g gs2 key :
  Forall2 file_wf (l1 ++ f :: l2) (gs1 ++ g :: gs2) -> length l1 = length gs1 ->
  files_disjoint (l1 ++ f :: l2) -> bf_first_key f <= key <= bf_last_key f ->
  leaf_find key (level_entries (gs1 ++ g :: gs2)) = file_find g key.
Proof.
  intros Hall Hlen Hdis Hk. destruct (disjoint_around _ key l1 f l2 Hdis eq_refl Hk) as [Hc1 Hc2].
  apply Forall2_app_inv in Hall as [Hw1 Hw2]; [|done]. apply Forall2_cons in Hw2 as [_ Hw2].
  apply level_find_middle; apply Forall_forall; intros x Hx; apply list_elem_of_lookup in Hx as [j Hj].
  - destruct (Forall2_lookup_r _ _ _ _ _ Hw1 Hj) as (y & Hy & Hwy).
    eapply cmp_key_other; [exact Hwy|]. rewrite Forall_lookup in Hc1. specialize (Hc1 _ _ Hy). lia.
  - destruct (Forall2_lookup_r _ _ _ _ _ Hw2 Hj) as (y & Hy & Hwy).
    eapply cmp_key_other; [exact Hwy|]. rewrite Forall_lookup in Hc2. specialize (Hc2 _ _ Hy). lia.
Qed.

(** No file is located for a key that is not in any interval. *)
Lemma locate_none this gss key : level_wf this gss -> files_disjoint (bl_files this) ->
  bit_level_locate_file_pointer this key = None -> leaf_find key (level_entries gss) = None.
Proof.
  intros Hwf Hdis Hb. destruct (Z.eq_dec (bl_level this) 0) as [Hz|Hnz].
  - set (this1 := {| bl_level := 1; bl_capacity := 0; bl_max_size := 0; bl_files := bl_files this |}).
    pose proof (bit_level_search_map this1 gss key Hwf Hdis ltac:(done)) as Hs. unfold bit_level_search in Hs. cbn [bl_level this1 Z.eqb] in Hs.
    change (bit_level_locate_file_pointer this1 key) with (bit_level_locate_file_pointer this key) in Hs. rewrite Hb in Hs.
    destruct Hs as [_ Hs]. by destruct (leaf_find key (level_entries gss)).
  - pose proof (bit_level_search_map this gss key Hwf Hdis Hnz) as Hs. unfold bit_level_search in Hs.
    destruct (Z.eqb_spec (bl_level this) 0); [done|]. rewrite Hb in Hs.
    destruct Hs as [_ Hs]. by destruct (leaf_find key (level_entries gss)).
Qed.

(** What a file adds to the results, seen from its level. *)
Lemma file_range_upd l1 f l2 gs1 g gs2 start end_ st st' : Forall2 file_wf (l1 ++ f :: l2) (gs1 ++ g :: gs2) -> length l1 = length gs1 ->
  files_disjoint (l1 ++ f :: l2) -> file_wf f g -> range_spec g start start end_ st st' ->
  range_upd (fun k => in_range start end_ k && in_range (bf_first_key f) (bf_last_key f) k)
    (fun k => leaf_find k (level_entries (gs1 ++ g :: gs2))) start st st'.
Proof.
  intros Hall Hl1 Hdis Hwg [Hw Hspec]. split; [done|]. intros k Hk'. destruct (Hspec k Hk') as [-> ->]. unfold in_range.
  destruct ((bf_first_key f <=? k) && (k <=? bf_last_key f)) eqn:Hint.
  - apply andb_true_iff in Hint as [Hi1%Z.leb_le Hi2%Z.leb_le]. rewrite andb_true_r.
    by rewrite (level_find_file l1 f l2 gs1 g gs2) by done.
  - rewrite andb_false_r. cbn [andb]. assert (file_find g k = None) as ->.
    { eapply cmp_key_other; [exact Hwg|]. rewrite cmp_key_zero. intros [Ha Hb].
      apply Z.leb_le in Ha. apply Z.leb_le in Hb. by rewrite Ha, Hb in Hint. }
    rewrite bool_decide_eq_false_2 by (by intros [? ?]). rewrite andb_false_r. split; [done|].
    by destruct ((start <=? k) && (k <=? end_) && negb (range_found start k (rs_found st))).
Qed.

Lemma level_range_loop_spec gss start end_ n : Forall (fun g => StronglySorted Z.lt (leaves_entries (concat g)).*1) gss ->
  0 <= start -> end_ < 2 ^ 31 ->
  forall this key st this' st', level_wf this gss -> files_disjoint (bl_files this) ->
  range_wf start st -> start <= key -> Z.of_nat n = Z.max 0 (end_ - key + 1) ->
  (forall k, start <= k < key -> range_found start k (rs_found st) = true \/ leaf_find k (level_entries gss) = None) ->
  level_range_loop n this start key end_ st = (this', st') ->
  level_wf this' gss /\ range_upd (in_range start end_) (fun k => leaf_find k (level_entries gss)) start st st'.
Proof.
  intros Hstrict Hs He. induction n as [|n IH]; intros this key st this' st' Hwf Hdis Hst Hk Hn Hbefore; cbn [level_range_loop].
  { intros [= <- <-]. split; [done|]. apply range_upd_refl; [done|]. intros k Hk' HD. apply Hbefore.
    unfold in_range in HD. apply andb_true_iff in HD as [? HD%Z.leb_le]. lia. }
  destruct (range_found start key (rs_found st)) eqn:Hfound.
  { intros Hrun. apply IH in Hrun; [done..|lia|lia|]. intros k Hkk.
    destruct (Z.eq_dec k key) as [->|]; [by left|]. apply Hbefore. lia. }
  destruct (bit_level_locate_file_pointer this key) as [i|] eqn:Hloc.
  2: { intros Hrun. apply IH in Hrun; [done..|lia|lia|]. intros k Hkk.
       destruct (Z.eq_dec k key) as [->|]; [right; by eapply locate_none|]. apply Hbefore. lia. }
  unfold bit_level_locate_file_pointer in Hloc. apply bsearch_some in Hloc as (f & Hi & Hz). rewrite Hi.
  apply cmp_key_zero in Hz. pose proof (list_elem_of_split_length _ _ _ Hi) as (l1 & l2 & Heq & Hlen).
  pose proof Hwf as Hwf0. unfold level_wf in Hwf0. rewrite Heq in Hwf0.
  apply Forall2_app_inv_l in Hwf0 as (gs1 & gs2' & Hw1 & Hw2 & Hg). apply Forall2_cons_inv_l in Hw2 as (g & gs2 & Hwg & Hw2 & ->). subst gss.
  pose proof (Forall2_length _ _ _ Hw1) as Hl1.
  apply Forall_app in Hstrict as [Hst1 Hst2]. pose proof Hst2 as [Hstg _]%Forall_cons.
  pose proof (bit_file_range_search_map f g start end_ st Hwg Hstg Hst Hs He) as Hfile.
  assert (file_keys (bit_file_range_search f start end_ st).1 = file_keys f) as Hkeys
    by (by destruct (bit_file_range_search_same f start end_ st) as [c ->]).
  destruct (bit_file_range_search f start end_ st) as [f' st1]. destruct Hfile as [Hwf' Hspec]. cbn [fst] in Hkeys.
  assert (Forall2 file_wf (l1 ++ f :: l2) (gs1 ++ g :: gs2)) as Hall by (by rewrite <- Heq).
  assert (files_disjoint (l1 ++ f :: l2)) as Hdisl by (by rewrite <- Heq).
  pose proof (file_range_upd l1 f l2 gs1 g gs2 start end_ st st1 Hall Hl1 Hdisl Hwg Hspec) as Hupd.
  intros Hrun. apply IH in Hrun as [Hw' Hupd'].
  - split; [done|]. eapply range_upd_trans; [|exact Hupd|exact Hupd'].
    intros k _. cbn. by destruct (in_range start end_ k), (in_range (bf_first_key f) (bf_last_key f) k).
  - unfold level_wf. cbn [bl_files with_files]. rewrite Heq, Hlen, insert_app_r_alt, Nat.sub_diag by lia. cbn.
    apply Forall2_app; [done|]. by constructor.
  - cbn [bl_files with_files]. rewrite Heq, Hlen, insert_app_r_alt, Nat.sub_diag by lia. cbn.
    apply (files_disjoint_ext (bl_files this)); [|exact Hdis]. rewrite Heq, !fmap_app, !fmap_cons.
    by rewrite Hkeys.
  - apply Hupd.
  - lia.
  - lia.
  - destruct Hupd as [_ Hupd]. intros k Hkk. destruct (Hupd k ltac:(lia)) as [Hf _]. rewrite Hf.
    destruct (Z.eq_dec k key) as [->|Hne].
    + destruct (leaf_find key (level_entries (gs1 ++ g :: gs2))) eqn:Hfk; [left|by right].
      rewrite bool_decide_eq_true_2 by eauto. unfold in_range.
      destruct (Z.leb_spec start key), (Z.leb_spec key end_), (Z.leb_spec (bf_first_key f) key), (Z.leb_spec key (bf_last_key f)); lia.
    + destruct (Hbefore k ltac:(lia)) as [->|Hn']; [by left|by right].
Qed.

Lemma bit_level_range_search_map this gss start end_ st :
  level_wf this gss -> Forall (fun g => StronglySorted Z.lt (leaves_entries (concat g)).*1) gss ->
  files_disjoint (bl_files this) -> (bl_level this = 0 -> (length (bl_files this) <= 1)%nat) ->
  range_wf start st -> 0 <= start -> end_ < 2 ^ 31 ->
  let '(this', st') := bit_level_range_search this start end_ st in
  level_wf this' gss /\ range_upd (in_range start end_) (fun k => leaf_find k (level_entries gss)) start st st'.
Proof.
  intros Hwf Hstrict Hdis Hone Hst Hs He.
  assert (let '(this', st') := level_range_loop (Z.to_nat (end_ - start + 1)) this start start end_ st in
    level_wf this' gss /\ range_upd (in_range start end_) (fun k => leaf_find k (level_entries gss)) start st st') as Hloop.
  { destruct (level_range_loop (Z.to_nat (end_ - start + 1)) this start start end_ st) as [this' st'] eqn:Hrun.
    apply (level_range_loop_spec gss start end_) in Hrun; [done..|lia|lia|]. intros. lia. }
  unfold bit_level_range_search. destruct (bl_files this) as [|f files] eqn:Hf; [exact Hloop|].
  destruct (Z.eqb_spec (bl_level this) 0) as [Hz|]; [|exact Hloop].
  specialize (Hone Hz). cbn in Hone. destruct files as [|? ?]; [|cbn in Hone; lia].
  unfold level_wf in *. rewrite Hf in Hwf. apply Forall2_cons_inv_l in Hwf as (g & gs & Hwg & Hgs & ->).
  apply Forall2_nil_inv_l in Hgs as ->. pose proof Hstrict as [Hstg _]%Forall_cons.
  pose proof (bit_file_range_search_map f g start end_ st Hwg Hstg Hst Hs He) as Hfile.
  destruct (bit_file_range_search f start end_ st) as [f' st1]. destruct Hfile as [Hwf' [Hw Hspec]].
  split; [cbn; constructor; [done|constructor]|]. split; [done|]. intros k Hk. destruct (Hspec k Hk) as [-> ->].
  unfold level_entries, file_find, in_range. cbn. rewrite app_nil_r. done.
Qed.

Lemma level_range_loop_same n : forall this start key end_ st, same_level this (level_range_loop n this start key end_ st).1.
Proof.
  induction n as [|n IH]; intros this start key end_ st; cbn [level_range_loop]; [apply same_level_refl|].
  destruct (range_found _ _ _); [apply IH|]. destruct (bit_level_locate_file_pointer this key) as [i|]; [|apply IH].
  destruct (bl_files this !! i) as [f|] eqn:Hi; [|apply same_level_refl].
  pose proof (bit_file_range_search_same f start end_ st) as Hf. destruct (bit_file_range_search f start end_ st) as [f' st'].
  eapply same_level_trans; [|apply IH]. apply same_level_files. by eapply same_files_insert.
Qed.

Lemma bit_level_range_search_same this start end_ st : same_level this (bit_level_range_search this start end_ st).1.
Proof.
  unfold bit_level_range_search. destruct (bl_files this) as [|f files] eqn:Hf; [apply level_range_loop_same|].
  destruct (bl_level this =? 0); [|apply level_range_loop_same].
  pose proof (bit_file_range_search_same f start end_ st) as Hs. destruct (bit_file_range_search f start end_ st) as [f' st'].
  apply same_level_files. rewrite Hf. constructor; [done|apply same_files_refl].
Qed.

Lemma level_range_find this gss start end_ st : level_ok this gss ->
  Forall (fun g => StronglySorted Z.lt (leaves_entries (concat g)).*1) gss ->
  range_wf start st -> 0 <= start -> end_ < 2 ^ 31 ->
  let '(this', st') := bit_level_range_search this start end_ st in
  level_ok this' gss /\ range_upd (in_range start end_) (level_find gss) start st st'.
Proof.
  intros Hok Hstrict Hst Hs He.
  pose proof (bit_level_range_search_map this gss start end_ st (lo_wf _ _ Hok) Hstrict (lo_disjoint _ _ Hok) (lo_zero _ _ Hok) Hst Hs He) as Hm.
  pose proof (bit_level_range_search_same this start end_ st) as Hsame.
  destruct (bit_level_range_search this start end_ st) as [this' st']. destruct Hm as [Hw Hu].
  split; [by eapply level_ok_same|done].
Qed.
End range_search_correct.

(** ** Relative files *)

Lemma shiftr1_mid low high : low < high -> low <= low + Z.shiftr (high - low) 1 < high.
Proof. intros Hlt. rewrite Z.shiftr_div_pow2 by lia. cbn. divmod_lia. Qed.

Lemma file_at_some files i : 0 <= i < Z.of_nat (length files) -> exists f, file_at files i = Some f.
Proof.
  intros Hi. unfold file_at. destruct (Z.ltb_spec i 0); [lia|]. apply lookup_lt_is_Some_2. lia.
Qed.

Lemma file_at_order files i j f g : files_disjoint files -> file_at files i = Some f -> file_at files j = Some g ->
  i < j -> bf_last_key f < bf_first_key g.
Proof.
  intros [Hs _] Hi Hj Hij. unfold file_at in *. destruct (Z.ltb_spec i 0); [done|]. destruct (Z.ltb_spec j 0); [done|].
  apply list_elem_of_split_length in Hi as (l1 & l2 & -> & Hl1). apply StronglySorted_app in Hs as (_ & _ & Hs).
  apply StronglySorted_inv in Hs as [_ Hs]. rewrite lookup_app_r in Hj by lia.
  destruct (Z.to_nat j - length l1)%nat as [|n] eqn:Hn; [lia|]. cbn in Hj. rewrite Forall_lookup in Hs. by eapply Hs.
Qed.

Lemma file_at_lookup files i : file_at files (Z.of_nat i) = files !! i.
Proof. unfold file_at. destruct (Z.ltb_spec (Z.of_nat i) 0); [lia|]. by rewrite Nat2Z.id. Qed.

Lemma file_at_head files f : head files = Some f -> file_at files 0 = Some f.
Proof. intros Hf. unfold file_at. cbn. by rewrite <- head_lookup. Qed.

Lemma file_at_last files l : last files = Some l -> file_at files (Z.of_nat (length files) - 1) = Some l.
Proof.
  intros Hl. assert (length files <> 0%nat) by (destruct files; [done|cbn; lia]).
  replace (Z.of_nat (length files) - 1) with (Z.of_nat (pred (length files))) by lia.
  by rewrite file_at_lookup, <- last_lookup.
Qed.

Lemma file_at_range files i f : files_disjoint files -> file_at files i = Some f -> bf_first_key f <= bf_last_key f.
Proof.
  intros [_ Hr] Hi. unfold file_at in Hi. destruct (i <? 0); [done|]. rewrite Forall_lookup in Hr. by eapply Hr.
Qed.

(** Everything before [low] ends before [key], everything after [high] starts
    after it. *)
Lemma lower_bound_loop_spec files key : files_disjoint files -> forall fuel low high,
  0 <= low -> low <= high + 1 -> high < Z.of_nat (length files) -> (low <= high \/ exists f, file_at files low = Some f) ->
  (Z.to_nat (high - low + 1) < fuel)%nat ->
  (forall i f, i < low -> file_at files i = Some f -> bf_last_key f < key) ->
  (forall i f, high < i -> file_at files i = Some f -> key < bf_first_key f) ->
  exists pos, lower_bound_loop fuel files key low high = Some pos /\ 0 <= pos /\
    (forall i f, i < pos -> file_at files i = Some f -> bf_last_key f < key) /\
    (forall i f, pos < i -> file_at files i = Some f -> key < bf_first_key f).
Proof.
  intros Hdis. induction fuel as [|fuel IH]; intros low high Hlo Hlh Hhi Hin Hfuel Hbelow Habove; [lia|].
  cbn [lower_bound_loop]. destruct (Z.ltb_spec low high) as [Hlt|Hge].
  2: { exists low. split; [done|]. split; [done|]. split; [done|]. intros i f Hi. apply Habove. lia. }
  pose proof (shiftr1_mid low high Hlt) as Hmid. set (mid := low + Z.shiftr (high - low) 1) in *.
  destruct (file_at_some files mid ltac:(lia)) as [f Hf]. rewrite Hf.
  pose proof (file_at_range files mid f Hdis Hf) as Hfr.
  destruct (Z.leb_spec (bf_first_key f) key), (Z.leb_spec key (bf_last_key f)); cbn [andb].
  - exists mid. split; [done|]. split; [lia|]. split; intros i g Hi Hg.
    + pose proof (file_at_order files i mid g f Hdis Hg Hf Hi). lia.
    + pose proof (file_at_order files mid i f g Hdis Hf Hg Hi). lia.
  - destruct (Z.ltb_spec key (bf_first_key f)); [lia|]. apply IH; try lia.
    + intros i g Hi Hg. destruct (Z.eq_dec i mid) as [->|Hne]; [congruence|].
      destruct (Z.lt_ge_cases i low); [by eapply Hbelow|].
      pose proof (file_at_order files i mid g f Hdis Hg Hf ltac:(lia)). lia.
    + done.
  - destruct (Z.ltb_spec key (bf_first_key f)); [|lia]. apply IH; try lia.
    + destruct (Z.le_gt_cases low (mid - 1)); [by left|right]. exists f. by replace low with mid by lia.
    + done.
    + intros i g Hi Hg. destruct (Z.eq_dec i mid) as [->|Hne]; [congruence|].
      destruct (Z.lt_ge_cases high i); [by eapply Habove|].
      pose proof (file_at_order files mid i f g Hdis Hf Hg ltac:(lia)). lia.
  - lia.
Qed.

Lemma take_relatives_spec last_key files : files_disjoint files ->
  exists rest, files = take_relatives files last_key ++ rest /\
    Forall (fun f => bf_first_key f <= last_key) (take_relatives files last_key) /\
    Forall (fun f => last_key < bf_first_key f) rest.
Proof.
  induction files as [|f files IH]; [by exists []|]. intros [Hs Hr].
  pose proof Hs as [Hs' Hf]%StronglySorted_inv. pose proof Hr as [Hrf Hr']%Forall_cons. cbn [take_relatives].
  destruct (Z.leb_spec (bf_first_key f) last_key).
  - destruct (IH (conj Hs' Hr')) as (rest & Heq & Hle & Hgt). exists rest. split; [by cbn; rewrite <- Heq|]. split; [|done]. by constructor.
  - exists (f :: files). split; [done|]. split; [constructor|]. constructor; [done|].
    apply Forall_forall. intros g Hg. rewrite Forall_forall in Hf. specialize (Hf g Hg). lia.
Qed.

Lemma lower_bound_spec this key f l : files_disjoint (bl_files this) -> head (bl_files this) = Some f -> last (bl_files this) = Some l ->
  key <= bf_last_key l ->
  exists pos, bit_level_lower_bound this key = Some pos /\ 0 <= pos /\
    (forall i g, i < pos -> file_at (bl_files this) i = Some g -> bf_last_key g < key) /\
    (forall i g, pos < i -> file_at (bl_files this) i = Some g -> key < bf_first_key g).
Proof.
  intros Hdis Hf Hl Hk. unfold bit_level_lower_bound, bl_size.
  pose proof (file_at_head _ _ Hf) as Hf0. pose proof (file_at_last _ _ Hl) as Hlast.
  assert (length (bl_files this) <> 0%nat) as Hne by (destruct (bl_files this); [done|cbn; lia]).
  rewrite Hf0, Hlast. destruct (Z.ltb_spec key (bf_first_key f)) as [Hlt|Hge].
  - exists 0. split; [done|]. split; [done|]. split; intros i g Hi Hg.
    + unfold file_at in Hg. destruct (Z.ltb_spec i 0); [done|lia].
    + pose proof (file_at_order _ 0 i f g Hdis Hf0 Hg Hi). pose proof (file_at_range _ 0 f Hdis Hf0). lia.
  - destruct (Z.ltb_spec (bf_last_key l) key); [lia|].
    apply lower_bound_loop_spec; try done; try lia.
    + intros i g Hi Hg. unfold file_at in Hg. destruct (Z.ltb_spec i 0); [done|lia].
    + intros i g Hi Hg. unfold file_at in Hg. destruct (i <? 0); [done|]. apply lookup_lt_Some in Hg. lia.
Qed.

(** Every file of a level lies between its first and its last file. *)
Lemma files_ends files f l g : files_disjoint files -> head files = Some f -> last files = Some l -> g ∈ files ->
  bf_first_key f <= bf_first_key g /\ bf_last_key g <= bf_last_key l.
Proof.
  intros Hdis Hf0%file_at_head Hl1%file_at_last Hg. apply list_elem_of_lookup in Hg as [i Hi].
  pose proof (lookup_lt_Some _ _ _ Hi). rewrite <- file_at_lookup in Hi.
  pose proof (file_at_range _ _ _ Hdis Hi). pose proof (file_at_range _ _ _ Hdis Hf0). pose proof (file_at_range _ _ _ Hdis Hl1). split.
  - destruct (Z.eq_dec (Z.of_nat i) 0) as [Hz|]; [rewrite Hz in Hi; replace g with f by congruence; lia|].
    pose proof (file_at_order _ 0 (Z.of_nat i) f g Hdis Hf0 Hi ltac:(lia)). lia.
  - destruct (Z.eq_dec (Z.of_nat i) (Z.of_nat (length files) - 1)) as [Hz|]; [rewrite Hz in Hi; replace g with l by congruence; lia|].
    pose proof (file_at_order _ (Z.of_nat i) _ g l Hdis Hi Hl1 ltac:(lia)). lia.
Qed.

(** The key interval of a file meets an interval. *)
Definition overlaps (first last : Z) (f : bit_file) : Prop := bf_first_key f <= last /\ first <= bf_last_key f.

(** C23. Choosing the files of the next level to merge with: the search
    terminates, the relatives are consecutive files of the level, every file
    that overlaps the interval of the demoted files is among them, and all but
    possibly the first of them do overlap it. *)
Theorem bit_level_relatives_complete this files : files_disjoint (bl_files this) ->
  files_first_key files <= files_last_key files ->
  exists rel, bit_level_find_relative_files this files = Some rel /\
    (exists before after, bl_files this = before ++ rel ++ after) /\
    (forall f, f ∈ bl_files this -> overlaps (files_first_key files) (files_last_key files) f -> f ∈ rel) /\
    Forall (overlaps (files_first_key files) (files_last_key files)) (tail rel).
Proof.
  intros Hdis Hfl. set (first := files_first_key files) in *. set (last_ := files_last_key files) in *.
  unfold bit_level_find_relative_files. fold first last_.
  destruct (bl_files this) as [|f fs] eqn:Hfiles; [exists []; split; [done|]; split; [by exists [], []|]; split; [done|constructor]|].
  rewrite <- Hfiles in *. destruct (last (bl_files this)) as [l|] eqn:Hlast; [|apply last_None in Hlast; congruence].
  assert (head (bl_files this) = Some f) as Hhead by (by rewrite Hfiles).
  assert (forall g, g ∈ bl_files this -> bf_first_key f <= bf_first_key g /\ bf_last_key g <= bf_last_key l) as Hends
    by (intros; by eapply files_ends).
  destruct ((last_ <? bf_first_key f) || (bf_last_key l <? first)) eqn:Hout.
  { exists []. split; [done|]. split; [by exists (bl_files this), []; rewrite !app_nil_r|]. split; [|constructor].
    intros g Hg [Ho1 Ho2]. destruct (Hends g Hg). apply orb_true_iff in Hout as [Hout%Z.ltb_lt|Hout%Z.ltb_lt]; lia. }
  apply orb_false_iff in Hout as [Hout1%Z.ltb_ge Hout2%Z.ltb_ge].
  destruct (lower_bound_spec this first f l Hdis Hhead Hlast Hout2) as (pos & -> & Hpos & Hbelow & Habove).
  assert (files_disjoint (drop (Z.to_nat pos) (bl_files this))) as Hdisd.
  { destruct Hdis as [Hs Hr]. split; [|by apply Forall_drop].
    rewrite <- (take_drop (Z.to_nat pos) (bl_files this)) in Hs. apply StronglySorted_app in Hs. tauto. }
  destruct (take_relatives_spec last_ _ Hdisd) as (rest & Heq & Hle & Hgt). set (rel := take_relatives _ last_) in *.
  exists rel. split; [done|]. split; [|split].
  - exists (take (Z.to_nat pos) (bl_files this)), rest. by rewrite <- Heq, take_drop.
  - intros g Hg [Ho1 Ho2]. apply list_elem_of_lookup in Hg as [i Hi].
    pose proof Hi as Hg. rewrite <- file_at_lookup in Hg.
    destruct (Z.lt_ge_cases (Z.of_nat i) pos) as [Hip|Hip]; [specialize (Hbelow _ _ Hip Hg); lia|].
    assert (drop (Z.to_nat pos) (bl_files this) !! (i - Z.to_nat pos)%nat = Some g) as Hd
      by (rewrite lookup_drop; by replace (Z.to_nat pos + (i - Z.to_nat pos))%nat with i by lia).
    apply list_elem_of_lookup_2 in Hd. rewrite Heq in Hd. apply elem_of_app in Hd as [?|Hd]; [done|].
    rewrite Forall_forall in Hgt. specialize (Hgt g Hd). lia.
  - apply Forall_forall. intros g Hg. apply list_elem_of_lookup in Hg as [i Hi]. rewrite lookup_tail in Hi.
    assert (drop (Z.to_nat pos) (bl_files this) !! S i = Some g) as Hd by (rewrite Heq; by apply lookup_app_l_Some).
    rewrite lookup_drop in Hd.
    assert (file_at (bl_files this) (pos + Z.of_nat (S i)) = Some g) as Hgat
      by (replace (pos + Z.of_nat (S i)) with (Z.of_nat (Z.to_nat pos + S i)) by lia; by rewrite file_at_lookup).
    pose proof (Habove (pos + Z.of_nat (S i)) g ltac:(lia) Hgat). pose proof (file_at_range _ _ _ Hdis Hgat).
    apply list_elem_of_lookup_2 in Hi. rewrite Forall_forall in Hle. specialize (Hle g Hi). split; lia.
Qed.

(** ** Adding and removing files *)

Definition cmp_sorted (files : list bit_file) : Prop := StronglySorted (fun f g => bit_file_cmp f g <= 0) files.

Lemma bit_file_cmp_trans f g h : bit_file_cmp f g <= 0 -> bit_file_cmp g h <= 0 -> bit_file_cmp f h <= 0.
Proof. unfold bit_file_cmp. intros. case_bool; lia. Qed.

Lemma bit_file_cmp_antisym f g : bit_file_cmp f g = - bit_file_cmp g f.
Proof. unfold bit_file_cmp. case_bool; lia. Qed.

Lemma cmp_at_some files i f file : 0 <= i -> files !! Z.to_nat i = Some f -> cmp_at files i file = bit_file_cmp f file.
Proof. intros _ Hi. unfold cmp_at. by rewrite Hi. Qed.

Lemma cmp_sorted_lookup files i j f g : cmp_sorted files -> files !! i = Some f -> files !! j = Some g -> (i <= j)%nat ->
  bit_file_cmp f g <= 0.
Proof.
  intros Hs Hi Hj Hij. destruct (Nat.eq_dec i j) as [->|Hne].
  - assert (f = g) as -> by congruence. unfold bit_file_cmp. rewrite Z.eqb_refl. lia.
  - apply list_elem_of_split_length in Hi as (l1 & l2 & -> & ->). unfold cmp_sorted in Hs.
    apply StronglySorted_app in Hs as (_ & _ & Hs). apply StronglySorted_inv in Hs as [_ Hs].
    rewrite lookup_app_r in Hj by lia. destruct (j - length l1)%nat eqn:Hn; [lia|]. cbn in Hj.
    rewrite Forall_lookup in Hs. by eapply Hs.
Qed.

(** The position splits the files into those not above and those not below. *)
Definition splits_at (files : list bit_file) file (pos : Z) : Prop :=
  0 <= pos <= Z.of_nat (length files) /\
  Forall (fun f => bit_file_cmp f file <= 0) (take (Z.to_nat pos) files) /\
  Forall (fun f => 0 <= bit_file_cmp f file) (drop (Z.to_nat pos) files).

Lemma splits_intro files file pos : cmp_sorted files -> 0 <= pos <= Z.of_nat (length files) ->
  (forall f, 0 < pos -> files !! Z.to_nat (pos - 1) = Some f -> bit_file_cmp f file <= 0) ->
  (forall f, files !! Z.to_nat pos = Some f -> 0 <= bit_file_cmp f file) -> splits_at files file pos.
Proof.
  intros Hs Hp Hb Ha. split; [done|]. split; apply Forall_lookup; intros i f Hi.
  - apply lookup_take_Some in Hi as [Hi Hlt]. pose proof (lookup_lt_Some _ _ _ Hi).
    destruct (lookup_lt_is_Some_2 files (Z.to_nat (pos - 1))) as [g Hg]; [lia|].
    eapply bit_file_cmp_trans; [|by apply (Hb g); [lia|]]. apply (cmp_sorted_lookup files i _ f g Hs Hi Hg). lia.
  - rewrite lookup_drop in Hi. pose proof (lookup_lt_Some _ _ _ Hi).
    destruct (lookup_lt_is_Some_2 files (Z.to_nat pos)) as [g Hg]; [lia|]. specialize (Ha g Hg).
    pose proof (cmp_sorted_lookup files (Z.to_nat pos) _ g f Hs Hg Hi ltac:(lia)) as Hgf.
    rewrite bit_file_cmp_antisym in Ha, Hgf |- *.
    pose proof (bit_file_cmp_trans file g f ltac:(lia)) as Ht. rewrite (bit_file_cmp_antisym g f) in Ht. lia.
Qed.

Lemma search_file_loop_spec files file : cmp_sorted files -> forall fuel low high,
  0 <= low <= high -> high < Z.of_nat (length files) -> (Z.to_nat (high - low) < fuel)%nat ->
  (forall f, 0 < low -> files !! Z.to_nat (low - 1) = Some f -> bit_file_cmp f file <= 0) ->
  (forall f, files !! Z.to_nat high = Some f -> 0 <= bit_file_cmp f file) ->
  exists pos, search_file_loop fuel files file low high = Some pos /\ splits_at files file pos.
Proof.
  intros Hs. induction fuel as [|fuel IH]; intros low high Hlh Hhi Hfuel Hb Ha; [lia|]. cbn [search_file_loop].
  destruct (Z.ltb_spec low high) as [Hlt|Hge].
  - pose proof (shiftr1_mid low high Hlt) as Hmid. set (mid := low + Z.shiftr (high - low) 1) in *.
    destruct (lookup_lt_is_Some_2 files (Z.to_nat mid)) as [f Hf]; [lia|].
    rewrite (cmp_at_some files mid f) by (done || lia). destruct (Z.ltb_spec (bit_file_cmp f file) 0).
    + apply IH; [lia..| |done]. intros g _ Hg. replace (Z.to_nat (mid + 1 - 1)) with (Z.to_nat mid) in Hg by lia.
      assert (g = f) as -> by congruence. lia.
    + apply IH; [lia..|done|]. intros g Hg. assert (g = f) as -> by congruence. lia.
  - exists low. split; [done|]. assert (low = high) as -> by lia. by apply splits_intro; [|lia|..].
Qed.

Lemma bit_level_search_file_spec this file : cmp_sorted (bl_files this) ->
  exists pos, bit_level_search_file this file = Some pos /\ splits_at (bl_files this) file pos.
Proof.
  intros Hs. unfold bit_level_search_file, bl_size. set (n := length (bl_files this)).
  destruct (Z.eqb_spec (Z.of_nat n) 0) as [Hz|Hnz].
  { exists 0. split; [done|]. apply splits_intro; [done|lia|lia|]. intros f Hf. apply lookup_lt_Some in Hf. fold n in Hf. lia. }
  destruct (lookup_lt_is_Some_2 (bl_files this) 0) as [f0 Hf0]; [lia|].
  destruct (lookup_lt_is_Some_2 (bl_files this) (Z.to_nat (Z.of_nat n - 1))) as [fh Hfh]; [lia|].
  rewrite (cmp_at_some _ 0 f0), (cmp_at_some _ (Z.of_nat n - 1) fh) by (done || lia).
  destruct (Z.leb_spec 0 (bit_file_cmp f0 file)).
  { exists 0. split; [done|]. apply splits_intro; [done|lia|lia|]. intros f Hf. change (Z.to_nat 0) with 0%nat in Hf. by assert (f = f0) as -> by congruence. }
  destruct (Z.leb_spec (bit_file_cmp fh file) 0).
  { exists (Z.of_nat n - 1 + 1). split; [done|]. apply splits_intro; [done|lia|..].
    - intros f _ Hf. replace (Z.to_nat (Z.of_nat n - 1 + 1 - 1)) with (Z.to_nat (Z.of_nat n - 1)) in Hf by lia.
      by assert (f = fh) as -> by congruence.
    - intros f Hf. apply lookup_lt_Some in Hf. fold n in Hf. lia. }
  apply search_file_loop_spec; [done|lia|lia|lia|lia|]. intros f Hf. assert (f = fh) as -> by congruence. lia.
Qed.

Lemma add_file_spec this file : cmp_sorted (bl_files this) ->
  exists this' r, bit_level_add_file this file = Some (this', r) /\
    (bl_size this < bl_max_size this -> r = Ok tt /\ cmp_sorted (bl_files this') /\ bl_files this' ≡ₚ file :: bl_files this) /\
    (bl_max_size this <= bl_size this -> r = Err ENOSPC /\ this' = this).
Proof.
  intros Hs. unfold bit_level_add_file. destruct (Z.leb_spec (bl_max_size this) (bl_size this)) as [Hfull|Hroom].
  { eexists _, _. split; [done|]. split; [lia|done]. }
  destruct (bit_level_search_file_spec this file Hs) as (pos & -> & Hpos & Hb & Ha). unfold bl_size in *.
  eexists _, _. split; [done|]. split; [|lia]. intros _. split; [done|]. cbn [bl_files with_files].
  assert ((if pos + 1 <? bl_max_size this then drop (Z.to_nat pos) (bl_files this) else []) = drop (Z.to_nat pos) (bl_files this)) as ->.
  { destruct (Z.ltb_spec (pos + 1) (bl_max_size this)); [done|]. rewrite drop_ge by lia. done. }
  rewrite <- (take_drop (Z.to_nat pos) (bl_files this)) in Hs. split.
  - unfold cmp_sorted in *. apply StronglySorted_app in Hs as (Hx & Hs1 & Hs2). apply StronglySorted_app.
    split; [|split; [done|]].
    + intros f g Hf [->|Hg]%elem_of_cons; [rewrite Forall_forall in Hb; auto|auto].
    + constructor; [done|]. eapply Forall_impl; [exact Ha|]. cbn. intros g Hg. rewrite bit_file_cmp_antisym. lia.
  - rewrite <- (take_drop (Z.to_nat pos) (bl_files this)) at 3. by rewrite Permutation_middle.
Qed.

(** Adding a file to a level that is not at its maximal size terminates,
    keeps the files sorted by first and last key and adds exactly that file; a
    level at its maximal size refuses with [-ENOSPC] and stays as it was. *)
Theorem bit_level_add_file_sorted this file : cmp_sorted (bl_files this) ->
  exists this' r, bit_level_add_file this file = Some (this', r) /\
    (bl_size this < bl_max_size this -> r = Ok tt /\ cmp_sorted (bl_files this') /\ bl_files this' ≡ₚ file :: bl_files this) /\
    (bl_max_size this <= bl_size this -> r = Err ENOSPC /\ this' = this).
Proof. apply add_file_spec. Qed.
End bit_level.

(** ** Concrete runs *)

#[export] Instance linear_bsearch : Bsearch := {|
  bsearch A cmp l := fst <$> list_find (fun x => cmp x = 0) l
|}.

#[export] Instance linear_bsearch_spec : BsearchSpec.
Proof.
  split; intros A cmp; cbn.
  - intros l i Hf. destruct (list_find _ l) as [[j x]|] eqn:Hj; [|done]. injection Hf as <-.
    apply list_find_Some in Hj as (Hj & Hx & _). eauto.
  - intros l1 x l2 Hf _ _ Hx. destruct (list_find _ _) eqn:Hj; [done|]. apply list_find_None in Hj.
    apply Forall_app in Hj as [_ Hj]. by apply Forall_cons in Hj as [Hj _].
Qed.

(** Two disjoint files in level 1: the file of [BitFile.v] and one behind it. *)
Definition example_file2 : bit_file :=
  bit_file_init (<[0 := LeafNode {| leaf_entries := [(400, example_record 900)]; leaf_next_pos := 0 |}]>
    (<[10 := InnerNode [ {| child_is_leaf := true; child_key := 400; child_pos := 0 |} ]]>
      (<[20 := InnerNode [ {| child_is_leaf := false; child_key := 400; child_pos := 10 |} ]]> ∅)))
    20 1 1 8 400 400 1 (empty_lru : cache (V := bit_leaf)).
Definition example_groups2 : list (list bit_leaf) :=
  [[ {| leaf_entries := [(400, example_record 900)]; leaf_next_pos := 0 |} ]].

Lemma example_file2_wf : file_wf example_file2 example_groups2.
Proof.
  split; try reflexivity.
  - eexists. split; [reflexivity|]. split; by repeat constructor.
  - by repeat constructor.
  - by repeat constructor.
  - by repeat constructor.
  - intros k l. done.
Qed.

Definition example_level : bit_level :=
  {| bl_level := 1; bl_capacity := 10; bl_max_size := 21; bl_files := [example_file; example_file2] |}.

Lemma example_level_wf : level_wf example_level [example_groups; example_groups2].
Proof.
  unfold level_wf. cbn. constructor; [apply example_file_wf|]. constructor; [apply example_file2_wf|constructor].
Qed.

Lemma example_level_disjoint : files_disjoint (bl_files example_level).
Proof. split; repeat constructor; cbn; lia. Qed.

Lemma bit_level_search_correct_witness :
  let this := example_level in
  let gss := [example_groups; example_groups2] in
  let '(this', r) := bit_level_search this 400 in
  level_wf this' gss /\
  (bl_level this <> 0 -> r = match leaf_find 400 (level_entries gss) with Some r => Ok r | None => Err ENODATA end) /\
  (bl_level this = 0 -> match r with
     | Ok rec => newest (zip (bl_files this) gss) 400 rec
     | Err e => e = ENODATA /\ Forall (fun g => file_find g 400 = None) gss
     end).
Proof.
  refine (bit_level_search_correct example_level _ 400 example_level_wf _ (fun _ => example_level_disjoint)).
  repeat constructor; cbn; lia.
Defined.

Lemma bit_level_relatives_complete_witness :
  let this := example_level in
  let files := [example_file2] in
  exists rel, bit_level_find_relative_files this files = Some rel /\
    (exists before after, bl_files this = before ++ rel ++ after) /\
    (forall f, f ∈ bl_files this -> overlaps (files_first_key files) (files_last_key files) f -> f ∈ rel) /\
    Forall (overlaps (files_first_key files) (files_last_key files)) (tail rel).
Proof.
  refine (bit_level_relatives_complete example_level [example_file2] example_level_disjoint _). vm_compute. congruence.
Defined.

Lemma bit_level_add_file_sorted_witness :
  let this := example_level in
  exists this' r, bit_level_add_file this example_file = Some (this', r) /\
    (bl_size this < bl_max_size this ->
       r = Ok tt /\ cmp_sorted (bl_files this') /\ bl_files this' ≡ₚ example_file :: bl_files this) /\
    (bl_max_size this <= bl_size this -> r = Err ENOSPC /\ this' = this).
Proof.
  refine (bit_level_add_file_sorted example_level example_file _). repeat constructor. vm_compute. congruence.
Defined.
