(* ===== verification/LevelFiles.v ===== *)
(** * LevelFiles: a level as a set of files

    What the compactions rely on of the levels of [BitLevel.v]: where the files
    chosen lie in their level, what is left when files are removed, and when
    files that were added one by one are disjoint. *)
From S2P Require Import Prelude RbTree Memtable Cache BitFile BitLevel.

Section level_files.
Context `{NodeStoreSpec} `{LeafCacheSpec bit_leaf} `{BsearchSpec}.
Implicit Types (this : bit_level) (f : bit_file) (files : list bit_file).

(** ** Lookup *)

Lemma leaf_find_in k (l : list (Z * record)) r : leaf_find k l = Some r -> (k, r) ∈ l.
Proof.
  induction l as [|[k' x] l IH]; cbn; [done|]. destruct (Z.eqb_spec k' k) as [->|]; [intros [= ->]; by left|].
  intros Hl. right. by apply IH.
Qed.

Lemma leaf_find_absent k (l : list (Z * record)) : leaf_find k l = None <-> ~ k ∈ l.*1.
Proof.
  induction l as [|[k' x] l IH]; cbn; [split; [by intros _ ?%elem_of_nil|done]|].
  rewrite not_elem_of_cons. destruct (Z.eqb_spec k' k) as [->|Hne]; [split; [done|by intros [? _]]|]. rewrite IH.
  split; [by split; [congruence|]|by intros [_ ?]].
Qed.

(** Exactly the file that holds the key answers. *)
Lemma level_find_iff files gss k r : Forall2 file_wf files gss -> files_disjoint files ->
  level_find gss k = Some r <-> exists f g, (f, g) ∈ zip files gss /\ file_find g k = Some r.
Proof.
  intros Hwf Hdis.
  assert (forall f g, (f, g) ∈ zip files gss -> forall x, file_find g k = Some x -> level_find gss k = Some x) as Hin.
  { intros f g Hfg x Hx. apply list_elem_of_lookup in Hfg as [i Hi]. apply lookup_zip_with_Some in Hi as (f' & g' & [= <- <-] & Hf & Hg).
    pose proof (Forall2_lookup_lr _ _ _ _ _ _ Hwf Hf Hg) as Hwg. pose proof (file_find_range f g k x Hwg Hx) as Hk.
    pose proof (list_elem_of_split_length _ _ _ Hf) as (l1 & l2 & Heq & Hlen). destruct (disjoint_around _ k l1 f l2 Hdis Heq Hk) as [Hc1 Hc2].
    rewrite Heq in Hwf. apply Forall2_app_inv_l in Hwf as (gs1 & gs2 & Hw1 & Hw2 & ->). apply Forall2_cons_inv_l in Hw2 as (g2 & gs3 & _ & Hw2 & ->).
    pose proof (Forall2_length _ _ _ Hw1). rewrite list_lookup_middle in Hg by lia. injection Hg as ->.
    unfold level_find. rewrite level_find_middle; [done|..]; apply Forall_lookup; intros j y Hj.
    - destruct (Forall2_lookup_r _ _ _ _ _ Hw1 Hj) as (h & Hh & Hwh). eapply cmp_key_other; [exact Hwh|].
      rewrite Forall_lookup in Hc1. specialize (Hc1 _ _ Hh). lia.
    - destruct (Forall2_lookup_r _ _ _ _ _ Hw2 Hj) as (h & Hh & Hwh). eapply cmp_key_other; [exact Hwh|].
      rewrite Forall_lookup in Hc2. specialize (Hc2 _ _ Hh). lia. }
  split; [|by intros (f & g & Hfg & Hr); eapply Hin].
  clear Hin Hdis. unfold level_find. induction Hwf as [|f g files gss _ _ IH]; [done|].
  unfold level_entries. cbn. rewrite leaf_find_app. destruct (leaf_find k (leaves_entries (concat g))) as [x|] eqn:Hg.
  - intros [= ->]. exists f, g. split; [by left|done].
  - intros Hl. destruct (IH Hl) as (f' & g' & Hfg & Hr). exists f', g'. split; [by right|done].
Qed.

(** ** Files apart from each other *)

Definition apart f f' : Prop := bf_last_key f < bf_first_key f' \/ bf_last_key f' < bf_first_key f.

Lemma apart_sym f f' : apart f f' -> apart f' f.
Proof. unfold apart. tauto. Qed.

Lemma sorted_perm {A} (R : A -> A -> Prop) l l' : (forall x y, R x y -> R y x) -> l ≡ₚ l' -> StronglySorted R l -> StronglySorted R l'.
Proof.
  intros Hsym Hp. induction Hp as [|x l l' Hp IH|x y l|l1 l2 l3 _ IH1 _ IH2]; intros Hs; [done|..|auto].
  - apply StronglySorted_inv in Hs as [Hs Hx]. constructor; [auto|by rewrite <- Hp].
  - apply StronglySorted_inv in Hs as [Hs Hx]. apply StronglySorted_inv in Hs as [Hs Hy].
    apply Forall_cons in Hx as [Hxy Hx]. repeat constructor; auto.
Qed.

Lemma apart_disjoint files : StronglySorted apart files -> cmp_sorted files -> Forall (fun f => bf_first_key f <= bf_last_key f) files ->
  files_disjoint files.
Proof.
  intros Ha Hs Hr. split; [|done]. induction files as [|f files IH]; [constructor|].
  apply StronglySorted_inv in Ha as [Ha Hfa]. apply StronglySorted_inv in Hs as [Hs Hfs]. apply Forall_cons in Hr as [Hrf Hr].
  constructor; [auto|]. rewrite Forall_forall in Hfa, Hfs, Hr |- *. intros g Hg. specialize (Hfa g Hg). specialize (Hfs g Hg). specialize (Hr g Hg).
  cbn in Hfs. unfold bit_file_cmp in Hfs. destruct Hfa as [?|?]; [done|]. destruct (Z.eqb_spec (bf_first_key f) (bf_first_key g)); lia.
Qed.

Lemma disjoint_apart files : files_disjoint files -> StronglySorted apart files.
Proof.
  intros [Hs _]. induction Hs as [|f files Hs IH Hf]; constructor; [done|]. eapply Forall_impl; [exact Hf|]. intros g ?. by left.
Qed.

Lemma disjoint_sorted files : files_disjoint files -> cmp_sorted files.
Proof.
  intros [Hs Hr]. unfold cmp_sorted. induction Hs as [|f files Hs IH Hf]; [constructor|]. apply Forall_cons in Hr as [Hrf Hr].
  constructor; [auto|]. rewrite Forall_forall in Hf, Hr |- *. intros g Hg. specialize (Hf g Hg). unfold bit_file_cmp.
  destruct (Z.eqb_spec (bf_first_key f) (bf_first_key g)); lia.
Qed.

(** ** The files chosen lie together *)

Lemma relatives_between this demoted : files_disjoint (bl_files this) ->
  let first := files_first_key demoted in
  let last_ := files_last_key demoted in
  first <= last_ ->
  exists rel before after, bit_level_find_relative_files this demoted = Some rel /\ bl_files this = before ++ rel ++ after /\
    Forall (fun f => bf_last_key f < first) before /\ Forall (fun f => last_ < bf_first_key f) after.
Proof.
  intros Hdis first last_ Hfl. unfold bit_level_find_relative_files. fold first last_.
  destruct (bl_files this) as [|f fs] eqn:Hfiles; [by exists [], [], []|]. rewrite <- Hfiles in *.
  destruct (last (bl_files this)) as [l|] eqn:Hlast; [|apply last_None in Hlast; congruence].
  assert (head (bl_files this) = Some f) as Hhead by (by rewrite Hfiles).
  destruct (Z.ltb_spec last_ (bf_first_key f)) as [Hlt|Hge]; cbn [orb].
  { exists [], [], (bl_files this). split; [done|]. split; [done|]. split; [constructor|]. destruct Hdis as [Hs Hr].
    rewrite Hfiles in *. apply StronglySorted_inv in Hs as [_ Hs]. apply Forall_cons in Hr as [Hrf _]. constructor; [done|].
    eapply Forall_impl; [exact Hs|]. cbn. intros g Hg. lia. }
  destruct (Z.ltb_spec (bf_last_key l) first) as [Hlt|Hge'].
  { exists [], (bl_files this), []. rewrite app_nil_r. split; [done|]. split; [done|]. split; [|constructor].
    apply last_Some in Hlast as [l' Hl']. destruct Hdis as [Hs Hr]. rewrite Hl' in *. apply StronglySorted_app in Hs as (Hx & _ & _).
    apply Forall_app in Hr as [Hr1 Hr2]. apply Forall_cons in Hr2 as [Hrl _]. apply Forall_app. split; [|by repeat constructor].
    apply Forall_forall. intros g Hg. specialize (Hx g l Hg ltac:(by left)). lia. }
  destruct (lower_bound_spec this first f l Hdis Hhead Hlast Hge') as (pos & -> & Hpos & Hbelow & _).
  assert (files_disjoint (drop (Z.to_nat pos) (bl_files this))) as Hdisd.
  { destruct Hdis as [Hs Hr]. split; [|by apply Forall_drop].
    rewrite <- (take_drop (Z.to_nat pos) (bl_files this)) in Hs. apply StronglySorted_app in Hs. tauto. }
  destruct (take_relatives_spec last_ _ Hdisd) as (rest & Heq & Hle & Hgt).
  exists (take_relatives (drop (Z.to_nat pos) (bl_files this)) last_), (take (Z.to_nat pos) (bl_files this)), rest.
  split; [done|]. split; [by rewrite <- Heq, take_drop|]. split; [|done].
  apply Forall_lookup. intros i g Hi. apply lookup_take_Some in Hi as [Hi Hlt]. apply (Hbelow (Z.of_nat i) g); [lia|].
  unfold file_at. destruct (Z.ltb_spec (Z.of_nat i) 0); [lia|]. by rewrite Nat2Z.id.
Qed.

(** ** Removing files *)

Lemma remove_id_found l1 f l2 id : bf_id f = id -> Forall (fun g => bf_id g <> id) l1 ->
  remove_id id (l1 ++ f :: l2) = Some (l1 ++ l2).
Proof.
  intros Hf. induction l1 as [|g l1 IH]; intros Hl; cbn.
  - by rewrite Hf, Z.eqb_refl.
  - apply Forall_cons in Hl as [Hg Hl]. destruct (Z.eqb_spec (bf_id g) id); [done|]. by rewrite IH.
Qed.

Lemma cmp_sorted_drop l1 f l2 : cmp_sorted (l1 ++ f :: l2) -> cmp_sorted (l1 ++ l2).
Proof.
  unfold cmp_sorted. intros (Hx & Hs1 & Hs2)%StronglySorted_app. apply StronglySorted_inv in Hs2 as [Hs2 _].
  apply StronglySorted_app. split; [|done]. intros x y Hx' Hy. apply Hx; [done|by right].
Qed.

Lemma remove_file_spec this f rest : NoDup (bf_id <$> bl_files this) -> bl_files this ≡ₚ f :: rest -> cmp_sorted (bl_files this) ->
  let this' := (bit_level_remove_file this (bf_id f)).1 in
  this' = with_files this (bl_files this') /\ bl_files this' ≡ₚ rest /\ cmp_sorted (bl_files this').
Proof.
  intros Hnd Hp Hs. assert (f ∈ bl_files this) as Hf by (rewrite Hp; by left).
  apply list_elem_of_split in Hf as (l1 & l2 & Heq). unfold bit_level_remove_file. rewrite Heq in *.
  rewrite remove_id_found; [|done|].
  - cbn [fst bl_files with_files]. split; [done|]. split; [|by eapply cmp_sorted_drop].
    apply (Permutation_cons_inv (a := f)). by rewrite <- Hp, <- Permutation_middle.
  - rewrite fmap_app in Hnd. apply NoDup_app in Hnd as (_ & Hnd & _). apply Forall_forall. intros g Hg Hid.
    apply (Hnd (bf_id g)); [by apply list_elem_of_fmap_2|]. rewrite Hid. by left.
Qed.
End level_files.
