(* ===== verification/Merge.v ===== *)
(** * Merge: merging sorted runs with a heap

    The part of [compaction_job_run] in [kernel-module/c/src/lsm_tree.c] that
    decides, from the sequence of entries the heap hands out, which entry of
    each key goes to the new file and which block is given up. The kernel's
    [min_heap] is a parameter. *)
From S2P Require Import Prelude RbTree Memtable BitFile.

(** ** The heap

    [heap->data[0 .. nr)] is a list whose head is the minimum. A push on a full
    heap is refused with a warning. *)
Class MinHeap : Type := {
  min_heap_push : forall {A : Type}, (A -> A -> bool) -> nat -> list A -> A -> list A;
  min_heap_pop : forall {A : Type}, (A -> A -> bool) -> list A -> list A
}.

Class MinHeapSpec `{MinHeap} : Type := {
  is_heap : forall {A : Type}, (A -> A -> bool) -> list A -> Prop;
  is_heap_nil : forall {A : Type} (less : A -> A -> bool), is_heap less [];
  is_heap_head : forall {A : Type} (less : A -> A -> bool) x l y, is_heap less (x :: l) -> y ∈ l -> less y x = false;
  min_heap_push_spec : forall {A : Type} (rank : A -> Z) size l x,
    let less a b := rank a <? rank b in
    is_heap less l -> (length l < size)%nat ->
    is_heap less (min_heap_push less size l x) /\ min_heap_push less size l x ≡ₚ x :: l;
  min_heap_pop_spec : forall {A : Type} (rank : A -> Z) x l,
    let less a b := rank a <? rank b in
    is_heap less (x :: l) -> is_heap less (min_heap_pop less (x :: l)) /\ min_heap_pop less (x :: l) ≡ₚ l
}.

(** ** Nodes of the heap *)

(** [struct kway_merge_node]: the iterator it came from, with the id and the
    version of that iterator's file, and the entry; [kn_ptr] stands for the
    address of the entry's record, of which each call of [next] allocates a new
    one. *)
Record kway_merge_node : Type := KwayMergeNode {
  kn_iter : nat;
  kn_id : Z;
  kn_version : Z;
  kn_key : Z;
  kn_val : record;
  kn_ptr : Z
}.

Definition kway_merge_node_less (lhs rhs : kway_merge_node) : bool := kn_key lhs <? kn_key rhs.

(** [struct entry], [NULL] for [val] as [None]. *)
Abbreviation entry := (Z * record)%type.
Definition node_entry (n : kway_merge_node) : entry := (kn_key n, kn_val n).

(** ** The variables of the loop *)

(** [negative] is set and cleared within one round. *)
Record merge_vars : Type := MergeVars {
  mv_distinct : kway_merge_node;
  mv_new : option entry;
  mv_old : option entry
}.

Definition start_key (n : kway_merge_node) : merge_vars := {| mv_distinct := n; mv_new := None; mv_old := None |}.

(** [first] has the key of [distinct]. *)
Definition merge_same (mv : merge_vars) (first : kway_merge_node) : merge_vars :=
  let distinct := mv_distinct mv in
  if kn_version distinct <? kn_version first then
    {| mv_distinct := first; mv_new := mv_new mv; mv_old := Some (node_entry distinct) |}
  else if negb (kn_id distinct =? kn_id first) then
    {| mv_distinct := distinct; mv_new := mv_new mv; mv_old := Some (node_entry first) |}
  else if negb (kn_ptr distinct =? kn_ptr first) then
    {| mv_distinct := first; mv_new := Some (node_entry distinct); mv_old := mv_old mv |}
  else mv.

(** At the end of a key: the entry to add, and the one whose block is given up. *)
Definition merge_emit (mv : merge_vars) : option entry * option entry :=
  let distinct := mv_distinct mv in
  let '(new, negative) :=
    if negative_record (kn_val distinct) then (mv_new mv, Some (node_entry distinct))
    else (Some (node_entry distinct), None) in
  (new, match negative with Some _ => None | None => mv_old mv end).

(** The rounds for the entries the heap hands out, one action at the end of
    each key. *)
Fixpoint merge_actions (mv : merge_vars) (firsts : list kway_merge_node) : list (option entry * option entry) :=
  match firsts with
  | [] => [merge_emit mv]
  | first :: firsts =>
      if kn_key (mv_distinct mv) =? kn_key first then merge_actions (merge_same mv first) firsts
      else merge_emit mv :: merge_actions (start_key first) firsts
  end.

Definition added (acts : list (option entry * option entry)) : list entry := omap fst acts.
Definition given_up (acts : list (option entry * option entry)) : list entry := omap snd acts.

(** ** Which record wins *)

(** The first record of [k] in the newest file that has one. *)
Definition kept (P : list kway_merge_node) (k : Z) (r : record) : Prop :=
  exists l1 n l2, P = l1 ++ n :: l2 /\ kn_key n = k /\ kn_val n = r /\
    (forall m, m ∈ l1 -> kn_key m = k -> kn_version m < kn_version n) /\
    (forall m, m ∈ l2 -> kn_key m = k -> kn_version m <= kn_version n).

(** A record of [k] that a newer file has overwritten. *)
Definition superseded (P : list kway_merge_node) (e : entry) : Prop :=
  exists m n, m ∈ P /\ n ∈ P /\ node_entry m = e /\ kn_key n = e.1 /\ kn_version m < kn_version n.

(** Files are told apart by id as by version; a key that a file holds twice is
    a record and a negative record, in this order, and no newer file has it. *)
Record runs_ok (P : list kway_merge_node) : Prop := {
  ro_files : forall m n, m ∈ P -> n ∈ P -> kn_id m = kn_id n <-> kn_version m = kn_version n;
  ro_twice : forall l1 m l2 n l3, P = l1 ++ m :: l2 ++ n :: l3 -> kn_key m = kn_key n -> kn_version m = kn_version n ->
    kn_ptr m <> kn_ptr n /\ negative_record (kn_val m) = false /\ negative_record (kn_val n) = true /\
    forall x, x ∈ P -> kn_key x = kn_key m -> kn_version x <= kn_version m
}.

Lemma runs_ok_app_r P1 P2 : runs_ok (P1 ++ P2) -> runs_ok P2.
Proof.
  intros [Hf Ht]. split.
  - intros m n Hm Hn. apply Hf; apply elem_of_app; by right.
  - intros l1 m l2 n l3 -> Hk Hv. destruct (Ht (P1 ++ l1) m l2 n l3) as (? & ? & ? & Hmax); [by rewrite <- app_assoc|done..|].
    split; [done|]. split; [done|]. split; [done|]. intros x Hx. apply Hmax. apply elem_of_app. by right.
Qed.

(** ** One key *)

(** What the variables say after the entries [p] of the key [k]. *)
Record key_inv (p : list kway_merge_node) (k : Z) (mv : merge_vars) : Prop := {
  ki_keys : Forall (fun n => kn_key n = k) p;
  ki_distinct : mv_distinct mv ∈ p;
  ki_max : forall m, m ∈ p -> kn_version m <= kn_version (mv_distinct mv);
  ki_kept : match mv_new mv with
    | None => exists l1 l2, p = l1 ++ mv_distinct mv :: l2 /\
        Forall (fun m => kn_version m < kn_version (mv_distinct mv)) (l1 ++ l2)
    | Some e => exists l1 n l2 l3, p = l1 ++ n :: l2 ++ mv_distinct mv :: l3 /\ node_entry n = e /\
        kn_version n = kn_version (mv_distinct mv) /\ Forall (fun m => kn_version m < kn_version n) l1
    end;
  ki_old : forall e, mv_old mv = Some e -> superseded p e
}.

Lemma key_inv_start n : key_inv [n] (kn_key n) (start_key n).
Proof.
  split; cbn; [by repeat constructor|by left| | |done].
  - intros m Hm. apply list_elem_of_singleton in Hm as ->. lia.
  - exists [], []. split; [done|constructor].
Qed.

Lemma superseded_mono p q e : (forall x, x ∈ p -> x ∈ q) -> superseded p e -> superseded q e.
Proof. intros Hsub (m & n & Hm & Hn & Hrest). exists m, n. split; [by apply Hsub|]. split; [by apply Hsub|done]. Qed.

Lemma key_inv_step p k mv n rest : runs_ok (p ++ n :: rest) -> key_inv p k mv -> kn_key n = k ->
  key_inv (p ++ [n]) k (merge_same mv n).
Proof.
  intros Hruns [Hkeys Hd Hmax Hkept Hold] Hk. pose proof Hruns as [Hfiles Htwice]. set (d := mv_distinct mv) in *.
  assert (kn_key d = k) as Hkd by (rewrite Forall_forall in Hkeys; by apply Hkeys).
  assert (d ∈ p ++ n :: rest) as HdP by (apply elem_of_app; by left).
  assert (n ∈ p ++ n :: rest) as HnP by (apply elem_of_app; right; by left).
  assert (forall x, x ∈ p -> x ∈ p ++ [n]) as Hsub by (intros x Hx; apply elem_of_app; by left).
  assert (Forall (fun x => kn_key x = k) (p ++ [n])) as Hkeys' by (apply Forall_app; split; [done|by repeat constructor]).
  assert (forall x, x ∈ p ++ [n] -> x ∈ p \/ x = n) as Hcase by (intros x [Hx|Hx%list_elem_of_singleton]%elem_of_app; tauto).
  unfold merge_same. fold d. destruct (Z.ltb_spec (kn_version d) (kn_version n)) as [Hlt|Hge].
  { split; cbn [mv_distinct mv_new mv_old]; [done|apply elem_of_app; right; by left| | |].
    - intros x [Hx|Hx]%Hcase; [pose proof (Hmax x Hx)|subst x]; lia.
    - destruct (mv_new mv) as [e|].
      + destruct Hkept as (l1 & m & l2 & l3 & Hp & _ & Hv & _). exfalso.
        destruct (Htwice l1 m l2 d (l3 ++ n :: rest)) as (_ & _ & _ & Hm); [by rewrite Hp, <- app_assoc; cbn; rewrite <- app_assoc| |done|].
        { rewrite Hkd. rewrite Forall_forall in Hkeys. apply Hkeys. rewrite Hp. apply elem_of_app. right. by left. }
        specialize (Hm n HnP). rewrite Hk in Hm. rewrite Hv in Hm. rewrite Forall_forall in Hkeys.
        assert (kn_key m = k) as Hkm by (apply Hkeys; rewrite Hp; apply elem_of_app; right; by left). rewrite Hkm in Hm.
        specialize (Hm eq_refl). lia.
      + exists p, []. split; [done|]. rewrite app_nil_r. apply Forall_forall. intros x Hx. pose proof (Hmax x Hx). lia.
    - intros e [= <-]. exists d, n. split; [by apply Hsub|]. split; [apply elem_of_app; right; by left|]. cbn. by rewrite Hkd. }
  assert (forall x, x ∈ p ++ [n] -> kn_version x <= kn_version d) as Hmax' by (intros x [Hx|Hx]%Hcase; [by apply Hmax|by subst x]).
  destruct (Z.eqb_spec (kn_id d) (kn_id n)) as [Hid|Hid]; cbn [negb].
  - assert (kn_version d = kn_version n) as Hv by (by apply Hfiles).
    (* the same file again: a record and its negative record *)
    assert (exists l1 l2, p = l1 ++ d :: l2) as (a & b & Hsplit) by (by apply list_elem_of_split).
    destruct (Htwice a d b n rest) as (Hptr & Hpos & Hneg & _); [by rewrite Hsplit, <- app_assoc|congruence|done|].
    destruct (Z.eqb_spec (kn_ptr d) (kn_ptr n)); [done|]. cbn [negb].
    split; cbn [mv_distinct mv_new mv_old]; [done|apply elem_of_app; right; by left|by rewrite <- Hv| |].
    + destruct (mv_new mv) as [e|].
      * destruct Hkept as (l1 & m & l2 & l3 & Hp & _ & Hvm & _). exfalso.
        destruct (Htwice l1 m l2 d (l3 ++ n :: rest)) as (_ & _ & Hneg' & _); [by rewrite Hp, <- app_assoc; cbn; rewrite <- app_assoc| |done|congruence].
        rewrite Hkd. rewrite Forall_forall in Hkeys. apply Hkeys. rewrite Hp. apply elem_of_app. right. by left.
      * destruct Hkept as (l1 & l2 & Hp & Hall). apply Forall_app in Hall as [Hl1 _].
        exists l1, d, l2, []. split; [by rewrite Hp, <- app_assoc|]. split; [done|]. split; [done|]. done.
    + intros e He. by eapply superseded_mono, Hold.
  - assert (kn_version n < kn_version d) as Hlt.
    { destruct (Z.eq_dec (kn_version n) (kn_version d)) as [Heq|Hne]; [|lia]. destruct Hid. by apply Hfiles. }
    split; cbn [mv_distinct mv_new mv_old]; [done|by apply Hsub|done| |].
    + fold d. destruct (mv_new mv) as [e|].
      * destruct Hkept as (l1 & m & l2 & l3 & Hp & Hrest). exists l1, m, l2, (l3 ++ [n]).
        split; [by rewrite Hp, <- app_assoc; cbn; rewrite <- app_assoc|done].
      * destruct Hkept as (l1 & l2 & Hp & Hall). exists l1, (l2 ++ [n]). split; [by rewrite Hp, <- app_assoc|].
        rewrite app_assoc. apply Forall_app. split; [done|]. by repeat constructor.
    + intros e [= <-]. exists n, d. split; [apply elem_of_app; right; by left|]. split; [by apply Hsub|]. cbn. by rewrite Hk.
Qed.

(** ** One run of the loop *)

Lemma split_cases {A} (l1 : list A) : forall x l2 l1' x' l2', l1 ++ x :: l2 = l1' ++ x' :: l2' ->
  x = x' \/ (x ∈ l1' /\ x' ∈ l2) \/ (x' ∈ l1 /\ x ∈ l2').
Proof.
  induction l1 as [|y l1 IH]; intros x l2 [|y' l1'] x' l2' H; cbn in H; injection H as -> Hr.
  - by left.
  - right; left. rewrite Hr. split; [by left|]. apply elem_of_app. right. by left.
  - right; right. rewrite <- Hr. split; [by left|]. apply elem_of_app. right. by left.
  - destruct (IH x l2 l1' x' l2' Hr) as [|[[]|[]]]; [by left|right; left|right; right]; by split; [right|].
Qed.

Lemma kept_unique P k r r' : kept P k r -> kept P k r' -> r = r'.
Proof.
  intros (l1 & n & l2 & -> & Hk & <- & Hl & Hr) (l1' & n' & l2' & Heq & Hk' & <- & Hl' & Hr').
  destruct (split_cases _ _ _ _ _ _ Heq) as [->|[[H1 H2]|[H1 H2]]]; [done| |].
  - pose proof (Hl' n H1 Hk). pose proof (Hr n' H2 Hk'). lia.
  - pose proof (Hl n' H1 Hk'). pose proof (Hr' n H2 Hk). lia.
Qed.

Lemma kept_app p q k r : (forall n, n ∈ q -> kn_key n <> k) -> kept (p ++ q) k r <-> kept p k r.
Proof.
  intros Hq. split.
  - intros (l1 & n & l2 & Heq & Hk & <- & Hl & Hr). apply app_eq_app in Heq as (l & [[-> Heq]|[-> Heq]]).
    + destruct l as [|x l]; cbn in Heq.
      * destruct (Hq n); [rewrite <- Heq; by left|done].
      * injection Heq as <- ->. exists l1, n, l. split; [done|]. split; [done|]. split; [done|]. split; [done|].
        intros m Hm. apply Hr. apply elem_of_app. by left.
    + destruct (Hq n); [rewrite Heq; apply elem_of_app; right; by left|done].
  - intros (l1 & n & l2 & -> & Hk & <- & Hl & Hr). exists l1, n, (l2 ++ q). rewrite <- app_assoc.
    split; [done|]. split; [done|]. split; [done|]. split; [done|].
    intros m [Hm|Hm]%elem_of_app Hkm; [by apply Hr|by destruct (Hq m)].
Qed.

Lemma kept_app_skip p q k r : (forall n, n ∈ p -> kn_key n <> k) -> kept (p ++ q) k r <-> kept q k r.
Proof.
  intros Hp. split.
  - intros (l1 & n & l2 & Heq & Hk & <- & Hl & Hr). apply app_eq_app in Heq as (l & [[-> Heq]|[-> Heq]]).
    + destruct l as [|x l]; cbn in Heq.
      * exists [], n, l2. split; [done|]. split; [done|]. split; [done|]. split; [|done]. by intros m ?%not_elem_of_nil.
      * injection Heq as <- ->. destruct (Hp n); [apply elem_of_app; right; by left|done].
    + exists l, n, l2. split; [done|]. split; [done|]. split; [done|]. split; [|done].
      intros m Hm. apply Hl. apply elem_of_app. by right.
  - intros (l1 & n & l2 & -> & Hk & <- & Hl & Hr). exists (p ++ l1), n, l2. rewrite <- app_assoc.
    split; [done|]. split; [done|]. split; [done|]. split; [|done].
    intros m [Hm|Hm]%elem_of_app Hkm; [by destruct (Hp m)|by apply Hl].
Qed.

(** What is done at the end of the entries [p] of a key. *)
Lemma merge_emit_spec p k mv : runs_ok p -> key_inv p k mv ->
  (forall k' r, (merge_emit mv).1 = Some (k', r) <-> kept p k' r /\ negative_record r = false) /\
  (forall e, (merge_emit mv).2 = Some e -> superseded p e).
Proof.
  intros [Hfiles Htwice] [Hkeys Hd Hmax Hkept Hold]. rewrite Forall_forall in Hkeys.
  assert (exists n, kept p k (kn_val n) /\ kn_key n = k /\
    (merge_emit mv).1 = if negative_record (kn_val n) then None else Some (node_entry n)) as (n & Hn & Hk & Hemit).
  { unfold merge_emit. destruct (mv_new mv) as [e|].
    - destruct Hkept as (l1 & n & l2 & l3 & Hp & <- & Hv & Hl).
      assert (kn_key n = k) as Hkn by (apply Hkeys; rewrite Hp; apply elem_of_app; right; by left).
      destruct (Htwice l1 n l2 (mv_distinct mv) l3 Hp) as (_ & Hpos & Hneg & _); [by rewrite Hkn, (Hkeys _ Hd)|done|].
      exists n. rewrite Hneg, Hpos. split; [|done]. exists l1, n, (l2 ++ mv_distinct mv :: l3). split; [done|]. split; [done|].
      split; [done|]. rewrite Forall_forall in Hl. split; [intros m Hm _; by apply Hl|].
      intros m Hm _. rewrite Hv. apply Hmax. rewrite Hp. apply elem_of_app. right. by right.
    - destruct Hkept as (l1 & l2 & Hp & Hall). exists (mv_distinct mv). rewrite Forall_forall in Hall.
      split; [|split; [by apply Hkeys|by destruct (negative_record _)]].
      exists l1, (mv_distinct mv), l2. split; [done|]. split; [by apply Hkeys|]. split; [done|]. split.
      + intros m Hm _. apply Hall. apply elem_of_app. by left.
      + intros m Hm _. assert (m ∈ l1 ++ l2) as Hin by (apply elem_of_app; by right). specialize (Hall m Hin). lia. }
  split.
  - intros k' r. rewrite Hemit. split.
    + destruct (negative_record (kn_val n)) eqn:Hneg; [done|]. unfold node_entry. intros [= <- <-]. by rewrite Hk.
    + intros [Hkept' Hpos]. assert (k' = k) as ->.
      { destruct Hkept' as (l1 & m & l2 & -> & <- & _). apply Hkeys. apply elem_of_app. right. by left. }
      pose proof (kept_unique _ _ _ _ Hkept' Hn) as ->. rewrite Hpos. unfold node_entry. by rewrite Hk.
  - intros e. unfold merge_emit. destruct (negative_record (kn_val (mv_distinct mv))); cbn; [done|apply Hold].
Qed.

Lemma runs_ok_app_l P1 P2 : runs_ok (P1 ++ P2) -> runs_ok P1.
Proof.
  intros [Hf Ht]. split.
  - intros m n Hm Hn. apply Hf; apply elem_of_app; by left.
  - intros l1 m l2 n l3 -> Hk Hv. destruct (Ht l1 m l2 n (l3 ++ P2)) as (? & ? & ? & Hmax).
    { repeat (rewrite <- app_assoc; cbn). done. } { done. } { done. }
    split; [done|]. split; [done|]. split; [done|]. intros x Hx. apply Hmax. apply elem_of_app. by left.
Qed.

Definition merged (P : list kway_merge_node) (acts : list (option entry * option entry)) : Prop :=
  StronglySorted Z.lt (fst <$> added acts) /\
  (forall k r, (k, r) ∈ added acts <-> kept P k r /\ negative_record r = false) /\
  (forall e, e ∈ given_up acts -> superseded P e).

Lemma added_cons a acts : added (a :: acts) = option_list (fst a) ++ added acts.
Proof. unfold added. cbn. by destruct a as [[e|] g]. Qed.
Lemma given_up_cons a acts : given_up (a :: acts) = option_list (snd a) ++ given_up acts.
Proof. unfold given_up. cbn. by destruct a as [e [g|]]. Qed.

Lemma elem_of_option_list {A} (x : A) o : x ∈ option_list o <-> o = Some x.
Proof. destruct o as [y|]; cbn; [rewrite list_elem_of_singleton; split; congruence|split; [by intros ?%elem_of_nil|done]]. Qed.

Lemma kept_key_in P k r : kept P k r -> exists n, n ∈ P /\ kn_key n = k.
Proof. intros (l1 & n & l2 & -> & Hk & _). exists n. split; [|done]. apply elem_of_app. right. by left. Qed.

Lemma merged_cons p q k mv acts : runs_ok p -> key_inv p k mv ->
  (forall n, n ∈ q -> k < kn_key n) -> merged q acts -> merged (p ++ q) (merge_emit mv :: acts).
Proof.
  intros Hruns Hinv Hq (Hsorted & Hin & Hsup). pose proof (merge_emit_spec p k mv Hruns Hinv) as [Hadd Hgive].
  destruct Hinv as [Hkeys _ _ _ _]. rewrite Forall_forall in Hkeys.
  assert (forall k' r, (k', r) ∈ added acts -> k < k') as Hlater.
  { intros k' r Hk'. apply Hin in Hk' as [Hk' _]. apply kept_key_in in Hk' as (n & Hn & <-). by apply Hq. }
  split; [|split].
  - rewrite added_cons. destruct (merge_emit mv).1 as [[k' r]|] eqn:He; cbn; [|done]. constructor; [done|].
    pose proof (proj1 (Hadd k' r) eq_refl) as [Hk' _]. apply kept_key_in in Hk' as (n & Hn & <-). rewrite (Hkeys n Hn).
    apply Forall_forall. intros k'' Hk''. apply list_elem_of_fmap in Hk'' as ([k3 r3] & -> & Hk3). by eapply Hlater.
  - intros k' r. rewrite added_cons, elem_of_app, elem_of_option_list, Hadd, Hin.
    destruct (Z.eq_dec k' k) as [->|Hne].
    + assert (kept (p ++ q) k r <-> kept p k r) as -> by (apply kept_app; intros n Hn ?; specialize (Hq n Hn); lia).
      split; [intros [|[Hk _]]; [done|]|by left]. apply kept_key_in in Hk as (n & Hn & Hk). specialize (Hq n Hn). lia.
    + assert (kept (p ++ q) k' r <-> kept q k' r) as -> by (apply kept_app_skip; intros n Hn ?; destruct Hne; rewrite <- (Hkeys n Hn); done).
      split; [intros [[Hk _]|]; [|done]|by right]. apply kept_key_in in Hk as (n & Hn & Hk). destruct Hne. rewrite <- Hk. by apply Hkeys.
  - intros e. rewrite given_up_cons, elem_of_app, elem_of_option_list. intros [He|He].
    + eapply superseded_mono, Hgive, He. intros x Hx. apply elem_of_app. by left.
    + eapply superseded_mono, Hsup, He. intros x Hx. apply elem_of_app. by right.
Qed.

Lemma merged_single p k mv : runs_ok p -> key_inv p k mv -> merged p [merge_emit mv].
Proof.
  intros Hruns Hinv. rewrite <- (app_nil_r p). eapply merged_cons; [done..|by intros n ?%elem_of_nil|].
  split; [constructor|]. split; [|by intros e ?%elem_of_nil].
  intros k' r. split; [by intros ?%elem_of_nil|]. intros [Hk _]. apply kept_key_in in Hk as (n & Hn & _). by apply elem_of_nil in Hn.
Qed.

Lemma merge_actions_merged ns : forall p k mv, runs_ok (p ++ ns) -> key_inv p k mv ->
  StronglySorted Z.le (k :: (kn_key <$> ns)) -> merged (p ++ ns) (merge_actions mv ns).
Proof.
  induction ns as [|n ns IH]; intros p k mv Hruns Hinv Hsorted; cbn [merge_actions].
  { rewrite app_nil_r in Hruns |- *. by eapply merged_single. }
  assert (kn_key (mv_distinct mv) = k) as -> by (destruct Hinv as [Hkeys Hd _ _ _]; rewrite Forall_forall in Hkeys; by apply Hkeys).
  apply StronglySorted_inv in Hsorted as [Hsorted Hk]. cbn in Hk. inversion Hk as [|? ? Hkn Hkns]; subst.
  destruct (Z.eqb_spec k (kn_key n)) as [Heq|Hne].
  - rewrite (cons_middle n p ns), app_assoc. apply (IH _ k).
    + by rewrite <- app_assoc.
    + by eapply key_inv_step.
    + by rewrite Heq.
  - apply (merged_cons p (n :: ns) k).
    + by apply runs_ok_app_l in Hruns.
    + done.
    + intros m [->|Hm]%elem_of_cons; [lia|]. apply StronglySorted_inv in Hsorted as [_ Hall].
      rewrite Forall_forall in Hall. pose proof (Hall (kn_key m) (list_elem_of_fmap_2 _ _ _ Hm)). lia.
    + apply (IH [n] (kn_key n)); [by apply runs_ok_app_r in Hruns|apply key_inv_start|exact Hsorted].
Qed.

(** At most one action per entry. *)
Lemma merge_actions_length ns : forall mv, (length (merge_actions mv ns) <= S (length ns))%nat.
Proof.
  induction ns as [|n ns IH]; intros mv; cbn [merge_actions length]; [lia|].
  destruct (_ =? _); [specialize (IH (merge_same mv n))|specialize (IH (start_key n)); cbn [length]]; lia.
Qed.

Lemma added_length acts : (length (added acts) <= length acts)%nat.
Proof. unfold added. induction acts as [|[[e|] g] acts IH]; cbn; lia. Qed.

Lemma merge_actions_nonempty ns : forall mv, merge_actions mv ns <> [].
Proof. induction ns as [|n ns IH]; intros mv; cbn [merge_actions]; [done|]. destruct (_ =? _); [apply IH|done]. Qed.

(** The last key is written out when its winning record is not negative. *)
Lemma merge_actions_last ns : forall p k mv, runs_ok (p ++ ns) -> key_inv p k mv -> StronglySorted Z.le (k :: (kn_key <$> ns)) ->
  forall acts a k' r, merge_actions mv ns = acts ++ [a] -> kept (p ++ ns) k' r -> negative_record r = false ->
  (forall n, n ∈ p ++ ns -> kn_key n <= k') -> a.1 <> None.
Proof.
  induction ns as [|n ns IH]; intros p k mv Hruns Hinv Hsorted acts a k' r; cbn [merge_actions].
  { rewrite app_nil_r in *. intros Heq Hkept Hpos Hmax. destruct acts as [|x acts]; [|by destruct acts]. injection Heq as <-.
    destruct (merge_emit_spec p k mv Hruns Hinv) as [Hadd _]. pose proof (proj2 (Hadd k' r) (conj Hkept Hpos)) as ->. done. }
  assert (kn_key (mv_distinct mv) = k) as -> by (destruct Hinv as [Hkeys Hd _ _ _]; rewrite Forall_forall in Hkeys; by apply Hkeys).
  apply StronglySorted_inv in Hsorted as [Hsorted Hk]. cbn in Hk. inversion Hk as [|? ? Hkn Hkns]; subst.
  intros Heq Hkept Hpos Hmax. destruct (Z.eqb_spec k (kn_key n)) as [He|Hne].
  - rewrite (cons_middle n p ns), app_assoc in *. eapply (IH (p ++ [n]) k (merge_same mv n)); [done| |by rewrite He|done..].
    rewrite <- app_assoc in Hruns. by eapply key_inv_step.
  - assert (forall m, m ∈ p -> kn_key m = k) as Hp by (destruct Hinv as [Hkeys _ _ _ _]; by rewrite Forall_forall in Hkeys).
    assert (kn_key n <= k') by (apply Hmax; apply elem_of_app; right; by left).
    destruct acts as [|x acts]; [injection Heq as _ Heq; by apply merge_actions_nonempty in Heq|].
    injection Heq as _ Heq. eapply (IH [n] (kn_key n) (start_key n)).
    + by apply runs_ok_app_r in Hruns.
    + apply key_inv_start.
    + exact Hsorted.
    + exact Heq.
    + apply kept_app_skip in Hkept; [exact Hkept|]. intros m Hm. rewrite (Hp m Hm). lia.
    + done.
    + intros m Hm. apply Hmax. apply elem_of_app. by right.
Qed.

(** The loop starts from the first entry, which it sees again when it is handed
    out. *)
Lemma merge_actions_start n ns : merge_actions (start_key n) (n :: ns) = merge_actions (start_key n) ns.
Proof. cbn [merge_actions mv_distinct start_key]. rewrite Z.eqb_refl. unfold merge_same. cbn. by rewrite Z.ltb_irrefl, !Z.eqb_refl. Qed.

Lemma merge_loop_merged n ns : runs_ok (n :: ns) -> StronglySorted Z.le (kn_key <$> n :: ns) ->
  merged (n :: ns) (merge_actions (start_key n) (n :: ns)).
Proof. intros Hruns Hsort. rewrite merge_actions_start. by apply (merge_actions_merged ns [n] (kn_key n)); [|apply key_inv_start|]. Qed.


(** ** A heap: a sorted list *)

Section sorted_list_heap.
Context {A : Type} (less : A -> A -> bool).

Fixpoint insert_sorted (x : A) (l : list A) : list A :=
  match l with
  | [] => [x]
  | y :: l => if less y x then y :: insert_sorted x l else x :: y :: l
  end.

Lemma insert_sorted_perm x l : insert_sorted x l ≡ₚ x :: l.
Proof. induction l as [|y l IH]; cbn; [done|]. destruct (less y x); [|done]. rewrite IH. apply Permutation_swap. Qed.
End sorted_list_heap.

#[export] Instance list_heap : MinHeap := {|
  min_heap_push A less size l x := if (length l <? size)%nat then insert_sorted less x l else l;
  min_heap_pop A less l := tail l
|}.

#[export] Instance list_heap_spec : MinHeapSpec.
Proof.
  refine {| is_heap A less l := StronglySorted (fun x y => less y x = false) l |}.
  - constructor.
  - intros A less x l y Hs Hy. apply StronglySorted_inv in Hs as [_ Hs]. rewrite Forall_forall in Hs. by apply Hs.
  - intros A rank size l x less Hs Hsize. cbn [min_heap_push list_heap].
    destruct (Nat.ltb_spec (length l) size); [|lia]. split; [|apply insert_sorted_perm].
    induction Hs as [|y l Hs IH Hall]; cbn [insert_sorted]; [by repeat constructor|]. cbn [length] in *.
    unfold less at 2. destruct (Z.ltb_spec (rank y) (rank x)) as [Hlt|Hge].
    + constructor; [apply IH; lia|]. rewrite insert_sorted_perm. constructor; [|done]. unfold less. apply Z.ltb_ge. lia.
    + constructor; [by constructor|]. constructor; [unfold less; by apply Z.ltb_ge|].
      eapply Forall_impl; [exact Hall|]. cbn. unfold less. intros z Hz%Z.ltb_ge. apply Z.ltb_ge. lia.
  - intros A rank x l less Hs. apply StronglySorted_inv in Hs as [Hs _]. split; [exact Hs|]. reflexivity.
Defined.

(** ** A concrete merge

    Key 5 is in files 1 and 2, key 7 only in file 1, as a record and a negative
    record, key 9 was removed. *)
Definition example_nodes : list kway_merge_node :=
  let node iter id version key pba ptr :=
    {| kn_iter := iter; kn_id := id; kn_version := version; kn_key := key;
       kn_val := {| pba := pba; Memtable.mac := []; Memtable.key := [] |}; kn_ptr := ptr |} in
  [ node 0%nat 0 1 5 100 0; node 1%nat 3 2 5 200 1; node 1%nat 3 2 7 300 2; node 1%nat 3 2 7 INF_ADDR 3;
    node 0%nat 0 1 9 INF_ADDR 4 ].

Example example_merge :
  let acts := merge_actions (start_key (hd (KwayMergeNode 0 0 0 0 negative 0) example_nodes)) example_nodes in
  (fun e : entry => (e.1, pba e.2)) <$> added acts = [(5, 200); (7, 300)] /\ (fun e : entry => (e.1, pba e.2)) <$> given_up acts = [(5, 100)].
Proof. vm_compute. split; reflexivity. Qed.

(** [runs_ok] of a concrete list, by its positions. *)
Definition runs_okb (P : list kway_merge_node) : bool :=
  forallb (fun m => forallb (fun n => Bool.eqb (kn_id m =? kn_id n) (kn_version m =? kn_version n)) P) P &&
  forallb (fun i => forallb (fun j =>
    match P !! i, P !! j with
    | Some m, Some n =>
        if (i <? j)%nat && (kn_key m =? kn_key n) && (kn_version m =? kn_version n) then
          negb (kn_ptr m =? kn_ptr n) && negb (negative_record (kn_val m)) && negative_record (kn_val n) &&
          forallb (fun x => negb (kn_key x =? kn_key m) || (kn_version x <=? kn_version m)) P
        else true
    | _, _ => true
    end) (seq 0 (length P))) (seq 0 (length P)).

Lemma runs_okb_ok P : runs_okb P = true -> runs_ok P.
Proof.
  unfold runs_okb. intros [Hf Ht]%andb_true_iff. rewrite forallb_forall in Hf, Ht. split.
  - intros m n Hm%list_elem_of_In Hn%list_elem_of_In. specialize (Hf m Hm). rewrite forallb_forall in Hf.
    specialize (Hf n Hn). apply Bool.eqb_prop in Hf. rewrite <- !Z.eqb_eq, Hf. done.
  - intros l1 m l2 n l3 HP Hk Hv.
    assert (P !! length l1 = Some m) as Hi by (rewrite HP; apply list_lookup_middle; lia).
    assert (P !! (length l1 + S (length l2))%nat = Some n) as Hj.
    { rewrite HP, cons_middle, !app_assoc, list_lookup_middle; [done|]. rewrite !length_app. cbn. lia. }
    specialize (Ht (length l1)). rewrite forallb_forall in Ht.
    specialize (Ht ltac:(apply in_seq; apply lookup_lt_Some in Hi; lia) (length l1 + S (length l2))%nat
      ltac:(apply in_seq; apply lookup_lt_Some in Hj; lia)).
    rewrite Hi, Hj, Hk, Hv, !Z.eqb_refl in Ht. destruct (Nat.ltb_spec (length l1) (length l1 + S (length l2))); [|lia]. cbn [andb] in Ht.
    apply andb_true_iff in Ht as [[[Hp%negb_true_iff Hpos%negb_true_iff]%andb_true_iff Hneg]%andb_true_iff Hmax].
    rewrite forallb_forall in Hmax. apply Z.eqb_neq in Hp. split; [done|]. split; [done|]. split; [done|].
    intros x Hx%list_elem_of_In Hkx. specialize (Hmax x Hx). rewrite Hkx, Hk, Z.eqb_refl in Hmax. cbn in Hmax. rewrite Hv. by apply Z.leb_le in Hmax.
Qed.

