(* ===== verification/MergeSource.v ===== *)
(** * MergeSource: iterators below a heap

    The input side of [compaction_job_run] in [kernel-module/c/src/lsm_tree.c]:
    an iterator per file, the heap that holds the next entry of each, and the
    order in which entries are handed out. The [struct file *] that all files
    share is an explicit value: [at_file] looks at a file through its present
    state. [None] stands for an access the code does not guard against. *)
From S2P Require Import Prelude Layout Bytes RbTree Memtable Metadata Crypto Cache BitFile BitNode BitBuilder BitLevel Merge.

Section merge_source.
Context `{CryptoApiSpec} `{FileIOSpec} `{LeafCacheSpec bit_leaf} `{MinHeapSpec}.

(** Files whose nodes are in the backing file. *)
Abbreviation disk_file := (bit_file (H := file_nodes)).
Abbreviation disk_iterator := (bit_iterator (H := file_nodes)).

Definition file_key (f : disk_file) : list Z := (bf_file f : kfile * list Z).2.
Definition at_file (file : kfile) (f : disk_file) : disk_file := with_store f (file, file_key f).

(** ** The iterators and the heap *)

(** [iters] in list order, the heap, and the number of records allocated so
    far: [next] allocates one each time. *)
Record merge_source : Type := MergeSource {
  ms_iters : list disk_iterator;
  ms_heap : list kway_merge_node;
  ms_next : Z
}.

(** [iter->next] through the present backing file. *)
Definition next_at (file : kfile) (it : disk_iterator) : disk_iterator * result (Z * record) :=
  bit_iterator_next {| bi_file := at_file file (bi_file it); bi_leaf := bi_leaf it; bi_cur_record := bi_cur_record it;
                       bi_count := bi_count it; bi_has_next := bi_has_next it |}.

(** [if (iter->has_next(iter)) ... min_heap_push(...)]. The result of [next] is
    not looked at: after an error the entry is not one of this iterator. *)
Definition pull (file : kfile) (i : nat) (src : merge_source) : option merge_source :=
  match ms_iters src !! i with
  | None => None
  | Some it =>
      if bit_iterator_has_next it then
        match next_at file it with
        | (it', Ok (k, r)) =>
            let node := {| kn_iter := i; kn_id := bf_id (bi_file it); kn_version := bf_version (bi_file it);
                           kn_key := k; kn_val := r; kn_ptr := ms_next src |} in
            Some {| ms_iters := <[i := it']> (ms_iters src);
                    ms_heap := min_heap_push kway_merge_node_less (length (ms_iters src)) (ms_heap src) node;
                    ms_next := ms_next src + 1 |}
        | (_, Err _) => None
        end
      else Some src
  end.

Fixpoint pull_all (file : kfile) (n : nat) (src : merge_source) : option merge_source :=
  match n with
  | O => Some src
  | S n => match pull_all file n src with Some src => pull file n src | None => None end
  end.

(** [list_add(&file->iterator(file)->node, &iters)]: each goes to the front. A
    file whose first leaf cannot be read has no iterator. *)
Fixpoint open_iterators (file : kfile) (files : list disk_file) (iters : list disk_iterator) : option (list disk_iterator) :=
  match files with
  | [] => Some iters
  | f :: files =>
      match bit_iterator_init (at_file file f) with
      | Ok it => open_iterators file files (it :: iters)
      | Err _ => None
      end
  end.

Definition open_source (file : kfile) (demoted relatives : list disk_file) : option merge_source :=
  match open_iterators file (demoted ++ relatives) [] with
  | None => None
  | Some iters => pull_all file (length iters) {| ms_iters := iters; ms_heap := []; ms_next := 0 |}
  end.

(** The top of the heap goes, the next entry of its iterator comes. *)
Definition source_next (file : kfile) (first : kway_merge_node) (src : merge_source) : option merge_source :=
  pull file (kn_iter first)
    {| ms_iters := ms_iters src; ms_heap := min_heap_pop kway_merge_node_less (ms_heap src); ms_next := ms_next src |}.

(** ** What the source holds *)

Lemma at_file_twice file file' f : at_file file (at_file file' f) = at_file file f.
Proof. done. Qed.

Section inputs.
(** The files with their leaves, in the order of the iterators. *)
Context (fs : list (disk_file * list (list bit_leaf))).

Definition file_entries (fg : disk_file * list (list bit_leaf)) : list entry := leaves_entries (concat fg.2).

(** The files can be read in the present state of the backing file. *)
Definition readable (file : kfile) : Prop :=
  Forall (fun fg => file_wf (at_file file fg.1) fg.2 /\ file_scannable (at_file file fg.1) fg.2) fs.

(** An iterator of [f] whose remaining entries, those in the heap included, are
    [c]; [ex] says which iterators may lack their node in the heap. *)
Definition iter_of (heap : list kway_merge_node) (ex : nat -> Prop) (i : nat) (f : disk_file) (g : list (list bit_leaf))
    (it : disk_iterator) (c : list entry) : Prop :=
  (forall file, at_file file (bi_file it) = at_file file f) /\
  (((forall n, n ∈ heap -> kn_iter n <> i) /\ iter_ok g it c /\ (c = [] \/ ex i)) \/
   (exists n rest, n ∈ heap /\ kn_iter n = i /\ c = node_entry n :: rest /\ kn_id n = bf_id f /\
      kn_version n = bf_version f /\ iter_ok g it rest)).

(** [Q] are the nodes handed out so far. *)
Record src_ok (ex : nat -> Prop) (Q : list kway_merge_node) (src : merge_source) (chains : list (list entry)) : Prop := {
  so_len : length (ms_iters src) = length fs /\ length chains = length fs;
  so_chain : forall i f g c it, fs !! i = Some (f, g) -> chains !! i = Some c -> ms_iters src !! i = Some it ->
    iter_of (ms_heap src) ex i f g it c;
  so_heap : is_heap kway_merge_node_less (ms_heap src);
  so_iters : NoDup (kn_iter <$> ms_heap src);
  so_range : forall n, n ∈ ms_heap src -> (kn_iter n < length fs)%nat;
  so_ptrs : NoDup (kn_ptr <$> Q ++ ms_heap src);
  so_next : forall n, n ∈ Q ++ ms_heap src -> kn_ptr n < ms_next src
}.

Lemma nodes_fit (l : list nat) (i n : nat) : NoDup l -> (forall x, x ∈ l -> (x < n)%nat) -> (i < n)%nat -> ~ i ∈ l -> (length l < n)%nat.
Proof.
  intros Hn Hr Hi Hni. assert (length (i :: l) <= length (seq 0 n))%nat as Hlen; [|rewrite length_seq in Hlen; cbn in Hlen; lia].
  apply NoDup_incl_length; [by apply NoDup_ListNoDup, NoDup_cons|].
  intros x Hx. apply in_seq. destruct Hx as [<-|Hx]; [lia|]. apply list_elem_of_In, Hr in Hx. lia.
Qed.

Lemma iter_of_other heap heap' ex ex' i f g it c :
  (forall n, kn_iter n = i -> n ∈ heap <-> n ∈ heap') -> (ex i -> ex' i) -> iter_of heap ex i f g it c -> iter_of heap' ex' i f g it c.
Proof.
  intros Hh Hex [Hf [(Hn & Hit & Hc)|(n & rest & Hn & Hi & Hrest)]]; (split; [done|]).
  - left. split; [intros n Hn' Hi; apply (Hn n); [by apply Hh|done]|]. split; [exact Hit|].
    destruct Hc as [Hc|Hc]; [by left|right; by apply Hex].
  - right. exists n, rest. split; [by apply Hh|done].
Qed.

(** The next entry of iterator [i] goes to the heap. *)
Lemma pull_ok file ex Q src chains i : readable file -> (i < length fs)%nat -> (forall n, n ∈ ms_heap src -> kn_iter n <> i) ->
  src_ok (fun j => ex j \/ j = i) Q src chains ->
  exists src', pull file i src = Some src' /\ src_ok (fun j => ex j /\ j <> i) Q src' chains /\
    forall n, n ∈ ms_heap src' -> n ∈ ms_heap src \/ kn_iter n = i.
Proof.
  intros Hread Hi Hno [[Hl1 Hl2] Hchain Hheap Hits Hrange Hptrs Hnext].
  destruct (lookup_lt_is_Some_2 fs i Hi) as [[f g] Hf].
  destruct (lookup_lt_is_Some_2 (ms_iters src) i ltac:(lia)) as [it Hit].
  destruct (lookup_lt_is_Some_2 chains i ltac:(lia)) as [c Hc].
  destruct (Hchain i f g c it Hf Hc Hit) as [Hfile Hor]. unfold pull. rewrite Hit.
  destruct Hor as [(_ & Hok & _)|(n & rest & Hn & Hni & _)]; [|by destruct (Hno n)].
  rewrite (iter_has_next g it c Hok). destruct c as [|[k r] rest].
  { exists src. split; [done|]. split; [|by left]. split; try done. intros j f' g' c' it' Hf' Hc' Hit'. specialize (Hchain j f' g' c' it' Hf' Hc' Hit').
    destruct (Nat.eq_dec j i) as [->|Hne].
    - simplify_eq. split; [done|]. left. split; [done|]. split; [done|]. by left.
    - eapply iter_of_other; [|..|exact Hchain]; [done|cbn; tauto]. }
  unfold readable in Hread. rewrite Forall_lookup in Hread. destruct (Hread _ _ Hf) as [Hwf Hscan]. cbn [fst snd] in Hwf, Hscan.
  set (it0 := {| bi_file := at_file file (bi_file it); bi_leaf := bi_leaf it; bi_cur_record := bi_cur_record it;
                 bi_count := bi_count it; bi_has_next := bi_has_next it |}).
  destruct (iter_step (at_file file f) g it0 (k, r) rest Hwf Hscan (Hfile file) Hok) as (it' & Hstep & Hf' & Hok').
  unfold next_at. fold it0. rewrite Hstep. eexists. split; [reflexivity|].
  set (node := {| kn_iter := i; kn_id := bf_id (bi_file it); kn_version := bf_version (bi_file it); kn_key := k; kn_val := r; kn_ptr := ms_next src |}).
  assert (~ i ∈ kn_iter <$> ms_heap src) as Hni.
  { intros Hin. apply list_elem_of_fmap in Hin as (n & -> & Hn). by apply (Hno n). }
  destruct (min_heap_push_spec kn_key (length (ms_iters src)) (ms_heap src) node) as [Hheap' Hperm]; [exact Hheap| |].
  { rewrite <- (length_fmap kn_iter). rewrite Hl1. apply (nodes_fit _ i); [done| |done|done].
    intros x Hx. apply list_elem_of_fmap in Hx as (n & -> & Hn). by apply Hrange. }
  change (fun a b => kn_key a <? kn_key b) with kway_merge_node_less in Hheap', Hperm.
  split; [|intros n; cbn [ms_heap]; rewrite Hperm, elem_of_cons; intros [->|?]; [by right|by left]].
  split; cbn [ms_iters ms_heap ms_next]; [by rewrite length_insert| |exact Hheap'|..].
  - intros j f2 g2 c2 it2 Hf2 Hc2 Hit2. destruct (Nat.eq_dec j i) as [->|Hne].
    + rewrite list_lookup_insert_eq in Hit2 by lia. simplify_eq. split; [intros file'; by rewrite Hf', at_file_twice|].
      right. exists node, rest. rewrite Hperm. split; [by left|]. split; [done|]. split; [done|].
      split; [exact (f_equal bf_id (Hfile file))|]. split; [exact (f_equal bf_version (Hfile file))|done].
    + rewrite list_lookup_insert_ne in Hit2 by done. eapply iter_of_other; [| |by eapply Hchain]; [|cbn; tauto].
      intros n Hn. rewrite Hperm, elem_of_cons. split; [tauto|]. intros [->|?]; [|done]. cbn in Hn. congruence.
  - rewrite Hperm. cbn. by apply NoDup_cons.
  - intros n. rewrite Hperm, elem_of_cons. intros [->|Hn]; [done|by apply Hrange].
  - rewrite Hperm, <- Permutation_middle. cbn. apply NoDup_cons. split; [|done]. intros Hin.
    apply list_elem_of_fmap in Hin as (n & Hp & Hn). specialize (Hnext n Hn). lia.
  - intros n. rewrite Hperm, <- Permutation_middle, elem_of_cons. intros [->|Hn]; [cbn; lia|]. specialize (Hnext n Hn). lia.
Qed.

Lemma src_ok_ex ex ex' Q src chains : (forall i, ex i -> ex' i) -> src_ok ex Q src chains -> src_ok ex' Q src chains.
Proof.
  intros Hex [Hlen Hchain Hh Hi Hr Hp Hn]. split; try done. intros i f g c it Hf Hc Hit.
  eapply iter_of_other; [done|apply Hex|]. by eapply Hchain.
Qed.

Lemma pull_all_ok file src chains n : readable file -> (n <= length fs)%nat -> ms_heap src = [] -> src_ok (fun _ => True) [] src chains ->
  exists src', pull_all file n src = Some src' /\ src_ok (fun j => (n <= j)%nat) [] src' chains /\
    forall m, m ∈ ms_heap src' -> (kn_iter m < n)%nat.
Proof.
  intros Hread. induction n as [|n IH]; intros Hn Hheap Hok; cbn [pull_all].
  { exists src. split; [done|]. split; [|by rewrite Hheap; intros ? ?%elem_of_nil]. eapply src_ok_ex; [|exact Hok]. cbn. lia. }
  destruct (IH ltac:(lia) Hheap Hok) as (src1 & -> & Hok1 & Hlt).
  destruct (pull_ok file (fun j => (S n <= j)%nat) [] src1 chains n Hread ltac:(lia)) as (src2 & Hp & Hok2 & Hin).
  - intros m Hm Hi. specialize (Hlt m Hm). lia.
  - eapply src_ok_ex; [|exact Hok1]. cbn. lia.
  - exists src2. split; [done|]. split; [eapply src_ok_ex; [|exact Hok2]; cbn; lia|].
    intros m Hm. destruct (Hin m Hm) as [Hm'|<-]; [|lia]. specialize (Hlt m Hm'). lia.
Qed.

(** ** What has been handed out *)

Record handed_out (Q : list kway_merge_node) (chains : list (list entry)) : Prop := {
  ho_sorted : StronglySorted Z.le (kn_key <$> Q);
  ho_iter : forall i f g c, fs !! i = Some (f, g) -> chains !! i = Some c ->
    file_entries (f, g) = (node_entry <$> filter (fun n => kn_iter n = i) Q) ++ c;
  ho_nodes : forall n, n ∈ Q -> exists f g, fs !! kn_iter n = Some (f, g) /\ kn_id n = bf_id f /\ kn_version n = bf_version f;
  ho_below : forall n c e, n ∈ Q -> c ∈ chains -> e ∈ c -> kn_key n <= e.1
}.

Definition source_inv (Q : list kway_merge_node) (src : merge_source) (chains : list (list entry)) : Prop :=
  src_ok (fun _ => False) Q src chains /\ handed_out Q chains.

Definition to_come (chains : list (list entry)) : nat := length (concat chains).

Lemma to_come_insert chains i c c' : chains !! i = Some c -> (length c' <= length c)%nat ->
  (to_come (<[i := c']> chains) + (length c - length c') = to_come chains)%nat.
Proof.
  intros Hi Hl. apply list_elem_of_split_length in Hi as (l1 & l2 & -> & ->). rewrite insert_app_r_alt, Nat.sub_diag by lia. cbn.
  unfold to_come. rewrite !concat_app. cbn. rewrite !length_app. lia.
Qed.

Context (sorted_files : Forall (fun fg => keys_le (file_entries fg)) fs).

(** The first node of the heap has the smallest key of all that is to come. *)
Lemma heap_first Q src chains first tl c e : source_inv Q src chains -> ms_heap src = first :: tl -> c ∈ chains -> e ∈ c ->
  kn_key first <= e.1.
Proof using sorted_files.
  intros [[[Hl1 Hl2] Hchain Hheap Hits Hrange Hptrs Hnext] [_ Hiter _ _]] Hh Hc He.
  apply list_elem_of_lookup in Hc as [i Hc]. pose proof (lookup_lt_Some _ _ _ Hc).
  destruct (lookup_lt_is_Some_2 fs i ltac:(lia)) as [[f g] Hf].
  destruct (lookup_lt_is_Some_2 (ms_iters src) i ltac:(lia)) as [it Hit].
  destruct (Hchain i f g c it Hf Hc Hit) as [_ [(_ & _ & [->|[]])|(n & rest & Hn & _ & -> & _)]]; [by apply elem_of_nil in He|].
  assert (kn_key first <= kn_key n) as Hfn.
  { rewrite Hh in Hheap, Hn. apply elem_of_cons in Hn as [->|Hn]; [done|].
    pose proof (is_heap_head _ _ _ n Hheap Hn) as Hless. unfold kway_merge_node_less in Hless. lia. }
  assert (kn_key n <= e.1); [|lia]. apply elem_of_cons in He as [->|He]; [done|].
  rewrite Forall_lookup in sorted_files. pose proof (sorted_files _ _ Hf) as Hs. rewrite (Hiter i f g _ Hf Hc) in Hs.
  unfold keys_le in Hs. rewrite fmap_app in Hs. apply StronglySorted_app in Hs as (_ & _ & Hs). cbn in Hs.
  apply StronglySorted_inv in Hs as [_ Hs]. rewrite Forall_forall in Hs. apply Hs. apply list_elem_of_fmap_2, He.
Qed.

(** One round: the first node is handed out. *)
Lemma source_step file Q src chains first tl : readable file -> source_inv Q src chains -> ms_heap src = first :: tl ->
  exists src' chains', source_next file first src = Some src' /\ source_inv (Q ++ [first]) src' chains' /\
    to_come chains = S (to_come chains').
Proof using sorted_files.
  intros Hread Hinv Hh. pose proof (heap_first Q src chains first tl) as Hmin.
  destruct Hinv as [Hsrc Hho]. pose proof (conj Hsrc Hho) as Hinv. destruct Hsrc as [[Hl1 Hl2] Hchain Hheap Hits Hrange Hptrs Hnext].
  destruct Hho as [Hsorted Hiter Hnodes Hbelow].
  set (i := kn_iter first). assert (first ∈ ms_heap src) as Hin by (rewrite Hh; by left).
  pose proof (Hrange first Hin) as Hi. fold i in Hi.
  destruct (lookup_lt_is_Some_2 fs i Hi) as [[f g] Hf].
  destruct (lookup_lt_is_Some_2 (ms_iters src) i ltac:(lia)) as [it Hit].
  destruct (lookup_lt_is_Some_2 chains i ltac:(lia)) as [c Hc].
  destruct (Hchain i f g c it Hf Hc Hit) as [Hfile [(Hno & _)|(n & rest & Hn & Hni & Hcr & Hid & Hver & Hok)]]; [by destruct (Hno first Hin)|].
  rewrite Hh in Hits, Hn. cbn in Hits. apply NoDup_cons in Hits as [Hni' Hits].
  assert (n = first) as ->.
  { apply elem_of_cons in Hn as [->|Hn]; [done|]. destruct Hni'. fold i. rewrite <- Hni. by apply list_elem_of_fmap_2. }
  rewrite Hh in Hheap. destruct (min_heap_pop_spec kn_key first tl Hheap) as [Hheap' Hperm].
  change (fun a b => kn_key a <? kn_key b) with kway_merge_node_less in Hheap', Hperm. rewrite <- Hh in Hheap', Hperm.
  set (heap' := min_heap_pop kway_merge_node_less (ms_heap src)) in *.
  set (src1 := {| ms_iters := ms_iters src; ms_heap := heap'; ms_next := ms_next src |}).
  assert (forall m, m ∈ heap' -> kn_iter m <> i) as Hno.
  { intros m. rewrite Hperm. intros Hm Hmi. apply Hni'. fold i. rewrite <- Hmi. by apply list_elem_of_fmap_2. }
  assert (forall m, m ∈ heap' -> m ∈ ms_heap src) as Hsub by (intros m; rewrite Hperm, Hh; by right).
  assert (src_ok (fun j => False \/ j = i) (Q ++ [first]) src1 (<[i := rest]> chains)) as Hok1.
  { split; cbn [src1 ms_iters ms_heap ms_next]; [by rewrite length_insert| |done|..].
    - intros j f' g' c' it' Hf' Hc' Hit'. destruct (Nat.eq_dec j i) as [->|Hne].
      + rewrite list_lookup_insert_eq in Hc' by lia. simplify_eq. split; [done|]. left. split; [done|]. split; [done|]. right. by right.
      + rewrite list_lookup_insert_ne in Hc' by done. eapply iter_of_other; [| |by eapply Hchain]; [|cbn; tauto].
        intros m Hm. rewrite Hperm, Hh, elem_of_cons. split; [|tauto]. intros [->|?]; [done|done].
    - by rewrite Hperm.
    - intros m Hm. apply Hrange. by apply Hsub.
    - rewrite Hperm, <- app_assoc. cbn [app]. by rewrite <- Hh.
    - intros m Hm. apply Hnext. rewrite <- app_assoc, elem_of_app in Hm. cbn in Hm. rewrite elem_of_cons in Hm.
      apply elem_of_app. destruct Hm as [Hm|[->|Hm]]; [by left|by right|right; by apply Hsub]. }
  destruct (pull_ok file (fun _ => False) (Q ++ [first]) src1 _ i Hread Hi Hno Hok1) as (src2 & Hpull & Hok2 & _).
  exists src2, (<[i := rest]> chains). split; [exact Hpull|]. split; [split; [by eapply src_ok_ex; [|exact Hok2]; cbn; tauto|]|].
  - split.
    + rewrite fmap_app. apply StronglySorted_app. split; [|split; [done|repeat constructor]].
      intros x y Hx Hy. apply list_elem_of_fmap in Hx as (m & -> & Hm). apply list_elem_of_singleton in Hy as ->.
      apply (Hbelow m c (node_entry first)); [done|by eapply list_elem_of_lookup_2|]. rewrite Hcr. by left.
    + intros j f' g' c' Hf' Hc'. rewrite filter_app, fmap_app. destruct (Nat.eq_dec j i) as [->|Hne].
      * rewrite list_lookup_insert_eq in Hc' by lia. injection Hc' as <-. rewrite (Hiter i f' g' c Hf' Hc), Hcr.
        rewrite (filter_cons_True _ first []) by done. rewrite filter_nil. by rewrite <- app_assoc.
      * rewrite list_lookup_insert_ne in Hc' by done. rewrite (Hiter j f' g' c' Hf' Hc').
        rewrite (filter_cons_False _ first []) by (fold i; congruence). rewrite filter_nil. cbn. by rewrite app_nil_r.
    + intros m [Hm|Hm%list_elem_of_singleton]%elem_of_app; [by apply Hnodes|]. subst m. exists f, g. done.
    + intros m c' e Hm Hc' He. assert (exists c0, c0 ∈ chains /\ e ∈ c0) as (c0 & Hc0 & He0).
      { apply list_elem_of_lookup in Hc' as [j Hc']. destruct (Nat.eq_dec j i) as [->|Hne].
        - rewrite list_lookup_insert_eq in Hc' by lia. injection Hc' as <-. exists c. split; [by eapply list_elem_of_lookup_2|]. rewrite Hcr. by right.
        - rewrite list_lookup_insert_ne in Hc' by done. exists c'. split; [by eapply list_elem_of_lookup_2|done]. }
      apply elem_of_app in Hm as [Hm|Hm%list_elem_of_singleton]; [by apply (Hbelow m c0)|]. subst m. by apply (Hmin c0 e).
  - pose proof (to_come_insert chains i c rest Hc) as Ht. rewrite Hcr in Ht. cbn in Ht. specialize (Ht ltac:(lia)). lia.
Qed.

Lemma heap_empty Q src chains : source_inv Q src chains -> ms_heap src = [] -> Forall (fun c => c = []) chains.
Proof.
  intros [[[Hl1 Hl2] Hchain _ _ _ _ _] _] Hh. apply Forall_lookup. intros i c Hc. pose proof (lookup_lt_Some _ _ _ Hc).
  destruct (lookup_lt_is_Some_2 fs i ltac:(lia)) as [[f g] Hf].
  destruct (lookup_lt_is_Some_2 (ms_iters src) i ltac:(lia)) as [it Hit].
  destruct (Hchain i f g c it Hf Hc Hit) as [_ [(_ & _ & [->|[]])|(n & rest & Hn & _)]]; [done|].
  rewrite Hh in Hn. by apply elem_of_nil in Hn.
Qed.

Lemma heap_some Q src chains c : source_inv Q src chains -> c ∈ chains -> c <> [] -> ms_heap src <> [].
Proof.
  intros Hinv Hc Hne Hh. pose proof (heap_empty Q src chains Hinv Hh) as Hall. rewrite Forall_forall in Hall. by apply Hne, Hall.
Qed.

(** ** Opening the source *)

Definition starts (file : kfile) (it : disk_iterator) (fg : disk_file * list (list bit_leaf)) : Prop :=
  bi_file it = at_file file fg.1 /\ iter_ok fg.2 it (file_entries fg).

Lemma open_iterators_ok file ins : forall iters started,
  Forall (fun fg => file_wf (at_file file fg.1) fg.2 /\ file_scannable (at_file file fg.1) fg.2) ins ->
  Forall2 (starts file) iters started ->
  exists its, open_iterators file ins.*1 iters = Some its /\ Forall2 (starts file) its (reverse ins ++ started).
Proof.
  induction ins as [|[f g] ins IH]; intros iters started Hall Hst; cbn [open_iterators fmap list_fmap]; [by exists iters|].
  apply Forall_cons in Hall as [[Hwf Hscan] Hall]. destruct (iter_start _ _ Hwf Hscan) as (it & Hinit & Hfile & Hok). cbn [fst] in *.
  rewrite Hinit. destruct (IH (it :: iters) ((f, g) :: started) Hall) as (its & Hopen & Hits); [by constructor|].
  exists its. split; [done|]. by rewrite reverse_cons, <- app_assoc.
Qed.

Lemma open_source_ok file demoted relatives : readable file -> fs.*1 = reverse (demoted ++ relatives) ->
  exists src, open_source file demoted relatives = Some src /\ source_inv [] src (file_entries <$> fs).
Proof using sorted_files.
  intros Hread Heq. destruct (open_iterators_ok file (reverse fs) [] []) as (its & Hopen & Hits); [|constructor|].
  { unfold readable in Hread. apply Forall_forall. intros fg Hfg. rewrite Forall_forall in Hread. apply Hread. rewrite elem_of_reverse in Hfg. exact Hfg. }
  rewrite fmap_reverse, Heq, reverse_involutive in Hopen. rewrite reverse_involutive, app_nil_r in Hits.
  unfold open_source. rewrite Hopen. pose proof (Forall2_length _ _ _ Hits) as Hlen.
  set (src0 := {| ms_iters := its; ms_heap := []; ms_next := 0 |}).
  destruct (pull_all_ok file src0 (file_entries <$> fs) (length its) Hread ltac:(lia) eq_refl) as (src & Hp & Hok & _).
  { split; cbn [src0 ms_iters ms_heap ms_next app]; [by rewrite length_fmap| |apply is_heap_nil|constructor|by intros ? ?%elem_of_nil|constructor|by intros ? ?%elem_of_nil].
    intros i f g c it Hf Hc Hit. destruct (Forall2_lookup_lr _ _ _ _ _ _ Hits Hit Hf) as [Hfile Hok].
    rewrite list_lookup_fmap, Hf in Hc. injection Hc as <-. split; [intros file'; by rewrite Hfile, at_file_twice|].
    left. split; [by intros ? ?%elem_of_nil|]. split; [done|]. by right. }
  exists src. split; [done|]. split.
  - destruct Hok as [Hl Hch Hh Hi Hr Hptr Hn]. split; try done. intros i f g c it Hf Hc Hit. pose proof (lookup_lt_Some _ _ _ Hf).
    eapply iter_of_other; [done| |by eapply Hch]. cbn. lia.
  - split; [constructor| |by intros ? ?%elem_of_nil|by intros ? ? ? ?%elem_of_nil].
    intros i f g c Hf Hc. rewrite list_lookup_fmap, Hf in Hc. by injection Hc as <-.
Qed.

(** ** Distinct files *)

(** The files differ in id and version; a key that a file holds twice is a
    record and a negative record, and no newer file holds it. *)
Record inputs_ok : Prop := {
  in_files : forall i j f g f' g', fs !! i = Some (f, g) -> fs !! j = Some (f', g') ->
    bf_id f = bf_id f' \/ bf_version f = bf_version f' -> i = j;
  in_twice : forall f g l1 k r l2 r' l3, (f, g) ∈ fs -> file_entries (f, g) = l1 ++ (k, r) :: l2 ++ (k, r') :: l3 ->
    negative_record r = false /\ negative_record r' = true /\
    forall f' g', (f', g') ∈ fs -> k ∈ (file_entries (f', g')).*1 -> bf_version f' <= bf_version f
}.

Lemma filter_split {A} (P : A -> Prop) `{forall x, Decision (P x)} (l1 : list A) x l2 : P x ->
  filter P (l1 ++ x :: l2) = filter P l1 ++ x :: filter P l2.
Proof. intros Hx. by rewrite filter_app, filter_cons_True. Qed.

Context (distinct : inputs_ok).

Lemma node_file Q src chains n : source_inv Q src chains -> n ∈ Q -> exists f g, (f, g) ∈ fs /\ fs !! kn_iter n = Some (f, g) /\
  kn_id n = bf_id f /\ kn_version n = bf_version f /\ node_entry n ∈ file_entries (f, g).
Proof.
  intros [[[Hl1 Hl2] _ _ _ _ _ _] [_ Hiter Hnodes _]] Hn. destruct (Hnodes n Hn) as (f & g & Hf & Hid & Hver). exists f, g.
  split; [by eapply list_elem_of_lookup_2|]. split; [done|]. split; [done|]. split; [done|]. pose proof (lookup_lt_Some _ _ _ Hf).
  destruct (lookup_lt_is_Some_2 chains (kn_iter n) ltac:(lia)) as [c Hc].
  rewrite (Hiter _ f g c Hf Hc). apply elem_of_app. left. apply list_elem_of_fmap_2. by apply list_elem_of_filter.
Qed.

Lemma source_runs_ok Q src chains : source_inv Q src chains -> runs_ok Q.
Proof using distinct.
  intros Hinv. pose proof Hinv as [[[Hl1 Hl2] _ _ _ _ Hptrs _] [_ Hiter Hnodes _]]. destruct distinct as [Hfiles Htwice].
  assert (forall m n, m ∈ Q -> n ∈ Q -> (kn_id m = kn_id n \/ kn_version m = kn_version n) -> kn_iter m = kn_iter n) as Hsame.
  { intros m n Hm Hn Hor. destruct (Hnodes m Hm) as (f & g & Hf & Hid & Hver). destruct (Hnodes n Hn) as (f' & g' & Hf' & Hid' & Hver').
    apply (Hfiles _ _ f g f' g' Hf Hf'). destruct Hor; [left|right]; congruence. }
  split.
  - intros m n Hm Hn. split; intros He.
    + pose proof (Hsame m n Hm Hn (or_introl He)) as Hi. destruct (Hnodes m Hm) as (f & g & Hf & _ & ->).
      destruct (Hnodes n Hn) as (f' & g' & Hf' & _ & ->). rewrite Hi in Hf. congruence.
    + pose proof (Hsame m n Hm Hn (or_intror He)) as Hi. destruct (Hnodes m Hm) as (f & g & Hf & -> & _).
      destruct (Hnodes n Hn) as (f' & g' & Hf' & -> & _). rewrite Hi in Hf. congruence.
  - intros l1 m l2 n l3 HQ Hk Hv.
    assert (m ∈ Q) as Hm by (rewrite HQ; apply elem_of_app; right; by left).
    assert (n ∈ Q) as Hn by (rewrite HQ; apply elem_of_app; right; right; apply elem_of_app; right; by left).
    pose proof (Hsame m n Hm Hn (or_intror Hv)) as Hi. destruct (Hnodes m Hm) as (f & g & Hf & _ & Hver).
    pose proof (lookup_lt_Some _ _ _ Hf). destruct (lookup_lt_is_Some_2 chains (kn_iter m) ltac:(lia)) as [c Hc].
    pose proof (Hiter _ f g c Hf Hc) as He. rewrite HQ in He. rewrite filter_split in He by done. rewrite filter_split in He by done.
    rewrite fmap_app, fmap_cons, fmap_app, fmap_cons in He. rewrite <- !app_assoc in He. cbn [app] in He. rewrite <- !app_assoc in He. cbn [app] in He.
    unfold node_entry at 2 4 in He. rewrite Hk in He.
    destruct (Htwice f g _ _ _ _ _ _ (list_elem_of_lookup_2 _ _ _ Hf) He) as (Hpos & Hneg & Hmax).
    split; [|split; [done|split; [done|]]].
    + rewrite HQ, <- app_assoc in Hptrs. cbn [app] in Hptrs. rewrite <- app_assoc in Hptrs. cbn [app] in Hptrs.
      rewrite fmap_app in Hptrs. apply NoDup_app in Hptrs as (_ & _ & Hptrs). cbn in Hptrs. apply NoDup_cons in Hptrs as [Hni _].
      intros Heq. apply Hni. rewrite Heq, fmap_app. apply elem_of_app. right. by left.
    + intros x Hx Hkx. destruct (node_file Q src chains x Hinv Hx) as (f' & g' & Hin & _ & _ & -> & Hent). rewrite Hver.
      apply (Hmax f' g' Hin). rewrite <- Hk, <- Hkx. by apply (list_elem_of_fmap_2 fst _ _ Hent).
Qed.

(** ** The end: everything has been handed out *)

(** The record the newest file that holds the key has for it, the first one
    there. *)
Definition newest_input (k : Z) (r : record) : Prop :=
  exists f g, (f, g) ∈ fs /\ leaf_find k (file_entries (f, g)) = Some r /\
    forall f' g', (f', g') ∈ fs -> k ∈ (file_entries (f', g')).*1 -> bf_version f' <= bf_version f.

Lemma leaf_find_first k (l1 : list entry) r l2 : ~ k ∈ l1.*1 -> leaf_find k (l1 ++ (k, r) :: l2) = Some r.
Proof.
  induction l1 as [|[k' r'] l1 IH]; cbn; [by rewrite Z.eqb_refl|]. rewrite not_elem_of_cons. intros [Hne Hl].
  destruct (Z.eqb_spec k' k); [congruence|]. by apply IH.
Qed.

Lemma kept_newest Q src chains k r : source_inv Q src chains -> Forall (fun c => c = []) chains -> kept Q k r -> newest_input k r.
Proof using distinct.
  intros Hinv Hend (l1 & n & l2 & HQ & Hk & <- & Hl1 & Hl2). assert (n ∈ Q) as Hn by (rewrite HQ; apply elem_of_app; right; by left).
  pose proof Hinv as [[[Hlen1 Hlen2] _ _ _ _ _ _] [_ Hiter Hnodes _]].
  destruct (Hnodes n Hn) as (f & g & Hf & Hid & Hver). pose proof (lookup_lt_Some _ _ _ Hf).
  destruct (lookup_lt_is_Some_2 chains (kn_iter n) ltac:(lia)) as [c Hc]. rewrite Forall_lookup in Hend.
  pose proof (Hiter _ f g c Hf Hc) as He. rewrite (Hend _ _ Hc), app_nil_r, HQ, filter_split, fmap_app, fmap_cons in He by done.
  exists f, g. split; [by eapply list_elem_of_lookup_2|]. split.
  - rewrite He. unfold node_entry at 2. rewrite Hk. apply leaf_find_first. intros Hin.
    apply list_elem_of_fmap in Hin as (e & -> & He'). apply list_elem_of_fmap in He' as (m & -> & Hm).
    apply list_elem_of_filter in Hm as [Hmi Hm]. pose proof (Hl1 m Hm eq_refl) as Hlt.
    assert (m ∈ Q) as HmQ by (rewrite HQ; apply elem_of_app; by left). destruct (Hnodes m HmQ) as (f' & g' & Hf' & _ & Hver').
    rewrite Hmi in Hf'. rewrite Hf in Hf'. injection Hf' as <- <-. lia.
  - intros f' g' Hin Hk'. apply list_elem_of_lookup in Hin as [j Hj]. pose proof (lookup_lt_Some _ _ _ Hj).
    destruct (lookup_lt_is_Some_2 chains j ltac:(lia)) as [c' Hc']. rewrite (Hiter _ _ _ _ Hj Hc'), (Hend _ _ Hc'), app_nil_r in Hk'.
    apply list_elem_of_fmap in Hk' as (e & -> & He'). apply list_elem_of_fmap in He' as (m & -> & Hm).
    apply list_elem_of_filter in Hm as [Hmi Hm]. destruct (Hnodes m Hm) as (f2 & g2 & Hf2 & _ & Hver2). rewrite Hmi, Hj in Hf2.
    injection Hf2 as <- <-. rewrite <- Hver, <- Hver2. rewrite HQ in Hm. apply elem_of_app in Hm as [Hm|Hm].
    + pose proof (Hl1 m Hm eq_refl). lia.
    + apply elem_of_cons in Hm as [->|Hm]; [lia|]. pose proof (Hl2 m Hm eq_refl). lia.
Qed.

(** Some record of each key is kept. *)
Lemma kept_exists Q n : n ∈ Q -> exists r, kept Q (kn_key n) r.
Proof.
  intros Hn. set (k := kn_key n).
  assert (forall l, (forall m, m ∈ l -> kn_key m <> k) \/ exists r, kept l k r) as Hl; [|destruct (Hl Q) as [Hno|Hex]; [by destruct (Hno n Hn)|done]].
  intros l. induction l as [|x l IH]; [left; by intros m ?%elem_of_nil|].
  destruct (decide (kn_key x = k)) as [Hx|Hx].
  - right. destruct IH as [Hno|[r Hr]].
    + exists (kn_val x), [], x, l. split; [done|]. split; [done|]. split; [done|]. split; [by intros m ?%elem_of_nil|].
      intros m Hm Hk. by destruct (Hno m Hm).
    + pose proof Hr as (l1 & y & l2 & -> & Hk & <- & Hb & Ha). destruct (Z.lt_ge_cases (kn_version x) (kn_version y)).
      * exists (kn_val y), (x :: l1), y, l2. split; [done|]. split; [done|]. split; [done|]. split; [|done].
        intros m [->|Hm]%elem_of_cons Hkm; [done|by apply Hb].
      * exists (kn_val x), [], x, (l1 ++ y :: l2). split; [done|]. split; [done|]. split; [done|]. split; [by intros m ?%elem_of_nil|].
        intros m [Hm|[->|Hm]%elem_of_cons]%elem_of_app Hkm; [pose proof (Hb m Hm Hkm); lia|lia|pose proof (Ha m Hm Hkm); lia].
  - destruct IH as [Hno|[r Hr]].
    + left. intros m [->|Hm]%elem_of_cons; [done|by apply Hno].
    + right. exists r. change (x :: l) with ([x] ++ l). apply kept_app_skip; [|done]. intros m ->%list_elem_of_singleton. done.
Qed.

Lemma newest_unique k r r' : newest_input k r -> newest_input k r' -> r = r'.
Proof using distinct.
  assert (forall (l : list entry) x, leaf_find k l = Some x -> k ∈ l.*1) as Hin.
  { intros l x. induction l as [|[k' y] l IH]; cbn; [done|]. destruct (Z.eqb_spec k' k) as [->|]; [by left|]. intros Hl. right. by apply IH. }
  intros (f & g & Hf & Hr & Hmax) (f' & g' & Hf' & Hr' & Hmax').
  pose proof (Hmax f' g' Hf' (Hin _ _ Hr')). pose proof (Hmax' f g Hf (Hin _ _ Hr)).
  apply list_elem_of_lookup in Hf as [i Hi]. apply list_elem_of_lookup in Hf' as [j Hj].
  assert (i = j) as -> by (destruct distinct as [Hd _]; eapply (Hd i j); [done..|right; lia]). congruence.
Qed.

Lemma newest_kept Q src chains k r : source_inv Q src chains -> Forall (fun c => c = []) chains -> newest_input k r -> kept Q k r.
Proof using distinct.
  intros Hinv Hend Hnew. pose proof Hnew as (f & g & Hf & Hr & _). pose proof Hinv as [[[Hlen1 Hlen2] _ _ _ _ _ _] [_ Hiter _ _]].
  apply list_elem_of_lookup in Hf as [i Hi]. pose proof (lookup_lt_Some _ _ _ Hi).
  destruct (lookup_lt_is_Some_2 chains i ltac:(lia)) as [c Hc]. rewrite Forall_lookup in Hend.
  pose proof (Hiter _ _ _ _ Hi Hc) as He. rewrite (Hend _ _ Hc), app_nil_r in He.
  assert (exists n, n ∈ Q /\ kn_key n = k) as (n & Hn & <-).
  { assert (forall (l : list entry) x, leaf_find k l = Some x -> (k, x) ∈ l) as Hin.
    { intros l x. induction l as [|[k' y] l IH]; cbn; [done|]. destruct (Z.eqb_spec k' k) as [->|]; [intros [= ->]; by left|]. intros Hl. right. by apply IH. }
    apply Hin in Hr. rewrite He in Hr. apply list_elem_of_fmap in Hr as (n & Hkr & Hn). apply list_elem_of_filter in Hn as [_ Hn].
    exists n. split; [done|]. unfold node_entry in Hkr. congruence. }
  destruct (kept_exists Q n Hn) as [r' Hr']. rewrite (newest_unique (kn_key n) r r'); [done..|].
  eapply kept_newest; [done|by apply Forall_lookup|done].
Qed.
End inputs.
End merge_source.
