(* ===== verification/LsmTree.v ===== *)
(** * LsmTree: the log-structured merge tree

    [struct lsm_tree] of [kernel-module/c/src/lsm_tree.c]: the memtable that
    takes the writes, the immutable memtable that waits for its compaction, and
    the levels of files. The two tables the tree updates when a record is
    overwritten, the reverse index and the segment table, are the ones of
    [jindisk->meta]. *)
From S2P Require Import Prelude Layout Bytes RbTree Memtable DiskStructs SegValidator Rit Dst Cache BitFile BitLevel.

Definition DEFAULT_MEMTABLE_CAPACITY : Z := DEFAULT_LSM_FILE_CAPACITY.

Section lsm_tree.
Context `{RbTreeSpec} `{NodeStoreSpec} `{LeafCacheSpec bit_leaf} `{BsearchSpec}.
Context `{ArraySpec reverse_index_entry} `{ArraySpec dst_entry}.

(** [jindisk->meta->rit] and [jindisk->meta->dst]. *)
Record block_tables : Type := BlockTables { bt_rit : reverse_index_table; bt_dst : dst }.

(** [lt_works] is the number of compactions queued on [compaction_wq]. *)
Record lsm_tree : Type := LsmTree {
  lt_memtable : memtable;
  lt_immutable : option memtable;
  lt_levels : list bit_level;
  lt_works : nat
}.

Implicit Types (this : lsm_tree).

Definition with_levels this (levels : list bit_level) : lsm_tree :=
  {| lt_memtable := lt_memtable this; lt_immutable := lt_immutable this; lt_levels := levels; lt_works := lt_works this |}.

(** ** Search *)

(** [for (i = 0; i < nr_disk_level; ++i)] *)
Fixpoint levels_search (levels : list bit_level) (key : Z) : list bit_level * result record :=
  match levels with
  | [] => ([], Err ENODATA)
  | l :: levels =>
      match bit_level_search l key with
      | (l, Ok r) => (l :: levels, Ok r)
      | (l, Err _) => let '(levels, r) := levels_search levels key in (l :: levels, r)
      end
  end.

Definition lsm_tree_search this (key : Z) : lsm_tree * result record :=
  match rbtree_memtable_get (lt_memtable this) key with
  | Ok r => (this, Ok r)
  | Err _ =>
      match match lt_immutable this with Some im => rbtree_memtable_get im key | None => Err ENODATA end with
      | Ok r => (this, Ok r)
      | Err _ => let '(levels, r) := levels_search (lt_levels this) key in (with_levels this levels, r)
      end
  end.

(** ** Writing *)

(** What happens to the block of an overwritten record: it is returned when the
    reverse index still maps it to the logical block. [stale] is the content of
    the variable [new_lba] when [reset] does not write it; the error codes of
    both calls are ignored. *)
Definition discard_block (stale : Z) (t : block_tables) (pba old_lba : Z) : block_tables :=
  let '(rit, out, _) := reverse_index_table_reset (bt_rit t) pba old_lba in
  let new_lba := default stale out in
  if old_lba =? new_lba
  then {| bt_rit := rit; bt_dst := (dst_return_block (bt_dst t) pba).1 |}
  else {| bt_rit := rit; bt_dst := bt_dst t |}.

(** A full memtable becomes the immutable one, the previous immutable one is
    destroyed, and a compaction is queued. *)
Definition lsm_tree_rotate this : lsm_tree :=
  if DEFAULT_MEMTABLE_CAPACITY <=? mt_size (lt_memtable this)
  then {| lt_memtable := rbtree_memtable_create; lt_immutable := Some (lt_memtable this);
          lt_levels := lt_levels this; lt_works := S (lt_works this) |}
  else this.

Definition lsm_tree_put (stale : Z) this (t : block_tables) (key : Z) (val : option record) : lsm_tree * block_tables :=
  let '(m, old) := rbtree_memtable_put (lt_memtable this) key val in
  let t := match old with Some old => discard_block stale t (pba old) key | None => t end in
  let this := {| lt_memtable := m; lt_immutable := lt_immutable this; lt_levels := lt_levels this; lt_works := lt_works this |} in
  (lsm_tree_rotate this, t).

(** ** Range search *)

(** The loop over the memtable: every key is looked up. *)
Fixpoint memtable_range_loop (n : nat) (m : memtable) (start key : Z) (st : range_state) : range_state :=
  match n with
  | O => st
  | S n =>
      memtable_range_loop n m start (key + 1)
        match rbtree_memtable_get m key with Ok valid => range_put start key valid st | Err _ => st end
  end.

(** The loop over the immutable memtable passes over the keys found. *)
Fixpoint immutable_range_loop (n : nat) (m : memtable) (start key : Z) (st : range_state) : range_state :=
  match n with
  | O => st
  | S n =>
      immutable_range_loop n m start (key + 1)
        (if range_found start key (rs_found st) then st
         else match rbtree_memtable_get m key with Ok valid => range_put start key valid st | Err _ => st end)
  end.

Fixpoint levels_range_loop (levels : list bit_level) (start end_ count : Z) (st : range_state)
  : list bit_level * range_state :=
  match levels with
  | [] => ([], st)
  | l :: levels =>
      let '(l, st) := bit_level_range_search l start end_ st in
      if mt_size (rs_results st) =? count then (l :: levels, st)
      else let '(levels, st) := levels_range_loop levels start end_ count st in (l :: levels, st)
  end.

Definition range_state_init : range_state := {| rs_results := rbtree_memtable_create; rs_found := 0 |}.

(** An empty result is [NULL]. *)
Definition range_result (st : range_state) : option memtable :=
  if mt_size (rs_results st) =? 0 then None else Some (rs_results st).

(** [start] and [end_] are 32-bit; the loops count up to [end_] included, which
    needs [end_ < 2^32 - 1] to end. *)
Definition lsm_tree_range_search this (start end_ : Z) : lsm_tree * option memtable :=
  if end_ <? start then (this, None)
  else
    let count := u32 (end_ - start + 1) in
    let n := Z.to_nat (end_ - start + 1) in
    let st := memtable_range_loop n (lt_memtable this) start start range_state_init in
    if mt_size (rs_results st) =? count then (this, range_result st)
    else
      let st := match lt_immutable this with Some im => immutable_range_loop n im start start st | None => st end in
      if mt_size (rs_results st) =? count then (this, range_result st)
      else
        let '(levels, st) := levels_range_loop (lt_levels this) start end_ count st in
        (with_levels this levels, range_result st).

(** ** Opening *)

(** [for (i = nr_disk_level - 1; i >= 1; --i)]: the levels from the last to the
    first, their capacities shrinking by the common ratio. *)
Fixpoint create_levels (i : nat) (capacity common_ratio : Z) (levels : list bit_level) : list bit_level :=
  match i with
  | O => bit_level_init 0 DEFAULT_LSM_LEVEL0_NR_FILE :: levels
  | S j => create_levels j (capacity / common_ratio) common_ratio (bit_level_init (Z.of_nat i) capacity :: levels)
  end.

(** Adding the files the catalogue lists; the result of [add_file] is ignored.
    [None] when the search for a position runs out of fuel or a file names a
    level that does not exist. *)
Fixpoint add_files (files : list bit_file) (levels : list bit_level) : option (list bit_level) :=
  match files with
  | [] => Some levels
  | f :: files =>
      match levels !! Z.to_nat (bf_level f) with
      | None => None
      | Some l =>
          match bit_level_add_file l f with
          | None => None
          | Some (l, _) => add_files files (<[Z.to_nat (bf_level f) := l]> levels)
          end
      end
  end.

(** [files] are those of the catalogue, opened by [bit_file_create]. *)
Definition lsm_tree_init (nr_disk_level common_ratio max_level_nr_file : Z) (files : list bit_file) : option lsm_tree :=
  let levels := create_levels (Z.to_nat (nr_disk_level - 1)) max_level_nr_file common_ratio [] in
  match add_files files levels with
  | None => None
  | Some levels =>
      Some {| lt_memtable := rbtree_memtable_create; lt_immutable := None; lt_levels := levels; lt_works := 0 |}
  end.

(** ** Specification: the layers as one map *)

Definition mem_find (m : memtable) (k : Z) : option record := mt_map m !! k ≫= cell_value.

Definition layer (f g : Z -> option record) (k : Z) : option record :=
  match f k with Some r => Some r | None => g k end.

Definition imm_find (im : option memtable) (k : Z) : option record :=
  match im with Some im => mem_find im k | None => None end.

Fixpoint levels_find (gsss : list (list (list (list bit_leaf)))) (k : Z) : option record :=
  match gsss with
  | [] => None
  | gss :: gsss => layer (level_find gss) (levels_find gsss) k
  end.

Definition tree_find this gsss : Z -> option record :=
  layer (mem_find (lt_memtable this)) (layer (imm_find (lt_immutable this)) (levels_find gsss)).

(** [gsss]: the leaves of the files of the levels. *)
Record tree_wf this gsss : Prop := {
  tw_mem : memtable_wf (lt_memtable this);
  tw_imm : forall im, lt_immutable this = Some im -> memtable_wf im;
  tw_levels : Forall2 level_ok (lt_levels this) gsss
}.

Definition found_or_nodata (o : option record) : result record :=
  match o with Some r => Ok r | None => Err ENODATA end.

Lemma mem_get m k : memtable_wf m -> rbtree_memtable_get m k = found_or_nodata (mem_find m k).
Proof. intros Hwf. by rewrite memtable_get_map. Qed.

Lemma levels_search_find key : forall levels gsss, Forall2 level_ok levels gsss ->
  let '(levels', r) := levels_search levels key in
  Forall2 level_ok levels' gsss /\ r = found_or_nodata (levels_find gsss key).
Proof.
  intros levels gsss Hall. induction Hall as [|l gss levels gsss Hl Hall IH]; cbn [levels_search]; [by split|].
  pose proof (level_search_find l gss key Hl) as Hs. destruct (bit_level_search l key) as [l' r]. destruct Hs as [Hl' ->].
  unfold layer. cbn [levels_find]. unfold layer. destruct (level_find gss key); cbn; [by split; [constructor|]|].
  destruct (levels_search levels key) as [levels' r']. destruct IH as [IH ->]. by split; [constructor|].
Qed.

Lemma lsm_tree_search_find this gsss key : tree_wf this gsss ->
  let '(this', r) := lsm_tree_search this key in
  tree_wf this' gsss /\ r = found_or_nodata (tree_find this gsss key).
Proof.
  intros Hwf. pose proof Hwf as [Hm Him Hl]. unfold lsm_tree_search, tree_find, layer.
  rewrite mem_get by done. destruct (mem_find (lt_memtable this) key) as [r|]; cbn [found_or_nodata]; [done|].
  assert (match lt_immutable this with Some im => rbtree_memtable_get im key | None => Err ENODATA end =
    found_or_nodata (imm_find (lt_immutable this) key)) as ->.
  { destruct (lt_immutable this) as [im|]; [|done]. by rewrite mem_get by auto. }
  destruct (imm_find (lt_immutable this) key) as [r|]; cbn [found_or_nodata]; [done|].
  pose proof (levels_search_find key _ _ Hl) as Hs. destruct (levels_search (lt_levels this) key) as [levels r].
  destruct Hs as [Hl' ->]. by split.
Qed.

(** C3. A search returns the record of the newest layer that holds the key (the
    memtable, then the immutable memtable, then the levels from 0 on) and
    [-ENODATA] exactly when no layer holds it. It leaves the tree well formed
    with the same contents: only the caches of the files searched change. *)
Theorem lsm_tree_search_newest this gsss key : tree_wf this gsss ->
  let '(this', r) := lsm_tree_search this key in
  tree_wf this' gsss /\ r = found_or_nodata (tree_find this gsss key).
Proof. apply lsm_tree_search_find. Qed.

(** ** Writing *)

Lemma mem_find_put m key val k : memtable_wf m -> 0 <= key < 2 ^ 31 ->
  mem_find (rbtree_memtable_put m key val).1 k =
    if decide (k = key) then Some (default negative val) else mem_find m k.
Proof.
  intros Hwf Hk. pose proof (memtable_put_map m key val Hwf Hk) as Hput.
  destruct (rbtree_memtable_put m key val) as [m' old]. destruct Hput as (_ & Hmap & _). unfold mem_find. cbn [fst]. rewrite Hmap.
  destruct (decide (k = key)) as [->|Hne]; [rewrite lookup_insert_eq|by rewrite lookup_insert_ne]. by destruct val.
Qed.

(** What the immutable memtable holds has reached the levels. *)
Definition compacted this gsss : Prop :=
  forall k r, imm_find (lt_immutable this) k = Some r -> levels_find gsss k = Some r.

Lemma memtable_put_size m k val : memtable_wf m -> 0 <= k < 2 ^ 31 ->
  mt_size (rbtree_memtable_put m k val).1 <= mt_size m + 1.
Proof.
  intros Hwf Hk. pose proof (wf_size _ Hwf) as Hsz. set (n := new_memtable_entry k val).
  assert (forall x, 0 <= x -> u64 (x + 1) <= x + 1) as Hu by (intros; unfold u64; apply Z.mod_le; lia).
  destruct (wf_split m k Hwf) as [(l1 & e & l2 & Hin & He & Hl1 & Hl2)|(l1 & l2 & Hin & Hl1 & Hl2)];
    rewrite Hin, weight_app in Hsz; cbn [weight] in Hsz; pose proof (weight_nonneg l1); pose proof (weight_nonneg l2);
    pose proof (wf_keys _ Hwf) as Hkeys; rewrite Hin in Hkeys; apply Forall_app in Hkeys as [Hr1 Hr2]; unfold rbtree_memtable_put; fold n.
  - apply Forall_cons in Hr2 as [Hre Hr2]. destruct (cmp_split_find_add n l1 l2) as [Hcmp1 Hcmp2]; [done..|].
    assert (memtable_entry_cmp n e = 0) as Heq by (rewrite memtable_entry_cmp_exact; subst n; cbn; rewrite ?He; lia || done).
    rewrite (rb_find_add_old memtable_entry_cmp n (mt_root m) l1 e l2) by done.
    unfold entry_weight in Hsz. pose proof (present_range (me_val e)). pose proof (present_range (me_negative_val e)).
    destruct val; cbn [fst mt_size]; unfold u64 in *; rewrite ?Zminus_mod_idemp_l, Zplus_mod_idemp_l; (etransitivity; [apply Z.mod_le; lia|lia]).
  - destruct (cmp_split_find_add n l1 l2) as [Hcmp1 Hcmp2]; [done..|].
    destruct (rb_find_add_new memtable_entry_cmp n (mt_root m) l1 l2) as (t' & -> & _); [done..|].
    cbn [fst mt_size]. apply Hu. lia.
Qed.

Lemma lsm_tree_put_map stale this gsss t key val : tree_wf this gsss -> 0 <= key < 2 ^ 31 ->
  mt_size (rbtree_memtable_put (lt_memtable this) key val).1 < DEFAULT_MEMTABLE_CAPACITY \/ compacted this gsss ->
  let this' := (lsm_tree_put stale this t key val).1 in
  tree_wf this' gsss /\
  forall k, tree_find this' gsss k = if decide (k = key) then Some (default negative val) else tree_find this gsss k.
Proof.
  intros [Hm Him Hl] Hk Hroom. pose proof (mem_find_put (lt_memtable this) key val) as Hfind.
  pose proof (memtable_put_map (lt_memtable this) key val Hm Hk) as Hput. unfold lsm_tree_put.
  destruct (rbtree_memtable_put (lt_memtable this) key val) as [m old]. destruct Hput as (Hm' & _). cbn [fst] in *.
  unfold lsm_tree_rotate. cbn [lt_memtable lt_immutable lt_levels lt_works].
  destruct (Z.leb_spec DEFAULT_MEMTABLE_CAPACITY (mt_size m)).
  - destruct Hroom as [Hroom|Hc]; [lia|]. split.
    + split; cbn; [apply memtable_create_wf|by intros im [= <-]|done].
    + intros k. unfold tree_find, layer. cbn [lt_memtable lt_immutable imm_find].
      change (mem_find rbtree_memtable_create k) with (@None record). rewrite Hfind by done.
      destruct (decide (k = key)); [done|]. destruct (mem_find (lt_memtable this) k); [done|].
      destruct (imm_find (lt_immutable this) k) as [r|] eqn:Hi; [|done]. by apply Hc.
  - split; [by split|]. intros k. unfold tree_find, layer. cbn [lt_memtable lt_immutable]. rewrite Hfind by done.
    by destruct (decide (k = key)).
Qed.

(** C4. A put writes the record (a negative record for [NULL]) over whatever the
    tree held for the key and changes no other key, provided that the memtable
    does not fill up by it or that the compaction of the immutable memtable has
    reached the levels: a full memtable takes the place of the immutable one. *)
Theorem lsm_tree_put_refines stale this gsss t key val : tree_wf this gsss -> 0 <= key < 2 ^ 31 ->
  mt_size (rbtree_memtable_put (lt_memtable this) key val).1 < DEFAULT_MEMTABLE_CAPACITY \/ compacted this gsss ->
  let this' := (lsm_tree_put stale this t key val).1 in
  tree_wf this' gsss /\
  forall k, tree_find this' gsss k = if decide (k = key) then Some (default negative val) else tree_find this gsss k.
Proof. apply lsm_tree_put_map. Qed.

(** ** The block of an overwritten record *)
Section discard.
Context (rit_range : forall e : reverse_index_entry, darr_entry_ok e <-> 0 <= lba e < 2 ^ 64).
Context (dst_range : forall e : dst_entry, entry_wf e -> darr_entry_ok e).

Record tables_wf (t : block_tables) : Prop := { tb_rit : rit_wf (bt_rit t); tb_dst : dst_wf (bt_dst t) }.

(** The tables after the record of [key] at [pba] has been given up. *)
Definition block_discarded (t t' : block_tables) (p key : Z) : Prop :=
  tables_wf t' /\
  (forall q, 0 <= q -> q <> p -> block_valid (bt_dst t') q = block_valid (bt_dst t) q) /\
  (block_valid (bt_dst t') p = true -> block_valid (bt_dst t) p = true) /\
  match (reverse_index_table_reset (bt_rit t) p key).1.2 with
  | Some cur =>
      rit_view (bt_rit t) !! Z.to_nat p = Some cur /\
      (cur <> key -> bt_dst t' = bt_dst t) /\
      (cur = key -> is_ok (dst_return_block (bt_dst t) p).2 = true -> block_valid (bt_dst t') p = false)
  | None => rit_view (bt_rit t') = rit_view (bt_rit t)
  end.

Lemma discard_block_spec stale t p key : tables_wf t -> 0 <= p -> block_discarded t (discard_block stale t p key) p key.
Proof using H0 H8 H10 rit_range dst_range.
  intros [Hr Hd] Hp. unfold block_discarded, discard_block.
  pose proof (rit_reset_map rit_range (bt_rit t) p key Hr Hp) as Hreset.
  destruct (reverse_index_table_reset (bt_rit t) p key) as [[rit out] r]. destruct Hreset as (Hr' & _ & Hout). cbn [fst snd].
  pose proof (dst_return_block_map dst_range (bt_dst t) p Hd Hp) as Hret.
  destruct (dst_return_block (bt_dst t) p) as [d rd]. destruct Hret as [Hd' Hret]. cbn [fst snd].
  assert (forall q, 0 <= q -> block_valid d q = true -> block_valid (bt_dst t) q = true) as Hmono.
  { intros q Hq. destruct rd as [u|e]; [rewrite Hret by done; by destruct (decide (q = p))|by rewrite (block_valid_view _ _ Hret)]. }
  assert (forall q, 0 <= q -> q <> p -> block_valid d q = block_valid (bt_dst t) q) as Hother.
  { intros q Hq Hne. destruct rd as [u|e]; [rewrite Hret by done; by destruct (decide (q = p))|by rewrite (block_valid_view _ _ Hret)]. }
  destruct (Z.eqb_spec key (default stale out)) as [Heq|Hne]; cbn [bt_rit bt_dst].
  - split; [done|]. split; [done|]. split; [by apply Hmono|]. destruct out as [cur|]; [|tauto]. cbn in Heq. subst cur.
    split; [tauto|]. split; [done|]. intros _ Hok. destruct rd; [|done]. rewrite Hret by done. by destruct (decide (p = p)).
  - split; [done|]. split; [done|]. split; [done|]. destruct out as [cur|]; [|tauto]. cbn in Hne.
    split; [tauto|]. split; [done|]. congruence.
Qed.

Lemma lsm_tree_put_tables stale this t key val :
  memtable_wf (lt_memtable this) -> 0 <= key < 2 ^ 31 -> tables_wf t ->
  (forall old, cell_latest (mt_map (lt_memtable this) !! key) = Some old -> 0 <= pba old) ->
  let t' := (lsm_tree_put stale this t key val).2 in
  match val, cell_latest (mt_map (lt_memtable this) !! key) with
  | Some _, Some old => block_discarded t t' (pba old) key
  | _, _ => t' = t
  end.
Proof using H0 H8 H10 rit_range dst_range.
  intros Hm Hk Ht Hpba. pose proof (memtable_put_map (lt_memtable this) key val Hm Hk) as Hput. unfold lsm_tree_put.
  destruct (rbtree_memtable_put (lt_memtable this) key val) as [m old]. destruct Hput as (_ & _ & ->). cbn [snd].
  destruct val as [v|]; [|done]. destruct (cell_latest _) as [old|] eqn:Hc; [|done].
  apply discard_block_spec; [done|by apply Hpba].
Qed.

(** The block of an overwritten record: when the put replaces a value at
    block [p], no other block changes its validity, [p] itself is returned when
    the reverse index still maps it to the key, and the segment table is left
    alone when another logical block has taken [p] over. A put that replaces no
    value leaves both tables as they were. *)
Theorem lsm_tree_put_discards stale this t key val :
  memtable_wf (lt_memtable this) -> 0 <= key < 2 ^ 31 -> tables_wf t ->
  (forall old, cell_latest (mt_map (lt_memtable this) !! key) = Some old -> 0 <= pba old) ->
  let t' := (lsm_tree_put stale this t key val).2 in
  match val, cell_latest (mt_map (lt_memtable this) !! key) with
  | Some _, Some old => block_discarded t t' (pba old) key
  | _, _ => t' = t
  end.
Proof using H0 H8 H10 rit_range dst_range. apply lsm_tree_put_tables. Qed.
End discard.

(** ** Range search *)

Section range.
Context (start end_ : Z) (start_ok : 0 <= start <= end_) (end_ok : end_ < 2 ^ 31).
Implicit Types (st : range_state).

Definition range_one find key st : range_state :=
  if range_found start key (rs_found st) then st
  else match find key with Some r => range_put start key r st | None => st end.

Lemma range_one_step (find : Z -> option record) key st : range_wf start st -> start <= key <= end_ ->
  range_upd (fun k => k =? key) find start st (range_one find key st).
Proof using start_ok end_ok H0.
  intros Hwf Hk. unfold range_one. destruct (range_found start key (rs_found st)) eqn:Hf.
  - apply (range_skip_step find); auto.
  - destruct (find key) as [r|] eqn:Hr; [|apply (range_skip_step find); auto].
    apply (range_put_step find); [done|lia|lia|done|done].
Qed.

Lemma in_range_cons key k : key <= end_ -> in_range key end_ k = (k =? key) || in_range (key + 1) end_ k.
Proof. intros Hk. unfold in_range. case_bool; cbn; try lia; done. Qed.

Lemma immutable_range_loop_spec m : memtable_wf m -> forall n key st, range_wf start st -> start <= key ->
  Z.of_nat n = Z.max 0 (end_ - key + 1) ->
  range_upd (in_range key end_) (mem_find m) start st (immutable_range_loop n m start key st).
Proof using start_ok end_ok H0.
  intros Hm. induction n as [|n IH]; intros key st Hst Hk Hn; cbn [immutable_range_loop].
  { apply range_upd_refl; [done|]. intros k _. unfold in_range. case_bool; cbn; done || lia. }
  replace (if range_found start key (rs_found st) then st else _) with (range_one (mem_find m) key st)
    by (unfold range_one; rewrite mem_get by done; by destruct (mem_find m key)).
  pose proof (range_one_step (mem_find m) key st Hst ltac:(lia)) as Hstep.
  eapply range_upd_trans; [|exact Hstep|apply IH; [apply Hstep|lia|lia]]. intros k _. apply in_range_cons. lia.
Qed.

(** Where nothing is found yet, the loop without the test does the same. *)
Lemma memtable_range_loop_eq m : memtable_wf m -> forall n key st, range_wf start st -> start <= key ->
  Z.of_nat n = Z.max 0 (end_ - key + 1) ->
  (forall k, key <= k -> range_found start k (rs_found st) = false) ->
  memtable_range_loop n m start key st = immutable_range_loop n m start key st.
Proof using start_ok end_ok H0.
  intros Hm. induction n as [|n IH]; intros key st Hst Hk Hn Hfresh; [done|].
  cbn [memtable_range_loop immutable_range_loop]. rewrite (Hfresh key) by lia.
  pose proof (range_one_step (mem_find m) key st Hst ltac:(lia)) as Hstep. unfold range_one in Hstep.
  rewrite (Hfresh key) in Hstep by lia. rewrite mem_get by done.
  destruct (mem_find m key) as [r|]; cbn [found_or_nodata] in *;
    (apply IH; [apply Hstep|lia|lia|]; intros k Hkk; destruct Hstep as [_ Hstep]; destruct (Hstep k ltac:(lia)) as [-> _];
     rewrite Hfresh by lia; by destruct (Z.eqb_spec k key); [lia|]).
Qed.

(** The state after the layers that [f] stands for. *)
Definition covers (f : Z -> option record) st : Prop :=
  range_upd (in_range start end_) f start range_state_init st.

Lemma init_wf : range_wf start range_state_init.
Proof. split; [apply memtable_create_wf|]. intros k c Hc. by destruct (lookup_empty_Some k c Hc). Qed.

Lemma covers_wf f st : covers f st -> range_wf start st.
Proof. by intros [? _]. Qed.

Lemma covers_found f st k : covers f st -> start <= k ->
  range_found start k (rs_found st) = in_range start end_ k && bool_decide (is_Some (f k)).
Proof. intros [_ Hc] Hk. destruct (Hc k Hk) as [-> _]. unfold range_found. cbn. by rewrite Z.testbit_0_l. Qed.

Lemma covers_get f st k : covers f st -> start <= k <= end_ ->
  rbtree_memtable_get (rs_results st) k = found_or_nodata (f k).
Proof.
  intros [_ Hc] Hk. destruct (Hc k ltac:(lia)) as [_ ->]. unfold in_range, range_found. cbn [rs_found range_state_init].
  rewrite Z.testbit_0_l, (proj2 (Z.leb_le start k)), (proj2 (Z.leb_le k end_)) by lia. cbn. by destruct (f k).
Qed.

Lemma covers_layer f g st st' : covers f st -> range_upd (in_range start end_) g start st st' -> covers (layer f g) st'.
Proof.
  intros Hc [Hw Hu]. split; [done|]. intros k Hk. destruct (Hu k Hk) as [-> ->].
  rewrite (covers_found f st k Hc Hk). unfold layer. destruct Hc as [_ Hc]. destruct (Hc k Hk) as [_ ->].
  unfold range_found. cbn [rs_found range_state_init]. rewrite Z.testbit_0_l.
  destruct (in_range start end_ k), (f k), (g k); cbn; done.
Qed.

Lemma covers_ext f g st : (forall k, start <= k <= end_ -> f k = g k) -> covers f st -> covers g st.
Proof.
  intros Hext. apply range_upd_ext. intros k _ HD. apply Hext. unfold in_range in HD.
  apply andb_true_iff in HD as [?%Z.leb_le ?%Z.leb_le]. lia.
Qed.

(** The results are [size] different keys found in the interval. *)
Lemma covers_keys f st : covers f st ->
  mt_size (rs_results st) = Z.of_nat (length (rb_inorder (mt_root (rs_results st)))) /\
  Forall (fun e => start <= me_key e < end_ + 1 /\ is_Some (f (me_key e))) (rb_inorder (mt_root (rs_results st))).
Proof.
  intros Hc. pose proof (covers_wf _ _ Hc) as [Hw Hm]. rewrite (wf_size _ Hw).
  assert (Forall (fun e => entry_weight e = 1 /\ start <= me_key e < end_ + 1 /\ is_Some (f (me_key e)))
            (rb_inorder (mt_root (rs_results st)))) as Hall.
  { apply Forall_forall. intros e He. apply list_elem_of_split in He as (l1 & l2 & Hin).
    pose proof (mt_map_split_some _ _ _ _ _ Hw Hin eq_refl) as He. destruct (Hm _ _ He) as (Hk & Hf & r & Hr).
    rewrite (covers_found f st _ Hc Hk) in Hf. apply andb_true_iff in Hf as [Hf1 Hf2].
    unfold in_range in Hf1. apply andb_true_iff in Hf1 as [_ Hf1%Z.leb_le]. apply bool_decide_eq_true in Hf2.
    split; [|split; [lia|done]]. unfold entry_cell in Hr. injection Hr as Hv Hn. unfold entry_weight. by rewrite Hv, Hn. }
  split; [|eapply Forall_impl; [exact Hall|]; cbn; tauto].
  induction Hall as [|e l [He _] _ IH]; [done|]. cbn [weight length]. lia.
Qed.

(** As many results as keys: every key was found. *)
Lemma covers_full f st : covers f st -> mt_size (rs_results st) = end_ - start + 1 ->
  forall k, start <= k <= end_ -> is_Some (f k).
Proof.
  intros Hc Hsize k Hk. destruct (covers_keys f st Hc) as [Hlen Hall]. rewrite Hlen in Hsize.
  pose proof (covers_wf _ _ Hc) as [Hw _].
  destruct (wf_split (rs_results st) k Hw) as [(l1 & e & l2 & Hin & <- & _)|(l1 & l2 & Hin & Hlt & Hgt)]; rewrite Hin in *.
  { apply Forall_app in Hall as [_ Hall]. apply Forall_cons in Hall as [[_ He] _]. done. }
  exfalso. apply Forall_app in Hall as [Hall1 Hall2].
  pose proof (wf_sorted _ Hw) as Hs. rewrite Hin in Hs. apply keys_sorted_app in Hs as (Hs1 & Hs2 & _).
  assert (Z.of_nat (length l1) <= Z.max 0 (k - start)) as Hl1.
  { apply (keys_sorted_length me_key start k l1 Hs1). rewrite Forall_forall in *. intros x Hx.
    specialize (Hlt x Hx). specialize (Hall1 x Hx). cbn in *. lia. }
  assert (Z.of_nat (length l2) <= Z.max 0 (end_ + 1 - (k + 1))) as Hl2.
  { apply (keys_sorted_length me_key (k + 1) (end_ + 1) l2 Hs2). rewrite Forall_forall in *. intros x Hx.
    specialize (Hgt x Hx). specialize (Hall2 x Hx). cbn in *. lia. }
  rewrite length_app in Hsize. lia.
Qed.

Lemma covers_full_layer f g st : covers f st -> mt_size (rs_results st) = end_ - start + 1 -> covers (layer f g) st.
Proof.
  intros Hc Hsize. eapply covers_ext; [|exact Hc]. intros k Hk. unfold layer.
  by destruct (covers_full f st Hc Hsize k Hk) as [r ->].
Qed.

Lemma layer_assoc f g h k : layer (layer f g) h k = layer f (layer g h) k.
Proof. unfold layer. by destruct (f k). Qed.

Definition distinct_keys (gss : list (list (list bit_leaf))) : Prop :=
  Forall (fun g => StronglySorted Z.lt (leaves_entries (concat g)).*1) gss.

Lemma levels_range_loop_spec : forall levels gsss f st, Forall2 level_ok levels gsss -> Forall distinct_keys gsss ->
  covers f st ->
  let '(levels', st') := levels_range_loop levels start end_ (end_ - start + 1) st in
  Forall2 level_ok levels' gsss /\ covers (layer f (levels_find gsss)) st'.
Proof using start_ok end_ok H0 H2 H4 H6.
  intros levels gsss f st Hall. revert f st. induction Hall as [|l gss levels gsss Hl Hall IH]; intros f st Hd Hc.
  - cbn. split; [done|]. eapply covers_ext; [|exact Hc]. intros k _. unfold layer. by destruct (f k).
  - apply Forall_cons in Hd as [Hdl Hd]. cbn [levels_range_loop].
    pose proof (level_range_find l gss start end_ st Hl Hdl (covers_wf _ _ Hc) (proj1 start_ok) end_ok) as Hr.
    destruct (bit_level_range_search l start end_ st) as [l' st1]. destruct Hr as [Hl' Hu].
    pose proof (covers_layer f _ st st1 Hc Hu) as Hc1.
    assert (forall st', covers (layer (layer f (level_find gss)) (levels_find gsss)) st' ->
      covers (layer f (levels_find (gss :: gsss))) st') as Hassoc.
    { intros st'. apply covers_ext. intros k _. apply layer_assoc. }
    destruct (Z.eqb_spec (mt_size (rs_results st1)) (end_ - start + 1)).
    + split; [by constructor|]. apply Hassoc. by apply covers_full_layer.
    + specialize (IH _ _ Hd Hc1). destruct (levels_range_loop levels start end_ (end_ - start + 1) st1) as [levels' st2].
      destruct IH as [IHl IHc]. split; [by constructor|]. by apply Hassoc.
Qed.

(** What the caller gets for the state reached. *)
Lemma range_result_spec f st : covers f st ->
  match range_result st with
  | Some m => memtable_wf m /\ forall k, start <= k <= end_ -> rbtree_memtable_get m k = found_or_nodata (f k)
  | None => forall k, start <= k <= end_ -> f k = None
  end.
Proof.
  intros Hc. unfold range_result. destruct (Z.eqb_spec (mt_size (rs_results st)) 0) as [Hz|].
  - intros k Hk. pose proof (covers_get f st k Hc Hk) as Hg. destruct (covers_keys f st Hc) as [Hlen _].
    rewrite memtable_get_map in Hg by apply (covers_wf _ _ Hc). unfold mt_map in Hg.
    destruct (rb_inorder (mt_root (rs_results st))); [|cbn in Hlen; lia]. by destruct (f k).
  - split; [apply (covers_wf _ _ Hc)|]. intros k. by apply covers_get.
Qed.

Lemma lsm_tree_range_search_covers this gsss : tree_wf this gsss -> Forall distinct_keys gsss ->
  let '(this', r) := lsm_tree_range_search this start end_ in
  tree_wf this' gsss /\ exists st, covers (tree_find this gsss) st /\ r = range_result st.
Proof using start_ok end_ok H0 H2 H4 H6.
  intros Hwf Hd. pose proof Hwf as [Hm Him Hl]. unfold lsm_tree_range_search.
  destruct (Z.ltb_spec end_ start); [lia|]. rewrite u32_small by lia.
  set (n := Z.to_nat (end_ - start + 1)).
  rewrite (memtable_range_loop_eq _ Hm) by
    (apply init_wf || (unfold n; lia) || (intros; unfold range_found; by rewrite Z.testbit_0_l)).
  pose proof (immutable_range_loop_spec _ Hm n start range_state_init init_wf ltac:(lia) ltac:(unfold n; lia)) as Hc0.
  fold (covers (mem_find (lt_memtable this)) (immutable_range_loop n (lt_memtable this) start start range_state_init)) in Hc0.
  set (st0 := immutable_range_loop n (lt_memtable this) start start range_state_init) in *.
  destruct (Z.eqb_spec (mt_size (rs_results st0)) (end_ - start + 1)).
  { split; [done|]. exists st0. split; [|done]. by apply covers_full_layer. }
  set (st1 := match lt_immutable this with Some im => _ | None => st0 end).
  assert (covers (layer (mem_find (lt_memtable this)) (imm_find (lt_immutable this))) st1) as Hc1.
  { subst st1. destruct (lt_immutable this) as [im|] eqn:Hi.
    - eapply covers_layer; [exact Hc0|]. apply immutable_range_loop_spec; [by apply Him|apply (covers_wf _ _ Hc0)|lia|unfold n; lia].
    - eapply covers_ext; [|exact Hc0]. intros k _. unfold layer. by destruct (mem_find (lt_memtable this) k). }
  destruct (Z.eqb_spec (mt_size (rs_results st1)) (end_ - start + 1)).
  { split; [done|]. exists st1. split; [|done]. eapply covers_ext; [intros; apply layer_assoc|]. by apply covers_full_layer. }
  pose proof (levels_range_loop_spec (lt_levels this) gsss _ st1 Hl Hd Hc1) as Hlev.
  destruct (levels_range_loop (lt_levels this) start end_ (end_ - start + 1) st1) as [levels st2]. destruct Hlev as [Hl2 Hc2].
  split; [by split|]. exists st2. split; [|done]. eapply covers_ext; [|exact Hc2]. intros; apply layer_assoc.
Qed.
End range.

End lsm_tree.

(** ** Concrete runs *)

Definition example_tree : lsm_tree :=
  {| lt_memtable := example_table;
     lt_immutable := Some (rbtree_memtable_put rbtree_memtable_create 200 (Some (example_record 60))).1;
     lt_levels := [bit_level_init 0 DEFAULT_LSM_LEVEL0_NR_FILE; example_level]; lt_works := 1 |}.

Definition example_tree_leaves : list (list (list (list bit_leaf))) := [[]; [example_groups; example_groups2]].

Lemma example_tree_wf : tree_wf example_tree example_tree_leaves.
Proof.
  split.
  - exact example_table_wf.
  - intros im [= <-]. refine (proj1 (memtable_put_get _ 200 (example_record 60) memtable_create_wf _)). lia.
  - constructor; [|constructor; [|constructor]]; split.
    + constructor.
    + split; constructor.
    + constructor.
    + cbn. lia.
    + exact example_level_wf.
    + exact example_level_disjoint.
    + repeat constructor; cbn; lia.
    + cbn. lia.
Qed.

Lemma example_tree_distinct : Forall distinct_keys example_tree_leaves.
Proof.
  constructor; [constructor|]. constructor; [|constructor]. constructor; [exact example_sorted|].
  constructor; [|constructor]. change (leaves_entries (concat example_groups2)).*1 with [400]. repeat constructor.
Qed.

(** The memtable hides the levels; block 400 comes from the second file. *)
Example example_tree_search_200 : (lsm_tree_search example_tree 200).2 = Ok (example_record 60).
Proof. vm_compute. reflexivity. Qed.
Example example_tree_search_400 : (lsm_tree_search example_tree 400).2 = Ok (example_record 900).
Proof. vm_compute. reflexivity. Qed.

Lemma lsm_tree_search_newest_witness :
  let this := example_tree in
  let '(this', r) := lsm_tree_search this 400 in
  tree_wf this' example_tree_leaves /\ r = found_or_nodata (tree_find this example_tree_leaves 400).
Proof. exact (lsm_tree_search_newest example_tree example_tree_leaves 400 example_tree_wf). Defined.

Definition example_tables : block_tables := {| bt_rit := example_rit; bt_dst := example_dst |}.

Lemma lsm_tree_put_refines_witness :
  let this := example_tree in
  let this' := (lsm_tree_put 0 this example_tables 400 (Some (example_record 3))).1 in
  tree_wf this' example_tree_leaves /\
  forall k, tree_find this' example_tree_leaves k =
    if decide (k = 400) then Some (default negative (Some (example_record 3))) else tree_find this example_tree_leaves k.
Proof.
  refine (lsm_tree_put_refines 0 example_tree example_tree_leaves example_tables 400 (Some (example_record 3)) example_tree_wf _ _).
  - lia.
  - left. vm_compute. reflexivity.
Defined.


(** Block 4 is overwritten; its old record is at block 0, which the reverse
    index of the example maps to it. *)
Definition example_overwrite : lsm_tree :=
  {| lt_memtable := (rbtree_memtable_put rbtree_memtable_create 4 (Some (example_record 0))).1;
     lt_immutable := None; lt_levels := []; lt_works := 0 |}.

Example example_overwrite_frees :
  let t' := (lsm_tree_put 0 example_overwrite example_tables 4 (Some (example_record 3))).2 in
  (block_valid (bt_dst example_tables) 0, block_valid (bt_dst t') 0, rit_view (bt_rit t')) =
  (true, false, [INF_ADDR; INF_ADDR; 9]).
Proof. vm_compute. reflexivity. Qed.

Lemma lsm_tree_put_discards_witness :
  let t' := (lsm_tree_put 0 example_overwrite example_tables 4 (Some (example_record 3))).2 in
  match Some (example_record 3), cell_latest (mt_map (lt_memtable example_overwrite) !! 4) with
  | Some _, Some old => block_discarded example_tables t' (pba old) 4
  | _, _ => t' = example_tables
  end.
Proof.
  assert (tables_wf example_tables) as Ht.
  { split; [|exact example_dst_wf]. repeat constructor; vm_compute; congruence || done. }
  assert (memtable_wf (lt_memtable example_overwrite)) as Hm.
  { refine (proj1 (memtable_put_get _ 4 (example_record 0) memtable_create_wf _)). lia. }
  intros t'.
  refine (lsm_tree_put_discards (fun e => iff_refl _) dst_list_range 0 example_overwrite example_tables 4 (Some (example_record 3))
    Hm _ Ht _); [lia|].
  intros old Hold. vm_compute in Hold. injection Hold as <-. vm_compute. congruence.
Defined.
