(* ===== verification/Compaction.v ===== *)
(** * Compaction: merging a level into the next one

    [struct compaction_job] and the compactions of the tree, of
    [kernel-module/c/src/lsm_tree.c]: files are chosen, merged by a heap and
    written through builders; the catalogue keeps track of the slots. [None]
    stands for an access the code does not guard against. *)
From S2P Require Import Prelude Layout Bytes RbTree Memtable DiskStructs SegValidator Rit Dst BitCatalogue Metadata Crypto Cache BitFile BitNode BitBuilder BitLevel LevelFiles Merge MergeSource LsmTree.

Section compaction.
Context `{CryptoApiSpec} `{FileIOSpec} `{LeafCacheSpec bit_leaf} `{BsearchSpec} `{MinHeapSpec}.
Context `{ArraySpec Z} `{!GroupArray} `{ArraySpec file_stat} `{ArraySpec reverse_index_entry} `{ArraySpec dst_entry}.

(** [old_mac] and [no_cache] as in [BitBuilder.v]; the random bytes of the key
    and the contents of the buffer of the builder of a version; the value of
    [new_lba] before [reset]; the start of the catalogue's index region, in
    bytes. *)
Context (old_mac : list Z) (no_cache : cache (V := bit_leaf)).
Context (random_key : Z -> list Z) (random_buffer : Z -> Z -> Z) (stale catalogue_start : Z).

Abbreviation disk_file := (bit_file (H := file_nodes)).
Abbreviation disk_level := (bit_level (H := file_nodes)).
Abbreviation builder := (bit_builder (H1 := H1)).

(** ** Files and their catalogue *)

(** [catalogue->start + fd * catalogue->file_size] *)
Definition slot_begin (fd : Z) : Z := u64 (catalogue_start + fd * lsm_file_size).

(** The initializer leaves [root_iv] zero. *)
Definition bit_file_get_stats (f : disk_file) : file_stat :=
  {| fs_root := bf_root f; fs_root_key := file_key f; fs_root_iv := zeros (Z.to_nat AES_GCM_IV_SIZE); fs_id := bf_id f;
     fs_level := bf_level f; fs_version := bf_version f; fs_first_key := bf_first_key f; fs_last_key := bf_last_key f;
     fs_nr_record := bf_nr_record f |}.

(** [list_for_each_entry] over two copies of the list *)
Definition interval_overlapping (begin1 end1 begin2 end2 : Z) : bool := negb ((end1 <? begin2) || (end2 <? begin1)).

Definition lsm_file_overlapping (files : list disk_file) : bool :=
  existsb (fun f1 => existsb (fun f2 =>
    negb (bf_id f1 =? bf_id f2) &&
    interval_overlapping (bf_first_key f1) (bf_last_key f1) (bf_first_key f2) (bf_last_key f2)) files) files.

Definition level_at (file : kfile) (l : disk_level) : disk_level := with_files l (at_file file <$> bl_files l).

(** [struct compaction_job], with the tables of [jindisk->meta]. *)
Record compaction_job : Type := CompactionJob {
  cj_file : kfile;
  cj_catalogue : bit_catalogue;
  cj_level1 : disk_level;
  cj_level2 : disk_level;
  cj_tables : block_tables
}.

Implicit Types (job : compaction_job).

Definition with_catalogue job cat : compaction_job :=
  {| cj_file := cj_file job; cj_catalogue := cat; cj_level1 := cj_level1 job; cj_level2 := cj_level2 job; cj_tables := cj_tables job |}.
Definition with_level1 job l : compaction_job :=
  {| cj_file := cj_file job; cj_catalogue := cj_catalogue job; cj_level1 := l; cj_level2 := cj_level2 job; cj_tables := cj_tables job |}.
Definition with_level2 job l : compaction_job :=
  {| cj_file := cj_file job; cj_catalogue := cj_catalogue job; cj_level1 := cj_level1 job; cj_level2 := l; cj_tables := cj_tables job |}.
Definition with_tables job t : compaction_job :=
  {| cj_file := cj_file job; cj_catalogue := cj_catalogue job; cj_level1 := cj_level1 job; cj_level2 := cj_level2 job; cj_tables := t |}.

(** Levels seen through the present backing file. *)
Definition with_file job (file : kfile) : compaction_job :=
  {| cj_file := file; cj_catalogue := cj_catalogue job; cj_level1 := level_at file (cj_level1 job);
     cj_level2 := level_at file (cj_level2 job); cj_tables := cj_tables job |}.

(** ** Moving files down without merging *)

Definition renew (f : disk_file) (level version : Z) : disk_file :=
  {| bf_file := bf_file f; bf_id := bf_id f; bf_level := level; bf_version := version; bf_root := bf_root f;
     bf_first_key := bf_first_key f; bf_last_key := bf_last_key f; bf_nr_record := bf_nr_record f;
     bf_cached_leaf := bf_cached_leaf f; bf_cached_root := bf_cached_root f |}.

(** The results of [set_file_stats], [add_file] and [remove_file] are ignored. *)
Fixpoint move_files (files : list disk_file) job : option compaction_job :=
  match files with
  | [] => Some job
  | file :: files =>
      let '(cat, version) := bitc_get_next_version (cj_catalogue job) in
      let file := renew file (bl_level (cj_level2 job)) version in
      let '(cat, _) := bitc_set_file_stats cat (bf_id file) (bit_file_get_stats file) in
      match bit_level_add_file (cj_level2 job) file with
      | None => None
      | Some (level2, _) =>
          let '(level1, _) := bit_level_remove_file (cj_level1 job) (bf_id file) in
          move_files files (with_level1 (with_level2 (with_catalogue job cat) level2) level1)
      end
  end.

(** ** Output *)

(** The builder writes to the backing file. *)
Record merge_output : Type := MergeOutput { mo_job : compaction_job; mo_fd : Z; mo_builder : builder }.

Definition current_file (out : merge_output) : kfile := bo_file (bb_out (mo_builder out)).

(** [alloc_file], [get_next_version], [get_builder]: without a free slot [fd]
    keeps its value. *)
Definition open_builder job (fd : Z) : option merge_output :=
  let '(cat, r) := bitc_alloc_file (cj_catalogue job) in
  let fd := match r with Ok fd => fd | Err _ => fd end in
  let '(cat, version) := bitc_get_next_version cat in
  match bit_builder_init (cj_file job) (slot_begin fd) fd (bl_level (cj_level2 job)) version (random_key version) (random_buffer version) with
  | None => None
  | Some b => Some {| mo_job := with_catalogue job cat; mo_fd := fd; mo_builder := b |}
  end.

(** [if (new.val) builder->add_entry(builder, &new)] *)
Definition add_new (b : builder) (new : option entry) : option builder :=
  match new with
  | Some (k, r) => bit_builder_add_entry old_mac b k r
  | None => Some b
  end.

(** The end of a key: the record kept is added, the block of an overwritten one
    is given up. *)
Definition emit (act : option entry * option entry) (out : merge_output) : option merge_output :=
  match add_new (mo_builder out) act.1 with
  | None => None
  | Some b =>
      let job := mo_job out in
      Some {| mo_job := match act.2 with
                        | Some (old_lba, old) => with_tables job (discard_block stale (cj_tables job) (pba old) old_lba)
                        | None => job
                        end;
              mo_fd := mo_fd out; mo_builder := b |}
  end.

(** [complete], [set_file_stats], [add_file] *)
Definition finish_output (out : merge_output) : option compaction_job :=
  match bit_builder_complete old_mac no_cache (mo_builder out) with
  | None => None
  | Some (file, f) =>
      let job := with_file (mo_job out) file in
      let '(cat, _) := bitc_set_file_stats (cj_catalogue job) (bf_id f) (bit_file_get_stats f) in
      match bit_level_add_file (cj_level2 job) f with
      | None => None
      | Some (level2, _) => Some (with_level2 (with_catalogue job cat) level2)
      end
  end.

Definition rotate (out : merge_output) : option merge_output :=
  if DEFAULT_LSM_FILE_CAPACITY <=? bb_size (mo_builder out) then
    match finish_output out with
    | None => None
    | Some job => open_builder job (mo_fd out)
    end
  else Some out.

(** [while (heap.nr > 0)], and the end of the last key. *)
Fixpoint merge_loop (fuel : nat) (src : merge_source) (mv : merge_vars) (out : merge_output) : option merge_output :=
  match fuel with
  | O => None
  | S fuel =>
      match ms_heap src with
      | [] => emit (merge_emit mv) out
      | first :: _ =>
          match source_next (current_file out) first src with
          | None => None
          | Some src =>
              if kn_key (mv_distinct mv) =? kn_key first then merge_loop fuel src (merge_same mv first) out
              else
                match emit (merge_emit mv) out with
                | None => None
                | Some out =>
                    match rotate out with
                    | None => None
                    | Some out => merge_loop fuel src (start_key first) out
                    end
                end
          end
      end
  end.

(** ** The job *)

(** [remove_file], [release_file], [destroy]; the results are ignored. *)
Fixpoint drop_demoted (files : list disk_file) job : compaction_job :=
  match files with
  | [] => job
  | f :: files =>
      let job := with_level1 job (bit_level_remove_file (cj_level1 job) (bf_id f)).1 in
      drop_demoted files (with_catalogue job (bitc_release_file (cj_catalogue job) (bf_id f)).1)
  end.

Fixpoint drop_relatives (files : list disk_file) job : compaction_job :=
  match files with
  | [] => job
  | f :: files =>
      let job := with_level2 job (bit_level_remove_file (cj_level2 job) (bf_id f)).1 in
      drop_relatives files (with_catalogue job (bitc_release_file (cj_catalogue job) (bf_id f)).1)
  end.

Definition count_records (files : list disk_file) : nat :=
  Z.to_nat (foldr (fun (f : disk_file) n => bf_nr_record f + n) 0 files).

(** The loop takes one round per record of the files; an empty heap has no
    first entry. [uninit] is the value of [fd] when there is no slot at all. *)
Definition merge_files (uninit : Z) (demoted relatives : list disk_file) job : option compaction_job :=
  match open_source (cj_file job) demoted relatives with
  | None => None
  | Some src =>
      match ms_heap src with
      | [] => None
      | distinct :: _ =>
          match open_builder job uninit with
          | None => None
          | Some out =>
              match merge_loop (S (count_records (demoted ++ relatives))) src (start_key distinct) out with
              | None => None
              | Some out =>
                  match finish_output out with
                  | None => None
                  | Some job => Some (drop_relatives relatives (drop_demoted demoted job))
                  end
              end
          end
      end
  end.

(** A level without files leaves the list of demoted files empty. *)
Definition compaction_job_run (uninit : Z) job : option compaction_job :=
  let job := with_file job (cj_file job) in
  let demoted := match bit_level_pick_demoted_files (cj_level1 job) with Ok files => files | Err _ => [] end in
  match bit_level_find_relative_files (cj_level2 job) demoted with
  | None => None
  | Some relatives =>
      if match relatives with [] => negb (lsm_file_overlapping demoted) | _ => false end
      then move_files demoted job
      else merge_files uninit demoted relatives job
  end.

(** ** The compactions of the tree *)

(** What [struct lsm_tree] keeps on disk, with the tables of [jindisk->meta]. *)
Record disk_tree : Type := DiskTree {
  dt_file : kfile;
  dt_catalogue : bit_catalogue;
  dt_levels : list disk_level;
  dt_tables : block_tables
}.

Implicit Types (this : disk_tree).

(** [compaction_job_create] *)
Definition compaction_job_init this (level1 level2 : disk_level) : compaction_job :=
  {| cj_file := dt_file this; cj_catalogue := dt_catalogue this; cj_level1 := level1; cj_level2 := level2; cj_tables := dt_tables this |}.

(** The levels seen through the file that the job has written to. *)
Definition after_job this (i j : nat) job : disk_tree :=
  {| dt_file := cj_file job; dt_catalogue := cj_catalogue job;
     dt_levels := <[j := cj_level2 job]> (<[i := cj_level1 job]> (level_at (cj_file job) <$> dt_levels this));
     dt_tables := cj_tables job |}.

(** [fuel] is the number of levels; the code reads [levels[level + 1]] without
    looking at the number of levels. *)
Fixpoint lsm_tree_major_compaction (fuel : nat) (uninit : Z) this (level : nat) : option disk_tree :=
  match fuel, dt_levels this !! S level with
  | S fuel, Some next =>
      match if bit_level_is_full next then lsm_tree_major_compaction fuel uninit this (S level) else Some this with
      | None => None
      | Some this =>
          match dt_levels this !! level, dt_levels this !! S level with
          | Some level1, Some level2 =>
              match compaction_job_run uninit (compaction_job_init this level1 level2) with
              | None => None
              | Some job => Some (after_job this level (S level) job)
              end
          | _, _ => None
          end
      end
  | _, _ => None
  end.

(** [if (ep->val) ...; if (ep->negative_val) ...] *)
Fixpoint add_memtable (es : list memtable_entry) (b : builder) : option builder :=
  match es with
  | [] => Some b
  | ep :: es =>
      match add_new b (pair (me_key ep) <$> me_val ep) with
      | None => None
      | Some b =>
          match add_new b (pair (me_key ep) <$> me_negative_val ep) with
          | None => None
          | Some b => add_memtable es b
          end
      end
  end.

(** The new file goes to level 0 by the steps that a merge takes for its
    outputs. *)
Definition lsm_tree_minor_compaction (uninit : Z) this (m : memtable) : option disk_tree :=
  match dt_levels this !! 0%nat with
  | None => None
  | Some level0 =>
      match if bit_level_is_full level0 then lsm_tree_major_compaction (length (dt_levels this)) uninit this 0 else Some this with
      | None => None
      | Some this =>
          match dt_levels this !! 0%nat with
          | None => None
          | Some level0 =>
              match open_builder (compaction_job_init this level0 level0) uninit with
              | None => None
              | Some out =>
                  match add_memtable (rbtree_memtable_get_all_entry m) (mo_builder out) with
                  | None => None
                  | Some b =>
                      match finish_output {| mo_job := mo_job out; mo_fd := mo_fd out; mo_builder := b |} with
                      | None => None
                      | Some job => Some (after_job this 0 0 job)
                      end
                  end
              end
          end
      end
  end.

(** The handler of [compaction_wq]; the immutable memtable is not looked at
    before it is used. *)
Definition minor_compaction_handler (uninit : Z) this (immutable : option memtable) : option disk_tree :=
  match immutable with
  | None => None
  | Some m => lsm_tree_minor_compaction uninit this m
  end.

(** ** Slots of the index region *)
Section correct.
Context (mac_length : length old_mac = 16%nat) (no_cache_empty : forall k, cache_view no_cache k = None).
Context (keys_encrypt : forall v, encrypts (random_key v)).
(** The devices below the catalogue work; the fields of [struct file_stat] are
    as wide as those of the file they are copied from. *)
Context (table_reads : reliable) (table_writes : writable).
Context (stats_fit : forall f, darr_entry_ok (bit_file_get_stats f)).

Definition used (cat : bit_catalogue) (i : Z) : Prop := bc_slots cat !! Z.to_nat i = Some true.
Definition nr_slots (cat : bit_catalogue) : Z := Z.of_nat (length (bc_slots cat)).
Definition nr_free (cat : bit_catalogue) : nat := length (filter (fun b => b = false) (bc_slots cat)).

(** [cat] is [cat0] with the slots [ids] taken. *)
Record slots_inv (cat0 cat : bit_catalogue) (ids : list Z) : Prop := {
  si_wf : bc_wf cat;
  si_nr : nr_slots cat = nr_slots cat0;
  si_used : forall i, 0 <= i -> used cat i <-> used cat0 i \/ i ∈ ids;
  si_new : Forall (fun i => 0 <= i < nr_slots cat0 /\ ~ used cat0 i) ids;
  si_nodup : NoDup ids;
  si_free : (nr_free cat + length ids = nr_free cat0)%nat
}.

Lemma filter_insert_true (l : list bool) i : l !! i = Some false ->
  S (length (filter (fun b => b = false) (<[i := true]> l))) = length (filter (fun b => b = false) l).
Proof.
  intros Hi. apply list_elem_of_split_length in Hi as (l1 & l2 & -> & ->).
  rewrite insert_app_r_alt, Nat.sub_diag by lia. cbn [insert list_insert].
  rewrite !filter_app, (filter_cons_False _ true), (filter_cons_True _ false), !length_app by done. cbn [length]. lia.
Qed.

Lemma slots_inv_start cat : bc_wf cat -> slots_inv cat cat [].
Proof.
  intros Hwf. split; [done|done| |constructor|constructor|cbn; lia]. intros i _. split; [by left|]. intros [|?%elem_of_nil]; done.
Qed.

Lemma alloc_slot cat0 cat ids : slots_inv cat0 cat ids -> (0 < nr_free cat)%nat ->
  exists cat' fd, bitc_alloc_file cat = (cat', Ok fd) /\ slots_inv cat0 cat' (ids ++ [fd]) /\
    bc_max_version cat' = bc_max_version cat.
Proof.
  intros [Hwf Hnr Hused Hnew Hnd Hfree] Hpos. destruct (filter (fun b => b = false) (bc_slots cat)) as [|b l] eqn:Hf; [unfold nr_free in Hpos; rewrite Hf in Hpos; cbn in Hpos; lia|].
  assert (b ∈ filter (fun b => b = false) (bc_slots cat)) as Hb by (rewrite Hf; by left).
  apply list_elem_of_filter in Hb as [-> Hb]. apply list_elem_of_lookup in Hb as [i Hi].
  destruct (bitc_alloc_works cat i table_reads table_writes Hwf Hi) as (cat' & fd & Ha & Hwf' & Hmv & Hfd & Hfree' & Hslots).
  assert (~ used cat fd) as Hnu by (unfold used; congruence).
  assert (length (bc_slots cat') = length (bc_slots cat)) as Hlen by (by rewrite Hslots, length_insert).
  exists cat', fd. split; [done|]. split; [|done]. split; [done|unfold nr_slots in *; lia|..].
  - intros j Hj. unfold used at 1. rewrite Hslots, elem_of_app, list_elem_of_singleton. destruct (Z.eq_dec j fd) as [->|Hne].
    + rewrite list_lookup_insert_eq by lia. split; [by right; right|done].
    + rewrite list_lookup_insert_ne by lia. fold (used cat j). rewrite (Hused j Hj). tauto.
  - apply Forall_app. split; [done|]. constructor; [|constructor]. unfold nr_slots in *. split; [lia|]. intros Hu. apply Hnu, Hused; [lia|by left].
  - apply NoDup_app. split; [done|]. split; [|apply NoDup_singleton]. intros x Hx ->%list_elem_of_singleton.
    apply Hnu, Hused; [lia|by right].
  - pose proof (filter_insert_true _ _ Hfree') as Hc. unfold nr_free in *. rewrite Hslots, length_app. cbn. lia.
Qed.

Lemma slots_inv_frame cat0 cat cat' ids : slots_inv cat0 cat ids -> bc_wf cat' -> bc_slots cat' = bc_slots cat -> slots_inv cat0 cat' ids.
Proof. intros [Hwf Hnr Hused Hnew Hnd Hfree] Hwf' Heq. unfold nr_slots, used, nr_free in *. split; unfold nr_slots, used, nr_free; rewrite ?Heq; done. Qed.

(** *** Where the slots lie *)

Context (start_ok : 0 <= catalogue_start).

Definition region_ok (cat : bit_catalogue) : Prop := catalogue_start + nr_slots cat * lsm_file_size < 2 ^ 64.

Lemma lsm_file_size_pos : 0 < lsm_file_size.
Proof. by rewrite lsm_file_size_value. Qed.

Lemma slot_begin_value cat i : region_ok cat -> 0 <= i < nr_slots cat ->
  slot_begin i = catalogue_start + i * lsm_file_size /\ 0 <= slot_begin i /\ slot_begin i + lsm_file_size < 2 ^ 64.
Proof.
  intros Hreg Hi. unfold region_ok in Hreg. pose proof lsm_file_size_pos. unfold slot_begin. rewrite u64_small by nia. split; [done|nia].
Qed.

Definition outside (ids : list Z) (q : Z) : Prop := Forall (fun i => q < slot_begin i \/ slot_begin i + lsm_file_size <= q) ids.

Lemma slot_outside cat i ids q : region_ok cat -> 0 <= i < nr_slots cat -> Forall (fun j => 0 <= j < nr_slots cat) ids -> ~ i ∈ ids ->
  slot_begin i <= q < slot_begin i + lsm_file_size -> outside ids q.
Proof.
  intros Hreg Hi Hids Hni Hq. apply Forall_forall. intros j Hj. rewrite Forall_forall in Hids. pose proof lsm_file_size_pos.
  destruct (slot_begin_value cat i Hreg Hi) as [Hbi _]. destruct (slot_begin_value cat j Hreg (Hids j Hj)) as [Hbj _].
  assert (i <> j) by congruence. rewrite Hbj, Hbi in *. destruct (Z.lt_ge_cases i j); nia.
Qed.

(** ** The job on the way *)
Section job.
Context (job0 : compaction_job) (region : region_ok (cj_catalogue job0)).

Abbreviation cat0 := (cj_catalogue job0).
Abbreviation grouped_file := (disk_file * list (list bit_leaf))%type.

Lemma at_file_id file (f : disk_file) key : bf_file f = (file, key) -> at_file file f = f.
Proof. destruct f as [[file' key']]. unfold at_file, file_key, with_store. cbn. by intros [= -> ->]. Qed.

Lemma at_file_keys file (files : list disk_file) : file_keys <$> (at_file file <$> files) = file_keys <$> files.
Proof. rewrite <- list_fmap_compose. by apply list_fmap_ext. Qed.

Lemma cmp_sorted_at file (files : list disk_file) : cmp_sorted files -> cmp_sorted (at_file file <$> files).
Proof.
  unfold cmp_sorted. induction 1 as [|f files Hs IH Hf]; cbn; constructor; [done|]. apply Forall_fmap.
  eapply Forall_impl; [exact Hf|]. done.
Qed.

(** A finished file, in its slot. *)
Record output_ok (file : kfile) (fg : grouped_file) : Prop := {
  ou_slot : file_in_slot (at_file file fg.1) fg.2 (slot_begin (bf_id fg.1));
  ou_level : bf_level fg.1 = bl_level (cj_level2 job0)
}.

Lemma moved_slot file file' (f : disk_file) groups i :
  (forall q, slot_begin i <= q < slot_begin i + lsm_file_size -> file_byte file' q = file_byte file q) ->
  file_in_slot (at_file file f) groups (slot_begin i) -> file_in_slot (at_file file' f) groups (slot_begin i).
Proof. intros Hag Hs. exact (slot_moves (at_file file f) groups _ file file' (file_key f) Hs eq_refl Hag). Qed.

(** The files written so far, [fs], are in [level2]; nothing but the slots
    [ids] has changed. *)
Record job_inv job (fs : list grouped_file) (ids : list Z) : Prop := {
  ji_slots : slots_inv cat0 (cj_catalogue job) ids;
  ji_level1 : cj_level1 job = level_at (cj_file job) (cj_level1 job0);
  ji_level2 : exists files2, cj_level2 job = with_files (cj_level2 job0) files2 /\ cmp_sorted files2 /\
    files2 ≡ₚ at_file (cj_file job) <$> (fs.*1 ++ bl_files (cj_level2 job0));
  ji_outputs : Forall (output_ok (cj_file job)) fs;
  ji_file : forall q, outside ids q -> file_byte (cj_file job) q = file_byte (cj_file job0) q;
  ji_version : bc_max_version (cj_catalogue job) = bc_max_version cat0 + Z.of_nat (length ids);
  ji_versions : bf_version <$> fs.*1 = seqZ (bc_max_version cat0) (Z.of_nat (length fs))
}.

(** The blocks given up so far. *)
Definition tables_after (t : block_tables) (es : list entry) : block_tables :=
  foldl (fun t e => discard_block stale t (pba e.2) e.1) t es.

(** A builder is at work on the slot [mo_fd], with the entries [es]. *)
Record out_inv (out : merge_output) (acts : list (option entry * option entry)) (fs : list grouped_file) (es : list entry) : Prop := {
  oi_job : job_inv (mo_job out) fs ((bf_id <$> fs.*1) ++ [mo_fd out]);
  oi_building : building old_mac (cj_file (mo_job out)) (random_key (bc_max_version cat0 + Z.of_nat (length fs)))
    (slot_begin (mo_fd out)) (mo_fd out) (bl_level (cj_level2 job0)) (bc_max_version cat0 + Z.of_nat (length fs)) (mo_builder out) es;
  oi_entries : added acts = concat (file_entries <$> fs) ++ es;
  oi_full : Forall (fun fg => Z.of_nat (length (file_entries fg)) = DEFAULT_LSM_FILE_CAPACITY) fs;
  oi_tables : cj_tables (mo_job out) = tables_after (cj_tables job0) (given_up acts)
}.

Lemma ids_in_range job fs ids : job_inv job fs ids -> Forall (fun i => 0 <= i < nr_slots cat0) ids.
Proof. intros [[_ _ _ Hnew _ _] _ _ _ _ _ _]. eapply Forall_impl; [exact Hnew|]. by intros i [Hi _]. Qed.

(** What a slot that was in use before holds. *)
Lemma current_slot out acts fs es i q : out_inv out acts fs es -> used cat0 i -> 0 <= i < nr_slots cat0 ->
  slot_begin i <= q < slot_begin i + lsm_file_size -> file_byte (current_file out) q = file_byte (cj_file job0) q.
Proof.
  intros [Hjob Hb _ _ _] Hu Hi Hq. pose proof (ids_in_range _ _ _ Hjob) as Hids.
  assert (outside ((bf_id <$> fs.*1) ++ [mo_fd out]) q) as Hout.
  { apply (slot_outside cat0 i); try done. intros Hin. destruct Hjob as [[_ _ _ Hnew _ _] _ _ _ _ _ _].
    rewrite Forall_forall in Hnew. by apply Hnew in Hin as [_ ?]. }
  destruct Hjob as [_ _ _ _ Hfile _ _]. rewrite <- Hfile by done. apply Forall_app in Hout as [_ Hout].
  apply Forall_cons in Hout as [Hout _].
  exact (building_frame _ mac_length _ _ _ _ _ _ _ _ Hb q Hout).
Qed.

Lemma emit_ok out acts fs es (act : option entry * option entry) : out_inv out acts fs es -> Z.of_nat (length es) < DEFAULT_LSM_FILE_CAPACITY ->
  (forall e, act.1 = Some e -> 0 <= e.1 < 2 ^ 32) ->
  exists out', emit act out = Some out' /\ out_inv out' (acts ++ [act]) fs (es ++ option_list act.1).
Proof.
  intros [Hjob Hb He Hfull Ht] Hcap Hk. pose proof (ids_in_range _ _ _ Hjob) as Hids. apply Forall_app in Hids as [_ Hids].
  apply Forall_cons in Hids as [Hfd _]. destruct (slot_begin_value cat0 (mo_fd out) region Hfd) as (_ & Hb0 & Hb1).
  assert (exists b, add_new (mo_builder out) act.1 = Some b /\
    building old_mac (cj_file (mo_job out)) (random_key (bc_max_version cat0 + Z.of_nat (length fs)))
      (slot_begin (mo_fd out)) (mo_fd out) (bl_level (cj_level2 job0)) (bc_max_version cat0 + Z.of_nat (length fs)) b (es ++ option_list act.1)) as (b & Hadd & Hb').
  { unfold add_new. destruct act.1 as [[k r]|]; [|exists (mo_builder out); by rewrite app_nil_r].
    exact (building_add _ mac_length _ _ _ _ _ _ _ _ k r Hb Hb0 Hb1 (Hk _ eq_refl) Hcap). }
  unfold emit. rewrite Hadd. eexists. split; [reflexivity|].
  assert (forall t, job_inv (mo_job out) fs ((bf_id <$> fs.*1) ++ [mo_fd out]) -> job_inv (with_tables (mo_job out) t) fs ((bf_id <$> fs.*1) ++ [mo_fd out])) as Hwt.
  { intros t [Hs H1' H2' Ho Hf Hv Hvs]. by split. }
  split; cbn [mo_job mo_fd mo_builder].
  - destruct act.2 as [[k r]|]; [by apply Hwt|done].
  - destruct act.2 as [[k r]|]; exact Hb'.
  - unfold added in *. rewrite omap_app, He. cbn. by destruct act.1; rewrite ?app_assoc, ?app_nil_r.
  - done.
  - unfold given_up, tables_after in *. rewrite omap_app, foldl_app, <- Ht. cbn. by destruct act.2 as [[k r]|].
Qed.

Lemma output_moves file file' ids fs : Forall (output_ok file) fs -> Forall (fun i => 0 <= i < nr_slots cat0) ids ->
  Forall (fun fg : grouped_file => 0 <= bf_id fg.1 < nr_slots cat0 /\ ~ bf_id fg.1 ∈ ids) fs ->
  (forall q, outside ids q -> file_byte file' q = file_byte file q) -> Forall (output_ok file') fs.
Proof.
  intros Hok Hids Hfs Hag. rewrite Forall_forall in Hfs, Hok |- *. intros [f g] Hfg. destruct (Hok _ Hfg) as [Hs Hl].
  destruct (Hfs _ Hfg) as [Hr Hni]. split; [|done]. cbn [fst snd] in *. eapply moved_slot; [|exact Hs]. intros q Hq. apply Hag.
  by apply (slot_outside cat0 (bf_id f)).
Qed.

(** The room of [level2]. *)
Definition level2_room (n : nat) : Prop := bl_size (cj_level2 job0) + Z.of_nat n <= bl_max_size (cj_level2 job0).

Lemma finish_ok out acts fs es : out_inv out acts fs es -> es <> [] -> Z.of_nat (length es) <= DEFAULT_LSM_FILE_CAPACITY ->
  keys_le es -> Forall entry_ok es -> level2_room (S (length fs)) ->
  exists job f g, finish_output out = Some job /\ file_entries (f, g) = es /\
    job_inv job (fs ++ [(f, g)]) (bf_id <$> (fs ++ [(f, g)]).*1) /\ cj_tables job = cj_tables (mo_job out).
Proof.
  intros [Hjob Hb _ _ _] Hne Hcap Hsort Hok Hroom. pose proof (ids_in_range _ _ _ Hjob) as Hids.
  pose proof Hids as [_ Hfd]%Forall_app. apply Forall_cons in Hfd as [Hfd _].
  destruct (slot_begin_value cat0 (mo_fd out) region Hfd) as (_ & Hb0 & Hb1).
  destruct (building_complete _ _ mac_length no_cache_empty _ _ _ _ _ _ _ _ Hb Hb0 Hb1 Hne Hcap Hsort Hok (keys_encrypt _))
    as (file' & f & Hcomp & (Hff & Hid & Hlev & Hver & g & Hent & Hslot) & Hout).
  pose proof (at_file_id file' f _ Hff) as Hself. destruct Hjob as [Hslots Hl1 (files2 & Hl2 & Hsorted2 & Hperm2) Houts Hfile Hv Hvs].
  unfold finish_output. rewrite Hcomp.
  pose proof (bitc_set_stats_frame (cj_catalogue (mo_job out)) (bf_id f) (bit_file_get_stats f) (si_wf _ _ _ Hslots) ltac:(rewrite Hid; lia) (stats_fit f)) as Hstats.
  destruct (bitc_set_file_stats (cj_catalogue (mo_job out)) (bf_id f) (bit_file_get_stats f)) as [cat r] eqn:Hset. cbn [fst] in Hstats.
  destruct Hstats as (Hwf' & Hmv' & Hsl'). cbn [with_file cj_catalogue]. rewrite Hset.
  set (level2 := cj_level2 (with_file (mo_job out) file')).
  assert (level2 = with_files (cj_level2 job0) (at_file file' <$> files2)) as Hlevel2 by (unfold level2; cbn; by rewrite Hl2).
  assert (at_file file' <$> files2 ≡ₚ at_file file' <$> (fs.*1 ++ bl_files (cj_level2 job0))) as Hperm'.
  { rewrite Hperm2, <- list_fmap_compose. by rewrite (list_fmap_ext _ (at_file file')) by done. }
  destruct (add_file_spec level2 f) as (level2' & r' & Hadd & Hroom' & _); [rewrite Hlevel2; by apply cmp_sorted_at|].
  destruct Hroom' as (_ & Hsort' & Hperm3).
  { rewrite Hlevel2. unfold bl_size, level2_room, bl_size in *. cbn [bl_files with_files bl_max_size]. rewrite length_fmap.
    apply Permutation_length in Hperm'. rewrite !length_fmap, length_app, length_fmap in Hperm'. lia. }
  rewrite Hadd. eexists _, f, g. split; [reflexivity|]. split; [exact Hent|]. split; [|done].
  assert ((bf_id <$> (fs ++ [(f, g)]).*1) = (bf_id <$> fs.*1) ++ [mo_fd out]) as Hidseq by (rewrite !fmap_app; cbn; by rewrite Hid).
  rewrite Hidseq. split; cbn [cj_catalogue cj_level1 cj_level2 cj_file with_level2 with_catalogue with_file].
  - by eapply slots_inv_frame.
  - rewrite Hl1. unfold level_at. cbn. f_equal. by rewrite <- list_fmap_compose.
  - exists (bl_files level2'). split; [|split; [done|]].
    + unfold bit_level_add_file in Hadd. fold level2 in Hadd. rewrite Hlevel2 in Hadd. destruct (_ <=? _); [injection Hadd as <- <-; done|].
      destruct (bit_level_search_file _ _); [|done]. injection Hadd as <- <-. done.
    + rewrite Hperm3, Hlevel2. cbn [bl_files with_files]. rewrite Hperm', !fmap_app. cbn [fmap list_fmap fst]. rewrite Hself, <- app_assoc.
      apply Permutation_middle.
  - apply Forall_app. split.
    + eapply (output_moves (cj_file (mo_job out)) file' [mo_fd out]); [exact Houts|constructor; [exact Hfd|constructor]| |].
      * destruct Hslots as [_ _ _ _ Hnd _]. apply NoDup_app in Hnd as (_ & Hnd & _). apply Forall_app in Hids as [Hids _].
        rewrite !Forall_fmap in Hids. rewrite Forall_forall in Hids |- *. intros fg Hfg. split; [by apply Hids|].
        apply Hnd. apply list_elem_of_fmap_2, list_elem_of_fmap_2, Hfg.
      * intros q Hq. apply Forall_cons in Hq as [Hq _]. exact (Hout q Hq).
    + constructor; [|constructor]. split; cbn [fst snd]; [|done]. rewrite Hself, Hid. exact Hslot.
  - intros q Hq. rewrite <- (Hfile q Hq). apply Forall_app in Hq as [_ Hq]. apply Forall_cons in Hq as [Hq _]. exact (Hout q Hq).
  - by rewrite Hmv'.
  - rewrite !fmap_app, Hvs, length_app. cbn. rewrite Hver, Nat2Z.inj_add, seqZ_app by lia. done.
Qed.

Lemma open_builder_ok job fs fd acts : job_inv job fs (bf_id <$> fs.*1) -> (0 < nr_free (cj_catalogue job))%nat ->
  bc_max_version cat0 + Z.of_nat (nr_free cat0) < 2 ^ 64 -> 0 <= bc_max_version cat0 ->
  added acts = concat (file_entries <$> fs) -> Forall (fun fg => Z.of_nat (length (file_entries fg)) = DEFAULT_LSM_FILE_CAPACITY) fs ->
  cj_tables job = tables_after (cj_tables job0) (given_up acts) ->
  exists out, open_builder job fd = Some out /\ out_inv out acts fs [].
Proof.
  intros [Hslots Hl1 Hl2 Houts Hfile Hv Hvs] Hfree Hmax Hmin Hadd Hfull Ht.
  destruct (alloc_slot _ _ _ Hslots Hfree) as (cat & fd' & Halloc & Hslots' & Hmv). unfold open_builder. rewrite Halloc. cbn [bitc_get_next_version].
  pose proof (si_free _ _ _ Hslots') as Hf. rewrite !length_app, !length_fmap in Hf. cbn [length] in Hf. rewrite !length_fmap in Hv.
  assert (bc_max_version cat = bc_max_version cat0 + Z.of_nat (length fs)) as Hver by congruence. rewrite Hver.
  pose proof (si_new _ _ _ Hslots') as [_ Hfd]%Forall_app. apply Forall_cons in Hfd as [[Hfd _] _].
  destruct (slot_begin_value cat0 fd' region Hfd) as (_ & Hb0 & Hb1).
  destruct (building_init _ mac_length (cj_file job) (slot_begin fd') fd' (bl_level (cj_level2 job0)) (bc_max_version cat0 + Z.of_nat (length fs))
    (random_key (bc_max_version cat0 + Z.of_nat (length fs))) (random_buffer (bc_max_version cat0 + Z.of_nat (length fs))) Hb0) as (b & Hinit & Hb & _).
  assert (bl_level (cj_level2 job) = bl_level (cj_level2 job0)) as -> by (by destruct Hl2 as (files2 & -> & _)).
  rewrite Hinit. eexists. split; [reflexivity|]. split; cbn [mo_job mo_fd mo_builder]; [|exact Hb|by rewrite app_nil_r|done|done].
  split; cbn [cj_catalogue cj_level1 cj_level2 cj_file with_catalogue]; try done.
  - eapply slots_inv_frame; [exact Hslots'|destruct (si_wf _ _ _ Hslots'); by split|done].
  - intros q Hq. apply Hfile. by apply Forall_app in Hq as [? _].
  - cbn [bc_max_version]. rewrite u64_small by lia. rewrite length_app, !length_fmap. cbn. lia.
Qed.

Lemma start_inv : bc_wf cat0 -> level_at (cj_file job0) (cj_level1 job0) = cj_level1 job0 ->
  level_at (cj_file job0) (cj_level2 job0) = cj_level2 job0 -> cmp_sorted (bl_files (cj_level2 job0)) -> job_inv job0 [] [].
Proof.
  intros Hwf H1' Hat Hs. split; [by apply slots_inv_start|done| |constructor|done|cbn; lia|done].
  exists (bl_files (cj_level2 job0)). split; [by destruct (cj_level2 job0)|]. split; [done|]. cbn [fmap list_fmap app].
  rewrite <- Hat at 1. done.
Qed.

(** *** The loop *)
Section loop.
(** The files merged, in the order of the iterators. *)
Context (ins : list grouped_file).
Context (ins_sorted : Forall (fun fg => keys_le (file_entries fg)) ins) (ins_ok : inputs_ok ins).
Context (ins_slots : Forall (fun fg : grouped_file => used cat0 (bf_id fg.1) /\ 0 <= bf_id fg.1 < nr_slots cat0 /\
  file_in_slot (at_file (cj_file job0) fg.1) fg.2 (slot_begin (bf_id fg.1))) ins).
Context (ins_entries : Forall (fun fg => Forall entry_ok (file_entries fg)) ins).

Definition nr_records : nat := to_come (file_entries <$> ins).
Definition nr_outputs : nat := S (nr_records / Z.to_nat DEFAULT_LSM_FILE_CAPACITY).
Context (room1 : (nr_outputs <= nr_free cat0)%nat) (room2 : level2_room nr_outputs).
Context (versions : 0 <= bc_max_version cat0 /\ bc_max_version cat0 + Z.of_nat (nr_free cat0) < 2 ^ 64).

Lemma capacity_pos : 0 < DEFAULT_LSM_FILE_CAPACITY.
Proof. done. Qed.

Lemma outputs_bound n : (n * Z.to_nat DEFAULT_LSM_FILE_CAPACITY <= nr_records)%nat -> (n < nr_outputs)%nat.
Proof.
  intros Hn. unfold nr_outputs. apply Nat.lt_succ_r. pose proof capacity_pos. apply Nat.div_le_lower_bound; [lia|]. by rewrite Nat.mul_comm.
Qed.

Lemma concat_full fs : Forall (fun fg => Z.of_nat (length (file_entries fg)) = DEFAULT_LSM_FILE_CAPACITY) fs ->
  length (concat (file_entries <$> fs)) = (length fs * Z.to_nat DEFAULT_LSM_FILE_CAPACITY)%nat.
Proof.
  induction 1 as [|fg fs Hfg _ IH]; [done|]. cbn [fmap list_fmap concat length Nat.mul]. rewrite length_app, IH. rewrite <- Hfg at 1. lia.
Qed.

Lemma rotate_ok out acts fs es : out_inv out acts fs es -> Z.of_nat (length es) <= DEFAULT_LSM_FILE_CAPACITY ->
  keys_le es -> Forall entry_ok es -> (length (added acts) <= nr_records)%nat ->
  exists out' fs' es', rotate out = Some out' /\ out_inv out' acts fs' es' /\ Z.of_nat (length es') < DEFAULT_LSM_FILE_CAPACITY.
Proof.
  intros Hinv Hcap Hsort Hok Hlen. pose proof Hinv as [_ [_ Hn _] Hadd Hfull Ht]. unfold rotate. rewrite (no_size _ _ _ _ _ _ Hn).
  destruct (Z.leb_spec DEFAULT_LSM_FILE_CAPACITY (Z.of_nat (length es))) as [Hge|Hlt]; [|exists out, fs, es; split; [done|]; split; [exact Hinv|exact Hlt]].
  assert (0 < DEFAULT_LSM_FILE_CAPACITY) as Hpos by done.
  rewrite Hadd, length_app, (concat_full fs Hfull) in Hlen.
  pose proof (outputs_bound (S (length fs)) ltac:(cbn [Nat.mul]; lia)) as Hb.
  destruct (finish_ok out acts fs es Hinv) as (job & f & g & Hfin & Hent & Hjob & Htab).
  { intros ->. cbn in Hge. lia. } { done. } { done. } { done. } { unfold level2_room in *. lia. }
  rewrite Hfin. assert (length fs < nr_free cat0)%nat as Hfree by lia.
  pose proof (si_free _ _ _ (ji_slots _ _ _ Hjob)) as Hf. rewrite !length_fmap, length_app in Hf. cbn in Hf.
  destruct (open_builder_ok job (fs ++ [(f, g)]) (mo_fd out) acts Hjob) as (out' & Hopen & Hinv'); [lia|apply versions|apply versions| | |congruence|].
  - rewrite fmap_app, concat_app, Hadd. cbn [fmap list_fmap concat]. by rewrite Hent, app_nil_r.
  - apply Forall_app. split; [done|]. constructor; [rewrite Hent; lia|constructor].
  - exists out', (fs ++ [(f, g)]), []. by rewrite Hopen.
Qed.

Lemma ins_readable out acts fs es : out_inv out acts fs es -> readable ins (current_file out).
Proof.
  intros Hinv. unfold readable. eapply Forall_impl; [exact ins_slots|]. intros [f g] (Hu & Hr & Hs). cbn [fst snd] in *.
  apply (moved_slot _ (current_file out)) in Hs; [by destruct Hs|]. intros q Hq. by eapply current_slot.
Qed.

(** The loop after the entries [Q]. *)
Record loop_inv (d : kway_merge_node) (Q : list kway_merge_node) (src : merge_source) (chains : list (list entry))
    (mv : merge_vars) (out : merge_output) (acts : list (option entry * option entry)) (fs : list grouped_file) (es : list entry) : Prop := {
  li_source : source_inv ins Q src chains;
  li_out : out_inv out acts fs es;
  li_room : Z.of_nat (length es) < DEFAULT_LSM_FILE_CAPACITY;
  li_acts : forall more, merge_actions (start_key d) (Q ++ more) = acts ++ merge_actions mv more;
  li_start : (exists ns, Q = d :: ns) \/ (Q = [] /\ acts = [] /\ mv = start_key d /\ head (ms_heap src) = Some d);
  li_count : (length Q + to_come chains = nr_records)%nat
}.

Lemma loop_merged d Q src chains mv out acts fs es ns : loop_inv d Q src chains mv out acts fs es -> Q = d :: ns ->
  merged Q (acts ++ [merge_emit mv]).
Proof.
  intros [Hsrc _ _ Hacts _ _] HQ. specialize (Hacts []). rewrite app_nil_r in Hacts. cbn [merge_actions] in Hacts. rewrite <- Hacts, HQ.
  apply merge_loop_merged; rewrite <- HQ; [by eapply source_runs_ok|apply Hsrc].
Qed.

(** What is added comes from the inputs. *)
Lemma added_entries_ok d Q src chains mv out acts fs es ns : loop_inv d Q src chains mv out acts fs es -> Q = d :: ns ->
  Forall entry_ok (added (acts ++ [merge_emit mv])).
Proof.
  intros Hinv HQ. pose proof (loop_merged _ _ _ _ _ _ _ _ _ _ Hinv HQ) as (_ & Hin & _). destruct Hinv as [Hsrc _ _ _ _ _].
  apply Forall_forall. intros [k r] Hkr. apply Hin in Hkr as [(l1 & n & l2 & HQ' & <- & <- & _) _].
  destruct (node_file ins Q src chains n Hsrc) as (f & g & Hfg & _ & _ & _ & He); [rewrite HQ'; apply elem_of_app; right; by left|].
  rewrite Forall_forall in ins_entries. specialize (ins_entries _ Hfg). rewrite Forall_forall in ins_entries. by apply ins_entries.
Qed.

(** What is given up is older than another entry of its key. *)
Lemma given_inputs d Q src chains mv out acts fs es ns e : loop_inv d Q src chains mv out acts fs es -> Q = d :: ns ->
  e ∈ given_up (acts ++ [merge_emit mv]) -> exists f' g', (f', g') ∈ ins /\ e ∈ file_entries (f', g') /\
    exists f2 g2, (f2, g2) ∈ ins /\ e.1 ∈ (file_entries (f2, g2)).*1 /\ bf_version f' < bf_version f2.
Proof.
  intros Hinv HQ He. pose proof (loop_merged _ _ _ _ _ _ _ _ _ _ Hinv HQ) as (_ & _ & Hsup). destruct Hinv as [Hs _ _ _ _ _].
  destruct (Hsup e He) as (m & n & Hm & Hn & <- & Hk & Hv).
  destruct (node_file ins Q src chains m Hs Hm) as (f' & g' & Hin & _ & _ & Hv' & He').
  destruct (node_file ins Q src chains n Hs Hn) as (f2 & g2 & Hin2 & _ & _ & Hv2 & He2).
  exists f', g'. split; [done|]. split; [done|]. exists f2, g2.
  split; [done|]. split; [rewrite <- Hk; by apply (list_elem_of_fmap_2 fst _ _ He2)|]. by rewrite <- Hv', <- Hv2.
Qed.

(** The last output is not empty if the record kept for the last key is not
    negative. *)
Lemma last_emitted d Q src chains mv out acts fs es ns k r : loop_inv d Q src chains mv out acts fs es -> Q = d :: ns ->
  kept Q k r -> negative_record r = false -> Forall (fun fg => Forall (fun e : entry => e.1 <= k) (file_entries fg)) ins ->
  (merge_emit mv).1 <> None.
Proof.
  intros [Hs _ _ Hacts _ _] HQ Hnew Hrpos Hmax. specialize (Hacts []). rewrite app_nil_r in Hacts. cbn [merge_actions] in Hacts. rewrite HQ, merge_actions_start in Hacts.
  eapply (merge_actions_last ns [d] (kn_key d) (start_key d)); [| | |exact Hacts|rewrite HQ in Hnew; exact Hnew|done|].
  - rewrite HQ in Hs. by apply source_runs_ok in Hs.
  - apply key_inv_start.
  - destruct Hs as [_ [Hsd _ _ _]]. by rewrite HQ in Hsd.
  - intros n Hn. destruct (node_file ins Q src chains n Hs) as (f1 & g1 & Hin & _ & _ & _ & He); [by rewrite HQ|].
    rewrite Forall_forall in Hmax. specialize (Hmax _ Hin). rewrite Forall_forall in Hmax. by apply (Hmax _ He).
Qed.

(** Full outputs are not empty. *)
Lemma full_outputs_ok (fs : list grouped_file) : Forall (fun fg => Z.of_nat (length (file_entries fg)) = DEFAULT_LSM_FILE_CAPACITY) fs ->
  Forall entry_ok (concat (file_entries <$> fs)) -> Forall (fun fg => file_entries fg <> [] /\ Forall entry_ok (file_entries fg)) fs.
Proof.
  intros Hfull Hall. apply Forall_forall. intros fg Hfg. rewrite Forall_forall in Hfull. rewrite Forall_forall in Hall. split.
  - intros Hnil'. specialize (Hfull _ Hfg). rewrite Hnil' in Hfull. pose proof capacity_pos. cbn in Hfull. lia.
  - apply Forall_forall. intros e He. apply Hall. apply list_elem_of_In, in_concat. exists (file_entries fg).
    split; apply list_elem_of_In; [by apply list_elem_of_fmap_2|done].
Qed.

(** What is emitted continues the output. *)
Lemma emitted d Q src chains mv out acts fs es ns : loop_inv d Q src chains mv out acts fs es -> Q = d :: ns ->
  exists out', emit (merge_emit mv) out = Some out' /\ out_inv out' (acts ++ [merge_emit mv]) fs (es ++ option_list (merge_emit mv).1) /\
    Z.of_nat (length (es ++ option_list (merge_emit mv).1)) <= DEFAULT_LSM_FILE_CAPACITY /\
    keys_le (es ++ option_list (merge_emit mv).1) /\ Forall entry_ok (es ++ option_list (merge_emit mv).1) /\
    (length (added (acts ++ [merge_emit mv])) <= length Q)%nat.
Proof.
  intros Hinv HQ. pose proof (loop_merged _ _ _ _ _ _ _ _ _ _ Hinv HQ) as (Hsorted & Hin & _). pose proof Hinv as [Hsrc Hout Hroom Hacts _ Hcount].
  pose proof Hout as [_ _ Hadd _ _].
  assert (added (acts ++ [merge_emit mv]) = concat (file_entries <$> fs) ++ es ++ option_list (merge_emit mv).1) as Hadd'.
  { unfold added in *. rewrite omap_app, Hadd, <- app_assoc. do 2 f_equal. }
  pose proof (added_entries_ok _ _ _ _ _ _ _ _ _ _ Hinv HQ) as Hok.
  assert (length (added (acts ++ [merge_emit mv])) <= length Q)%nat as Hlen.
  { specialize (Hacts []). rewrite app_nil_r in Hacts. cbn [merge_actions] in Hacts. rewrite <- Hacts, HQ, merge_actions_start.
    etransitivity; [apply added_length|]. apply (merge_actions_length ns (start_key d)). }
  rewrite Hadd', !Forall_app in Hok. destruct Hok as (_ & Hoke & Hoka).
  destruct (emit_ok out acts fs es (merge_emit mv) Hout Hroom) as (out' & Hemit & Hout').
  { intros e He. rewrite He in Hoka. cbn in Hoka. apply Forall_cons in Hoka as [[Hk _] _]. exact Hk. }
  exists out'. split; [done|]. split; [done|]. split; [rewrite length_app; destruct (merge_emit mv).1; cbn; lia|]. split; [|split; [by apply Forall_app|done]].
  rewrite Hadd', fmap_app in Hsorted. apply StronglySorted_app in Hsorted as (_ & _ & Hsorted). unfold keys_le.
  revert Hsorted. generalize ((es ++ option_list (merge_emit mv).1).*1). clear. induction 1 as [|x l Hs IH Hx]; constructor; [done|].
  eapply Forall_impl; [exact Hx|]. cbn. lia.
Qed.

Lemma merge_loop_ok : forall fuel d Q src chains mv out acts fs es, loop_inv d Q src chains mv out acts fs es ->
  (to_come chains < fuel)%nat -> (0 < nr_records)%nat ->
  exists out' Q' ns src' chains' mv' out1 acts' fs' es', merge_loop fuel src mv out = Some out' /\
    loop_inv d Q' src' chains' mv' out1 acts' fs' es' /\ Q' = d :: ns /\ ms_heap src' = [] /\ emit (merge_emit mv') out1 = Some out'.
Proof.
  induction fuel as [|fuel IH]; intros d Q src chains mv out acts fs es Hinv Hfuel Hpos; [lia|]. cbn [merge_loop].
  pose proof Hinv as [Hsrc Hout Hroom Hacts Hstart Hcount]. destruct (ms_heap src) as [|first tl] eqn:Hheap.
  { destruct Hstart as [[ns HQ]|(-> & _ & _ & Hh)]; [|done].
    destruct (emitted _ _ _ _ _ _ _ _ _ ns Hinv HQ) as (out' & Hemit & _). exists out', Q, ns, src, chains, mv, out, acts, fs, es.
    split; [done|]. split; [done|]. done. }
  destruct (source_step ins ins_sorted (current_file out) Q src chains first tl (ins_readable _ _ _ _ Hout) Hsrc Hheap)
    as (src' & chains' & Hnext & Hsrc' & Htc). rewrite Hnext.
  assert (exists ns, Q ++ [first] = d :: ns) as Hstart'.
  { destruct Hstart as [[ns ->]|(-> & _ & _ & Hh)]; [by eexists|]. injection Hh as ->. by eexists. }
  destruct (Z.eqb_spec (kn_key (mv_distinct mv)) (kn_key first)) as [Hk|Hk].
  - apply (IH d (Q ++ [first]) src' chains' (merge_same mv first) out acts fs es); [|lia|done]. split; try done.
    + intros more. rewrite <- app_assoc. cbn [app]. rewrite Hacts. cbn [merge_actions]. by destruct (Z.eqb_spec (kn_key (mv_distinct mv)) (kn_key first)).
    + by left.
    + rewrite length_app. cbn. lia.
  - destruct Hstart as [[ns HQ]|(-> & _ & -> & Hh)]; [|injection Hh as ->; by destruct Hk].
    destruct (emitted _ _ _ _ _ _ _ _ _ ns Hinv HQ) as (out1 & Hemit & Hout1 & Hcap & Hsort & Hok & Hlen). rewrite Hemit.
    destruct (rotate_ok out1 _ fs _ Hout1 Hcap Hsort Hok ltac:(lia)) as (out2 & fs' & es' & Hrot & Hout2 & Hroom'). rewrite Hrot.
    apply (IH d (Q ++ [first]) src' chains' (start_key first) out2 (acts ++ [merge_emit mv]) fs' es'); [|lia|done]. split; try done.
    + intros more. rewrite <- !app_assoc. cbn [app]. rewrite Hacts. cbn [merge_actions]. by destruct (Z.eqb_spec (kn_key (mv_distinct mv)) (kn_key first)).
    + by left.
    + rewrite length_app. cbn. lia.
Qed.
End loop.

(** *** The merge as a whole *)
Section merge.
(** The demoted file and its relatives, with their leaves. *)
Context (f : disk_file) (g : list (list bit_leaf)) (rels : list grouped_file).
Abbreviation inputs := ((f, g) :: rels).
Context (ins_sorted : Forall (fun fg => keys_le (file_entries fg)) inputs) (ins_ok : inputs_ok (reverse inputs)).
Context (ins_slots : Forall (fun fg : grouped_file => used cat0 (bf_id fg.1) /\ 0 <= bf_id fg.1 < nr_slots cat0 /\
  file_in_slot (at_file (cj_file job0) fg.1) fg.2 (slot_begin (bf_id fg.1))) inputs).
Context (ins_entries : Forall (fun fg => Forall entry_ok (file_entries fg)) inputs).
Context (room1 : (nr_outputs inputs <= nr_free cat0)%nat) (room2 : level2_room (nr_outputs inputs)).
Context (versions : 0 <= bc_max_version cat0 /\ bc_max_version cat0 + Z.of_nat (nr_free cat0) < 2 ^ 64).
Context (wf0 : bc_wf cat0) (at_level1 : level_at (cj_file job0) (cj_level1 job0) = cj_level1 job0)
  (at_level2 : level_at (cj_file job0) (cj_level2 job0) = cj_level2 job0) (sorted2 : cmp_sorted (bl_files (cj_level2 job0))).
Context (last_kept : exists k r, newest_input inputs k r /\ negative_record r = false /\
  Forall (fun fg => Forall (fun e : entry => e.1 <= k) (file_entries fg)) inputs).

Lemma nr_records_reverse (ins : list grouped_file) : nr_records (reverse ins) = nr_records ins.
Proof.
  unfold nr_records, to_come. rewrite fmap_reverse. induction (file_entries <$> ins) as [|l ls IH]; [done|].
  rewrite reverse_cons, concat_app, length_app, IH. cbn. rewrite app_nil_r, length_app. lia.
Qed.

Lemma nr_outputs_reverse ins : nr_outputs (reverse ins) = nr_outputs ins.
Proof. unfold nr_outputs. by rewrite nr_records_reverse. Qed.

Lemma Forall_reverse_2 {A} (P : A -> Prop) l : Forall P l -> Forall P (reverse l).
Proof. rewrite !Forall_forall. intros Hl x. rewrite elem_of_reverse. apply Hl. Qed.

Lemma newest_reverse ins k r : newest_input (reverse ins) k r <-> newest_input ins k r.
Proof.
  unfold newest_input. split; intros (f' & g' & Hf & Hr & Hmax); exists f', g'.
  - rewrite elem_of_reverse in Hf. split; [done|]. split; [done|]. intros f2 g2 Hin. apply Hmax. by rewrite elem_of_reverse.
  - rewrite elem_of_reverse. split; [done|]. split; [done|]. intros f2 g2 Hin. apply Hmax. by rewrite elem_of_reverse in Hin.
Qed.

Lemma records_count ins : Forall (fun fg : grouped_file => file_scannable (at_file (cj_file job0) fg.1) fg.2) ins ->
  count_records ins.*1 = nr_records ins.
Proof.
  intros Hall. unfold count_records, nr_records, to_come.
  assert (foldr (fun (f : disk_file) n => bf_nr_record f + n) 0 ins.*1 = Z.of_nat (length (concat (file_entries <$> ins)))) as ->; [|lia].
  induction Hall as [|[f1 g1] ins [_ _ Hn] Hall IH]; [done|]. cbn [fmap list_fmap concat foldr fst snd] in *. rewrite length_app, Nat2Z.inj_add, IH.
  f_equal. exact Hn.
Qed.

Lemma file_nonempty file fg : file_wf (at_file file fg.1) fg.2 -> file_entries fg <> [].
Proof. intros Hwf Hnil. pose proof (fw_first _ _ Hwf) as Hf. unfold file_entries in Hnil. by rewrite Hnil in Hf. Qed.

(** The merge terminates; its outputs hold what [merge_actions] adds for the
    entries [Q] in the order of the heap, and [Q] are all entries. *)
Lemma merge_files_ok uninit : exists job1 fs Q acts,
  merge_files uninit [f] rels.*1 job0 = Some (drop_relatives rels.*1 (drop_demoted [f] job1)) /\
  job_inv job1 fs (bf_id <$> fs.*1) /\ merged Q acts /\ concat (file_entries <$> fs) = added acts /\
  (forall k r, kept Q k r <-> newest_input inputs k r) /\
  Forall (fun fg => file_entries fg <> [] /\ Forall entry_ok (file_entries fg)) fs /\
  cj_tables job1 = tables_after (cj_tables job0) (given_up acts) /\
  (forall e, e ∈ given_up acts -> exists f' g', (f', g') ∈ inputs /\ e ∈ file_entries (f', g') /\
     exists f2 g2, (f2, g2) ∈ inputs /\ e.1 ∈ (file_entries (f2, g2)).*1 /\ bf_version f' < bf_version f2).
Proof.
  set (ins := reverse inputs).
  assert (readable ins (cj_file job0)) as Hread.
  { apply Forall_reverse_2. eapply Forall_impl; [exact ins_slots|]. intros fg (_ & _ & []). done. }
  assert (Forall (fun fg => keys_le (file_entries fg)) ins) as Hins1 by (by apply Forall_reverse_2).
  pose proof (Forall_reverse_2 _ _ ins_slots) as Hins2. pose proof (Forall_reverse_2 _ _ ins_entries) as Hins3. fold ins in Hins2, Hins3.
  destruct (open_source_ok ins Hins1 (cj_file job0) [f] rels.*1 Hread) as (src & Hsrc & Hinv); [unfold ins; by rewrite fmap_reverse|].
  assert (Forall (fun fg : grouped_file => file_scannable (at_file (cj_file job0) fg.1) fg.2) inputs) as Hscan
    by (eapply Forall_impl; [exact ins_slots|]; by intros fg (_ & _ & [])).
  unfold merge_files. rewrite Hsrc.
  assert (exists d tl, ms_heap src = d :: tl) as (d & tl & Hheap).
  { destruct (ms_heap src) as [|d tl] eqn:Hh; [|by exists d, tl]. exfalso.
    apply (heap_some ins [] src (file_entries <$> ins) (file_entries (f, g)) Hinv); [|by apply Forall_cons in ins_slots as [(_ & _ & []) _]; eapply file_nonempty|done].
    apply list_elem_of_fmap_2. unfold ins. rewrite elem_of_reverse. by left. }
  rewrite Hheap.
  assert (0 < nr_outputs inputs)%nat by (unfold nr_outputs; lia).
  destruct (open_builder_ok job0 [] uninit [] (start_inv wf0 at_level1 at_level2 sorted2)) as (out & Hopen & Hout); [lia|apply versions|apply versions|done|constructor|done|].
  rewrite Hopen.
  assert (count_records ([f] ++ rels.*1) = nr_records ins) as Hcount.
  { unfold ins. rewrite nr_records_reverse. change ([f] ++ rels.*1) with (((f, g) :: rels).*1). by apply records_count. }
  assert (0 < nr_records ins)%nat as Hpos.
  { unfold ins. rewrite nr_records_reverse. unfold nr_records, to_come. cbn [fmap list_fmap concat]. rewrite length_app.
    apply Forall_cons in ins_slots as [(_ & _ & [Hw _ _ _]) _]. apply file_nonempty in Hw. destruct (file_entries (f, g)); [done|cbn; lia]. }
  pose proof (nr_outputs_reverse inputs) as Hno. fold ins in Hno. rewrite <- Hno in room1, room2.
  destruct (merge_loop_ok ins Hins1 ins_ok Hins2 Hins3 room1 room2 versions (S (count_records ([f] ++ rels.*1))) d [] src (file_entries <$> ins) (start_key d) out [] [] [])
    as (out' & Q & ns & src' & chains & mv & out1 & acts & fs & es & Hloop & Hli & HQ & Hend & Hemit).
  { split; [done|done|exact capacity_pos|done| |done]. right. split; [done|]. split; [done|]. split; [done|]. by rewrite Hheap. }
  { rewrite Hcount. unfold nr_records. lia. }
  { done. }
  rewrite Hloop. pose proof (loop_merged ins ins_ok _ _ _ _ _ _ _ _ _ _ Hli HQ) as Hmerged.
  destruct (emitted ins ins_ok Hins3 room1 _ _ _ _ _ _ _ _ _ _ Hli HQ) as (out2 & Hemit' & Hout2 & Hcap & Hsort & Hok & Hlen).
  rewrite Hemit in Hemit'. injection Hemit' as <-. set (es' := es ++ option_list (merge_emit mv).1) in *.
  pose proof Hli as [Hs _ _ Hacts _ Hcnt]. pose proof (heap_empty ins Q src' chains Hs Hend) as Hnil.
  assert (forall k r, kept Q k r <-> newest_input inputs k r) as Hkept.
  { intros k r. rewrite <- (newest_reverse inputs). fold ins. split; [by eapply kept_newest|by eapply newest_kept]. }
  (* the last output is not empty *)
  assert (es' <> []) as Hne.
  { destruct last_kept as (k & r & Hnew & Hrpos & Hmax). apply Hkept in Hnew.
    assert ((merge_emit mv).1 <> None) as Hsome.
    { apply (last_emitted ins ins_ok _ _ _ _ _ _ _ _ _ _ k r Hli HQ Hnew Hrpos). by apply Forall_reverse_2. }
    unfold es'. destruct (merge_emit mv).1; [|done]. cbn. by destruct es. }
  assert (length Q = nr_records ins)%nat as HlenQ.
  { rewrite <- Hcnt. assert (to_come chains = 0%nat) as ->; [|lia]. unfold to_come. rewrite length_zero_iff_nil.
    clear -Hnil. induction Hnil as [|c cs -> _ IH]; [done|exact IH]. }
  pose proof Hout2 as [_ _ Hadd Hfull Htab].
  destruct (finish_ok out' _ fs es' Hout2 Hne Hcap Hsort Hok) as (job1 & f1 & g1 & Hfin & Hent & Hjob & Htab1).
  { unfold level2_room in *. assert (S (length fs) <= nr_outputs ins)%nat; [|lia]. apply (outputs_bound ins room1).
    rewrite Hadd, length_app, (concat_full ins room1 fs Hfull) in Hlen. lia. }
  rewrite Hfin. exists job1, (fs ++ [(f1, g1)]), Q, (acts ++ [merge_emit mv]). split; [done|]. split; [done|]. split; [done|].
  split; [rewrite fmap_app, concat_app, Hadd; cbn [fmap list_fmap concat]; by rewrite Hent, app_nil_r|]. split; [done|]. split; [|split; [congruence|]].
  - pose proof (added_entries_ok ins ins_ok Hins3 _ _ _ _ _ _ _ _ _ _ Hli HQ) as Hall. rewrite Hadd in Hall. apply Forall_app in Hall as [Hall1 Hall2].
    apply Forall_app. split; [by apply (full_outputs_ok ins)|]. constructor; [|constructor]. by rewrite Hent.
  - intros e He. destruct (given_inputs ins ins_ok _ _ _ _ _ _ _ _ _ _ e Hli HQ He) as (f' & g' & Hin & Hein & f2 & g2 & Hin2 & Hrest).
    unfold ins in Hin, Hin2. rewrite elem_of_reverse in Hin, Hin2. exists f', g'. split; [done|]. split; [done|]. by exists f2, g2.
Qed.
End merge.
End job.

(** ** Removing the files that were merged *)

Lemma release_ok cat fd : bc_wf cat -> 0 <= fd < nr_slots cat ->
  let cat' := (bitc_release_file cat fd).1 in
  bc_wf cat' /\ nr_slots cat' = nr_slots cat /\ bc_max_version cat' = bc_max_version cat /\
  forall i, 0 <= i -> used cat' i <-> used cat i /\ i <> fd.
Proof.
  intros Hwf Hfd. destruct (bitc_release_works cat fd table_reads table_writes Hwf Hfd) as (cat' & -> & Hwf' & Hmv & Hsl). cbn [fst].
  split; [done|]. split; [unfold nr_slots; by rewrite Hsl, length_insert|]. split; [done|]. intros i Hi. unfold used, nr_slots in *. rewrite Hsl.
  destruct (Z.eq_dec i fd) as [->|Hne].
  - rewrite list_lookup_insert_eq by lia. split; [done|]. by intros [_ ?].
  - rewrite list_lookup_insert_ne by lia. tauto.
Qed.

(** What remains of the catalogue once the slots [ids] are released. *)
Definition released (cat cat' : bit_catalogue) (ids : list Z) : Prop :=
  bc_wf cat' /\ nr_slots cat' = nr_slots cat /\ bc_max_version cat' = bc_max_version cat /\
  forall i, 0 <= i -> used cat' i <-> used cat i /\ ~ i ∈ ids.

Lemma drop_relatives_ok rels : forall job keep, bc_wf (cj_catalogue job) ->
  Forall (fun f : disk_file => 0 <= bf_id f < nr_slots (cj_catalogue job)) rels ->
  NoDup (bf_id <$> bl_files (cj_level2 job)) -> cmp_sorted (bl_files (cj_level2 job)) ->
  bl_files (cj_level2 job) ≡ₚ (at_file (cj_file job) <$> rels) ++ keep ->
  let job' := drop_relatives rels job in
  cj_file job' = cj_file job /\ cj_level1 job' = cj_level1 job /\ cj_tables job' = cj_tables job /\
  (exists files, cj_level2 job' = with_files (cj_level2 job) files /\ files ≡ₚ keep /\ cmp_sorted files) /\
  released (cj_catalogue job) (cj_catalogue job') (bf_id <$> rels).
Proof.
  induction rels as [|f rels IH]; intros job keep Hwf Hr Hnd Hs Hp; cbn [drop_relatives].
  { split; [done|]. split; [done|]. split; [done|]. split; [exists (bl_files (cj_level2 job)); by destruct (cj_level2 job)|].
    split; [done|]. split; [done|]. split; [done|]. intros i _. split; [by split; [|intros ?%elem_of_nil]|tauto]. }
  apply Forall_cons in Hr as [Hf Hr]. cbn [fmap list_fmap app] in Hp.
  destruct (remove_file_spec (cj_level2 job) (at_file (cj_file job) f) _ Hnd Hp Hs) as (Hl2 & Hp' & Hs').
  change (bf_id (at_file (cj_file job) f)) with (bf_id f) in *.
  destruct (release_ok (cj_catalogue job) (bf_id f) Hwf Hf) as (Hwf' & Hnr & Hmv & Hused).
  set (level2 := (bit_level_remove_file (cj_level2 job) (bf_id f)).1) in *.
  set (job1 := with_catalogue (with_level2 job level2) (bitc_release_file (cj_catalogue (with_level2 job level2)) (bf_id f)).1).
  destruct (IH job1 keep) as (H1' & H2' & H3' & (files & Hl & Hpk & Hsk) & (Hwf2 & Hnr2 & Hmv2 & Hused2)); try done.
  - change (nr_slots (cj_catalogue job1)) with (nr_slots (bitc_release_file (cj_catalogue job) (bf_id f)).1). by rewrite Hnr.
  - change (NoDup (bf_id <$> bl_files level2)). rewrite Hp'. rewrite Hp in Hnd. by apply NoDup_cons in Hnd as [_ Hnd].
  - split; [done|]. split; [done|]. split; [done|]. split.
    + exists files. split; [|done]. rewrite Hl. change (cj_level2 job1) with level2. by rewrite Hl2.
    + split; [done|]. split; [by rewrite Hnr2|]. split; [by rewrite Hmv2|]. intros i Hi. rewrite Hused2 by done.
      change (used (cj_catalogue job1) i) with (used (bitc_release_file (cj_catalogue job) (bf_id f)).1 i). rewrite Hused by done.
      cbn [fmap list_fmap]. rewrite not_elem_of_cons. tauto.
Qed.

Lemma drop_one_demoted job (f : disk_file) rest : bc_wf (cj_catalogue job) -> 0 <= bf_id f < nr_slots (cj_catalogue job) ->
  bl_files (cj_level1 job) = at_file (cj_file job) f :: rest ->
  let job' := drop_demoted [f] job in
  cj_file job' = cj_file job /\ cj_level2 job' = cj_level2 job /\ cj_tables job' = cj_tables job /\
  cj_level1 job' = with_files (cj_level1 job) rest /\ released (cj_catalogue job) (cj_catalogue job') [bf_id f].
Proof.
  intros Hwf Hf Hl. cbn [drop_demoted]. split; [done|]. split; [done|]. split; [done|]. split.
  - cbn [cj_level1 with_level1 with_catalogue]. unfold bit_level_remove_file. rewrite Hl. cbn [remove_id].
    change (bf_id (at_file (cj_file job) f)) with (bf_id f). by rewrite Z.eqb_refl.
  - destruct (release_ok (cj_catalogue job) (bf_id f) Hwf Hf) as (Hwf' & Hnr & Hmv & Hused). split; [done|]. split; [done|]. split; [done|].
    intros i Hi. cbn [cj_catalogue with_level1 with_catalogue]. rewrite Hused by done. by rewrite list_elem_of_singleton.
Qed.

(** ** What a level shows *)

(** A negative record says that there is no record. *)
Definition visible (o : option record) : option record :=
  match o with Some r => if negative_record r then None else Some r | None => None end.

Abbreviation grouped_file := (disk_file * list (list bit_leaf))%type.

Definition holds_in (P : list grouped_file) (k : Z) (r : record) : Prop := exists f g, (f, g) ∈ P /\ file_find g k = Some r.

Lemma holds_in_app P Q k r : holds_in (P ++ Q) k r <-> holds_in P k r \/ holds_in Q k r.
Proof.
  unfold holds_in. split.
  - intros (f & g & [Hin|Hin]%elem_of_app & Hr); [left|right]; by exists f, g.
  - intros [(f & g & Hin & Hr)|(f & g & Hin & Hr)]; exists f, g; (split; [apply elem_of_app; tauto|done]).
Qed.

Lemma newest_exists (ins : list grouped_file) k : (exists fg, fg ∈ ins /\ k ∈ (file_entries fg).*1) -> exists r, newest_input ins k r.
Proof.
  intros Hex. assert (exists f g, (f, g) ∈ ins /\ k ∈ (file_entries (f, g)).*1 /\
    forall f' g', (f', g') ∈ ins -> k ∈ (file_entries (f', g')).*1 -> bf_version f' <= bf_version f) as (f & g & Hin & Hk & Hmax).
  { induction ins as [|[f g] ins IH]; [by destruct Hex as (? & ?%elem_of_nil & _)|].
    destruct (decide (k ∈ (file_entries (f, g)).*1)) as [Hk|Hk].
    - destruct (decide (Exists (fun fg => k ∈ (file_entries fg).*1) ins)) as [He|He].
      + apply Exists_exists in He. destruct (IH He) as (f1 & g1 & Hin & Hk1 & Hmax).
        destruct (Z.le_gt_cases (bf_version f) (bf_version f1)).
        * exists f1, g1. split; [by right|]. split; [done|]. intros f' g' [[= -> ->]|Hin']%elem_of_cons Hk'; [done|by eapply Hmax].
        * exists f, g. split; [by left|]. split; [done|]. intros f' g' [[= -> ->]|Hin']%elem_of_cons Hk'; [done|].
          pose proof (Hmax f' g' Hin' Hk'). lia.
      + exists f, g. split; [by left|]. split; [done|]. intros f' g' [[= -> ->]|Hin']%elem_of_cons Hk'; [done|].
        exfalso. apply He, Exists_exists. by eexists.
    - destruct Hex as (fg & [->|Hin]%elem_of_cons & Hk'); [done|]. destruct IH as (f1 & g1 & Hin1 & Hk1 & Hmax); [by exists fg|].
      exists f1, g1. split; [by right|]. split; [done|]. intros f' g' [[= -> ->]|Hin']%elem_of_cons Hk2; [done|by eapply Hmax]. }
  destruct (leaf_find k (file_entries (f, g))) as [r|] eqn:Hr; [by exists r, f, g|]. by apply leaf_find_absent in Hr.
Qed.

(** Merging [f] and the files [Rl] into [fs]. *)
Lemma merge_visible f g (R1 B Rl A fs P2' : list grouped_file) k :
  inputs_ok (reverse ((f, g) :: Rl)) ->
  Forall (fun h : grouped_file => bf_version h.1 < bf_version f) Rl ->
  (forall r, level_find ((f, g) :: R1).*2 k = Some r <-> holds_in ((f, g) :: R1) k r) ->
  (forall r, level_find R1.*2 k = Some r <-> holds_in R1 k r) ->
  (forall r, level_find (B ++ Rl ++ A).*2 k = Some r <-> holds_in (B ++ Rl ++ A) k r) ->
  (forall r, level_find P2'.*2 k = Some r <-> holds_in (fs ++ B ++ A) k r) ->
  (forall r, file_find g k = Some r -> forall r', ~ holds_in (B ++ A) k r') ->
  (forall r, holds_in fs k r <-> newest_input ((f, g) :: Rl) k r /\ negative_record r = false) ->
  visible (layer (level_find R1.*2) (level_find P2'.*2) k) =
  visible (layer (level_find ((f, g) :: R1).*2) (level_find (B ++ Rl ++ A).*2) k).
Proof.
  intros Hok Hnewer Hf1 Hf1' Hf2 Hf2' Hapart Hfs.
  assert (forall x y, newest_input ((f, g) :: Rl) k x -> newest_input ((f, g) :: Rl) k y -> x = y) as Hunique.
  { intros x y Hx Hy. apply (newest_unique (reverse ((f, g) :: Rl)) Hok k); by apply newest_reverse. }
  assert (forall x P, holds_in P k x -> exists fg, fg ∈ P /\ k ∈ (file_entries fg).*1) as Hkey.
  { intros x P (f' & g' & Hin & Hr). exists (f', g'). split; [done|]. by apply (list_elem_of_fmap_2 fst _ (k, x)), leaf_find_in. }
  unfold layer. destruct (level_find R1.*2 k) as [x|] eqn:Hx in |- *.
  { assert (level_find ((f, g) :: R1).*2 k = Some x) as ->; [|done]. apply Hf1. apply Hf1' in Hx as (f' & g' & Hin & Hr).
    exists f', g'. split; [by right|done]. }
  assert (forall x, level_find ((f, g) :: R1).*2 k = Some x <-> file_find g k = Some x) as Hg.
  { intros x. rewrite Hf1. split.
    - intros (f' & g' & [[= -> ->]|Hin]%elem_of_cons & Hr); [done|]. exfalso.
      assert (level_find R1.*2 k = Some x) by (apply Hf1'; by exists f', g'). congruence.
    - intros Hr. exists f, g. split; [by left|done]. }
  (* what the new lower level shows when the winner is known *)
  assert (forall r, newest_input ((f, g) :: Rl) k r -> (forall r', holds_in (B ++ A) k r' -> r' = r) -> visible (level_find P2'.*2 k) = visible (Some r)) as Hout.
  { intros r Hr Hother. cbn. destruct (level_find P2'.*2 k) as [y|] eqn:Hy in |- *.
    - apply Hf2' in Hy. apply holds_in_app in Hy as [Hy|Hy]; [|by rewrite (Hother y Hy)]. apply Hfs in Hy as [Hy Hpos]. by rewrite (Hunique r y Hr Hy).
    - destruct (negative_record r) eqn:Hn; [done|]. exfalso. assert (holds_in fs k r) as Hh by (by apply Hfs).
      assert (level_find P2'.*2 k = Some r); [|congruence]. apply Hf2', holds_in_app. by left. }
  destruct (level_find ((f, g) :: R1).*2 k) as [r|] eqn:Hfr in |- *.
  - apply Hg in Hfr. apply Hout.
    + exists f, g. split; [by left|]. split; [done|]. intros f' g' [[= -> ->]|Hin]%elem_of_cons _; [done|].
      rewrite Forall_forall in Hnewer. specialize (Hnewer _ Hin). cbn in Hnewer. lia.
    + intros r' Hr'. by destruct (Hapart r Hfr r').
  - assert (file_find g k = None) as Hgn by (destruct (file_find g k) as [x|] eqn:Hgx in |- *; [apply Hg in Hgx; congruence|done]).
    assert (forall r, newest_input ((f, g) :: Rl) k r -> holds_in Rl k r) as Hrl.
    { intros r (f' & g' & [[= -> ->]|Hin]%elem_of_cons & Hr & _); [change (file_find g k = Some r) in Hr; congruence|by exists f', g']. }
    destruct (level_find (B ++ Rl ++ A).*2 k) as [r|] eqn:Hr in |- *.
    + pose proof Hr as Hr'. apply Hf2 in Hr'. rewrite !holds_in_app in Hr'.
      assert (forall x, holds_in (B ++ A) k x -> x = r) as Hba.
      { intros x Hx'. assert (level_find (B ++ Rl ++ A).*2 k = Some x); [|congruence]. apply Hf2. rewrite !holds_in_app in *. tauto. }
      destruct (decide (Exists (fun fg => k ∈ (file_entries fg).*1) Rl)) as [He|He].
      * apply Exists_exists in He as (fg & Hin & Hk). destruct (newest_exists ((f, g) :: Rl) k) as [y Hy]; [exists fg; split; [by right|done]|].
        assert (y = r) as <-.
        { assert (level_find (B ++ Rl ++ A).*2 k = Some y); [|congruence]. apply Hf2. rewrite !holds_in_app. right. left. by apply Hrl. }
        by apply Hout.
      * assert (level_find P2'.*2 k = Some r) as ->; [|done]. apply Hf2'. rewrite !holds_in_app.
        destruct Hr' as [Hr'|[Hr'|Hr']]; [tauto| |tauto]. destruct He. apply Exists_exists. by apply (Hkey r).
    + assert (level_find P2'.*2 k = None) as ->; [|done]. destruct (level_find P2'.*2 k) as [y|] eqn:Hy in |- *; [|done]. exfalso.
      apply Hf2' in Hy. apply holds_in_app in Hy as [Hy|Hy].
      * apply Hfs in Hy as [Hy _]. apply Hrl in Hy. assert (level_find (B ++ Rl ++ A).*2 k = Some y); [|congruence].
        apply Hf2. rewrite !holds_in_app. tauto.
      * assert (level_find (B ++ Rl ++ A).*2 k = Some y); [|congruence]. apply Hf2. rewrite !holds_in_app in *. tauto.
Qed.

(** ** The job as a whole *)

(** The files as seen through the backing file [file]. *)
Definition seen (file : kfile) (P : list grouped_file) : list grouped_file := (fun fg => (at_file file fg.1, fg.2)) <$> P.

Definition in_slot (cat : bit_catalogue) (file : kfile) (fg : grouped_file) : Prop :=
  used cat (bf_id fg.1) /\ 0 <= bf_id fg.1 < nr_slots cat /\ file_in_slot (at_file file fg.1) fg.2 (slot_begin (bf_id fg.1)).

(** A level with its files and their leaves. *)
Record level_holds (file : kfile) (l : disk_level) (P : list grouped_file) : Prop := {
  lh_files : bl_files l = P.*1;
  lh_here : at_file file <$> bl_files l = bl_files l;
  lh_ok : level_ok l P.*2
}.

Record job_ok job (P1 P2 : list grouped_file) : Prop := {
  jo_level1 : level_holds (cj_file job) (cj_level1 job) P1;
  jo_level2 : level_holds (cj_file job) (cj_level2 job) P2;
  jo_below : bl_level (cj_level2 job) <> 0;
  jo_slots : Forall (in_slot (cj_catalogue job) (cj_file job)) (P1 ++ P2);
  jo_entries : Forall (fun fg => Forall entry_ok (file_entries fg)) (P1 ++ P2);
  jo_ids : NoDup (bf_id <$> (P1 ++ P2).*1);
  jo_versions : NoDup (bf_version <$> (P1 ++ P2).*1);
  jo_max : Forall (fun fg => 0 <= bf_version fg.1 < bc_max_version (cj_catalogue job)) (P1 ++ P2);
  jo_wf : bc_wf (cj_catalogue job);
  jo_region : region_ok (cj_catalogue job)
}.

(** When the file [fg] is merged with the files [Rl] of the level below: it is
    newer than they are; where it holds a key twice, the second record is the
    negative one (as [minor_compaction] writes them), and the others hold no key
    twice; the record kept for the last key is not negative, so that the last
    output is not empty; there are slots and room for the output. *)
Record merge_ready job (fg : grouped_file) (Rl : list grouped_file) : Prop := {
  mr_newer : Forall (fun h : grouped_file => bf_version h.1 < bf_version fg.1) Rl;
  mr_pairs : forall l1 k r l2 r' l3, file_entries fg = l1 ++ (k, r) :: l2 ++ (k, r') :: l3 ->
    negative_record r = false /\ negative_record r' = true;
  mr_distinct : Forall (fun h => StronglySorted Z.lt (file_entries h).*1) Rl;
  mr_last : exists k r, newest_input (fg :: Rl) k r /\ negative_record r = false /\
    Forall (fun fg => Forall (fun e : entry => e.1 <= k) (file_entries fg)) (fg :: Rl);
  mr_slots : (nr_outputs (fg :: Rl) <= nr_free (cj_catalogue job))%nat;
  mr_room : level2_room job (nr_outputs (fg :: Rl))
}.

Lemma seen_values file P : (seen file P).*2 = P.*2.
Proof. unfold seen. rewrite <- list_fmap_compose. by apply list_fmap_ext. Qed.

Lemma seen_files file P : (seen file P).*1 = at_file file <$> P.*1.
Proof. unfold seen. by rewrite <- !list_fmap_compose. Qed.

Lemma seen_attr {B} (h : disk_file -> B) file P : (forall f, h (at_file file f) = h f) -> h <$> (seen file P).*1 = h <$> P.*1.
Proof. intros Hh. rewrite seen_files, <- list_fmap_compose. apply list_fmap_ext. intros i f _. apply Hh. Qed.

Lemma holds_in_seen file P k r : holds_in (seen file P) k r <-> holds_in P k r.
Proof.
  unfold holds_in, seen. split.
  - intros (f & g & ([f' g'] & [= -> ->] & Hin)%list_elem_of_fmap & Hr). by exists f', g'.
  - intros (f & g & Hin & Hr). exists (at_file file f), g. split; [|done]. apply list_elem_of_fmap. by exists (f, g).
Qed.

Lemma Forall_seen (Q : grouped_file -> Prop) file P : (forall fg, Q fg -> Q (at_file file fg.1, fg.2)) -> Forall Q P -> Forall Q (seen file P).
Proof. intros HQ HP. unfold seen. apply Forall_fmap. eapply Forall_impl; [exact HP|]. intros fg Hfg. by apply HQ. Qed.

Lemma level_at_id file (l : disk_level) : at_file file <$> bl_files l = bl_files l -> level_at file l = l.
Proof. intros Hl. unfold level_at. rewrite Hl. by destruct l. Qed.

Lemma in_slot_wf cat file fg : at_file file fg.1 = fg.1 -> in_slot cat file fg -> file_wf fg.1 fg.2.
Proof. intros Hat (_ & _ & [Hw _ _ _]). by rewrite Hat in Hw. Qed.

(** The keys of a file, from the first to the last. *)
Lemma file_ends (f : disk_file) g : file_wf f g ->
  bf_first_key f ∈ (file_entries (f, g)).*1 /\ bf_last_key f ∈ (file_entries (f, g)).*1 /\ bf_first_key f <= bf_last_key f /\
  forall k, k ∈ (file_entries (f, g)).*1 -> bf_first_key f <= k <= bf_last_key f.
Proof.
  intros Hwf. pose proof (fw_first _ _ Hwf) as Hf. pose proof (fw_last _ _ Hwf) as Hl. pose proof (fw_sorted _ _ Hwf) as Hs.
  rewrite <- fmap_last in Hl. unfold keys_le in Hs. unfold file_entries. cbn [snd].
  assert (head (leaves_entries (concat g)).*1 = Some (bf_first_key f)) as Hf' by (rewrite <- Hf; by destruct (leaves_entries (concat g))).
  clear Hf. destruct ((leaves_entries (concat g)).*1) as [|k0 ks]; [done|]. injection Hf' as ->.
  apply last_Some in Hl as [l' Hl]. rewrite Hl in *.
  assert (forall k, k ∈ l' ++ [bf_last_key f] -> bf_first_key f <= k <= bf_last_key f) as Hall.
  { intros k Hin. split.
    - rewrite <- Hl in Hin, Hs. apply StronglySorted_inv in Hs as [_ Hs]. rewrite Forall_forall in Hs. apply elem_of_cons in Hin as [->|Hin]; [lia|by apply Hs].
    - apply elem_of_app in Hin as [Hin| ->%list_elem_of_singleton]; [|lia]. apply StronglySorted_app in Hs as (Hs & _ & _). apply Hs; [done|by left]. }
  split; [rewrite <- Hl; by left|]. split; [apply elem_of_app; right; by left|]. split; [|done].
  apply (Hall (bf_last_key f)). apply elem_of_app. right. by left.
Qed.

Lemma leaf_find_sorted (l : list entry) k r : StronglySorted Z.lt l.*1 -> (k, r) ∈ l -> leaf_find k l = Some r.
Proof.
  induction l as [|[k' x] l IH]; cbn; intros Hs; [by intros ?%elem_of_nil|]. apply StronglySorted_inv in Hs as [Hs Hx].
  intros [[= -> ->]|Hin]%elem_of_cons; [by rewrite Z.eqb_refl|]. destruct (Z.eqb_spec k' k) as [->|]; [|by apply IH].
  rewrite Forall_forall in Hx. specialize (Hx k). exfalso. apply (Z.lt_irrefl k), Hx. by apply (list_elem_of_fmap_2 fst _ (k, r)).
Qed.

Lemma sorted_parts (fs : list grouped_file) fg : StronglySorted Z.lt (concat (file_entries <$> fs)).*1 -> fg ∈ fs -> StronglySorted Z.lt (file_entries fg).*1.
Proof.
  intros Hs (l1 & l2 & ->)%list_elem_of_split. rewrite fmap_app, concat_app, fmap_app in Hs. cbn [fmap list_fmap concat] in Hs.
  rewrite fmap_app in Hs. by apply StronglySorted_app in Hs as (_ & _ & (_ & Hs & _)%StronglySorted_app).
Qed.

(** The outputs show the newest records of the inputs, without the negative ones. *)
Lemma outputs_hold fs Q acts inputs k r : merged Q acts -> concat (file_entries <$> fs) = added acts ->
  (forall k r, kept Q k r <-> newest_input inputs k r) ->
  holds_in fs k r <-> newest_input inputs k r /\ negative_record r = false.
Proof.
  intros (Hs & Hin & _) Hc Hk. rewrite <- Hk, <- Hin, <- Hc. rewrite <- Hc in Hs. split.
  - intros (f & g & Hfg & Hr). apply leaf_find_in in Hr. apply list_elem_of_In, in_concat. exists (file_entries (f, g)).
    split; apply list_elem_of_In; [by apply list_elem_of_fmap_2|done].
  - intros (es & Hes & Hr)%list_elem_of_In%in_concat. apply list_elem_of_In, list_elem_of_fmap in Hes as ([f g] & -> & Hfg).
    exists f, g. split; [done|]. apply leaf_find_sorted; [by eapply (sorted_parts fs (f, g))|by apply list_elem_of_In].
Qed.

Lemma outputs_apart (fs : list grouped_file) : Forall (fun fg => file_wf fg.1 fg.2) fs -> StronglySorted Z.lt (concat (file_entries <$> fs)).*1 ->
  StronglySorted apart fs.*1.
Proof.
  induction 1 as [|[f g] fs Hf Hfs IH]; [constructor|]. cbn [fmap list_fmap concat]. rewrite fmap_app. intros (Hx & _ & Hs)%StronglySorted_app.
  constructor; [auto|]. apply Forall_fmap. rewrite Forall_forall in Hfs |- *. intros [f' g'] Hin. left. cbn.
  destruct (file_ends _ _ Hf) as (_ & Hl & _). destruct (file_ends _ _ (Hfs _ Hin)) as (Hf' & _). cbn in *.
  apply (Hx _ _ Hl). apply list_elem_of_fmap in Hf' as (e & -> & He). apply list_elem_of_fmap_2.
  apply list_elem_of_In, in_concat. exists (file_entries (f', g')). split; apply list_elem_of_In; [by apply list_elem_of_fmap_2|done].
Qed.

(** *** Levels made of files in their slots *)

Lemma files_wf_pairs (P : list grouped_file) : Forall (fun fg => file_wf fg.1 fg.2) P <-> Forall2 file_wf P.*1 P.*2.
Proof.
  induction P as [|[f g] P IH]; cbn; [by split; constructor|]. rewrite Forall_cons. split.
  - intros [Hf HP]. constructor; [done|by apply IH].
  - intros [? ?]%Forall2_cons_1. by rewrite IH.
Qed.

Lemma files_range (P : list grouped_file) : Forall (fun fg => file_wf fg.1 fg.2) P -> Forall (fun f => bf_first_key f <= bf_last_key f) P.*1.
Proof. intros HP. apply Forall_fmap. eapply Forall_impl; [exact HP|]. intros [f g] Hf. cbn in *. by destruct (file_ends _ _ Hf) as (_ & _ & ? & _). Qed.

Lemma level_ok_of (l : disk_level) P : bl_files l = P.*1 -> Forall (fun fg => file_wf fg.1 fg.2) P -> StronglySorted apart P.*1 ->
  cmp_sorted P.*1 -> Forall (fun fg => 0 <= bf_version fg.1) P -> bl_level l <> 0 -> level_ok l P.*2.
Proof.
  intros Hl Hwf Ha Hs Hv Hnz. split; [unfold level_wf; rewrite Hl; by apply files_wf_pairs| | |done]; rewrite Hl.
  - apply apart_disjoint; [done|done|]. by apply files_range.
  - by apply Forall_fmap.
Qed.

(** A level whose files have not changed, in a new state of the backing file. *)
Lemma level_holds_seen file file' (l : disk_level) P : level_holds file l P ->
  Forall (fun fg => file_wf (at_file file' fg.1) fg.2) P -> level_holds file' (level_at file' l) (seen file' P).
Proof.
  intros [Hl _ [Hwf Hd Hv Hz]] Hw. split; cbn [level_at bl_files with_files].
  - by rewrite Hl, seen_files.
  - rewrite <- list_fmap_compose. by apply list_fmap_ext.
  - split; cbn [level_at bl_files with_files bl_level].
    + unfold level_wf. cbn [level_at bl_files with_files]. rewrite Hl, <- seen_files. apply files_wf_pairs. by apply Forall_fmap.
    + eapply files_disjoint_ext; [|exact Hd]. symmetry. apply at_file_keys.
    + by apply Forall_fmap.
    + by rewrite length_fmap.
Qed.

Lemma level_holds_tail file (l : disk_level) fg P : level_holds file l (fg :: P) -> level_holds file (with_files l P.*1) P.
Proof.
  intros [Hl Hh [Hwf [Hs Hr] Hv Hz]]. unfold level_wf in Hwf. rewrite Hl in *. cbn [fmap list_fmap] in *. split; cbn [bl_files with_files].
  - done.
  - by injection Hh.
  - split; cbn [bl_files with_files bl_level].
    + by apply Forall2_cons_1 in Hwf as [_ Hwf].
    + split; [by apply StronglySorted_inv in Hs as [Hs _]|by apply Forall_cons in Hr as [_ Hr]].
    + by apply Forall_cons in Hv as [_ Hv].
    + intros Hb. specialize (Hz Hb). cbn in Hz. lia.
Qed.

(** What a level shows is what its files hold. *)
Lemma level_holds_find file (l : disk_level) P k r : level_holds file l P -> level_find P.*2 k = Some r <-> holds_in P k r.
Proof.
  intros [Hl _ [Hwf Hd _ _]]. unfold level_wf in Hwf. rewrite Hl in *. rewrite (level_find_iff P.*1 P.*2 k r Hwf Hd). unfold holds_in.
  by rewrite zip_fst_snd.
Qed.

(** The files that a file of [level1] is merged with. *)
Lemma relatives_split job f g R1 P2 : job_ok job ((f, g) :: R1) P2 ->
  exists B Rl A, P2 = B ++ Rl ++ A /\ bit_level_find_relative_files (cj_level2 job) [f] = Some Rl.*1 /\
    Forall (fun h : grouped_file => bf_last_key h.1 < bf_first_key f) B /\ Forall (fun h : grouped_file => bf_last_key f < bf_first_key h.1) A.
Proof.
  intros [[Hl1 Hh1 Hok1] [Hl2 _ [_ Hd _ _]] _ Hslots Hent _ _ _ _ _].
  assert (file_wf f g) as Hf by (destruct Hok1 as [Hwf _ _ _]; unfold level_wf in Hwf; rewrite Hl1 in Hwf; by apply Forall2_cons_1 in Hwf as [Hf _]).
  destruct (file_ends _ _ Hf) as (Hfirst & Hlast & Hle & _).
  assert (0 <= bf_first_key f /\ bf_last_key f < 2 ^ 32) as [Hk0 Hk1].
  { cbn [app] in Hent. apply Forall_cons in Hent as [He _]. rewrite Forall_forall in He.
    apply list_elem_of_fmap in Hfirst as ([k1 r1] & Hk1 & Hin1). apply list_elem_of_fmap in Hlast as ([k2 r2] & Hk2 & Hin2).
    apply He in Hin1 as [Hr1 _]. apply He in Hin2 as [Hr2 _]. cbn in *. lia. }
  assert (files_first_key [f] = bf_first_key f) as Hff by (cbn; lia). assert (files_last_key [f] = bf_last_key f) as Hfl by (cbn; lia).
  destruct (relatives_between (cj_level2 job) [f] Hd) as (rel & before & after & Hrel & Heq & Hb & Ha); [lia|]. rewrite Hff, Hfl in *.
  rewrite Hl2 in Heq. symmetry in Heq. symmetry in Heq. apply fmap_app_inv in Heq as (B & P' & -> & Heq & ->).
  symmetry in Heq. apply fmap_app_inv in Heq as (Rl & A & -> & -> & ->). exists B, Rl, A. rewrite !Forall_fmap in *. done.
Qed.

(** The files around the merged ones are apart from the outputs. *)
Lemma lower_apart f g (B Rl A fs : list grouped_file) : Forall (fun fg => file_wf fg.1 fg.2) ((f, g) :: Rl) ->
  files_disjoint (B ++ Rl ++ A).*1 ->
  Forall (fun h : grouped_file => bf_last_key h.1 < bf_first_key f) B -> Forall (fun h : grouped_file => bf_last_key f < bf_first_key h.1) A ->
  Forall (fun fg => file_wf fg.1 fg.2) fs ->
  (forall fg k, fg ∈ fs -> k ∈ (file_entries fg).*1 -> exists h, h ∈ (f, g) :: Rl /\ k ∈ (file_entries h).*1) ->
  StronglySorted apart fs.*1 -> StronglySorted apart (fs ++ B ++ A).*1.
Proof.
  intros Hin Hd HB HA Hfs Hkeys Hsort. pose proof (disjoint_apart _ Hd) as Hap. destruct Hd as [Hd _].
  rewrite !fmap_app in *. apply StronglySorted_app in Hd as (Hx1 & _ & (Hx2 & _ & _)%StronglySorted_app).
  apply StronglySorted_app in Hap as (Hx3 & HsB & (_ & _ & HsA)%StronglySorted_app). apply StronglySorted_app. split; [|split; [done|]].
  2: { apply StronglySorted_app. split; [|done]. intros x y Hx Hy. apply Hx3; [done|]. apply elem_of_app. by right. }
  intros x y (fg & -> & Hfg)%list_elem_of_fmap Hy. rewrite Forall_forall in Hin, HB, HA, Hfs.
  destruct fg as [x xg]. destruct (file_ends _ _ (Hfs _ Hfg)) as (Hfirst & Hlast & _). cbn [fst snd] in *.
  apply Hkeys in Hfirst as ([h1 g1] & Hh1 & Hk1); [|done]. apply Hkeys in Hlast as ([h2 g2] & Hh2 & Hk2); [|done].
  destruct (file_ends _ _ (Hin _ Hh1)) as (_ & _ & _ & Hr1). specialize (Hr1 _ Hk1). cbn in Hr1.
  destruct (file_ends _ _ (Hin _ Hh2)) as (_ & _ & _ & Hr2). specialize (Hr2 _ Hk2). cbn in Hr2.
  apply elem_of_app in Hy as [Hy|Hy].
  - right. apply elem_of_cons in Hh1 as [[= -> ->]|Hh1].
    + apply list_elem_of_fmap in Hy as (b & -> & Hb). specialize (HB _ Hb). cbn in HB. lia.
    + pose proof (Hx1 y h1 Hy ltac:(apply elem_of_app; left; by apply (list_elem_of_fmap_2 fst _ (h1, g1)))). lia.
  - left. apply elem_of_cons in Hh2 as [[= -> ->]|Hh2].
    + apply list_elem_of_fmap in Hy as (b & -> & Hb). specialize (HA _ Hb). cbn in HA. lia.
    + pose proof (Hx2 h2 y ltac:(by apply (list_elem_of_fmap_2 fst _ (h2, g2))) Hy). lia.
Qed.

Lemma inputs_ready job f g Rl : NoDup (bf_id <$> ((f, g) :: Rl).*1) -> NoDup (bf_version <$> ((f, g) :: Rl).*1) ->
  merge_ready job (f, g) Rl -> inputs_ok (reverse ((f, g) :: Rl)).
Proof.
  intros Hid Hver [Hnew Hpairs Hdist _ _ _]. split.
  - intros i j f1 g1 f2 g2 Hi Hj Hor. rewrite <- !list_fmap_compose in Hid, Hver.
    assert (forall h : grouped_file -> Z, NoDup (h <$> (f, g) :: Rl) -> h (f1, g1) = h (f2, g2) -> i = j) as Hsame.
    { intros h Hn Heq. apply (NoDup_lookup (h <$> reverse ((f, g) :: Rl)) i j (h (f1, g1))).
      - rewrite fmap_reverse. by rewrite reverse_Permutation.
      - by rewrite list_lookup_fmap, Hi.
      - rewrite list_lookup_fmap, Hj. cbn. by rewrite Heq. }
    destruct Hor as [Heq|Heq]; [by apply (Hsame _ Hid)|by apply (Hsame _ Hver)].
  - intros f1 g1 l1 k r l2 r' l3 Hin Heq. rewrite elem_of_reverse in Hin. apply elem_of_cons in Hin as [[= -> ->]|Hin].
    + destruct (Hpairs _ _ _ _ _ _ Heq) as [Hr Hr']. split; [done|]. split; [done|]. intros f' g' Hin _. rewrite elem_of_reverse in Hin.
      apply elem_of_cons in Hin as [[= -> ->]|Hin]; [done|]. rewrite Forall_forall in Hnew. specialize (Hnew _ Hin). cbn in Hnew. lia.
    + exfalso. rewrite Forall_forall in Hdist. specialize (Hdist _ Hin). rewrite Heq in Hdist. rewrite !fmap_app in Hdist. cbn [fmap list_fmap] in Hdist.
      apply StronglySorted_app in Hdist as (_ & _ & Hs). apply StronglySorted_inv in Hs as [_ Hs]. rewrite fmap_app in Hs. apply Forall_app in Hs as [_ Hs].
      cbn [fmap list_fmap] in Hs. apply Forall_cons in Hs as [Hs _]. cbn in Hs. lia.
Qed.

(** The outputs and the files that were there before. *)
Lemma ids_new job0 job fs P : job_inv job0 job fs (bf_id <$> fs.*1) -> Forall (in_slot (cj_catalogue job0) (cj_file job0)) P ->
  NoDup (bf_id <$> P.*1) -> NoDup (bf_id <$> (fs ++ P).*1).
Proof.
  intros [[_ _ _ Hnew Hnd _] _ _ _ _ _ _] HP Hids. rewrite !fmap_app. apply NoDup_app. split; [done|]. split; [|done].
  intros i Hi Hin. rewrite Forall_forall in Hnew. apply Hnew in Hi as [_ Hni]. apply list_elem_of_fmap in Hin as (f & -> & (fg & -> & Hfg)%list_elem_of_fmap).
  rewrite Forall_forall in HP. by destruct (HP _ Hfg).
Qed.

Lemma versions_new job0 job fs P : job_inv job0 job fs (bf_id <$> fs.*1) ->
  Forall (fun fg : grouped_file => 0 <= bf_version fg.1 < bc_max_version (cj_catalogue job0)) P ->
  0 <= bc_max_version (cj_catalogue job0) ->
  NoDup (bf_version <$> P.*1) -> NoDup (bf_version <$> (fs ++ P).*1) /\
  Forall (fun fg : grouped_file => 0 <= bf_version fg.1 < bc_max_version (cj_catalogue job)) (fs ++ P).
Proof.
  intros [_ _ _ _ _ Hv Hvs] HP Hmax Hnd. rewrite !length_fmap in Hv.
  assert (Forall (fun fg : grouped_file => bc_max_version (cj_catalogue job0) <= bf_version fg.1 < bc_max_version (cj_catalogue job)) fs) as Hfs.
  { assert (Forall (fun v => bc_max_version (cj_catalogue job0) <= v < bc_max_version (cj_catalogue job)) (bf_version <$> fs.*1)) as Hall; [|by rewrite !Forall_fmap in Hall].
    rewrite Hvs. apply Forall_forall. intros v Hin%elem_of_seqZ. lia. }
  rewrite Forall_forall in HP, Hfs. split.
  - rewrite !fmap_app. apply NoDup_app. split; [rewrite Hvs; apply NoDup_seqZ|]. split; [|done].
    intros v (f1 & -> & (fg1 & -> & Hfg1)%list_elem_of_fmap)%list_elem_of_fmap (f2 & Heq & (fg2 & -> & Hfg2)%list_elem_of_fmap)%list_elem_of_fmap.
    specialize (Hfs _ Hfg1). specialize (HP _ Hfg2). lia.
  - apply Forall_app. split; apply Forall_forall; intros fg Hfg; [specialize (Hfs _ Hfg)|specialize (HP _ Hfg)]; lia.
Qed.

(** A slot in use before the merge still holds its file. *)
Lemma slot_kept job0 job fs ids fg : region_ok (cj_catalogue job0) -> job_inv job0 job fs ids ->
  in_slot (cj_catalogue job0) (cj_file job0) fg -> file_in_slot (at_file (cj_file job) fg.1) fg.2 (slot_begin (bf_id fg.1)).
Proof.
  intros Hreg Hinv (Hu & Hr & Hs). eapply moved_slot; [|exact Hs]. intros q Hq. pose proof (ids_in_range _ _ _ _ Hinv) as Hids.
  destruct Hinv as [[_ _ _ Hnew _ _] _ _ _ Hf _ _]. apply Hf. apply (slot_outside (cj_catalogue job0) (bf_id fg.1)); try done.
  intros Hin. rewrite Forall_forall in Hnew. by apply Hnew in Hin as [_ ?].
Qed.

(** The merged files leave their levels and their slots. *)
Lemma drop_inputs_ok job0 job fs f g R1 B Rl A : job_ok job0 ((f, g) :: R1) (B ++ Rl ++ A) -> job_inv job0 job fs (bf_id <$> fs.*1) ->
  let job' := drop_relatives Rl.*1 (drop_demoted [f] job) in
  cj_file job' = cj_file job /\ cj_tables job' = cj_tables job /\
  cj_level1 job' = level_at (cj_file job) (with_files (cj_level1 job0) R1.*1) /\
  (exists files, cj_level2 job' = with_files (cj_level2 job0) files /\ cmp_sorted files /\ files ≡ₚ (seen (cj_file job) (fs ++ B ++ A)).*1) /\
  bc_wf (cj_catalogue job') /\ nr_slots (cj_catalogue job') = nr_slots (cj_catalogue job0) /\
  bc_max_version (cj_catalogue job') = bc_max_version (cj_catalogue job) /\
  forall i, 0 <= i -> used (cj_catalogue job') i <->
    (used (cj_catalogue job0) i \/ i ∈ bf_id <$> fs.*1) /\ ~ i ∈ bf_id <$> ((f, g) :: Rl).*1.
Proof.
  intros [[Hl1 _ _] [Hl2 _ _] _ Hslots _ Hids _ _ _ _] Hinv job'.
  assert (Forall (in_slot (cj_catalogue job0) (cj_file job0)) (B ++ Rl ++ A)) as Hslots2.
  { cbn [app] in Hslots. apply Forall_cons in Hslots as [_ Hslots]. by apply Forall_app in Hslots as [_ Hslots]. }
  assert (NoDup (bf_id <$> (B ++ Rl ++ A).*1)) as Hids2.
  { rewrite !fmap_app in Hids |- *. apply NoDup_app in Hids as (_ & _ & Hids). by rewrite !fmap_app in Hids. }
  pose proof (ids_new job0 job fs _ Hinv Hslots2 Hids2) as Hnd. pose proof Hinv as [[Hwf Hnr Hused Hnew _ _] Hj1 (files2 & Hj2 & Hs2 & Hp2) _ _ _ _].
  assert (Forall (fun h : grouped_file => 0 <= bf_id h.1 < nr_slots (cj_catalogue job)) ((f, g) :: Rl)) as Hr.
  { rewrite Hnr. cbn [app] in Hslots. apply Forall_cons in Hslots as [(_ & Hr & _) _]. constructor; [done|].
    apply Forall_app in Hslots2 as [_ Hslots2]. apply Forall_app in Hslots2 as [Hslots2 _]. eapply Forall_impl; [exact Hslots2|]. by intros h (_ & ? & _). }
  apply Forall_cons in Hr as [Hrf Hrl]. cbn [fst] in Hrf.
  destruct (drop_one_demoted job f (at_file (cj_file job) <$> R1.*1) Hwf Hrf) as (Hd1 & Hd2 & Hd3 & Hd4 & (Hwf1 & Hnr1 & Hmv1 & Hu1)).
  { rewrite Hj1. cbn. by rewrite Hl1. }
  set (job2 := drop_demoted [f] job) in *.
  destruct (drop_relatives_ok Rl.*1 job2 (at_file (cj_file job) <$> (fs ++ B ++ A).*1)) as (He1 & He2 & He3 & (files & He4 & Hpf & Hsf) & (Hwf2 & Hnr2 & Hmv2 & Hu2)).
  - done.
  - rewrite Hnr1. by rewrite Forall_fmap.
  - rewrite Hd2, Hj2. cbn [bl_files with_files]. rewrite Hp2, Hl2, <- list_fmap_compose. by rewrite <- fmap_app.
  - rewrite Hd2, Hj2. done.
  - rewrite Hd1, Hd2, Hj2. cbn [bl_files with_files]. rewrite Hp2, Hl2, <- fmap_app. rewrite !fmap_app.
    rewrite (Permutation_app_comm (at_file (cj_file job) <$> fs.*1)). rewrite <- !app_assoc. rewrite (Permutation_app_comm (at_file (cj_file job) <$> B.*1)).
    rewrite <- !app_assoc. f_equiv. rewrite !app_assoc. rewrite (Permutation_app_comm _ (at_file (cj_file job) <$> B.*1)).
    rewrite (Permutation_app_comm (at_file (cj_file job) <$> fs.*1)), <- !app_assoc. f_equiv. apply Permutation_app_comm.
  - fold job' in He1, He2, He3, He4, Hwf2, Hnr2, Hmv2, Hu2. split; [by rewrite He1, Hd1|]. split; [by rewrite He3, Hd3|]. split; [|split].
    + rewrite He2, Hd4, Hj1. unfold level_at. cbn [with_files bl_files bl_level bl_capacity bl_max_size]. done.
    + exists files. split; [by rewrite He4, Hd2, Hj2|]. split; [done|]. by rewrite seen_files.
    + split; [done|]. split; [by rewrite Hnr2, Hnr1|]. split; [by rewrite Hmv2|]. intros i Hi. rewrite Hu2, Hu1, Hused by done.
      cbn [fmap list_fmap fst]. rewrite list_elem_of_singleton, not_elem_of_cons. tauto.
Qed.

(** A record that a newer file of [P] overwrites. *)
Definition overwritten (P : list grouped_file) (e : entry) : Prop :=
  exists fg h, fg ∈ P /\ h ∈ P /\ e ∈ file_entries fg /\ e.1 ∈ (file_entries h).*1 /\ bf_version fg.1 < bf_version h.1.

(** What a compaction of the first file of [level1] guarantees: the job is well
    formed again, the two levels show what they showed, the slots of all other
    files still hold them, and only blocks of overwritten records are given up. *)
Record job_done job (fg : grouped_file) (R1 P2 : list grouped_file) job' (P2' : list grouped_file) : Prop := {
  jd_ok : job_ok job' (seen (cj_file job') R1) P2';
  jd_visible : forall k, visible (layer (level_find R1.*2) (level_find P2'.*2) k) =
    visible (layer (level_find (fg :: R1).*2) (level_find P2.*2) k);
  jd_kept : forall h, in_slot (cj_catalogue job) (cj_file job) h -> ~ bf_id h.1 ∈ bf_id <$> (fg :: R1 ++ P2).*1 ->
    in_slot (cj_catalogue job') (cj_file job') h;
  jd_tables : exists given, cj_tables job' = tables_after (cj_tables job) given /\ Forall (overwritten (fg :: P2)) given;
  jd_levels : cj_level1 job' = with_files (cj_level1 job) (bl_files (cj_level1 job')) /\
    cj_level2 job' = with_files (cj_level2 job) (bl_files (cj_level2 job'));
  jd_slots : nr_slots (cj_catalogue job') = nr_slots (cj_catalogue job) /\
    ((0 < nr_free (cj_catalogue job))%nat -> (0 < nr_free (cj_catalogue job'))%nat);
  jd_max : bc_max_version (cj_catalogue job) <= bc_max_version (cj_catalogue job') <= bc_max_version (cj_catalogue job) + Z.of_nat (nr_free (cj_catalogue job)) + 1
}.

Lemma job_files_wf job P1 P2 : job_ok job P1 P2 -> Forall (fun fg => file_wf fg.1 fg.2) (P1 ++ P2).
Proof.
  intros [[Hl1 Hh1 _] [Hl2 Hh2 _] _ Hslots _ _ _ _ _ _]. apply Forall_app in Hslots as [Hs1 Hs2]. rewrite Hl1 in Hh1. rewrite Hl2 in Hh2.
  assert (forall P : list grouped_file, at_file (cj_file job) <$> P.*1 = P.*1 -> Forall (in_slot (cj_catalogue job) (cj_file job)) P ->
    Forall (fun fg => file_wf fg.1 fg.2) P) as Hgen; [|apply Forall_app; split; by apply Hgen].
  intros P Hh Hs. induction P as [|fg P IH]; [constructor|]. apply Forall_cons in Hs as [Hs Hss]. cbn [fmap list_fmap] in Hh. injection Hh as Hf Hh.
  constructor; [by eapply in_slot_wf|by apply IH].
Qed.

Lemma seen_entries file fs : file_entries <$> seen file fs = file_entries <$> fs.
Proof. unfold seen. rewrite <- list_fmap_compose. by apply list_fmap_ext. Qed.

Lemma inputs_perm (f : disk_file) g (R1 B Rl A : list grouped_file) : ((f, g) :: R1) ++ B ++ Rl ++ A ≡ₚ ((f, g) :: Rl) ++ R1 ++ B ++ A.
Proof.
  cbn [app]. f_equiv. rewrite (app_assoc B), (Permutation_app_comm B), <- app_assoc, !app_assoc. f_equiv. f_equiv. apply Permutation_app_comm.
Qed.

(** What remains in the slots once the inputs are released. *)
Definition slots_after job0 job' (fs : list grouped_file) (gone : list Z) : Prop :=
  nr_slots (cj_catalogue job') = nr_slots (cj_catalogue job0) /\
  forall i, 0 <= i -> used (cj_catalogue job') i <-> (used (cj_catalogue job0) i \/ i ∈ bf_id <$> fs.*1) /\ ~ i ∈ gone.

Lemma kept_in_slot job0 job job' fs gone h : region_ok (cj_catalogue job0) -> job_inv job0 job fs (bf_id <$> fs.*1) ->
  slots_after job0 job' fs gone -> cj_file job' = cj_file job -> in_slot (cj_catalogue job0) (cj_file job0) h -> ~ bf_id h.1 ∈ gone ->
  in_slot (cj_catalogue job') (cj_file job') h.
Proof.
  intros Hreg Hinv [Hnr Hused] Hf Hh Hgone. pose proof (slot_kept _ _ _ _ _ Hreg Hinv Hh) as Hs. destruct Hh as (Hu & Hr & _).
  split; [apply Hused; [lia|tauto]|]. split; [by rewrite Hnr|]. by rewrite Hf.
Qed.

Lemma output_in_slot job0 job job' fs gone : job_inv job0 job fs (bf_id <$> fs.*1) -> slots_after job0 job' fs gone ->
  cj_file job' = cj_file job -> Forall (fun i => used (cj_catalogue job0) i) gone -> Forall (in_slot (cj_catalogue job') (cj_file job')) fs.
Proof.
  intros Hinv [Hnr Hused] Hf Hgone. pose proof (ids_in_range _ _ _ _ Hinv) as Hr. destruct Hinv as [[_ _ _ Hnew _ _] _ _ Hout _ _ _].
  rewrite Forall_forall in Hr, Hnew, Hgone. rewrite Forall_forall in Hout |- *. intros h Hh. assert (bf_id h.1 ∈ bf_id <$> fs.*1) as Hin by (apply list_elem_of_fmap_2, list_elem_of_fmap_2, Hh).
  specialize (Hr _ Hin). destruct (Hnew _ Hin) as [_ Hnu]. specialize (Hout _ Hh). split; [apply Hused; [lia|]; split; [by right|]|].
  - intros Hg. by apply Hnu, Hgone.
  - split; [by rewrite Hnr|]. rewrite Hf. apply Hout.
Qed.

Lemma seen_apart file (P : list grouped_file) : StronglySorted apart P.*1 -> StronglySorted apart (seen file P).*1.
Proof.
  rewrite seen_files. induction 1 as [|x l Hs IH Hx]; cbn; constructor; [done|]. apply Forall_fmap. eapply Forall_impl; [exact Hx|]. done.
Qed.

Lemma holds_in_perm P P' k r : P ≡ₚ P' -> holds_in P k r <-> holds_in P' k r.
Proof. intros Hp. unfold holds_in. by setoid_rewrite Hp. Qed.

Lemma Forall_seen_perm (Q : grouped_file -> Prop) file P P' : (forall fg, Q fg -> Q (at_file file fg.1, fg.2)) -> seen file P ≡ₚ P' -> Forall Q P -> Forall Q P'.
Proof. intros HQ <- HP. by apply Forall_seen. Qed.

(** The lower level after the merge. *)
Lemma merged_level2 file1 f g (B Rl A fs : list grouped_file) Q acts (l2 : disk_level) P2' :
  Forall (fun fg => file_wf fg.1 fg.2) ((f, g) :: Rl) -> files_disjoint (B ++ Rl ++ A).*1 ->
  Forall (fun h : grouped_file => bf_last_key h.1 < bf_first_key f) B -> Forall (fun h : grouped_file => bf_last_key f < bf_first_key h.1) A ->
  merged Q acts -> concat (file_entries <$> fs) = added acts -> (forall k r, kept Q k r <-> newest_input ((f, g) :: Rl) k r) ->
  Forall (fun fg => file_wf (at_file file1 fg.1) fg.2 /\ 0 <= bf_version fg.1) (fs ++ B ++ A) ->
  bl_files l2 = P2'.*1 -> cmp_sorted P2'.*1 -> bl_level l2 <> 0 -> seen file1 (fs ++ B ++ A) ≡ₚ P2' -> level_holds file1 l2 P2'.
Proof.
  intros Hwi Hd HB HA Hmerged Hconcat Hkept Hall Hl Hs Hnz Hp. pose proof Hmerged as (Hsorted & Hin & _).
  assert (Forall (fun fg => file_wf fg.1 fg.2 /\ 0 <= bf_version fg.1 /\ at_file file1 fg.1 = fg.1) P2') as Hall'.
  { rewrite <- Hp. unfold seen. apply Forall_fmap. eapply Forall_impl; [exact Hall|]. by intros fg [Hw Hv]. }
  split; [done| |].
  - rewrite Hl. clear -Hall'. induction Hall' as [|fg P (_ & _ & Hfg) _ IH]; [done|]. cbn [fmap list_fmap]. by rewrite Hfg, IH.
  - apply level_ok_of; try done; [eapply Forall_impl; [exact Hall'|]; by intros fg (? & ? & ?)| |eapply Forall_impl; [exact Hall'|]; by intros fg (? & ? & ?)].
    apply (sorted_perm apart (seen file1 (fs ++ B ++ A)).*1); [exact apart_sym|by rewrite Hp|].
    assert (seen file1 (fs ++ B ++ A) = seen file1 (seen file1 fs ++ B ++ A)) as ->.
    { unfold seen. rewrite !fmap_app. f_equal. rewrite <- list_fmap_compose. by apply list_fmap_ext. }
    apply seen_apart, (lower_apart f g B Rl A); try done.
    + apply Forall_app in Hall as [Hall _]. unfold seen. apply Forall_fmap. eapply Forall_impl; [exact Hall|]. by intros fg [Hw _].
    + intros fg k Hfg ([k' r] & -> & Hk)%list_elem_of_fmap. cbn [fst].
      assert ((k', r) ∈ added acts) as Hadd.
      { rewrite <- Hconcat, <- (seen_entries file1). apply list_elem_of_In, in_concat. exists (file_entries fg).
        split; apply list_elem_of_In; [by apply list_elem_of_fmap_2|done]. }
      apply Hin in Hadd as [Hadd%Hkept _]. destruct Hadd as (f' & g' & Hf' & Hr & _). exists (f', g'). split; [done|].
      apply leaf_find_in in Hr. by apply (list_elem_of_fmap_2 fst _ (k', r)).
    + apply outputs_apart; [|by rewrite seen_entries, Hconcat].
      apply Forall_app in Hall as [Hall _]. unfold seen. apply Forall_fmap. eapply Forall_impl; [exact Hall|]. by intros fg [Hw _].
Qed.

(** A file does not share keys with the files on either side of its relatives. *)
Lemma sides_apart (f : disk_file) g (B A : list grouped_file) k r r' : file_wf f g -> Forall (fun fg => file_wf fg.1 fg.2) (B ++ A) ->
  Forall (fun h : grouped_file => bf_last_key h.1 < bf_first_key f) B -> Forall (fun h : grouped_file => bf_last_key f < bf_first_key h.1) A ->
  file_find g k = Some r -> ~ holds_in (B ++ A) k r'.
Proof.
  intros Hf Hall HB HA Hr (f' & g' & Hin & Hr'). pose proof (file_find_range f g k r Hf Hr).
  rewrite Forall_forall in Hall, HB, HA. pose proof (file_find_range f' g' k r' (Hall _ Hin) Hr').
  apply elem_of_app in Hin as [Hin|Hin]; [specialize (HB _ Hin); cbn in HB|specialize (HA _ Hin); cbn in HA]; lia.
Qed.

Lemma free_slot cat i : 0 <= i < nr_slots cat -> ~ used cat i -> (0 < nr_free cat)%nat.
Proof.
  unfold nr_slots, used, nr_free. intros Hi Hu. destruct (lookup_lt_is_Some_2 (bc_slots cat) (Z.to_nat i) ltac:(lia)) as [b Hb].
  assert (b = false) as -> by (by destruct b). apply list_elem_of_lookup_2 in Hb.
  assert (false ∈ filter (fun b => b = false) (bc_slots cat)) as Hin by (by apply list_elem_of_filter).
  destruct (filter _ _); [by apply elem_of_nil in Hin|cbn; lia].
Qed.

(** The job after the merge is well formed. *)
Lemma merged_job_ok job job' file1 f g R1 (P P2' : list grouped_file) :
  level_holds (cj_file job) (cj_level1 job) ((f, g) :: R1) -> region_ok (cj_catalogue job) -> cj_file job' = file1 ->
  cj_level1 job' = level_at file1 (with_files (cj_level1 job) R1.*1) -> level_holds file1 (cj_level2 job') P2' -> bl_level (cj_level2 job') <> 0 ->
  Forall (fun fg => file_wf (at_file file1 fg.1) fg.2) R1 -> Forall (in_slot (cj_catalogue job') file1) P ->
  Forall (fun fg => Forall entry_ok (file_entries fg)) P -> NoDup (bf_id <$> P.*1) -> NoDup (bf_version <$> P.*1) ->
  Forall (fun fg : grouped_file => 0 <= bf_version fg.1 < bc_max_version (cj_catalogue job')) P -> bc_wf (cj_catalogue job') ->
  nr_slots (cj_catalogue job') = nr_slots (cj_catalogue job) -> seen file1 R1 ++ P2' ≡ₚ seen file1 P -> job_ok job' (seen file1 R1) P2'.
Proof.
  intros Hlev1 Hreg Hfile Hl1 Hholds2 Hbelow HwR Hslots Hent Hids Hvers Hmax Hwf Hnr Hperm.
  split; rewrite ?Hfile.
  - rewrite Hl1. apply level_holds_seen with (file := cj_file job); [by apply (level_holds_tail _ _ (f, g))|done].
  - done.
  - done.
  - rewrite Hperm. by apply Forall_seen.
  - rewrite Hperm. by apply (Forall_seen (fun fg => Forall entry_ok (file_entries fg))).
  - by rewrite Hperm, seen_attr.
  - by rewrite Hperm, seen_attr.
  - rewrite Hperm. by apply (Forall_seen (fun fg => 0 <= bf_version fg.1 < bc_max_version (cj_catalogue job'))).
  - done.
  - unfold region_ok. by rewrite Hnr.
Qed.

(** All files that are left lie in slots of their own. *)
Lemma merged_slots job job1 job' fs ins (P : list grouped_file) : region_ok (cj_catalogue job) -> job_inv job job1 fs (bf_id <$> fs.*1) ->
  slots_after job job' fs (bf_id <$> ins.*1) -> cj_file job' = cj_file job1 ->
  Forall (in_slot (cj_catalogue job) (cj_file job)) ins -> Forall (in_slot (cj_catalogue job) (cj_file job)) P ->
  (forall i, i ∈ bf_id <$> ins.*1 -> ~ i ∈ bf_id <$> P.*1) -> Forall (in_slot (cj_catalogue job') (cj_file job')) (fs ++ P).
Proof.
  intros Hreg Hinv Hafter Hfile Hins HP Hdisj. apply Forall_app. split.
  - eapply output_in_slot; [done..|]. apply Forall_fmap, Forall_fmap. eapply Forall_impl; [exact Hins|]. by intros h (? & _).
  - rewrite Forall_forall in HP |- *. intros h Hh. eapply (kept_in_slot job job1 job'); [done..|by apply HP|].
    intros Hin. apply (Hdisj _ Hin). by apply list_elem_of_fmap_2, list_elem_of_fmap_2.
Qed.

Lemma merge_branch uninit job f g R1 B Rl A : job_ok job ((f, g) :: R1) (B ++ Rl ++ A) -> merge_ready job (f, g) Rl ->
  bc_max_version (cj_catalogue job) + Z.of_nat (nr_free (cj_catalogue job)) < 2 ^ 64 ->
  Forall (fun h : grouped_file => bf_last_key h.1 < bf_first_key f) B -> Forall (fun h : grouped_file => bf_last_key f < bf_first_key h.1) A ->
  exists job' P2', merge_files uninit [f] Rl.*1 job = Some job' /\ job_done job (f, g) R1 (B ++ Rl ++ A) job' P2'.
Proof.
  intros Hok Hready Hversions HB HA. pose proof (job_files_wf _ _ _ Hok) as Hwfs. pose proof (inputs_perm f g R1 B Rl A) as Hperm.
  pose proof Hok as [Hlev1 Hlev2 Hbelow Hslots Hent Hids Hvers Hmax Hwf Hreg]. pose proof Hready as [Hnew Hpairs Hdist Hlast Hfree Hroom].
  rewrite Hperm in Hwfs, Hslots, Hent, Hids, Hvers, Hmax. rewrite Forall_app in Hwfs, Hslots, Hent, Hmax.
  destruct Hwfs as [Hwi Hwk], Hslots as [Hsi Hsk], Hent as [Hei Hek], Hmax as [Hmi Hmk].
  pose proof Hids as Hids'. pose proof Hvers as Hvers'. rewrite !fmap_app in Hids, Hvers. apply NoDup_app in Hids as (Hidi & Hdisj & Hidk). apply NoDup_app in Hvers as (Hvi & _ & Hvk).
  rewrite <- !fmap_app in Hidk, Hvk.
  pose proof (inputs_ready job f g Rl Hidi Hvi Hready) as Hins.
  assert (0 <= bc_max_version (cj_catalogue job)) as Hmax0 by (apply Forall_cons in Hmi as [Hm _]; lia).
  destruct (merge_files_ok job Hreg f g Rl) with (uninit := uninit)
    as (job1 & fs & Q & acts & Hmerge & Hinv & Hmerged & Hconcat & Hkept & Hout & Htab & Hgiven); try done.
  { eapply Forall_impl; [exact Hwi|]. intros [f1 g1] Hw. apply (fw_sorted _ _ Hw). }
  { apply level_at_id. apply Hlev1. } { apply level_at_id. apply Hlev2. }
  { apply disjoint_sorted. by destruct Hlev2 as [_ _ []]. }
  destruct (drop_inputs_ok job job1 fs f g R1 B Rl A Hok Hinv) as (Hfile & Htabs & Hl1 & (files & Hl2 & Hsort2 & Hperm2) & Hwf' & Hnr' & Hmv' & Hused').
  set (job' := drop_relatives Rl.*1 (drop_demoted [f] job1)) in *.
  assert (slots_after job job' fs (bf_id <$> ((f, g) :: Rl).*1)) as Hafter by done.
  apply Permutation_map_inv in Hperm2 as (P2' & -> & HP2).
  assert (Forall (in_slot (cj_catalogue job') (cj_file job')) (fs ++ R1 ++ B ++ A)) as Hslots'.
  { apply (merged_slots job job1 job' fs ((f, g) :: Rl)); try done. intros x Hx Hin. apply (Hdisj x Hx). by rewrite <- !fmap_app. }
  assert (Forall (in_slot (cj_catalogue job') (cj_file job')) fs) as Hfs_slots by (by apply Forall_app in Hslots' as [? _]).
  assert (Forall (fun fg => file_wf (at_file (cj_file job1) fg.1) fg.2) (fs ++ R1 ++ B ++ A)) as Hwf_all.
  { eapply Forall_impl; [exact Hslots'|]. intros fg (_ & _ & [Hw _ _ _]). by rewrite Hfile in Hw. }
  destruct (versions_new job job1 fs (R1 ++ B ++ A) Hinv Hmk Hmax0 Hvk) as [Hvnew Hmaxnew]. rewrite <- Hmv' in Hmaxnew.
  assert (forall (Qp : grouped_file -> Prop), Forall Qp (fs ++ R1 ++ B ++ A) -> Forall Qp (fs ++ B ++ A)) as Hdrop.
  { intros Qp. rewrite !(Forall_app Qp). tauto. }
  assert (level_holds (cj_file job1) (cj_level2 job') P2') as Hholds2.
  { rewrite Hl2. apply (merged_level2 (cj_file job1) f g B Rl A fs Q acts); try done; [by destruct Hlev2 as [<- _ []]|].
    apply Forall_and. split; [by apply Hdrop|]. apply Hdrop. eapply Forall_impl; [exact Hmaxnew|]. cbn. intros; lia. }
  assert (seen (cj_file job1) R1 ++ P2' ≡ₚ seen (cj_file job1) (fs ++ R1 ++ B ++ A)) as Hperm'.
  { rewrite <- HP2. unfold seen. rewrite !fmap_app. rewrite app_assoc, (Permutation_app_comm (_ <$> R1)), <- app_assoc. f_equiv. }
  exists job', P2'. split; [exact Hmerge|]. split.
  - rewrite Hfile. apply (merged_job_ok job job' (cj_file job1) f g R1 (fs ++ R1 ++ B ++ A)); try done; [by rewrite Hl2|..].
    + apply Forall_app in Hwf_all as [_ Hwf_all]. by apply Forall_app in Hwf_all as [? _].
    + by rewrite Hfile in Hslots'.
    + apply Forall_app. split; [|done]. eapply Forall_impl; [exact Hout|]. by intros h [_ ?].
    + by apply (ids_new job job1).
  - intros k. apply (merge_visible f g R1 B Rl A fs P2' k); try done.
    + intros r. apply (level_holds_find _ _ _ _ _ Hlev1).
    + intros r. apply (level_holds_find _ _ _ _ _ (level_holds_tail _ _ _ _ Hlev1)).
    + intros r. apply (level_holds_find _ _ _ _ _ Hlev2).
    + intros r. rewrite (level_holds_find _ _ _ _ _ Hholds2), <- (holds_in_perm _ _ _ _ HP2). apply holds_in_seen.
    + intros r Hr r'. apply Forall_cons in Hwi as [Hwi _]. apply Forall_app in Hwk as [_ Hwk]. by apply (sides_apart f g B A k r r').
    + intros r. by apply (outputs_hold fs Q acts).
  - intros h Hh Hnot. eapply (kept_in_slot job job1 job'); [done..|]. intros Hin. apply Hnot.
    cbn [fmap list_fmap] in *. rewrite !fmap_app. apply elem_of_cons in Hin. rewrite elem_of_cons, !elem_of_app. tauto.
  - exists (given_up acts). split; [by rewrite Htabs|]. apply Forall_forall. intros e He.
    destruct (Hgiven e He) as (f' & g' & Hin & Hein & f2 & g2 & Hin2 & Hk2 & Hv). exists (f', g'), (f2, g2).
    rewrite !elem_of_cons, !elem_of_app in *. tauto.
  - rewrite Hl1, Hl2. by split.
  - split; [done|]. intros _. apply Forall_cons in Hsi as [(_ & Hr & _) _]. cbn [fst] in Hr. apply (free_slot _ (bf_id f)); [by rewrite Hnr'|].
    intros Hu. apply Hused' in Hu as [_ Hni]; [|lia]. apply Hni. by left.
  - rewrite Hmv'. destruct Hinv as [[_ _ _ _ _ Hfr] _ _ _ _ Hv _]. rewrite Hv. lia.
Qed.

(** *** Without relatives *)

Lemma renew_wf (f : disk_file) g level version : file_wf f g -> file_wf (renew f level version) g.
Proof. by intros []. Qed.

Lemma renew_slot (f : disk_file) g lo level version : file_in_slot f g lo -> file_in_slot (renew f level version) g lo.
Proof. intros [Hw [Hc1 Hc2 Hc3] Hn Hx]. split; [by apply renew_wf|by split|done|done]. Qed.

Lemma renew_entries (f : disk_file) g level version : file_entries (renew f level version, g) = file_entries (f, g).
Proof. done. Qed.

Lemma lookup_option_ext {A} (x y : option A) : (forall a, x = Some a <-> y = Some a) -> x = y.
Proof. intros Hxy. destruct x as [a|]; [symmetry; by apply Hxy|]. destruct y as [b|]; [by apply Hxy|done]. Qed.

(** A file moved below shows through the same. *)
Lemma move_visible (f f' : disk_file) g (R1 B A P2' : list grouped_file) k :
  (forall r, level_find ((f, g) :: R1).*2 k = Some r <-> holds_in ((f, g) :: R1) k r) ->
  (forall r, level_find R1.*2 k = Some r <-> holds_in R1 k r) ->
  (forall r, level_find (B ++ A).*2 k = Some r <-> holds_in (B ++ A) k r) ->
  (forall r, level_find P2'.*2 k = Some r <-> holds_in ((f', g) :: B ++ A) k r) ->
  layer (level_find R1.*2) (level_find P2'.*2) k = layer (level_find ((f, g) :: R1).*2) (level_find (B ++ A).*2) k.
Proof.
  intros Hf1 Hf1' Hf2 Hf2'.
  assert (forall h P r, holds_in ((h, g) :: P) k r <-> file_find g k = Some r \/ holds_in P k r) as Hcons.
  { intros h P r. change ((h, g) :: P) with ([(h, g)] ++ P). rewrite holds_in_app. apply or_iff_compat_r. split.
    - by intros (h' & g' & [= -> ->]%list_elem_of_singleton & Hr).
    - intros Hr. exists h, g. split; [by left|done]. }
  apply lookup_option_ext. intros r. unfold layer.
  destruct (level_find R1.*2 k) as [x|] eqn:Hx in |- *.
  { assert (level_find ((f, g) :: R1).*2 k = Some x) as ->; [|done]. apply Hf1, Hcons. right. by apply Hf1'. }
  assert (forall y, ~ holds_in R1 k y) as Hno by (intros y Hy%Hf1'; congruence).
  destruct (file_find g k) as [x|] eqn:Hg in |- *.
  - assert (level_find ((f, g) :: R1).*2 k = Some x) as -> by (apply Hf1, Hcons; by left).
    assert (level_find P2'.*2 k = Some x) as -> by (apply Hf2', Hcons; by left). done.
  - assert (level_find ((f, g) :: R1).*2 k = None) as ->.
    { destruct (level_find ((f, g) :: R1).*2 k) as [y|] eqn:Hy in |- *; [|done]. apply Hf1, Hcons in Hy as [Hy|Hy]; [congruence|by destruct (Hno y)]. }
    rewrite Hf2', Hf2, Hcons. split; [by intros [?|?]; [congruence|]|by right].
Qed.

Lemma seen_id file P : at_file file <$> P.*1 = P.*1 -> seen file P = P.
Proof.
  induction P as [|[f g] P IH]; [done|]. cbn [fmap list_fmap fst]. intros [= Hf HP]. unfold seen in *. cbn [fmap list_fmap fst snd]. by rewrite Hf, IH.
Qed.

(** Adding a file changes nothing of a level but its files. *)
Lemma add_file_level (level level2 : disk_level) (f : disk_file) r : bit_level_add_file level f = Some (level2, r) -> level2 = with_files level (bl_files level2).
Proof.
  unfold bit_level_add_file. destruct (_ <=? _); [intros [= <- _]; by destruct level|].
  destruct (bit_level_search_file _ _); [|done]. by intros [= <- <-].
Qed.

(** The step for one file: it gets a new version in the catalogue, is added to the
    second level and removed from the first. *)
Lemma move_one job (f : disk_file) g R1 (P : list grouped_file) : bc_wf (cj_catalogue job) -> 0 <= bf_id f < nr_slots (cj_catalogue job) ->
  0 <= bc_max_version (cj_catalogue job) -> bc_max_version (cj_catalogue job) + 1 < 2 ^ 64 ->
  bl_files (cj_level1 job) = ((f, g) :: R1).*1 -> bl_files (cj_level2 job) = P.*1 -> cmp_sorted (bl_files (cj_level2 job)) ->
  bl_size (cj_level2 job) < bl_max_size (cj_level2 job) ->
  let f' := renew f (bl_level (cj_level2 job)) (bc_max_version (cj_catalogue job)) in
  exists cat level2 P2',
    move_files [f] job = Some (with_level1 (with_level2 (with_catalogue job cat) level2) (with_files (cj_level1 job) R1.*1)) /\
    bc_wf cat /\ bc_slots cat = bc_slots (cj_catalogue job) /\ bc_max_version cat = bc_max_version (cj_catalogue job) + 1 /\
    level2 = with_files (cj_level2 job) (bl_files level2) /\ cmp_sorted (bl_files level2) /\ bl_files level2 = map fst P2' /\ (f', g) :: P ≡ₚ P2'.
Proof.
  intros Hwf Hid Hv0 Hv Hl1 Hl2 Hsort Hroom f'. set (version := bc_max_version (cj_catalogue job)) in *.
  pose proof (bitc_next_version_frame _ Hwf) as Hwf1.
  pose proof (bitc_set_stats_frame (bitc_get_next_version (cj_catalogue job)).1 (bf_id f) (bit_file_get_stats f') Hwf1 ltac:(lia) (stats_fit f')) as Hstats.
  cbn [move_files]. cbn [bitc_get_next_version fst] in *. fold version f'. change (bf_id f') with (bf_id f).
  destruct (bitc_set_file_stats _ (bf_id f) (bit_file_get_stats f')) as [cat r]. cbn [fst] in Hstats. destruct Hstats as (Hwf' & Hmv' & Hsl').
  cbn [bc_max_version bc_slots] in Hmv', Hsl'. rewrite u64_small in Hmv' by lia.
  destruct (add_file_spec (cj_level2 job) f' Hsort) as (level2 & r' & Hadd & Hroom' & _). destruct (Hroom' Hroom) as (_ & Hsort2 & Hperm2).
  rewrite Hadd. unfold bit_level_remove_file. rewrite Hl1. cbn [remove_id fmap list_fmap fst]. rewrite Z.eqb_refl.
  rewrite Hl2 in Hperm2. change (f' :: P.*1) with (((f', g) :: P).*1) in Hperm2. apply Permutation_map_inv in Hperm2 as (P2' & HP2' & HP2).
  exists cat, level2, P2'. do 4 (split; [done|]). split; [by eapply add_file_level|done].
Qed.

(** The second level with the file in its place. *)
Lemma moved_level2 file (l2 level2 : disk_level) (f : disk_file) g (B A P2' : list grouped_file) version :
  level_holds file l2 (B ++ A) -> bl_level l2 <> 0 -> file_wf f g -> 0 <= version -> at_file file f = f ->
  Forall (fun fg : grouped_file => file_wf fg.1 fg.2) (B ++ A) -> Forall (fun fg : grouped_file => 0 <= bf_version fg.1) (B ++ A) ->
  Forall (fun h : grouped_file => bf_last_key h.1 < bf_first_key f) B -> Forall (fun h : grouped_file => bf_last_key f < bf_first_key h.1) A ->
  level2 = with_files l2 (bl_files level2) -> cmp_sorted (bl_files level2) -> bl_files level2 = map fst P2' ->
  (renew f (bl_level l2) version, g) :: B ++ A ≡ₚ P2' -> level_holds file level2 P2'.
Proof.
  intros [Hl2 Hh2 [_ Hd2 _ _]] Hbelow Hwf0 Hv Hf Hws Hvs HB HA Hlevel2 Hsort2 HP2' HP2. set (f' := renew f (bl_level l2) version) in *.
  assert (at_file file f' = f') as Hf' by (unfold f'; rewrite <- Hf at 2; done).
  assert (Forall (fun fg => file_wf fg.1 fg.2 /\ 0 <= bf_version fg.1 /\ at_file file fg.1 = fg.1) ((f', g) :: B ++ A)) as Hall.
  { constructor; [split; [by apply renew_wf|done]|]. apply Forall_forall. intros h Hh. rewrite Forall_forall in Hws, Hvs.
    split; [by apply Hws|]. split; [by apply Hvs|].
    rewrite Hl2 in Hh2. apply (list_elem_of_fmap_2 fst) in Hh. apply list_elem_of_lookup in Hh as [i Hi]. rewrite <- Hh2 in Hi.
    pose proof Hi as Hi'. rewrite list_lookup_fmap in Hi'. rewrite Hh2 in Hi. rewrite Hi in Hi'. cbn in Hi'. congruence. }
  rewrite HP2 in Hall. split; [done| |].
  - rewrite HP2'. clear -Hall. induction Hall as [|fg P (_ & _ & Hfg) _ IH]; [done|]. change (map fst (fg :: P)) with (fg.1 :: map fst P).
    cbn [fmap list_fmap]. by rewrite Hfg, IH.
  - apply level_ok_of; [done|eapply Forall_impl; [exact Hall|]; by intros fg (? & ? & ?)| | |eapply Forall_impl; [exact Hall|]; by intros fg (? & ? & ?)|by rewrite Hlevel2].
    + apply (sorted_perm apart ((f', g) :: B ++ A).*1); [exact apart_sym|by rewrite HP2|].
      change ((f', g) :: B ++ A) with ([(f', g)] ++ B ++ A). apply (lower_apart f g B [] A); try done.
      * by constructor.
      * cbn [app]. by rewrite <- Hl2.
      * constructor; [by apply renew_wf|constructor].
      * intros fg k ->%list_elem_of_singleton Hk. exists (f, g). split; [by left|done].
      * repeat constructor.
    + change (cmp_sorted (map fst P2')). by rewrite <- HP2'.
Qed.

(** The job after the step is well formed. *)
Lemma moved_job_ok job f g R1 B A cat level2 P2' : job_ok job ((f, g) :: R1) (B ++ A) ->
  let f' := renew f (bl_level (cj_level2 job)) (bc_max_version (cj_catalogue job)) in
  bc_wf cat -> nr_slots cat = nr_slots (cj_catalogue job) -> bc_max_version cat = bc_max_version (cj_catalogue job) + 1 ->
  level2 = with_files (cj_level2 job) (bl_files level2) -> level_holds (cj_file job) level2 P2' ->
  R1 ++ P2' ≡ₚ (f', g) :: R1 ++ B ++ A ->
  (forall h, in_slot (cj_catalogue job) (cj_file job) h -> in_slot cat (cj_file job) h) -> in_slot cat (cj_file job) (f', g) ->
  job_ok (with_level1 (with_level2 (with_catalogue job cat) level2) (with_files (cj_level1 job) R1.*1)) R1 P2'.
Proof.
  intros [Hlev1 Hlev2 Hbelow Hslots Hent Hids Hvers Hmax Hwf Hreg] f' Hwf' Hnr Hmv' Hlevel2 Hholds2 HR Hin_slot Hslot'.
  apply Forall_cons in Hslots as [_ Hss]. apply Forall_cons in Hent as [Hef Hes]. apply Forall_cons in Hmax as [Hmf Hms]. cbn [fst] in Hmf.
  split; cbn [cj_file cj_catalogue cj_level1 cj_level2 with_level1 with_level2 with_catalogue].
  - by apply (level_holds_tail _ _ (f, g)).
  - done.
  - by rewrite Hlevel2.
  - rewrite HR. constructor; [done|]. eapply Forall_impl; [exact Hss|]. done.
  - rewrite HR. by constructor.
  - by rewrite HR.
  - rewrite HR. cbn [fmap list_fmap fst] in Hvers |- *. apply NoDup_cons in Hvers as [_ Hvers]. apply NoDup_cons. split; [|done].
    intros (h & Hv & Hin)%list_elem_of_fmap. change (bf_version f') with (bc_max_version (cj_catalogue job)) in Hv. apply list_elem_of_fmap in Hin as (fg & -> & Hin).
    rewrite Forall_forall in Hms. specialize (Hms _ Hin). lia.
  - rewrite HR, Hmv'. constructor; [cbn; lia|]. eapply Forall_impl; [exact Hms|]. cbn. intros; lia.
  - done.
  - unfold region_ok. by rewrite Hnr.
Qed.

Lemma move_branch job f g R1 B A : job_ok job ((f, g) :: R1) (B ++ A) ->
  bl_size (cj_level2 job) < bl_max_size (cj_level2 job) -> bc_max_version (cj_catalogue job) + 1 < 2 ^ 64 ->
  Forall (fun h : grouped_file => bf_last_key h.1 < bf_first_key f) B -> Forall (fun h : grouped_file => bf_last_key f < bf_first_key h.1) A ->
  exists job' P2', move_files [f] job = Some job' /\ job_done job (f, g) R1 (B ++ A) job' P2'.
Proof.
  intros Hok Hroom Hversions HB HA. pose proof (job_files_wf _ _ _ Hok) as Hwfs.
  pose proof Hok as [Hlev1 Hlev2 Hbelow Hslots Hent Hids Hvers Hmax Hwf Hreg]. cbn [app] in Hwfs, Hslots, Hent, Hmax.
  pose proof Hslots as [Hsf Hss]%Forall_cons. pose proof Hent as [Hef Hes]%Forall_cons. pose proof Hmax as [Hmf Hms]%Forall_cons.
  pose proof Hwfs as [Hwf0 Hws]%Forall_cons. cbn [fst snd] in Hwf0, Hmf. destruct Hsf as (Hu & Hr & Hs).
  set (version := bc_max_version (cj_catalogue job)) in *. set (f' := renew f (bl_level (cj_level2 job)) version).
  pose proof Hlev1 as [Hl1 Hh1 _]. pose proof Hlev2 as [Hl2 _ [_ Hd2 _ _]].
  assert (at_file (cj_file job) f = f) as Hf by (rewrite Hl1 in Hh1; by injection Hh1).
  destruct (move_one job f g R1 (B ++ A) Hwf Hr ltac:(lia) Hversions Hl1 Hl2 (disjoint_sorted _ Hd2) Hroom)
    as (cat & level2 & P2' & -> & Hwf' & Hsl' & Hmv' & Hlevel2 & Hsort2 & HP2' & HP2). fold version f' in Hmv', HP2.
  eexists _, P2'. split; [reflexivity|].
  assert (R1 ++ P2' ≡ₚ (f', g) :: R1 ++ B ++ A) as HR by (rewrite <- HP2; symmetry; apply Permutation_middle).
  assert (seen (cj_file job) R1 = R1) as Hseen by (apply seen_id; rewrite Hl1 in Hh1; by injection Hh1).
  assert (nr_slots cat = nr_slots (cj_catalogue job)) as Hnr by (unfold nr_slots; by rewrite Hsl').
  assert (forall h, in_slot (cj_catalogue job) (cj_file job) h -> in_slot cat (cj_file job) h) as Hin_slot.
  { intros h (Hhu & Hhr & Hhs). split; [unfold used; by rewrite Hsl'|]. by rewrite Hnr. }
  assert (in_slot cat (cj_file job) (f', g)) as Hslot'.
  { destruct (Hin_slot (f, g)) as (Hu' & Hr' & Hs'); [by split|]. split; [done|]. split; [done|].
    exact (renew_slot (at_file (cj_file job) f) g _ (bl_level (cj_level2 job)) version Hs'). }
  assert (level_holds (cj_file job) level2 P2') as Hholds2.
  { apply Forall_app in Hws as [_ Hws]. apply Forall_app in Hms as [_ Hms].
    apply (moved_level2 (cj_file job) (cj_level2 job) level2 f g B A P2' version); try done; [lia|].
    eapply Forall_impl; [exact Hms|]. cbn. intros; lia. }
  split; cbn [cj_file cj_catalogue cj_level1 cj_level2 cj_tables with_level1 with_level2 with_catalogue].
  - rewrite Hseen. by apply (moved_job_ok job f g R1 B A cat level2 P2').
  - intros k. f_equal. apply (move_visible f f' g R1 B A P2' k).
    + intros r0. apply (level_holds_find _ _ _ _ _ Hlev1).
    + intros r0. apply (level_holds_find _ _ _ _ _ (level_holds_tail _ _ _ _ Hlev1)).
    + intros r0. apply (level_holds_find _ _ _ _ _ Hlev2).
    + intros r0. rewrite (level_holds_find _ _ _ _ _ Hholds2). by apply holds_in_perm.
  - intros h Hh _. by apply Hin_slot.
  - exists []. split; [done|constructor].
  - by split.
  - split; [done|]. unfold nr_free. by rewrite Hsl'.
  - rewrite Hmv'. lia.
Qed.

(** *** The whole run *)

Lemma with_file_id job P1 P2 : job_ok job P1 P2 -> with_file job (cj_file job) = job.
Proof.
  intros [[_ Hh1 _] [_ Hh2 _] _ _ _ _ _ _ _ _]. unfold with_file. rewrite !level_at_id by done. by destruct job.
Qed.

(** What is asked of the job before the run: room for one more file and version
    numbers left, and the conditions of the merge if there are relatives. *)
Record job_ready job (fg : grouped_file) (P2 : list grouped_file) : Prop := {
  jr_room : bl_size (cj_level2 job) < bl_max_size (cj_level2 job);
  jr_versions : bc_max_version (cj_catalogue job) + Z.of_nat (nr_free (cj_catalogue job)) + 1 < 2 ^ 64;
  jr_merge : forall B Rl A, P2 = B ++ Rl ++ A -> bit_level_find_relative_files (cj_level2 job) [fg.1] = Some Rl.*1 -> Rl <> [] ->
    merge_ready job fg Rl
}.

Lemma compaction_job_run_done uninit job fg R1 P2 : job_ok job (fg :: R1) P2 -> job_ready job fg P2 ->
  exists job' P2', compaction_job_run uninit job = Some job' /\ job_done job fg R1 P2 job' P2'.
Proof.
  intros Hok [Hroom Hver Hmerge]. destruct fg as [f g]. destruct (relatives_split job f g R1 P2 Hok) as (B & Rl & A & -> & Hrel & HB & HA).
  unfold compaction_job_run. rewrite (with_file_id _ _ _ Hok).
  assert (bit_level_pick_demoted_files (cj_level1 job) = Ok [f]) as ->.
  { pose proof Hok as [[Hl1 _ [_ _ _ Hz]] _ _ _ _ _ _ _ _ _]. unfold bit_level_pick_demoted_files. rewrite Hl1 in *. cbn [fmap list_fmap fst] in *.
    destruct (Z.eqb_spec (bl_level (cj_level1 job)) 0) as [H0'|]; [|done]. specialize (Hz H0'). cbn in Hz. by destruct (R1.*1); [|cbn in Hz; lia]. }
  rewrite Hrel. destruct Rl as [|h Rl].
  - cbn [fmap list_fmap]. assert (lsm_file_overlapping [f] = false) as -> by (unfold lsm_file_overlapping; cbn; by rewrite Z.eqb_refl).
    cbn [negb app]. apply move_branch; try done. lia.
  - cbn [fmap list_fmap]. change (h.1 :: Rl.*1) with ((h :: Rl).*1). apply merge_branch; try done; [by eapply Hmerge|lia].
Qed.


(** ** The memtable as a file *)

Definition memtable_entries (es : list memtable_entry) : list entry :=
  concat ((fun e => option_list (pair (me_key e) <$> me_val e) ++ option_list (pair (me_key e) <$> me_negative_val e)) <$> es).

Lemma add_memtable_entries es : forall b, add_memtable es b = add_entries old_mac b (memtable_entries es).
Proof.
  assert (forall o es b, add_entries old_mac b (option_list o ++ es) = match add_new b o with None => None | Some b => add_entries old_mac b es end) as Hone
    by (by intros [[k r]|]).
  induction es as [|e es IH]; intros b; [done|]. cbn [add_memtable memtable_entries fmap list_fmap concat]. rewrite <- app_assoc, Hone.
  destruct (add_new b _) as [b1|]; [|done]. rewrite Hone. destruct (add_new b1 _); [|done]. apply IH.
Qed.

Lemma memtable_entries_keys es k : k ∈ (memtable_entries es).*1 -> k ∈ me_key <$> es.
Proof.
  intros ([k' r] & -> & Hin)%list_elem_of_fmap. apply list_elem_of_In, in_concat in Hin as (l & Hl & Hin). apply list_elem_of_In in Hl, Hin.
  apply list_elem_of_fmap in Hl as (e & -> & He). apply list_elem_of_fmap. exists e. split; [|done].
  apply elem_of_app in Hin as [Hin|Hin]; apply elem_of_option_list, fmap_Some in Hin as (x & _ & Heq); by injection Heq.
Qed.

Lemma memtable_entries_sorted es : keys_sorted me_key es -> keys_le (memtable_entries es).
Proof.
  unfold keys_le. induction es as [|e es IH]; intros Hs; [constructor|]. apply keys_sorted_cons in Hs as [Hs He].
  cbn [memtable_entries fmap list_fmap concat]. rewrite fmap_app. apply StronglySorted_app. split; [|split; [|by apply IH]].
  - intros x y Hx Hy. apply memtable_entries_keys in Hy. apply list_elem_of_fmap in Hy as (e' & -> & Hy). rewrite Forall_forall in He. specialize (He _ Hy).
    assert (x = me_key e) as ->; [|lia]. destruct (me_val e), (me_negative_val e); cbn in Hx; rewrite ?elem_of_cons, ?elem_of_nil in Hx; tauto.
  - destruct (me_val e), (me_negative_val e); cbn; repeat constructor; lia.
Qed.

Lemma memtable_entries_length es : Z.of_nat (length (memtable_entries es)) = weight es.
Proof.
  induction es as [|e es IH]; [done|]. cbn [memtable_entries fmap list_fmap concat weight]. fold (memtable_entries es).
  assert (forall (k : Z) (o : option record), Z.of_nat (length (option_list (pair k <$> o))) = present o) as Hp by (by intros k []).
  pose proof (Hp (me_key e) (me_val e)). pose proof (Hp (me_key e) (me_negative_val e)). rewrite !length_app. unfold entry_weight. lia.
Qed.

Lemma memtable_entries_find es k : keys_sorted me_key es -> leaf_find k (memtable_entries es) = kmap me_key entry_cell es !! k ≫= cell_value.
Proof.
  induction es as [|e es IH]; intros Hs; [done|]. apply keys_sorted_cons in Hs as [Hs He].
  cbn [memtable_entries fmap list_fmap concat]. fold (memtable_entries es). rewrite <- app_assoc.
  change (kmap me_key entry_cell (e :: es)) with (<[me_key e := entry_cell e]> (kmap me_key entry_cell es)).
  destruct (Z.eq_dec (me_key e) k) as [Hk|Hk].
  - subst k. rewrite lookup_insert_eq. cbn. unfold cell_value, entry_cell. cbn [fst snd].
    destruct (me_val e) as [x|]; cbn; [by rewrite Z.eqb_refl|]. destruct (me_negative_val e) as [x|]; cbn; [by rewrite Z.eqb_refl|].
    rewrite IH by done. rewrite kmap_lookup_none; [done|]. eapply Forall_impl; [exact He|]. cbn. intros; lia.
  - rewrite lookup_insert_ne by done. rewrite <- IH by done.
    assert (forall (o : option record) l, leaf_find k (option_list (pair (me_key e) <$> o) ++ l) = leaf_find k l) as Hskip.
    { intros [x|] l; cbn; [|done]. by destruct (Z.eqb_spec (me_key e) k). }
    by rewrite !Hskip.
Qed.

(** ** The tree with its two levels *)

(** The number of levels is [DEFAULT_LSM_TREE_NR_DISK_LEVEL]. *)
Record tree_ok this (P0 P1 : list grouped_file) : Prop := {
  to_levels : exists l0 l1, dt_levels this = [l0; l1] /\ job_ok (compaction_job_init this l0 l1) P0 P1 /\ bl_level l0 = 0 /\
    bl_capacity l0 = DEFAULT_LSM_LEVEL0_NR_FILE /\ bl_capacity l0 < bl_max_size l0
}.

Definition tree_shows (P0 P1 : list grouped_file) (k : Z) : option record := levels_find [P0.*2; P1.*2] k.

Lemma tree_shows_layer P0 P1 k : tree_shows P0 P1 k = layer (level_find P0.*2) (level_find P1.*2) k.
Proof. unfold tree_shows, levels_find, layer. destruct (level_find P0.*2 k); [done|]. by destruct (level_find P1.*2 k). Qed.

(** A slot is free and the versions last for two compactions. *)
Record tree_room this : Prop := {
  tr_free : (0 < nr_free (dt_catalogue this))%nat;
  tr_versions : 0 <= bc_max_version (dt_catalogue this) /\ bc_max_version (dt_catalogue this) + 2 * nr_slots (dt_catalogue this) + 2 < 2 ^ 64
}.

Lemma nr_free_slots cat : Z.of_nat (nr_free cat) <= nr_slots cat.
Proof. unfold nr_free, nr_slots. pose proof (length_filter (fun b => b = false) (bc_slots cat)). lia. Qed.

(** What makes room in level 0: its file, if it has one, goes to level 1. *)
Definition can_make_room this (P0 P1 : list grouped_file) : Prop :=
  P0 = [] \/ exists fg l0 l1, P0 = [fg] /\ dt_levels this = [l0; l1] /\ bit_level_is_full l1 = false /\
    job_ready (compaction_job_init this l0 l1) fg P1.

Lemma level0_full this P0 P1 l0 l1 : tree_ok this P0 P1 -> dt_levels this = [l0; l1] ->
  bit_level_is_full l0 = match P0 with [] => false | _ => true end.
Proof.
  intros [(a & b & Heq & [[Hl _ _] _ _ _ _ _ _ _ _ _] & _ & Hc & _)] Hl'. rewrite Heq in Hl'. injection Hl' as -> ->. cbn in Hl.
  unfold bit_level_is_full, bl_size. rewrite Hl, Hc, length_fmap. assert (DEFAULT_LSM_LEVEL0_NR_FILE = 1) as -> by reflexivity.
  destruct P0; [done|]. cbn [length]. destruct (Z.leb_spec 1 (Z.of_nat (S (length P0)))); [done|lia].
Qed.

(** The records that give up their blocks. *)
Definition gives_up (t t' : block_tables) (P : list grouped_file) : Prop :=
  exists given, t' = tables_after t given /\ Forall (overwritten P) given.

Lemma make_room uninit this P0 P1 l0 l1 : tree_ok this P0 P1 -> can_make_room this P0 P1 -> tree_room this -> dt_levels this = [l0; l1] ->
  exists this' P1', (if bit_level_is_full l0 then lsm_tree_major_compaction 2 uninit this 0 else Some this) = Some this' /\
    tree_ok this' [] P1' /\ (0 < nr_free (dt_catalogue this'))%nat /\ 0 <= bc_max_version (dt_catalogue this') /\
    bc_max_version (dt_catalogue this') + Z.of_nat (nr_free (dt_catalogue this')) < 2 ^ 64 /\
    (forall k, visible (tree_shows [] P1' k) = visible (tree_shows P0 P1 k)) /\ gives_up (dt_tables this) (dt_tables this') (P0 ++ P1).
Proof.
  intros Htree Hroom [Hfree [Hv0 Hv]] Hlev. rewrite (level0_full this P0 P1 l0 l1 Htree Hlev). pose proof (nr_free_slots (dt_catalogue this)).
  destruct Hroom as [->|(fg & a & b & -> & Heq & Hnf & Hready)].
  { exists this, P1. split; [done|]. split; [done|]. split; [done|]. split; [done|]. split; [lia|]. split; [done|]. by exists []. }
  rewrite Hlev in Heq. injection Heq as <- <-. pose proof Htree as [(x & y & Heq & Hok & Hz & Hc & Hm)]. rewrite Hlev in Heq. injection Heq as <- <-.
  destruct (compaction_job_run_done uninit _ fg [] P1 Hok Hready) as (job' & P1' & Hrun & [Hok' Hvis _ Htab [Hl0 Hl1] [Hnr Hnf'] Hmax]).
  cbn [lsm_tree_major_compaction]. rewrite Hlev. cbn [lookup list_lookup]. rewrite Hnf, Hlev. cbn [lookup list_lookup]. rewrite Hrun.
  assert (after_job this 0 1 job' = {| dt_file := cj_file job'; dt_catalogue := cj_catalogue job';
    dt_levels := [cj_level1 job'; cj_level2 job']; dt_tables := cj_tables job' |}) as -> by (unfold after_job; by rewrite Hlev).
  eexists _, P1'. split; [reflexivity|]. cbn [dt_catalogue dt_tables compaction_job_init cj_catalogue cj_tables] in *.
  pose proof (nr_free_slots (cj_catalogue job')).
  split; [|split; [by apply Hnf'|split; [|split; [lia|split; [|done]]]]].
  - split. exists (cj_level1 job'), (cj_level2 job'). split; [done|]. split; [by destruct job'|]. rewrite Hl0. by cbn.
  - lia.
  - intros k. rewrite !tree_shows_layer. apply Hvis.
Qed.

(** The new file in level 0. *)
Lemma minor_output uninit this l0 l1 P1 (m : memtable) : tree_ok this [] P1 -> dt_levels this = [l0; l1] -> memtable_wf m ->
  0 < mt_size m <= DEFAULT_LSM_FILE_CAPACITY -> Forall entry_ok (memtable_entries (rb_inorder (mt_root m))) ->
  (0 < nr_free (dt_catalogue this))%nat -> 0 <= bc_max_version (dt_catalogue this) ->
  bc_max_version (dt_catalogue this) + Z.of_nat (nr_free (dt_catalogue this)) < 2 ^ 64 ->
  let job0 := compaction_job_init this l0 l0 in
  exists out b job f g, open_builder job0 uninit = Some out /\ add_memtable (rbtree_memtable_get_all_entry m) (mo_builder out) = Some b /\
    finish_output {| mo_job := mo_job out; mo_fd := mo_fd out; mo_builder := b |} = Some job /\
    file_entries (f, g) = memtable_entries (rb_inorder (mt_root m)) /\ job_inv job0 job [(f, g)] (bf_id <$> [(f, g)].*1) /\
    cj_tables job = dt_tables this.
Proof.
  intros [(x & y & Heq & Hok & Hz & Hc & Hm)] Hlev Hwf Hsize Hrec Hfree Hv0 Hv job0. rewrite Hlev in Heq. injection Heq as <- <-.
  set (es := memtable_entries (rb_inorder (mt_root m))) in *.
  pose proof Hok as [[Hl0 _ _] _ _ _ _ _ _ _ Hcwf Hreg]. cbn [compaction_job_init cj_level1 cj_catalogue] in *.
  assert (job_inv job0 job0 [] []) as Hstart.
  { apply start_inv; [done|apply level_at_id; unfold job0; cbn; by rewrite Hl0..|unfold job0; cbn; rewrite Hl0; constructor]. }
  destruct (open_builder_ok job0 Hreg job0 [] uninit [] Hstart) as (out & Hopen & Hout); [done|done|done|done|constructor|done|].
  pose proof Hout as [Hjob Hb _ _ Htab]. pose proof (ids_in_range _ _ _ _ Hjob) as Hr. apply Forall_app in Hr as [_ Hr]. apply Forall_cons in Hr as [Hr _].
  destruct (slot_begin_value _ _ Hreg Hr) as (_ & Hb0 & Hb1). pose proof (memtable_entries_length (rb_inorder (mt_root m))) as Hlen. fold es in Hlen.
  pose proof (wf_size _ Hwf) as Hw.
  destruct (building_entries _ mac_length _ _ _ _ _ _ es _ _ Hb Hb0 Hb1 Hrec) as (b & Hadd & Hb'); [cbn [app]; lia|]. cbn [app] in Hb'.
  pose proof (add_memtable_entries (rb_inorder (mt_root m)) (mo_builder out)) as Hmem. fold es in Hmem. rewrite Hadd in Hmem.
  set (acts := (fun e : entry => (Some e, @None entry)) <$> es).
  assert (added acts = es /\ given_up acts = []) as [Hacts Hgiven].
  { unfold acts, added, given_up. clear. induction es as [|e es IH]; [done|]. cbn. destruct IH as [IH1 IH2]. by rewrite IH1, IH2. }
  destruct (finish_ok job0 Hreg {| mo_job := mo_job out; mo_fd := mo_fd out; mo_builder := b |} acts [] es) as (job & f & g & Hfin & Hent & Hinv & Htabs).
  - split; [exact Hjob|exact Hb'|by rewrite Hacts|by apply Forall_nil|rewrite Hgiven; exact Htab].
  - intros Hnil. rewrite Hnil in Hlen. cbn in Hlen. lia.
  - lia.
  - apply memtable_entries_sorted, Hwf.
  - done.
  - unfold level2_room, bl_size, job0. cbn. rewrite Hl0. cbn. assert (DEFAULT_LSM_LEVEL0_NR_FILE = 1) by reflexivity. lia.
  - exists out, b, job, f, g. split; [done|]. split; [done|]. split; [done|]. split; [done|]. split; [done|]. rewrite Htabs. exact Htab.
Qed.


Lemma level_find_single g k : level_find [g] k = leaf_find k (leaves_entries (concat g)).
Proof. unfold level_find, level_entries. cbn. by rewrite app_nil_r. Qed.

(** Level 0 takes the new file. *)
Lemma minor_tree this l0 l1 P1 job f g : tree_ok this [] P1 -> dt_levels this = [l0; l1] ->
  Forall entry_ok (file_entries (f, g)) -> 0 <= bc_max_version (dt_catalogue this) ->
  job_inv (compaction_job_init this l0 l0) job [(f, g)] (bf_id <$> [(f, g)].*1) ->
  tree_ok (after_job this 0 0 job) (seen (cj_file job) [(f, g)]) (seen (cj_file job) P1).
Proof.
  intros [(x & y & Heq & Hok & Hz & Hc & Hm)] Hlev Hent Hv0 Hinv. rewrite Hlev in Heq. injection Heq as <- <-.
  pose proof Hok as [Hlev0 Hlev1 Hbelow Hslots Hents Hids Hvers Hmax Hwf Hreg].
  cbn [app compaction_job_init cj_file cj_level1 cj_level2 cj_catalogue] in *.
  set (job0 := compaction_job_init this l0 l0) in *.
  pose proof Hinv as [[Hcwf Hnr Hused _ _ _] _ (files & Hl2 & Hsort & Hperm) _ _ Hv Hvs].
  assert (files = [at_file (cj_file job) f]) as ->.
  { cbn [compaction_job_init job0 cj_level2] in Hperm. unfold job0 in Hperm. cbn in Hperm. rewrite (lh_files _ _ _ Hlev0) in Hperm. cbn in Hperm.
    symmetry in Hperm. by apply Permutation_singleton_l in Hperm. }
  assert (slots_after job0 job [(f, g)] []) as Hafter.
  { split; [done|]. intros i Hi. rewrite Hused by done. split; [by split; [|intros ?%elem_of_nil]|tauto]. }
  assert (Forall (in_slot (cj_catalogue job) (cj_file job)) ([(f, g)] ++ P1)) as Hslots'.
  { apply Forall_app. split; [by eapply output_in_slot|]. eapply Forall_impl; [exact Hslots|]. intros h Hh.
    eapply (kept_in_slot job0 job job); [exact Hreg|exact Hinv|exact Hafter|done|exact Hh|by intros ?%elem_of_nil]. }
  destruct (versions_new job0 job [(f, g)] P1 Hinv Hmax Hv0 Hvers) as [Hvnew Hmaxnew].
  assert (seen (cj_file job) [(f, g)] ++ seen (cj_file job) P1 = seen (cj_file job) ([(f, g)] ++ P1)) as Hseen by done.
  assert (dt_levels (after_job this 0 0 job) = [cj_level2 job; level_at (cj_file job) l1]) as Hlevels by (unfold after_job; cbn [dt_levels]; by rewrite Hlev).
  split. exists (cj_level2 job), (level_at (cj_file job) l1). split; [exact Hlevels|]. rewrite Hl2. split; [|by cbn].
  split; cbn [after_job compaction_job_init cj_file cj_level1 cj_level2 cj_catalogue dt_file dt_catalogue].
  - apply Forall_app in Hslots' as [Hs _]. apply Forall_cons in Hs as [(_ & _ & [Hw _ _ _]) _]. cbn [fst snd] in Hw.
    destruct (file_ends _ _ Hw) as (_ & _ & Hle & _). apply Forall_app in Hmaxnew as [Hmn _]. apply Forall_cons in Hmn as [Hmn _].
    split; cbn [bl_files with_files]; [done|done|]. split; cbn [bl_files with_files seen fmap list_fmap fst snd bl_level job0 compaction_job_init cj_level2].
    + constructor; [exact Hw|constructor].
    + split; [repeat constructor|constructor; [exact Hle|constructor]].
    + constructor; [cbn in Hmn |- *; lia|constructor].
    + cbn. lia.
  - apply (level_holds_seen (dt_file this)); [exact Hlev1|]. apply Forall_app in Hslots' as [_ Hs]. eapply Forall_impl; [exact Hs|].
    by intros h (_ & _ & [Hw _ _ _]).
  - exact Hbelow.
  - rewrite Hseen. by apply Forall_seen.
  - rewrite Hseen. apply (Forall_seen (fun fg => Forall entry_ok (file_entries fg))); [done|]. by constructor.
  - rewrite Hseen, seen_attr by done. by apply (ids_new job0 job).
  - by rewrite Hseen, seen_attr.
  - rewrite Hseen. by apply (Forall_seen (fun fg => 0 <= bf_version fg.1 < bc_max_version (cj_catalogue job))).
  - exact Hcwf.
  - unfold region_ok. rewrite Hnr. exact Hreg.
Qed.

(** What the memtable, when it is compacted, makes of the tree. *)
Record minor_done this (m : memtable) (P0 P1 : list grouped_file) this' (P0' P1' : list grouped_file) : Prop := {
  md_ok : tree_ok this' P0' P1';
  md_visible : forall k, visible (tree_shows P0' P1' k) = visible (layer (mem_find m) (tree_shows P0 P1) k);
  md_compacted : forall k r, mem_find m k = Some r -> tree_shows P0' P1' k = Some r;
  md_tables : gives_up (dt_tables this) (dt_tables this') (P0 ++ P1)
}.

Definition memtable_ready (m : memtable) : Prop :=
  memtable_wf m /\ 0 < mt_size m <= DEFAULT_LSM_FILE_CAPACITY /\ Forall entry_ok (memtable_entries (rb_inorder (mt_root m))).

Lemma minor_compaction_done uninit this m P0 P1 : tree_ok this P0 P1 -> can_make_room this P0 P1 -> tree_room this -> memtable_ready m ->
  exists this' P0' P1', lsm_tree_minor_compaction uninit this m = Some this' /\ minor_done this m P0 P1 this' P0' P1'.
Proof.
  intros Htree Hroom Hfree (Hwf & Hsize & Hrec). pose proof Htree as [(l0 & l1 & Hlev & _)].
  destruct (make_room uninit this P0 P1 l0 l1 Htree Hroom Hfree Hlev) as (this1 & P1' & Hmajor & Htree1 & Hfree1 & Hv0 & Hv1 & Hvis & Htab).
  unfold lsm_tree_minor_compaction. rewrite Hlev. cbn [lookup list_lookup length]. rewrite Hmajor.
  pose proof Htree1 as [(l0' & l1' & Hlev1 & _)]. rewrite Hlev1. cbn [lookup list_lookup].
  destruct (minor_output uninit this1 l0' l1' P1' m Htree1 Hlev1 Hwf Hsize Hrec Hfree1 Hv0 Hv1)
    as (out & b & job & f & g & -> & -> & -> & Hent & Hinv & Htabs).
  eexists _, _, _. split; [reflexivity|].
  assert (forall k, level_find [g] k = mem_find m k) as Hfind.
  { intros k. rewrite level_find_single. change (leaves_entries (concat g)) with (file_entries (f, g)). rewrite Hent. apply memtable_entries_find, Hwf. }
  assert (forall k, tree_shows (seen (cj_file job) [(f, g)]) (seen (cj_file job) P1') k = layer (mem_find m) (tree_shows [] P1') k) as Hshows.
  { intros k. rewrite tree_shows_layer, !seen_values. unfold layer. rewrite (tree_shows_layer [] P1'). cbn [fmap list_fmap snd]. rewrite Hfind. done. }
  split.
  - eapply minor_tree; [exact Htree1|exact Hlev1|by rewrite Hent|exact Hv0|exact Hinv].
  - intros k. rewrite Hshows. unfold layer. destruct (mem_find m k); [done|]. apply Hvis.
  - intros k r Hr. rewrite Hshows. unfold layer. by rewrite Hr.
  - cbn [after_job dt_tables]. rewrite Htabs. exact Htab.
Qed.

End correct.
End compaction.

(** ** A concrete compaction *)

Abbreviation example_mac := (replicate 16 0).
Definition example_cache : cache (V := bit_leaf) := empty_lru.
Definition example_key (version : Z) : list Z := [version].
Definition example_buffer (version pos : Z) : Z := 77.

(** A builder run on the slot [id] of a catalogue that starts at 0. *)
Definition example_output (file : kfile) (id level version : Z) (es : list (Z * record)) : option (kfile * bit_file (H := file_nodes)) :=
  match bit_builder_init file (slot_begin 0 id) id level version (example_key version) (example_buffer version) with
  | Some b => match add_entries example_mac b es with Some b => bit_builder_complete example_mac example_cache b | None => None end
  | None => None
  end.

Definition example_old : list (Z * record) := [(3, example_record 5); (8, example_record 6)].
Definition example_new : list (Z * record) := [(5, example_record 1); (8, example_record 7)].

(** Four slots, of which the first two are in use. *)
Definition example_slots : bit_catalogue :=
  {| bc_max_version := 3;
     bc_validity := {| sv_nr_segment := 4; sv_cur_segment := 0; sv_table := {| bs_nr_bit := 4; bs_array := [3] |} |};
     bc_file_stats := replicate 4 zero_stat |}.

Definition example_job (file : kfile) (f1 f2 : bit_file (H := file_nodes)) : compaction_job :=
  {| cj_file := file; cj_catalogue := example_slots;
     cj_level1 := with_files (bit_level_init 0 DEFAULT_LSM_LEVEL0_NR_FILE) [f1];
     cj_level2 := with_files (bit_level_init 1 10) [at_file file f2]; cj_tables := example_tables |}.

Lemma example_output_ok file id level version es : 0 <= id < 4 -> es <> [] -> (length es <= 3)%nat -> keys_le es -> Forall entry_ok es ->
  exists file' f, example_output file id level version es = Some (file', f) /\
    file_of file' (example_key version) id level version (slot_begin 0 id) es f /\ same_outside (slot_begin 0 id) file file'.
Proof.
  intros Hid Hne Hlen Hs Hok. assert (slot_begin 0 id = id * lsm_file_size) as Hb.
  { unfold slot_begin. rewrite lsm_file_size_value in *. rewrite u64_small; lia. }
  destruct (build_file example_mac example_cache eq_refl (fun k => eq_refl) file (slot_begin 0 id) id level version (example_key version)
    (example_buffer version) es) as (b & b' & file' & f & Hi & Ha & Hc & Hf & Hout); try done.
  - rewrite Hb, lsm_file_size_value. lia.
  - rewrite Hb, lsm_file_size_value. lia.
  - assert (DEFAULT_LSM_FILE_CAPACITY = 131072) by reflexivity. lia.
  - apply sum_api_encrypts.
  - exists file', f. unfold example_output. by rewrite Hi, Ha, Hc.
Qed.

Lemma example_slots_wf : bc_wf example_slots.
Proof.
  split; cbn; [|by repeat constructor|done].
  split; cbn; [split; cbn; [|lia|done]|done|lia]. repeat constructor; lia.
Qed.

Lemma example_nr_outputs fg h : file_entries fg = example_new -> file_entries h = example_old -> nr_outputs [fg; h] = 1%nat.
Proof.
  intros Hf Hh. unfold nr_outputs, nr_records, to_come. cbn [fmap list_fmap concat]. rewrite Hf, Hh. cbn [length app example_new example_old].
  rewrite Nat.div_small; [done|]. assert (DEFAULT_LSM_FILE_CAPACITY = 131072) as -> by reflexivity. lia.
Qed.

(** The two files in their slots. *)
Lemma example_files : exists file f1 g1 f2 g2,
  (example_output [] 1 1 1 example_old = Some (f2.1, f2.2) /\ example_output f2.1 0 0 2 example_new = Some (file, f1)) /\
  (bf_file f1 = (file, [2]) /\ bf_id f1 = 0 /\ bf_version f1 = 2 /\ leaves_entries (concat g1) = example_new /\ file_in_slot f1 g1 (slot_begin 0 0)) /\
  (bf_id f2.2 = 1 /\ bf_version f2.2 = 1 /\ leaves_entries (concat g2) = example_old /\ file_in_slot (at_file file f2.2) g2 (slot_begin 0 1)).
Proof.
  assert (Forall entry_ok example_old /\ Forall entry_ok example_new) as [Ho Hn] by (split; repeat constructor; cbn; lia).
  destruct (example_output_ok [] 1 1 1 example_old) as (file1 & f2 & Hb2 & (Hf2 & Hid2 & _ & Hv2 & g2 & He2 & Hs2) & _);
    [lia|done|cbn; lia|repeat constructor; cbn; lia|done|].
  destruct (example_output_ok file1 0 0 2 example_new) as (file & f1 & Hb1 & (Hf1 & Hid1 & _ & Hv1 & g1 & He1 & Hs1) & Hout);
    [lia|done|cbn; lia|repeat constructor; cbn; lia|done|].
  exists file, f1, g1, (file1, f2), g2. split; [done|]. split; [done|]. split; [done|]. split; [done|]. split; [done|].
  change (at_file file (file1, f2).2) with (with_store f2 (file, file_key f2)).
  assert (file_key f2 = example_key 1) as -> by (unfold file_key; by rewrite Hf2).
  apply (slot_moves f2 g2 _ file1 file (example_key 1) Hs2 Hf2). intros q Hq. apply Hout. right. unfold slot_begin in *. rewrite lsm_file_size_value in *.
  rewrite u64_small in Hq |- * by lia. lia.
Qed.

Section example.
Context (file : kfile) (f1 f2 : bit_file (H := file_nodes)) (g1 g2 : list (list bit_leaf)).
Context (Hf1 : bf_file f1 = (file, [2]) /\ bf_id f1 = 0 /\ bf_version f1 = 2 /\ leaves_entries (concat g1) = example_new /\
  file_in_slot f1 g1 (slot_begin 0 0)).
Context (Hf2 : bf_id f2 = 1 /\ bf_version f2 = 1 /\ leaves_entries (concat g2) = example_old /\
  file_in_slot (at_file file f2) g2 (slot_begin 0 1)).

Abbreviation new_file := (f1, g1).
Abbreviation old_file := (at_file file f2, g2).

Lemma example_ends : bf_first_key f1 = 5 /\ bf_last_key f1 = 8 /\ bf_first_key f2 = 3 /\ bf_last_key f2 = 8.
Proof.
  destruct Hf1 as (_ & _ & _ & He1 & [[_ _ _ _ Hh1 Hl1 _] _ _ _]). destruct Hf2 as (_ & _ & He2 & [[_ _ _ _ Hh2 Hl2 _] _ _ _]).
  rewrite He1 in Hh1, Hl1. rewrite He2 in Hh2, Hl2. cbn in *. repeat split; congruence.
Qed.

Lemma example_job_ok : job_ok 0 (example_job file f1 f2) [new_file] [old_file].
Proof.
  pose proof example_ends as (Hfk1 & Hlk1 & Hfk2 & Hlk2). destruct Hf1 as (Hk1 & Hi1 & Hv1 & He1 & Hs1). destruct Hf2 as (Hi2 & Hv2 & He2 & Hs2).
  pose proof (at_file_id file f1 _ Hk1) as Hat. pose proof (sl_wf _ _ _ Hs1) as Hw1. pose proof (sl_wf _ _ _ Hs2) as Hw2.
  split; cbn [example_job cj_file cj_level1 cj_level2 cj_catalogue app].
  - split; cbn; [done|by rewrite Hat|]. split; cbn; [by constructor| |constructor; [lia|constructor]|lia].
    split; [repeat constructor|constructor; [lia|constructor]].
  - split; cbn; [done|done|]. split; cbn; [by constructor| |constructor; [cbn; lia|constructor]|lia].
    split; [repeat constructor|constructor; [cbn; lia|constructor]].
  - done.
  - constructor; [|constructor; [|constructor]].
    + split; [unfold used; cbn; by rewrite Hi1|]. cbn [fst snd]. rewrite Hi1, Hat. split; [vm_compute; split; congruence|done].
    + split; [unfold used; cbn; by rewrite Hi2|]. cbn [fst snd]. change (bf_id (at_file file f2)) with (bf_id f2). rewrite Hi2. split; [vm_compute; split; congruence|done].
  - unfold file_entries. constructor; [|constructor; [|constructor]]; cbn [snd]; rewrite ?He1, ?He2; repeat constructor; cbn; lia.
  - cbn. rewrite Hi1, Hi2. exact (bool_decide_unpack (NoDup [0; 1]) I).
  - cbn. rewrite Hv1, Hv2. exact (bool_decide_unpack (NoDup [2; 1]) I).
  - cbn. constructor; [cbn; lia|]. constructor; [cbn; lia|constructor].
  - exact example_slots_wf.
  - unfold region_ok. rewrite lsm_file_size_value. vm_compute. reflexivity.
Qed.

Lemma example_job_ready : job_ready (example_job file f1 f2) new_file [old_file].
Proof.
  destruct Hf1 as (Hk1 & Hi1 & Hv1 & He1 & Hs1). destruct Hf2 as (Hi2 & Hv2 & He2 & Hs2).
  split; [vm_compute; reflexivity|vm_compute; reflexivity|]. intros B Rl A Heq _ Hne.
  assert (Rl = [old_file]) as ->.
  { destruct B as [|b B]; cbn in Heq; [|injection Heq as <- Heq; destruct B, Rl; done].
    destruct Rl as [|h Rl]; [done|]. injection Heq as <- Heq. by destruct Rl. }
  assert (file_entries new_file = example_new) as Hn by exact He1. assert (file_entries old_file = example_old) as Ho by exact He2.
  split.
  - constructor; [cbn; lia|constructor].
  - intros l1 k r l2 r' l3 Hl. rewrite Hn in Hl. exfalso. pose proof (bool_decide_unpack (NoDup example_new.*1) I) as Hnd. rewrite Hl in Hnd.
    rewrite fmap_app in Hnd. cbn [fmap list_fmap fst] in Hnd. apply NoDup_app in Hnd as (_ & _ & Hnd). apply NoDup_cons in Hnd as [Hnd _].
    apply Hnd. rewrite fmap_app. apply elem_of_app. right. by left.
  - constructor; [rewrite Ho; repeat constructor; cbn; lia|constructor].
  - exists 8, (example_record 7). split; [|split; [done|]].
    + exists f1, g1. split; [by left|]. split; [by rewrite Hn|]. intros f' g' [[= -> ->]|[[= -> ->]|?%elem_of_nil]%elem_of_cons]%elem_of_cons _; [lia| |done].
      cbn. lia.
    + constructor; [|constructor; [|constructor]]; rewrite ?Hn, ?Ho; repeat constructor; cbn; lia.
  - rewrite (example_nr_outputs new_file old_file Hn Ho). vm_compute. lia.
  - unfold level2_room. rewrite (example_nr_outputs new_file old_file Hn Ho). vm_compute. congruence.
Qed.
End example.


Definition example_disk_tree (file : kfile) (f1 f2 : bit_file (H := file_nodes)) : disk_tree :=
  {| dt_file := file; dt_catalogue := example_slots;
     dt_levels := [cj_level1 (example_job file f1 f2); cj_level2 (example_job file f1 f2)]; dt_tables := example_tables |}.

Lemma example_table_ready : memtable_ready example_table.
Proof.
  split; [exact example_table_wf|]. split; [vm_compute; split; congruence|].
  change (memtable_entries _) with [(5, example_record 70); (5, negative); (9, example_record 71)].
  constructor; [|constructor; [|constructor; [|constructor]]]; (split; [cbn; lia|]); repeat split; try lia; vm_compute; congruence.
Qed.

