(* ===== verification/SegmentBuffer.v ===== *)
(** * SegmentBuffer: the write buffer

    [kernel-module/c/src/segment_buffer.c]: a pool of four buffers, each a
    red-black tree of the blocks written last. Blocks are pushed into the
    current buffer; a buffer with a segment's worth of blocks is queued to be
    flushed, and the next buffer of the ring becomes current. The flush itself
    is in [Jindisk.v]. *)
From S2P Require Import Prelude Layout RbTree.

Definition POOL_SIZE : Z := 4.

(** ** One buffer *)

Record segment_block : Type := SegmentBlock { sb_lba : Z; sb_plain_block : list Z }.

(** [cipher_segment] is only written and read within one flush. *)
Record data_segment : Type := DataSegment {
  ds_size : Z;
  ds_cur_segment : Z;
  ds_seg_key : list Z;
  ds_root : rbtree segment_block
}.

(** The buffers not used yet are zeroed memory. *)
Definition data_segment_zero : data_segment :=
  {| ds_size := 0; ds_cur_segment := 0; ds_seg_key := []; ds_root := rb_nil |}.

Definition data_block_zero : list Z := replicate (Z.to_nat DATA_BLOCK_SIZE) 0.

Definition segment_block_new (lba : Z) : segment_block :=
  {| sb_lba := u32 lba; sb_plain_block := data_block_zero |}.

Definition segment_block_cmp_key (key : Z) (blk : segment_block) : Z := i32 (u32 key - sb_lba blk).
Definition segment_block_cmp_node (node parent : segment_block) : Z := i32 (sb_lba node - sb_lba parent).

Section segment_buffer.
Context `{RbTreeSpec}.
Implicit Types (ds : data_segment).

Definition data_segment_get ds (lba : Z) : option segment_block :=
  rb_find (segment_block_cmp_key lba) (ds_root ds).

Definition same_block (blk b : segment_block) : bool := sb_lba b =? sb_lba blk.

Definition data_segment_remove ds (blk : segment_block) : data_segment :=
  {| ds_size := ds_size ds - 1; ds_cur_segment := ds_cur_segment ds; ds_seg_key := ds_seg_key ds;
     ds_root := rb_erase (same_block blk) (ds_root ds) |}.

(** When a block of the same address is there already, that block is unlinked
    and the new one is left out of the tree. *)
Definition data_segment_add ds (blk : segment_block) : data_segment :=
  let '(root, old) := rb_find_add segment_block_cmp_node blk (ds_root ds) in
  match old with
  | Some old_blk =>
      {| ds_size := ds_size ds; ds_cur_segment := ds_cur_segment ds; ds_seg_key := ds_seg_key ds;
         ds_root := rb_erase (same_block old_blk) root |}
  | None =>
      {| ds_size := ds_size ds + 1; ds_cur_segment := ds_cur_segment ds; ds_seg_key := ds_seg_key ds; ds_root := root |}
  end.

(** [memcpy(blk->plain_block, buffer, DATA_BLOCK_SIZE)]. *)
Definition data_segment_write ds (blk : segment_block) (buffer : list Z) : data_segment :=
  {| ds_size := ds_size ds; ds_cur_segment := ds_cur_segment ds; ds_seg_key := ds_seg_key ds;
     ds_root := rb_update (same_block blk) (fun b => {| sb_lba := sb_lba b; sb_plain_block := buffer |}) (ds_root ds) |}.

(** [seg_key] is what [get_random_bytes] writes. *)
Definition data_segment_init ds (seg_key : list Z) : data_segment :=
  {| ds_size := 0; ds_cur_segment := ds_cur_segment ds; ds_seg_key := seg_key; ds_root := rb_nil |}.

(** [while (!RB_EMPTY_ROOT(&ds->root))]; [None] when out of fuel. *)
Fixpoint data_segment_destroy_loop (fuel : nat) (root : rbtree segment_block) : option (rbtree segment_block) :=
  match fuel with
  | O => None
  | S fuel =>
      if RB_EMPTY_ROOT root then Some root
      else
        match rb_first root with
        | None => None
        | Some blk => data_segment_destroy_loop fuel (rb_erase (same_block blk) root)
        end
  end.

Definition data_segment_destroy ds : option data_segment :=
  match data_segment_destroy_loop (S (length (rb_inorder (ds_root ds)))) (ds_root ds) with
  | None => None
  | Some root =>
      Some {| ds_size := ds_size ds; ds_cur_segment := ds_cur_segment ds; ds_seg_key := ds_seg_key ds; ds_root := root |}
  end.

(** ** The pool *)

(** [sb_works]: the indices queued on [bufferio_wq], oldest first. *)
Record segment_buffer : Type := SegmentBuffer {
  sb_cur_buffer : Z;
  sb_buffer : list data_segment;
  sb_works : list Z
}.

Implicit Types (this : segment_buffer).

Definition buffer_at this (i : Z) : data_segment := default data_segment_zero (sb_buffer this !! Z.to_nat i).

Definition set_buffer this (i : Z) ds : segment_buffer :=
  {| sb_cur_buffer := sb_cur_buffer this; sb_buffer := <[Z.to_nat i := ds]> (sb_buffer this); sb_works := sb_works this |}.

(** [for (i = 0; i < POOL_SIZE; i++) index = (cur + POOL_SIZE - i) % POOL_SIZE];
    [n] iterations are left. *)
Fixpoint pool_search (n : nat) this (lba i : Z) : option segment_block :=
  match n with
  | O => None
  | S n =>
      let index := (sb_cur_buffer this + POOL_SIZE - i) mod POOL_SIZE in
      match data_segment_get (buffer_at this index) lba with
      | Some blk => Some blk
      | None => pool_search n this lba (i + 1)
      end
  end.

Definition segbuf_query_block this (lba : Z) : result (list Z) :=
  match pool_search (Z.to_nat POOL_SIZE) this lba 0 with
  | Some blk => Ok (sb_plain_block blk)
  | None => Err ENODATA
  end.

(** The current buffer has a whole segment: it is queued and the next one is
    emptied. *)
Definition segbuf_turn (seg_key : list Z) this : option segment_buffer :=
  let cur := sb_cur_buffer this in
  if BLOCKS_PER_SEGMENT <=? ds_size (buffer_at this cur) then
    let next := (cur + 1) mod POOL_SIZE in
    let this := {| sb_cur_buffer := next; sb_buffer := sb_buffer this; sb_works := sb_works this ++ [cur] |} in
    match (if 0 <? ds_size (buffer_at this next) then data_segment_destroy (buffer_at this next)
           else Some (buffer_at this next)) with
    | None => None
    | Some ds => Some (set_buffer this next (data_segment_init ds seg_key))
    end
  else Some this.

(** [rflag] is false for blocks the collector moves: newer data wins. *)
Definition segbuf_push_block (seg_key : list Z) this (lba : Z) (buffer : list Z) (rflag : bool) : option segment_buffer :=
  let cur := sb_cur_buffer this in
  let blk := if rflag then data_segment_get (buffer_at this cur) lba
             else pool_search (Z.to_nat POOL_SIZE) this lba 0 in
  match rflag, blk with
  | false, Some _ => Some this
  | _, _ =>
      let ds := buffer_at this cur in
      let '(ds, blk) := match blk with
                        | Some blk => (ds, blk)
                        | None => (data_segment_add ds (segment_block_new lba), segment_block_new lba)
                        end in
      segbuf_turn seg_key (set_buffer this cur (data_segment_write ds blk buffer))
  end.

(** A request is pushed block by block; a last part smaller than a block is
    pushed whole ([data_in] is the page). [keys] are the random keys drawn. *)
Fixpoint segbuf_push_bio (keys : list (list Z)) this (lba : Z) (blocks : list (list Z)) : option segment_buffer :=
  match blocks, keys with
  | [], _ => Some this
  | data_in :: blocks, k :: keys =>
      match segbuf_push_block k this lba data_in true with
      | None => None
      | Some this => segbuf_push_bio keys this (lba + 1) blocks
      end
  | _, [] => None
  end.

Definition segbuf_init (seg_key : list Z) : segment_buffer :=
  {| sb_cur_buffer := 0;
     sb_buffer := data_segment_init data_segment_zero seg_key :: replicate (Z.to_nat POOL_SIZE - 1) data_segment_zero;
     sb_works := [] |}.

(** ** One buffer as a finite map *)

Definition ds_map ds : gmap Z (list Z) := kmap sb_lba sb_plain_block (rb_inorder (ds_root ds)).

Record ds_wf ds : Prop := {
  dw_sorted : keys_sorted sb_lba (rb_inorder (ds_root ds));
  dw_keys : Forall (fun b => 0 <= sb_lba b < 2 ^ 31) (rb_inorder (ds_root ds));
  dw_size : ds_size ds = Z.of_nat (length (rb_inorder (ds_root ds)))
}.

Lemma cmp_key_exact k b : 0 <= k < 2 ^ 31 -> 0 <= sb_lba b < 2 ^ 31 -> segment_block_cmp_key k b = k - sb_lba b.
Proof. intros Hk Hb. unfold segment_block_cmp_key. rewrite (u32_small k) by lia. apply i32_small. lia. Qed.

Lemma cmp_node_exact x y : 0 <= sb_lba x < 2 ^ 31 -> 0 <= sb_lba y < 2 ^ 31 ->
  segment_block_cmp_node x y = sb_lba x - sb_lba y.
Proof. intros Hx Hy. apply i32_small. lia. Qed.

(** A comparison that is exact on the keys of a split has the signs the tree
    operations ask for. *)
Lemma cmp_signs (cmp : segment_block -> Z) k (l1 l2 : list segment_block) :
  (forall b, 0 <= sb_lba b < 2 ^ 31 -> cmp b = k - sb_lba b) ->
  Forall (fun b => 0 <= sb_lba b < 2 ^ 31) (l1 ++ l2) ->
  Forall (fun b => sb_lba b < k) l1 -> Forall (fun b => k < sb_lba b) l2 ->
  Forall (fun b => 0 < cmp b) l1 /\ Forall (fun b => cmp b < 0) l2.
Proof.
  intros Hcmp [Hr1 Hr2]%Forall_app H1' H2'. rewrite !Forall_forall in *.
  split; intros b Hb; rewrite Hcmp by auto; [specialize (H1' b Hb)|specialize (H2' b Hb)]; lia.
Qed.

Lemma data_segment_get_spec ds k : ds_wf ds -> 0 <= k < 2 ^ 31 ->
  match data_segment_get ds k with
  | Some b => sb_lba b = k /\ ds_map ds !! k = Some (sb_plain_block b)
  | None => ds_map ds !! k = None
  end.
Proof.
  intros [Hs Hr _] Hk. unfold data_segment_get, ds_map.
  destruct (keys_split sb_lba k _ Hs) as [(l1 & b & l2 & Hin & Hb & H1' & H2')|(l1 & l2 & Hin & H1' & H2')]; rewrite Hin in *.
  - pose proof Hr as [Hr1 [Hrb Hr2]%Forall_cons]%Forall_app.
    destruct (cmp_signs (segment_block_cmp_key k) k l1 l2) as [Hc1 Hc2];
      [intros; by apply cmp_key_exact|by apply Forall_app|done|done|].
    rewrite (rb_find_some _ _ l1 b l2) by (done || (rewrite cmp_key_exact by done; lia)).
    split; [done|]. rewrite <- Hb. apply kmap_middle_lookup. by rewrite Hb.
  - destruct (cmp_signs (segment_block_cmp_key k) k l1 l2) as [Hc1 Hc2]; [intros; by apply cmp_key_exact|done..|].
    rewrite (rb_find_none _ _ l1 l2) by done. by apply kmap_app_none.
Qed.

(** What a push does to the current buffer. *)
Definition ds_put ds (lba : Z) (buffer : list Z) : data_segment :=
  match data_segment_get ds lba with
  | Some blk => data_segment_write ds blk buffer
  | None => data_segment_write (data_segment_add ds (segment_block_new lba)) (segment_block_new lba) buffer
  end.

Lemma data_segment_write_spec ds b data l1 b0 l2 : ds_wf ds -> rb_inorder (ds_root ds) = l1 ++ b0 :: l2 -> sb_lba b0 = sb_lba b ->
  ds_wf (data_segment_write ds b data) /\
  ds_map (data_segment_write ds b data) = <[sb_lba b := data]> (ds_map ds).
Proof.
  intros [Hs Hr Hz] Hin Hb. rewrite Hin in *.
  set (b1 := {| sb_lba := sb_lba b0; sb_plain_block := data |}).
  assert (rb_inorder (ds_root (data_segment_write ds b data)) = l1 ++ b1 :: l2) as Hin'.
  { cbn. unfold same_block. rewrite <- Hb. by apply (rb_update_middle sb_lba). }
  pose proof (keys_sorted_middle _ _ _ _ Hs) as [H1' H2']. apply Forall_app in Hr as [Hr1 [Hrb Hr2]%Forall_cons]. split.
  - split; rewrite Hin'; [| |by rewrite length_app in *].
    + apply keys_sorted_insert; [by eapply keys_sorted_remove|done|done].
    + apply Forall_app. split; [done|]. by constructor.
  - unfold ds_map. rewrite Hin', Hin, <- Hb. by apply (kmap_replace sb_lba sb_plain_block l1 b0 b1 l2).
Qed.

Lemma ds_put_spec ds lba data : ds_wf ds -> 0 <= lba < 2 ^ 31 ->
  let ds' := ds_put ds lba data in
  ds_wf ds' /\ ds_map ds' = <[lba := data]> (ds_map ds) /\
  ds_size ds' = ds_size ds + (if decide (is_Some (ds_map ds !! lba)) then 0 else 1).
Proof.
  intros Hwf Hl. pose proof Hwf as [Hs Hr Hz]. cbv zeta. unfold ds_put.
  pose proof (data_segment_get_spec ds lba Hwf Hl) as Hget.
  destruct (keys_split sb_lba lba _ Hs) as [(l1 & b & l2 & Hin & Hb & H1' & H2')|(l1 & l2 & Hin & H1' & H2')].
  - assert (ds_map ds !! lba = Some (sb_plain_block b)) as Hm.
    { unfold ds_map. rewrite Hin, <- Hb. apply kmap_middle_lookup. by rewrite Hb. }
    destruct (data_segment_get ds lba) as [b'|]; [|congruence]. destruct Hget as [Hb' Hm'].
    destruct (data_segment_write_spec ds b' data l1 b l2 Hwf Hin) as [Hw Hmap]; [congruence|].
    split; [done|]. split; [by rewrite Hmap, Hb'|]. rewrite decide_True by eauto. cbn. lia.
  - assert (ds_map ds !! lba = None) as Hm by (unfold ds_map; rewrite Hin; by apply kmap_app_none).
    destruct (data_segment_get ds lba) as [b'|]; [destruct Hget; congruence|].
    set (b := segment_block_new lba). assert (sb_lba b = lba) as Hb by (cbn; apply u32_small; lia).
    assert (Forall (fun x => 0 < segment_block_cmp_node b x) l1 /\ Forall (fun x => segment_block_cmp_node b x < 0) l2) as [Hc1 Hc2].
    { apply (cmp_signs _ lba); [|by rewrite <- Hin|done|done]. intros x Hx. by rewrite cmp_node_exact, Hb by (rewrite ?Hb; done). }
    destruct (rb_find_add_new segment_block_cmp_node b (ds_root ds) l1 l2 Hin Hc1 Hc2) as (root & Hadd & Hin').
    unfold data_segment_add. rewrite Hadd.
    set (ds1 := {| ds_size := ds_size ds + 1; ds_cur_segment := ds_cur_segment ds; ds_seg_key := ds_seg_key ds; ds_root := root |}).
    rewrite Hin in Hs, Hr, Hz. pose proof Hr as [Hr1 Hr2]%Forall_app.
    assert (ds_wf ds1) as Hwf1.
    { split; cbn; rewrite Hin'.
      - apply keys_sorted_insert; by rewrite ?Hb.
      - apply Forall_app. split; [done|]. constructor; [by rewrite Hb|done].
      - rewrite length_app in *. cbn. lia. }
    destruct (data_segment_write_spec ds1 b data l1 b l2 Hwf1 Hin' eq_refl) as [Hw Hmap].
    split; [done|]. split; [|rewrite Hm, decide_False by (by intros [? ?]); cbn; lia].
    rewrite Hmap, Hb. unfold ds_map. cbn [ds_root ds1]. rewrite Hin', Hin.
    rewrite (kmap_middle sb_lba sb_plain_block l1 b l2) by (apply keys_lt_ne; by rewrite Hb).
    by rewrite Hb, insert_insert_eq.
Qed.

Lemma data_segment_destroy_loop_spec l : forall root, rb_inorder root = l -> keys_sorted sb_lba l ->
  exists root', data_segment_destroy_loop (S (length l)) root = Some root' /\ rb_inorder root' = [].
Proof.
  induction l as [|b l IH]; intros root Hin Hs; cbn [length data_segment_destroy_loop]; unfold rb_first; rewrite Hin; cbn [head].
  - rewrite (proj2 (RB_EMPTY_ROOT_inorder root) Hin). by exists root.
  - destruct (RB_EMPTY_ROOT root) eqn:He; [apply RB_EMPTY_ROOT_inorder in He; congruence|].
    assert (rb_inorder (rb_erase (same_block b) root) = l) as Hin' by (apply (rb_erase_middle sb_lba root [] b l Hin Hs)).
    apply IH; [done|]. by apply keys_sorted_cons in Hs as [? _].
Qed.

Lemma data_segment_destroy_spec ds : ds_wf ds -> exists ds', data_segment_destroy ds = Some ds'.
Proof.
  intros [Hs _ _]. unfold data_segment_destroy.
  destruct (data_segment_destroy_loop_spec _ (ds_root ds) eq_refl Hs) as (root & -> & _). by eexists.
Qed.

Lemma ds_empty_wf ds k : ds_wf (data_segment_init ds k) /\ ds_map (data_segment_init ds k) = ∅.
Proof. split; [|done]. split; cbn; [constructor|constructor|done]. Qed.

(** ** The pool as a list of maps, the newest first *)

Definition age_index this (i : Z) : Z := (sb_cur_buffer this + POOL_SIZE - i) mod POOL_SIZE.

Definition pool_maps this : list (gmap Z (list Z)) :=
  (fun i => ds_map (buffer_at this (age_index this i))) <$> [0; 1; 2; 3].

Fixpoint maps_find (maps : list (gmap Z (list Z))) (k : Z) : option (list Z) :=
  match maps with
  | [] => None
  | m :: maps => match m !! k with Some d => Some d | None => maps_find maps k end
  end.

Definition found_block (o : option (list Z)) : result (list Z) :=
  match o with Some d => Ok d | None => Err ENODATA end.

Definition map_full (m : gmap Z (list Z)) : bool := Z.of_nat (size m) =? BLOCKS_PER_SEGMENT.

(** A push into the newest map; a full one ages and the oldest is dropped. *)
Definition maps_push (maps : list (gmap Z (list Z))) (lba : Z) (data : list Z) : list (gmap Z (list Z)) :=
  match maps with
  | [] => []
  | m :: ms =>
      let m := <[lba := data]> m in
      if map_full m then ∅ :: m :: removelast ms else m :: ms
  end.

(** No buffer holds more than a segment, and the current one has room. *)
Record pool_wf this : Prop := {
  pw_length : length (sb_buffer this) = Z.to_nat POOL_SIZE;
  pw_cur : 0 <= sb_cur_buffer this < POOL_SIZE;
  pw_buffers : Forall (fun ds => ds_wf ds /\ ds_size ds <= BLOCKS_PER_SEGMENT) (sb_buffer this);
  pw_room : ds_size (buffer_at this (sb_cur_buffer this)) < BLOCKS_PER_SEGMENT
}.

Lemma ds_size_map ds : ds_wf ds -> ds_size ds = Z.of_nat (size (ds_map ds)).
Proof.
  intros [Hs _ ->]. f_equal. unfold ds_map, kmap. rewrite map_size_list_to_map; [by rewrite length_fmap|].
  rewrite <- list_fmap_compose. change (NoDup (sb_lba <$> rb_inorder (ds_root ds))).
  unfold keys_sorted in Hs. revert Hs. generalize (sb_lba <$> rb_inorder (ds_root ds)). intros l Hs.
  induction Hs as [|k l _ IH Hk]; constructor; [|done]. intros Hin. rewrite Forall_forall in Hk. specialize (Hk k Hin). lia.
Qed.

Lemma pool_at this i : pool_wf this -> 0 <= i < POOL_SIZE ->
  ds_wf (buffer_at this i) /\ ds_size (buffer_at this i) <= BLOCKS_PER_SEGMENT.
Proof.
  intros [Hl _ Hb _] Hi. unfold buffer_at, POOL_SIZE in *.
  destruct (lookup_lt_is_Some_2 (sb_buffer this) (Z.to_nat i)) as [ds Hds]; [rewrite Hl; lia|].
  rewrite Hds. cbn. rewrite Forall_lookup in Hb. by eapply Hb.
Qed.

Lemma age_range this i : 0 <= age_index this i < POOL_SIZE.
Proof. by apply Z.mod_pos_bound. Qed.

Lemma pool_search_find this k : pool_wf this -> 0 <= k < 2 ^ 31 ->
  sb_plain_block <$> pool_search (Z.to_nat POOL_SIZE) this k 0 = maps_find (pool_maps this) k.
Proof.
  intros Hwf Hk. unfold pool_maps. change (Z.to_nat POOL_SIZE) with 4%nat. cbn [fmap list_fmap maps_find pool_search Z.add].
  change (0 + 1) with 1. change (1 + 1) with 2. change (2 + 1) with 3.
  fold (age_index this 0). fold (age_index this 1). fold (age_index this 2). fold (age_index this 3).
  assert (forall i, match data_segment_get (buffer_at this (age_index this i)) k with
    | Some b => sb_lba b = k /\ ds_map (buffer_at this (age_index this i)) !! k = Some (sb_plain_block b)
    | None => ds_map (buffer_at this (age_index this i)) !! k = None end) as Hget.
  { intros i. apply data_segment_get_spec; [|done]. by apply pool_at, age_range. }
  pose proof (Hget 0) as Hg0. pose proof (Hget 1) as Hg1. pose proof (Hget 2) as Hg2. pose proof (Hget 3) as Hg3.
  destruct (data_segment_get (buffer_at this (age_index this 0)) k); [by destruct Hg0 as [_ ->]|rewrite Hg0].
  destruct (data_segment_get (buffer_at this (age_index this 1)) k); [by destruct Hg1 as [_ ->]|rewrite Hg1].
  destruct (data_segment_get (buffer_at this (age_index this 2)) k); [by destruct Hg2 as [_ ->]|rewrite Hg2].
  destruct (data_segment_get (buffer_at this (age_index this 3)) k); [by destruct Hg3 as [_ ->]|by rewrite Hg3].
Qed.

Lemma segbuf_query_find this k : pool_wf this -> 0 <= k < 2 ^ 31 ->
  segbuf_query_block this k = found_block (maps_find (pool_maps this) k).
Proof.
  intros Hwf Hk. unfold segbuf_query_block. rewrite <- pool_search_find by done. by destruct (pool_search _ this k 0).
Qed.

Lemma buffer_at_set this i j ds : length (sb_buffer this) = Z.to_nat POOL_SIZE -> 0 <= i < POOL_SIZE -> 0 <= j ->
  buffer_at (set_buffer this i ds) j = if decide (j = i) then ds else buffer_at this j.
Proof.
  intros Hl Hi Hj. unfold buffer_at, set_buffer, POOL_SIZE in *. cbn [sb_buffer]. destruct (decide (j = i)) as [->|Hne].
  - by rewrite list_lookup_insert_eq by (rewrite Hl; lia).
  - by rewrite list_lookup_insert_ne by lia.
Qed.

Lemma set_buffer_wf this i ds : pool_wf this -> 0 <= i < POOL_SIZE -> ds_wf ds -> ds_size ds <= BLOCKS_PER_SEGMENT ->
  Forall (fun ds => ds_wf ds /\ ds_size ds <= BLOCKS_PER_SEGMENT) (sb_buffer (set_buffer this i ds)).
Proof. intros Hwf Hi Hds Hsz. cbn. apply Forall_insert; [apply Hwf|done]. Qed.

Lemma age_next this i : (sb_cur_buffer this + 1) mod POOL_SIZE = age_index this 3 /\
  ((sb_cur_buffer this + 1) mod POOL_SIZE + POOL_SIZE - (i + 1)) mod POOL_SIZE = age_index this i.
Proof. unfold age_index, POOL_SIZE. split; divmod_lia. Qed.

Lemma age_distinct this i j : 0 <= sb_cur_buffer this < POOL_SIZE -> 0 <= i < POOL_SIZE -> 0 <= j < POOL_SIZE ->
  age_index this i = age_index this j -> i = j.
Proof. unfold age_index, POOL_SIZE. intros. divmod_lia. Qed.

Lemma age_zero this : 0 <= sb_cur_buffer this < POOL_SIZE -> age_index this 0 = sb_cur_buffer this.
Proof. unfold age_index, POOL_SIZE. intros. divmod_lia. Qed.

Definition rotated this : bool := BLOCKS_PER_SEGMENT <=? ds_size (buffer_at this (sb_cur_buffer this)).

(** What the push of a block into the current buffer leads to. *)
Lemma turn_spec key this ds : pool_wf this -> ds_wf ds -> ds_size ds <= BLOCKS_PER_SEGMENT ->
  let cur := sb_cur_buffer this in
  let full := BLOCKS_PER_SEGMENT <=? ds_size ds in
  exists this', segbuf_turn key (set_buffer this cur ds) = Some this' /\ pool_wf this' /\
    pool_maps this' = (if full then ∅ :: ds_map ds :: removelast (tail (pool_maps this)) else ds_map ds :: tail (pool_maps this)) /\
    sb_works this' = (if full then sb_works this ++ [cur] else sb_works this) /\
    (forall j, 0 <= j < POOL_SIZE -> j <> cur -> (full = true -> j <> (cur + 1) mod POOL_SIZE) -> buffer_at this' j = buffer_at this j) /\
    (full = true -> buffer_at this' cur = ds).
Proof.
  intros Hwf Hds Hsz. cbv zeta. set (cur := sb_cur_buffer this). pose proof Hwf as [Hl Hc Hall Hroom]. fold cur in Hc.
  assert (buffer_at (set_buffer this cur ds) cur = ds) as Hcur by (rewrite buffer_at_set by (done || lia); by rewrite decide_True).
  unfold segbuf_turn. change (sb_cur_buffer (set_buffer this cur ds)) with cur. rewrite Hcur.
  destruct (Z.leb_spec BLOCKS_PER_SEGMENT (ds_size ds)) as [Hfull|Hlt].
  2: { exists (set_buffer this cur ds). split; [done|]. split; [|split; [|split; [done|split; [|done]]]].
       - split; [by cbn; rewrite length_insert|done|by apply set_buffer_wf|]. change (sb_cur_buffer (set_buffer this cur ds)) with cur. by rewrite Hcur.
       - unfold pool_maps. cbn [fmap list_fmap tail].
         assert (forall i, 0 <= i < POOL_SIZE -> buffer_at (set_buffer this cur ds) (age_index this i) =
           if decide (i = 0) then ds else buffer_at this (age_index this i)) as Hat.
         { intros i Hi. pose proof (age_range this i). rewrite buffer_at_set by (done || lia).
           destruct (decide (i = 0)) as [->|Hne]; [by rewrite age_zero, decide_True|].
           rewrite decide_False; [done|]. unfold cur. rewrite <- age_zero by done. intros Heq. apply age_distinct in Heq; [done..|unfold POOL_SIZE; lia]. }
         change (age_index (set_buffer this cur ds)) with (age_index this). rewrite !Hat by (unfold POOL_SIZE; lia). done.
       - intros j Hj Hne _. rewrite buffer_at_set by (done || lia). by rewrite decide_False. }
  set (next := (cur + 1) mod POOL_SIZE).
  assert (0 <= next < POOL_SIZE) as Hnext by (by apply Z.mod_pos_bound).
  assert (next <> cur) as Hne by (unfold next, POOL_SIZE in *; divmod_lia).
  change (buffer_at {| sb_cur_buffer := next; sb_buffer := _; sb_works := _ |} next) with (buffer_at (set_buffer this cur ds) next).
  rewrite (buffer_at_set this cur next) by (done || lia). rewrite decide_False by done.
  destruct (pool_at this next Hwf Hnext) as [Hnw _]. destruct (data_segment_destroy_spec _ Hnw) as [x Hx].
  assert (exists y, (if 0 <? ds_size (buffer_at this next) then data_segment_destroy (buffer_at this next)
            else Some (buffer_at this next)) = Some y) as [y ->] by (destruct (0 <? ds_size _); eauto).
  set (this1 := {| sb_cur_buffer := next; sb_buffer := sb_buffer (set_buffer this cur ds);
                   sb_works := sb_works (set_buffer this cur ds) ++ [cur] |}).
  set (new := data_segment_init y key). destruct (ds_empty_wf y key) as [Hyw Hym]. fold new in Hyw, Hym.
  assert (length (sb_buffer this1) = Z.to_nat POOL_SIZE) as Hl1 by (cbn; by rewrite length_insert).
  assert (forall j, 0 <= j -> buffer_at (set_buffer this1 next new) j =
    if decide (j = next) then new else if decide (j = cur) then ds else buffer_at this j) as Hat.
  { intros j Hj. rewrite buffer_at_set by (done || lia). destruct (decide (j = next)); [done|].
    change (buffer_at this1 j) with (buffer_at (set_buffer this cur ds) j). by rewrite buffer_at_set by (done || lia). }
  exists (set_buffer this1 next new). split; [done|]. split; [|split; [|split; [done|split]]].
  - split; [by cbn; rewrite !length_insert|done| |].
    + cbn. apply Forall_insert; [by apply set_buffer_wf|by split].
    + change (sb_cur_buffer (set_buffer this1 next new)) with next. rewrite Hat by lia. by rewrite decide_True.
  - unfold pool_maps. cbn [fmap list_fmap tail removelast].
    assert (forall i, age_index (set_buffer this1 next new) (i + 1) = age_index this i) as Hage by (intros i; apply (age_next this i)).
    pose proof (Hage 0 : age_index _ 1 = _) as ->. pose proof (Hage 1 : age_index _ 2 = _) as ->.
    pose proof (Hage 2 : age_index _ 3 = _) as ->. rewrite (age_zero (set_buffer this1 next new)) by done. change (sb_cur_buffer (set_buffer this1 next new)) with next.
    rewrite age_zero by done. fold cur. rewrite (Hat next), (Hat cur) by lia. rewrite decide_True by done.
    rewrite decide_False, decide_True by done. rewrite Hym. do 2 f_equal.
    assert (forall i, 0 < i < 3 -> buffer_at (set_buffer this1 next new) (age_index this i) = buffer_at this (age_index this i)) as Hold.
    { intros i Hi. pose proof (age_range this i). rewrite Hat by lia. rewrite !decide_False; [done|..].
      - unfold cur. rewrite <- age_zero by done. intros Heq. apply age_distinct in Heq; unfold POOL_SIZE in *; lia.
      - unfold next, cur. destruct (age_next this 0) as [-> _]. intros Heq. apply age_distinct in Heq; unfold POOL_SIZE in *; lia. }
    by rewrite !Hold by lia.
  - intros j Hj Hjc Hjn. rewrite Hat by lia. by rewrite !decide_False by auto.
  - intros _. rewrite Hat by lia. rewrite decide_False by done. by rewrite decide_True.
Qed.

Lemma pool_maps_head this : pool_wf this ->
  pool_maps this = ds_map (buffer_at this (sb_cur_buffer this)) :: tail (pool_maps this).
Proof. intros [_ Hc _ _]. unfold pool_maps. cbn [fmap list_fmap tail]. by rewrite age_zero. Qed.

(** What a push that is not refused does. *)
Definition pushes this this' (lba : Z) (buffer : list Z) : Prop :=
  let cur := sb_cur_buffer this in
  let full := map_full (<[lba := buffer]> (ds_map (buffer_at this cur))) in
  pool_wf this' /\ pool_maps this' = maps_push (pool_maps this) lba buffer /\
  sb_works this' = (if full then sb_works this ++ [cur] else sb_works this) /\
  (forall j, 0 <= j < POOL_SIZE -> j <> cur -> (full = true -> j <> (cur + 1) mod POOL_SIZE) -> buffer_at this' j = buffer_at this j) /\
  (full = true -> ds_map (buffer_at this' cur) = <[lba := buffer]> (ds_map (buffer_at this cur)) /\
                  ds_size (buffer_at this' cur) = BLOCKS_PER_SEGMENT).

Lemma put_turn key this lba buffer : pool_wf this -> 0 <= lba < 2 ^ 31 ->
  let cur := sb_cur_buffer this in
  exists this', segbuf_turn key (set_buffer this cur (ds_put (buffer_at this cur) lba buffer)) = Some this' /\
    pushes this this' lba buffer.
Proof.
  intros Hwf Hl. cbv zeta. pose proof Hwf as [_ Hc _ Hroom]. destruct (pool_at this _ Hwf Hc) as [Hw _].
  destruct (ds_put_spec (buffer_at this (sb_cur_buffer this)) lba buffer Hw Hl) as (Hw' & Hm & Hsz).
  set (ds := ds_put (buffer_at this (sb_cur_buffer this)) lba buffer) in *.
  assert (ds_size ds <= BLOCKS_PER_SEGMENT) as Hle by (destruct (decide _); lia).
  destruct (turn_spec key this ds Hwf Hw' Hle) as (this' & Hrun & Hwf' & Hmaps & Hworks & Hother & Hfull).
  exists this'. split; [done|].
  assert ((BLOCKS_PER_SEGMENT <=? ds_size ds) = map_full (<[lba := buffer]> (ds_map (buffer_at this (sb_cur_buffer this))))) as Hcond.
  { unfold map_full. rewrite <- Hm, <- ds_size_map by done. case_bool; lia || done. }
  unfold pushes. rewrite <- Hcond. split; [done|]. split; [|split; [done|split; [done|]]].
  - rewrite Hmaps, (pool_maps_head this Hwf). cbn [maps_push tail]. rewrite <- Hcond, Hm. done.
  - intros Hf. specialize (Hfull Hf). rewrite Hfull. split; [done|]. apply Z.leb_le in Hf. lia.
Qed.

Lemma push_block_spec key this lba buffer rflag : pool_wf this -> 0 <= lba < 2 ^ 31 ->
  exists this', segbuf_push_block key this lba buffer rflag = Some this' /\
    if negb rflag && is_ok (segbuf_query_block this lba) then this' = this else pushes this this' lba buffer.
Proof.
  intros Hwf Hl. unfold segbuf_push_block, segbuf_query_block. pose proof Hwf as [_ Hc _ _].
  destruct (pool_at this _ Hwf Hc) as [Hw _].
  pose proof (put_turn key this lba buffer Hwf Hl) as Hput. cbv zeta in Hput. unfold ds_put in Hput.
  destruct rflag; cbn [negb andb].
  - destruct (data_segment_get (buffer_at this (sb_cur_buffer this)) lba); exact Hput.
  - destruct (pool_search (Z.to_nat POOL_SIZE) this lba 0) as [b|] eqn:Hs; cbn [is_ok]; [by exists this|].
    assert (data_segment_get (buffer_at this (sb_cur_buffer this)) lba = None) as Hn; [|by rewrite Hn in Hput].
    pose proof (pool_search_find this lba Hwf Hl) as Hf. rewrite Hs, (pool_maps_head this Hwf) in Hf. cbn in Hf.
    pose proof (data_segment_get_spec _ lba Hw Hl) as Hg.
    destruct (data_segment_get (buffer_at this (sb_cur_buffer this)) lba); [destruct Hg as [_ Hg]; by rewrite Hg in Hf|done].
Qed.

(** C17. A push refines the list of maps the pool stands for, newest first: it
    always completes; a block moved by the collector is dropped when the pool
    holds newer data for it; otherwise the block enters the newest map, and when
    that makes a whole segment, the buffer is queued with all its blocks, an
    empty map becomes the newest and the oldest one is dropped. No buffer but
    the current one and the one recycled is touched. *)
Theorem segbuf_push_block_refines key this lba buffer rflag : pool_wf this -> 0 <= lba < 2 ^ 31 ->
  exists this', segbuf_push_block key this lba buffer rflag = Some this' /\
    if negb rflag && is_ok (segbuf_query_block this lba) then this' = this else pushes this this' lba buffer.
Proof. apply push_block_spec. Qed.

(** Finding after a push. *)
Lemma maps_find_push maps lba data k : (1 < length maps)%nat ->
  maps_find (maps_push maps lba data) k =
    if decide (k = lba) then Some data
    else if match maps with m :: _ => map_full (<[lba := data]> m) | [] => false end then maps_find (removelast maps) k else maps_find maps k.
Proof.
  destruct maps as [|m [|m' ms]]; cbn [length]; [lia|lia|]. intros _. unfold maps_push. destruct (map_full (<[lba:=data]> m)).
  - change (removelast (m :: m' :: ms)) with (m :: removelast (m' :: ms)). cbn [maps_find].
    rewrite lookup_empty. destruct (decide (k = lba)) as [->|Hne].
    + by rewrite lookup_insert_eq.
    + rewrite lookup_insert_ne by done. done.
  - cbn [maps_find]. destruct (decide (k = lba)) as [->|Hne]; [by rewrite lookup_insert_eq|by rewrite lookup_insert_ne].
Qed.

(** Reading one's writes: after a write to a block the buffer answers a
    query with the data written; for any other block it answers what it
    answered before, unless this write completes a segment and the only copy of
    that block was in the buffer recycled. A block moved by the collector never
    replaces newer data. *)
Theorem segbuf_read_your_writes key this lba buffer rflag k : pool_wf this -> 0 <= lba < 2 ^ 31 -> 0 <= k < 2 ^ 31 ->
  exists this', segbuf_push_block key this lba buffer rflag = Some this' /\ pool_wf this' /\
    segbuf_query_block this' lba =
      (if negb rflag && is_ok (segbuf_query_block this lba) then segbuf_query_block this lba else Ok buffer) /\
    (k <> lba -> segbuf_query_block this' k = segbuf_query_block this k \/
       (sb_works this' = sb_works this ++ [sb_cur_buffer this] /\ segbuf_query_block this' k = Err ENODATA /\
        exists d, ds_map (buffer_at this ((sb_cur_buffer this + 1) mod POOL_SIZE)) !! k = Some d)).
Proof.
  intros Hwf Hl Hk. destruct (push_block_spec key this lba buffer rflag Hwf Hl) as (this' & Hrun & Hpost).
  exists this'. split; [done|]. destruct (negb rflag && is_ok (segbuf_query_block this lba)) eqn:Hkeep.
  { subst this'. split; [done|]. split; [done|]. by left. }
  destruct Hpost as (Hwf' & Hmaps & Hworks & _). split; [done|].
  rewrite !segbuf_query_find by done.
  set (full := map_full (<[lba := buffer]> (ds_map (buffer_at this (sb_cur_buffer this))))) in *.
  assert (forall x, maps_find (pool_maps this') x = if decide (x = lba) then Some buffer
    else if full then maps_find (removelast (pool_maps this)) x else maps_find (pool_maps this) x) as Hfind.
  { intros x. rewrite Hmaps, maps_find_push by (cbn; lia). pose proof (pool_maps_head this Hwf) as Hh.
    destruct (pool_maps this) as [|m0 ms]; [done|]. by injection Hh as ->. }
  rewrite !Hfind, decide_True by done. split; [done|]. intros Hne. rewrite decide_False by done.
  destruct full eqn:Hfull; [|by left].
  assert (maps_find (pool_maps this) k = match maps_find (removelast (pool_maps this)) k with
    | Some d => Some d | None => ds_map (buffer_at this (age_index this 3)) !! k end) as Heq.
  { unfold pool_maps. cbn [fmap list_fmap removelast maps_find].
    do 4 (match goal with |- context [?m !! k] => destruct (m !! k) end; [done|]). done. }
  rewrite Heq. destruct (maps_find (removelast (pool_maps this)) k); [by left|].
  destruct (age_next this 0) as [-> _].
  destruct (ds_map (buffer_at this (age_index this 3)) !! k) as [d|]; [right|by left]. split; [done|]. split; [done|]. by exists d.
Qed.

(** ** Opening *)

Lemma segbuf_init_wf key : pool_wf (segbuf_init key) /\ pool_maps (segbuf_init key) = [∅; ∅; ∅; ∅].
Proof.
  assert (ds_wf data_segment_zero) as Hz by (split; [constructor|constructor|done]).
  split; [split|]; try done.
  repeat (constructor; [split; [first [apply ds_empty_wf | exact Hz]|done]|]). constructor.
Qed.
End segment_buffer.


(** ** Concrete runs *)

(** Block 7 written twice, block 5 once and then offered by the collector. *)
Definition example_pool : option segment_buffer :=
  match segbuf_push_bio [[]; []] (segbuf_init [1]) 6 [[60]; [70]] with
  | Some b =>
      match segbuf_push_block [] b 7 [71] true with
      | Some b => segbuf_push_block [] b 7 [72] false
      | None => None
      end
  | None => None
  end.

Example example_pool_queries :
  option_map (fun b => (segbuf_query_block b 6, segbuf_query_block b 7, segbuf_query_block b 8)) example_pool =
  Some (Ok [60], Ok [71], Err ENODATA).
Proof. vm_compute. reflexivity. Qed.

Lemma segbuf_push_block_refines_witness :
  let this := segbuf_init [1] in
  exists this', segbuf_push_block [2] this 7 [70] true = Some this' /\
    if negb true && is_ok (segbuf_query_block this 7) then this' = this else pushes this this' 7 [70].
Proof. refine (segbuf_push_block_refines [2] (segbuf_init [1]) 7 [70] true (proj1 (segbuf_init_wf [1])) _). lia. Defined.

Lemma segbuf_read_your_writes_witness :
  let this := segbuf_init [1] in
  exists this', segbuf_push_block [2] this 7 [70] false = Some this' /\ pool_wf this' /\
    segbuf_query_block this' 7 =
      (if negb false && is_ok (segbuf_query_block this 7) then segbuf_query_block this 7 else Ok [70]) /\
    (9 <> 7 -> segbuf_query_block this' 9 = segbuf_query_block this 9 \/
       (sb_works this' = sb_works this ++ [sb_cur_buffer this] /\ segbuf_query_block this' 9 = Err ENODATA /\
        exists d, ds_map (buffer_at this ((sb_cur_buffer this + 1) mod POOL_SIZE)) !! 9 = Some d)).
Proof.
  intros this. assert (0 <= 7 < 2 ^ 31) as Hl by lia. assert (0 <= 9 < 2 ^ 31) as Hk by lia.
  pose proof (segbuf_read_your_writes [2] (segbuf_init [1]) 7 [70] false 9 (proj1 (segbuf_init_wf [1])) Hl Hk) as Hr.
  exact Hr.
Defined.
