(* ===== verification/SegmentAllocator.v ===== *)
(** * SegmentAllocator: whole free segments

    The allocation half of [kernel-module/c/src/segment_allocator.c]: a free
    segment of the validator is taken and marked full in the segment table. The
    state is that of [find_logging_block]: the table, the validator and the
    number of segments in use. The collector is in [Jindisk.v]. *)
From S2P Require Import Prelude Layout Bytes RbTree DiskStructs SegValidator Dst.

Definition LEAST_CLEAN_SEGMENT_ONCE : Z := 5.
Definition FOREGROUND_GC_THRESHOLD (NR_SEGMENT : Z) : Z := u64 (NR_SEGMENT - NR_GC_PRESERVED).

Section segment_allocator.
Context `{ArraySpec dst_entry} `{RbTreeSpec} `{ArraySpec Z} `{!GroupArray}.
Implicit Types (st : logging_state).

Definition sa_nr_valid_segment_get st : Z := ls_nr_valid_segment st.

Definition sa_nr_valid_segment_set st (val : Z) : logging_state :=
  {| ls_dst := ls_dst st; ls_svt := ls_svt st; ls_nr_valid_segment := val |}.

Definition sa_alloc st : logging_state * result Z :=
  match seg_validator_next (ls_svt st) with
  | (svt, Err e) => ({| ls_dst := ls_dst st; ls_svt := svt; ls_nr_valid_segment := ls_nr_valid_segment st |}, Err e)
  | (svt, Ok seg) =>
      match seg_validator_take svt seg with
      | (svt, Err e) => ({| ls_dst := ls_dst st; ls_svt := svt; ls_nr_valid_segment := ls_nr_valid_segment st |}, Err e)
      | (svt, Ok _) =>
          let nr := u64 (ls_nr_valid_segment st + 1) in
          match dst_take_segment (ls_dst st) seg with
          | (d, Err e) => ({| ls_dst := d; ls_svt := svt; ls_nr_valid_segment := nr |}, Err e)
          | (d, Ok _) => ({| ls_dst := d; ls_svt := svt; ls_nr_valid_segment := nr |}, Ok seg)
          end
      end
  end.

(** The count is recomputed when the device is opened. *)
Definition sa_init st : logging_state * result unit :=
  match seg_validator_valid_segment_count (ls_svt st) with
  | (svt, Err e) => ({| ls_dst := ls_dst st; ls_svt := svt; ls_nr_valid_segment := ls_nr_valid_segment st |}, Err e)
  | (svt, Ok count) => ({| ls_dst := ls_dst st; ls_svt := svt; ls_nr_valid_segment := count |}, Ok tt)
  end.

Context (entry_range : forall e : dst_entry, entry_wf e -> darr_entry_ok e).

Record alloc_wf st : Prop := {
  al_dst : dst_wf (ls_dst st);
  al_svt : sv_wf (ls_svt st);
  al_free : free_agree st
}.

Lemma block_full_segment this this' seg : dst_wf this -> 0 <= seg ->
  dst_view this' = <[Z.to_nat seg := {| nr_valid_block := BLOCKS_PER_SEGMENT;
    block_validity_table := bitmap_fill BLOCKS_PER_SEGMENT |}]> (dst_view this) ->
  (exists e, dst_view this !! Z.to_nat seg = Some e /\ nr_valid_block e = 0) ->
  forall q, 0 <= q -> (__block_to_segment q = seg -> block_valid this q = false /\ block_valid this' q = true) /\
    (__block_to_segment q <> seg -> block_valid this' q = block_valid this q).
Proof using Type.
  intros Hwf Hs Hv (e & He & Hz) q Hq. pose proof (block_segment_nonneg q Hq). unfold block_valid. rewrite Hv. split.
  - intros Heq. rewrite Heq, He. rewrite list_lookup_insert_eq by (by eapply lookup_lt_Some). split.
    + pose proof (dw_entries _ _ Hwf) as Hent. rewrite Forall_lookup in Hent. destruct (Hent _ _ He) as [Hn _].
      rewrite Hz in Hn. apply (popcount_zero_bit bps); [done|]. rewrite bps_val. apply offset_in_segment.
    + cbn. unfold test_bit, bitmap_fill. pose proof (offset_in_segment q). by rewrite Z.ones_spec_low by lia.
  - intros Hne. by rewrite list_lookup_insert_ne by lia.
Qed.

Lemma sa_alloc_map st : alloc_wf st ->
  let '(st', r) := sa_alloc st in
  dst_wf (ls_dst st') /\ sv_wf (ls_svt st') /\
  d_nr_segment (ls_dst st') = d_nr_segment (ls_dst st) /\
  match r with
  | Ok seg => alloc_wf st' /\ 0 <= seg < d_nr_segment (ls_dst st) /\
      sv_view (ls_svt st) !! Z.to_nat seg = Some false /\
      sv_view (ls_svt st') = <[Z.to_nat seg := true]> (sv_view (ls_svt st)) /\
      ls_nr_valid_segment st' = u64 (ls_nr_valid_segment st + 1) /\
      forall q, 0 <= q -> (__block_to_segment q = seg -> block_valid (ls_dst st) q = false /\ block_valid (ls_dst st') q = true) /\
        (__block_to_segment q <> seg -> block_valid (ls_dst st') q = block_valid (ls_dst st) q)
  | Err e => forall q, block_valid (ls_dst st') q = block_valid (ls_dst st) q
  end.
Proof using entry_range H0 H2 H4 H5.
  intros [Hd Hs [Hn Hag]]. unfold sa_alloc. pose proof (seg_validator_next_map (ls_svt st) Hs) as Hnext.
  destruct (seg_validator_next (ls_svt st)) as [svt [seg|e]]; destruct Hnext as (Hs1 & Hv1 & Hn1 & Hr); [|done].
  destruct Hr as (Hseg & _ & Hfree).
  pose proof (seg_validator_take_map svt seg Hs1 (proj1 Hseg)) as Htake.
  destruct (seg_validator_take svt seg) as [svt' [u|e]]; destruct Htake as (Hs2 & Hn2 & Ht); [|done].
  destruct Ht as [_ Ht]. rewrite Hv1 in Ht. destruct (Hag seg (proj1 Hseg) Hfree) as (Hlog & _ & _).
  pose proof (dst_take_segment_map entry_range (ls_dst st) seg Hd (proj1 Hseg)) as Hd'.
  destruct (dst_take_segment (ls_dst st) seg) as [d [u'|e]]; destruct Hd' as (Hd' & Hnr & Hlg & Hr); cbn [ls_dst ls_svt].
  2: { split; [done|]. split; [done|]. split; [done|]. by apply block_valid_view. }
  destruct Hr as (Hview & Hzero & Hvic). split; [done|]. split; [done|]. split; [done|].
  split; [|split; [lia|split; [done|split; [done|split; [done|]]]]].
  2: { apply (block_full_segment _ _ seg Hd); [lia|done|done]. }
  split; cbn [ls_dst ls_svt]; [done|done|]. split; cbn [ls_dst ls_svt]; [congruence|]. intros s Hs0 Hfree'. rewrite Ht in Hfree'.
  destruct (Z.eq_dec s seg) as [->|Hne]; [rewrite list_lookup_insert_eq in Hfree'; [done|by eapply lookup_lt_Some]|].
  rewrite list_lookup_insert_ne in Hfree' by lia. destruct (Hag s Hs0 Hfree') as (Hl & Hv & Hz).
  split; [congruence|]. split; [intros v Hin; apply Hv; by apply Hvic|]. rewrite Hview.
  intros e. rewrite list_lookup_insert_ne by lia. apply Hz.
Qed.

(** A segment handed out was free in the validator and all its blocks were
    invalid; it is now in use and all its blocks are valid, no other block
    changes, and the tables stay well formed and in agreement. A failed
    allocation changes no block. *)
Theorem sa_alloc_correct st : alloc_wf st ->
  let '(st', r) := sa_alloc st in
  dst_wf (ls_dst st') /\ sv_wf (ls_svt st') /\
  d_nr_segment (ls_dst st') = d_nr_segment (ls_dst st) /\
  match r with
  | Ok seg => alloc_wf st' /\ 0 <= seg < d_nr_segment (ls_dst st) /\
      sv_view (ls_svt st) !! Z.to_nat seg = Some false /\
      sv_view (ls_svt st') = <[Z.to_nat seg := true]> (sv_view (ls_svt st)) /\
      ls_nr_valid_segment st' = u64 (ls_nr_valid_segment st + 1) /\
      forall q, 0 <= q -> (__block_to_segment q = seg -> block_valid (ls_dst st) q = false /\ block_valid (ls_dst st') q = true) /\
        (__block_to_segment q <> seg -> block_valid (ls_dst st') q = block_valid (ls_dst st) q)
  | Err e => forall q, block_valid (ls_dst st') q = block_valid (ls_dst st) q
  end.
Proof using entry_range H0 H2 H4 H5. apply sa_alloc_map. Qed.
End segment_allocator.

(** ** Concrete runs *)

Example example_alloc : let '(st, r) := sa_alloc example_logging in (r, ls_nr_valid_segment st) = (Ok 2, 3).
Proof. vm_compute. reflexivity. Qed.

Lemma example_alloc_wf : alloc_wf example_logging.
Proof. split; [exact example_dst_wf|apply example_logging_ok..]. Qed.

Lemma sa_alloc_correct_witness :
  let st := example_logging in
  let '(st', r) := sa_alloc st in
  dst_wf (ls_dst st') /\ sv_wf (ls_svt st') /\
  d_nr_segment (ls_dst st') = d_nr_segment (ls_dst st) /\
  match r with
  | Ok seg => alloc_wf st' /\ 0 <= seg < d_nr_segment (ls_dst st) /\
      sv_view (ls_svt st) !! Z.to_nat seg = Some false /\
      sv_view (ls_svt st') = <[Z.to_nat seg := true]> (sv_view (ls_svt st)) /\
      ls_nr_valid_segment st' = u64 (ls_nr_valid_segment st + 1) /\
      forall q, 0 <= q -> (__block_to_segment q = seg -> block_valid (ls_dst st) q = false /\ block_valid (ls_dst st') q = true) /\
        (__block_to_segment q <> seg -> block_valid (ls_dst st') q = block_valid (ls_dst st) q)
  | Err e => forall q, block_valid (ls_dst st') q = block_valid (ls_dst st) q
  end.
Proof. intros st. pose proof (sa_alloc_correct dst_list_range example_logging example_alloc_wf) as Hr. exact Hr. Defined.
