(* ===== verification/Journal.v ===== *)
(** * Journal: the circular log of the journal region

    [kernel-module/c/src/journal.c] with [ENABLE_JOURNAL], and the empty
    operations that stand in for it without. A buffer holds one segment of 1024
    journal blocks; records are put into it and written, encrypted block by
    block under derived keys, when the segment is full or on request. Allocation
    and dm-io succeed; encryption may fail. *)
From S2P Require Import Prelude Layout Bytes BlockIo DiskStructs Metadata Crypto.

(** ** Records and blocks as they lie in memory *)

Inductive record_type : Type := DATA_LOG | DATA_COMMIT | BIT_COMPACTION | BIT_NODE | CHECKPOINT_PACK.

(** The enumerators are numbered from zero. *)
Definition record_type_of (z : Z) : option record_type :=
  match z with
  | 0 => Some DATA_LOG
  | 1 => Some DATA_COMMIT
  | 2 => Some BIT_COMPACTION
  | 3 => Some BIT_NODE
  | 4 => Some CHECKPOINT_PACK
  | _ => None
  end.

(** The size of the member of the union that a type selects. *)
Definition record_member_size (t : record_type) : nat :=
  match t with
  | DATA_LOG => 72
  | DATA_COMMIT => 8
  | BIT_COMPACTION => 48
  | BIT_NODE => 80
  | CHECKPOINT_PACK => 80
  end.

(** [struct journal_record]: the type, and the union at offset 8; aligned to 64,
    so that the array of a block starts at 64, the keys of the block at 4032. *)
Definition RECORD_UNION : nat := 8.
Definition RECORD_BYTES : nat := 128.
Definition BLOCK_RECORDS : nat := 64.
Definition BLOCK_CURRENT : nat := 4032.
Definition BLOCK_CRYPT_LEN : nat := 4000.
Definition JOURNAL_BLOCK_SIZE : nat := 4096.
Definition CRYPTO_INFO_BYTES : nat := 32.

Definition record_type_at (r : list Z) : option record_type := record_type_of (le_decode (slice 0 4 r)).

(** What a record says: its type and the member the type selects. *)
Definition record_data (r : list Z) : list Z :=
  slice 0 4 r ++ match record_type_at r with
                 | Some t => slice RECORD_UNION (record_member_size t) r
                 | None => []
                 end.

Definition record_offset (i : nat) : nat := BLOCK_RECORDS + i * RECORD_BYTES.

(** [blk->records[i]] *)
Definition record_at (blk : list Z) (i : nat) : list Z := slice (record_offset i) RECORD_BYTES blk.

(** The assignments of [journal_add_record] to [blk->records[i]]. *)
Definition record_store (blk : list Z) (i : nat) (r : list Z) : list Z :=
  let blk := splice (record_offset i) (slice 0 4 r) blk in
  match record_type_at r with
  | Some t => splice (record_offset i + RECORD_UNION) (slice RECORD_UNION (record_member_size t) r) blk
  | None => blk
  end.

(** [blk->previous_blk], [blk->current_blk] and its [mac] and [iv]. *)
Definition current_blk (blk : list Z) : list Z := slice BLOCK_CURRENT CRYPTO_INFO_BYTES blk.
Definition block_mac (blk : list Z) : list Z := slice BLOCK_CURRENT 16 blk.
Definition block_iv (blk : list Z) : list Z := slice (BLOCK_CURRENT + 16) 12 blk.

Inductive journal_status : Type :=
  JOURNAL_UNINITIALIZED | JOURNAL_LOADED | JOURNAL_RECOVERING | JOURNAL_READY | JOURNAL_SYNCHRONIZING.

(** [struct journal_region], its superblock object and the two devices: [jr_dev]
    below dm-io and [jr_bufio] below [superblock->write]. [jr_tick] counts the
    calls whose result is arbitrary: random bytes and uninitialised memory. *)
Record journal_region `{BlockDev} `{Bufio} : Type := JournalRegion {
  jr_segno : Z;
  jr_previous_blk : list Z;
  jr_blocks : list (list Z);
  jr_superblock : superblock;
  jr_record_start : Z;
  jr_record_end : Z;
  jr_last_sync_record : Z;
  jr_status : journal_status;
  jr_dev : dev;
  jr_bufio : bufio;
  jr_tick : nat
}.

(** The lengths of nested [splice]s. *)
Ltac splice_lengths := repeat (rewrite splice_length || rewrite le_encode_length || rewrite bytes_at_length); try lia.

Section journal.
Context `{BlockDevSpec} `{BufioSpec} `{CryptoApiSpec}.
(** The keys of the superblock, the ecb(aes) primitive, the generator of random
    bytes and the contents of fresh memory. *)
Context (root_key root_iv : list Z) (ecb_encrypt : list Z -> list Z -> result (list Z)).
Context (random_bytes : nat -> list Z) (kmalloc_block : nat -> list Z).
Implicit Types (this : journal_region).

Definition with_buffer_segno this (s : Z) : journal_region :=
  {| jr_segno := s; jr_previous_blk := jr_previous_blk this; jr_blocks := jr_blocks this;
     jr_superblock := jr_superblock this; jr_record_start := jr_record_start this; jr_record_end := jr_record_end this;
     jr_last_sync_record := jr_last_sync_record this; jr_status := jr_status this; jr_dev := jr_dev this;
     jr_bufio := jr_bufio this; jr_tick := jr_tick this |}.
Definition with_blocks this (b : list (list Z)) : journal_region :=
  {| jr_segno := jr_segno this; jr_previous_blk := jr_previous_blk this; jr_blocks := b;
     jr_superblock := jr_superblock this; jr_record_start := jr_record_start this; jr_record_end := jr_record_end this;
     jr_last_sync_record := jr_last_sync_record this; jr_status := jr_status this; jr_dev := jr_dev this;
     jr_bufio := jr_bufio this; jr_tick := jr_tick this |}.
Definition with_previous_blk this (p : list Z) : journal_region :=
  {| jr_segno := jr_segno this; jr_previous_blk := p; jr_blocks := jr_blocks this;
     jr_superblock := jr_superblock this; jr_record_start := jr_record_start this; jr_record_end := jr_record_end this;
     jr_last_sync_record := jr_last_sync_record this; jr_status := jr_status this; jr_dev := jr_dev this;
     jr_bufio := jr_bufio this; jr_tick := jr_tick this |}.
Definition with_tick this : journal_region :=
  {| jr_segno := jr_segno this; jr_previous_blk := jr_previous_blk this; jr_blocks := jr_blocks this;
     jr_superblock := jr_superblock this; jr_record_start := jr_record_start this; jr_record_end := jr_record_end this;
     jr_last_sync_record := jr_last_sync_record this; jr_status := jr_status this; jr_dev := jr_dev this;
     jr_bufio := jr_bufio this; jr_tick := S (jr_tick this) |}.
Definition with_status this (s : journal_status) : journal_region :=
  {| jr_segno := jr_segno this; jr_previous_blk := jr_previous_blk this; jr_blocks := jr_blocks this;
     jr_superblock := jr_superblock this; jr_record_start := jr_record_start this; jr_record_end := jr_record_end this;
     jr_last_sync_record := jr_last_sync_record this; jr_status := s; jr_dev := jr_dev this;
     jr_bufio := jr_bufio this; jr_tick := jr_tick this |}.
Definition with_journal_dev this (d : dev) : journal_region :=
  {| jr_segno := jr_segno this; jr_previous_blk := jr_previous_blk this; jr_blocks := jr_blocks this;
     jr_superblock := jr_superblock this; jr_record_start := jr_record_start this; jr_record_end := jr_record_end this;
     jr_last_sync_record := jr_last_sync_record this; jr_status := jr_status this; jr_dev := d;
     jr_bufio := jr_bufio this; jr_tick := jr_tick this |}.
Definition with_records this (s e : Z) : journal_region :=
  {| jr_segno := jr_segno this; jr_previous_blk := jr_previous_blk this; jr_blocks := jr_blocks this;
     jr_superblock := jr_superblock this; jr_record_start := s; jr_record_end := e;
     jr_last_sync_record := jr_last_sync_record this; jr_status := jr_status this; jr_dev := jr_dev this;
     jr_bufio := jr_bufio this; jr_tick := jr_tick this |}.
Definition with_last_sync this (s : Z) : journal_region :=
  {| jr_segno := jr_segno this; jr_previous_blk := jr_previous_blk this; jr_blocks := jr_blocks this;
     jr_superblock := jr_superblock this; jr_record_start := jr_record_start this; jr_record_end := jr_record_end this;
     jr_last_sync_record := s; jr_status := jr_status this; jr_dev := jr_dev this;
     jr_bufio := jr_bufio this; jr_tick := jr_tick this |}.
Definition with_superblock this (sb : superblock) (s : bufio) : journal_region :=
  {| jr_segno := jr_segno this; jr_previous_blk := jr_previous_blk this; jr_blocks := jr_blocks this;
     jr_superblock := sb; jr_record_start := jr_record_start this; jr_record_end := jr_record_end this;
     jr_last_sync_record := jr_last_sync_record this; jr_status := jr_status this; jr_dev := jr_dev this;
     jr_bufio := s; jr_tick := jr_tick this |}.

(** The block at an offset of the buffer. *)
Definition buffer_block this (offset : nat) : list Z := default [] (jr_blocks this !! offset).
Definition set_block this (offset : nat) (blk : list Z) : journal_region :=
  with_blocks this (<[offset := blk]> (jr_blocks this)).

(** The address of a journal block on the device. *)
Definition journal_pba this (blk_num : Z) : Z := journal_region_start (jr_superblock this) + blk_num.

(** ** Keys *)

(** The key of a block: its number and two checksums of the root key, encrypted
    under the root key. *)
Definition journal_derive_key (master_key : list Z) (blk_num : Z) : result (list Z) :=
  let src_key := le_encode 8 blk_num ++ le_encode 4 (crc32_be (u32 blk_num) (bytes_at 16 master_key)) ++
                 le_encode 4 (crc32_be (u32 (- blk_num - 1)) (bytes_at 16 master_key)) in
  ecb_encrypt (bytes_at 16 master_key) src_key.

(** ** Loading a segment

    [load] is [jops->load]: [get_block] calls it when the block lies in another
    segment, and it calls [decrypt_block], which calls [get_block]. *)
Section with_load.
Context (load : journal_region -> Z -> Z -> option journal_region).

(** The state and the offset of the block in the buffer. *)
Definition get_block_with this (blk_num : Z) : option (journal_region * nat) :=
  let segno := i32 (blk_num / BLOCKS_PER_SEGMENT) in
  let offset := blk_num mod BLOCKS_PER_SEGMENT in
  if negb (segno =? jr_segno this) then
    match load this (u64 (blk_num * RECORDS_PER_BLOCK)) (jr_record_end this) with
    | None => None
    | Some this => Some (this, Z.to_nat offset)
    end
  else Some (this, Z.to_nat offset).

(** In place; an error is only reported. *)
Definition decrypt_block_with this (blk_num : Z) : option journal_region :=
  match journal_derive_key root_key blk_num with
  | Err _ => Some this
  | Ok blk_key =>
      match get_block_with this blk_num with
      | None => None
      | Some (this, offset) =>
          let cur_blk := buffer_block this offset in
          match aes_gcm_cipher_decrypt (slice 0 BLOCK_CRYPT_LEN cur_blk) blk_key (Some (block_iv cur_blk)) (block_mac cur_blk) blk_num with
          | Err _ => Some this
          | Ok plain => Some (set_block this offset (splice 0 plain cur_blk))
          end
      end
  end.

Fixpoint decrypt_blocks_with this (blk_start : Z) (n : nat) : option journal_region :=
  match n with
  | O => Some this
  | S n =>
      match decrypt_block_with this blk_start with
      | None => None
      | Some this => decrypt_blocks_with this (blk_start + 1) n
      end
  end.

(** One request of a block each, into consecutive blocks of the buffer. *)
Fixpoint read_journal_blocks this (blk_start : Z) (offset n : nat) : journal_region :=
  match n with
  | O => this
  | S n =>
      read_journal_blocks (set_block this offset (bytes_at JOURNAL_BLOCK_SIZE (dev_read (jr_dev this) (journal_pba this blk_start))))
        (blk_start + 1) (S offset) n
  end.

(** How many blocks are loaded: to the last record, or to the end of the segment. *)
Definition load_count (segno record_start record_end : Z) : Z :=
  let blk_start := record_start / RECORDS_PER_BLOCK in
  if (record_start <? record_end) && (segno =? record_end / RECORDS_PER_SEGMENT)
  then (record_end - 1) / RECORDS_PER_BLOCK - blk_start + 1
  else BLOCKS_PER_SEGMENT - blk_start mod BLOCKS_PER_SEGMENT.

Definition load_with this (record_start record_end : Z) : option journal_region :=
  let segno := i32 (record_start / RECORDS_PER_SEGMENT) in
  if NR_JOURNAL_SEGMENT <=? segno then Some this
  else
    let this := with_buffer_segno this segno in
    if record_start =? record_end then Some this
    else
      let blk_start := record_start / RECORDS_PER_BLOCK in
      let offset := Z.to_nat (blk_start mod BLOCKS_PER_SEGMENT) in
      let blk_count := Z.to_nat (load_count segno record_start record_end) in
      match decrypt_blocks_with (read_journal_blocks this blk_start offset blk_count) blk_start blk_count with
      | None => None
      | Some this => Some (with_status this JOURNAL_LOADED)
      end.
End with_load.

Fixpoint load_nested (depth : nat) : journal_region -> Z -> Z -> option journal_region :=
  match depth with
  | O => fun _ _ _ => None
  | S depth => load_with (load_nested depth)
  end.

(** The blocks that are decrypted lie in the segment that is being loaded, so
    that no load nests inside another: one level is enough. *)
Definition journal_buffer_load : journal_region -> Z -> Z -> option journal_region := load_nested 1.
Definition journal_get_block : journal_region -> Z -> option (journal_region * nat) := get_block_with journal_buffer_load.
Definition journal_decrypt_block : journal_region -> Z -> option journal_region := decrypt_block_with journal_buffer_load.

(** ** Writing *)

(** [buffer] is the memory the ciphertext goes to; what the encryption does not
    write keeps its old content. *)
Definition journal_encrypt_block this (blk_num : Z) (buffer : list Z) : option (journal_region * list Z) :=
  match journal_get_block this blk_num with
  | None => None
  | Some (this, offset) =>
      match (if blk_num mod BLOCKS_PER_SEGMENT =? 0 then Some (this, jr_previous_blk this)
             else match journal_get_block this (blk_num - 1) with
                  | None => None
                  | Some (this, pre) => Some (this, current_blk (buffer_block this pre))
                  end) with
      | None => None
      | Some (this, previous) =>
          let this := set_block this offset (splice 0 (bytes_at CRYPTO_INFO_BYTES previous) (buffer_block this offset)) in
          match journal_derive_key root_key blk_num with
          | Err _ => Some (this, buffer)
          | Ok blk_key =>
              let cur_blk := splice (BLOCK_CURRENT + 16) (bytes_at 12 (random_bytes (jr_tick this))) (buffer_block this offset) in
              let '(cur_blk, buffer) :=
                match aes_gcm_cipher_encrypt (slice 0 BLOCK_CRYPT_LEN cur_blk) blk_key (Some (block_iv cur_blk)) blk_num with
                | Ok (out, mac) => (splice BLOCK_CURRENT mac cur_blk, splice 0 out buffer)
                | Err _ => (cur_blk, buffer)
                end in
              let this := set_block (with_tick this) offset cur_blk in
              let buffer := splice BLOCK_CURRENT (current_blk cur_blk) buffer in
              Some (if blk_num mod BLOCKS_PER_SEGMENT =? BLOCKS_PER_SEGMENT - 1
                    then with_previous_blk this (current_blk cur_blk) else this, buffer)
          end
      end
  end.

(** The loop of [journal_synchronize]. *)
Fixpoint write_journal_blocks this (blk_start : Z) (n : nat) : option journal_region :=
  match n with
  | O => Some this
  | S n =>
      match journal_encrypt_block (with_tick this) blk_start (bytes_at JOURNAL_BLOCK_SIZE (kmalloc_block (jr_tick this))) with
      | None => None
      | Some (this, buffer) =>
          write_journal_blocks (with_journal_dev this (dev_write (jr_dev this) (journal_pba this blk_start) [buffer]))
            (blk_start + 1) n
      end
  end.

(** [superblock->record_start] and [record_end]. *)
Definition with_record_range (sb : superblock) (s e : Z) : superblock :=
  {| csum := csum sb; magic := magic sb; blocks_per_seg := blocks_per_seg sb; nr_segment := nr_segment sb;
     data_start := data_start sb; common_ratio := common_ratio sb; nr_disk_level := nr_disk_level sb;
     max_disk_level_capacity := max_disk_level_capacity sb; index_region_start := index_region_start sb;
     journal_size := journal_size sb; nr_journal := nr_journal sb; record_start := s; record_end := e;
     last_checkpoint_pack := last_checkpoint_pack sb; journal_region_start := journal_region_start sb;
     seg_validity_table_start := seg_validity_table_start sb; data_seg_table_start := data_seg_table_start sb;
     reverse_index_table_start := reverse_index_table_start sb;
     block_index_table_catalogue_start := block_index_table_catalogue_start sb |}.

(** [superblock->write(superblock)], the result ignored; the checksum is set
    when block 0 could be read. *)
Definition write_superblock this (sb : superblock) : journal_region :=
  let sb' := match (dm_bufio_read (jr_bufio this) SUPERBLOCK_LOCATION).2 with
             | Ok _ => with_csum sb (superblock_csum crc32_be sb)
             | Err _ => sb
             end in
  with_superblock this sb' (superblock_write crc32_be root_key root_iv sb (jr_bufio this)).1.

(** How many blocks are written: from the last synchronized record to the last
    record, or to the end of the segment. *)
Definition sync_count (last_sync_record record_end : Z) : Z :=
  let blk_start := last_sync_record / RECORDS_PER_BLOCK in
  if negb (record_end mod RECORDS_PER_SEGMENT =? 0)
  then u64 ((record_end - 1) / RECORDS_PER_BLOCK - blk_start + 1)
  else BLOCKS_PER_SEGMENT - blk_start mod BLOCKS_PER_SEGMENT.

Definition journal_synchronize this : option journal_region :=
  if jr_last_sync_record this =? jr_record_end this then Some this
  else
    let blk_start := jr_last_sync_record this / RECORDS_PER_BLOCK in
    let blk_count := Z.to_nat (sync_count (jr_last_sync_record this) (jr_record_end this)) in
    match write_journal_blocks this blk_start blk_count with
    | None => None
    | Some this =>
        let this := with_last_sync this (jr_record_end this) in
        let this := write_superblock this (with_record_range (jr_superblock this) (jr_record_start this) (jr_record_end this)) in
        Some (with_status this JOURNAL_READY)
    end.

Definition journal_should_sync this : bool :=
  negb (i32 (jr_record_end this / RECORDS_PER_SEGMENT) =? jr_segno this).

(** The state and the index of the record. *)
Definition journal_add_record this (r : list Z) : option (journal_region * Z) :=
  match journal_get_block this (jr_record_end this / RECORDS_PER_BLOCK) with
  | None => None
  | Some (this, offset) =>
      let this := set_block this offset (record_store (buffer_block this offset) (Z.to_nat (jr_record_end this mod RECORDS_PER_BLOCK)) r) in
      let ret := jr_record_end this in
      let record_end := (jr_record_end this + 1) mod MAX_RECORDS in
      let record_start := if record_end =? jr_record_start this then (jr_record_start this + 1) mod MAX_RECORDS else jr_record_start this in
      let this := with_records this record_start record_end in
      if journal_should_sync this then
        match journal_synchronize (with_status this JOURNAL_SYNCHRONIZING) with
        | None => None
        | Some this => Some (this, ret)
        end
      else Some (this, ret)
  end.

(** ** Recovery *)

Definition journal_should_recover this : journal_region * bool :=
  if jr_record_end this =? (jr_record_start this + 1) mod MAX_RECORDS
  then (with_status this JOURNAL_READY, false)
  else (with_status this JOURNAL_RECOVERING, true).

(** The loop looks at every record and does nothing with it yet; the second
    component is the list of the records it looks at. [fuel] bounds the number
    of records of the ring. *)
Fixpoint recover_loop (fuel : nat) this (i : Z) : option (journal_region * list (list Z)) :=
  match fuel with
  | O => None
  | S fuel =>
      if i =? jr_record_end this then Some (this, [])
      else
        match journal_get_block this (i / RECORDS_PER_BLOCK) with
        | None => None
        | Some (this, offset) =>
            let r := record_at (buffer_block this offset) (Z.to_nat (i mod RECORDS_PER_BLOCK)) in
            match recover_loop fuel this ((i + 1) mod MAX_RECORDS) with
            | None => None
            | Some (this, rs) => Some (this, r :: rs)
            end
        end
  end.

Definition journal_recover this : option (journal_region * list (list Z)) :=
  match recover_loop (Z.to_nat MAX_RECORDS) this (jr_record_start this) with
  | None => None
  | Some (this, rs) => Some (with_status (with_last_sync this (jr_record_end this)) JOURNAL_READY, rs)
  end.

(** [journal_region_init]; [this] is the [kmalloc]ed object, whose blocks are
    then allocated zeroed, and [r] the uninitialised record variable. The
    records the recovery looks at are handed out. *)
Definition journal_region_init this (sb : superblock) (r : list Z) : option (journal_region * list (list Z) * result unit) :=
  let this := with_records (with_status (with_superblock this sb (jr_bufio this)) JOURNAL_UNINITIALIZED) (record_start sb) (record_end sb) in
  let this := with_blocks this (replicate (Z.to_nat BLOCKS_PER_SEGMENT) (replicate JOURNAL_BLOCK_SIZE 0)) in
  match (if negb (jr_record_start this =? jr_record_end this)
         then journal_buffer_load this (jr_record_start this) (jr_record_end this)
         else
           let this := with_buffer_segno this (i32 (jr_record_start this / RECORDS_PER_SEGMENT)) in
           match journal_add_record this (splice 0 (le_encode 4 4) r) with
           | None => None
           | Some (this, _) => Some (with_status (with_last_sync this (jr_record_start this)) JOURNAL_LOADED)
           end) with
  | None => None
  | Some this =>
      let '(this, recover) :=
        match jr_status this with
        | JOURNAL_LOADED => journal_should_recover this
        | _ => (this, false)
        end in
      match (if recover then journal_recover this else Some (this, [])) with
      | None => None
      | Some (this, rs) =>
          Some (this, rs, match jr_status this with JOURNAL_READY => Ok tt | _ => Err EAGAIN end)
      end
  end.

(** [journal_region_destroy] writes what is pending. *)
Definition journal_region_destroy this : option journal_region := journal_synchronize this.

(** The record is added, and becomes the last checkpoint and the start of the
    window: the end of [add_checkpoint_pack_record] of [dm-jindisk.c]. *)
Definition journal_checkpoint this (r : list Z) : option journal_region :=
  match journal_add_record this r with
  | None => None
  | Some (this, record_index) =>
      let this := with_superblock this (with_last_checkpoint_pack (jr_superblock this) record_index) (jr_bufio this) in
      Some (with_records this record_index (jr_record_end this))
  end.

(** ** Without the journal *)

Definition nop_buffer_load this (record_start record_end : Z) : journal_region := this.
Definition nop_should_recover this : journal_region * bool := (this, false).
Definition nop_recover this : journal_region := this.
Definition nop_should_sync this : bool := false.
Definition nop_synchronize this : journal_region := this.
Definition nop_add_record this (r : list Z) : journal_region * Z := (this, 0).
Definition nop_get_block this (blk_num : Z) : option nat := None.
Definition nop_encrypt_block this (blk_num : Z) (buffer : list Z) : journal_region * list Z := (this, buffer).
Definition nop_decrypt_block this (blk_num : Z) : journal_region := this.

(** ** Records inside blocks *)

Lemma record_member_size_bound r t : record_type_at r = Some t -> (record_member_size t <= 80)%nat.
Proof. intros _. destruct t; cbn; lia. Qed.

(** Only the first 88 bytes of a record matter, and every one of them lies in
    the encrypted part of the block. *)
Lemma record_data_take r m : (88 <= m)%nat -> record_data (take m r) = record_data r.
Proof.
  intros Hm. unfold record_data, record_type_at, slice, RECORD_UNION.
  assert (forall off len, (off + len <= m)%nat -> take len (drop off (take m r)) = take len (drop off r)) as Ht.
  { intros off len Hl. rewrite skipn_firstn_comm, take_take. by replace (len `min` (m - off))%nat with len by lia. }
  rewrite !Ht by lia. destruct (record_type_of _) as [[]|]; cbn [record_member_size]; rewrite ?Ht by lia; done.
Qed.

Lemma record_data_long l m : (88 <= m)%nat -> record_data (take m l) = record_data (take 88 l).
Proof.
  intros Hm. rewrite <- (record_data_take (take m l) 88), take_take by lia. by replace (88 `min` m)%nat with 88%nat by lia.
Qed.

Lemma record_at_crypt blk i : length blk = JOURNAL_BLOCK_SIZE -> (i < 31)%nat ->
  record_data (record_at (slice 0 BLOCK_CRYPT_LEN blk) i) = record_data (record_at blk i).
Proof.
  intros Hl Hi. unfold record_at, slice, record_offset, BLOCK_RECORDS, RECORD_BYTES, BLOCK_CRYPT_LEN. rewrite drop_0.
  rewrite skipn_firstn_comm, take_take.
  rewrite !(record_data_long _ (_ `min` _)), (record_data_long _ 128) by lia. done.
Qed.

(** Writes outside of a record. *)
Lemma record_at_splice blk off new i : (off + length new <= length blk)%nat ->
  (record_offset i + RECORD_BYTES <= off)%nat \/ (off + length new <= record_offset i)%nat ->
  record_at (splice off new blk) i = record_at blk i.
Proof. intros Hl Hd. by apply slice_splice_other. Qed.

Lemma slice_slice a n off len (l : list Z) : (off + len <= n)%nat -> slice off len (slice a n l) = slice (a + off) len l.
Proof.
  intros Hl. unfold slice. rewrite skipn_firstn_comm, take_take, drop_drop. by replace (len `min` (n - off))%nat with len by lia.
Qed.
Lemma record_offset_bound i : (i < 31)%nat -> (record_offset i + RECORD_BYTES <= BLOCK_CURRENT)%nat.
Proof. unfold record_offset, BLOCK_RECORDS, RECORD_BYTES, BLOCK_CURRENT. lia. Qed.

Lemma record_store_length blk i r : length blk = JOURNAL_BLOCK_SIZE -> length r = RECORD_BYTES -> (i < 31)%nat ->
  length (record_store blk i r) = JOURNAL_BLOCK_SIZE.
Proof.
  unfold JOURNAL_BLOCK_SIZE, RECORD_BYTES. intros Hl Hr Hi. unfold record_store.
  pose proof (record_offset_bound i Hi) as Ho. unfold BLOCK_CURRENT, RECORD_BYTES in Ho.
  assert (length (splice (record_offset i) (slice 0 4 r) blk) = 4096%nat) as Hs
    by (rewrite splice_length; rewrite ?slice_length; lia).
  destruct (record_type_at r) as [t|] eqn:Ht; [|done]. apply record_member_size_bound in Ht. unfold RECORD_UNION.
  rewrite splice_length; rewrite ?slice_length; lia.
Qed.

Lemma record_store_other blk i r i' : length blk = JOURNAL_BLOCK_SIZE -> length r = RECORD_BYTES ->
  (i < 31)%nat -> (i' < 31)%nat -> i <> i' -> record_at (record_store blk i r) i' = record_at blk i'.
Proof.
  unfold JOURNAL_BLOCK_SIZE, RECORD_BYTES. intros Hl Hr Hi Hi' Hne. unfold record_store.
  pose proof (record_offset_bound i Hi) as Ho. unfold BLOCK_CURRENT, RECORD_BYTES in Ho.
  assert (record_offset i + 128 <= record_offset i' \/ record_offset i' + 128 <= record_offset i)%nat as Hd
    by (unfold record_offset, RECORD_BYTES; lia).
  assert (record_at (splice (record_offset i) (slice 0 4 r) blk) i' = record_at blk i') as Hs
    by (apply record_at_splice; rewrite ?slice_length; unfold RECORD_BYTES; lia).
  destruct (record_type_at r) as [t|] eqn:Ht; [|done]. apply record_member_size_bound in Ht. unfold RECORD_UNION.
  rewrite record_at_splice; [done|..]; rewrite ?splice_length; rewrite ?slice_length; unfold RECORD_BYTES; lia.
Qed.

(** [blk->records[i]] then says what the record said. *)
Lemma record_store_same blk i r : length blk = JOURNAL_BLOCK_SIZE -> length r = RECORD_BYTES -> (i < 31)%nat ->
  record_data (record_at (record_store blk i r) i) = record_data r.
Proof.
  unfold JOURNAL_BLOCK_SIZE, RECORD_BYTES. intros Hl Hr Hi.
  pose proof (record_offset_bound i Hi) as Ho. unfold BLOCK_CURRENT, RECORD_BYTES in Ho.
  assert (length (splice (record_offset i) (slice 0 4 r) blk) = 4096%nat) as Hs
    by (rewrite splice_length; rewrite ?slice_length; lia).
  assert (slice 0 4 (record_at (record_store blk i r) i) = slice 0 4 r) as Htype.
  { unfold record_at, RECORD_BYTES. rewrite slice_slice, Nat.add_0_r by lia. unfold record_store.
    destruct (record_type_at r) as [t|] eqn:Ht; [apply record_member_size_bound in Ht; rewrite slice_splice_other|];
      unfold RECORD_UNION; rewrite ?slice_length; try lia; apply slice_splice_exact; rewrite ?slice_length; lia. }
  unfold record_data, record_type_at. rewrite Htype. fold (record_type_at r). f_equal.
  destruct (record_type_at r) as [t|] eqn:Ht; [|done]. pose proof (record_member_size_bound _ _ Ht). unfold RECORD_UNION.
  unfold record_at, RECORD_BYTES. rewrite slice_slice by lia. unfold record_store. rewrite Ht. unfold RECORD_UNION.
  apply slice_splice_exact; rewrite ?slice_length; lia.
Qed.

(** ** Positions

    Records and blocks are numbered from the first one that was ever added;
    record [k] lies in block [k / 31] of the ring, at [k mod 31]. *)
Lemma position_block k : 0 <= k -> (k mod MAX_RECORDS) / RECORDS_PER_BLOCK = (k / RECORDS_PER_BLOCK) mod MAX_BLOCKS.
Proof.
  intros Hk. change MAX_RECORDS with (RECORDS_PER_BLOCK * MAX_BLOCKS). rewrite Z.rem_mul_r by done.
  rewrite Z.mul_comm, Z.div_add by done. rewrite (Z.div_small (k mod _)); [lia|]. by apply Z.mod_pos_bound.
Qed.

Lemma position_slot k : 0 <= k -> (k mod MAX_RECORDS) mod RECORDS_PER_BLOCK = k mod RECORDS_PER_BLOCK.
Proof.
  intros Hk. change MAX_RECORDS with (RECORDS_PER_BLOCK * MAX_BLOCKS). rewrite Z.rem_mul_r by done.
  rewrite Z.mul_comm, Z.mod_add by done. by apply Z.mod_mod.
Qed.

Lemma position_segment k : 0 <= k -> (k mod MAX_RECORDS) / RECORDS_PER_SEGMENT = (k / RECORDS_PER_SEGMENT) mod NR_JOURNAL_SEGMENT.
Proof.
  intros Hk. change MAX_RECORDS with (RECORDS_PER_SEGMENT * NR_JOURNAL_SEGMENT). rewrite Z.rem_mul_r by done.
  rewrite Z.mul_comm, Z.div_add by done. rewrite (Z.div_small (k mod _)); [lia|]. by apply Z.mod_pos_bound.
Qed.

Lemma block_offset q : (q mod MAX_BLOCKS) mod BLOCKS_PER_SEGMENT = q mod BLOCKS_PER_SEGMENT.
Proof.
  change MAX_BLOCKS with (BLOCKS_PER_SEGMENT * NR_JOURNAL_SEGMENT). rewrite Z.rem_mul_r by done.
  rewrite Z.mul_comm, Z.mod_add by done. by apply Z.mod_mod.
Qed.

Lemma block_segment q : (q mod MAX_BLOCKS) / BLOCKS_PER_SEGMENT = (q / BLOCKS_PER_SEGMENT) mod NR_JOURNAL_SEGMENT.
Proof.
  change MAX_BLOCKS with (BLOCKS_PER_SEGMENT * NR_JOURNAL_SEGMENT). rewrite Z.rem_mul_r by done.
  rewrite Z.mul_comm, Z.div_add by done. rewrite (Z.div_small (q mod _)); [lia|]. by apply Z.mod_pos_bound.
Qed.

Lemma segment_of_block k : k / RECORDS_PER_SEGMENT = k / RECORDS_PER_BLOCK / BLOCKS_PER_SEGMENT.
Proof. change RECORDS_PER_SEGMENT with (RECORDS_PER_BLOCK * BLOCKS_PER_SEGMENT). by rewrite Z.div_div. Qed.
(** ** The buffer *)

Definition blocks_ok this : Prop :=
  length (jr_blocks this) = Z.to_nat BLOCKS_PER_SEGMENT /\ Forall (fun b => length b = JOURNAL_BLOCK_SIZE) (jr_blocks this).

Definition in_segment this (q : Z) : Prop := jr_segno this = (q / BLOCKS_PER_SEGMENT) mod NR_JOURNAL_SEGMENT.

Definition offset_of (q : Z) : nat := Z.to_nat (q mod BLOCKS_PER_SEGMENT).
Definition slot_of (k : Z) : nat := Z.to_nat (k mod RECORDS_PER_BLOCK).

Lemma offset_of_bound q : (offset_of q < Z.to_nat BLOCKS_PER_SEGMENT)%nat.
Proof. unfold offset_of. pose proof (Z.mod_pos_bound q BLOCKS_PER_SEGMENT eq_refl). lia. Qed.

Lemma slot_of_bound k : (slot_of k < 31)%nat.
Proof. unfold slot_of. pose proof (Z.mod_pos_bound k RECORDS_PER_BLOCK eq_refl). change RECORDS_PER_BLOCK with 31 in *. lia. Qed.

(** What the buffer has of record [k]. *)
Definition mem_record this (k : Z) : list Z :=
  record_data (record_at (buffer_block this (offset_of (k / RECORDS_PER_BLOCK))) (slot_of k)).

Lemma i32_segment q : i32 ((q mod MAX_BLOCKS) / BLOCKS_PER_SEGMENT) = (q / BLOCKS_PER_SEGMENT) mod NR_JOURNAL_SEGMENT.
Proof.
  rewrite block_segment. apply i32_small. pose proof (Z.mod_pos_bound (q / BLOCKS_PER_SEGMENT) NR_JOURNAL_SEGMENT eq_refl) as Hb.
  change NR_JOURNAL_SEGMENT with 16 in *. lia.
Qed.

Lemma get_block_here load this q : in_segment this q ->
  get_block_with load this (q mod MAX_BLOCKS) = Some (this, offset_of q).
Proof.
  intros Hs. unfold get_block_with. rewrite i32_segment, Hs, Z.eqb_refl. cbn [negb]. unfold offset_of. by rewrite block_offset.
Qed.

Lemma blocks_ok_lookup this q : blocks_ok this ->
  jr_blocks this !! offset_of q = Some (buffer_block this (offset_of q)) /\ length (buffer_block this (offset_of q)) = JOURNAL_BLOCK_SIZE.
Proof.
  intros [Hl Hall]. destruct (lookup_lt_is_Some_2 (jr_blocks this) (offset_of q)) as [b Hb]; [rewrite Hl; apply offset_of_bound|].
  unfold buffer_block. rewrite Hb. split; [done|]. rewrite Forall_lookup in Hall. by apply (Hall _ _ Hb).
Qed.

Lemma buffer_block_set this q blk : blocks_ok this -> buffer_block (set_block this (offset_of q) blk) (offset_of q) = blk.
Proof.
  intros [Hl _]. unfold buffer_block, set_block. cbn [jr_blocks with_blocks].
  rewrite list_lookup_insert_eq; [done|]. rewrite Hl. apply offset_of_bound.
Qed.

Lemma buffer_block_set_ne this o o' blk : o <> o' -> buffer_block (set_block this o blk) o' = buffer_block this o'.
Proof. intros Hne. unfold buffer_block, set_block. cbn [jr_blocks with_blocks]. by rewrite list_lookup_insert_ne. Qed.

Lemma set_block_ok this o blk : blocks_ok this -> length blk = JOURNAL_BLOCK_SIZE -> blocks_ok (set_block this o blk).
Proof. intros [Hl Hall] Hb. split; cbn [set_block with_blocks jr_blocks]; [by rewrite length_insert|by apply Forall_insert]. Qed.

(** ** Blocks on the device *)

(** A block that decrypts to [plain]. *)
Definition stored_block (d : dev) (start q : Z) (plain : list Z) : Prop :=
  exists blk key, dev_read d (start + q) = blk /\ length blk = JOURNAL_BLOCK_SIZE /\ journal_derive_key root_key q = Ok key /\
    aes_gcm_cipher_decrypt (slice 0 BLOCK_CRYPT_LEN blk) key (Some (block_iv blk)) (block_mac blk) q = Ok plain /\
    length plain = BLOCK_CRYPT_LEN.

(** The device has record [k] with the data [x]. *)
Definition disk_record this (k : Z) (x : list Z) : Prop :=
  exists plain, stored_block (jr_dev this) (journal_region_start (jr_superblock this)) ((k / RECORDS_PER_BLOCK) mod MAX_BLOCKS) plain /\
    record_data (record_at plain (slot_of k)) = x.

(** What [decrypt_block] makes of a block. *)
Definition decrypted (q : Z) (blk : list Z) : list Z :=
  match journal_derive_key root_key q with
  | Err _ => blk
  | Ok key =>
      match aes_gcm_cipher_decrypt (slice 0 BLOCK_CRYPT_LEN blk) key (Some (block_iv blk)) (block_mac blk) q with
      | Err _ => blk
      | Ok plain => splice 0 plain blk
      end
  end.

Lemma set_block_id this q : blocks_ok this -> set_block this (offset_of q) (buffer_block this (offset_of q)) = this.
Proof.
  intros Hok. unfold set_block, with_blocks. rewrite list_insert_id by (by apply blocks_ok_lookup). by destruct this.
Qed.

Lemma decrypt_block_ok load this q : blocks_ok this -> in_segment this q ->
  decrypt_block_with load this (q mod MAX_BLOCKS) =
    Some (set_block this (offset_of q) (decrypted (q mod MAX_BLOCKS) (buffer_block this (offset_of q)))).
Proof.
  intros Hok Hs. unfold decrypt_block_with, decrypted. rewrite get_block_here by done.
  destruct (journal_derive_key root_key (q mod MAX_BLOCKS)); [|by rewrite set_block_id].
  destruct (aes_gcm_cipher_decrypt _ _ _ _ _); [done|by rewrite set_block_id].
Qed.

Lemma decrypted_length q blk : length blk = JOURNAL_BLOCK_SIZE -> length (decrypted q blk) = JOURNAL_BLOCK_SIZE.
Proof.
  intros Hl. unfold decrypted. destruct (journal_derive_key root_key q); [|done].
  destruct (aes_gcm_cipher_decrypt _ _ _ _ _) as [out|] eqn:He; [|done]. apply crypto_aead_decrypt_length in He.
  rewrite slice_length in He by (rewrite Hl; vm_compute; lia). rewrite splice_length; [done|]. rewrite He, Hl. vm_compute. lia.
Qed.

(** A stored block read into the buffer says what was stored. *)
Lemma decrypted_stored d start q plain i : stored_block d start q plain -> (i < 31)%nat ->
  record_data (record_at (decrypted q (dev_read d (start + q))) i) = record_data (record_at plain i).
Proof.
  intros (blk & key & -> & Hl & Hk & Hd & Hp) Hi. unfold decrypted. rewrite Hk, Hd. unfold JOURNAL_BLOCK_SIZE, BLOCK_CRYPT_LEN in *.
  rewrite <- record_at_crypt by (try done; unfold JOURNAL_BLOCK_SIZE; rewrite splice_length; lia).
  unfold BLOCK_CRYPT_LEN. rewrite slice_splice_exact; [done|done|]. lia.
Qed.
Lemma offset_next q : (offset_of q + 1 < Z.to_nat BLOCKS_PER_SEGMENT)%nat ->
  offset_of (q + 1) = S (offset_of q) /\ (q + 1) / BLOCKS_PER_SEGMENT = q / BLOCKS_PER_SEGMENT.
Proof.
  unfold offset_of. change BLOCKS_PER_SEGMENT with 1024. intros Hlt. split; [|divmod_lia].
  rewrite <- Z2Nat.inj_succ by divmod_lia. f_equal. divmod_lia.
Qed.

Lemma block_next q : (offset_of q + 1 < Z.to_nat BLOCKS_PER_SEGMENT)%nat -> q mod MAX_BLOCKS + 1 = (q + 1) mod MAX_BLOCKS.
Proof. unfold offset_of. change BLOCKS_PER_SEGMENT with 1024. change MAX_BLOCKS with 16384. intros Hlt. divmod_lia. Qed.

(** Reading blocks that lie in one segment, and decrypting them. *)
Lemma read_journal_blocks_ok n : forall this q, 0 <= q -> blocks_ok this ->
  (offset_of q + n <= Z.to_nat BLOCKS_PER_SEGMENT)%nat ->
  exists bl, read_journal_blocks this (q mod MAX_BLOCKS) (offset_of q) n = with_blocks this bl /\
    blocks_ok (with_blocks this bl) /\
    (forall x, (x < offset_of q)%nat \/ (offset_of q + n <= x)%nat -> bl !! x = jr_blocks this !! x) /\
    forall j, (j < n)%nat -> bl !! (offset_of q + j)%nat =
      Some (bytes_at JOURNAL_BLOCK_SIZE (dev_read (jr_dev this) (journal_pba this ((q + Z.of_nat j) mod MAX_BLOCKS)))).
Proof.
  induction n as [|n IH]; intros this q Hq Hok Hn; cbn [read_journal_blocks].
  { exists (jr_blocks this). repeat split; [by destruct this|apply Hok|apply Hok|lia]. }
  set (blk := bytes_at _ _). assert (length blk = JOURNAL_BLOCK_SIZE) as Hblk by apply bytes_at_length.
  destruct n as [|n].
  { cbn [read_journal_blocks]. exists (<[offset_of q := blk]> (jr_blocks this)). split; [done|]. split; [by apply set_block_ok|]. split.
    - intros x Hx. by rewrite list_lookup_insert_ne by lia.
    - intros [|j] Hj; [|lia]. rewrite Nat.add_0_r, Z.add_0_r. apply list_lookup_insert_eq. rewrite (proj1 Hok). lia. }
  destruct (offset_next q ltac:(lia)) as [Hoff _]. rewrite block_next, <- Hoff by lia.
  destruct (IH (set_block this (offset_of q) blk) (q + 1)) as (bl & -> & Hbl & Hother & Hin); [lia|by apply set_block_ok|rewrite Hoff; lia|].
  exists bl. split; [done|]. split; [exact Hbl|]. split.
  - intros x Hx. rewrite Hother by (rewrite Hoff; lia). cbn [set_block with_blocks jr_blocks]. by rewrite list_lookup_insert_ne by lia.
  - intros [|j] Hj.
    + rewrite Nat.add_0_r, Z.add_0_r, Hother by lia. cbn [set_block with_blocks jr_blocks].
      apply list_lookup_insert_eq. rewrite (proj1 Hok). lia.
    + specialize (Hin j ltac:(lia)). rewrite Hoff in Hin. replace (offset_of q + S j)%nat with (S (offset_of q) + j)%nat by lia.
      replace (q + 1 + Z.of_nat j) with (q + Z.of_nat (S j)) in Hin by lia. exact Hin.
Qed.
Lemma decrypt_blocks_ok load n : forall this q, 0 <= q -> blocks_ok this -> in_segment this q ->
  (offset_of q + n <= Z.to_nat BLOCKS_PER_SEGMENT)%nat ->
  exists bl, decrypt_blocks_with load this (q mod MAX_BLOCKS) n = Some (with_blocks this bl) /\
    blocks_ok (with_blocks this bl) /\
    (forall x, (x < offset_of q)%nat \/ (offset_of q + n <= x)%nat -> bl !! x = jr_blocks this !! x) /\
    forall j, (j < n)%nat -> bl !! (offset_of q + j)%nat =
      Some (decrypted ((q + Z.of_nat j) mod MAX_BLOCKS) (buffer_block this (offset_of q + j))).
Proof.
  induction n as [|n IH]; intros this q Hq Hok Hs Hn; cbn [decrypt_blocks_with].
  { exists (jr_blocks this). repeat split; [by destruct this|apply Hok|apply Hok|lia]. }
  rewrite decrypt_block_ok by done.
  set (blk := decrypted _ _). assert (length blk = JOURNAL_BLOCK_SIZE) as Hblk by (apply decrypted_length; by apply blocks_ok_lookup).
  destruct n as [|n].
  { cbn [decrypt_blocks_with]. exists (<[offset_of q := blk]> (jr_blocks this)). split; [done|]. split; [by apply set_block_ok|]. split.
    - intros x Hx. by rewrite list_lookup_insert_ne by lia.
    - intros [|j] Hj; [|lia]. rewrite Nat.add_0_r, Z.add_0_r. apply list_lookup_insert_eq. rewrite (proj1 Hok). lia. }
  destruct (offset_next q ltac:(lia)) as [Hoff Hseg]. rewrite block_next by lia.
  destruct (IH (set_block this (offset_of q) blk) (q + 1)) as (bl & -> & Hbl & Hother & Hin);
    [lia|by apply set_block_ok|unfold in_segment; by rewrite Hseg|rewrite Hoff; lia|].
  exists bl. split; [done|]. split; [exact Hbl|]. split.
  - intros x Hx. rewrite Hother by (rewrite Hoff; lia). cbn [set_block with_blocks jr_blocks]. by rewrite list_lookup_insert_ne by lia.
  - intros [|j] Hj.
    + rewrite Nat.add_0_r, Z.add_0_r, Hother by lia. cbn [set_block with_blocks jr_blocks].
      apply list_lookup_insert_eq. rewrite (proj1 Hok). lia.
    + specialize (Hin j ltac:(lia)). rewrite Hoff in Hin. replace (offset_of q + S j)%nat with (S (offset_of q) + j)%nat by lia.
      replace (q + 1 + Z.of_nat j) with (q + Z.of_nat (S j)) in Hin by lia. rewrite Hin.
      by rewrite buffer_block_set_ne by lia.
Qed.
(** The blocks of a load lie in the segment and hold every record of the segment
    from [k] on. *)
Lemma load_count_ok k n : 0 <= k < n -> n <= k + MAX_RECORDS - 1 ->
  let c := load_count ((k / RECORDS_PER_SEGMENT) mod NR_JOURNAL_SEGMENT) (k mod MAX_RECORDS) (n mod MAX_RECORDS) in
  0 <= c /\ (k / RECORDS_PER_BLOCK) mod BLOCKS_PER_SEGMENT + c <= BLOCKS_PER_SEGMENT /\
  forall k', k <= k' < n -> k' / RECORDS_PER_SEGMENT = k / RECORDS_PER_SEGMENT -> k' / RECORDS_PER_BLOCK - k / RECORDS_PER_BLOCK < c.
Proof.
  intros Hk Hn. unfold load_count. rewrite position_block, block_offset by lia.
  destruct (Z.ltb_spec (k mod MAX_RECORDS) (n mod MAX_RECORDS)) as [Hlt|]; cbn [andb].
  1: destruct (Z.eqb_spec ((k / RECORDS_PER_SEGMENT) mod NR_JOURNAL_SEGMENT) ((n mod MAX_RECORDS) / RECORDS_PER_SEGMENT)) as [Heq|].
  - rewrite <- position_segment in Heq by lia. rewrite <- position_block by lia.
    change MAX_RECORDS with 507904 in *. change RECORDS_PER_SEGMENT with 31744 in *. change RECORDS_PER_BLOCK with 31.
    change BLOCKS_PER_SEGMENT with 1024. assert (k / 507904 = n / 507904) as Hlap by divmod_lia.
    assert ((k / 31) mod 1024 = ((k mod 507904) / 31) mod 1024) as ->.
    { pose proof (position_block k ltac:(lia)) as Hp. pose proof (block_offset (k / RECORDS_PER_BLOCK)) as Ho. rewrite <- Hp in Ho. exact (eq_sym Ho). }
    set (K := k mod 507904) in *. set (N := n mod 507904) in *. cbv zeta.
    assert (0 <= K) by (apply Z.mod_pos_bound; lia).
    assert (k = 507904 * (k / 507904) + K) as HK by (apply Z.div_mod; lia).
    assert (n = 507904 * (k / 507904) + N) as HN by (rewrite Hlap; apply Z.div_mod; lia).
    split; [divmod_lia|]. split; [divmod_lia|]. intros k' Hk' _. rewrite HK.
    replace ((507904 * (k / 507904) + K) / 31) with (16384 * (k / 507904) + K / 31) by divmod_lia.
    clearbody K N. clear Heq. divmod_lia.
  - change MAX_RECORDS with 507904 in *. change RECORDS_PER_SEGMENT with 31744 in *. change RECORDS_PER_BLOCK with 31.
    change BLOCKS_PER_SEGMENT with 1024. clear. cbv zeta. split; [divmod_lia|]. split; [lia|]. intros k' Hk' Hs. divmod_lia.
  - change MAX_RECORDS with 507904 in *. change RECORDS_PER_SEGMENT with 31744 in *. change RECORDS_PER_BLOCK with 31.
    change BLOCKS_PER_SEGMENT with 1024. clear. cbv zeta. split; [divmod_lia|]. split; [lia|]. intros k' Hk' Hs. divmod_lia.
Qed.
Lemma offset_add q j : (offset_of q + j < Z.to_nat BLOCKS_PER_SEGMENT)%nat -> offset_of (q + Z.of_nat j) = (offset_of q + j)%nat.
Proof. unfold offset_of. change BLOCKS_PER_SEGMENT with 1024. intros Hj. zify. divmod_lia. Qed.

Lemma block_add q j : (offset_of q + j < Z.to_nat BLOCKS_PER_SEGMENT)%nat ->
  (q + Z.of_nat j) mod MAX_BLOCKS = q mod MAX_BLOCKS + Z.of_nat j.
Proof. unfold offset_of. change BLOCKS_PER_SEGMENT with 1024. change MAX_BLOCKS with 16384. intros Hlt. zify. divmod_lia. Qed.

(** Loads change the buffer and the status, nothing else. *)
Record reloaded this this' : Prop := {
  rl_blocks : blocks_ok this';
  rl_superblock : jr_superblock this' = jr_superblock this;
  rl_dev : jr_dev this' = jr_dev this;
  rl_start : jr_record_start this' = jr_record_start this;
  rl_end : jr_record_end this' = jr_record_end this
}.

Lemma reloaded_trans this this' this'' : reloaded this this' -> reloaded this' this'' -> reloaded this this''.
Proof. intros [] []. split; congruence. Qed.

Lemma disk_record_frame this this' k x : jr_superblock this' = jr_superblock this -> jr_dev this' = jr_dev this ->
  disk_record this k x -> disk_record this' k x.
Proof. intros Hs Hd. unfold disk_record. by rewrite Hs, Hd. Qed.

(** What the device has of the records from [k] to the end of the segment is then
    in the buffer. *)
Lemma load_ok this k n : blocks_ok this -> 0 <= k < n -> n <= k + MAX_RECORDS - 1 ->
  exists this', journal_buffer_load this (k mod MAX_RECORDS) (n mod MAX_RECORDS) = Some this' /\
    reloaded this this' /\ jr_segno this' = (k / RECORDS_PER_SEGMENT) mod NR_JOURNAL_SEGMENT /\ (jr_status this' = JOURNAL_LOADED /\ jr_last_sync_record this' = jr_last_sync_record this) /\
    forall k' x, k <= k' < n -> k' / RECORDS_PER_SEGMENT = k / RECORDS_PER_SEGMENT ->
      disk_record this k' x -> mem_record this' k' = x.
Proof.
  intros Hok Hk Hn. pose proof (load_count_ok k n Hk Hn) as (Hc0 & Hc1 & Hc2).
  unfold journal_buffer_load. change (load_nested 1) with (load_with (load_nested 0)). unfold load_with.
  set (segno := (k / RECORDS_PER_SEGMENT) mod NR_JOURNAL_SEGMENT) in *.
  assert (i32 ((k mod MAX_RECORDS) / RECORDS_PER_SEGMENT) = segno) as ->.
  { rewrite position_segment by lia. apply i32_small. pose proof (Z.mod_pos_bound (k / RECORDS_PER_SEGMENT) NR_JOURNAL_SEGMENT eq_refl) as Hb.
    change NR_JOURNAL_SEGMENT with 16 in *. unfold segno. lia. }
  assert (0 <= segno < NR_JOURNAL_SEGMENT) as Hseg by (apply Z.mod_pos_bound; done).
  destruct (Z.leb_spec NR_JOURNAL_SEGMENT segno) as [|_]; [lia|].
  destruct (Z.eqb_spec (k mod MAX_RECORDS) (n mod MAX_RECORDS)) as [Heq|_].
  { change MAX_RECORDS with 507904 in *. divmod_lia. }
  rewrite position_block by lia. set (q := k / RECORDS_PER_BLOCK) in *. set (c := load_count _ _ _) in *. rewrite block_offset.
  change (Z.to_nat (q mod BLOCKS_PER_SEGMENT)) with (offset_of q).
  assert (0 <= q) as Hq by (apply Z.div_pos; done || lia).
  assert (offset_of q + Z.to_nat c <= Z.to_nat BLOCKS_PER_SEGMENT)%nat as Hfit.
  { unfold offset_of. pose proof (Z.mod_pos_bound q BLOCKS_PER_SEGMENT eq_refl). lia. }
  destruct (read_journal_blocks_ok (Z.to_nat c) (with_buffer_segno this segno) q Hq Hok Hfit) as (bl & -> & Hbl & _ & Hread).
  destruct (decrypt_blocks_ok (load_nested 0) (Z.to_nat c) (with_blocks (with_buffer_segno this segno) bl) q) as (bl' & -> & Hbl' & _ & Hdec); try done.
  { unfold in_segment. cbn [jr_segno with_blocks with_buffer_segno]. unfold segno, q. by rewrite segment_of_block. }
  eexists. split; [done|]. split; [split; done|]. split; [done|]. split; [split; done|].
  intros k' x Hk' Hs (plain & Hst & Hx). unfold mem_record.
  set (j := Z.to_nat (k' / RECORDS_PER_BLOCK - q)).
  assert (q <= k' / RECORDS_PER_BLOCK) as Hle by (apply Z.div_le_mono; done || lia).
  specialize (Hc2 k' Hk' Hs). assert (j < Z.to_nat c)%nat as Hj by lia.
  assert (k' / RECORDS_PER_BLOCK = q + Z.of_nat j) as Hq' by lia. rewrite Hq' in Hst |- *. rewrite offset_add by lia.
  unfold buffer_block. cbn [jr_blocks with_status with_blocks]. rewrite (Hdec j Hj).
  unfold buffer_block. cbn [jr_blocks with_blocks]. rewrite (Hread j Hj). cbn [default].
  rewrite <- Hx. unfold journal_pba. cbn [jr_dev jr_superblock with_buffer_segno].
  assert (length (dev_read (jr_dev this) (journal_region_start (jr_superblock this) + (q + Z.of_nat j) mod MAX_BLOCKS)) = JOURNAL_BLOCK_SIZE) as Hlen.
  { by destruct Hst as (blk & key & -> & Hl & _). }
  change (from_option id [] (Some ?z)) with z. rewrite bytes_at_exact by exact Hlen. by apply (decrypted_stored _ _ _ _ _ Hst), slot_of_bound.
Qed.
(** ** Writing blocks *)

(** Nothing changes but the keys of blocks, random choices and the device. *)
Record rekeyed this this' : Prop := {
  rk_blocks : blocks_ok this';
  rk_records : forall o i, (i < 31)%nat -> record_at (buffer_block this' o) i = record_at (buffer_block this o) i;
  rk_segno : jr_segno this' = jr_segno this;
  rk_superblock : jr_superblock this' = jr_superblock this;
  rk_start : jr_record_start this' = jr_record_start this;
  rk_end : jr_record_end this' = jr_record_end this;
  rk_sync : jr_last_sync_record this' = jr_last_sync_record this;
  rk_bufio : jr_bufio this' = jr_bufio this
}.

Lemma rekeyed_trans this this' this'' : rekeyed this this' -> rekeyed this' this'' -> rekeyed this this''.
Proof. intros [] []. split; try congruence. intros o i Hi. rewrite rk_records1 by done. by apply rk_records0. Qed.

(** [blk] decrypts to the records of [src] under the key of block [q]. *)
Definition holds_records (q : Z) (blk src : list Z) : Prop :=
  length blk = JOURNAL_BLOCK_SIZE /\
  exists plain key, journal_derive_key root_key q = Ok key /\
    aes_gcm_cipher_decrypt (slice 0 BLOCK_CRYPT_LEN blk) key (Some (block_iv blk)) (block_mac blk) q = Ok plain /\
    length plain = BLOCK_CRYPT_LEN /\
    forall i, (i < 31)%nat -> record_data (record_at plain i) = record_data (record_at src i).

Context (derive_ok : forall q, exists k, journal_derive_key root_key q = Ok k).
Context (gcm_ok : forall data key iv seq, exists out mac, aes_gcm_cipher_encrypt data key (Some iv) seq = Ok (out, mac)).

(** The three writes of [encrypt_block] into the block of the buffer. *)
Lemma rekeyed_block this q blk this' : blocks_ok this -> blocks_ok this' ->
  (forall i, (i < 31)%nat -> record_at blk i = record_at (buffer_block this (offset_of q)) i) ->
  length blk = JOURNAL_BLOCK_SIZE ->
  rekeyed this this' -> (forall o, o <> offset_of q -> buffer_block this' o = buffer_block this o) ->
  rekeyed this (set_block this' (offset_of q) blk).
Proof.
  intros Hok Hok' Hrec Hl [] Hother. split; try done.
  - by apply set_block_ok.
  - intros o i Hi. destruct (decide (o = offset_of q)) as [->|Hne]; [rewrite buffer_block_set by done; by apply Hrec|].
    rewrite buffer_block_set_ne by congruence. by rewrite Hother.
Qed.

Lemma rekeyed_refl this : blocks_ok this -> rekeyed this this.
Proof. by split. Qed.

(** The block before [q] of the same segment is in the buffer. *)
Lemma previous_here this q : blocks_ok this -> in_segment this q -> 0 <= q ->
  exists previous, (if q mod BLOCKS_PER_SEGMENT =? 0 then Some (this, jr_previous_blk this)
    else match get_block_with journal_buffer_load this (q mod MAX_BLOCKS - 1) with
         | None => None
         | Some (this, pre) => Some (this, current_blk (buffer_block this pre))
         end) = Some (this, previous).
Proof.
  intros Hok Hs Hq. destruct (Z.eqb_spec (q mod BLOCKS_PER_SEGMENT) 0) as [|Hne]; [by eexists|].
  assert (q mod MAX_BLOCKS - 1 = (q - 1) mod MAX_BLOCKS /\ (q - 1) / BLOCKS_PER_SEGMENT = q / BLOCKS_PER_SEGMENT) as [-> Hsame].
  { change BLOCKS_PER_SEGMENT with 1024 in *. change MAX_BLOCKS with 16384. split; divmod_lia. }
  rewrite get_block_here; [by eexists|]. unfold in_segment. by rewrite Hsame.
Qed.

(** Writing the keys of a block leaves its length and its records alone:
    [b] is the keys of the previous block, [b'] those and an iv, [b''] the mac as well. *)
Definition same_records (blk b : list Z) : Prop :=
  length b = JOURNAL_BLOCK_SIZE /\ forall i, (i < 31)%nat -> record_at b i = record_at blk i.

Lemma same_records_previous blk pr : length blk = JOURNAL_BLOCK_SIZE -> length pr = CRYPTO_INFO_BYTES ->
  same_records blk (splice 0 pr blk).
Proof.
  unfold JOURNAL_BLOCK_SIZE, CRYPTO_INFO_BYTES. intros Hl Hp. split; [rewrite splice_length; unfold JOURNAL_BLOCK_SIZE; lia|].
  intros i Hi. apply record_at_splice; rewrite ?Hp; [lia|]. right. unfold record_offset, BLOCK_RECORDS. lia.
Qed.

Lemma same_records_current blk b k (bs : list Z) : same_records blk b -> (k + length bs <= CRYPTO_INFO_BYTES)%nat ->
  same_records blk (splice (BLOCK_CURRENT + k) bs b).
Proof.
  unfold CRYPTO_INFO_BYTES. intros [Hl Hrec] Hk. unfold same_records, JOURNAL_BLOCK_SIZE, BLOCK_CURRENT in *.
  split; [rewrite splice_length; lia|]. intros i Hi. rewrite <- Hrec by done.
  pose proof (record_offset_bound i Hi) as Ho. unfold BLOCK_CURRENT in Ho. apply record_at_splice; [lia|left; lia].
Qed.

Lemma keys_current b : block_mac b = slice 0 16 (current_blk b) /\ block_iv b = slice 16 12 (current_blk b).
Proof. unfold block_mac, block_iv, current_blk, CRYPTO_INFO_BYTES. by rewrite !slice_slice, Nat.add_0_r by lia. Qed.

(** The block handed to the device: the ciphertext, and the keys of the buffered block. *)
Lemma sealed_block b out mac buffer : length b = JOURNAL_BLOCK_SIZE -> length mac = 16%nat -> length out = BLOCK_CRYPT_LEN ->
  length buffer = JOURNAL_BLOCK_SIZE ->
  let sealed := splice BLOCK_CURRENT (current_blk (splice BLOCK_CURRENT mac b)) (splice 0 out buffer) in
  length sealed = JOURNAL_BLOCK_SIZE /\ block_mac sealed = mac /\ block_iv sealed = block_iv b /\ slice 0 BLOCK_CRYPT_LEN sealed = out.
Proof.
  intros Hl Hm Ho Hb sealed. unfold JOURNAL_BLOCK_SIZE, BLOCK_CRYPT_LEN in *.
  set (c := splice BLOCK_CURRENT mac b) in *.
  assert (length c = 4096%nat) as Hlc by (unfold c; rewrite splice_length; unfold BLOCK_CURRENT; lia).
  assert (length (splice 0 out buffer) = 4096%nat) as Hlb by (rewrite splice_length; lia).
  assert (length (current_blk c) = 32%nat) as Hlk
    by (unfold current_blk, CRYPTO_INFO_BYTES; rewrite slice_length; unfold BLOCK_CURRENT; lia).
  assert (current_blk sealed = current_blk c) as Hcur.
  { unfold sealed. unfold current_blk at 1, CRYPTO_INFO_BYTES. apply slice_splice_exact; unfold BLOCK_CURRENT; lia. }
  destruct (keys_current sealed) as [-> ->], (keys_current c) as [Hcm Hci]. rewrite Hcur, <- Hcm, <- Hci.
  split; [unfold sealed; rewrite splice_length; unfold BLOCK_CURRENT; lia|].
  unfold block_mac, block_iv, c. split; [apply slice_splice_exact; unfold BLOCK_CURRENT; lia|].
  split; [apply slice_splice_other; unfold BLOCK_CURRENT; lia|].
  unfold sealed. rewrite slice_splice_other by (unfold BLOCK_CURRENT; lia). apply slice_splice_exact; lia.
Qed.

Lemma encrypt_block_ok this q buffer : blocks_ok this -> in_segment this q -> 0 <= q -> length buffer = JOURNAL_BLOCK_SIZE ->
  exists this' buffer', journal_encrypt_block this (q mod MAX_BLOCKS) buffer = Some (this', buffer') /\
    rekeyed this this' /\ jr_dev this' = jr_dev this /\ holds_records (q mod MAX_BLOCKS) buffer' (buffer_block this (offset_of q)).
Proof.
  intros Hok Hs Hq Hb. unfold journal_encrypt_block, journal_get_block. rewrite get_block_here by done. rewrite block_offset.
  destruct (previous_here this q Hok Hs Hq) as [previous ->].
  destruct (blocks_ok_lookup this q Hok) as [_ Hl]. rewrite buffer_block_set by done.
  destruct (derive_ok (q mod MAX_BLOCKS)) as [blk_key Hkey]. rewrite Hkey.
  set (blk := buffer_block this (offset_of q)) in *.
  pose proof (same_records_previous blk (bytes_at CRYPTO_INFO_BYTES previous) Hl (bytes_at_length _ _)) as Hsame1.
  set (b1 := splice 0 (bytes_at CRYPTO_INFO_BYTES previous) blk) in *.
  set (iv := bytes_at 12 (random_bytes _)).
  assert (length iv = 12%nat) as Hiv by apply bytes_at_length.
  assert (16 + length iv <= CRYPTO_INFO_BYTES)%nat as Hk by (rewrite Hiv; unfold CRYPTO_INFO_BYTES; lia).
  pose proof (same_records_current blk b1 16 iv Hsame1 Hk) as Hsame2. clear Hk.
  set (b2 := splice (BLOCK_CURRENT + 16) iv b1) in *.
  destruct (gcm_ok (slice 0 BLOCK_CRYPT_LEN b2) blk_key (block_iv b2) (q mod MAX_BLOCKS)) as (out & mac & Henc). rewrite Henc.
  pose proof Henc as Hlen. apply crypto_aead_encrypt_length in Hlen as [Hlo Hlm].
  assert (length (slice 0 BLOCK_CRYPT_LEN b2) = BLOCK_CRYPT_LEN) as Hls
    by (apply slice_length; rewrite (proj1 Hsame2); unfold BLOCK_CRYPT_LEN, JOURNAL_BLOCK_SIZE; lia).
  rewrite Hls in Hlo.
  assert (0 + length mac <= CRYPTO_INFO_BYTES)%nat as Hk by (rewrite Hlm; unfold CRYPTO_INFO_BYTES; lia).
  pose proof (same_records_current blk b2 0 mac Hsame2 Hk) as Hsame3. clear Hk. rewrite Nat.add_0_r in Hsame3.
  destruct (sealed_block b2 out mac buffer (proj1 Hsame2) Hlm Hlo Hb) as (Hl' & Hmac & Hbiv & Hout).
  set (b3 := splice BLOCK_CURRENT mac b2) in *.
  assert (rekeyed this (set_block (with_tick (set_block this (offset_of q) b1)) (offset_of q) b3)) as Hrk.
  { destruct Hsame1, Hsame3. apply rekeyed_block; try done; [by apply set_block_ok| |].
    - enough (rekeyed this (set_block this (offset_of q) b1)) as [] by by split.
      by apply (rekeyed_block this q b1 this).
    - intros o Ho. exact (buffer_block_set_ne this (offset_of q) o b1 (not_eq_sym Ho)). }
  eexists _, _. split; [done|]. split; [destruct (_ =? _); [|done]; by destruct Hrk; split|]. split; [by destruct (_ =? _)|].
  split; [done|]. exists (slice 0 BLOCK_CRYPT_LEN b2), blk_key. split; [done|].
  rewrite Hmac, Hbiv, Hout. split; [by apply crypto_aead_decrypt_encrypt in Henc|]. split; [done|].
  intros i Hi. rewrite record_at_crypt; [by rewrite (proj2 Hsame2)|exact (proj1 Hsame2)|done].
Qed.
(** The device has the records of [src] in block [q]. *)
Definition stores_records (d : dev) (start q : Z) (src : list Z) : Prop :=
  exists plain, stored_block d start q plain /\
    forall i, (i < 31)%nat -> record_data (record_at plain i) = record_data (record_at src i).

Lemma stores_records_ext d d' start q src src' : dev_read d' (start + q) = dev_read d (start + q) ->
  (forall i, (i < 31)%nat -> record_at src' i = record_at src i) ->
  stores_records d start q src -> stores_records d' start q src'.
Proof.
  intros Hd Hsrc (plain & (blk & key & Hb & Hst) & Hrec). exists plain. split; [|intros i Hi; by rewrite Hsrc, Hrec].
  exists blk, key. by rewrite Hd.
Qed.

Lemma dev_write_one d a blk b : dev_read (dev_write d a [blk]) b = if decide (b = a) then blk else dev_read d b.
Proof.
  rewrite dev_read_write. cbn [length]. destruct (Z.leb_spec a b), (Z.ltb_spec b (a + Z.of_nat 1)); cbn [andb]; case_decide; try lia; [|done..].
  by replace (Z.to_nat (b - a)) with 0%nat by lia.
Qed.

Lemma write_blocks_ok n : forall this q, 0 <= q -> blocks_ok this ->
  ((0 < n)%nat -> in_segment this q /\ (offset_of q + n <= Z.to_nat BLOCKS_PER_SEGMENT)%nat) ->
  exists this', write_journal_blocks this (q mod MAX_BLOCKS) n = Some this' /\ rekeyed this this' /\
    let start := journal_region_start (jr_superblock this) in
    (forall j, (j < n)%nat -> stores_records (jr_dev this') start ((q + Z.of_nat j) mod MAX_BLOCKS) (buffer_block this (offset_of q + j))) /\
    (forall b, (forall j, (j < n)%nat -> b <> start + (q + Z.of_nat j) mod MAX_BLOCKS) -> dev_read (jr_dev this') b = dev_read (jr_dev this) b).
Proof.
  induction n as [|n IH]; intros this q Hq Hok Hn; cbn [write_journal_blocks].
  { exists this. repeat split; try done; [apply Hok|apply Hok|lia]. }
  destruct Hn as [Hs Hn]; [lia|]. set (start := journal_region_start (jr_superblock this)).
  destruct (encrypt_block_ok (with_tick this) q (bytes_at JOURNAL_BLOCK_SIZE (kmalloc_block (jr_tick this))) Hok Hs Hq (bytes_at_length _ _))
    as (this1 & buffer & -> & Hrk & Hdev & Hlb & plain & key & Hkey & Hdec & Hlp & Hrec).
  assert (rekeyed this this1) as Hrk1 by (by destruct Hrk; split). clear Hrk.
  cbn [jr_dev with_tick] in Hdev. change (buffer_block (with_tick this) ?o) with (buffer_block this o) in Hrec.
  set (this2 := with_journal_dev this1 (dev_write (jr_dev this1) (journal_pba this1 (q mod MAX_BLOCKS)) [buffer])).
  assert (rekeyed this this2) as Hrk2 by (by destruct Hrk1; split).
  assert (journal_pba this1 (q mod MAX_BLOCKS) = start + q mod MAX_BLOCKS) as Hpba by (unfold journal_pba; by rewrite (rk_superblock _ _ Hrk1)).
  assert (write_journal_blocks this2 (q mod MAX_BLOCKS + 1) n = write_journal_blocks this2 ((q + 1) mod MAX_BLOCKS) n) as ->
    by (destruct n; [done|by rewrite block_next by lia]).
  destruct (IH this2 (q + 1)) as (this3 & -> & Hrk3 & Hst & Hsame); [lia|apply Hrk2| |].
  { intros Hpos. destruct (offset_next q ltac:(lia)) as [Hoff Hseg]. split; [|lia]. unfold in_segment.
    by rewrite Hseg, (rk_segno _ _ Hrk2), Hs. }
  rewrite (rk_superblock _ _ Hrk2) in Hst, Hsame. fold start in Hst, Hsame. cbn [this2 jr_dev with_journal_dev] in Hsame. rewrite Hpba in Hsame.
  exists this3. split; [done|]. split; [by eapply rekeyed_trans|]. split.
  - intros [|j] Hj.
    + rewrite Nat.add_0_r, Z.add_0_r. exists plain. split; [|done]. exists buffer, key. split; [|done].
      rewrite Hsame, dev_write_one, decide_True; [done..|]. intros j Hj'.
      replace (q + 1 + Z.of_nat j) with (q + Z.of_nat (S j)) by lia. rewrite block_add by lia. lia.
    + destruct (offset_next q ltac:(lia)) as [Hoff _]. specialize (Hst j ltac:(lia)). rewrite Hoff in Hst.
      replace (q + 1 + Z.of_nat j) with (q + Z.of_nat (S j)) in Hst by lia.
      replace (S (offset_of q) + j)%nat with (offset_of q + S j)%nat in Hst by lia.
      eapply stores_records_ext; [done| |exact Hst]. intros i Hi. symmetry. by apply (rk_records _ _ Hrk2).
  - intros b Hb. rewrite Hsame.
    + rewrite dev_write_one, decide_False, Hdev; [done|]. specialize (Hb 0%nat ltac:(lia)). by rewrite Z.add_0_r in Hb.
    + intros j Hj. specialize (Hb (S j) ltac:(lia)). by replace (q + 1 + Z.of_nat j) with (q + Z.of_nat (S j)) by lia.
Qed.
(** ** The specification: a log with a window

    All the records that were ever added, the first one of the window, how many
    have been written to the device, and the window start the superblock was
    last written with. *)
Record journal_log : Type := JournalLog {
  jl_records : list (list Z);
  jl_start : Z;
  jl_synced : Z;
  jl_saved : Z
}.

Definition jl_end (l : journal_log) : Z := Z.of_nat (length (jl_records l)).
Definition jl_record (l : journal_log) (k : Z) : option (list Z) := jl_records l !! Z.to_nat k.

Definition log_sync (l : journal_log) : journal_log :=
  if jl_synced l =? jl_end l then l
  else {| jl_records := jl_records l; jl_start := jl_start l; jl_synced := jl_end l; jl_saved := jl_start l |}.

(** The window holds [MAX_RECORDS - 1] records; a full segment is written. *)
Definition log_push (l : journal_log) (x : list Z) : journal_log :=
  {| jl_records := jl_records l ++ [x];
     jl_start := if jl_end l + 1 =? jl_start l + MAX_RECORDS then jl_start l + 1 else jl_start l;
     jl_synced := jl_synced l; jl_saved := jl_saved l |}.
Definition log_add (l : journal_log) (x : list Z) : journal_log :=
  if (jl_end l + 1) mod RECORDS_PER_SEGMENT =? 0 then log_sync (log_push l x) else log_push l x.

Definition log_checkpoint (l : journal_log) (x : list Z) : journal_log :=
  let l' := log_add l x in
  {| jl_records := jl_records l'; jl_start := jl_end l; jl_synced := jl_synced l'; jl_saved := jl_saved l' |}.

(** Record [k] is not overwritten by the block that record [e - 1] lies in. *)
Definition unclobbered (e k : Z) : Prop := (e - 1) / RECORDS_PER_BLOCK < k / RECORDS_PER_BLOCK + MAX_BLOCKS.

Record journal_inv this (l : journal_log) : Prop := {
  ji_blocks : blocks_ok this;
  ji_window : 0 <= jl_saved l <= jl_start l /\ jl_start l < jl_end l <= jl_start l + MAX_RECORDS - 1;
  ji_written : jl_saved l <= jl_synced l <= jl_end l /\ jl_synced l <= jl_saved l + MAX_RECORDS - 1;
  ji_start : jr_record_start this = jl_start l mod MAX_RECORDS;
  ji_end : jr_record_end this = jl_end l mod MAX_RECORDS;
  ji_sync : jr_last_sync_record this = jl_synced l mod MAX_RECORDS;
  ji_segno : jr_segno this = ((jl_end l - 1) / RECORDS_PER_SEGMENT) mod NR_JOURNAL_SEGMENT;
  ji_pending : jl_synced l = jl_end l \/ jl_synced l / RECORDS_PER_SEGMENT = (jl_end l - 1) / RECORDS_PER_SEGMENT;
  ji_mem : forall k x, jl_start l <= k < jl_end l -> jl_synced l / RECORDS_PER_BLOCK <= k / RECORDS_PER_BLOCK ->
    jl_record l k = Some x -> mem_record this k = x;
  ji_disk : forall k x, jl_saved l <= k < jl_synced l -> unclobbered (jl_synced l) k ->
    jl_record l k = Some x -> disk_record this k x;
  ji_superblock : record_start (jr_superblock this) = jl_saved l mod MAX_RECORDS /\
    record_end (jr_superblock this) = jl_synced l mod MAX_RECORDS
}.

(** Between two operations no full segment is left unwritten. *)
Definition journal_ok this (l : journal_log) : Prop :=
  journal_inv this l /\ (jl_synced l = jl_end l \/ jl_end l mod RECORDS_PER_SEGMENT <> 0).

Lemma rekeyed_mem this this' k : rekeyed this this' -> mem_record this' k = mem_record this k.
Proof. intros Hrk. unfold mem_record. by rewrite (rk_records _ _ Hrk) by apply slot_of_bound. Qed.

Lemma sync_count_ok s n : 0 <= s < n -> s / RECORDS_PER_SEGMENT = (n - 1) / RECORDS_PER_SEGMENT ->
  sync_count (s mod MAX_RECORDS) (n mod MAX_RECORDS) = (n - 1) / RECORDS_PER_BLOCK - s / RECORDS_PER_BLOCK + 1 /\
  (s / RECORDS_PER_BLOCK) mod BLOCKS_PER_SEGMENT + ((n - 1) / RECORDS_PER_BLOCK - s / RECORDS_PER_BLOCK + 1) <= BLOCKS_PER_SEGMENT.
Proof.
  intros Hs Hseg. assert ((n - 1) / RECORDS_PER_BLOCK - s / RECORDS_PER_BLOCK >= 0) as Hge.
  { pose proof (Z.div_le_mono s (n - 1) RECORDS_PER_BLOCK eq_refl ltac:(lia)). lia. }
  rewrite !segment_of_block in Hseg. set (q := s / RECORDS_PER_BLOCK) in *. set (e := (n - 1) / RECORDS_PER_BLOCK) in *.
  split; [|change BLOCKS_PER_SEGMENT with 1024 in *; clearbody q e; divmod_lia].
  assert ((n mod MAX_RECORDS) mod RECORDS_PER_SEGMENT = n mod RECORDS_PER_SEGMENT) as Hmod.
  { change MAX_RECORDS with (RECORDS_PER_SEGMENT * NR_JOURNAL_SEGMENT). rewrite Z.rem_mul_r by done.
    rewrite Z.mul_comm, Z.mod_add by done. by apply Z.mod_mod. }
  unfold sync_count. rewrite Hmod, position_block, block_offset by lia. fold q.
  destruct (Z.eqb_spec (n mod RECORDS_PER_SEGMENT) 0) as [Hz|Hnz]; cbn [negb].
  - assert (e mod BLOCKS_PER_SEGMENT = BLOCKS_PER_SEGMENT - 1) as He.
    { unfold e. change RECORDS_PER_SEGMENT with 31744 in *. change RECORDS_PER_BLOCK with 31. change BLOCKS_PER_SEGMENT with 1024. clear -Hz. divmod_lia. }
    change BLOCKS_PER_SEGMENT with 1024 in *. clearbody q e. clear Hz Hmod Hs. divmod_lia.
  - assert (((n mod MAX_RECORDS) - 1) / RECORDS_PER_BLOCK = e mod MAX_BLOCKS) as ->.
    { unfold e. rewrite <- position_block by lia. f_equal. change MAX_RECORDS with 507904. change RECORDS_PER_SEGMENT with 31744 in *.
      clear -Hnz. divmod_lia. }
    assert (e mod MAX_BLOCKS - q mod MAX_BLOCKS = e - q) as Hd.
    { change BLOCKS_PER_SEGMENT with 1024 in *. change MAX_BLOCKS with 16384. clearbody q e. clear Hnz Hmod Hs. divmod_lia. }
    rewrite Hd. apply u64_small. change BLOCKS_PER_SEGMENT with 1024 in *. clearbody q e. clear Hnz Hmod Hs Hd. divmod_lia.
Qed.
(** The device after [n] blocks from block [q] on were written, for a record
    that is in the range written or lies in an older block that was not hit. *)
Lemma written_records this this' q e k x : rekeyed this this' -> blocks_ok this ->
  (offset_of q + Z.to_nat (e - q + 1) <= Z.to_nat BLOCKS_PER_SEGMENT)%nat ->
  (forall j, (j < Z.to_nat (e - q + 1))%nat ->
     stores_records (jr_dev this') (journal_region_start (jr_superblock this)) ((q + Z.of_nat j) mod MAX_BLOCKS) (buffer_block this (offset_of q + j))) ->
  (forall b, (forall j, (j < Z.to_nat (e - q + 1))%nat -> b <> journal_region_start (jr_superblock this) + (q + Z.of_nat j) mod MAX_BLOCKS) ->
     dev_read (jr_dev this') b = dev_read (jr_dev this) b) ->
  e < k / RECORDS_PER_BLOCK + MAX_BLOCKS ->
  (q <= k / RECORDS_PER_BLOCK <= e -> mem_record this k = x) ->
  (k / RECORDS_PER_BLOCK < q -> disk_record this k x) ->
  k / RECORDS_PER_BLOCK <= e -> disk_record this' k x.
Proof.
  intros Hrk Hok Hfit Hst Hsame Hun Hmem Hdisk Hle. unfold disk_record. rewrite (rk_superblock _ _ Hrk).
  destruct (Z.lt_ge_cases (k / RECORDS_PER_BLOCK) q) as [Hlt|Hge].
  - destruct (Hdisk Hlt) as (plain & (blk & key & Hb & Hrest) & Hx). exists plain. split; [|done]. exists blk, key. split; [|done].
    rewrite Hsame; [done|]. intros j Hj Heq. set (K := k / RECORDS_PER_BLOCK) in *. clearbody K.
    change MAX_BLOCKS with 16384 in *. assert (K mod 16384 = (q + Z.of_nat j) mod 16384) as Hm by lia. clear Heq. divmod_lia.
  - set (j := Z.to_nat (k / RECORDS_PER_BLOCK - q)). destruct (Hst j ltac:(lia)) as (plain & Hplain & Hrec).
    assert (q + Z.of_nat j = k / RECORDS_PER_BLOCK) as Hj by lia. rewrite Hj in Hplain. exists plain. split; [done|].
    rewrite Hrec by apply slot_of_bound. rewrite <- Hmem by lia. unfold mem_record. rewrite <- Hj. by rewrite offset_add by lia.
Qed.

(** The fields of the superblock that no operation changes. *)
Definition superblock_layout (sb : superblock) : superblock := with_csum (with_last_checkpoint_pack (with_record_range sb 0 0) 0) 0.

Definition same_layout this this' : Prop := superblock_layout (jr_superblock this') = superblock_layout (jr_superblock this).

Lemma synchronize_ok this l : journal_inv this l ->
  exists this', journal_synchronize this = Some this' /\ journal_ok this' (log_sync l) /\ same_layout this this'.
Proof.
  intros [Hok Hw Hwr Hstart Hend Hsync Hseg Hpend Hmem Hdisk Hsb]. unfold journal_synchronize, log_sync. rewrite Hsync, Hend.
  set (n := jl_end l) in *. set (s := jl_synced l) in *. destruct Hw as [Hw1 Hw2].
  assert (s < n -> n - s < MAX_RECORDS) as Hgap.
  { intros Hlt. destruct Hpend as [|Hp]; [lia|]. change RECORDS_PER_SEGMENT with 31744 in *. change MAX_RECORDS with 507904.
    clearbody s n. clear -Hp. divmod_lia. }
  destruct (Z.eqb_spec (s mod MAX_RECORDS) (n mod MAX_RECORDS)) as [Heq|Hne].
  { assert (s = n) as Hsn.
    { destruct (Z.lt_ge_cases s n) as [Hlt|]; [|lia]. specialize (Hgap Hlt). change MAX_RECORDS with 507904 in *.
      clearbody s n. clear -Hlt Hgap Heq. divmod_lia. }
    rewrite Hsn, Z.eqb_refl. exists this. split; [done|]. split; [|done]. split; [by split|left; exact Hsn]. }
  assert (s < n) as Hlt. { destruct (Z.eq_dec s n) as [e|]; [by rewrite e in Hne|lia]. }
  destruct Hpend as [|Hpend]; [lia|]. destruct (Z.eqb_spec s n) as [|_]; [lia|].
  destruct (sync_count_ok s n ltac:(lia) Hpend) as [-> Hfit]. rewrite position_block by lia.
  set (q := s / RECORDS_PER_BLOCK) in *. set (e := (n - 1) / RECORDS_PER_BLOCK) in *.
  assert (0 <= q) as Hq by (apply Z.div_pos; done || lia).
  assert (q <= e) as Hqe by (apply Z.div_le_mono; done || lia).
  assert (offset_of q + Z.to_nat (e - q + 1) <= Z.to_nat BLOCKS_PER_SEGMENT)%nat as Hfit'.
  { unfold offset_of. pose proof (Z.mod_pos_bound q BLOCKS_PER_SEGMENT eq_refl). lia. }
  destruct (write_blocks_ok (Z.to_nat (e - q + 1)) this q Hq Hok) as (this1 & -> & Hrk & Hst & Hsame).
  { intros _. split; [|done]. unfold in_segment, q. by rewrite Hseg, <- segment_of_block, Hpend. }
  eexists. split; [done|]. pose proof (written_records this this1 q e) as Hwritten. split; [split; [|by left]|].
  2: { unfold same_layout. cbn [jr_superblock with_superblock with_status write_superblock with_last_sync].
    rewrite (rk_superblock _ _ Hrk). by destruct (dm_bufio_read _ _).2. }
  split; cbn [jl_start jl_saved jl_synced jl_records with_status jr_blocks]; change (jl_end {| jl_records := jl_records l; jl_start := _; jl_synced := _; jl_saved := _ |}) with n.
  - exact (rk_blocks _ _ Hrk).
  - lia.
  - lia.
  - exact (eq_trans (rk_start _ _ Hrk) Hstart).
  - exact (eq_trans (rk_end _ _ Hrk) Hend).
  - exact (eq_trans (rk_end _ _ Hrk) Hend).
  - exact (eq_trans (rk_segno _ _ Hrk) Hseg).
  - by left.
  - intros k x Hk Hblk Hx. change (mem_record this1 k = x). rewrite (rekeyed_mem this this1 k Hrk). apply (Hmem k x Hk); [|exact Hx].
    transitivity (n / RECORDS_PER_BLOCK); [apply Z.div_le_mono; done || lia|done].
  - intros k x Hk Hun Hx. enough (disk_record this1 k x) as Hd.
    { destruct Hd as (plain & Hd). exists plain. cbn [jr_dev jr_superblock with_superblock with_status write_superblock].
      by destruct (dm_bufio_read _ _).2. }
    apply (Hwritten k x); try done.
    + intros [Hb _]. by apply Hmem.
    + intros Hb. apply (Hdisk k x); [|unfold unclobbered in *|exact Hx].
      * assert (k < s); [|lia]. unfold q in Hb. destruct (Z.lt_ge_cases k s) as [|Hge]; [done|].
        pose proof (Z.div_le_mono s k RECORDS_PER_BLOCK eq_refl Hge). lia.
      * eapply Z.le_lt_trans; [|exact Hun]. apply Z.div_le_mono; done || lia.
    + apply Z.div_le_mono; done || lia.
  - pose proof (rk_start _ _ Hrk) as Hs1. pose proof (rk_end _ _ Hrk) as He1.
    cbn [jr_superblock with_superblock with_status write_superblock]. destruct (dm_bufio_read _ _).2; cbn; split; congruence.
Qed.
Lemma with_buffer_segno_id this : with_buffer_segno this (jr_segno this) = this.
Proof. by destruct this. Qed.

Lemma first_of_block k : 0 <= k -> k mod RECORDS_PER_SEGMENT = 0 ->
  u64 ((k / RECORDS_PER_BLOCK) mod MAX_BLOCKS * RECORDS_PER_BLOCK) = k mod MAX_RECORDS.
Proof.
  intros Hk Hz. assert (0 <= (k / RECORDS_PER_BLOCK) mod MAX_BLOCKS * RECORDS_PER_BLOCK < 2 ^ 64) as Hb.
  { pose proof (Z.mod_pos_bound (k / RECORDS_PER_BLOCK) MAX_BLOCKS eq_refl) as Hb. set (b := (k / RECORDS_PER_BLOCK) mod MAX_BLOCKS) in *.
    change MAX_BLOCKS with 16384 in Hb. change RECORDS_PER_BLOCK with 31. clearbody b. clear -Hb. lia. }
  rewrite u64_small by exact Hb. clear Hb. rewrite <- position_block by lia.
  change RECORDS_PER_SEGMENT with 31744 in *. change MAX_RECORDS with 507904. change RECORDS_PER_BLOCK with 31. clear -Hz. divmod_lia.
Qed.

(** The block of the next record; at the start of a segment the buffer moves on
    to it without reading anything. *)
Lemma get_block_end this l : journal_ok this l ->
  journal_get_block this (jr_record_end this / RECORDS_PER_BLOCK) =
    Some (with_buffer_segno this ((jl_end l / RECORDS_PER_SEGMENT) mod NR_JOURNAL_SEGMENT), offset_of (jl_end l / RECORDS_PER_BLOCK)).
Proof.
  intros [[Hok Hw Hwr Hstart Hend Hsync Hseg Hpend Hmem Hdisk Hsb] _]. destruct Hw as [Hw1 Hw2]. rewrite Hend, position_block by lia.
  set (n := jl_end l) in *. unfold journal_get_block.
  destruct (Z.eq_dec (n mod RECORDS_PER_SEGMENT) 0) as [Hz|Hnz].
  - unfold get_block_with. rewrite i32_segment, <- segment_of_block, block_offset, Hseg.
    assert ((n / RECORDS_PER_SEGMENT) mod NR_JOURNAL_SEGMENT <> ((n - 1) / RECORDS_PER_SEGMENT) mod NR_JOURNAL_SEGMENT) as Hne.
    { change RECORDS_PER_SEGMENT with 31744 in *. change NR_JOURNAL_SEGMENT with 16. clear -Hz. divmod_lia. }
    destruct (Z.eqb_spec ((n / RECORDS_PER_SEGMENT) mod NR_JOURNAL_SEGMENT) (((n - 1) / RECORDS_PER_SEGMENT) mod NR_JOURNAL_SEGMENT)) as [|_]; [done|].
    cbn [negb]. unfold journal_buffer_load. change (load_nested 1) with (load_with (load_nested 0)).
    assert (u64 ((n / RECORDS_PER_BLOCK) mod MAX_BLOCKS * RECORDS_PER_BLOCK) = n mod MAX_RECORDS) as -> by (apply first_of_block; [lia|exact Hz]).
    unfold load_with. rewrite Hend. fold n. rewrite position_segment by lia.
    pose proof (Z.mod_pos_bound (n / RECORDS_PER_SEGMENT) NR_JOURNAL_SEGMENT eq_refl) as Hb.
    rewrite i32_small by (change NR_JOURNAL_SEGMENT with 16 in *; lia).
    destruct (Z.leb_spec NR_JOURNAL_SEGMENT ((n / RECORDS_PER_SEGMENT) mod NR_JOURNAL_SEGMENT)) as [|_]; [lia|].
    by rewrite Z.eqb_refl.
  - assert ((n - 1) / RECORDS_PER_SEGMENT = n / RECORDS_PER_SEGMENT) as Hsame.
    { change RECORDS_PER_SEGMENT with 31744 in *. clear -Hnz. divmod_lia. }
    rewrite get_block_here by (unfold in_segment; by rewrite Hseg, Hsame, segment_of_block).
    by rewrite <- Hsame, <- Hseg, with_buffer_segno_id.
Qed.

(** The record as it is put into the buffer, before the test for a full segment. *)
Lemma push_ok this l r : journal_ok this l -> length r = RECORD_BYTES ->
  let this1 := with_buffer_segno this ((jl_end l / RECORDS_PER_SEGMENT) mod NR_JOURNAL_SEGMENT) in
  let o := offset_of (jl_end l / RECORDS_PER_BLOCK) in
  let this2 := set_block this1 o (record_store (buffer_block this1 o) (slot_of (jl_end l)) r) in
  journal_inv (with_records this2 (jl_start (log_push l (record_data r)) mod MAX_RECORDS) ((jl_end l + 1) mod MAX_RECORDS))
    (log_push l (record_data r)).
Proof.
  intros [[Hok Hw Hwr Hstart Hend Hsync Hseg Hpend Hmem Hdisk Hsb] Hfull] Hr this1 o this2. destruct Hw as [Hw1 Hw2].
  assert (jl_end (log_push l (record_data r)) = jl_end l + 1) as Hn' by (unfold jl_end; cbn [log_push jl_records]; rewrite length_app; cbn; lia).
  assert (forall k, k < jl_end l -> 0 <= k -> jl_record (log_push l (record_data r)) k = jl_record l k) as Hold.
  { intros k Hk H0k. unfold jl_record. cbn [log_push jl_records]. apply lookup_app_l. unfold jl_end in *. lia. }
  assert (jl_start l <= jl_start (log_push l (record_data r))) as Hge by (cbn [log_push jl_start]; case_bool; lia).
  destruct (blocks_ok_lookup this1 (jl_end l / RECORDS_PER_BLOCK) Hok) as [_ Hl].
  pose proof (slot_of_bound (jl_end l)) as Hslot.
  split; rewrite ?Hn'; cbn [jl_saved jl_synced log_push].
  - apply set_block_ok; [done|]. by apply record_store_length.
  - cbn [jl_start log_push] in *. case_bool; lia.
  - lia.
  - done.
  - done.
  - exact Hsync.
  - by replace (jl_end l + 1 - 1) with (jl_end l) by lia.
  - right. replace (jl_end l + 1 - 1) with (jl_end l) by lia. destruct Hpend as [<-|Hpend]; [done|]. destruct Hfull as [<-|Hfull]; [done|].
    rewrite Hpend. change RECORDS_PER_SEGMENT with 31744 in *. clear -Hfull. divmod_lia.
  - intros k x Hk Hblk Hx. unfold mem_record. change (buffer_block (with_records this2 _ _) ?b) with (buffer_block this2 b).
    destruct (Z.eq_dec k (jl_end l)) as [->|Hne].
    + unfold this2, o. rewrite buffer_block_set by done. rewrite record_store_same by done.
      unfold jl_record in Hx. cbn [log_push jl_records] in Hx. unfold jl_end in Hx. rewrite Nat2Z.id, lookup_app_r, Nat.sub_diag in Hx by done.
      by injection Hx.
    + rewrite Hold in Hx by lia. rewrite <- (Hmem k x ltac:(lia) Hblk Hx). unfold mem_record.
      destruct (decide (offset_of (k / RECORDS_PER_BLOCK) = o)) as [Heq|Hne'].
      * rewrite Heq. unfold this2, o. rewrite buffer_block_set by done. change (buffer_block this1 ?b) with (buffer_block this b) in *.
        rewrite record_store_other; [done..|by apply slot_of_bound|]. intros Hs. apply Hne.
        (* the same block and slot within the segment: the same record *)
        unfold o, offset_of, slot_of in Heq, Hs. apply Z2Nat.inj in Hs; [|apply Z.mod_pos_bound; done..].
        apply Z2Nat.inj in Heq; [|apply Z.mod_pos_bound; done..].
        assert (jl_synced l / RECORDS_PER_SEGMENT = jl_end l / RECORDS_PER_SEGMENT) as Hse.
        { destruct Hpend as [<-|Hpend]; [done|]. destruct Hfull as [<-|Hfull]; [done|].
          rewrite Hpend. change RECORDS_PER_SEGMENT with 31744 in *. clear -Hfull. divmod_lia. }
        assert (k / RECORDS_PER_BLOCK <= jl_end l / RECORDS_PER_BLOCK) as Hle by (apply Z.div_le_mono; done || lia).
        rewrite !segment_of_block in Hse. set (S := jl_synced l / RECORDS_PER_BLOCK) in *. set (K := k / RECORDS_PER_BLOCK) in *.
        set (N := jl_end l / RECORDS_PER_BLOCK) in *.
        assert (K = N) as HKN. { change BLOCKS_PER_SEGMENT with 1024 in *. clearbody S K N. clear -Heq Hse Hle Hblk. divmod_lia. }
        rewrite (Z.div_mod k RECORDS_PER_BLOCK), (Z.div_mod (jl_end l) RECORDS_PER_BLOCK) by done. fold K N. by rewrite HKN, Hs.
      * unfold this2. rewrite buffer_block_set_ne by congruence. done.
  - intros k x Hk Hun Hx. rewrite Hold in Hx by lia. exact (Hdisk k x Hk Hun Hx).
  - exact Hsb.
Qed.

Lemma add_record_ok this l r : journal_ok this l -> length r = RECORD_BYTES ->
  exists this', journal_add_record this r = Some (this', jl_end l mod MAX_RECORDS) /\ journal_ok this' (log_add l (record_data r)) /\
    same_layout this this'.
Proof.
  intros Hjok Hr. pose proof (push_ok this l r Hjok Hr) as Hpush. cbv zeta in Hpush.
  unfold journal_add_record. rewrite (get_block_end this l Hjok).
  destruct Hjok as [[Hok Hw Hwr Hstart Hend Hsync Hseg Hpend Hmem Hdisk Hsb] Hfull]. destruct Hw as [Hw1 Hw2].
  set (n := jl_end l) in *. set (seg := (n / RECORDS_PER_SEGMENT) mod NR_JOURNAL_SEGMENT) in *.
  cbn [jr_record_end jr_record_start set_block with_blocks with_buffer_segno]. rewrite Hend, Hstart. rewrite position_slot by lia.
  change (Z.to_nat (n mod RECORDS_PER_BLOCK)) with (slot_of n).
  assert ((n mod MAX_RECORDS + 1) mod MAX_RECORDS = (n + 1) mod MAX_RECORDS) as -> by (by rewrite Z.add_mod_idemp_l).
  assert ((if (n + 1) mod MAX_RECORDS =? jl_start l mod MAX_RECORDS then (jl_start l mod MAX_RECORDS + 1) mod MAX_RECORDS else jl_start l mod MAX_RECORDS)
    = jl_start (log_push l (record_data r)) mod MAX_RECORDS) as ->.
  { cbn [log_push jl_start]. fold n. rewrite Z.add_mod_idemp_l by done.
    assert ((n + 1) mod MAX_RECORDS = jl_start l mod MAX_RECORDS <-> n + 1 = jl_start l + MAX_RECORDS) as Hiff.
    { change MAX_RECORDS with 507904 in *. clearbody n. clear -Hw2. split; intros; divmod_lia. }
    destruct (Z.eqb_spec ((n + 1) mod MAX_RECORDS) (jl_start l mod MAX_RECORDS)), (Z.eqb_spec (n + 1) (jl_start l + MAX_RECORDS)); tauto. }
  set (this2 := with_records _ _ _) in *.
  assert (jr_segno this2 = seg) as Hseg2 by done. assert (jr_record_end this2 = (n + 1) mod MAX_RECORDS) as Hend2 by done.
  assert (journal_should_sync this2 = ((n + 1) mod RECORDS_PER_SEGMENT =? 0)) as Hshould.
  { unfold journal_should_sync. rewrite Hseg2, Hend2, position_segment by lia.
    rewrite i32_small by (pose proof (Z.mod_pos_bound ((n + 1) / RECORDS_PER_SEGMENT) NR_JOURNAL_SEGMENT eq_refl); change NR_JOURNAL_SEGMENT with 16 in *; lia).
    unfold seg. assert (((n + 1) / RECORDS_PER_SEGMENT) mod NR_JOURNAL_SEGMENT = (n / RECORDS_PER_SEGMENT) mod NR_JOURNAL_SEGMENT <->
      (n + 1) mod RECORDS_PER_SEGMENT <> 0) as Hiff.
    { change RECORDS_PER_SEGMENT with 31744. change NR_JOURNAL_SEGMENT with 16. clear. split; intros; divmod_lia. }
    destruct (Z.eqb_spec ((n + 1) mod RECORDS_PER_SEGMENT) 0), (Z.eqb_spec (((n + 1) / RECORDS_PER_SEGMENT) mod NR_JOURNAL_SEGMENT) ((n / RECORDS_PER_SEGMENT) mod NR_JOURNAL_SEGMENT)); tauto. }
  rewrite Hshould. unfold log_add. fold n. destruct (Z.eqb_spec ((n + 1) mod RECORDS_PER_SEGMENT) 0) as [Hz|Hnz].
  - destruct (synchronize_ok (with_status this2 JOURNAL_SYNCHRONIZING) (log_push l (record_data r))) as (this' & -> & Hok' & Hlay); [by destruct Hpush; split|].
    by exists this'.
  - exists this2. split; [done|]. split; [|done]. split; [exact Hpush|right].
    assert (jl_end (log_push l (record_data r)) = n + 1) as -> by (unfold n, jl_end; cbn [log_push jl_records]; rewrite length_app; cbn; lia). done.
Qed.
(** ** Recovery *)

(** The buffer has what the device has of the segment of [k], from [k] on. *)
Definition segment_loaded this (k n : Z) : Prop :=
  jr_segno this = (k / RECORDS_PER_SEGMENT) mod NR_JOURNAL_SEGMENT /\
  forall k' x, k <= k' < n -> k' / RECORDS_PER_SEGMENT = k / RECORDS_PER_SEGMENT -> disk_record this k' x -> mem_record this k' = x.

(** [get_block] for the record [k] the loop looks at. *)
Lemma get_block_recover this k n : blocks_ok this -> 0 <= k < n -> n <= k + MAX_RECORDS - 1 ->
  jr_record_end this = n mod MAX_RECORDS ->
  segment_loaded this k n \/ (k mod RECORDS_PER_SEGMENT = 0 /\ jr_segno this <> (k / RECORDS_PER_SEGMENT) mod NR_JOURNAL_SEGMENT) ->
  exists this', journal_get_block this ((k mod MAX_RECORDS) / RECORDS_PER_BLOCK) = Some (this', offset_of (k / RECORDS_PER_BLOCK)) /\
    reloaded this this' /\ segment_loaded this' k n /\ (segment_loaded this k n -> this' = this).
Proof.
  intros Hok Hk Hn Hend Hst. rewrite position_block by lia. unfold journal_get_block.
  destruct (Z.eq_dec (jr_segno this) ((k / RECORDS_PER_SEGMENT) mod NR_JOURNAL_SEGMENT)) as [Heq|Hne].
  - rewrite get_block_here by (unfold in_segment; by rewrite Heq, segment_of_block). exists this. split; [done|]. split; [by split|].
    split; [|done]. destruct Hst as [Hst|[_ Hst]]; [exact Hst|congruence].
  - destruct Hst as [[Hst _]|[Hz _]]; [congruence|].
    unfold get_block_with. rewrite i32_segment, <- segment_of_block, block_offset.
    destruct (Z.eqb_spec ((k / RECORDS_PER_SEGMENT) mod NR_JOURNAL_SEGMENT) (jr_segno this)) as [|_]; [congruence|]. cbn [negb].
    assert (u64 ((k / RECORDS_PER_BLOCK) mod MAX_BLOCKS * RECORDS_PER_BLOCK) = k mod MAX_RECORDS) as -> by (by apply first_of_block; lia).
    destruct (load_ok this k n Hok Hk Hn) as (this' & Hload & Hrl & Hseg & _ & Hmem). rewrite Hend, Hload.
    exists this'. split; [done|]. split; [exact Hrl|]. split; [|intros [Hs _]; congruence].
    split; [exact Hseg|]. intros k' x Hk' Hs Hd. apply (Hmem k' x Hk' Hs). revert Hd. apply disk_record_frame; symmetry; apply Hrl.
Qed.

Lemma same_segment_next k n : k + 1 < n -> k / RECORDS_PER_SEGMENT = (n - 1) / RECORDS_PER_SEGMENT ->
  (k + 1) / RECORDS_PER_SEGMENT = k / RECORDS_PER_SEGMENT.
Proof. change RECORDS_PER_SEGMENT with 31744. clear. intros Hk Hs. divmod_lia. Qed.

Lemma recover_loop_ok n fuel : forall this k, 0 <= k <= n -> n <= k + MAX_RECORDS - 1 -> n - k < Z.of_nat fuel ->
  blocks_ok this -> jr_record_end this = n mod MAX_RECORDS ->
  (k < n -> segment_loaded this k n \/ (k mod RECORDS_PER_SEGMENT = 0 /\ jr_segno this <> (k / RECORDS_PER_SEGMENT) mod NR_JOURNAL_SEGMENT)) ->
  exists this' rs, recover_loop fuel this (k mod MAX_RECORDS) = Some (this', rs) /\ reloaded this this' /\
    Z.of_nat (length rs) = n - k /\
    (forall k' x, k <= k' < n -> disk_record this k' x -> option_map record_data (rs !! Z.to_nat (k' - k)) = Some x) /\
    ((k < n -> segment_loaded this k n /\ k / RECORDS_PER_SEGMENT = (n - 1) / RECORDS_PER_SEGMENT) -> this' = this) /\
    (k < n -> jr_segno this' = ((n - 1) / RECORDS_PER_SEGMENT) mod NR_JOURNAL_SEGMENT /\
       forall k' x, k <= k' < n -> k' / RECORDS_PER_SEGMENT = (n - 1) / RECORDS_PER_SEGMENT -> disk_record this k' x -> mem_record this' k' = x).
Proof.
  induction fuel as [|fuel IH]; intros this k Hk Hn Hfuel Hok Hend Hst; [lia|]. cbn [recover_loop]. rewrite Hend.
  destruct (Z.eqb_spec (k mod MAX_RECORDS) (n mod MAX_RECORDS)) as [Heq|Hne].
  { assert (k = n) as ->. { change MAX_RECORDS with 507904 in *. clear -Heq Hk Hn. divmod_lia. }
    exists this, []. split; [done|]. split; [by split|]. split; [cbn [length]; lia|]. split; [intros; lia|]. split; [done|lia]. }
  assert (k < n) as Hlt. { destruct (Z.eq_dec k n) as [->|]; [done|lia]. }
  destruct (get_block_recover this k n Hok ltac:(lia) Hn Hend (Hst Hlt)) as (this1 & -> & Hrl & Hl1 & Hid).
  rewrite position_slot by lia. change (Z.to_nat (k mod RECORDS_PER_BLOCK)) with (slot_of k).
  assert ((k mod MAX_RECORDS + 1) mod MAX_RECORDS = (k + 1) mod MAX_RECORDS) as -> by (by rewrite Z.add_mod_idemp_l).
  pose proof (rl_end _ _ Hrl) as Hend1. rewrite Hend in Hend1.
  assert (forall k' x, disk_record this k' x -> disk_record this1 k' x) as Hdisk
    by (intros k' x; apply disk_record_frame; [apply (rl_superblock _ _ Hrl)|apply (rl_dev _ _ Hrl)]).
  assert ((k + 1) / RECORDS_PER_SEGMENT = k / RECORDS_PER_SEGMENT -> segment_loaded this1 (k + 1) n) as Hsame.
  { intros Hs. split; [rewrite Hs; apply Hl1|]. intros k' x Hk'. rewrite Hs. apply Hl1. lia. }
  destruct (IH this1 (k + 1)) as (this2 & rs & -> & Hrl2 & Hlen & Hvis & Hid2 & Hlast); [lia|lia|lia|apply Hrl|exact Hend1| |].
  { intros Hlt'. destruct (Z.eq_dec ((k + 1) / RECORDS_PER_SEGMENT) (k / RECORDS_PER_SEGMENT)) as [Hs|Hs]; [by left; apply Hsame|right].
    rewrite (proj1 Hl1). change RECORDS_PER_SEGMENT with 31744 in *. change NR_JOURNAL_SEGMENT with 16. clear -Hs. split; divmod_lia. }
  eexists this2, _. split; [done|]. split; [by eapply reloaded_trans|]. split; [cbn [length]; lia|]. split; [|split].
  - intros k' x Hk' Hd. destruct (Z.eq_dec k' k) as [->|Hne'].
    + rewrite Z.sub_diag. change (Some (mem_record this1 k) = Some x). f_equal. apply (proj2 Hl1 k x); [lia|done|by apply Hdisk].
    + replace (Z.to_nat (k' - k)) with (S (Z.to_nat (k' - (k + 1)))) by lia. apply Hvis; [lia|by apply Hdisk].
  - intros Hld. destruct (Hld Hlt) as [Hl Hs]. specialize (Hid Hl). subst this1. apply Hid2. intros Hlt'.
    assert ((k + 1) / RECORDS_PER_SEGMENT = k / RECORDS_PER_SEGMENT) as Hs' by (apply same_segment_next with n; [lia|done]).
    split; [by apply Hsame|by rewrite Hs'].
  - intros _. destruct (Z.eq_dec (k + 1) n) as [<-|Hn1].
    { rewrite Hid2 by lia. replace (k + 1 - 1) with k by lia. split; [apply Hl1|]. intros k' x Hk' Hs Hd. apply Hl1; [lia|done|by apply Hdisk]. }
    destruct (Hlast ltac:(lia)) as [Hseg Hmem]. split; [exact Hseg|]. intros k' x Hk' Hs Hd.
    destruct (Z.eq_dec k' k) as [->|Hne']; [|apply Hmem; [lia|done|by apply Hdisk]].
    assert ((k + 1) / RECORDS_PER_SEGMENT = k / RECORDS_PER_SEGMENT) as Hs' by (apply same_segment_next with n; [lia|done]).
    rewrite Hid2; [apply Hl1; [lia|done|by apply Hdisk]|]. intros _. split; [by apply Hsame|by rewrite Hs'].
Qed.
Lemma disk_record_device this this' k x : jr_dev this' = jr_dev this ->
  journal_region_start (jr_superblock this') = journal_region_start (jr_superblock this) -> disk_record this k x -> disk_record this' k x.
Proof. intros Hd Hs. unfold disk_record. by rewrite Hs, Hd. Qed.

(** The object that a restart works on after the first assignments. *)
Definition init_object this (sb : superblock) : journal_region :=
  with_blocks (with_records (with_status (with_superblock this sb (jr_bufio this)) JOURNAL_UNINITIALIZED) (record_start sb) (record_end sb))
    (replicate (Z.to_nat BLOCKS_PER_SEGMENT) (replicate JOURNAL_BLOCK_SIZE 0)).

Lemma init_object_ok this sb : blocks_ok (init_object this sb).
Proof.
  split; cbn [init_object jr_blocks with_blocks]; [by rewrite length_replicate|].
  apply Forall_replicate. by rewrite length_replicate.
Qed.

(** What a restart makes of the log: the window the superblock names. *)
Definition log_restart (l : journal_log) : journal_log :=
  {| jl_records := take (Z.to_nat (jl_synced l)) (jl_records l); jl_start := jl_saved l;
     jl_synced := jl_synced l; jl_saved := jl_saved l |}.

Lemma recover_ok this n k : 0 <= k < n -> n <= k + MAX_RECORDS - 1 -> blocks_ok this ->
  jr_record_start this = k mod MAX_RECORDS -> jr_record_end this = n mod MAX_RECORDS -> segment_loaded this k n ->
  exists this' rs, journal_recover this = Some (this', rs) /\ reloaded this this' /\ jr_status this' = JOURNAL_READY /\
    jr_last_sync_record this' = n mod MAX_RECORDS /\ Z.of_nat (length rs) = n - k /\
    (forall k' x, k <= k' < n -> disk_record this k' x -> option_map record_data (rs !! Z.to_nat (k' - k)) = Some x) /\
    jr_segno this' = ((n - 1) / RECORDS_PER_SEGMENT) mod NR_JOURNAL_SEGMENT /\
    (forall k' x, k <= k' < n -> k' / RECORDS_PER_SEGMENT = (n - 1) / RECORDS_PER_SEGMENT -> disk_record this k' x -> mem_record this' k' = x).
Proof.
  intros Hk Hn Hok Hstart Hend Hl. unfold journal_recover. rewrite Hstart.
  destruct (recover_loop_ok n (Z.to_nat MAX_RECORDS) this k) as (this' & rs & -> & Hrl & Hlen & Hvis & _ & Hlast);
    [lia|lia|lia|done|done|by left|]. destruct (Hlast ltac:(lia)) as [Hseg Hmem].
  eexists _, rs. split; [done|]. split; [destruct Hrl; by split|]. split; [done|].
  split; [exact (eq_trans (rl_end _ _ Hrl) Hend)|]. split; [done|]. split; [done|]. by split.
Qed.

Lemma restart_ok this l this0 sb r : journal_ok this l ->
  jr_dev this0 = jr_dev this -> journal_region_start sb = journal_region_start (jr_superblock this) ->
  record_start sb = record_start (jr_superblock this) -> record_end sb = record_end (jr_superblock this) ->
  jl_saved l + 1 < jl_synced l ->
  exists this' rs, journal_region_init this0 sb r = Some (this', rs, Ok tt) /\ journal_ok this' (log_restart l) /\
    Z.of_nat (length rs) = jl_synced l - jl_saved l /\
    forall k, jl_saved l <= k < jl_synced l -> unclobbered (jl_synced l) k ->
      option_map record_data (rs !! Z.to_nat (k - jl_saved l)) = jl_record l k.
Proof.
  intros [[Hok Hw Hwr Hstart Hend Hsync Hseg Hpend Hmem Hdisk Hsb] _] Hdev Hjrs Hss Hse Htwo.
  destruct Hsb as [Hsb1 Hsb2]. destruct Hw as [Hw1 Hw2]. destruct Hwr as [Hwr1 Hwr2].
  unfold journal_region_init. fold (init_object this0 sb). set (this1 := init_object this0 sb).
  assert (jr_record_start this1 = jl_saved l mod MAX_RECORDS) as Hst1 by exact (eq_trans Hss Hsb1).
  assert (jr_record_end this1 = jl_synced l mod MAX_RECORDS) as He1 by exact (eq_trans Hse Hsb2).
  assert (forall k x, jl_saved l <= k < jl_synced l -> unclobbered (jl_synced l) k -> jl_record l k = Some x -> disk_record this1 k x) as Hd1.
  { intros k x Hk Hun Hx. specialize (Hdisk k x Hk Hun Hx). revert Hdisk. by apply disk_record_device. }
  rewrite Hst1, He1. destruct (Z.eqb_spec (jl_saved l mod MAX_RECORDS) (jl_synced l mod MAX_RECORDS)) as [Heq|_].
  { exfalso. clear -Heq Htwo Hwr2. change MAX_RECORDS with 507904 in *. divmod_lia. }
  cbn [negb]. destruct (load_ok this1 (jl_saved l) (jl_synced l) (init_object_ok _ _)) as (this2 & -> & Hrl2 & Hseg2 & [-> _] & Hmem2); [lia|lia|].
  unfold journal_should_recover. rewrite (rl_start _ _ Hrl2), (rl_end _ _ Hrl2), Hst1, He1, Z.add_mod_idemp_l by done.
  destruct (Z.eqb_spec (jl_synced l mod MAX_RECORDS) ((jl_saved l + 1) mod MAX_RECORDS)) as [Heq|_].
  { exfalso. clear -Heq Htwo Hwr2. change MAX_RECORDS with 507904 in *. divmod_lia. }
  assert (forall k x, disk_record this1 k x -> disk_record this2 k x) as Hd12
    by (intros k x; apply disk_record_frame; [apply (rl_superblock _ _ Hrl2)|apply (rl_dev _ _ Hrl2)]).
  destruct (recover_ok (with_status this2 JOURNAL_RECOVERING) (jl_synced l) (jl_saved l))
    as (this3 & rs & -> & Hrl3 & -> & Hls3 & Hlen & Hvis & Hseg3 & Hmem3); [lia|lia|apply Hrl2| | | |].
  { exact (eq_trans (rl_start _ _ Hrl2) Hst1). }
  { exact (eq_trans (rl_end _ _ Hrl2) He1). }
  { split; [exact Hseg2|]. intros k' x Hk' Hs Hd. apply (Hmem2 k' x Hk' Hs). revert Hd. apply disk_record_device; symmetry; [apply Hrl2|].
    cbn. by rewrite (rl_superblock _ _ Hrl2). }
  assert (forall k x, jl_saved l <= k < jl_synced l -> unclobbered (jl_synced l) k -> jl_record l k = Some x ->
    disk_record (with_status this2 JOURNAL_RECOVERING) k x) as Hd2 by (intros k x Hk Hun Hx; exact (Hd12 k x (Hd1 k x Hk Hun Hx))).
  assert (forall k, 0 <= k < jl_synced l -> jl_record (log_restart l) k = jl_record l k) as Hold.
  { intros k Hk. unfold jl_record. cbn [log_restart jl_records]. apply lookup_take_lt. lia. }
  assert (jl_end (log_restart l) = jl_synced l) as Hn.
  { unfold jl_end in *. cbn [log_restart jl_records]. rewrite length_take. lia. }
  exists this3, rs. split; [done|]. split; [|split; [done|]].
  - split; [|left; by rewrite Hn]. destruct Hrl3 as [Hok3 Hsb3 Hdev3 Hst3 He3]. cbn in Hsb3, Hdev3, Hst3, He3.
    split; rewrite ?Hn; cbn [log_restart jl_saved jl_start jl_synced]; try done; try lia.
    + rewrite Hst3, (rl_start _ _ Hrl2). exact Hst1.
    + rewrite He3, (rl_end _ _ Hrl2). exact He1.
    + intros k x Hk Hblk Hx. rewrite Hold in Hx by lia. apply Hmem3; [lia| |].
      * rewrite !segment_of_block. f_equal. apply Z.le_antisymm; [apply Z.div_le_mono; done || lia|].
        etransitivity; [|exact Hblk]. apply Z.div_le_mono; done || lia.
      * apply Hd2; [lia| |done]. unfold unclobbered.
        assert ((jl_synced l - 1) / RECORDS_PER_BLOCK <= jl_synced l / RECORDS_PER_BLOCK) by (apply Z.div_le_mono; done || lia).
        change MAX_BLOCKS with 16384. lia.
    + intros k x Hk Hun Hx. rewrite Hold in Hx by lia. specialize (Hd2 k x Hk Hun Hx). revert Hd2.
      apply disk_record_device; [exact Hdev3|by rewrite Hsb3].
    + rewrite Hsb3, (rl_superblock _ _ Hrl2). split; [exact (eq_trans Hss Hsb1)|exact (eq_trans Hse Hsb2)].
  - intros k Hk Hun. destruct (jl_record l k) as [x|] eqn:Hx.
    + apply Hvis; [lia|]. by apply Hd2.
    + unfold jl_record in Hx. apply lookup_ge_None in Hx. unfold jl_end in *. lia.
Qed.
(** A formatted device: the log starts with a checkpoint record. *)
Definition first_record (r : list Z) : list Z := splice 0 (le_encode 4 4) r.
Definition log_fresh (r : list Z) : journal_log :=
  {| jl_records := [record_data (first_record r)]; jl_start := 0; jl_synced := 0; jl_saved := 0 |}.

(** The first record of an empty ring. *)
Definition with_first_record this (r : list Z) : journal_region :=
  with_records (set_block this (offset_of 0) (record_store (buffer_block this (offset_of 0)) 0 r)) 0 1.

Lemma add_first_record this r : jr_segno this = 0 -> jr_record_start this = 0 -> jr_record_end this = 0 ->
  journal_add_record this r = Some (with_first_record this r, 0).
Proof.
  intros Hseg Hs He. unfold journal_add_record, journal_get_block. rewrite He.
  assert (0 / RECORDS_PER_BLOCK = 0 mod MAX_BLOCKS) as -> by done. rewrite get_block_here by done.
  assert (Z.to_nat (0 mod RECORDS_PER_BLOCK) = 0%nat) as Hz by done.
  change (jr_record_end (set_block this (offset_of 0) ?b)) with (jr_record_end this).
  change (jr_record_start (set_block this (offset_of 0) ?b)) with (jr_record_start this). rewrite He, Hs. set (b := record_store _ _ r).
  assert ((0 + 1) mod MAX_RECORDS = 1) as -> by done. cbn [Z.eqb].
  assert (journal_should_sync (with_records (set_block this (offset_of 0) b) 0 1) = false) as ->.
  { unfold journal_should_sync. cbn [jr_record_end jr_segno with_records set_block with_blocks]. by rewrite Hseg. }
  unfold with_first_record, b. by rewrite Hz.
Qed.

Lemma with_first_record_ok this r : blocks_ok this -> length r = RECORD_BYTES -> jr_segno this = 0 ->
  record_start (jr_superblock this) = 0 -> record_end (jr_superblock this) = 0 ->
  journal_ok (with_status (with_last_sync (with_first_record this r) 0) JOURNAL_READY)
    {| jl_records := [record_data r]; jl_start := 0; jl_synced := 0; jl_saved := 0 |}.
Proof.
  intros Hok Hr Hseg Hs He. destruct (blocks_ok_lookup this 0 Hok) as [_ Hl]. split; [|right; cbn [jl_synced]; done].
  assert (forall l x, l = {| jl_records := [x]; jl_start := 0; jl_synced := 0; jl_saved := 0 |} -> jl_end l = 1) as Hn by (by intros l x ->).
  split; cbn [jl_start jl_synced jl_saved]; rewrite ?(Hn _ _ eq_refl).
  - apply (set_block_ok this); [done|]. apply record_store_length; [done|done|lia].
  - change MAX_RECORDS with 507904. lia.
  - change MAX_RECORDS with 507904. lia.
  - done.
  - done.
  - done.
  - exact Hseg.
  - by right.
  - intros k x Hk _ Hx. assert (k = 0) as -> by lia. injection Hx as <-. unfold mem_record.
    assert (0 / RECORDS_PER_BLOCK = 0) as -> by done. assert (slot_of 0 = 0%nat) as -> by done.
    transitivity (record_data (record_at (record_store (buffer_block this (offset_of 0)) 0 r) 0)).
    + f_equal. f_equal. exact (buffer_block_set this 0 _ Hok).
    + apply record_store_same; [done|done|lia].
  - intros k x Hk. lia.
  - split; assumption.
Qed.

(** The part of [journal_region_init] after the fields are set. *)
Definition init_tail this1 (r : list Z) : option (journal_region * list (list Z) * result unit) :=
  match (if negb (jr_record_start this1 =? jr_record_end this1)
         then journal_buffer_load this1 (jr_record_start this1) (jr_record_end this1)
         else
           let this := with_buffer_segno this1 (i32 (jr_record_start this1 / RECORDS_PER_SEGMENT)) in
           match journal_add_record this (first_record r) with
           | None => None
           | Some (this, _) => Some (with_status (with_last_sync this (jr_record_start this)) JOURNAL_LOADED)
           end) with
  | None => None
  | Some this =>
      let '(this, recover) :=
        match jr_status this with
        | JOURNAL_LOADED => journal_should_recover this
        | _ => (this, false)
        end in
      match (if recover then journal_recover this else Some (this, [])) with
      | None => None
      | Some (this, rs) =>
          Some (this, rs, match jr_status this with JOURNAL_READY => Ok tt | _ => Err EAGAIN end)
      end
  end.

Lemma init_tail_fresh this1 r : jr_record_start this1 = 0 -> jr_record_end this1 = 0 ->
  init_tail this1 r = Some (with_status (with_last_sync (with_first_record (with_buffer_segno this1 0) (first_record r)) 0) JOURNAL_READY, [], Ok tt).
Proof.
  intros Hs1 He1. unfold init_tail.
  rewrite He1, Hs1. cbn [Z.eqb negb]. assert (i32 (0 / RECORDS_PER_SEGMENT) = 0) as -> by done.
  rewrite add_first_record by done.
  set (this2 := with_first_record _ _) in *.
  assert (jr_record_end this2 = 1) as He2 by done. assert (jr_record_start this2 = 0) as Hs2 by done. clearbody this2.
  rewrite Hs2. cbn [jr_status with_status]. unfold journal_should_recover.
  cbn [jr_record_end jr_record_start with_status with_last_sync]. rewrite He2, Hs2.
  assert ((0 + 1) mod MAX_RECORDS = 1) as -> by done. cbn [Z.eqb Pos.eqb jr_status with_status]. done.
Qed.

Lemma init_unfold this0 sb r : journal_region_init this0 sb r = init_tail (init_object this0 sb) r.
Proof. reflexivity. Qed.

Lemma fresh_ok this0 sb r : record_start sb = 0 -> record_end sb = 0 -> length r = RECORD_BYTES ->
  exists this, journal_region_init this0 sb r = Some (this, [], Ok tt) /\ journal_ok this (log_fresh r).
Proof.
  intros Hs He Hr. rewrite init_unfold, init_tail_fresh by done. eexists. split; [done|].
  apply with_first_record_ok; [apply (init_object_ok this0 sb)| |done|exact Hs|exact He].
  unfold first_record. rewrite splice_length; [done|]. rewrite Hr, le_encode_length. vm_compute. lia.
Qed.

Lemma fresh_superblock this0 sb r this rs res : record_start sb = 0 -> record_end sb = 0 ->
  journal_region_init this0 sb r = Some (this, rs, res) -> jr_superblock this = sb.
Proof. intros Hs He. rewrite init_unfold, init_tail_fresh by done. by intros [= <- _ _]. Qed.

(** ** The states of a journal *)

Inductive journal_op : Type := AddRecord (r : list Z) | Synchronize | Checkpoint (r : list Z).

Definition op_ok (op : journal_op) : Prop :=
  match op with AddRecord r | Checkpoint r => length r = RECORD_BYTES | Synchronize => True end.

Definition journal_op_run this (op : journal_op) : option journal_region :=
  match op with
  | AddRecord r => option_map fst (journal_add_record this r)
  | Synchronize => journal_synchronize this
  | Checkpoint r => journal_checkpoint this r
  end.

Definition log_op (l : journal_log) (op : journal_op) : journal_log :=
  match op with
  | AddRecord r => log_add l (record_data r)
  | Synchronize => log_sync l
  | Checkpoint r => log_checkpoint l (record_data r)
  end.

(** The superblock and the device a restart finds: those of the last state, and
    the object is any memory. *)
Definition restarts_on this this0 (sb : superblock) : Prop :=
  jr_dev this0 = jr_dev this /\ journal_region_start sb = journal_region_start (jr_superblock this) /\
  record_start sb = record_start (jr_superblock this) /\ record_end sb = record_end (jr_superblock this).

(** Reached from a formatted device by operations and restarts; a restart may
    come at any point between two operations. *)
Inductive journal_reached : journal_region -> journal_log -> Prop :=
  | reached_fresh this0 sb r this rs :
      record_start sb = 0 -> record_end sb = 0 -> length r = RECORD_BYTES ->
      journal_region_init this0 sb r = Some (this, rs, Ok tt) -> journal_reached this (log_fresh r)
  | reached_op this l op this' :
      journal_reached this l -> op_ok op -> journal_op_run this op = Some this' -> journal_reached this' (log_op l op)
  | reached_restart this l this0 sb r this' rs :
      journal_reached this l -> restarts_on this this0 sb -> jl_saved l + 1 < jl_synced l ->
      journal_region_init this0 sb r = Some (this', rs, Ok tt) -> journal_reached this' (log_restart l).

Lemma checkpoint_ok this l r : journal_ok this l -> length r = RECORD_BYTES ->
  exists this', journal_checkpoint this r = Some this' /\ journal_ok this' (log_checkpoint l (record_data r)) /\ same_layout this this'.
Proof.
  intros Hj Hr. destruct (add_record_ok this l r Hj Hr) as (this' & Hadd & [Hinv Hb] & Hlay). unfold journal_checkpoint. rewrite Hadd.
  eexists. split; [done|]. split; [|exact Hlay]. unfold log_checkpoint.
  assert (jl_end (log_add l (record_data r)) = jl_end l + 1) as Hn.
  { unfold log_add, log_sync, log_push, jl_end. repeat case_match; cbn [jl_records]; rewrite length_app; cbn; lia. }
  assert (jl_start (log_add l (record_data r)) <= jl_end l /\ jl_saved (log_add l (record_data r)) <= jl_end l) as [Hs1 Hs2].
  { destruct Hinv as [_ Hw _ _ _ _ _ _ _ _ _]. rewrite Hn in Hw. lia. }
  destruct Hinv as [Hok Hw Hwr Hstart Hend Hsync Hseg Hpend Hmem Hdisk Hsb]. split; [|exact Hb].
  set (l' := log_add l (record_data r)) in *.
  assert (jl_end {| jl_records := jl_records l'; jl_start := jl_end l; jl_synced := jl_synced l'; jl_saved := jl_saved l' |} = jl_end l') as Hn' by done.
  split; rewrite ?Hn'; cbn [jl_start jl_synced jl_saved jl_records]; try done.
  - rewrite Hn in *. change MAX_RECORDS with 507904 in *. lia.
  - intros k x Hk. apply Hmem. lia.
Qed.

Lemma op_run_ok this l op : journal_ok this l -> op_ok op ->
  exists this', journal_op_run this op = Some this' /\ journal_ok this' (log_op l op).
Proof.
  intros Hj Hop. destruct op as [r| |r]; cbn [journal_op_run log_op op_ok] in *.
  - destruct (add_record_ok this l r Hj Hop) as (this' & Hadd & Hok & _). exists this'. by rewrite Hadd.
  - destruct Hj as [Hinv _]. destruct (synchronize_ok this l Hinv) as (this' & Hrun & Hok & _). by exists this'.
  - destruct (checkpoint_ok this l r Hj Hop) as (this' & Hrun & Hok & _). by exists this'.
Qed.

Lemma reached_ok this l : journal_reached this l -> journal_ok this l.
Proof.
  induction 1 as [this0 sb r this rs Hs He Hr Hinit|this l op this' _ IH Hop Hrun|this l this0 sb r this' rs _ IH Hres Htwo Hinit].
  - destruct (fresh_ok this0 sb r Hs He Hr) as (this1 & Hinit1 & Hok). rewrite Hinit in Hinit1. by injection Hinit1 as <- _.
  - destruct (op_run_ok this l op IH Hop) as (this1 & Hrun1 & Hok). rewrite Hrun in Hrun1. by injection Hrun1 as <-.
  - destruct Hres as (Hdev & Hjrs & Hss & Hse).
    destruct (restart_ok this l this0 sb r IH Hdev Hjrs Hss Hse Htwo) as (this1 & rs1 & Hinit1 & Hok & _).
    rewrite Hinit in Hinit1. by injection Hinit1 as <- _.
Qed.



(** A journal with a single record is not recovered, and [last_sync_record]
    then keeps whatever the fresh memory of the object held. *)
Theorem journal_single_record this0 sb r k : 0 <= k < MAX_RECORDS -> record_start sb = k -> record_end sb = (k + 1) mod MAX_RECORDS ->
  exists this', journal_region_init this0 sb r = Some (this', [], Ok tt) /\ jr_last_sync_record this' = jr_last_sync_record this0.
Proof.
  intros Hk Hs He. rewrite init_unfold. unfold init_tail.
  set (this1 := init_object this0 sb). assert (jr_record_start this1 = k mod MAX_RECORDS) as Hs1 by (rewrite Z.mod_small by done; exact Hs).
  assert (jr_record_end this1 = (k + 1) mod MAX_RECORDS) as He1 by exact He.
  assert (blocks_ok this1) as Hok by apply init_object_ok. assert (jr_last_sync_record this1 = jr_last_sync_record this0) as Hls by done.
  clearbody this1. rewrite Hs1, He1. destruct (Z.eqb_spec (k mod MAX_RECORDS) ((k + 1) mod MAX_RECORDS)) as [Heq|_].
  { exfalso. change MAX_RECORDS with 507904 in *. clear -Heq. divmod_lia. }
  cbn [negb]. destruct (load_ok this1 k (k + 1) Hok) as (this2 & Hload & Hrl & _ & [Hst Hls2] & _); [lia|change MAX_RECORDS with 507904; lia|].
  rewrite Hload, Hst. unfold journal_should_recover. rewrite (rl_end _ _ Hrl), (rl_start _ _ Hrl), Hs1, He1, Z.add_mod_idemp_l, Z.eqb_refl by done.
  eexists. split; [done|]. cbn [jr_last_sync_record with_status]. by rewrite Hls2.
Qed.
End journal.

(** ** Concrete runs *)

Definition example_ecb (key data : list Z) : result (list Z) := Ok data.
Definition example_bytes (n : nat) : list Z := [Z.of_nat n].
Definition example_record : list Z := le_encode 4 1 ++ replicate 124 7.

(** Memory of any content, with the device of a formatted disk. *)
Definition example_region (d : dev) : journal_region :=
  {| jr_segno := 5; jr_previous_blk := []; jr_blocks := []; jr_superblock := example_superblock; jr_record_start := 77;
     jr_record_end := 3; jr_last_sync_record := 99; jr_status := JOURNAL_READY; jr_dev := d; jr_bufio := example_bufio; jr_tick := 0 |}.

Lemma example_derive_ok q : exists k, journal_derive_key example_ecb [] q = Ok k.
Proof. by eexists. Qed.

Lemma example_gcm_ok data key iv seq : exists out mac, aes_gcm_cipher_encrypt data key (Some iv) seq = Ok (out, mac).
Proof. by eexists _, _. Qed.

(** A journal on an empty device. *)
Lemma example_fresh : exists this,
  journal_reached [] [] example_ecb example_bytes example_bytes this (log_fresh example_record).
Proof.
  destruct (fresh_ok [] [] example_ecb example_bytes example_bytes (example_region (∅ : gmap Z (list Z))) example_superblock example_record eq_refl eq_refl eq_refl)
    as (this & Hinit & _).
  exists this. by apply (reached_fresh _ _ _ _ _ (example_region (∅ : gmap Z (list Z))) example_superblock example_record this []).
Qed.

(** Its state and its superblock. *)
Lemma example_journal : exists jr, journal_ok [] example_ecb jr (log_fresh example_record) /\ jr_superblock jr = example_superblock.
Proof.
  destruct (fresh_ok [] [] example_ecb example_bytes example_bytes (example_region (∅ : gmap Z (list Z))) example_superblock example_record eq_refl eq_refl eq_refl)
    as (jr & Hinit & Hok).
  exists jr. split; [exact Hok|]. by eapply fresh_superblock, Hinit.
Qed.

Lemma example_step this l op : journal_reached [] [] example_ecb example_bytes example_bytes this l -> op_ok op ->
  exists this', journal_reached [] [] example_ecb example_bytes example_bytes this' (log_op l op).
Proof.
  intros Hr Hop. destruct (op_run_ok [] [] example_ecb example_bytes example_bytes example_derive_ok example_gcm_ok this l op) as (this' & Hrun & _); [|done|].
  - by apply (reached_ok [] [] example_ecb example_bytes example_bytes example_derive_ok example_gcm_ok).
  - exists this'. by eapply reached_op.
Qed.

(** Three records, of which the last two were added by operations, all written. *)
Definition example_log : journal_log :=
  log_op (log_op (log_op (log_fresh example_record) (AddRecord example_record)) (AddRecord example_record)) Synchronize.

Lemma example_written_journal : exists this, journal_reached [] [] example_ecb example_bytes example_bytes this example_log.
Proof.
  destruct example_fresh as [this0 H0]. destruct (example_step _ _ (AddRecord example_record) H0 eq_refl) as [this1 H1].
  destruct (example_step _ _ (AddRecord example_record) H1 eq_refl) as [this2 H2]. by apply (example_step _ _ Synchronize H2).
Qed.



Lemma journal_single_record_witness : exists this',
  journal_region_init [] [] example_ecb example_bytes example_bytes (example_region (∅ : gmap Z (list Z)))
    (with_record_range example_superblock 8 9) [] = Some (this', [], Ok tt) /\
  jr_last_sync_record this' = 99.
Proof.
  refine (journal_single_record [] [] example_ecb example_bytes example_bytes (example_region (∅ : gmap Z (list Z)))
    (with_record_range example_superblock 8 9) [] 8 _ _ _); [split; [lia|reflexivity]|reflexivity|reflexivity].
Defined.
