(* ===== verification/Jindisk.v ===== *)
(** * Jindisk: the parts put together

    The paths that cross the components: flushing a buffer
    ([segment_buffer.c]), collecting a segment ([segment_allocator.c]), reading
    and writing ([dm-jindisk.c]). The state is [struct dm_jindisk] with the
    tables of its metadata, and the data region of the raw device. *)
From S2P Require Import Prelude Layout Bytes BlockIo RbTree Memtable DiskStructs SegValidator Rit Dst Cache BitFile BitLevel LsmTree Metadata Crypto SegmentBuffer SegmentAllocator.

Section jindisk.
Context `{BlockDevSpec} `{CryptoApiSpec}.
Context `{RbTreeSpec} `{NodeStoreSpec} `{LeafCacheSpec bit_leaf} `{BsearchSpec}.
Context `{ArraySpec reverse_index_entry} `{ArraySpec dst_entry} `{ArraySpec Z} `{!GroupArray}.

(** [j_seg] holds [meta->dst], [meta->seg_validator] and the count of the
    segment allocator. *)
Record jindisk : Type := Jindisk {
  j_data_start : Z;
  j_dev : dev;
  j_lsm_tree : lsm_tree;
  j_rit : reverse_index_table;
  j_seg : logging_state;
  j_seg_buffer : segment_buffer
}.

Implicit Types (j : jindisk).

(** ** Changing one part *)

Definition with_dev j (d : dev) : jindisk :=
  {| j_data_start := j_data_start j; j_dev := d; j_lsm_tree := j_lsm_tree j; j_rit := j_rit j;
     j_seg := j_seg j; j_seg_buffer := j_seg_buffer j |}.
Definition with_tree j (t : lsm_tree) : jindisk :=
  {| j_data_start := j_data_start j; j_dev := j_dev j; j_lsm_tree := t; j_rit := j_rit j;
     j_seg := j_seg j; j_seg_buffer := j_seg_buffer j |}.
Definition with_rit j (r : reverse_index_table) : jindisk :=
  {| j_data_start := j_data_start j; j_dev := j_dev j; j_lsm_tree := j_lsm_tree j; j_rit := r;
     j_seg := j_seg j; j_seg_buffer := j_seg_buffer j |}.
Definition with_seg j (s : logging_state) : jindisk :=
  {| j_data_start := j_data_start j; j_dev := j_dev j; j_lsm_tree := j_lsm_tree j; j_rit := j_rit j;
     j_seg := s; j_seg_buffer := j_seg_buffer j |}.
Definition with_buffer j (b : segment_buffer) : jindisk :=
  {| j_data_start := j_data_start j; j_dev := j_dev j; j_lsm_tree := j_lsm_tree j; j_rit := j_rit j;
     j_seg := j_seg j; j_seg_buffer := b |}.

Definition with_ls_dst (s : logging_state) (d : dst) : logging_state :=
  {| ls_dst := d; ls_svt := ls_svt s; ls_nr_valid_segment := ls_nr_valid_segment s |}.

Definition j_dst j : dst := ls_dst (j_seg j).
Definition j_tables j : block_tables := {| bt_rit := j_rit j; bt_dst := j_dst j |}.

(** [jindisk->lsm_tree->put]; the key is 32 bits wide. *)
Definition jindisk_put (stale : Z) j (lba : Z) (val : option record) : jindisk :=
  let '(t, tb) := lsm_tree_put stale (j_lsm_tree j) (j_tables j) (u32 lba) val in
  with_tree (with_rit (with_seg j (with_ls_dst (j_seg j) (bt_dst tb))) (bt_rit tb)) t.

(** [meta->rit->set], the result ignored. *)
Definition jindisk_rit_set j (pba lba : Z) : jindisk :=
  with_rit j (reverse_index_table_set (j_rit j) pba lba).1.

(** ** Device requests *)

Definition jindisk_read_blocks j (pba : Z) (count : nat) : list (list Z) :=
  (fun i => dev_read (j_dev j) (j_data_start j + pba + Z.of_nat i)) <$> seq 0 count.

Definition jindisk_write_blocks j (pba : Z) (buffer : list (list Z)) : jindisk :=
  with_dev j (dev_write (j_dev j) (j_data_start j + pba) buffer).

(** ** Flushing a buffer *)

(** The record of a block and its ciphertext; [out] is what the target buffer
    held before, the error code of [encrypt] is ignored. *)
Definition encrypt_block (blk : segment_block) (pba_ : Z) (seg_key out : list Z) : record * list Z :=
  let new := record_create [] pba_ (Some seg_key) None in
  match aes_gcm_cipher_encrypt (sb_plain_block blk) (key new) None (pba new) with
  | Ok (cipher, mac_) => ({| pba := pba new; mac := mac_; key := key new |}, cipher)
  | Err _ => (new, out)
  end.

(** [lsm_tree->put(blk->lba, new)] and [rit->set(pba, blk->lba)]. *)
Definition log_record (stale : Z) j (blk : segment_block) (new : record) : jindisk :=
  jindisk_rit_set (jindisk_put stale j (sb_lba blk) (Some new)) (pba new) (sb_lba blk).

(** Threaded logging: every block goes to a hole of the logging segment; a
    block for which none is found is passed over. [buffer] is reused. *)
Fixpoint segbuf_threaded_logging (stale : Z) j (seg_key : list Z) (blks : list segment_block) (buffer : list Z)
  : option jindisk :=
  match blks with
  | [] => Some j
  | blk :: blks =>
      match dst_find_logging_block (j_seg j) with
      | None => None
      | Some (s, Err _) => segbuf_threaded_logging stale (with_seg j s) seg_key blks buffer
      | Some (s, Ok pba_) =>
          let '(new, buffer) := encrypt_block blk pba_ seg_key buffer in
          let j := log_record stale (with_seg j s) blk new in
          segbuf_threaded_logging stale (jindisk_write_blocks j pba_ [buffer]) seg_key blks buffer
      end
  end.

(** The blocks get consecutive addresses from [start + i] on; [cipher_segment]
    holds their ciphertexts. *)
Fixpoint flush_loop (stale : Z) j (seg_key : list Z) (blks : list segment_block) (start : Z) (i : nat)
  (cipher_segment : list (list Z)) : jindisk * list (list Z) :=
  match blks with
  | [] => (j, cipher_segment)
  | blk :: blks =>
      let '(new, out) := encrypt_block blk (start + Z.of_nat i) seg_key (default [] (cipher_segment !! i)) in
      flush_loop stale (log_record stale j blk new) seg_key blks start (S i) (<[i := out]> cipher_segment)
  end.

Definition with_cur_segment (ds : data_segment) (seg : Z) : data_segment :=
  {| ds_size := ds_size ds; ds_cur_segment := seg; ds_seg_key := ds_seg_key ds; ds_root := ds_root ds |}.

(** [cipher_segment] is the content of the buffer's ciphertext area. *)
Definition segbuf_flush_bios (stale : Z) j (index : Z) (cipher_segment : list (list Z)) : option jindisk :=
  let ds := buffer_at (j_seg_buffer j) index in
  let count := ds_size ds in
  if count =? 0 then Some j
  else
    let blks := rb_inorder (ds_root ds) in
    match sa_alloc (j_seg j) with
    | (s, Err _) => segbuf_threaded_logging stale (with_seg j s) (ds_seg_key ds) blks data_block_zero
    | (s, Ok seg) =>
        let j := with_buffer (with_seg j s) (set_buffer (j_seg_buffer j) index (with_cur_segment ds seg)) in
        let start := seg * BLOCKS_PER_SEGMENT in
        let '(j, cipher_segment) := flush_loop stale j (ds_seg_key ds) blks start 0 cipher_segment in
        Some (jindisk_write_blocks j start (take (Z.to_nat count) cipher_segment))
    end.

(** ** Collecting a segment *)

(** [retry]: victims are taken until one is empty or not the logging segment. *)
Fixpoint gc_pop (fuel : nat) (d : dst) : option (dst * option victim) :=
  match fuel with
  | O => None
  | S fuel =>
      match dst_pop_victim d with
      | (d, None) => Some (d, None)
      | (d, Some v) =>
          if v_nr_valid v =? 0 then Some (d, Some v)
          else if v_segno v =? d_logging_segno d then gc_pop fuel d
          else Some (d, Some v)
      end
  end.

(** The body of the loop for the block at [offset]; [old] is the record variable
    of the loop, which a failed search leaves as it was. *)
Definition gc_block (stale : Z) (seg_key : list Z) j (v : victim) (offset : Z) (old : record) (count : Z)
  : option (jindisk * record * Z) :=
  let pba_ := v_segno v * BLOCKS_PER_SEGMENT + offset in
  match reverse_index_table_reset (j_rit j) pba_ INF_ADDR with
  | (rit, Some lba_, Ok _) =>
      let '(t, r) := lsm_tree_search (j_lsm_tree j) (u32 lba_) in
      let old := match r with Ok r => r | Err _ => old end in
      let j := with_tree (with_rit j rit) t in
      if negb (pba_ =? pba old) then Some (j, old, count)
      else
        let j := jindisk_put stale j lba_ None in
        let buffer := dev_read (j_dev j) (j_data_start j + pba_) in
        match aes_gcm_cipher_decrypt buffer (key old) None (mac old) (pba old) with
        | Err _ => Some (j, old, count)
        | Ok plain =>
            match segbuf_push_block seg_key (j_seg_buffer j) lba_ plain false with
            | None => None
            | Some b => Some (with_buffer j b, old, count + 1)
            end
        end
  | (rit, _, _) => Some (with_rit j rit, old, count)
  end.

(** [do { ... } while (++offset < BLOCKS_PER_SEGMENT)]; [n] bounds the offsets
    left. *)
Fixpoint gc_loop (n : nat) (stale : Z) (seg_key : list Z) j (v : victim) (offset : Z) (old : record) (count : Z)
  : option (jindisk * Z) :=
  match n with
  | O => Some (j, count)
  | S n =>
      let offset := find_next_bit (v_table v) BLOCKS_PER_SEGMENT offset in
      if offset =? BLOCKS_PER_SEGMENT then Some (j, count)
      else
        match gc_block stale seg_key j v offset old count with
        | None => None
        | Some (j, old, count) =>
            if offset + 1 <? BLOCKS_PER_SEGMENT then gc_loop n stale seg_key j v (offset + 1) old count
            else Some (j, count)
        end
  end.

(** The segment is freed in the table and in the validator, errors are only
    reported. *)
Definition gc_free j (segno : Z) : jindisk :=
  let d := (dst_return_segment (j_dst j) segno).1 in
  let svt := (seg_validator_test_and_return (ls_svt (j_seg j)) segno).1 in
  with_seg j {| ls_dst := d; ls_svt := svt; ls_nr_valid_segment := ls_nr_valid_segment (j_seg j) |}.

(** The number of blocks moved; [old] is the uninitialised record variable. *)
Definition gc_one_segment (stale : Z) (seg_key : list Z) (old : record) j : option (jindisk * result Z) :=
  match gc_pop (S (length (dst_victims (j_dst j)))) (j_dst j) with
  | None => None
  | Some (d, None) => Some (with_seg j (with_ls_dst (j_seg j) d), Err ENODATA)
  | Some (d, Some v) =>
      let j := with_seg j (with_ls_dst (j_seg j) d) in
      if v_nr_valid v =? 0 then Some (gc_free j (v_segno v), Ok 0)
      else
        match gc_loop (Z.to_nat BLOCKS_PER_SEGMENT) stale seg_key j v 0 old 0 with
        | None => None
        | Some (j, count) => Some (gc_free j (v_segno v), Ok count)
        end
  end.

(** [while (clean < target)]; [None] when out of fuel. *)
Fixpoint gc_rounds (fuel : nat) (stale : Z) (seg_key : list Z) (old : record) (clean target : Z) j : option jindisk :=
  match fuel with
  | O => None
  | S fuel =>
      if clean <? target then
        match gc_one_segment stale seg_key old j with
        | None => None
        | Some (j, Err _) => Some j
        | Some (j, Ok gc_count) =>
            let nr := u64 (ls_nr_valid_segment (j_seg j) - 1) in
            gc_rounds fuel stale seg_key old (clean + gc_count) target (with_seg j (sa_nr_valid_segment_set (j_seg j) nr))
        end
      else Some j
  end.

(** [sa_foreground_gc]; the background collector runs the same loop. *)
Definition sa_foreground_gc (NR_SEGMENT stale : Z) (seg_key : list Z) (old : record) (fuel : nat) j : option jindisk :=
  if ls_nr_valid_segment (j_seg j) <? FOREGROUND_GC_THRESHOLD NR_SEGMENT then Some j
  else gc_rounds fuel stale seg_key old 0 (LEAST_CLEAN_SEGMENT_ONCE * BLOCKS_PER_SEGMENT) j.

(** ** Reading *)

(** What a page of a read request holds afterwards: what it held before, data,
    or an undefined content after a failed decryption. *)
Inductive page : Type :=
  | Untouched
  | Filled (data : list Z)
  | Undecrypted (e : errno).

(** [struct blk_info]; the page is identified by its position in the request. *)
Record blk_info : Type := BlkInfo { bi_lba : Z; bi_record : record; bi_page : nat }.

Definition decrypt_page (ciphertext : list Z) (r : record) : page :=
  match aes_gcm_cipher_decrypt ciphertext (key r) None (mac r) (pba r) with
  | Ok data => Filled data
  | Err e => Undecrypted e
  end.

(** [decrypt_work] for the blocks of one device request. *)
Definition decrypt_work (infos : list blk_info) (io_buffer : list (list Z)) (pages : list page) : list page :=
  foldl (fun pages (x : blk_info * list Z) => <[bi_page x.1 := decrypt_page x.2 (bi_record x.1)]> pages)
    pages (zip infos io_buffer).

(** [merge_read_io]: one request for a run of adjacent blocks. *)
Definition merge_read_io j (blks : list blk_info) (pages : list page) : list page :=
  match blks with
  | [] => pages
  | b :: _ => decrypt_work blks (jindisk_read_blocks j (pba (bi_record b)) (length blks)) pages
  end.

(** The loop that cuts the blocks into runs; [run] is the current one, reversed. *)
Fixpoint read_runs j (run : list blk_info) (blks : list blk_info) (pages : list page) : list page :=
  match blks with
  | [] => pages
  | b :: blks =>
      let run := b :: run in
      match blks with
      | [] => merge_read_io j (reverse run) pages
      | b' :: _ =>
          if pba (bi_record b) + 1 =? pba (bi_record b') then read_runs j run blks pages
          else read_runs j [] blks (merge_read_io j (reverse run) pages)
      end
  end.

(** The first loop of [jindisk_do_read], over the whole blocks of the request:
    [n] are left. A block is filled from the buffer, or noted to be read. *)
Fixpoint collect_reads (n : nat) j (results : option memtable) (lba : Z) (i : nat) (pages : list page)
  : list page * list blk_info :=
  match n with
  | O => (pages, [])
  | S n =>
      match segbuf_query_block (j_seg_buffer j) lba with
      | Ok data => collect_reads n j results (lba + 1) (S i) (<[i := Filled data]> pages)
      | Err _ =>
          match match results with Some m => rbtree_memtable_get m (u32 lba) | None => Err ENODATA end with
          | Err _ => collect_reads n j results (lba + 1) (S i) pages
          | Ok old =>
              if pba old =? INF_ADDR then collect_reads n j results (lba + 1) (S i) pages
              else
                let '(pages, infos) := collect_reads n j results (lba + 1) (S i) pages in
                (pages, {| bi_lba := lba; bi_record := old; bi_page := i |} :: infos)
          end
      end
  end.

(** A read of [count] whole blocks from [start] on. *)
Definition jindisk_do_read j (start : Z) (count : nat) : jindisk * list page :=
  let '(t, results) := lsm_tree_range_search (j_lsm_tree j) (u32 start) (u32 (start + Z.of_nat count - 1)) in
  let j := with_tree j t in
  let '(pages, infos) := collect_reads count j results start 0 (replicate count Untouched) in
  (j, read_runs j [] infos pages).

(** A block read in part; the record is not tested for [INF_ADDR]. *)
Definition read_small_block j (lba : Z) (results : option memtable) : page :=
  match results with
  | None => Untouched
  | Some m =>
      match segbuf_query_block (j_seg_buffer j) lba with
      | Ok data => Filled data
      | Err _ =>
          match rbtree_memtable_get m (u32 lba) with
          | Err _ => Untouched
          | Ok old => decrypt_page (dev_read (j_dev j) (j_data_start j + pba old)) old
          end
      end
  end.

(** ** Writing *)

Definition jindisk_do_write (keys : list (list Z)) j (lba : Z) (blocks : list (list Z)) : option jindisk :=
  match segbuf_push_bio keys (j_seg_buffer j) lba blocks with
  | None => None
  | Some b => Some (with_buffer j b)
  end.

(** ** Merged reads *)

(** The reference: every block is read and decrypted by itself. *)
Definition read_each j (blks : list blk_info) (pages : list page) : list page :=
  foldl (fun pages b => <[bi_page b := decrypt_page (dev_read (j_dev j) (j_data_start j + pba (bi_record b))) (bi_record b)]> pages)
    pages blks.

(** The blocks lie at [p], [p + 1], ... *)
Fixpoint consecutive (p : Z) (blks : list blk_info) : Prop :=
  match blks with
  | [] => True
  | b :: blks => pba (bi_record b) = p /\ consecutive (p + 1) blks
  end.

Lemma consecutive_app p l1 l2 : consecutive p (l1 ++ l2) <-> consecutive p l1 /\ consecutive (p + Z.of_nat (length l1)) l2.
Proof.
  revert p. induction l1 as [|b l1 IH]; intros p; cbn [app consecutive length].
  - rewrite Z.add_0_r. tauto.
  - rewrite IH. replace (p + 1 + Z.of_nat (length l1)) with (p + Z.of_nat (S (length l1))) by lia. tauto.
Qed.

Lemma decrypt_work_each j p : forall blks k pages, consecutive (p + Z.of_nat k) blks ->
  decrypt_work blks ((fun i => dev_read (j_dev j) (j_data_start j + p + Z.of_nat i)) <$> seq k (length blks)) pages =
  read_each j blks pages.
Proof.
  induction blks as [|b blks IH]; intros k pages; [done|]. cbn [consecutive]. intros [Hb Hc].
  unfold decrypt_work, read_each in *. cbn [length seq fmap list_fmap zip zip_with foldl fst snd].
  rewrite Hb. replace (j_data_start j + p + Z.of_nat k) with (j_data_start j + (p + Z.of_nat k)) by lia.
  apply IH. by replace (p + Z.of_nat (S k)) with (p + Z.of_nat k + 1) by lia.
Qed.

Lemma merge_read_io_each j p blks pages : consecutive p blks -> merge_read_io j blks pages = read_each j blks pages.
Proof.
  destruct blks as [|b blks]; [done|]. intros Hc. pose proof Hc as [Hb _]. unfold merge_read_io, jindisk_read_blocks.
  rewrite Hb. apply (decrypt_work_each j p (b :: blks) 0). by rewrite Z.add_0_r.
Qed.

Lemma read_each_app j l1 l2 pages : read_each j (l1 ++ l2) pages = read_each j l2 (read_each j l1 pages).
Proof. apply foldl_app. Qed.

Lemma read_runs_each j : forall blks run p pages, consecutive p (reverse run) ->
  (match blks with b :: _ => run <> [] -> pba (bi_record b) = p + Z.of_nat (length run) | [] => run = [] end) ->
  read_runs j run blks pages = read_each j (reverse run ++ blks) pages.
Proof.
  induction blks as [|b blks IH]; intros run p pages Hc Hb; cbn [read_runs].
  { by subst run. }
  assert (exists p', consecutive p' (reverse (b :: run)) /\ pba (bi_record b) = p' + Z.of_nat (length run)) as (p' & Hc' & Hp').
  { destruct run as [|x run].
    - exists (pba (bi_record b)). cbn. split; [done|lia].
    - specialize (Hb ltac:(done)). exists p. split; [|done]. rewrite reverse_cons. apply consecutive_app. split; [done|].
      rewrite length_reverse. by split. }
  destruct blks as [|b' blks].
  - rewrite reverse_cons in *. by apply (merge_read_io_each j p').
  - destruct (Z.eqb_spec (pba (bi_record b) + 1) (pba (bi_record b'))) as [Heq|Hne].
    + rewrite (IH (b :: run) p'); [|done|cbn [length]; intros _; lia]. by rewrite reverse_cons, <- app_assoc.
    + rewrite (IH [] 0); [|done|done]. rewrite (merge_read_io_each j p') by done. cbn [reverse app].
      change (reverse [] ++ b' :: blks) with (b' :: blks). rewrite reverse_cons, !read_each_app. done.
Qed.

(** ** Reading *)

(** What the layers below the buffer hold for a block. *)
Definition stored_page j (lba : Z) : page :=
  match (lsm_tree_search (j_lsm_tree j) lba).2 with
  | Ok r => if pba r =? INF_ADDR then Untouched
            else decrypt_page (dev_read (j_dev j) (j_data_start j + pba r)) r
  | Err _ => Untouched
  end.

Definition read_page j (lba : Z) : page :=
  match segbuf_query_block (j_seg_buffer j) lba with
  | Ok data => Filled data
  | Err _ => stored_page j lba
  end.

(** A page no block is read for, and the page of a block. *)
Lemma read_each_other j i : forall infos (pages : list page), Forall (fun b => bi_page b <> i) infos ->
  read_each j infos pages !! i = pages !! i.
Proof.
  induction infos as [|b infos IH]; intros pages Hall; [done|]. apply Forall_cons in Hall as [Hb Hall].
  change (read_each j (b :: infos) pages) with (read_each j infos
    (<[bi_page b := decrypt_page (dev_read (j_dev j) (j_data_start j + pba (bi_record b))) (bi_record b)]> pages)).
  by rewrite IH, list_lookup_insert_ne.
Qed.

Lemma read_each_one j b : forall infos (pages : list page), b ∈ infos -> NoDup (bi_page <$> infos) ->
  (bi_page b < length pages)%nat ->
  read_each j infos pages !! bi_page b =
    Some (decrypt_page (dev_read (j_dev j) (j_data_start j + pba (bi_record b))) (bi_record b)).
Proof.
  induction infos as [|x infos IH]; intros pages Hin Hnd Hb; [by apply elem_of_nil in Hin|].
  cbn [fmap list_fmap] in Hnd. apply NoDup_cons in Hnd as [Hnin Hnd].
  change (read_each j (x :: infos) pages) with (read_each j infos
    (<[bi_page x := decrypt_page (dev_read (j_dev j) (j_data_start j + pba (bi_record x))) (bi_record x)]> pages)).
  apply elem_of_cons in Hin as [->|Hin]; [|apply IH; [done|done|by rewrite length_insert]].
  rewrite read_each_other; [by rewrite list_lookup_insert_eq|].
  apply Forall_forall. intros y Hy Heq. apply Hnin. rewrite <- Heq. by apply list_elem_of_fmap_2.
Qed.

(** What the first loop decides for a block. *)
Definition block_source j (results : option memtable) (lba : Z) : page + record :=
  match segbuf_query_block (j_seg_buffer j) lba with
  | Ok data => inl (Filled data)
  | Err _ =>
      match match results with Some m => rbtree_memtable_get m (u32 lba) | None => Err ENODATA end with
      | Err _ => inl Untouched
      | Ok old => if pba old =? INF_ADDR then inl Untouched else inr old
      end
  end.

(** What the first loop of a read leaves for the [n] blocks from [lba], whose
    pages begin at [i]: the page of each block that needs no device, and the
    record of each that does. *)
Definition reads_collected j results n lba i (pages : list page) (out : list page * list blk_info) : Prop :=
  length out.1 = length pages /\ (forall x, (x < i)%nat -> out.1 !! x = pages !! x) /\
  NoDup (bi_page <$> out.2) /\ Forall (fun b => (i <= bi_page b < i + n)%nat) out.2 /\
  forall x, (x < n)%nat -> match block_source j results (lba + Z.of_nat x) with
    | inl pg => out.1 !! (i + x)%nat = Some pg /\ Forall (fun b => bi_page b <> (i + x)%nat) out.2
    | inr r => {| bi_lba := lba + Z.of_nat x; bi_record := r; bi_page := (i + x)%nat |} ∈ out.2
    end.

(** The block at [i] got the page [pg], or a record. *)
Lemma reads_collected_step j results n lba i pages pg o pages2 infos2 : (i < length pages)%nat ->
  block_source j results lba = o -> (match o with inl pg' => pg = pg' | inr r => pg = Untouched end) ->
  reads_collected j results n (lba + 1) (S i) (<[i := pg]> pages) (pages2, infos2) ->
  reads_collected j results (S n) lba i pages
    (pages2, match o with inl _ => infos2 | inr r => {| bi_lba := lba; bi_record := r; bi_page := i |} :: infos2 end).
Proof.
  intros Hi0 Ho Hpg (Hl & Hlow & Hnd & Hr & Hx). cbn [fst snd] in *. rewrite length_insert in Hl. split; [done|]. cbn [fst snd].
  split; [intros x Hxi; rewrite Hlow by lia; by rewrite list_lookup_insert_ne by lia|].
  assert (Forall (fun b => bi_page b <> i) infos2) as Hne by (eapply Forall_impl; [exact Hr|]; cbn; lia).
  assert (pages2 !! i = Some pg) as Hi by (rewrite Hlow, list_lookup_insert_eq by lia; done).
  split; [|split].
  - destruct o; [done|]. cbn [fmap list_fmap]. apply NoDup_cons. split; [|done]. intros Hin.
    apply list_elem_of_fmap in Hin as (b & Hb & Hin). rewrite Forall_forall in Hne. by apply (Hne b Hin).
  - assert (Forall (fun b => (i <= bi_page b < i + S n)%nat) infos2) as Hr' by (eapply Forall_impl; [exact Hr|]; cbn; lia).
    destruct o; [done|]. constructor; [cbn; lia|done].
  - intros [|x] Hxn.
    + rewrite Z.add_0_r, Nat.add_0_r, Ho. destruct o as [pg'|r]; [by subst pg'|by left].
    + specialize (Hx x ltac:(lia)). replace (lba + 1 + Z.of_nat x) with (lba + Z.of_nat (S x)) in Hx by lia.
      replace (S i + x)%nat with (i + S x)%nat in Hx by lia.
      destruct (block_source j results (lba + Z.of_nat (S x))) as [pg'|r'].
      * destruct Hx as [Hx1 Hx2]. split; [done|]. destruct o; [done|]. constructor; [cbn; lia|done].
      * destruct o; [done|]. by right.
Qed.

Lemma collect_reads_spec j results : forall n lba i pages, (i + n <= length pages)%nat ->
  (forall x, (i <= x < i + n)%nat -> pages !! x = Some Untouched) ->
  reads_collected j results n lba i pages (collect_reads n j results lba i pages).
Proof.
  induction n as [|n IH]; intros lba i pages Hlen Hu; cbn [collect_reads].
  { split; [done|]. split; [done|]. split; [constructor|]. split; [constructor|]. lia. }
  assert (forall pg, reads_collected j results n (lba + 1) (S i) (<[i := pg]> pages)
    (collect_reads n j results (lba + 1) (S i) (<[i := pg]> pages))) as Hrest.
  { intros pg. apply IH; [rewrite length_insert; lia|]. intros x Hx. rewrite list_lookup_insert_ne by lia. apply Hu. lia. }
  assert (pages = <[i := Untouched]> pages) as Hsame by (symmetry; apply list_insert_id; apply Hu; lia).
  pose proof (Hrest Untouched) as Hrest0. rewrite <- Hsame in Hrest0.
  assert (forall o, block_source j results lba = o -> match o with inl pg' => Untouched = pg' | inr _ => True end ->
    reads_collected j results (S n) lba i pages (let '(pages2, infos2) := collect_reads n j results (lba + 1) (S i) pages in
      (pages2, match o with inl _ => infos2 | inr r => {| bi_lba := lba; bi_record := r; bi_page := i |} :: infos2 end))) as Huntouched.
  { intros o Ho Hpg. destruct (collect_reads n j results (lba + 1) (S i) pages) as [pages2 infos2].
    apply (reads_collected_step _ _ _ _ _ _ Untouched); [lia|done|by destruct o|by rewrite <- Hsame]. }
  unfold block_source in Huntouched at 1.
  destruct (segbuf_query_block (j_seg_buffer j) lba) as [data|e] eqn:Hq.
  { specialize (Hrest (Filled data)). destruct (collect_reads n j results (lba + 1) (S i) (<[i := Filled data]> pages)).
    apply (reads_collected_step _ _ _ _ _ _ (Filled data) (inl (Filled data))); [lia| |done|done]. unfold block_source. by rewrite Hq. }
  destruct (match results with Some m => rbtree_memtable_get m (u32 lba) | None => Err ENODATA end) as [old|e'].
  - destruct (pba old =? INF_ADDR).
    + specialize (Huntouched (inl Untouched) eq_refl eq_refl).
      by destruct (collect_reads n j results (lba + 1) (S i) pages).
    + exact (Huntouched (inr old) eq_refl I).
  - specialize (Huntouched (inl Untouched) eq_refl eq_refl).
    by destruct (collect_reads n j results (lba + 1) (S i) pages).
Qed.

Lemma read_collected j results start count : 
  let '(pages, infos) := collect_reads count j results start 0 (replicate count Untouched) in
  let pages := read_runs j [] infos pages in
  forall x, (x < count)%nat -> pages !! x = Some
    match block_source j results (start + Z.of_nat x) with
    | inl pg => pg
    | inr r => decrypt_page (dev_read (j_dev j) (j_data_start j + pba r)) r
    end.
Proof.
  pose proof (collect_reads_spec j results count start 0 (replicate count Untouched)) as Hc.
  destruct (collect_reads count j results start 0 (replicate count Untouched)) as [pages infos].
  destruct Hc as (Hl & _ & Hnd & Hr & Hx).
  { rewrite length_replicate. lia. }
  { intros x Hx. apply lookup_replicate. split; [done|lia]. }
  cbn [fst snd] in *. rewrite length_replicate in Hl. cbv zeta. intros x Hxn. rewrite (read_runs_each j infos [] 0) by (by destruct infos).
  cbn [reverse app]. change (reverse [] ++ infos) with infos. specialize (Hx x Hxn). cbn [Nat.add] in Hx.
  destruct (block_source j results (start + Z.of_nat x)) as [pg|r].
  - destruct Hx as [Hx Hne]. by rewrite read_each_other.
  - apply (read_each_one j _ infos pages Hx Hnd). cbn. lia.
Qed.

(** The source of a block when the range search has looked it up. *)
Lemma block_source_page j t results gsss start end_ lba : LsmTree.tree_wf (j_lsm_tree j) gsss -> Forall distinct_keys gsss ->
  lsm_tree_range_search (j_lsm_tree j) start end_ = (t, results) ->
  0 <= start -> start <= lba <= end_ -> end_ < 2 ^ 31 ->
  match block_source (with_tree j t) results lba with
  | inl pg => pg
  | inr r => decrypt_page (dev_read (j_dev j) (j_data_start j + pba r)) r
  end = read_page j lba.
Proof.
  intros Hwf Hd Hrun Hs Hl He.
  pose proof (lsm_tree_range_search_covers start end_ ltac:(lia) He (j_lsm_tree j) gsss Hwf Hd) as Hcov.
  rewrite Hrun in Hcov. destruct Hcov as (_ & st & Hc & ->).
  pose proof (range_result_spec start end_ ltac:(lia) _ st Hc) as Hres.
  unfold block_source, read_page, stored_page. cbn [j_seg_buffer with_tree]. rewrite u32_small by lia.
  destruct (segbuf_query_block (j_seg_buffer j) lba) as [data|e]; [done|].
  pose proof (lsm_tree_search_find (j_lsm_tree j) gsss lba Hwf) as Hf.
  destruct (lsm_tree_search (j_lsm_tree j) lba) as [t' r]. destruct Hf as [_ ->]. cbn [snd].
  assert (match range_result st with Some m => rbtree_memtable_get m lba | None => Err ENODATA end =
    found_or_nodata (tree_find (j_lsm_tree j) gsss lba)) as ->.
  { destruct (range_result st) as [m|]; [destruct Hres as [_ Hres]; by apply Hres|by rewrite Hres]. }
  destruct (tree_find (j_lsm_tree j) gsss lba) as [r|]; cbn [found_or_nodata]; [|done].
  by destruct (pba r =? INF_ADDR).
Qed.

End jindisk.

(** ** Concrete runs *)

(** The pieces of the examples of the components. *)
Definition example_jindisk : jindisk :=
  {| j_data_start := 100; j_dev := ∅ : gmap Z (list Z); j_lsm_tree := example_tree; j_rit := example_rit;
     j_seg := example_logging; j_seg_buffer := segbuf_init [1] |}.

(** Two blocks are written and flushed; the index then leads to their data, and
    block 5000 is unknown. *)
Definition example_written : option jindisk :=
  match jindisk_do_write [[]; []] example_jindisk 6 [[60; 61]; [70; 71]] with
  | Some j => segbuf_flush_bios 0 j 0 (replicate (Z.to_nat BLOCKS_PER_SEGMENT) [])
  | None => None
  end.

Example example_written_reads :
  option_map (fun j => (stored_page j 6, stored_page j 7, stored_page j 5000, (jindisk_do_read j 6 2).2)) example_written =
  Some (Filled [60; 61], Filled [70; 71], Untouched, [Filled [60; 61]; Filled [70; 71]]).
Proof. vm_compute. reflexivity. Qed.

