(* ===== verification/Storage.v ===== *)
(** * Storage: what is written is read back

    The invariant that ties the index, the reverse index, the segment table and
    the data region together, kept by the flush of a buffer
    ([segment_buffer.c]) and by the collection of a segment
    ([segment_allocator.c]): both move blocks between the write buffer and the
    data region, and no read sees a difference. *)
From S2P Require Import Prelude Layout Bytes BlockIo RbTree Memtable DiskStructs SegValidator Rit Dst Cache BitFile BitLevel LsmTree Metadata Crypto SegmentBuffer SegmentAllocator Jindisk.

Section storage.
Context `{BlockDevSpec} `{CryptoApiSpec}.
Context `{RbTreeSpec} `{NodeStoreSpec} `{LeafCacheSpec bit_leaf} `{BsearchSpec}.
Context `{ArraySpec reverse_index_entry} `{ArraySpec dst_entry} `{ArraySpec Z} `{!GroupArray}.
Context (rit_range : forall e : reverse_index_entry, darr_entry_ok e <-> 0 <= lba e < 2 ^ 64).
Context (dst_range : forall e : dst_entry, entry_wf e -> darr_entry_ok e).
(** The reverse index is written without errors. *)
Context (rit_writes : forall (a : darr (E := reverse_index_entry)) i e,
  darr_ok a -> 0 <= i < Z.of_nat (length (darr_view a)) -> darr_entry_ok e -> is_ok (darr_set a i e).2 = true).
Context (gcm_ok : forall data key iv seq, exists out mac, aes_gcm_cipher_encrypt data key iv seq = Ok (out, mac)).
Implicit Types (j : jindisk) (t : block_tables).

(** ** The invariant *)

(** A record of the index that leads to the data region: its block is valid, and
    the reverse index maps it back. *)
Record record_live j (k : Z) (r : record) : Prop := {
  rl_key : 0 <= k < 2 ^ 31;
  rl_pba : 0 <= pba r < d_nr_segment (j_dst j) * BLOCKS_PER_SEGMENT;
  rl_valid : block_valid (j_dst j) (pba r) = true;
  rl_reverse : rit_view (j_rit j) !! Z.to_nat (pba r) = Some k
}.

Record storage_ok j gsss : Prop := {
  so_tree : LsmTree.tree_wf (j_lsm_tree j) gsss;
  so_rit : rit_wf (j_rit j);
  so_rit_length : d_nr_segment (j_dst j) * BLOCKS_PER_SEGMENT <= Z.of_nat (length (rit_view (j_rit j)));
  so_seg : alloc_wf (j_seg j);
  so_live : forall k r, tree_find (j_lsm_tree j) gsss k = Some r -> pba r <> INF_ADDR -> record_live j k r;
  so_latest : forall k r, cell_latest (mt_map (lt_memtable (j_lsm_tree j)) !! k) = Some r -> pba r <> INF_ADDR
}.

(** No record of the index leads to the block. *)
Definition unreferenced j gsss (q : Z) : Prop :=
  forall k r, tree_find (j_lsm_tree j) gsss k = Some r -> pba r <> q.

Lemma invalid_unreferenced j gsss q : storage_ok j gsss -> q <> INF_ADDR -> block_valid (j_dst j) q = false -> unreferenced j gsss q.
Proof.
  intros Hok Hq Hv k r Hr <-. pose proof (rl_valid _ _ _ (so_live _ _ Hok k r Hr Hq)) as Hv'. congruence.
Qed.

Lemma nr_segment_bound j gsss : storage_ok j gsss -> 0 <= d_nr_segment (j_dst j) < 2 ^ 54.
Proof.
  intros Hok. pose proof (al_dst _ (so_seg _ _ Hok)) as Hd. pose proof (dw_nr _ _ Hd). pose proof (dw_length _ _ Hd). unfold j_dst. lia.
Qed.

(** A block number is not [INF_ADDR]. *)
Lemma block_not_inf j gsss q : storage_ok j gsss -> q < d_nr_segment (j_dst j) * BLOCKS_PER_SEGMENT -> q <> INF_ADDR.
Proof. intros Hok Hq. pose proof (nr_segment_bound j gsss Hok). unfold INF_ADDR, BLOCKS_PER_SEGMENT in *. lia. Qed.

(** ** Giving up a block *)

(** What the tables keep when the block [p] of an overwritten record is given up. *)
Record frees_at_most t t' (p : Z) : Prop := {
  fm_rit : rit_wf (bt_rit t');
  fm_rit_length : length (rit_view (bt_rit t')) = length (rit_view (bt_rit t));
  fm_rit_other : forall q, 0 <= q -> q <> p -> rit_view (bt_rit t') !! Z.to_nat q = rit_view (bt_rit t) !! Z.to_nat q;
  fm_dst : dst_wf (bt_dst t');
  fm_valid_other : forall q, 0 <= q -> q <> p -> block_valid (bt_dst t') q = block_valid (bt_dst t) q;
  fm_touches : touches_segment (bt_dst t) (bt_dst t') (__block_to_segment p);
  fm_segment : bt_dst t' = bt_dst t \/ bt_dst t' = (dst_return_block (bt_dst t) p).1
}.

Lemma discard_block_frame stale t p key : rit_wf (bt_rit t) -> dst_wf (bt_dst t) -> 0 <= p ->
  frees_at_most t (discard_block stale t p key) p.
Proof.
  intros Hr Hd Hp. unfold discard_block. pose proof (rit_reset_map rit_range (bt_rit t) p key Hr Hp) as Hreset.
  destruct (reverse_index_table_reset (bt_rit t) p key) as [[rit out] r]. destruct Hreset as (Hr' & Hlen & Hout).
  assert (forall q, 0 <= q -> q <> p -> rit_view rit !! Z.to_nat q = rit_view (bt_rit t) !! Z.to_nat q) as Hother.
  { intros q Hq Hne. destruct out as [cur|]; [|by destruct Hout as [_ ->]]. destruct Hout as [_ ->].
    destruct (decide _); [|done]. by rewrite list_lookup_insert_ne by lia. }
  pose proof (dst_return_block_map dst_range (bt_dst t) p Hd Hp) as Hret.
  pose proof (dst_return_block_frame dst_range (bt_dst t) p Hd Hp) as Hfr.
  destruct (dst_return_block (bt_dst t) p) as [d rd] eqn:Hrun. destruct Hret as [Hd' Hret]. cbn [fst] in *.
  destruct (key =? default stale out); split; cbn [bt_rit bt_dst]; try done.
  - intros q Hq Hne. destruct rd as [u|e]; [rewrite Hret by done; by destruct (decide (q = p))|by rewrite (block_valid_view _ _ Hret)].
  - rewrite Hrun. by right.
  - by apply touches_view.
  - by left.
Qed.
(** A segment with a valid block is not free. *)
Lemma valid_not_free st p s : alloc_wf st -> 0 <= p -> block_valid (ls_dst st) p = true ->
  0 <= s -> sv_view (ls_svt st) !! Z.to_nat s = Some false -> __block_to_segment p <> s.
Proof.
  intros [Hd _ [_ Hag]] Hp Hv Hs Hfree Heq. destruct (Hag s Hs Hfree) as (_ & _ & Hz).
  unfold block_valid in Hv. rewrite Heq in Hv. destruct (dst_view (ls_dst st) !! Z.to_nat s) as [e|] eqn:He; [|done].
  specialize (Hz e eq_refl). pose proof (dw_entries _ _ Hd) as Hent. rewrite Forall_lookup in Hent. destruct (Hent _ _ He) as [Hn _].
  assert (test_bit (__block_offset_whthin_segment p) (block_validity_table e) = false) as Hf; [|congruence].
  apply (popcount_zero_bit bps); [lia|]. rewrite bps_val. apply offset_in_segment.
Qed.

Lemma alloc_wf_frees st d p : alloc_wf st -> 0 <= p -> block_valid (ls_dst st) p = true ->
  dst_wf d -> touches_segment (ls_dst st) d (__block_to_segment p) -> alloc_wf (with_ls_dst st d).
Proof.
  intros Hal Hp Hv Hd (Hn & Hl & Hvic & Hview). pose proof Hal as [_ Hs [Hnr Hag]]. split; cbn [with_ls_dst ls_dst ls_svt]; [done|done|].
  split; cbn [with_ls_dst ls_dst ls_svt]; [congruence|]. intros s Hs0 Hfree. destruct (Hag s Hs0 Hfree) as (Hlog & Hvs & Hz).
  pose proof (valid_not_free st p s Hal Hp Hv Hs0 Hfree) as Hne.
  split; [congruence|]. split; [|rewrite Hview by (done || congruence); exact Hz].
  intros v Hin. destruct (Hvic v Hin) as [Hold|Hnew]; [by apply Hvs|congruence].
Qed.

(** ** A put of the index *)

Record put_done j j' gsss (k : Z) (val : option record) : Prop := {
  pd_tree : LsmTree.tree_wf (j_lsm_tree j') gsss;
  pd_find : forall k', tree_find (j_lsm_tree j') gsss k' = if decide (k' = k) then Some (default negative val) else tree_find (j_lsm_tree j) gsss k';
  pd_rit : rit_wf (j_rit j');
  pd_rit_length : length (rit_view (j_rit j')) = length (rit_view (j_rit j));
  pd_seg : alloc_wf (j_seg j');
  pd_nr : d_nr_segment (j_dst j') = d_nr_segment (j_dst j);
  pd_latest : forall k' r, cell_latest (mt_map (lt_memtable (j_lsm_tree j')) !! k') = Some r -> pba r <> INF_ADDR;
  pd_live : forall k' r, k' <> k -> tree_find (j_lsm_tree j) gsss k' = Some r -> pba r <> INF_ADDR -> record_live j' k' r;
  pd_free : forall q, 0 <= q -> unreferenced j gsss q ->
    block_valid (j_dst j') q = block_valid (j_dst j) q /\ rit_view (j_rit j') !! Z.to_nat q = rit_view (j_rit j) !! Z.to_nat q;
  pd_dev : j_dev j' = j_dev j;
  pd_start : j_data_start j' = j_data_start j;
  pd_buffer : j_seg_buffer j' = j_seg_buffer j
}.

(** The memtable takes a put: it does not fill up, or what it replaces has
    reached the levels. *)
Definition put_room j gsss (k : Z) (val : option record) : Prop :=
  mt_size (rbtree_memtable_put (lt_memtable (j_lsm_tree j)) k val).1 < DEFAULT_MEMTABLE_CAPACITY \/ compacted (j_lsm_tree j) gsss.

Lemma latest_find tree gsss k r : cell_latest (mt_map (lt_memtable tree) !! k) = Some r -> tree_find tree gsss k = Some r.
Proof.
  intros Hc. unfold tree_find, layer, mem_find. destruct (mt_map (lt_memtable tree) !! k) as [[v n]|]; [|done].
  cbn in Hc. subst v. done.
Qed.

(** The memtable after a put. *)
Lemma lsm_tree_put_latest stale tree t k val k' r : memtable_wf (lt_memtable tree) -> 0 <= k < 2 ^ 31 ->
  cell_latest (mt_map (lt_memtable (lsm_tree_put stale tree t k val).1) !! k') = Some r ->
  val = Some r \/ cell_latest (mt_map (lt_memtable tree) !! k') = Some r.
Proof.
  intros Hm Hk. unfold lsm_tree_put, lsm_tree_rotate. pose proof (memtable_put_map (lt_memtable tree) k val Hm Hk) as Hput.
  destruct (rbtree_memtable_put (lt_memtable tree) k val) as [m old]. destruct Hput as (_ & Hmap & _). cbn [fst lt_memtable].
  destruct (DEFAULT_MEMTABLE_CAPACITY <=? mt_size m); cbn [lt_memtable].
  { change (mt_map rbtree_memtable_create) with (∅ : gmap Z cell). by rewrite lookup_empty. }
  rewrite Hmap. destruct (decide (k' = k)) as [->|Hne]; [rewrite lookup_insert_eq|rewrite lookup_insert_ne by done; by right].
  destruct val as [v|]; cbn; [intros [= ->]; by left|done].
Qed.

(** What happens to the tables. *)
Lemma lsm_tree_put_frees stale j gsss k val : storage_ok j gsss -> 0 <= k < 2 ^ 31 ->
  let t' := (lsm_tree_put stale (j_lsm_tree j) (j_tables j) k val).2 in
  t' = j_tables j \/
  exists old, tree_find (j_lsm_tree j) gsss k = Some old /\ record_live j k old /\ frees_at_most (j_tables j) t' (pba old).
Proof.
  intros Hok Hk. pose proof (tw_mem _ _ (so_tree _ _ Hok)) as Hm. unfold lsm_tree_put.
  pose proof (memtable_put_map (lt_memtable (j_lsm_tree j)) k val Hm Hk) as Hput.
  destruct (rbtree_memtable_put (lt_memtable (j_lsm_tree j)) k val) as [m old]. destruct Hput as (_ & _ & ->). cbn [snd].
  destruct val as [v|]; [|by left]. destruct (cell_latest _) as [old|] eqn:Hc; [|by left]. right.
  pose proof (latest_find (j_lsm_tree j) gsss k old Hc) as Hf.
  pose proof (so_live _ _ Hok k old Hf (so_latest _ _ Hok k old Hc)) as Hlive.
  exists old. split; [done|]. split; [done|]. apply discard_block_frame; [exact (so_rit _ _ Hok)|exact (al_dst _ (so_seg _ _ Hok))|apply Hlive].
Qed.

Lemma jindisk_put_ok stale j gsss k val : storage_ok j gsss -> 0 <= k < 2 ^ 31 -> put_room j gsss k val ->
  (forall r, val = Some r -> pba r <> INF_ADDR) -> put_done j (jindisk_put stale j k val) gsss k val.
Proof.
  intros Hok Hk Hroom Hval. unfold jindisk_put. rewrite u32_small by lia.
  destruct (lsm_tree_put_map stale (j_lsm_tree j) gsss (j_tables j) k val (so_tree _ _ Hok) Hk Hroom) as [Htree Hfind].
  pose proof (lsm_tree_put_frees stale j gsss k val Hok Hk) as Htab.
  pose proof (lsm_tree_put_latest stale (j_lsm_tree j) (j_tables j) k val) as Hlatest.
  destruct (lsm_tree_put stale (j_lsm_tree j) (j_tables j) k val) as [tr t']. cbn [fst snd] in *. cbv zeta in Htab.
  set (j' := with_tree _ _).
  assert (forall k' r, cell_latest (mt_map (lt_memtable (j_lsm_tree j')) !! k') = Some r -> pba r <> INF_ADDR) as Hlat.
  { intros k' r Hc. destruct (Hlatest k' r (tw_mem _ _ (so_tree _ _ Hok)) Hk Hc) as [Hv|Hv]; [by apply Hval|by apply (so_latest _ _ Hok k')]. }
  destruct Htab as [->|(old & Hold & Hlo & Hfm)].
  - assert (alloc_wf (j_seg j')) as Hal by (pose proof (so_seg _ _ Hok) as []; by split).
    split; try done; [exact (so_rit _ _ Hok)|]. intros k' r _ Hr Hinf. destruct (so_live _ _ Hok k' r Hr Hinf). by split.
  - assert (forall k' r, k' <> k -> tree_find (j_lsm_tree j) gsss k' = Some r -> pba r <> INF_ADDR -> pba r <> pba old) as Hinj.
    { intros k' r Hne Hr Hinf Heq. pose proof (rl_reverse _ _ _ (so_live _ _ Hok k' r Hr Hinf)) as H1'.
      pose proof (rl_reverse _ _ _ Hlo) as H2'. rewrite Heq in H1'. congruence. }
    pose proof (proj1 (rl_pba _ _ _ Hlo)) as Hp0. pose proof (fm_touches _ _ _ Hfm) as (Hn & _).
    split; try done.
    + exact (fm_rit _ _ _ Hfm).
    + exact (fm_rit_length _ _ _ Hfm).
    + apply (alloc_wf_frees (j_seg j) (bt_dst t') (pba old)); [apply (so_seg _ _ Hok)|done|apply Hlo|apply Hfm|apply Hfm].
    + intros k' r Hne Hr Hinf. pose proof (Hinj k' r Hne Hr Hinf) as Hpne. destruct (so_live _ _ Hok k' r Hr Hinf) as [Hkey Hpba Hvalid Hrev].
      split; [done| | |].
      * change (j_dst j') with (bt_dst t'). rewrite Hn. exact Hpba.
      * change (j_dst j') with (bt_dst t'). rewrite (fm_valid_other _ _ _ Hfm) by (done || lia). exact Hvalid.
      * change (j_rit j') with (bt_rit t'). rewrite (fm_rit_other _ _ _ Hfm) by (done || lia). exact Hrev.
    + intros q Hq Hun. specialize (Hun k old Hold). split.
      * apply (fm_valid_other _ _ _ Hfm); congruence.
      * apply (fm_rit_other _ _ _ Hfm); congruence.
Qed.
Lemma rit_set_ok rit q l : rit_wf rit -> 0 <= q < Z.of_nat (length (rit_view rit)) -> 0 <= l < 2 ^ 64 ->
  let rit' := (reverse_index_table_set rit q l).1 in rit_wf rit' /\ rit_view rit' = <[Z.to_nat q := l]> (rit_view rit).
Proof.
  intros Hwf Hq Hl. pose proof (rit_set_map rit_range rit q l Hwf (proj1 Hq) Hl) as Hset. unfold reverse_index_table_set in *.
  pose proof (rit_writes (rit_array rit) q {| lba := l |} Hwf) as Hok. unfold rit_view in Hq. rewrite length_fmap in Hq.
  specialize (Hok Hq (proj2 (rit_range {| lba := l |}) Hl)).
  destruct (darr_set (rit_array rit) q {| lba := l |}) as [a [u|e]]; [|done]. cbn [fst]. tauto.
Qed.

(** ** Logging a record *)

Record logged j j' gsss (k : Z) (new : record) : Prop := {
  lo_ok : storage_ok j' gsss;
  lo_find : forall k', tree_find (j_lsm_tree j') gsss k' = if decide (k' = k) then Some new else tree_find (j_lsm_tree j) gsss k';
  lo_nr : d_nr_segment (j_dst j') = d_nr_segment (j_dst j);
  lo_free : forall q, 0 <= q -> unreferenced j gsss q -> block_valid (j_dst j') q = block_valid (j_dst j) q;
  lo_dev : j_dev j' = j_dev j;
  lo_start : j_data_start j' = j_data_start j;
  lo_buffer : j_seg_buffer j' = j_seg_buffer j
}.

Lemma log_record_ok stale j gsss blk new : storage_ok j gsss -> 0 <= sb_lba blk < 2 ^ 31 ->
  put_room j gsss (sb_lba blk) (Some new) -> 0 <= pba new < d_nr_segment (j_dst j) * BLOCKS_PER_SEGMENT ->
  block_valid (j_dst j) (pba new) = true -> unreferenced j gsss (pba new) ->
  logged j (log_record stale j blk new) gsss (sb_lba blk) new.
Proof.
  intros Hok Hk Hroom Hp Hv Hun. unfold log_record, jindisk_rit_set.
  pose proof (block_not_inf j gsss (pba new) Hok (proj2 Hp)) as Hinf.
  destruct (jindisk_put_ok stale j gsss (sb_lba blk) (Some new) Hok Hk Hroom) as [Htree Hfind Hrit Hlen Hseg Hnr Hlat Hlive Hfree Hdev Hst Hbuf];
    [by intros r [= <-]|]. set (j1 := jindisk_put stale j (sb_lba blk) (Some new)) in *.
  pose proof (so_rit_length _ _ Hok) as Hrl.
  destruct (rit_set_ok (j_rit j1) (pba new) (sb_lba blk) Hrit) as [Hrit' Hview]; [rewrite Hlen; lia|lia|].
  set (rit' := (reverse_index_table_set (j_rit j1) (pba new) (sb_lba blk)).1) in *.
  destruct (Hfree (pba new) (proj1 Hp) Hun) as [Hv1 _].
  split; try done; [|intros q Hq Hu; by apply Hfree].
  split; cbn [with_rit j_lsm_tree j_rit j_seg]; try done.
  - change (j_dst (with_rit j1 rit')) with (j_dst j1). rewrite Hview, length_insert, Hlen, Hnr. exact Hrl.
  - intros k r Hr Hr'. rewrite Hfind in Hr. destruct (decide (k = sb_lba blk)) as [->|Hne].
    + injection Hr as <-. split; [done| | |].
      * change (j_dst (with_rit j1 rit')) with (j_dst j1). by rewrite Hnr.
      * change (j_dst (with_rit j1 rit')) with (j_dst j1). by rewrite Hv1.
      * cbn [with_rit j_rit]. rewrite Hview. apply list_lookup_insert_eq. rewrite Hlen. lia.
    + destruct (Hlive k r Hne Hr Hr') as [Hkey Hpba Hvalid Hrev]. split; [done|exact Hpba|exact Hvalid|].
      cbn [with_rit j_rit]. rewrite Hview. rewrite list_lookup_insert_ne; [done|].
      specialize (Hun k r Hr). lia.
Qed.

(** ** Flushing a buffer to a new segment *)

(** The record leads to ciphertext of the block. *)
Definition encrypts_block (r : record) (cipher data : list Z) : Prop :=
  aes_gcm_cipher_decrypt cipher (key r) None (mac r) (pba r) = Ok data.

Lemma segment_encrypt_ok blk q seg_key out :
  let '(new, cipher) := encrypt_block blk q seg_key out in
  pba new = q /\ encrypts_block new cipher (sb_plain_block blk).
Proof.
  unfold encrypt_block, encrypts_block. set (new := record_create [] q (Some seg_key) None).
  destruct (gcm_ok (sb_plain_block blk) (key new) None (pba new)) as (out' & mac' & Henc). rewrite Henc. cbn [pba key mac].
  split; [done|]. by apply crypto_aead_decrypt_encrypt in Henc.
Qed.

(** Room for [n] records: the memtable stays below its capacity, or what it
    replaces is in the levels and it is not filled twice. *)
Definition puts_room j gsss (n : Z) : Prop :=
  mt_size (lt_memtable (j_lsm_tree j)) + n < DEFAULT_MEMTABLE_CAPACITY \/
  compacted (j_lsm_tree j) gsss /\ n < DEFAULT_MEMTABLE_CAPACITY.

Lemma puts_room_put j gsss k val n : LsmTree.tree_wf (j_lsm_tree j) gsss -> 0 <= n -> 0 <= k < 2 ^ 31 ->
  puts_room j gsss (n + 1) -> put_room j gsss k val.
Proof.
  intros Hwf Hn Hk Hroom. pose proof (memtable_put_size (lt_memtable (j_lsm_tree j)) k val (tw_mem _ _ Hwf) Hk) as Hs.
  unfold put_room. destruct Hroom as [Hroom|[Hc _]]; [left; lia|by right].
Qed.

Lemma puts_room_next stale j gsss k val n : LsmTree.tree_wf (j_lsm_tree j) gsss -> 0 <= n -> 0 <= k < 2 ^ 31 ->
  puts_room j gsss (n + 1) -> puts_room (jindisk_put stale j k val) gsss n.
Proof.
  intros Hwf Hn Hk Hroom. pose proof (memtable_put_size (lt_memtable (j_lsm_tree j)) k val (tw_mem _ _ Hwf) Hk) as Hs.
  unfold jindisk_put. rewrite u32_small by lia.
  unfold puts_room in *. unfold lsm_tree_put, lsm_tree_rotate.
  destruct (rbtree_memtable_put (lt_memtable (j_lsm_tree j)) k val) as [m old]. cbn [fst lt_memtable lt_immutable] in *.
  destruct (Z.leb_spec DEFAULT_MEMTABLE_CAPACITY (mt_size m)); cbn [j_lsm_tree with_tree lt_memtable].
  - left. change (mt_size rbtree_memtable_create) with 0. destruct Hroom as [|[_ Hn']]; [|lia].
    pose proof (weight_nonneg (rb_inorder (mt_root (lt_memtable (j_lsm_tree j))))) as Hw.
    rewrite <- (wf_size _ (tw_mem _ _ Hwf)) in Hw. lia.
  - destruct Hroom as [Hroom|[Hc Hn']]; [left; lia|right]. split; [exact Hc|lia].
Qed.

Lemma puts_room_less j gsss m n : 0 <= m <= n -> puts_room j gsss n -> puts_room j gsss m.
Proof. unfold puts_room. intros Hmn [Hr|[Hc Hr]]; [left; lia|right; split; [done|lia]]. Qed.

Lemma log_record_svt stale j blk new : ls_svt (j_seg (log_record stale j blk new)) = ls_svt (j_seg j).
Proof.
  unfold log_record, jindisk_rit_set, jindisk_put.
  by destruct (lsm_tree_put stale (j_lsm_tree j) (j_tables j) (u32 (sb_lba blk)) (Some new)) as [t tb].
Qed.

Lemma logged_unreferenced j j' gsss k new q : logged j j' gsss k new -> pba new <> q -> unreferenced j gsss q -> unreferenced j' gsss q.
Proof.
  intros Hlo Hne Hun k' r Hr. rewrite (lo_find _ _ _ _ _ Hlo) in Hr. destruct (decide (k' = k)); [congruence|by apply (Hun k')].
Qed.

(** The state after the loop: every block has a record with its address and its
    ciphertext, nothing else changed in the index. *)
Record flushed j j' gsss (blks : list segment_block) (start : Z) (i : nat) (cs cs' : list (list Z)) : Prop := {
  fl_ok : storage_ok j' gsss;
  fl_length : length cs' = length cs;
  fl_before : forall x, (x < i)%nat -> cs' !! x = cs !! x;
  fl_blocks : forall m blk, blks !! m = Some blk -> exists r cipher,
    tree_find (j_lsm_tree j') gsss (sb_lba blk) = Some r /\ pba r = start + Z.of_nat (i + m) /\
    cs' !! (i + m)%nat = Some cipher /\ encrypts_block r cipher (sb_plain_block blk);
  fl_others : forall k, k ∉ (sb_lba <$> blks) -> tree_find (j_lsm_tree j') gsss k = tree_find (j_lsm_tree j) gsss k;
  fl_dev : j_dev j' = j_dev j;
  fl_start : j_data_start j' = j_data_start j;
  fl_buffer : j_seg_buffer j' = j_seg_buffer j;
  fl_svt : ls_svt (j_seg j') = ls_svt (j_seg j);
  fl_room : forall m, 0 <= m -> puts_room j gsss (Z.of_nat (length blks) + m) -> puts_room j' gsss m
}.

Lemma flush_loop_ok stale gsss seg_key start : forall blks j i cs,
  storage_ok j gsss -> Forall (fun b => 0 <= sb_lba b < 2 ^ 31) blks -> NoDup (sb_lba <$> blks) ->
  0 <= start -> start + Z.of_nat (i + length blks) <= d_nr_segment (j_dst j) * BLOCKS_PER_SEGMENT -> (i + length blks <= length cs)%nat ->
  (forall m, (i <= m < i + length blks)%nat -> block_valid (j_dst j) (start + Z.of_nat m) = true /\ unreferenced j gsss (start + Z.of_nat m)) ->
  puts_room j gsss (Z.of_nat (length blks)) ->
  let '(j', cs') := flush_loop stale j seg_key blks start i cs in flushed j j' gsss blks start i cs cs'.
Proof.
  induction blks as [|blk blks IH]; intros j i cs Hok Hkeys Hnd Hs Hfit Hlen Hfree Hroom; cbn [flush_loop].
  { split; try done. }
  apply Forall_cons in Hkeys as [Hkey Hkeys]. cbn [fmap list_fmap] in Hnd. apply NoDup_cons in Hnd as [Hnin Hnd].
  cbn [length] in *. pose proof (segment_encrypt_ok blk (start + Z.of_nat i) seg_key (default [] (cs !! i))) as Henc.
  destruct (encrypt_block blk (start + Z.of_nat i) seg_key (default [] (cs !! i))) as [new out]. destruct Henc as [Hpba Henc].
  destruct (Hfree i ltac:(lia)) as [Hvi Hui].
  replace (Z.of_nat (S (length blks))) with (Z.of_nat (length blks) + 1) in Hroom by lia.
  pose proof (log_record_ok stale j gsss blk new Hok Hkey) as Hlo.
  specialize (Hlo (puts_room_put j gsss (sb_lba blk) (Some new) (Z.of_nat (length blks)) (so_tree _ _ Hok) ltac:(lia) Hkey Hroom)).
  rewrite Hpba in Hlo. specialize (Hlo ltac:(lia) Hvi Hui). pose proof Hlo as [Hok1 Hfind1 Hnr1 Hfree1 Hdev1 Hst1 Hbuf1].
  specialize (IH (log_record stale j blk new) (S i) (<[i := out]> cs) Hok1 Hkeys Hnd Hs).
  destruct (flush_loop stale (log_record stale j blk new) seg_key blks start (S i) (<[i := out]> cs)) as [j' cs'].
  destruct IH as [Hok' Hlen' Hbefore Hblocks Hothers Hdev Hst Hbuf Hsvt Hleft].
  - rewrite Hnr1. lia.
  - rewrite length_insert. lia.
  - intros m Hm. destruct (Hfree m ltac:(lia)) as [Hv Hu]. split; [by rewrite Hfree1 by (done || lia)|].
    apply (logged_unreferenced j _ gsss (sb_lba blk) new); [done|lia|done].
  - by apply (puts_room_next stale j gsss (sb_lba blk) (Some new) (Z.of_nat (length blks)) (so_tree _ _ Hok) ltac:(lia) Hkey).
  - rewrite length_insert in Hlen'. split; try done; try congruence.
    + intros x Hx. rewrite Hbefore by lia. by rewrite list_lookup_insert_ne by lia.
    + intros [|m] b Hb.
      * injection Hb as <-. exists new, out. rewrite Hothers by done. rewrite Hfind1, decide_True by done. split; [done|].
        split; [by rewrite Nat.add_0_r|]. split; [|done]. rewrite Nat.add_0_r, Hbefore by lia. apply list_lookup_insert_eq. lia.
      * destruct (Hblocks m b Hb) as (r & cipher & Hr & Hp & Hc & He). exists r, cipher.
        replace (i + S m)%nat with (S i + m)%nat by lia. done.
    + intros k Hk. cbn [fmap list_fmap] in Hk. apply not_elem_of_cons in Hk as [Hne Hk].
      rewrite Hothers by done. by rewrite Hfind1, decide_False.
    + by rewrite Hsvt, log_record_svt.
    + intros m Hm Hr. apply Hleft; [done|]. apply (puts_room_next stale j gsss (sb_lba blk) (Some new) _ (so_tree _ _ Hok)); [lia|done|].
      by replace (Z.of_nat (length blks) + m + 1) with (Z.of_nat (length (blk :: blks)) + m) by (cbn [length]; lia).
Qed.

(** ** What is stored *)

Lemma stored_page_find j gsss k : LsmTree.tree_wf (j_lsm_tree j) gsss ->
  stored_page j k = match tree_find (j_lsm_tree j) gsss k with
                    | Some r => if pba r =? INF_ADDR then Untouched else decrypt_page (dev_read (j_dev j) (j_data_start j + pba r)) r
                    | None => Untouched
                    end.
Proof.
  intros Hwf. unfold stored_page. pose proof (lsm_tree_search_find (j_lsm_tree j) gsss k Hwf) as Hs.
  destruct (lsm_tree_search (j_lsm_tree j) k) as [tr o]. destruct Hs as [_ ->]. cbn [snd].
  by destruct (tree_find (j_lsm_tree j) gsss k).
Qed.

Lemma stored_page_same j j' gsss k : LsmTree.tree_wf (j_lsm_tree j) gsss -> LsmTree.tree_wf (j_lsm_tree j') gsss ->
  tree_find (j_lsm_tree j') gsss k = tree_find (j_lsm_tree j) gsss k ->
  (forall r, tree_find (j_lsm_tree j) gsss k = Some r -> pba r <> INF_ADDR ->
     dev_read (j_dev j') (j_data_start j' + pba r) = dev_read (j_dev j) (j_data_start j + pba r)) ->
  stored_page j' k = stored_page j k.
Proof.
  intros Hwf Hwf' Hf Hd. rewrite !(stored_page_find _ gsss) by done. rewrite Hf.
  destruct (tree_find (j_lsm_tree j) gsss k) as [r|]; [|done]. destruct (Z.eqb_spec (pba r) INF_ADDR); [done|]. by rewrite Hd.
Qed.

Lemma storage_ok_frame j j' gsss : j_lsm_tree j' = j_lsm_tree j -> j_rit j' = j_rit j -> j_seg j' = j_seg j ->
  storage_ok j gsss -> storage_ok j' gsss.
Proof.
  intros Ht Hr Hs [H1' H2' H3' H4' H5' H6']. assert (j_dst j' = j_dst j) as Hd by (unfold j_dst; by rewrite Hs).
  split; rewrite ?Ht, ?Hr, ?Hs, ?Hd; try done. intros k r Hk Hinf. destruct (H5' k r Hk Hinf). split; rewrite ?Hr, ?Hd; done.
Qed.
(** Taking a segment keeps the invariant, and its blocks are free to use. *)
Lemma sa_alloc_storage j gsss s seg : storage_ok j gsss -> sa_alloc (j_seg j) = (s, Ok seg) ->
  storage_ok (with_seg j s) gsss /\ d_nr_segment (ls_dst s) = d_nr_segment (j_dst j) /\ 0 <= seg < d_nr_segment (j_dst j) /\
  forall m, 0 <= m < BLOCKS_PER_SEGMENT ->
    block_valid (ls_dst s) (seg * BLOCKS_PER_SEGMENT + m) = true /\ unreferenced j gsss (seg * BLOCKS_PER_SEGMENT + m).
Proof.
  intros Hok Halloc. pose proof (sa_alloc_map dst_range (j_seg j) (so_seg _ _ Hok)) as Hmap. rewrite Halloc in Hmap.
  destruct Hmap as (_ & _ & Hnr & Hal & Hseg & _ & _ & _ & Hv). fold (j_dst j) in *.
  split; [|split; [done|split; [done|]]].
  - destruct Hok as [H1' H2' H3' H4' H5' H6']. split; try done.
    + change (j_dst (with_seg j s)) with (ls_dst s). by rewrite Hnr.
    + intros k r Hr Hinf. destruct (H5' k r Hr Hinf) as [Hk Hp Hval Hrev]. split; [done| | |exact Hrev].
      * change (j_dst (with_seg j s)) with (ls_dst s). by rewrite Hnr.
      * change (j_dst (with_seg j s)) with (ls_dst s). destruct (Hv (pba r) (proj1 Hp)) as [Hin Hout].
        destruct (Z.eq_dec (__block_to_segment (pba r)) seg) as [Heq|Hne]; [by apply Hin|by rewrite Hout].
  - intros m Hm. destruct (segment_parts seg m Hm) as [Hsp _]. destruct (Hv (seg * BLOCKS_PER_SEGMENT + m)) as [Hin _]; [unfold BLOCKS_PER_SEGMENT in *; lia|].
    destruct (Hin Hsp) as [Hinv Hval]. split; [done|]. apply invalid_unreferenced; [done| |done].
    apply (block_not_inf j gsss); [done|]. unfold BLOCKS_PER_SEGMENT in *. lia.
Qed.

Lemma ds_map_block ds k data : ds_wf ds -> ds_map ds !! k = Some data ->
  exists m blk, rb_inorder (ds_root ds) !! m = Some blk /\ sb_lba blk = k /\ sb_plain_block blk = data.
Proof.
  intros Hwf Hk. unfold ds_map, kmap in Hk. apply elem_of_list_to_map_2 in Hk. apply list_elem_of_fmap in Hk as (blk & [= -> ->] & Hin).
  apply list_elem_of_lookup in Hin as [m Hm]. by exists m, blk.
Qed.

Lemma ds_map_none ds k : ds_map ds !! k = None -> k ∉ (sb_lba <$> rb_inorder (ds_root ds)).
Proof.
  intros Hk Hin. unfold ds_map, kmap in Hk. apply not_elem_of_list_to_map_2 in Hk. apply Hk. rewrite <- list_fmap_compose. exact Hin.
Qed.

Lemma ds_nodup ds : ds_wf ds -> NoDup (sb_lba <$> rb_inorder (ds_root ds)).
Proof.
  intros [Hs _ _]. unfold keys_sorted in Hs. revert Hs. generalize (sb_lba <$> rb_inorder (ds_root ds)). intros l Hs.
  induction Hs as [|k l _ IH Hk]; constructor; [|done]. intros Hin. rewrite Forall_forall in Hk. specialize (Hk k Hin). lia.
Qed.

(** What a flush leaves: the blocks of the buffer are stored, those of other
    addresses are as before. *)
Definition flush_stores j j' gsss ds : Prop :=
  storage_ok j' gsss /\
  (forall k data, ds_map ds !! k = Some data -> stored_page j' k = Filled data) /\
  (forall k, ds_map ds !! k = None -> stored_page j' k = stored_page j k).

Lemma flush_written j j1 gsss ds seg cs : storage_ok j gsss -> ds_wf ds -> ds_size ds <= BLOCKS_PER_SEGMENT ->
  length cs = Z.to_nat BLOCKS_PER_SEGMENT -> j_dev j1 = j_dev j -> j_data_start j1 = j_data_start j ->
  tree_find (j_lsm_tree j1) gsss = tree_find (j_lsm_tree j) gsss ->
  (forall m, 0 <= m < BLOCKS_PER_SEGMENT -> unreferenced j gsss (seg * BLOCKS_PER_SEGMENT + m)) -> 0 <= seg -> seg * BLOCKS_PER_SEGMENT + BLOCKS_PER_SEGMENT < INF_ADDR ->
  forall j2 cs2, flushed j1 j2 gsss (rb_inorder (ds_root ds)) (seg * BLOCKS_PER_SEGMENT) 0 cs cs2 ->
  flush_stores j (jindisk_write_blocks j2 (seg * BLOCKS_PER_SEGMENT) (take (Z.to_nat (ds_size ds)) cs2)) gsss ds.
Proof.
  intros Hok Hds Hsz Hcs Hdev1 Hst1 Hf1 Hun Hseg Hinf j2 cs2 [Hok2 Hlen Hbefore Hblocks Hothers Hdev Hst Hbuf _ _].
  set (j3 := jindisk_write_blocks j2 (seg * BLOCKS_PER_SEGMENT) (take (Z.to_nat (ds_size ds)) cs2)).
  pose proof (dw_size _ Hds) as Hsize. split; [by apply (storage_ok_frame j2)|]. split.
  - intros k data Hk. destruct (ds_map_block ds k data Hds Hk) as (m & blk & Hm & <- & <-).
    destruct (Hblocks m blk Hm) as (r & cipher & Hr & Hp & Hc & He). apply lookup_lt_Some in Hm as Hmlt. cbn [Nat.add] in *.
    rewrite (stored_page_find j3 gsss) by apply Hok2. change (j_lsm_tree j3) with (j_lsm_tree j2). rewrite Hr.
    destruct (Z.eqb_spec (pba r) INF_ADDR) as [Hi|_]; [exfalso; lia|].
    change (j_dev j3) with (dev_write (j_dev j2) (j_data_start j2 + seg * BLOCKS_PER_SEGMENT) (take (Z.to_nat (ds_size ds)) cs2)).
    change (j_data_start j3) with (j_data_start j2). rewrite dev_read_write, Hp, length_take.
    destruct (Z.leb_spec (j_data_start j2 + seg * BLOCKS_PER_SEGMENT) (j_data_start j2 + (seg * BLOCKS_PER_SEGMENT + Z.of_nat m))); [|lia].
    destruct (Z.ltb_spec (j_data_start j2 + (seg * BLOCKS_PER_SEGMENT + Z.of_nat m))
      (j_data_start j2 + seg * BLOCKS_PER_SEGMENT + Z.of_nat (Z.to_nat (ds_size ds) `min` length cs2))); [|lia]. cbn [andb].
    replace (Z.to_nat (j_data_start j2 + (seg * BLOCKS_PER_SEGMENT + Z.of_nat m) - (j_data_start j2 + seg * BLOCKS_PER_SEGMENT))) with m by lia.
    rewrite lookup_take_lt, Hc by lia. cbn [default from_option id]. unfold decrypt_page. unfold encrypts_block in He. by rewrite He.
  - intros k Hk. pose proof (Hothers k (ds_map_none ds k Hk)) as Hf. rewrite Hf1 in Hf.
    apply (stored_page_same j j3 gsss); [apply Hok|apply Hok2|exact Hf|]. intros r Hr Hri.
    change (j_dev j3) with (dev_write (j_dev j2) (j_data_start j2 + seg * BLOCKS_PER_SEGMENT) (take (Z.to_nat (ds_size ds)) cs2)).
    change (j_data_start j3) with (j_data_start j2). rewrite dev_read_write, Hdev, Hst, Hdev1, Hst1, length_take.
    destruct (Z.leb_spec (j_data_start j + seg * BLOCKS_PER_SEGMENT) (j_data_start j + pba r)) as [Hle|]; [|done]. cbn [andb].
    destruct (Z.ltb_spec (j_data_start j + pba r)
      (j_data_start j + seg * BLOCKS_PER_SEGMENT + Z.of_nat (Z.to_nat (ds_size ds) `min` length cs2))) as [Hlt|]; [|done].
    exfalso. apply (Hun (pba r - seg * BLOCKS_PER_SEGMENT)) with k r; [lia|done|lia].
Qed.

Lemma segbuf_flush_bios_ok stale j gsss index cs s seg : storage_ok j gsss -> pool_wf (j_seg_buffer j) -> 0 <= index < POOL_SIZE ->
  length cs = Z.to_nat BLOCKS_PER_SEGMENT -> sa_alloc (j_seg j) = (s, Ok seg) ->
  let ds := buffer_at (j_seg_buffer j) index in
  0 < ds_size ds -> puts_room j gsss (ds_size ds) ->
  exists j', segbuf_flush_bios stale j index cs = Some j' /\ flush_stores j j' gsss ds /\
    j_seg_buffer j' = set_buffer (j_seg_buffer j) index (with_cur_segment ds seg) /\
    ls_svt (j_seg j') = ls_svt s /\ forall m, 0 <= m -> puts_room j gsss (ds_size ds + m) -> puts_room j' gsss m.
Proof.
  intros Hok Hpool Hi Hcs Halloc ds Hpos Hroom. destruct (pool_at _ _ Hpool Hi) as [Hds Hsz]. fold ds in Hds, Hsz.
  destruct (sa_alloc_storage j gsss s seg Hok Halloc) as (Hok1 & Hnr & Hseg & Hfree).
  unfold segbuf_flush_bios. fold ds. destruct (Z.eqb_spec (ds_size ds) 0); [lia|]. rewrite Halloc.
  set (j1 := with_buffer (with_seg j s) _). assert (storage_ok j1 gsss) as Hok1' by (by apply (storage_ok_frame (with_seg j s))).
  pose proof (dw_size _ Hds) as Hsize. pose proof (nr_segment_bound j gsss Hok) as Hnb.
  pose proof (flush_loop_ok stale gsss (ds_seg_key ds) (seg * BLOCKS_PER_SEGMENT) (rb_inorder (ds_root ds)) j1 0 cs Hok1' (dw_keys _ Hds) (ds_nodup ds Hds)) as Hfl.
  change (d_nr_segment (j_dst j1)) with (d_nr_segment (ls_dst s)) in Hfl. rewrite Hnr in Hfl.
  destruct (flush_loop stale j1 (ds_seg_key ds) (rb_inorder (ds_root ds)) (seg * BLOCKS_PER_SEGMENT) 0 cs) as [j2 cs2].
  unfold BLOCKS_PER_SEGMENT in *. eexists. split; [done|].
  assert (flushed j1 j2 gsss (rb_inorder (ds_root ds)) (seg * 1024) 0 cs cs2) as Hfl'.
  { apply Hfl; [lia|lia|lia| |by rewrite <- Hsize]. intros m Hm. apply Hfree. lia. }
  split; [|split; [exact (fl_buffer _ _ _ _ _ _ _ _ Hfl')|split; [exact (fl_svt _ _ _ _ _ _ _ _ Hfl')|]]].
  2: { intros m Hm Hr. apply (fl_room _ _ _ _ _ _ _ _ Hfl'); [done|]. by rewrite <- Hsize. }
  apply (flush_written j j1 gsss ds seg cs); try done; try (unfold BLOCKS_PER_SEGMENT, INF_ADDR; lia).
  intros m Hm. by apply Hfree.
Qed.

(** C8. Flushing a buffer to a new segment stores it: afterwards every block of
    the buffer is read back from the data region as it was written, every other
    block of the disk reads as before, and the invariant of the index, the
    reverse index, the segment table and the validator is kept. *)
Theorem segbuf_flush_bios_stores stale j gsss index cs s seg :
  storage_ok j gsss -> pool_wf (j_seg_buffer j) -> 0 <= index < POOL_SIZE ->
  length cs = Z.to_nat BLOCKS_PER_SEGMENT -> sa_alloc (j_seg j) = (s, Ok seg) ->
  let ds := buffer_at (j_seg_buffer j) index in
  0 < ds_size ds -> puts_room j gsss (ds_size ds) ->
  exists j', segbuf_flush_bios stale j index cs = Some j' /\ flush_stores j j' gsss ds /\
    j_seg_buffer j' = set_buffer (j_seg_buffer j) index (with_cur_segment ds seg).
Proof.
  intros Hok Hpool Hi Hcs Halloc ds Hpos Hroom.
  destruct (segbuf_flush_bios_ok stale j gsss index cs s seg Hok Hpool Hi Hcs Halloc Hpos Hroom) as (j' & H1' & H2' & H3' & _). by exists j'.
Qed.
End storage.

(** ** Concrete runs *)

(** An empty index over the segments of [example_logging], of which the third is
    free, and a buffer that holds block 7. *)
Definition example_storage_buffer : segment_buffer :=
  default (segbuf_init [1]) (segbuf_push_block [2] (segbuf_init [1]) 7 [70] false).

Definition example_storage : jindisk :=
  {| j_data_start := 100; j_dev := ∅ : gmap Z (list Z);
     j_lsm_tree := {| lt_memtable := rbtree_memtable_create; lt_immutable := None; lt_levels := []; lt_works := 0 |};
     j_rit := {| rit_array := replicate 3072 {| lba := INF_ADDR |} |};
     j_seg := example_logging; j_seg_buffer := example_storage_buffer |}.

Lemma example_storage_ok : storage_ok example_storage [].
Proof.
  split.
  - split; [exact memtable_create_wf|done|constructor].
  - apply Forall_replicate. by vm_compute.
  - unfold rit_view. cbn [example_storage j_rit rit_array]. rewrite length_fmap. unfold darr_view. cbn [rit_list list_array].
    rewrite length_replicate. vm_compute. congruence.
  - exact example_alloc_wf.
  - done.
  - intros k r. change (mt_map (lt_memtable (j_lsm_tree example_storage))) with (∅ : gmap Z cell). by rewrite lookup_empty.
Qed.

Lemma example_storage_pool : pool_wf example_storage_buffer.
Proof.
  destruct (push_block_spec [2] (segbuf_init [1]) 7 [70] false (proj1 (segbuf_init_wf [1])) ltac:(lia)) as (b & Hrun & Hpost).
  unfold example_storage_buffer. rewrite Hrun. apply Hpost.
Qed.

Lemma segbuf_flush_bios_stores_witness :
  let j := example_storage in
  let ds := buffer_at (j_seg_buffer j) 0 in
  let cs := replicate (Z.to_nat BLOCKS_PER_SEGMENT) [] in
  exists j', segbuf_flush_bios 0 j 0 cs = Some j' /\ flush_stores j j' [] ds /\
    j_seg_buffer j' = set_buffer (j_seg_buffer j) 0 (with_cur_segment ds 2).
Proof.
  intros j ds cs.
  refine (segbuf_flush_bios_stores (fun e => iff_refl _) dst_list_range _ _ 0 example_storage [] 0 cs (sa_alloc example_logging).1 2
    example_storage_ok example_storage_pool _ _ _ _ _).
  - intros a i e _ Hi _. cbn in Hi |- *. by rewrite array_set_in_range.
  - intros data k iv seq. by eexists _, _.
  - unfold POOL_SIZE. lia.
  - unfold cs. by rewrite length_replicate.
  - rewrite (surjective_pairing (sa_alloc (j_seg example_storage))). f_equal.
  - vm_compute. reflexivity.
  - left. vm_compute. reflexivity.
Defined.
