(* ===== verification/Gc.v ===== *)
(** * Gc: collecting a segment loses nothing that can be read

    [gc_one_segment] of [segment_allocator.c] takes the victim with the fewest
    valid blocks, moves the blocks that the index still leads to into the write
    buffer and frees the segment. Under the invariant of [Storage] no read sees a
    difference, and no record of the index leads into the freed segment. *)
From S2P Require Import Prelude Layout Bytes BlockIo RbTree Memtable DiskStructs SegValidator Rit Dst Cache BitFile BitLevel LsmTree Metadata Crypto SegmentBuffer SegmentAllocator Jindisk Storage.

(** ** Bits left *)

Lemma find_next_bit_spec b n off : 0 <= off <= n ->
  let r := find_next_bit b n off in
  off <= r <= n /\ (r < n -> Z.testbit b r = true) /\ forall i, off <= i < r -> Z.testbit b i = false.
Proof.
  intros Hoff. unfold find_next_bit. destruct (find_bit_from true (Z.to_nat (n - off)) off b) as [i|] eqn:Hf; cbn.
  - apply find_bit_from_some in Hf as (Hr & Hi & Hlow). split; [lia|]. by split.
  - split; [lia|]. split; [lia|]. intros i Hi. apply (find_bit_from_none true _ _ _ Hf). lia.
Qed.

(** The bits set from [o] on. *)
Definition bits_left (b o : Z) : Z := popcount bps b - popcount (Z.to_nat o) b.

Lemma popcount_step n b : popcount (S n) b = Z.b2z (Z.testbit b (Z.of_nat n)) + popcount n b.
Proof. done. Qed.

Lemma bits_left_next b o : 0 <= o -> bits_left b (o + 1) = bits_left b o - Z.b2z (Z.testbit b o).
Proof.
  intros Ho. unfold bits_left. replace (Z.to_nat (o + 1)) with (S (Z.to_nat o)) by lia.
  rewrite popcount_step, Z2Nat.id by done. lia.
Qed.

Lemma bits_left_skip b (n : nat) : forall o, 0 <= o -> (forall i, o <= i < o + Z.of_nat n -> Z.testbit b i = false) ->
  bits_left b (o + Z.of_nat n) = bits_left b o.
Proof.
  induction n as [|n IH]; intros o Ho Hz; [by rewrite Z.add_0_r|].
  replace (o + Z.of_nat (S n)) with (o + 1 + Z.of_nat n) by lia. rewrite IH by (intros; try apply Hz; lia).
  rewrite bits_left_next, Hz by lia. cbn. lia.
Qed.

Lemma bits_left_end b : bits_left b BLOCKS_PER_SEGMENT = 0.
Proof. unfold bits_left. rewrite <- bps_val, Nat2Z.id. lia. Qed.

Lemma popcount_mono n m b : (n <= m)%nat -> popcount n b <= popcount m b.
Proof. intros Hle. induction Hle as [|m _ IH]; [done|]. rewrite popcount_step. destruct (Z.testbit _ _); cbn; lia. Qed.

Lemma bits_left_nonneg b o : o <= BLOCKS_PER_SEGMENT -> 0 <= bits_left b o.
Proof. intros Ho. unfold bits_left. pose proof bps_val. pose proof (popcount_mono (Z.to_nat o) bps b ltac:(lia)). lia. Qed.

Definition BACKGROUND_GC_THRESHOLD (NR_SEGMENT : Z) : Z := NR_SEGMENT -u NR_GC_PRESERVED.

Section gc.
Context `{BlockDevSpec} `{CryptoApiSpec}.
Context `{RbTreeSpec} `{NodeStoreSpec} `{LeafCacheSpec bit_leaf} `{BsearchSpec}.
Context `{ArraySpec reverse_index_entry} `{ArraySpec dst_entry} `{ArraySpec Z} `{!GroupArray}.
Context (rit_range : forall e : reverse_index_entry, darr_entry_ok e <-> 0 <= lba e < 2 ^ 64).
Context (dst_range : forall e : dst_entry, entry_wf e -> darr_entry_ok e).
(** The reverse index is read and written, the segment table written without
    errors. *)
Context (rit_reads : forall (a : darr (E := reverse_index_entry)) i,
  darr_ok a -> 0 <= i < Z.of_nat (length (darr_view a)) -> is_ok (darr_get a i).2 = true).
Context (rit_writes : forall (a : darr (E := reverse_index_entry)) i e,
  darr_ok a -> 0 <= i < Z.of_nat (length (darr_view a)) -> darr_entry_ok e -> is_ok (darr_set a i e).2 = true).
Context (dst_writes : forall (a : darr (E := dst_entry)) i e,
  darr_ok a -> 0 <= i < Z.of_nat (length (darr_view a)) -> darr_entry_ok e -> is_ok (darr_set a i e).2 = true).
Implicit Types (j : jindisk) (v : victim).

(** ** The victim *)

Lemma dst_pop_victim_map d : dst_wf d ->
  let '(d', o) := dst_pop_victim d in
  dst_wf d' /\ dst_view d' = dst_view d /\ d_nr_segment d' = d_nr_segment d /\ d_logging_segno d' = d_logging_segno d /\
  match o with
  | Some v => v ∈ dst_victims d /\ (forall w, w ∈ dst_victims d' <-> w ∈ dst_victims d /\ v_segno w <> v_segno v)
  | None => dst_victims d = [] /\ d' = d
  end.
Proof.
  intros Hwf. unfold dst_pop_victim, rb_first. fold (dst_victims d).
  destruct (dst_victims d) as [|v l] eqn:Hl; cbn [head]; [done|].
  destruct (dst_destroy_victim_map _ d (v_segno v) Hwf) as (Hwf' & Hview & Hnr & Hlog & _ & Hmem); [by left|].
  fold (dst_destroy_victim d (v_segno v)). rewrite <- Hl. do 4 (split; [done|]). split; [rewrite Hl; by left|done].
Qed.

Lemma dst_pop_victim_rest d d' v : dst_wf d -> dst_pop_victim d = (d', Some v) ->
  v :: dst_victims d' ⊆+ dst_victims d.
Proof.
  intros Hwf Hpop. pose proof (dst_pop_victim_map d Hwf) as Hmap. rewrite Hpop in Hmap.
  destruct Hmap as (Hwf' & _ & _ & _ & Hin & Hmem).
  pose proof (tw_nodup _ (dw_tree _ _ Hwf')) as Hnd. apply NoDup_fmap_1 in Hnd.
  apply NoDup_submseteq; [constructor; [|done]|].
  - intros Hv. by apply Hmem in Hv as [_ Hne].
  - intros w [->|Hw]%elem_of_cons; [done|]. by apply Hmem in Hw as [Hw _].
Qed.

(** What [gc_pop] hands out. *)
Definition popped d d' (o : option victim) : Prop :=
  dst_wf d' /\ dst_view d' = dst_view d /\ d_nr_segment d' = d_nr_segment d /\ d_logging_segno d' = d_logging_segno d /\
  (forall w, w ∈ dst_victims d' -> w ∈ dst_victims d) /\
  match o with
  | Some v => v ∈ dst_victims d /\ (v_nr_valid v = 0 \/ v_segno v <> d_logging_segno d) /\ v :: dst_victims d' ⊆+ dst_victims d
  | None => forall v, v ∈ dst_victims d -> v_segno v = d_logging_segno d
  end.

Lemma gc_pop_spec : forall fuel d, dst_wf d -> (length (dst_victims d) < fuel)%nat ->
  exists d' o, gc_pop fuel d = Some (d', o) /\ popped d d' o.
Proof.
  induction fuel as [|fuel IH]; intros d Hwf Hf; [lia|]. cbn [gc_pop].
  pose proof (dst_pop_victim_map d Hwf) as Hmap. pose proof (dst_pop_victim_rest d) as Hrest.
  destruct (dst_pop_victim d) as [d1 [v|]]; destruct Hmap as (Hwf1 & Hview & Hnr & Hlog & Hv).
  2: { destruct Hv as [Hnone ->]. exists d, None. split; [done|]. unfold popped. rewrite Hnone.
       do 5 (split; [done|]). intros v Hv. by apply elem_of_nil in Hv. }
  destruct Hv as [Hin Hmem]. specialize (Hrest d1 v Hwf eq_refl). pose proof (submseteq_length _ _ Hrest) as Hshort. cbn [length] in Hshort.
  assert (popped d d1 (Some v) \/ v_nr_valid v <> 0 /\ v_segno v = d_logging_segno d) as Hcase.
  { destruct (Z.eq_dec (v_nr_valid v) 0) as [Hz|Hz], (Z.eq_dec (v_segno v) (d_logging_segno d)) as [Hs|Hs]; [left..| |left]; try by right.
    all: do 4 (split; [done|]); split; [intros w Hw; by apply Hmem in Hw as [Hw _]|]; split; auto. }
  destruct (Z.eqb_spec (v_nr_valid v) 0) as [Hz|Hz]; [|rewrite Hlog; destruct (Z.eqb_spec (v_segno v) (d_logging_segno d)) as [Hs|Hs]].
  1, 3: exists d1, (Some v); split; [done|]; destruct Hcase as [|[]]; done.
  destruct (IH d1 Hwf1 ltac:(lia)) as (d' & o & Hrun & Hwf' & Hview' & Hnr' & Hlog' & Hsub & Ho).
  exists d', o. split; [done|]. unfold popped. rewrite Hview', Hview, Hnr', Hnr, Hlog', Hlog in *.
  do 4 (split; [done|]). split; [intros w Hw; apply Hsub in Hw; by apply Hmem in Hw as [Hw _]|].
  destruct o as [w|].
  - destruct Ho as (Hw & Ho & Hsm). apply Hmem in Hw as [Hw _]. split; [done|]. split; [done|].
    etransitivity; [exact Hsm|]. etransitivity; [|exact Hrest]. by apply submseteq_cons.
  - intros w Hw. destruct (Z.eq_dec (v_segno w) (v_segno v)) as [Heq|Hne]; [congruence|]. apply Ho. by apply Hmem.
Qed.

(** The segment table and the validator change without touching a block that
    the index leads to. *)
Lemma storage_ok_seg j gsss st : storage_ok j gsss -> alloc_wf st ->
  d_nr_segment (ls_dst st) = d_nr_segment (j_dst j) ->
  (forall k r, tree_find (j_lsm_tree j) gsss k = Some r -> pba r <> INF_ADDR ->
     block_valid (ls_dst st) (pba r) = block_valid (j_dst j) (pba r)) ->
  storage_ok (with_seg j st) gsss.
Proof.
  intros [Htree Hrit Hlen Hseg Hlive Hlat] Hal Hnr Hv. split; try done.
  - change (j_dst (with_seg j st)) with (ls_dst st). by rewrite Hnr.
  - intros k r Hr Hinf. destruct (Hlive k r Hr Hinf) as [Hk Hp Hval Hrev].
    split; [done| | |exact Hrev]; change (j_dst (with_seg j st)) with (ls_dst st); [by rewrite Hnr|by rewrite (Hv k)].
Qed.

Lemma popped_alloc st d o : alloc_wf st -> popped (ls_dst st) d o -> alloc_wf (with_ls_dst st d).
Proof.
  intros [Hd Hs [Hnr Hag]] (Hwf & Hview & Hn & Hlog & Hsub & _). split; cbn [with_ls_dst ls_dst ls_svt]; [done|done|].
  split; cbn [with_ls_dst ls_dst ls_svt]; [congruence|]. intros s Hs0 Hfree. destruct (Hag s Hs0 Hfree) as (Hl & Hv & Hz).
  rewrite Hlog, Hview. split; [done|]. split; [|done]. intros v Hin. by apply Hv, Hsub.
Qed.

(** ** Looking a block up *)

Lemma tree_find_searched tree gsss k : tree_find (lsm_tree_search tree k).1 gsss = tree_find tree gsss /\
  lt_memtable (lsm_tree_search tree k).1 = lt_memtable tree /\ lt_immutable (lsm_tree_search tree k).1 = lt_immutable tree.
Proof.
  unfold lsm_tree_search. destruct (rbtree_memtable_get (lt_memtable tree) k); [done|].
  destruct (match lt_immutable tree with Some im => rbtree_memtable_get im k | None => Err ENODATA end); [done|].
  by destruct (levels_search (lt_levels tree) k) as [levels r].
Qed.

(** Clearing an entry of the reverse index. *)
Lemma rit_clear_ok rit q : rit_wf rit -> 0 <= q < Z.of_nat (length (rit_view rit)) ->
  exists rit' cur, reverse_index_table_reset rit q INF_ADDR = (rit', Some cur, Ok tt) /\ rit_wf rit' /\
    rit_view rit !! Z.to_nat q = Some cur /\ rit_view rit' = <[Z.to_nat q := INF_ADDR]> (rit_view rit).
Proof.
  intros Hwf Hq. pose proof (rit_reset_map rit_range rit q INF_ADDR Hwf (proj1 Hq)) as Hres.
  unfold reverse_index_table_reset, rit_wf in *. unfold rit_view in Hq. rewrite length_fmap in Hq.
  pose proof (rit_reads (rit_array rit) q Hwf Hq) as Hok.
  destruct (darr_get (rit_array rit) q) as [a [e|e]] eqn:Hget; [|done].
  apply darr_get_spec in Hget as (Hwfa & Hva & _); [|done|lia].
  change (negb (INF_ADDR =? INF_ADDR)) with false in *. cbn [andb] in *.
  pose proof (rit_writes a q {| lba := INF_ADDR |} Hwfa ltac:(by rewrite Hva)) as Hset.
  specialize (Hset (proj2 (rit_range {| lba := INF_ADDR |}) ltac:(by vm_compute))).
  destruct (darr_set a q {| lba := INF_ADDR |}) as [a' [u|e']]; [|done].
  destruct Hres as (Hwf' & _ & Hcur & Hview). exists {| rit_array := a' |}, (lba e). split; [done|]. split; [done|]. split; [done|].
  rewrite Hview. destruct (decide _) as [|Hn]; [done|]. destruct Hn. split; [done|by left].
Qed.

(** ** Moving a block *)

Definition reads_kept j j' : Prop := forall k, 0 <= k < 2 ^ 31 ->
  read_page j' k = read_page j k \/ exists e, read_page j k = Undecrypted e.

Lemma reads_kept_refl j : reads_kept j j.
Proof. intros k _. by left. Qed.

Lemma reads_kept_trans j1 j2 j3 : reads_kept j1 j2 -> reads_kept j2 j3 -> reads_kept j1 j3.
Proof.
  intros Hab Hbc k Hk. destruct (Hab k Hk) as [Heq|Hu]; [|by right]. destruct (Hbc k Hk) as [->|[e He]]; [by left|].
  right. exists e. congruence.
Qed.

(** The index of a state in which the reverse index no longer leads from block
    [q], when no record leads there. *)
Lemma storage_ok_clear j gsss rit' q : storage_ok j gsss -> unreferenced j gsss q -> 0 <= q -> rit_wf rit' ->
  rit_view rit' = <[Z.to_nat q := INF_ADDR]> (rit_view (j_rit j)) -> storage_ok (with_rit j rit') gsss.
Proof.
  intros [Htree Hrit Hlen Hseg Hlive Hlat] Hun Hq Hwf Hview. split; try done.
  - change (j_dst (with_rit j rit')) with (j_dst j). cbn [with_rit j_rit]. by rewrite Hview, length_insert.
  - intros k r Hr Hinf. destruct (Hlive k r Hr Hinf) as [Hk Hp Hval Hrev]. split; [done|exact Hp|exact Hval|].
    cbn [with_rit j_rit]. rewrite Hview, list_lookup_insert_ne; [done|]. specialize (Hun k r Hr). lia.
Qed.

(** The search fills caches only. *)
Lemma storage_ok_search j gsss k : storage_ok j gsss ->
  let t := (lsm_tree_search (j_lsm_tree j) k).1 in
  storage_ok (with_tree j t) gsss /\ (lsm_tree_search (j_lsm_tree j) k).2 = found_or_nodata (tree_find (j_lsm_tree j) gsss k) /\
  tree_find t gsss = tree_find (j_lsm_tree j) gsss /\ lt_memtable t = lt_memtable (j_lsm_tree j) /\ lt_immutable t = lt_immutable (j_lsm_tree j).
Proof.
  intros Hok t. destruct (tree_find_searched (j_lsm_tree j) gsss k) as (Hf & Hm & Hi). fold t in Hf, Hm, Hi.
  pose proof (lsm_tree_search_find (j_lsm_tree j) gsss k (so_tree _ _ Hok)) as Hs.
  destruct (lsm_tree_search (j_lsm_tree j) k) as [t0 r]. cbn [fst snd] in *. subst t. destruct Hs as [Hwf ->].
  split; [|done]. destruct Hok as [Htree Hrit Hlen Hseg Hlive Hlat]. split; try done; cbn [with_tree j_lsm_tree].
  - intros k' r Hr Hinf. rewrite Hf in Hr. destruct (Hlive k' r Hr Hinf). by split.
  - intros k' r. rewrite Hm. apply Hlat.
Qed.

Lemma memtable_put_none (m : memtable) k : (rbtree_memtable_put m k None).2 = None.
Proof. unfold rbtree_memtable_put. by destruct (rb_find_add _ _ _) as [root [old|]]. Qed.

Lemma put_none_rit stale j rit' k : jindisk_put stale (with_rit j rit') k None = with_rit (jindisk_put stale j k None) rit'.
Proof.
  unfold jindisk_put, lsm_tree_put. cbn [with_rit j_lsm_tree].
  pose proof (memtable_put_none (lt_memtable (j_lsm_tree j)) (u32 k)) as Hold.
  destruct (rbtree_memtable_put (lt_memtable (j_lsm_tree j)) (u32 k) None) as [m old]. cbn [snd] in Hold. by subst old.
Qed.

(** What taking a block out of the index leaves. *)
Record taken_out j j' gsss (k q n : Z) : Prop := {
  to_ok : storage_ok j' gsss;
  to_unref : unreferenced j' gsss q;
  to_find : forall k' r, tree_find (j_lsm_tree j') gsss k' = Some r -> pba r <> INF_ADDR -> tree_find (j_lsm_tree j) gsss k' = Some r;
  to_kept : forall k' r, tree_find (j_lsm_tree j) gsss k' = Some r -> pba r <> q -> tree_find (j_lsm_tree j') gsss k' = Some r;
  to_here : stored_page j' k = Untouched;
  to_other : forall k', k' <> k -> stored_page j' k' = stored_page j k';
  to_room : puts_room j' gsss n;
  to_seg : j_seg j' = j_seg j;
  to_dev : j_dev j' = j_dev j;
  to_start : j_data_start j' = j_data_start j;
  to_buffer : j_seg_buffer j' = j_seg_buffer j
}.

Lemma put_none_seg stale j k : j_seg (jindisk_put stale j k None) = j_seg j.
Proof.
  unfold jindisk_put, lsm_tree_put. pose proof (memtable_put_none (lt_memtable (j_lsm_tree j)) (u32 k)) as Hold.
  destruct (rbtree_memtable_put (lt_memtable (j_lsm_tree j)) (u32 k) None) as [m old]. cbn [snd] in Hold. subst old. cbn. unfold with_ls_dst, j_dst. by destruct (j_seg j).
Qed.

Lemma take_out stale j gsss rit' k r q n : storage_ok j gsss -> tree_find (j_lsm_tree j) gsss k = Some r -> pba r = q -> q <> INF_ADDR ->
  rit_wf rit' -> rit_view rit' = <[Z.to_nat q := INF_ADDR]> (rit_view (j_rit j)) -> 0 <= n -> puts_room j gsss (n + 1) ->
  taken_out j (jindisk_put stale (with_rit j rit') k None) gsss k q n.
Proof.
  intros Hok Hr Hq Hinf Hwf Hview Hn Hroom. rewrite put_none_rit.
  pose proof (so_live _ _ Hok k r Hr ltac:(congruence)) as [Hk Hp Hval Hrev]. rewrite Hq in *.
  destruct (jindisk_put_ok rit_range dst_range stale j gsss k None Hok Hk) as [Htree Hfind Hrit Hlen Hseg Hnr Hlat Hlive Hfree Hdev Hst Hbuf].
  { by apply (puts_room_put j gsss k None n (so_tree _ _ Hok)). }
  { done. }
  pose proof (puts_room_next stale j gsss k None n (so_tree _ _ Hok) Hn Hk Hroom) as Hroom'.
  pose proof (put_none_seg stale j k) as Hs.
  set (j1 := jindisk_put stale j k None) in *. cbn [default] in Hfind.
  assert (forall k' r', tree_find (j_lsm_tree j1) gsss k' = Some r' -> pba r' <> INF_ADDR -> k' <> k /\ tree_find (j_lsm_tree j) gsss k' = Some r') as Hold.
  { intros k' r' Hr' Hi. rewrite Hfind in Hr'. destruct (decide (k' = k)) as [->|Hne]; [|by split]. injection Hr' as <-. by destruct Hi. }
  assert (forall k' r', k' <> k -> tree_find (j_lsm_tree j) gsss k' = Some r' -> pba r' <> INF_ADDR -> pba r' <> q) as Hinj.
  { intros k' r' Hne Hr' Hi Heq. pose proof (rl_reverse _ _ _ (so_live _ _ Hok k' r' Hr' Hi)) as Hrv. rewrite Heq in Hrv. congruence. }
  split; try done.
  - split; try done.
    + cbn [with_rit j_rit]. change (j_dst (with_rit j1 rit')) with (j_dst j1). rewrite Hview, length_insert, Hnr. apply (so_rit_length _ _ Hok).
    + intros k' r' Hr' Hi. destruct (Hold k' r' Hr' Hi) as [Hne Hr0]. destruct (so_live _ _ Hok k' r' Hr0 Hi) as [Hk' Hp' Hval' Hrev'].
      assert (j_dst (with_rit j1 rit') = j_dst j) as Hd by (unfold j_dst; cbn; by rewrite Hs).
      split; [done|by rewrite Hd|by rewrite Hd|]. cbn [with_rit j_rit]. rewrite Hview, list_lookup_insert_ne; [done|].
      specialize (Hinj k' r' Hne Hr0 Hi). lia.
  - intros k' r' Hr' Heq. destruct (Z.eq_dec (pba r') INF_ADDR) as [Hi|Hi]; [congruence|].
    destruct (Hold k' r' Hr' Hi) as [Hne Hr0]. by apply (Hinj k' r' Hne Hr0 Hi).
  - intros k' r' Hr' Hi. by apply Hold.
  - intros k' r' Hr' Hne. cbn [with_rit j_lsm_tree]. rewrite Hfind. rewrite decide_False; [done|]. intros ->. congruence.
  - rewrite (stored_page_find _ gsss) by exact Htree. cbn [with_rit j_lsm_tree]. rewrite Hfind, decide_True by done. done.
  - intros k' Hne. apply (stored_page_same j (with_rit j1 rit') gsss); [apply Hok|exact Htree| |].
    + cbn [with_rit j_lsm_tree]. by rewrite Hfind, decide_False.
    + intros r' _ _. cbn [with_rit j_dev j_data_start]. by rewrite Hdev, Hst.
Qed.

(** ** The buffer that receives the blocks *)

Definition buffered (b : segment_buffer) : Z := ds_size (buffer_at b (sb_cur_buffer b)).

Lemma segbuf_collect key b k data : pool_wf b -> 0 <= k < 2 ^ 31 -> buffered b + 1 < BLOCKS_PER_SEGMENT ->
  exists b', segbuf_push_block key b k data false = Some b' /\ pool_wf b' /\ buffered b' <= buffered b + 1 /\
    segbuf_query_block b' k = (if is_ok (segbuf_query_block b k) then segbuf_query_block b k else Ok data) /\
    forall k', 0 <= k' < 2 ^ 31 -> k' <> k -> segbuf_query_block b' k' = segbuf_query_block b k'.
Proof.
  intros Hwf Hk Hroom. destruct (push_block_spec key b k data false Hwf Hk) as (b' & Hrun & Hpost). exists b'. split; [done|].
  cbn [negb andb] in Hpost. destruct (is_ok (segbuf_query_block b k)) eqn:Hq.
  { subst b'. split; [done|]. split; [lia|]. by split. }
  destruct Hpost as (Hwf' & Hmaps & _). pose proof (pool_at _ _ Hwf (pw_cur _ Hwf)) as [Hds _].
  pose proof (pool_at _ _ Hwf' (pw_cur _ Hwf')) as [Hds' _].
  pose proof (pool_maps_head b Hwf) as Hh. pose proof (pool_maps_head b' Hwf') as Hh'.
  unfold buffered in *. rewrite (ds_size_map _ Hds) in *. rewrite (ds_size_map _ Hds') in *.
  set (m := ds_map (buffer_at b (sb_cur_buffer b))) in *. set (m' := ds_map (buffer_at b' (sb_cur_buffer b'))) in *.
  assert (size (<[k := data]> m) <= S (size m))%nat as Hsz.
  { rewrite map_size_insert. destruct (m !! k); cbn; lia. }
  assert (map_full (<[k := data]> m) = false) as Hfull by (unfold map_full; apply Z.eqb_neq; lia).
  assert (pool_maps b' = <[k := data]> m :: tail (pool_maps b)) as Hnew.
  { rewrite Hmaps, Hh. cbn [maps_push tail]. by rewrite Hfull. }
  split; [done|]. split.
  { assert (m' = <[k := data]> m) as -> by congruence. lia. }
  assert (forall k', 0 <= k' < 2 ^ 31 -> segbuf_query_block b' k' =
    found_block (match (<[k := data]> m) !! k' with Some d => Some d | None => maps_find (tail (pool_maps b)) k' end)) as Hquery.
  { intros k' Hk'. by rewrite segbuf_query_find, Hnew by done. }
  split; [by rewrite Hquery, lookup_insert_eq by done|]. intros k' Hk' Hne.
  rewrite Hquery, lookup_insert_ne by done. by rewrite (segbuf_query_find b), Hh by done.
Qed.

(** ** The loop over the blocks of the victim *)

Definition seg_block (v : victim) (o : Z) : Z := v_segno v * BLOCKS_PER_SEGMENT + o.

(** The state before offset [o] of the victim: what [gc_one_segment] started
    from is [j0]. *)
Record gc_inv (m : Z) j0 j gsss v (o : Z) (old : record) : Prop := {
  gi_ok : storage_ok j gsss;
  gi_pool : pool_wf (j_seg_buffer j);
  gi_seg : j_seg j = j_seg j0;
  gi_room : buffered (j_seg_buffer j) + bits_left (v_table v) o + m < BLOCKS_PER_SEGMENT;
  gi_puts : puts_room j gsss (bits_left (v_table v) o + m);
  gi_moved : forall x, 0 <= x < o -> unreferenced j gsss (seg_block v x);
  gi_old : forall x, o <= x < BLOCKS_PER_SEGMENT -> pba old = seg_block v x ->
    exists k, tree_find (j_lsm_tree j) gsss k = Some old;
  gi_reads : reads_kept j0 j
}.

(** The victim shows the entry of its segment. *)
Definition victim_shows j v : Prop :=
  0 <= v_segno v < d_nr_segment (j_dst j) /\
  dst_view (j_dst j) !! Z.to_nat (v_segno v) = Some {| nr_valid_block := v_nr_valid v; block_validity_table := v_table v |}.

Lemma victim_block_valid j v o : victim_shows j v -> 0 <= o < BLOCKS_PER_SEGMENT ->
  block_valid (j_dst j) (seg_block v o) = Z.testbit (v_table v) o.
Proof.
  intros [Hseg Hview] Ho. unfold block_valid, seg_block. destruct (segment_parts (v_segno v) o Ho) as [-> ->].
  by rewrite Hview.
Qed.

Lemma seg_block_range j gsss v o : storage_ok j gsss -> victim_shows j v -> 0 <= o < BLOCKS_PER_SEGMENT ->
  0 <= seg_block v o < d_nr_segment (j_dst j) * BLOCKS_PER_SEGMENT /\ seg_block v o <> INF_ADDR.
Proof.
  intros Hok [Hseg _] Ho. assert (0 <= seg_block v o < d_nr_segment (j_dst j) * BLOCKS_PER_SEGMENT) as Hr
    by (unfold seg_block, BLOCKS_PER_SEGMENT in *; lia).
  split; [done|]. apply (block_not_inf j gsss); [done|apply Hr].
Qed.

(** What the reverse index and the index know of a valid block. *)
Lemma block_owner j gsss q k r : storage_ok j gsss -> q <> INF_ADDR ->
  tree_find (j_lsm_tree j) gsss k = Some r -> pba r = q ->
  0 <= k < 2 ^ 31 /\ rit_view (j_rit j) !! Z.to_nat q = Some k.
Proof. intros Hok Hq Hr <-. destruct (so_live _ _ Hok k r Hr Hq). by split. Qed.

(** Passing over blocks that are not valid. *)
Lemma gc_inv_skip m j0 j gsss v o o' old : gc_inv m j0 j gsss v o old -> victim_shows j0 v ->
  0 <= o <= o' -> o' <= BLOCKS_PER_SEGMENT -> (forall i, o <= i < o' -> Z.testbit (v_table v) i = false) ->
  gc_inv m j0 j gsss v o' old.
Proof.
  intros [Hok Hpool Hseg Hroom Hputs Hmoved Hold Hreads] Hv Ho Ho' Hz.
  assert (bits_left (v_table v) o' = bits_left (v_table v) o) as Hb.
  { replace o' with (o + Z.of_nat (Z.to_nat (o' - o))) by lia. apply bits_left_skip; [lia|]. intros i Hi. apply Hz. lia. }
  assert (victim_shows j v) as Hvj by (unfold victim_shows, j_dst in *; by rewrite Hseg).
  split; try done; [by rewrite Hb|by rewrite Hb| |].
  - intros x Hx. destruct (Z_lt_le_dec x o) as [Hlt|Hge]; [apply Hmoved; lia|].
    apply invalid_unreferenced; [done|by apply (seg_block_range j gsss); [..|lia]|].
    rewrite victim_block_valid by (done || lia). apply Hz. lia.
  - intros x Hx. apply Hold. lia.
Qed.

(** Taking a block out of the index and putting its data into the buffer. *)
Lemma taken_reads seg_key j j1 gsss k r n : storage_ok j gsss -> pool_wf (j_seg_buffer j) -> 0 <= k < 2 ^ 31 ->
  tree_find (j_lsm_tree j) gsss k = Some r -> pba r <> INF_ADDR -> taken_out j j1 gsss k (pba r) n ->
  buffered (j_seg_buffer j) + 1 < BLOCKS_PER_SEGMENT ->
  exists b m, match aes_gcm_cipher_decrypt (dev_read (j_dev j1) (j_data_start j1 + pba r)) (key r) None (mac r) (pba r) with
    | Err _ => Some (j1, r, 0)
    | Ok plain => match segbuf_push_block seg_key (j_seg_buffer j1) k plain false with None => None | Some b => Some (with_buffer j1 b, r, 1) end
    end = Some (with_buffer j1 b, r, m) /\ 0 <= m <= 1 /\
    pool_wf b /\ buffered b <= buffered (j_seg_buffer j) + 1 /\ reads_kept j (with_buffer j1 b).
Proof.
  intros Hok Hpool Hk Hr Hinf Hto Hroom. rewrite (to_dev _ _ _ _ _ _ Hto), (to_start _ _ _ _ _ _ Hto).
  pose proof (to_buffer _ _ _ _ _ _ Hto) as Hbuf.
  assert (stored_page j k = decrypt_page (dev_read (j_dev j) (j_data_start j + pba r)) r) as Hpage.
  { rewrite (stored_page_find j gsss) by apply Hok. rewrite Hr. by destruct (Z.eqb_spec (pba r) INF_ADDR). }
  unfold decrypt_page in Hpage.
  destruct (aes_gcm_cipher_decrypt (dev_read (j_dev j) (j_data_start j + pba r)) (key r) None (mac r) (pba r)) as [plain|e].
  - rewrite Hbuf. destruct (segbuf_collect seg_key (j_seg_buffer j) k plain Hpool Hk Hroom) as (b & Hrun & Hb & Hsz & Hq & Hqo).
    rewrite Hrun. exists b, 1. do 4 (split; [done || lia|]). intros k' Hk'. left. unfold read_page. cbn [with_buffer j_seg_buffer].
    change (stored_page (with_buffer j1 b) k') with (stored_page j1 k').
    destruct (Z.eq_dec k' k) as [->|Hne]; [|rewrite Hqo by done; by rewrite (to_other _ _ _ _ _ _ Hto) by done].
    rewrite Hq, Hpage. by destruct (segbuf_query_block (j_seg_buffer j) k).
  - exists (j_seg_buffer j1), 0. split; [by destruct j1|]. split; [lia|]. rewrite Hbuf. split; [done|]. split; [lia|].
    intros k' Hk'. unfold read_page. cbn [with_buffer j_seg_buffer].
    change (stored_page (with_buffer j1 (j_seg_buffer j)) k') with (stored_page j1 k').
    destruct (segbuf_query_block (j_seg_buffer j) k'); [by left|].
    destruct (Z.eq_dec k' k) as [->|Hne]; [right; by exists e|left; by apply (to_other _ _ _ _ _ _ Hto)].
Qed.

Lemma gc_inv_taken m j0 j j1 gsss v o r k b : gc_inv m j0 j gsss v o r -> victim_shows j0 v -> 0 <= o < BLOCKS_PER_SEGMENT ->
  Z.testbit (v_table v) o = true -> pba r = seg_block v o ->
  taken_out j j1 gsss k (pba r) (bits_left (v_table v) (o + 1) + m) -> pool_wf b -> buffered b <= buffered (j_seg_buffer j) + 1 ->
  reads_kept j (with_buffer j1 b) -> gc_inv m j0 (with_buffer j1 b) gsss v (o + 1) r.
Proof.
  intros [Hok Hpool Hseg Hroom Hputs Hmoved Hold Hreads] Hv0 Ho Hbit Hp Hto Hb Hsz Hkept.
  pose proof (bits_left_next (v_table v) o (proj1 Ho)) as Hleft. rewrite Hbit in Hleft. cbn [Z.b2z] in Hleft.
  assert (victim_shows j v) as Hv by (unfold victim_shows, j_dst in *; by rewrite Hseg).
  split.
  - by apply (storage_ok_frame j1); [..|apply Hto].
  - done.
  - cbn [with_buffer j_seg]. by rewrite (to_seg _ _ _ _ _ _ Hto).
  - cbn [with_buffer j_seg_buffer]. lia.
  - exact (to_room _ _ _ _ _ _ Hto).
  - intros x Hx k' r' Hr' Hp'. change (j_lsm_tree (with_buffer j1 b)) with (j_lsm_tree j1) in Hr'.
    destruct (Z.eq_dec x o) as [->|Hne]; [by apply (to_unref _ _ _ _ _ _ Hto k' r' Hr'); rewrite Hp|].
    destruct (seg_block_range j gsss v x Hok Hv ltac:(lia)) as [_ Hi].
    pose proof (to_find _ _ _ _ _ _ Hto k' r' Hr' ltac:(congruence)) as Hr0. by apply (Hmoved x ltac:(lia) k' r' Hr0).
  - intros x Hx Hpx. exfalso. unfold seg_block in *. lia.
  - by apply (reads_kept_trans _ j).
Qed.

(** The record in hand after the search for the block the reverse index names. *)
Definition in_hand j gsss (cur : Z) (old : record) : record :=
  match found_or_nodata (tree_find (j_lsm_tree j) gsss cur) with Ok r => r | Err _ => old end.

Lemma in_hand_found j gsss cur old k r : tree_find (j_lsm_tree j) gsss k = Some r -> cur = k -> in_hand j gsss cur old = r.
Proof. intros Hr ->. unfold in_hand. by rewrite Hr. Qed.

(** The search changes nothing, and the record in hand is one of the index. *)
Lemma gc_inv_search m j0 j gsss v o old key t : gc_inv m j0 j gsss v o old -> storage_ok (with_tree j t) gsss ->
  tree_find t gsss = tree_find (j_lsm_tree j) gsss -> lt_memtable t = lt_memtable (j_lsm_tree j) ->
  lt_immutable t = lt_immutable (j_lsm_tree j) ->
  gc_inv m j0 (with_tree j t) gsss v o (in_hand j gsss key old).
Proof.
  intros [Hok Hpool Hseg Hroom Hputs Hmoved Hold Hreads] Hokt Hft Hmt Hit. split; try done.
  - unfold puts_room, compacted in *. change (j_lsm_tree (with_tree j t)) with t. by rewrite Hmt, Hit.
  - intros x Hx k r Hr. change (j_lsm_tree (with_tree j t)) with t in Hr. rewrite Hft in Hr. exact (Hmoved x Hx k r Hr).
  - intros x Hx. change (j_lsm_tree (with_tree j t)) with t. rewrite Hft. unfold in_hand.
    destruct (tree_find (j_lsm_tree j) gsss key) as [r|] eqn:Hr; cbn; [by eauto|]. by apply Hold.
  - apply (reads_kept_trans _ j); [done|]. intros k Hk. left. unfold read_page. change (j_seg_buffer (with_tree j t)) with (j_seg_buffer j).
    destruct (segbuf_query_block (j_seg_buffer j) k); [done|].
    apply (stored_page_same j (with_tree j t) gsss); [apply Hok|apply Hokt|change (j_lsm_tree (with_tree j t)) with t; by rewrite Hft|done].
Qed.

(** A block that no record leads to is passed over; only the reverse index forgets it. *)
Lemma gc_inv_passed m j0 j gsss v o r rit' : gc_inv m j0 j gsss v o r -> 0 <= m -> 0 <= o < BLOCKS_PER_SEGMENT ->
  Z.testbit (v_table v) o = true -> unreferenced j gsss (seg_block v o) -> 0 <= seg_block v o -> rit_wf rit' ->
  rit_view rit' = <[Z.to_nat (seg_block v o) := INF_ADDR]> (rit_view (j_rit j)) ->
  gc_inv m j0 (with_rit j rit') gsss v (o + 1) r.
Proof.
  intros [Hok Hpool Hseg Hroom Hputs Hmoved Hold Hreads] Hm0 Ho Hbit Hun Hq Hwf Hview.
  pose proof (bits_left_next (v_table v) o (proj1 Ho)) as Hleft. rewrite Hbit in Hleft. cbn [Z.b2z] in Hleft.
  pose proof (bits_left_nonneg (v_table v) (o + 1) ltac:(lia)) as Hln.
  assert (storage_ok (with_rit j rit') gsss) as Hok' by by apply (storage_ok_clear j gsss rit' (seg_block v o)).
  split; try done.
  - change (j_seg_buffer (with_rit j rit')) with (j_seg_buffer j). lia.
  - unfold puts_room, compacted in *. change (j_lsm_tree (with_rit j rit')) with (j_lsm_tree j).
    destruct Hputs as [|[? ?]]; [left; lia|right; split; [done|lia]].
  - intros x Hx. destruct (Z.eq_dec x o) as [->|Hne]; [exact Hun|]. apply (Hmoved x). lia.
  - intros x Hx Hp. apply (Hold x); [lia|done].
Qed.

(** A block that the record in hand leads to is taken out of the index and
    pushed to the buffer. *)
Lemma gc_block_moves m stale seg_key j0 j gsss v o old rit' cur : gc_inv m j0 j gsss v o old -> victim_shows j0 v ->
  0 <= m -> 0 <= o < BLOCKS_PER_SEGMENT -> Z.testbit (v_table v) o = true -> pba old = seg_block v o ->
  rit_view (j_rit j) !! Z.to_nat (seg_block v o) = Some cur -> rit_wf rit' ->
  rit_view rit' = <[Z.to_nat (seg_block v o) := INF_ADDR]> (rit_view (j_rit j)) ->
  let j1 := jindisk_put stale (with_rit j rit') cur None in
  exists b more, match aes_gcm_cipher_decrypt (dev_read (j_dev j1) (j_data_start j1 + pba old)) (key old) None (mac old) (pba old) with
    | Err _ => Some (j1, old, 0)
    | Ok plain => match segbuf_push_block seg_key (j_seg_buffer j1) cur plain false with None => None | Some b => Some (with_buffer j1 b, old, 1) end
    end = Some (with_buffer j1 b, old, more) /\ 0 <= more <= 1 /\ gc_inv m j0 (with_buffer j1 b) gsss v (o + 1) old.
Proof.
  intros Hinv Hv0 Hm0 Ho Hbit Hp Hcur Hwf Hview j1. pose proof Hinv as [Hok Hpool Hseg Hroom Hputs Hmoved Hold Hreads].
  assert (victim_shows j v) as Hv by (unfold victim_shows, j_dst in *; by rewrite Hseg).
  pose proof (bits_left_next (v_table v) o (proj1 Ho)) as Hleft. rewrite Hbit in Hleft. cbn [Z.b2z] in Hleft.
  pose proof (bits_left_nonneg (v_table v) (o + 1) ltac:(lia)) as Hln.
  destruct (seg_block_range j gsss v o Hok Hv Ho) as [Hq Hqi].
  destruct (Hold o ltac:(lia) Hp) as [k Hr]. destruct (block_owner j gsss _ k old Hok Hqi Hr Hp) as [Hk Hrev].
  assert (cur = k) as -> by congruence.
  assert (puts_room j gsss (bits_left (v_table v) (o + 1) + m + 1)) as Hputs'.
  { by replace (bits_left (v_table v) (o + 1) + m + 1) with (bits_left (v_table v) o + m) by lia. }
  pose proof (take_out stale j gsss rit' k old _ (bits_left (v_table v) (o + 1) + m) Hok Hr Hp Hqi Hwf Hview ltac:(lia) Hputs') as Hto.
  fold j1 in Hto. rewrite <- Hp in Hto, Hqi.
  destruct (taken_reads seg_key j j1 gsss k old _ Hok Hpool Hk Hr Hqi Hto ltac:(lia)) as (b & more & Hrun & Hmore & Hb & Hsz & Hkept).
  exists b, more. split; [done|]. split; [done|]. by apply (gc_inv_taken m j0 j j1 gsss v o old k b).
Qed.

Lemma gc_block_ok m stale seg_key j0 j gsss v o old count : gc_inv m j0 j gsss v o old -> victim_shows j0 v ->
  0 <= m -> 0 <= o < BLOCKS_PER_SEGMENT -> Z.testbit (v_table v) o = true ->
  exists j' old' count', gc_block stale seg_key j v o old count = Some (j', old', count') /\
    gc_inv m j0 j' gsss v (o + 1) old' /\ count <= count' <= count + 1.
Proof.
  intros Hinv Hv0 Hm0 Ho Hbit. pose proof (gi_ok _ _ _ _ _ _ _ Hinv) as Hok.
  assert (victim_shows j v) as Hv by (unfold victim_shows, j_dst in *; by rewrite (gi_seg _ _ _ _ _ _ _ Hinv)).
  destruct (seg_block_range j gsss v o Hok Hv Ho) as [Hq Hqi]. pose proof (so_rit_length _ _ Hok) as Hrl.
  unfold gc_block. change (v_segno v * BLOCKS_PER_SEGMENT + o) with (seg_block v o).
  destruct (rit_clear_ok (j_rit j) (seg_block v o) (so_rit _ _ Hok)) as (rit' & cur & Hreset & Hwf' & Hcur & Hview); [lia|]. rewrite Hreset.
  destruct (storage_ok_search j gsss (u32 cur) Hok) as (Hokt & Hs & Hft & Hmt & Hit).
  destruct (lsm_tree_search (j_lsm_tree j) (u32 cur)) as [t res]. cbn [fst snd] in *. subst res.
  fold (in_hand j gsss (u32 cur) old). change (with_tree (with_rit j rit') t) with (with_rit (with_tree j t) rit').
  pose proof (gc_inv_search m j0 j gsss v o old (u32 cur) t Hinv Hokt Hft Hmt Hit) as Hinvt.
  destruct (Z.eqb_spec (seg_block v o) (pba (in_hand j gsss (u32 cur) old))) as [Hqo|Hqo]; cbn [negb].
  - destruct (gc_block_moves m stale seg_key j0 (with_tree j t) gsss v o _ rit' cur Hinvt Hv0 Hm0 Ho Hbit (eq_sym Hqo) Hcur Hwf' Hview)
      as (b & more & Hrun & Hmore & Hnext).
    eexists _, _, (count + more). split; [|split; [exact Hnext|lia]].
    rewrite Hqo. destruct (aes_gcm_cipher_decrypt _ _ _ _ _) as [plain|e]; [destruct (segbuf_push_block _ _ _ _ _); [|done]|];
      injection Hrun as Hj <-; rewrite Hj; do 2 f_equal; lia.
  - eexists _, _, _. split; [done|]. split; [|lia].
    apply gc_inv_passed; [done..| |lia|done|done].
    intros k r Hr Hp. change (j_lsm_tree (with_tree j t)) with t in Hr. rewrite Hft in Hr.
    destruct (block_owner j gsss _ k r Hok Hqi Hr Hp) as [Hk Hrev]. apply Hqo.
    rewrite (in_hand_found j gsss (u32 cur) old k r Hr); [done|]. assert (cur = k) as -> by congruence. apply u32_small. lia.
Qed.

Lemma gc_loop_ok m stale seg_key j0 gsss v : victim_shows j0 v -> 0 <= m -> forall n j o old count,
  gc_inv m j0 j gsss v o old -> 0 <= o < BLOCKS_PER_SEGMENT -> BLOCKS_PER_SEGMENT <= o + Z.of_nat n ->
  exists j' old' count', gc_loop n stale seg_key j v o old count = Some (j', count') /\
    gc_inv m j0 j' gsss v BLOCKS_PER_SEGMENT old' /\ count <= count' <= count + bits_left (v_table v) o.
Proof.
  intros Hv Hm0. induction n as [|n IH]; intros j o old count Hinv Ho Hn; [lia|]. cbn [gc_loop].
  destruct (find_next_bit_spec (v_table v) BLOCKS_PER_SEGMENT o ltac:(lia)) as (Hr & Hset & Hclear).
  set (o' := find_next_bit (v_table v) BLOCKS_PER_SEGMENT o) in *.
  pose proof (gc_inv_skip m j0 j gsss v o o' old Hinv Hv ltac:(lia) ltac:(lia) Hclear) as Hinv'.
  assert (bits_left (v_table v) o' = bits_left (v_table v) o) as Hb.
  { replace o' with (o + Z.of_nat (Z.to_nat (o' - o))) by lia. apply bits_left_skip; [lia|]. intros i Hi. apply Hclear. lia. }
  pose proof (bits_left_nonneg (v_table v) o ltac:(lia)) as Hnn.
  destruct (Z.eqb_spec o' BLOCKS_PER_SEGMENT) as [Heq|Hne].
  { exists j, old, count. split; [done|]. split; [by rewrite <- Heq|lia]. }
  destruct (gc_block_ok m stale seg_key j0 j gsss v o' old count Hinv' Hv Hm0 ltac:(lia) ltac:(apply Hset; lia))
    as (j1 & old1 & count1 & Hrun & Hinv1 & Hc1). rewrite Hrun.
  pose proof (bits_left_next (v_table v) o' ltac:(lia)) as Hleft. rewrite Hset in Hleft by lia. cbn [Z.b2z] in Hleft.
  destruct (Z.ltb_spec (o' + 1) BLOCKS_PER_SEGMENT).
  - destruct (IH j1 (o' + 1) old1 count1 Hinv1 ltac:(lia) ltac:(lia)) as (j2 & old2 & count2 & Hrun2 & Hinv2 & Hc2).
    exists j2, old2, count2. split; [done|]. split; [done|]. lia.
  - exists j1, old1, count1. assert (BLOCKS_PER_SEGMENT = o' + 1) as Hend by lia.
    pose proof (bits_left_nonneg (v_table v) (o' + 1) ltac:(lia)). split; [done|]. split; [by rewrite Hend|lia].
Qed.

(** ** Freeing the segment *)

Definition segment_unreferenced j gsss (s : Z) : Prop :=
  forall x, 0 <= x < BLOCKS_PER_SEGMENT -> unreferenced j gsss (s * BLOCKS_PER_SEGMENT + x).

Lemma block_of_segment q : 0 <= q -> q = __block_to_segment q * BLOCKS_PER_SEGMENT + __block_offset_whthin_segment q.
Proof. unfold __block_to_segment, __block_offset_whthin_segment, BLOCKS_PER_SEGMENT. intros. divmod_lia. Qed.

Lemma dst_return_segment_works d s : dst_wf d -> 0 <= s < d_nr_segment d -> exists u, (dst_return_segment d s).2 = Ok u.
Proof.
  intros Hwf Hs. unfold dst_return_segment. pose proof (dw_length _ _ Hwf) as Hl. unfold dst_view in Hl.
  pose proof (dst_writes (d_array d) s {| nr_valid_block := 0; block_validity_table := 0 |} (dw_ok _ _ Hwf) ltac:(lia) (dst_range _ entry_wf_zero)) as Hok.
  destruct (darr_set (d_array d) s _) as [a [u|e]]; [|done]. by exists u.
Qed.

Lemma gc_free_ok j gsss s : storage_ok j gsss -> 0 <= s < d_nr_segment (j_dst j) -> s <> d_logging_segno (j_dst j) ->
  segment_unreferenced j gsss s ->
  storage_ok (gc_free j s) gsss /\ forall q, 0 <= q -> block_valid (j_dst (gc_free j s)) q =
    (if decide (__block_to_segment q = s) then false else block_valid (j_dst j) q).
Proof.
  intros Hok Hs Hlog Hun. pose proof (so_seg _ _ Hok) as [Hd Hsv [Hnr Hag]]. fold (j_dst j) in *. unfold gc_free.
  pose proof (dst_return_segment_map dst_range (j_dst j) s Hd (proj1 Hs)) as Hret.
  destruct (dst_return_segment_works (j_dst j) s Hd Hs) as [u Hu].
  destruct (dst_return_segment (j_dst j) s) as [d r]. cbn [fst snd] in *. subst r. destruct Hret as (Hd' & Hn' & Hl' & Hvic & Hview).
  pose proof (seg_validator_return_map (ls_svt (j_seg j)) s Hsv ltac:(lia)) as Hsvret.
  destruct (seg_validator_test_and_return (ls_svt (j_seg j)) s) as [svt rs]. destruct Hsvret as (Hsv' & Hns & Hrs). cbn [fst].
  assert (forall q, 0 <= q -> block_valid d q = if decide (__block_to_segment q = s) then false else block_valid (j_dst j) q) as Hval.
  { intros q Hq. unfold block_valid. rewrite Hview. pose proof (block_segment_nonneg q Hq). destruct (decide (__block_to_segment q = s)) as [->|Hne].
    - rewrite list_lookup_insert_eq by (pose proof (dw_length _ _ Hd); lia). apply Z.bits_0.
    - by rewrite list_lookup_insert_ne by lia. }
  split; [|done]. apply (storage_ok_seg j gsss); cbn [ls_dst ls_svt]; [done| |done|].
  - split; cbn [ls_dst ls_svt]; [done|done|]. split; cbn [ls_dst ls_svt]; [congruence|]. intros x Hx Hfree.
    destruct (Z.eq_dec x s) as [->|Hne].
    + split; [congruence|]. split; [intros v Hv; by apply Hvic in Hv as [_ Hv]|].
      intros e. rewrite Hview, list_lookup_insert_eq by (pose proof (dw_length _ _ Hd); lia). by intros [= <-].
    + assert (sv_view (ls_svt (j_seg j)) !! Z.to_nat x = Some false) as Hfree0.
      { destruct rs as [b|e]; [destruct Hrs as [_ Hrs]|]; rewrite Hrs in Hfree; [|done]. by rewrite list_lookup_insert_ne in Hfree by lia. }
      destruct (Hag x Hx Hfree0) as (Hx1 & Hx2 & Hx3). rewrite Hl'. split; [done|].
      split; [intros v Hv; apply Hvic in Hv as [Hv _]; by apply Hx2|]. intros e. rewrite Hview, list_lookup_insert_ne by lia. apply Hx3.
  - intros k r Hr Hinf. pose proof (proj1 (rl_pba _ _ _ (so_live _ _ Hok k r Hr Hinf))) as Hp.
    rewrite Hval by done. rewrite decide_False; [done|]. intros Heq.
    apply (Hun (__block_offset_whthin_segment (pba r)) (offset_in_segment _) k r Hr). rewrite <- Heq. by apply block_of_segment.
Qed.

(** Freeing a segment adds no victim. *)
Lemma gc_free_victims j s : alloc_wf (j_seg j) -> 0 <= s ->
  dst_victims (j_dst (gc_free j s)) ⊆+ dst_victims (j_dst j) /\
  d_logging_segno (j_dst (gc_free j s)) = d_logging_segno (j_dst j) /\ d_nr_segment (j_dst (gc_free j s)) = d_nr_segment (j_dst j).
Proof.
  intros [Hd _ _] Hs. fold (j_dst j) in Hd. change (j_dst (gc_free j s)) with (dst_return_segment (j_dst j) s).1.
  pose proof (dst_return_segment_map dst_range (j_dst j) s Hd Hs) as Hret.
  destruct (dst_return_segment (j_dst j) s) as [d r]. destruct Hret as (Hd' & Hn & Hl & Hvic & _). cbn [fst].
  split; [|by split]. apply NoDup_submseteq; [|intros w Hw; by apply Hvic in Hw as [Hw _]].
  eapply NoDup_fmap_1, (tw_nodup _ (dw_tree _ _ Hd')).
Qed.

(** ** Collecting *)

(** What the collector finds room for, and a record variable that does not
    name a block of the disk. *)
Record gc_ready j gsss (old : record) : Prop := {
  gr_ok : storage_ok j gsss;
  gr_pool : pool_wf (j_seg_buffer j);
  gr_room : forall v, v ∈ dst_victims (j_dst j) -> buffered (j_seg_buffer j) + v_nr_valid v < BLOCKS_PER_SEGMENT;
  gr_puts : forall v, v ∈ dst_victims (j_dst j) -> puts_room j gsss (v_nr_valid v);
  gr_logging : forall v, v ∈ dst_victims (j_dst j) -> v_segno v = d_logging_segno (j_dst j) -> v_nr_valid v <> 0;
  gr_old : d_nr_segment (j_dst j) * BLOCKS_PER_SEGMENT <= pba old
}.

Definition segment_collected j j' (s : Z) : Prop :=
  forall q, 0 <= q -> block_valid (j_dst j') q = (if decide (__block_to_segment q = s) then false else block_valid (j_dst j) q).

(** The same with [m v] more of room than the victim [v] needs. *)
Record gc_ready_with (m : victim -> Z) j gsss (old : record) : Prop := {
  gw_ok : storage_ok j gsss;
  gw_pool : pool_wf (j_seg_buffer j);
  gw_more : forall v, v ∈ dst_victims (j_dst j) -> 0 <= m v;
  gw_room : forall v, v ∈ dst_victims (j_dst j) -> buffered (j_seg_buffer j) + v_nr_valid v + m v < BLOCKS_PER_SEGMENT;
  gw_puts : forall v, v ∈ dst_victims (j_dst j) -> puts_room j gsss (v_nr_valid v + m v);
  gw_logging : forall v, v ∈ dst_victims (j_dst j) -> v_segno v = d_logging_segno (j_dst j) -> v_nr_valid v <> 0;
  gw_old : d_nr_segment (j_dst j) * BLOCKS_PER_SEGMENT <= pba old
}.

Lemma gc_ready_one j gsss old : gc_ready j gsss old -> gc_ready_with (fun _ => 0) j gsss old.
Proof.
  intros [Hok Hpool Hroom Hputs Hlogging Hold]. split; try done; intros v Hv; [rewrite Z.add_0_r; by apply Hroom|].
  rewrite Z.add_0_r. by apply Hputs.
Qed.

(** The victim is gone, the room for more is left. *)
Record segment_taken j j' gsss v (m : Z) : Prop := {
  st_room : buffered (j_seg_buffer j') + m < BLOCKS_PER_SEGMENT;
  st_puts : puts_room j' gsss m;
  st_victims : v :: dst_victims (j_dst j') ⊆+ dst_victims (j_dst j);
  st_logging : d_logging_segno (j_dst j') = d_logging_segno (j_dst j);
  st_segments : d_nr_segment (j_dst j') = d_nr_segment (j_dst j)
}.

Lemma gc_one_segment_with m stale seg_key old j gsss : gc_ready_with m j gsss old ->
  exists j' r, gc_one_segment stale seg_key old j = Some (j', r) /\ storage_ok j' gsss /\ pool_wf (j_seg_buffer j') /\ reads_kept j j' /\
    match r with
    | Ok count => exists v, v ∈ dst_victims (j_dst j) /\ segment_collected j j' (v_segno v) /\ segment_unreferenced j' gsss (v_segno v) /\
        0 <= count <= v_nr_valid v /\ segment_taken j j' gsss v (m v)
    | Err e => (e = ENODATA /\ forall v, v ∈ dst_victims (j_dst j) -> v_segno v = d_logging_segno (j_dst j)) /\
        (dst_victims (j_dst j') ⊆+ dst_victims (j_dst j) /\ d_logging_segno (j_dst j') = d_logging_segno (j_dst j))
    end.
Proof.
  intros [Hok Hpool Hmore Hroom Hputs Hlogging Hold]. pose proof (so_seg _ _ Hok) as Hal. unfold gc_one_segment.
  destruct (gc_pop_spec (S (length (dst_victims (j_dst j)))) (j_dst j) (al_dst _ Hal) ltac:(lia)) as (d & o & Hrun & Hpop). rewrite Hrun.
  pose proof (popped_alloc (j_seg j) d o Hal Hpop) as Hal'. pose proof Hpop as (Hd & Hview & Hn & Hlog & Hincl & Ho). set (j1 := with_seg j (with_ls_dst (j_seg j) d)).
  assert (storage_ok j1 gsss) as Hok1.
  { apply storage_ok_seg; [done|done|done|]. intros k r _ _. by apply (block_valid_view (j_dst j)). }
  destruct o as [v|].
  2: { exists j1, (Err ENODATA). do 3 (split; [done|]). split; [exact (reads_kept_refl j)|]. split; [by split|]. split; [|done].
       apply NoDup_submseteq; [|done]. eapply NoDup_fmap_1, (tw_nodup _ (dw_tree _ _ Hd)). }
  destruct Ho as (Hin & Hv & Hrest).
  pose proof (tw_range _ (dw_tree _ _ (al_dst _ Hal)) v Hin) as [Hvs Hvn].
  assert (v_segno v <> d_logging_segno (j_dst j)) as Hvl.
  { destruct Hv as [Hz|Hv]; [|done]. intros Heq. by apply (Hlogging v Hin Heq). }
  pose proof (dw_agree _ _ (al_dst _ Hal) v Hin (fun Heq => Hvl (eq_sym Heq))) as Hent. fold (j_dst j) in Hent.
  assert (victim_shows j1 v) as Hshows by (split; change (j_dst j1) with d; [by rewrite Hn|by rewrite Hview]).
  assert (v_nr_valid v = bits_left (v_table v) 0) as Hcount.
  { pose proof (dw_entries _ _ (al_dst _ Hal)) as Hall. rewrite Forall_lookup in Hall. destruct (Hall _ _ Hent) as [Hc _].
    cbn [nr_valid_block block_validity_table] in Hc. unfold bits_left. change (popcount (Z.to_nat 0) (v_table v)) with 0. lia. }
  assert (forall q, block_valid (j_dst j1) q = block_valid (j_dst j) q) as Hsame by (by apply block_valid_view).
  destruct (Z.eqb_spec (v_nr_valid v) 0) as [Hz|Hz].
  - assert (segment_unreferenced j1 gsss (v_segno v)) as Hun.
    { intros x Hx. apply invalid_unreferenced; [done|by apply (seg_block_range j1 gsss v x)|].
      pose proof (victim_block_valid j1 v x Hshows Hx) as Hb. unfold seg_block in Hb. rewrite Hb.
      apply (popcount_zero_bit bps); [|rewrite bps_val; lia]. unfold bits_left in Hcount. change (popcount (Z.to_nat 0) (v_table v)) with 0 in Hcount. lia. }
    destruct (gc_free_ok j1 gsss (v_segno v) Hok1) as [Hok2 Hval]; [change (j_dst j1) with d; by rewrite Hn|change (j_dst j1) with d; congruence|done|].
    exists (gc_free j1 (v_segno v)), (Ok 0). split; [done|]. split; [done|]. split; [done|]. split; [exact (reads_kept_refl j)|].
    exists v. split; [done|]. split; [intros q Hq; by rewrite Hval, Hsame|]. split; [exact Hun|]. split; [lia|].
    specialize (Hroom v Hin). specialize (Hputs v Hin). rewrite Hz in Hroom, Hputs. destruct (gc_free_victims j1 (v_segno v) Hal' (proj1 Hvs)) as (Hfv & Hfl & Hfn).
    split; [change (j_seg_buffer (gc_free j1 (v_segno v))) with (j_seg_buffer j); lia|exact Hputs| |by rewrite Hfl|by rewrite Hfn].
    etransitivity; [apply submseteq_skip, Hfv|exact Hrest].
  - assert (gc_inv (m v) j1 j1 gsss v 0 old) as Hinv.
    { split; try done; [change (j_seg_buffer j1) with (j_seg_buffer j); rewrite <- Hcount; by apply Hroom| |lia| |apply reads_kept_refl].
      - rewrite <- Hcount. by apply (Hputs v).
      - intros x Hx Hp. destruct (seg_block_range j1 gsss v x Hok1 Hshows ltac:(lia)) as [Hq _].
        change (j_dst j1) with d in Hq. rewrite Hn in Hq. change (d_nr_segment (ls_dst (j_seg j))) with (d_nr_segment (j_dst j)) in Hq. lia. }
    destruct (gc_loop_ok (m v) stale seg_key j1 gsss v Hshows (Hmore v Hin) (Z.to_nat BLOCKS_PER_SEGMENT) j1 0 old 0 Hinv) as (j2 & old2 & count & Hloop & Hinv2 & Hcnt);
      [unfold BLOCKS_PER_SEGMENT; lia..|]. rewrite Hloop.
    destruct Hinv2 as [Hok2 Hpool2 Hseg2 Hroom2 Hputs2 Hmoved2 _ Hreads2]. assert (j_dst j2 = d) as Hd2 by (unfold j_dst; by rewrite Hseg2).
    destruct (gc_free_ok j2 gsss (v_segno v) Hok2) as [Hok3 Hval]; [by rewrite Hd2, Hn|rewrite Hd2; congruence|intros x Hx; by apply Hmoved2|].
    exists (gc_free j2 (v_segno v)), (Ok count). split; [done|]. split; [done|]. split; [done|]. split; [exact Hreads2|].
    exists v. split; [done|]. split; [|split; [exact Hmoved2|split; [lia|]]].
    + intros q Hq. rewrite Hval, Hd2 by done. by rewrite <- Hsame.
    + destruct (gc_free_victims j2 (v_segno v)) as (Hfv & Hfl & Hfn); [by rewrite Hseg2|exact (proj1 Hvs)|].
      rewrite Hd2 in Hfv, Hfl, Hfn. rewrite (bits_left_end (v_table v)) in Hroom2, Hputs2.
      split; [change (j_seg_buffer (gc_free j2 (v_segno v))) with (j_seg_buffer j2); lia|exact Hputs2| |congruence|congruence].
      etransitivity; [apply submseteq_skip, Hfv|exact Hrest].
Qed.

Lemma gc_one_segment_ok stale seg_key old j gsss : gc_ready j gsss old ->
  exists j' r, gc_one_segment stale seg_key old j = Some (j', r) /\ storage_ok j' gsss /\ pool_wf (j_seg_buffer j') /\ reads_kept j j' /\
    match r with
    | Ok count => exists v, v ∈ dst_victims (j_dst j) /\ segment_collected j j' (v_segno v) /\ segment_unreferenced j' gsss (v_segno v) /\
        0 <= count <= v_nr_valid v
    | Err e => e = ENODATA /\ forall v, v ∈ dst_victims (j_dst j) -> v_segno v = d_logging_segno (j_dst j)
    end.
Proof.
  intros Hready. destruct (gc_one_segment_with _ stale seg_key old j gsss (gc_ready_one _ _ _ Hready)) as (j' & r & Hrun & Hok & Hpool & Hkept & Hr).
  exists j', r. do 4 (split; [done|]). destruct r as [count|e]; [|apply Hr]. destruct Hr as (v & Hv & Hc & Hu & Hn & _). by exists v.
Qed.


(** ** Rounds *)

(** The blocks that all the victims hold. *)
Definition victims_load (l : list victim) : Z := foldr (fun v n => v_nr_valid v + n) 0 l.

Lemma victims_load_app l l' : victims_load (l ++ l') = victims_load l + victims_load l'.
Proof. induction l as [|v l IH]; [done|]. cbn [app victims_load foldr]. fold (victims_load (l ++ l')) (victims_load l). lia. Qed.

#[local] Instance victims_load_perm : Proper ((≡ₚ) ==> (=)) victims_load.
Proof. intros l l' Hp. unfold victims_load. induction Hp; cbn [foldr]; lia. Qed.

Lemma victims_load_nonneg l : Forall (fun v => 0 <= v_nr_valid v) l -> 0 <= victims_load l.
Proof. induction 1 as [|v l Hv _ IH]; [done|]. cbn [victims_load foldr]. fold (victims_load l). lia. Qed.

Lemma victims_load_sub l l' : l ⊆+ l' -> Forall (fun v => 0 <= v_nr_valid v) l' -> victims_load l <= victims_load l'.
Proof.
  intros (k & Hp)%submseteq_Permutation Hnn. rewrite Hp in Hnn |- *. rewrite victims_load_app.
  apply Forall_app in Hnn as [_ Hnn%victims_load_nonneg]. lia.
Qed.

Lemma victims_load_member l v : v ∈ l -> Forall (fun v => 0 <= v_nr_valid v) l -> v_nr_valid v <= victims_load l.
Proof.
  intros Hv Hnn. pose proof (victims_load_sub [v] l ltac:(by apply singleton_submseteq_l) Hnn) as Hl.
  cbn [victims_load foldr] in Hl. lia.
Qed.

(** The collector finds room for the blocks of all the victims. *)
Record gc_all_ready j gsss (old : record) : Prop := {
  ga_ok : storage_ok j gsss;
  ga_pool : pool_wf (j_seg_buffer j);
  ga_room : buffered (j_seg_buffer j) + victims_load (dst_victims (j_dst j)) < BLOCKS_PER_SEGMENT;
  ga_puts : puts_room j gsss (victims_load (dst_victims (j_dst j)));
  ga_logging : forall v, v ∈ dst_victims (j_dst j) -> v_segno v = d_logging_segno (j_dst j) -> v_nr_valid v <> 0;
  ga_old : d_nr_segment (j_dst j) * BLOCKS_PER_SEGMENT <= pba old
}.

Lemma dst_victims_nonneg d : dst_wf d -> Forall (fun v => 0 <= v_nr_valid v) (dst_victims d).
Proof. intros Hd. apply Forall_forall. intros v Hv. apply (tw_range _ (dw_tree _ _ Hd) v Hv). Qed.

Lemma gc_all_ready_with j gsss old : gc_all_ready j gsss old ->
  gc_ready_with (fun v => victims_load (dst_victims (j_dst j)) - v_nr_valid v) j gsss old.
Proof.
  intros [Hok Hpool Hroom Hputs Hlogging Hold]. pose proof (dst_victims_nonneg _ (al_dst _ (so_seg _ _ Hok))) as Hnn. fold (j_dst j) in Hnn.
  split; try done; intros v Hv.
  - pose proof (victims_load_member _ v Hv Hnn). lia.
  - lia.
  - by replace (v_nr_valid v + _) with (victims_load (dst_victims (j_dst j))) by lia.
Qed.

(** The state after a round is ready for the next one. *)
Lemma gc_all_ready_next j j' gsss old v nr : gc_all_ready j gsss old -> storage_ok j' gsss -> pool_wf (j_seg_buffer j') ->
  segment_taken j j' gsss v (victims_load (dst_victims (j_dst j)) - v_nr_valid v) ->
  gc_all_ready (with_seg j' (sa_nr_valid_segment_set (j_seg j') nr)) gsss old.
Proof.
  intros [Hok0 _ _ _ Hlogging Hold] Hok Hpool [Hroom Hputs Hsub Hlog Hn]. pose proof (dst_victims_nonneg _ (al_dst _ (so_seg _ _ Hok0))) as Hnn. fold (j_dst j) in Hnn.
  pose proof (so_seg _ _ Hok) as [Hd Hsv Hag]. fold (j_dst j') in Hd.
  set (j1 := with_seg j' _). assert (storage_ok j1 gsss) as Hok1 by (by apply storage_ok_seg).
  assert (victims_load (dst_victims (j_dst j')) <= victims_load (dst_victims (j_dst j)) - v_nr_valid v) as Hload.
  { pose proof (victims_load_sub _ _ Hsub) as Hl. cbn [victims_load foldr] in Hl. fold (victims_load (dst_victims (j_dst j'))) in Hl. specialize (Hl Hnn). lia. }
  pose proof (victims_load_nonneg _ (dst_victims_nonneg _ Hd)) as Hl0.
  split; try done; change (j_dst j1) with (j_dst j').
  - change (j_seg_buffer j1) with (j_seg_buffer j'). lia.
  - by eapply puts_room_less.
  - intros w Hw. rewrite Hlog. apply Hlogging. eapply elem_of_submseteq; [|exact Hsub]. by right.
  - by rewrite Hn.
Qed.

(** Fuel for one round more than there are victims is enough. *)
Lemma gc_rounds_ok stale seg_key old target gsss : forall fuel clean j, gc_all_ready j gsss old ->
  (length (dst_victims (j_dst j)) < fuel)%nat ->
  exists j', gc_rounds fuel stale seg_key old clean target j = Some j' /\ storage_ok j' gsss /\ pool_wf (j_seg_buffer j') /\ reads_kept j j' /\
    ((forall v, v ∈ dst_victims (j_dst j') -> v_segno v = d_logging_segno (j_dst j')) \/
     target <= clean + (victims_load (dst_victims (j_dst j)) - victims_load (dst_victims (j_dst j')))).
Proof.
  induction fuel as [|fuel IH]; intros clean j Hready Hf; [lia|]. cbn [gc_rounds].
  pose proof (ga_ok _ _ _ Hready) as Hok. pose proof (ga_pool _ _ _ Hready) as Hpool.
  destruct (Z.ltb_spec clean target); [|exists j; do 3 (split; [done|]); split; [apply reads_kept_refl|right; lia]].
  destruct (gc_one_segment_with _ stale seg_key old j gsss (gc_all_ready_with _ _ _ Hready)) as (j1 & r & -> & Hok1 & Hpool1 & Hkept1 & Hr).
  destruct r as [count|e].
  2: { exists j1. do 4 (split; [done|]). left. destruct Hr as [[_ Hall] [Hsub ->]]. intros v Hv. apply Hall. by eapply elem_of_submseteq. }
  destruct Hr as (v & Hv & _ & _ & Hcount & Htaken). pose proof (submseteq_length _ _ (st_victims _ _ _ _ _ Htaken)) as Hlen. cbn [length] in Hlen.
  pose proof (gc_all_ready_next j j1 gsss old v (u64 (ls_nr_valid_segment (j_seg j1) - 1)) Hready Hok1 Hpool1 Htaken) as Hready1.
  destruct (IH (clean + count) _ Hready1) as (j2 & -> & Hok2 & Hpool2 & Hkept2 & Hend); [cbn [with_seg]; unfold j_dst in *; cbn; lia|].
  exists j2. do 3 (split; [done|]). split; [by apply (reads_kept_trans _ j1)|].
  destruct Hend as [Hend|Hend]; [by left|right]. change (j_dst (with_seg j1 _)) with (j_dst j1) in Hend.
  pose proof (victims_load_sub _ _ (st_victims _ _ _ _ _ Htaken) (dst_victims_nonneg _ (al_dst _ (so_seg _ _ Hok)))) as Hl.
  cbn [victims_load foldr] in Hl. fold (victims_load (dst_victims (j_dst j1))) in Hl. lia.
Qed.

(** [sa_background_gc], which the timer queues. *)
Definition sa_background_gc (NR_SEGMENT stale : Z) (seg_key : list Z) (old : record) (fuel : nat) j : option jindisk :=
  if ls_nr_valid_segment (j_seg j) <? BACKGROUND_GC_THRESHOLD NR_SEGMENT then Some j
  else gc_rounds fuel stale seg_key old 0 (LEAST_CLEAN_SEGMENT_ONCE * BLOCKS_PER_SEGMENT) j.

Lemma sa_background_foreground NR_SEGMENT stale seg_key old fuel j :
  sa_background_gc NR_SEGMENT stale seg_key old fuel j = sa_foreground_gc NR_SEGMENT stale seg_key old fuel j.
Proof. done. Qed.


(** ** Where data can be lost *)

(** A block that is still in any buffer of the pool, also in one that was
    flushed, is taken out of the index and not put into the current buffer: its
    only copy is the one in memory, and no flush of it is due. *)
Theorem gc_block_drops_flushed stale seg_key j gsss v o old count k r data :
  storage_ok j gsss -> pool_wf (j_seg_buffer j) -> victim_shows j v -> 0 <= o < BLOCKS_PER_SEGMENT -> puts_room j gsss 1 ->
  tree_find (j_lsm_tree j) gsss k = Some r -> pba r = seg_block v o -> segbuf_query_block (j_seg_buffer j) k = Ok data ->
  exists j' old' count', gc_block stale seg_key j v o old count = Some (j', old', count') /\
    stored_page j' k = Untouched /\ j_seg_buffer j' = j_seg_buffer j.
Proof.
  intros Hok Hpool Hv Ho Hputs Hr Hp Hdata. destruct (seg_block_range j gsss v o Hok Hv Ho) as [Hq Hqi].
  pose proof (so_rit_length _ _ Hok) as Hrl. destruct (block_owner j gsss (seg_block v o) k r Hok Hqi Hr Hp) as [Hk Hrev].
  unfold gc_block. change (v_segno v * BLOCKS_PER_SEGMENT + o) with (seg_block v o). set (q := seg_block v o) in *.
  destruct (rit_clear_ok (j_rit j) q (so_rit _ _ Hok)) as (rit' & cur & Hreset & Hwf' & Hcur & Hview); [lia|]. rewrite Hreset.
  assert (cur = k) as -> by congruence. destruct (storage_ok_search j gsss (u32 k) Hok) as (Hokt & Hs & Hft & Hmt & Hit).
  destruct (lsm_tree_search (j_lsm_tree j) (u32 k)) as [t res]. cbn [fst snd] in *. subst res. rewrite u32_small by lia. rewrite Hr. cbn [found_or_nodata].
  set (jt := with_tree j t) in *. change (with_tree (with_rit j rit') t) with (with_rit jt rit').
  rewrite Hp, Z.eqb_refl. cbn [negb].
  assert (tree_find (j_lsm_tree jt) gsss k = Some r) as Hrect by (change (j_lsm_tree jt) with t; by rewrite Hft).
  assert (puts_room jt gsss (0 + 1)) as Hputs'.
  { unfold puts_room, compacted in *. change (j_lsm_tree jt) with t. by rewrite Hmt, Hit. }
  pose proof (take_out stale jt gsss rit' k r q 0 Hokt Hrect Hp Hqi Hwf' Hview ltac:(lia) Hputs') as Hto.
  set (j1 := jindisk_put stale (with_rit jt rit') k None) in *.
  assert (j_seg_buffer j1 = j_seg_buffer j) as Hbuf by exact (to_buffer _ _ _ _ _ _ Hto).
  destruct (aes_gcm_cipher_decrypt _ _ _ _ _) as [plain|e].
  - destruct (push_block_spec seg_key (j_seg_buffer j1) k plain false ltac:(by rewrite Hbuf) Hk) as (b & Hpush & Hpost).
    rewrite Hpush. rewrite Hbuf, Hdata in Hpost. cbn [negb andb is_ok] in Hpost.
    eexists _, _, _. split; [done|]. split; [exact (to_here _ _ _ _ _ _ Hto)|by rewrite Hpost].
  - eexists _, _, _. split; [done|]. split; [exact (to_here _ _ _ _ _ _ Hto)|done].
Qed.

(** A victim without valid blocks is freed also when it is the logging segment,
    for which the number is not kept up to date: blocks logged since are
    invalidated, and the segment is handed out while it is still written to. *)
Theorem gc_frees_logging_segment stale seg_key old j d v : alloc_wf (j_seg j) ->
  dst_pop_victim (j_dst j) = (d, Some v) -> v_nr_valid v = 0 -> v_segno v = d_logging_segno (j_dst j) ->
  exists j', gc_one_segment stale seg_key old j = Some (j', Ok 0) /\ d_logging_segno (j_dst j') = v_segno v /\
    segment_collected j j' (v_segno v) /\ j_lsm_tree j' = j_lsm_tree j.
Proof.
  intros [Hd Hsv [Hnr Hag]] Hpop Hz Hs. fold (j_dst j) in *. unfold gc_one_segment. cbn [gc_pop]. rewrite Hpop, Hz, Z.eqb_refl. cbv beta iota zeta. rewrite ?Hz, ?Z.eqb_refl.
  pose proof (dst_pop_victim_map (j_dst j) Hd) as Hmap. rewrite Hpop in Hmap. destruct Hmap as (Hd' & Hview & Hn & Hlog & Hin & _).
  pose proof (tw_range _ (dw_tree _ _ Hd) v Hin) as [Hvs _].
  set (j1 := with_seg j (with_ls_dst (j_seg j) d)). eexists. split; [done|]. unfold gc_free.
  change (j_dst j1) with d. pose proof (dst_return_segment_map dst_range d (v_segno v) Hd' (proj1 Hvs)) as Hret.
  destruct (dst_return_segment_works d (v_segno v) Hd' ltac:(lia)) as [u Hu].
  destruct (dst_return_segment d (v_segno v)) as [d2 r]. cbn [fst snd] in *. subst r. destruct Hret as (_ & _ & Hl2 & _ & Hview2).
  split; [by change (d_logging_segno d2 = v_segno v); congruence|]. split; [|done].
  intros q Hq. change (block_valid d2 q = if decide (__block_to_segment q = v_segno v) then false else block_valid (j_dst j) q).
  unfold block_valid. rewrite Hview2, Hview. pose proof (block_segment_nonneg q Hq). destruct (decide (__block_to_segment q = v_segno v)) as [->|Hne].
  - rewrite list_lookup_insert_eq by (rewrite <- Hview; pose proof (dw_length _ _ Hd'); lia). apply Z.bits_0.
  - by rewrite list_lookup_insert_ne by lia.
Qed.
End gc.

(** ** Concrete runs *)

(** Block 9 is at block 0 of segment 0, the victim; block 3 is stale. *)
Definition example_gc_record : record := {| pba := 0; mac := []; key := [1] |}.

Definition example_gc : jindisk :=
  {| j_data_start := 100; j_dev := ∅ : gmap Z (list Z);
     j_lsm_tree := {| lt_memtable := (rbtree_memtable_put rbtree_memtable_create 9 (Some example_gc_record)).1;
                      lt_immutable := None; lt_levels := []; lt_works := 0 |};
     j_rit := {| rit_array := {| lba := 9 |} :: replicate 3071 {| lba := INF_ADDR |} |};
     j_seg := example_logging; j_seg_buffer := example_storage_buffer |}.

Lemma example_gc_table : memtable_wf (lt_memtable (j_lsm_tree example_gc)) /\
  mt_map (lt_memtable (j_lsm_tree example_gc)) = {[9 := (Some example_gc_record, None)]}.
Proof.
  cbn [example_gc j_lsm_tree lt_memtable].
  pose proof (memtable_put_map rbtree_memtable_create 9 (Some example_gc_record) memtable_create_wf ltac:(lia)) as Hput.
  destruct (rbtree_memtable_put rbtree_memtable_create 9 (Some example_gc_record)) as [m old]. destruct Hput as (Hwf & Hm & _).
  split; [done|]. cbn [fst]. rewrite Hm. done.
Qed.

Lemma example_gc_ready : gc_ready example_gc [] negative.
Proof.
  destruct example_gc_table as [Hwf Hmap].
  assert (forall v, v ∈ dst_victims (j_dst example_gc) -> v = victim_create 0 2 9) as Hvic.
  { change (dst_victims (j_dst example_gc)) with (dst_victims example_dst). rewrite example_dst_victims.
    intros v ->%list_elem_of_singleton. done. }
  split.
  - split.
    + split; [exact Hwf|done|constructor].
    + constructor; [by vm_compute|]. apply Forall_replicate. by vm_compute.
    + unfold rit_view. cbn [example_gc j_rit rit_array]. rewrite length_fmap. unfold darr_view. cbn [rit_list list_array length].
      rewrite length_replicate. vm_compute. congruence.
    + exact example_alloc_wf.
    + intros k r Hr Hinf. unfold tree_find, layer, mem_find in Hr. rewrite Hmap in Hr.
      destruct (decide (k = 9)) as [->|Hne]; [|by rewrite lookup_singleton_ne in Hr].
      rewrite lookup_singleton_eq in Hr. injection Hr as <-. split; [lia|by vm_compute|by vm_compute|done].
    + intros k r. rewrite Hmap. destruct (decide (k = 9)) as [->|Hne]; [|by rewrite lookup_singleton_ne].
      rewrite lookup_singleton_eq. intros [= <-]. done.
  - exact example_storage_pool.
  - intros v ->%Hvic. vm_compute. reflexivity.
  - intros v ->%Hvic. left. vm_compute. reflexivity.
  - intros v ->%Hvic _. done.
  - vm_compute. congruence.
Qed.


Lemma example_gc_all_ready : gc_all_ready example_gc [] negative.
Proof.
  destruct example_gc_ready as [Hok Hpool Hroom Hputs Hlogging Hold].
  assert (victims_load (dst_victims (j_dst example_gc)) = 2) as Hload.
  { change (dst_victims (j_dst example_gc)) with (dst_victims example_dst). by rewrite example_dst_victims. }
  split; [done|done| | |done|done]; rewrite Hload; [vm_compute; reflexivity|left; vm_compute; reflexivity].
Qed.

