(* ===== verification/Checkpoint.v ===== *)
(** * Checkpoint: the two copies of the tables

    Every table of the metadata has two places on the device; a bit of
    [valid_fields] tells which one is in use. [metadata_init] ([metadata.c])
    opens the tables at those places; [add_checkpoint_pack_record]
    ([dm-jindisk.c]) copies every table to its other place and logs a record with
    the complemented bits, so that a restart can go back to the copies. *)
From S2P Require Import Prelude Bytes Layout BlockIo DiskStructs Metadata Crypto Journal.

(** [NR_CHECKPOINT_FIELDS] is the number of the others. *)
Inductive checkpoint_pack_field : Type := DATA_SVT | DATA_DST | DATA_RIT | INDEX_SVT | INDEX_BITC.

#[export] Instance checkpoint_pack_field_eq_dec : EqDecision checkpoint_pack_field.
Proof. solve_decision. Defined.

Definition checkpoint_fields : list checkpoint_pack_field := [DATA_SVT; DATA_DST; DATA_RIT; INDEX_SVT; INDEX_BITC].
Definition NR_CHECKPOINT_FIELDS : Z := 5.

Definition field_index (f : checkpoint_pack_field) : Z :=
  match f with DATA_SVT => 0 | DATA_DST => 1 | DATA_RIT => 2 | INDEX_SVT => 3 | INDEX_BITC => 4 end.

(** ** Where the tables are opened *)

(** The blocks a table occupies: the start of the copy in use, and [blk_count]. *)
Record table_place : Type := TablePlace { tp_start : Z; tp_blk_count : Z; tp_nr : Z }.

Definition seg_validator_init (start nr_segment valid_field : Z) : table_place :=
  let blk_count := __seg_validity_table_blocks nr_segment in
  {| tp_start := start +u valid_field * blk_count; tp_blk_count := blk_count; tp_nr := nr_segment |}.

Definition reverse_index_table_init (start nr_block valid_field : Z) : table_place :=
  let blk_count := __reverse_index_table_blocks nr_block in
  {| tp_start := start +u valid_field * blk_count; tp_blk_count := blk_count; tp_nr := nr_block |}.

Definition dst_init_place (start nr_segment valid_field : Z) : table_place :=
  let blk_count := __data_seg_table_blocks nr_segment in
  {| tp_start := start +u valid_field * blk_count; tp_blk_count := blk_count; tp_nr := nr_segment |}.

(** [max_fd] of [bit_catalogue_init]. *)
Definition catalogue_max_fd (sb : superblock) : Z :=
  __total_bit (nr_disk_level sb) (common_ratio sb) (max_disk_level_capacity sb) +u __extra_bit (max_disk_level_capacity sb).

(** [bit_validity_table] and [file_stats]. *)
Definition bit_catalogue_init_places (sb : superblock) (valid_svt valid_bitc : Z) : table_place * table_place :=
  let start := block_index_table_catalogue_start sb in
  let max_fd := catalogue_max_fd sb in
  let bit_validity_table := seg_validator_init start max_fd valid_svt in
  let file_stats_start := start +u tp_blk_count bit_validity_table *u NR_CHECKPOINT_PACKS in
  let blk_count := __bit_catalogue_blocks max_fd in
  (bit_validity_table, {| tp_start := file_stats_start +u valid_bitc * blk_count; tp_blk_count := blk_count; tp_nr := max_fd |}).

(** [test_bit(f, valid_fields) ? 1 : 0] *)
Definition valid_field (f : checkpoint_pack_field) (valid_fields : Z) : Z := Z.b2z (Z.testbit valid_fields (field_index f)).

(** The arguments [metadata_init] opens the tables with. *)
Definition metadata_place (sb : superblock) (valid_fields : Z) (f : checkpoint_pack_field) : table_place :=
  match f with
  | DATA_SVT => seg_validator_init (seg_validity_table_start sb) (nr_segment sb) (valid_field DATA_SVT valid_fields)
  | DATA_RIT => reverse_index_table_init (reverse_index_table_start sb) (nr_segment sb *u blocks_per_seg sb) (valid_field DATA_RIT valid_fields)
  | DATA_DST => dst_init_place (data_seg_table_start sb) (nr_segment sb) (valid_field DATA_DST valid_fields)
  | INDEX_SVT => (bit_catalogue_init_places sb (valid_field INDEX_SVT valid_fields) (valid_field INDEX_BITC valid_fields)).1
  | INDEX_BITC => (bit_catalogue_init_places sb (valid_field INDEX_SVT valid_fields) (valid_field INDEX_BITC valid_fields)).2
  end.

(** ** Copying the tables *)

Section checkpoint.
Context `{BlockDevSpec}.
Implicit Types (d : dev) (sb : superblock).

(** [backup_metadata]: block [i] on; [n] are left. *)
Fixpoint backup_loop (n : nat) d (dst src i : Z) : dev :=
  match n with
  | O => d
  | S n => backup_loop n (dev_write d (dst + i) [dev_read d (src + i)]) dst src (i + 1)
  end.

Definition backup_metadata d (dst src blk_count : Z) : dev := backup_loop (Z.to_nat blk_count) d dst src 0.

(** [base] and [blk_count] of the [switch]. *)
Definition checkpoint_base sb (f : checkpoint_pack_field) : Z :=
  match f with
  | DATA_SVT => seg_validity_table_start sb
  | DATA_DST => data_seg_table_start sb
  | DATA_RIT => reverse_index_table_start sb
  | INDEX_SVT => block_index_table_catalogue_start sb
  | INDEX_BITC => block_index_table_catalogue_start sb +u tp_blk_count (metadata_place sb 0 INDEX_SVT) *u NR_CHECKPOINT_PACKS
  end.

Definition checkpoint_blk_count sb (f : checkpoint_pack_field) : Z := tp_blk_count (metadata_place sb 0 f).

(** One turn of the loop over the fields. *)
Definition backup_field sb (valid_fields : Z) d (f : checkpoint_pack_field) : dev :=
  let base := checkpoint_base sb f in
  let blk_count := checkpoint_blk_count sb f in
  if Z.testbit valid_fields (field_index f) then backup_metadata d base (base + blk_count) blk_count
  else backup_metadata d (base + blk_count) base blk_count.

Definition backup_fields sb (valid_fields : Z) d : dev := foldl (backup_field sb valid_fields) d checkpoint_fields.

(** [bitmap_complement(.., valid_fields, NR_CHECKPOINT_FIELDS)]: the bitmap is one
    word. *)
Definition complement_fields (valid_fields : Z) : Z := u64 (Z.lnot valid_fields).

(** ** What the copies hold *)

Lemma backup_loop_spec dst src : forall n d i, 0 <= i ->
  (forall x y, i <= x < i + Z.of_nat n -> i <= y < i + Z.of_nat n -> dst + x <> src + y) ->
  forall q, dev_read (backup_loop n d dst src i) q =
    if decide (dst + i <= q < dst + i + Z.of_nat n) then dev_read d (src + (q - dst)) else dev_read d q.
Proof.
  induction n as [|n IH]; intros d i Hi Hdisj q; cbn [backup_loop]; [by rewrite decide_False by lia|].
  rewrite IH; [|lia|intros x y Hx Hy; apply Hdisj; lia]. rewrite !dev_write_one.
  destruct (decide (dst + (i + 1) <= q < dst + (i + 1) + Z.of_nat n)).
  - rewrite (decide_False (P := _ = dst + i)) by (specialize (Hdisj i (q - dst)); lia). by rewrite decide_True by lia.
  - destruct (decide (q = dst + i)) as [->|Hne]; [|by rewrite decide_False by lia].
    rewrite decide_True by lia. f_equal. lia.
Qed.

Lemma backup_metadata_spec d dst src n q : 0 <= n -> dst + n <= src \/ src + n <= dst ->
  dev_read (backup_metadata d dst src n) q = if decide (dst <= q < dst + n) then dev_read d (src + (q - dst)) else dev_read d q.
Proof.
  intros Hn Hdisj. unfold backup_metadata. rewrite backup_loop_spec by lia. rewrite Z2Nat.id by done.
  destruct (decide (dst <= q < dst + n)), (decide (dst + 0 <= q < dst + 0 + n)); (done || lia).
Qed.

(** The copy in use and the other one. *)
Definition live_start sb (valid_fields : Z) (f : checkpoint_pack_field) : Z :=
  checkpoint_base sb f + valid_field f valid_fields * checkpoint_blk_count sb f.
Definition backup_start sb (valid_fields : Z) (f : checkpoint_pack_field) : Z :=
  checkpoint_base sb f + (1 - valid_field f valid_fields) * checkpoint_blk_count sb f.

(** The places of the fields: both copies of each lie between its base and its
    limit, in the order of the layout. *)
Record places_ok sb : Prop := {
  po_count : forall f, 0 <= checkpoint_blk_count sb f;
  po_apart : forall f g, f <> g ->
    checkpoint_base sb f + 2 * checkpoint_blk_count sb f <= checkpoint_base sb g \/
    checkpoint_base sb g + 2 * checkpoint_blk_count sb g <= checkpoint_base sb f
}.

Lemma backup_field_spec sb valid_fields d f q : places_ok sb ->
  dev_read (backup_field sb valid_fields d f) q =
    if decide (backup_start sb valid_fields f <= q < backup_start sb valid_fields f + checkpoint_blk_count sb f)
    then dev_read d (live_start sb valid_fields f + (q - backup_start sb valid_fields f)) else dev_read d q.
Proof.
  intros [Hc _]. specialize (Hc f). unfold backup_field, live_start, backup_start, valid_field.
  destruct (Z.testbit valid_fields (field_index f)); cbn [Z.b2z]; rewrite backup_metadata_spec by lia.
  - replace (checkpoint_base sb f + (1 - 1) * checkpoint_blk_count sb f) with (checkpoint_base sb f) by lia. by rewrite Z.mul_1_l.
  - replace (checkpoint_base sb f + (1 - 0) * checkpoint_blk_count sb f) with (checkpoint_base sb f + checkpoint_blk_count sb f) by lia.
    by rewrite Z.mul_0_l, Z.add_0_r.
Qed.

Definition in_copy (start n q : Z) : Prop := start <= q < start + n.

#[local] Instance in_copy_dec start n q : Decision (in_copy start n q).
Proof. unfold in_copy. apply _. Defined.

Lemma copies_apart sb valid_fields f g x : places_ok sb -> f <> g -> 0 <= x < checkpoint_blk_count sb f ->
  ~ in_copy (backup_start sb valid_fields g) (checkpoint_blk_count sb g) (live_start sb valid_fields f + x) /\
  ~ in_copy (backup_start sb valid_fields g) (checkpoint_blk_count sb g) (backup_start sb valid_fields f + x).
Proof.
  intros [Hc Ha] Hne Hx. pose proof (Hc f) as Hcf. pose proof (Hc g) as Hcg. specialize (Ha f g Hne).
  unfold in_copy, live_start, backup_start, valid_field.
  destruct (Z.testbit valid_fields (field_index f)), (Z.testbit valid_fields (field_index g)); cbn [Z.b2z]; lia.
Qed.

Lemma live_apart sb valid_fields f x : places_ok sb -> 0 <= x < checkpoint_blk_count sb f ->
  ~ in_copy (backup_start sb valid_fields f) (checkpoint_blk_count sb f) (live_start sb valid_fields f + x).
Proof.
  intros [Hc _] Hx. pose proof (Hc f) as Hcf. unfold in_copy, live_start, backup_start, valid_field.
  destruct (Z.testbit valid_fields (field_index f)); cbn [Z.b2z]; lia.
Qed.

Lemma backup_fields_spec sb valid_fields : places_ok sb -> forall fs d, NoDup fs ->
  let d' := foldl (backup_field sb valid_fields) d fs in
  (forall f x, f ∈ fs -> 0 <= x < checkpoint_blk_count sb f ->
     dev_read d' (backup_start sb valid_fields f + x) = dev_read d (live_start sb valid_fields f + x)) /\
  (forall q, (forall f, f ∈ fs -> ~ in_copy (backup_start sb valid_fields f) (checkpoint_blk_count sb f) q) -> dev_read d' q = dev_read d q).
Proof.
  intros Hok. induction fs as [|f fs IH]; intros d Hnd; cbn [foldl].
  { split; [|done]. by intros f x Hin%elem_of_nil. }
  apply NoDup_cons in Hnd as [Hnin Hnd]. specialize (IH (backup_field sb valid_fields d f) Hnd). cbv zeta in IH.
  destruct IH as [IHc IHo]. cbv zeta. split.
  - intros g x [->|Hg]%elem_of_cons Hx.
    + rewrite IHo, backup_field_spec by (done || (intros h Hh; apply (copies_apart sb valid_fields f h x Hok); [congruence|done])).
      rewrite decide_True by lia. f_equal. lia.
    + rewrite IHc, backup_field_spec by done. rewrite decide_False; [done|].
      apply (copies_apart sb valid_fields g f x Hok); [congruence|done].
  - intros q Hq. rewrite IHo by (intros g Hg; apply Hq; by right). rewrite backup_field_spec by done.
    rewrite decide_False; [done|]. apply (Hq f). by left.
Qed.

(** ** The layout of a formatted device *)

Lemma metadata_place_start sb valid_fields f : tp_start (metadata_place sb valid_fields f) =
  u64 (checkpoint_base sb f + valid_field f valid_fields * checkpoint_blk_count sb f).
Proof. by destruct f. Qed.

Lemma metadata_place_count sb valid_fields f : tp_blk_count (metadata_place sb valid_fields f) = checkpoint_blk_count sb f.
Proof. by destruct f. Qed.

Lemma format_counts NR_SEGMENT csum0 lcp0 : 0 <= NR_SEGMENT < 2 ^ 45 ->
  let sb := superblock_format NR_SEGMENT csum0 lcp0 in
  let n := NR_SEGMENT + 320 in
  let bits := 2 * total_bit_z n in
  let count f := match f with DATA_SVT => seg_table_blocks_z n | DATA_DST => n / 30 + 1 | DATA_RIT => n * 1024 / 512 + 1
                 | INDEX_SVT => seg_table_blocks_z bits | INDEX_BITC => bits / 46 + 1 end in
  (forall f, 0 <= count f < 2 ^ 48) /\
  (forall f, checkpoint_blk_count sb f = count f) /\
  0 <= seg_validity_table_start sb < 2 ^ 60 /\
  checkpoint_base sb DATA_SVT = seg_validity_table_start sb /\
  checkpoint_base sb DATA_DST = seg_validity_table_start sb + 2 * count DATA_SVT /\
  checkpoint_base sb DATA_RIT = checkpoint_base sb DATA_DST + 2 * count DATA_DST /\
  checkpoint_base sb INDEX_SVT = checkpoint_base sb DATA_RIT + 2 * count DATA_RIT /\
  checkpoint_base sb INDEX_BITC = checkpoint_base sb INDEX_SVT + 2 * count INDEX_SVT /\
  data_start sb = checkpoint_base sb INDEX_BITC + 2 * count INDEX_BITC /\
  nr_segment sb *u blocks_per_seg sb = n * 1024 /\ nr_segment sb = n /\ catalogue_max_fd sb = bits.
Proof.
  intros Hn. cbv zeta. rewrite superblock_format_exact by done. cbv zeta.
  set (n := NR_SEGMENT + 320). destruct (region_blocks_bounds n ltac:(lia)) as (Hi & Hib & Hs & Hsb & Hd & Hdb & Hr & Hrb & Ht & Htb & Hv & Hvb & Hc & Hcb).
  rewrite (u64_small (n * 1024)) in Hi, Ht by lia.
  set (bits := 2 * total_bit_z n) in *. set (sb := Superblock _ _ _ _ _ _ _ _ _ _ _ _ _ _ _ _ _ _ _).
  assert (nr_segment sb *u blocks_per_seg sb = n * 1024) as Hnb by (cbn [sb nr_segment blocks_per_seg]; by rewrite u64_small by lia).
  assert (catalogue_max_fd sb = bits) as Hfd.
  { unfold catalogue_max_fd, __extra_bit, LSM_TREE_DISK_LEVEL_COMMON_RATIO. cbn [sb nr_disk_level common_ratio max_disk_level_capacity].
    rewrite Ht, u64_small by (subst bits; lia). subst bits. lia. }
  assert (forall f, checkpoint_blk_count sb f = match f with DATA_SVT => seg_table_blocks_z n | DATA_DST => n / 30 + 1 | DATA_RIT => n * 1024 / 512 + 1
                 | INDEX_SVT => seg_table_blocks_z bits | INDEX_BITC => bits / 46 + 1 end) as Hcnt.
  { intros []; unfold checkpoint_blk_count; cbn [metadata_place seg_validator_init dst_init_place reverse_index_table_init bit_catalogue_init_places tp_blk_count fst snd];
      rewrite ?Hnb, ?Hfd; cbn [sb nr_segment]; assumption. }
  split; [intros []; lia|]. split; [exact Hcnt|].
  assert (tp_blk_count (metadata_place sb 0 INDEX_SVT) = seg_table_blocks_z bits) as Hsv by exact (Hcnt INDEX_SVT).
  split; [cbn [sb seg_validity_table_start]; lia|]. unfold checkpoint_base. rewrite Hsv, Hfd, Hnb. unfold NR_CHECKPOINT_PACKS.
  cbn [sb seg_validity_table_start data_seg_table_start reverse_index_table_start block_index_table_catalogue_start data_start nr_segment].
  rewrite (u64_small (seg_table_blocks_z bits * 2)) by lia. rewrite u64_small by lia.
  repeat (split; [lia|]). done.
Qed.

Lemma format_places_ok NR_SEGMENT csum0 lcp0 : 0 <= NR_SEGMENT < 2 ^ 45 -> places_ok (superblock_format NR_SEGMENT csum0 lcp0).
Proof.
  intros Hn. destruct (format_counts NR_SEGMENT csum0 lcp0 Hn) as (Hb & Hc & _ & H1' & H2' & H3' & H4' & H5' & _).
  set (sb := superblock_format NR_SEGMENT csum0 lcp0) in *. split.
  - intros f. rewrite Hc. apply Hb.
  - intros f g Hne. rewrite !Hc. pose proof (Hb DATA_SVT). pose proof (Hb DATA_DST). pose proof (Hb DATA_RIT). pose proof (Hb INDEX_SVT). pose proof (Hb INDEX_BITC).
    destruct f, g; try done; lia.
Qed.

(** The tables are opened at the copies the bits name. *)
Lemma metadata_place_live NR_SEGMENT csum0 lcp0 valid_fields f : 0 <= NR_SEGMENT < 2 ^ 45 ->
  let sb := superblock_format NR_SEGMENT csum0 lcp0 in
  tp_start (metadata_place sb valid_fields f) = live_start sb valid_fields f.
Proof.
  intros Hn. destruct (format_counts NR_SEGMENT csum0 lcp0 Hn) as (Hb & Hc & Hst & H1' & H2' & H3' & H4' & H5' & H6' & H7' & H8' & H9').
  cbv zeta. set (sb := superblock_format NR_SEGMENT csum0 lcp0) in *. clearbody sb. unfold live_start.
  pose proof (Hb DATA_SVT). pose proof (Hb DATA_DST). pose proof (Hb DATA_RIT). pose proof (Hb INDEX_SVT). pose proof (Hb INDEX_BITC).
  assert (0 <= valid_field f valid_fields <= 1) as Hvf by (unfold valid_field; destruct (Z.testbit _ _); cbn; lia).
  rewrite metadata_place_start.
  apply u64_small. rewrite Hc. destruct f; nia.
Qed.

Lemma complement_field f valid_fields : valid_field f (complement_fields valid_fields) = 1 - valid_field f valid_fields.
Proof.
  unfold valid_field, complement_fields, u64. rewrite Z.mod_pow2_bits_low by (by destruct f). rewrite Z.lnot_spec by (by destruct f).
  by destruct (Z.testbit valid_fields (field_index f)).
Qed.

Lemma backup_start_live sb valid_fields f : backup_start sb valid_fields f = live_start sb (complement_fields valid_fields) f.
Proof. unfold backup_start, live_start. by rewrite complement_field. Qed.

(** What a checkpoint is for: a restart with the complemented bits finds what
    the tables hold now, in other places. *)
Definition saves_tables sb (valid_fields : Z) d d' : Prop :=
  (forall f x, 0 <= x < tp_blk_count (metadata_place sb valid_fields f) ->
     dev_read d' (tp_start (metadata_place sb (complement_fields valid_fields) f) + x) = dev_read d (tp_start (metadata_place sb valid_fields f) + x) /\
     dev_read d' (tp_start (metadata_place sb valid_fields f) + x) = dev_read d (tp_start (metadata_place sb valid_fields f) + x)) /\
  (forall q, q < seg_validity_table_start sb \/ data_start sb <= q -> dev_read d' q = dev_read d q).

(** The copying on a formatted device. *)
Lemma backup_fields_format NR_SEGMENT csum0 lcp0 valid_fields d : 0 <= NR_SEGMENT < 2 ^ 45 ->
  let sb := superblock_format NR_SEGMENT csum0 lcp0 in
  saves_tables sb valid_fields d (backup_fields sb valid_fields d).
Proof.
  intros Hn sb. set (d' := backup_fields sb valid_fields d). pose proof (format_places_ok NR_SEGMENT csum0 lcp0 Hn) as Hok. fold sb in Hok.
  destruct (backup_fields_spec sb valid_fields Hok checkpoint_fields d) as [Hcopy Hother].
  { repeat (constructor; [intros Hin; repeat (apply elem_of_cons in Hin as [?|Hin]; [done|]); by apply elem_of_nil in Hin|]). constructor. }
  fold (backup_fields sb valid_fields d) in Hcopy, Hother. fold d' in Hcopy, Hother.
  assert (forall f, f ∈ checkpoint_fields) as Hall by (intros []; repeat (apply elem_of_cons; (by left) || right)).
  split.
  - intros f x Hx. rewrite metadata_place_count in Hx. pose proof (fun vf => metadata_place_live NR_SEGMENT csum0 lcp0 vf f Hn) as Hlive. cbv zeta in Hlive. fold sb in Hlive.
    rewrite !Hlive, <- backup_start_live.
    split; [by apply Hcopy|]. apply Hother. intros g _. destruct (decide (f = g)) as [<-|Hne]; [by apply live_apart|].
    by apply (copies_apart sb valid_fields f g x Hok).
  - intros q Hq. apply Hother. intros f _.
    destruct (format_counts NR_SEGMENT csum0 lcp0 Hn) as (Hb & Hc & Hst & H1' & H2' & H3' & H4' & H5' & H6' & _). fold sb in Hc, Hst, H1', H2', H3', H4', H5', H6'.
    pose proof (Hb DATA_SVT). pose proof (Hb DATA_DST). pose proof (Hb DATA_RIT). pose proof (Hb INDEX_SVT). pose proof (Hb INDEX_BITC).
    unfold in_copy, backup_start. rewrite Hc. assert (0 <= valid_field f valid_fields <= 1) as Hvf by (unfold valid_field; destruct (Z.testbit _ _); cbn; lia).
    destruct f; nia.
Qed.

(** A superblock with the layout of a device of [NR_SEGMENT] data segments. *)
Definition formatted (NR_SEGMENT : Z) sb : Prop :=
  0 <= NR_SEGMENT < 2 ^ 45 /\ exists csum0 lcp0, superblock_layout sb = superblock_layout (superblock_format NR_SEGMENT csum0 lcp0).

Lemma saves_tables_layout sb sb' valid_fields d d' : superblock_layout sb = superblock_layout sb' ->
  saves_tables sb valid_fields d d' -> saves_tables sb' valid_fields d d'.
Proof.
  intros Hlay. assert (forall sb0, saves_tables sb0 valid_fields d d' = saves_tables (superblock_layout sb0) valid_fields d d') as Heq by done.
  by rewrite Heq, Hlay, <- Heq.
Qed.

Lemma formatted_layout NR_SEGMENT sb sb' : superblock_layout sb' = superblock_layout sb -> formatted NR_SEGMENT sb -> formatted NR_SEGMENT sb'.
Proof. intros Hlay (Hn & csum0 & lcp0 & Heq). split; [done|]. exists csum0, lcp0. congruence. Qed.

Lemma backup_fields_saves NR_SEGMENT sb valid_fields d : formatted NR_SEGMENT sb ->
  saves_tables sb valid_fields d (backup_fields sb valid_fields d).
Proof.
  intros (Hn & csum0 & lcp0 & Hlay).
  assert (forall sb0, saves_tables sb0 valid_fields d (backup_fields sb0 valid_fields d) =
    saves_tables (superblock_layout sb0) valid_fields d (backup_fields (superblock_layout sb0) valid_fields d)) as Heq by done.
  rewrite Heq, Hlay, <- Heq. by apply backup_fields_format.
Qed.

End checkpoint.

(** ** The checkpoint record *)

(** [j_record] of [flush_and_commit] and of [add_checkpoint_pack_record]; [junk]
    is the uninitialised variable. *)
Definition data_commit_record (junk : list Z) (timestamp : Z) : list Z :=
  splice 8 (le_encode 8 timestamp) (splice 0 (le_encode 4 1) junk).

Definition checkpoint_pack_record (junk : list Z) (record_start record_end valid_fields timestamp : Z) : list Z :=
  let r := splice 0 (le_encode 4 4) junk in
  let r := splice 16 (le_encode 8 record_start) r in
  let r := splice 24 (le_encode 8 record_end) r in
  let r := splice 32 (le_encode 8 (complement_fields valid_fields)) r in
  splice 8 (le_encode 8 timestamp) r.

(** The members of the record in what the journal keeps of it. *)
Definition checkpoint_record_start (data : list Z) : Z := le_decode (slice 12 8 data).
Definition checkpoint_record_end (data : list Z) : Z := le_decode (slice 20 8 data).
Definition checkpoint_valid_fields (data : list Z) : Z := le_decode (slice 28 8 data).

Lemma data_commit_length junk timestamp : length junk = RECORD_BYTES -> length (data_commit_record junk timestamp) = RECORD_BYTES.
Proof. unfold RECORD_BYTES, data_commit_record. intros Hj. splice_lengths. Qed.

Lemma checkpoint_pack_length junk s e vf t : length junk = RECORD_BYTES -> length (checkpoint_pack_record junk s e vf t) = RECORD_BYTES.
Proof. unfold RECORD_BYTES, checkpoint_pack_record. intros Hj. splice_lengths. Qed.

Lemma checkpoint_record_says junk s e vf t : length junk = RECORD_BYTES -> 0 <= s < 2 ^ 64 -> 0 <= e < 2 ^ 64 ->
  let data := record_data (checkpoint_pack_record junk s e vf t) in
  checkpoint_record_start data = s /\ checkpoint_record_end data = e /\ checkpoint_valid_fields data = complement_fields vf.
Proof.
  intros Hj Hs He. assert (0 <= complement_fields vf < 2 ^ 64) as Hv by (apply Z.mod_pos_bound; done).
  unfold RECORD_BYTES in Hj.
  assert (record_type_at (checkpoint_pack_record junk s e vf t) = Some CHECKPOINT_PACK) as Ht.
  { unfold record_type_at, checkpoint_pack_record. rewrite !slice_splice_other by (splice_lengths).
    rewrite (slice_splice_exact 0 4) by splice_lengths. by rewrite le_decode_encode by lia. }
  cbv zeta. unfold record_data. rewrite Ht. cbn [record_member_size]. set (r := checkpoint_pack_record junk s e vf t).
  assert (length r = 128%nat) as Hr by (by apply checkpoint_pack_length).
  assert (forall a, (4 <= a)%nat -> (a + 4 <= 80)%nat -> slice a 8 (slice 0 4 r ++ slice RECORD_UNION 80 r) = slice (a + 4) 8 r) as Hsl.
  { intros a Ha Hb. unfold slice at 1. rewrite drop_app_ge by (rewrite slice_length by lia; lia). rewrite (slice_length 0 4) by lia.
    fold (slice (a - 4) 8 (slice RECORD_UNION 80 r)). unfold RECORD_UNION. rewrite slice_slice by lia. f_equal. lia. }
  unfold checkpoint_record_start, checkpoint_record_end, checkpoint_valid_fields.
  rewrite !Hsl by lia. cbn [Nat.add]. subst r. unfold checkpoint_pack_record.
  repeat split.
  - rewrite !slice_splice_other by splice_lengths. rewrite (slice_splice_exact 16 8) by splice_lengths. apply le_decode_encode. lia.
  - rewrite (slice_splice_other 8), (slice_splice_other 32) by splice_lengths. rewrite (slice_splice_exact 24 8) by splice_lengths. apply le_decode_encode. lia.
  - rewrite (slice_splice_other 8) by splice_lengths. rewrite (slice_splice_exact 32 8) by splice_lengths. apply le_decode_encode. lia.
Qed.

Section pack.
Context `{BlockDevSpec} `{BufioSpec} `{CryptoApiSpec}.
Context (root_key root_iv : list Z) (ecb_encrypt : list Z -> list Z -> result (list Z)).
Context (random_bytes : nat -> list Z) (kmalloc_block : nat -> list Z).

(** The tables are copied, the record is logged. *)
Definition add_checkpoint_pack_record (junk : list Z) (now valid_fields : Z) (md : dev) (jr : journal_region)
  : option (dev * journal_region) :=
  let md := backup_fields (jr_superblock jr) valid_fields md in
  let j_record := checkpoint_pack_record junk (jr_record_start jr) (jr_record_end jr) valid_fields now in
  match journal_checkpoint root_key root_iv ecb_encrypt random_bytes kmalloc_block jr j_record with
  | None => None
  | Some jr => Some (md, jr)
  end.
End pack.

