(* ===== verification/Commit.v ===== *)
(** * Commit: a flush request ([dm-jindisk.c])

    [flush_and_commit] writes the four buffers to segments, the index file and
    the dirty metadata blocks to the device, logs a commit and a checkpoint record
    and synchronizes the journal. *)
From S2P Require Import Prelude Layout Bytes BlockIo RbTree Memtable DiskStructs SegValidator Rit Dst Cache BitFile BitLevel LsmTree Metadata Crypto SegmentBuffer SegmentAllocator Journal Checkpoint Jindisk Storage.

(** ** Free segments *)

Definition count_free (l : list bool) : Z := Z.of_nat (length (filter (eq false) l)).

Lemma count_free_take l i : l !! i = Some false -> count_free (<[i := true]> l) = count_free l - 1.
Proof.
  intros Hi. unfold count_free. pose proof (lookup_lt_Some _ _ _ Hi) as Hlt.
  rewrite <- (take_drop_middle l i false Hi) at 2. rewrite insert_take_drop by done. rewrite !filter_app, !length_app.
  rewrite filter_cons_False by done. rewrite filter_cons_True by done. cbn [length]. lia.
Qed.

Lemma count_free_some l : 0 < count_free l -> exists i, l !! i = Some false.
Proof.
  unfold count_free. intros Hc. destruct (filter (eq false) l) as [|b bs] eqn:Hf; cbn in Hc; [lia|].
  assert (b ∈ filter (eq false) l) as Hin by (rewrite Hf; by left). apply list_elem_of_filter in Hin as [<- Hin].
  by apply list_elem_of_lookup in Hin.
Qed.

Section commit.
Context `{BlockDevSpec} `{CryptoApiSpec}.
Context `{RbTreeSpec} `{NodeStoreSpec} `{LeafCacheSpec bit_leaf} `{BsearchSpec}.
Context `{ArraySpec reverse_index_entry} `{ArraySpec dst_entry} `{ArraySpec Z} `{!GroupArray}.
Context (rit_range : forall e : reverse_index_entry, darr_entry_ok e <-> 0 <= lba e < 2 ^ 64).
Context (dst_range : forall e : dst_entry, entry_wf e -> darr_entry_ok e).
(** The tables are read and written without errors. *)
Context (rit_writes : forall (a : darr (E := reverse_index_entry)) i e,
  darr_ok a -> 0 <= i < Z.of_nat (length (darr_view a)) -> darr_entry_ok e -> is_ok (darr_set a i e).2 = true).
Context (dst_reads : forall (a : darr (E := dst_entry)) i,
  darr_ok a -> 0 <= i < Z.of_nat (length (darr_view a)) -> is_ok (darr_get a i).2 = true).
Context (dst_writes : forall (a : darr (E := dst_entry)) i e,
  darr_ok a -> 0 <= i < Z.of_nat (length (darr_view a)) -> darr_entry_ok e -> is_ok (darr_set a i e).2 = true).
Context (svt_reads : reliable) (svt_writes : writable).
Context (gcm_ok : forall data key iv seq, exists out mac, aes_gcm_cipher_encrypt data key iv seq = Ok (out, mac)).
Implicit Types (j : jindisk).

Definition free_segments j : Z := count_free (sv_view (ls_svt (j_seg j))).

(** A segment is found as long as one is free. *)
Lemma sa_alloc_works st : alloc_wf st -> 0 < count_free (sv_view (ls_svt st)) ->
  exists s seg, sa_alloc st = (s, Ok seg) /\ count_free (sv_view (ls_svt s)) = count_free (sv_view (ls_svt st)) - 1.
Proof.
  intros [Hd Hs [Hnr Hag]] Hfree. destruct (count_free_some _ Hfree) as [i Hi].
  destruct (sv_alloc_works (ls_svt st) i svt_reads svt_writes Hs Hi) as (v & seg & v' & Hnext & Htake & _ & _ & Hseg & Hf & Hview).
  unfold sa_alloc. rewrite Hnext, Htake. destruct (Hag seg (proj1 Hseg) Hf) as (_ & _ & Hz).
  assert (exists d u, dst_take_segment (ls_dst st) seg = (d, Ok u)) as (d & u & ->).
  { unfold dst_take_segment. pose proof (dw_length _ _ Hd) as Hl. unfold dst_view in Hl, Hz.
    pose proof (dst_reads (d_array (ls_dst st)) seg (dw_ok _ _ Hd) ltac:(lia)) as Hget.
    destruct (darr_get (d_array (ls_dst st)) seg) as [a [e|e]] eqn:Hg; [|done].
    apply darr_get_spec in Hg as (Hoka & Hva & He); [|apply Hd|lia]. destruct He as [He|]; [|done].
    symmetry in He. apply array_get_ok in He as [_ He]. rewrite (Hz e He). cbn [Z.eqb negb].
    pose proof (dst_writes a seg {| nr_valid_block := BLOCKS_PER_SEGMENT; block_validity_table := bitmap_fill BLOCKS_PER_SEGMENT |} Hoka ltac:(rewrite Hva; lia)
      (dst_range _ entry_wf_full)) as Hset.
    destruct (darr_set a seg _) as [a' [u|e']]; [|done]. by eexists _, _. }
  eexists _, seg. split; [done|]. cbn [ls_svt]. rewrite Hview. by apply count_free_take.
Qed.

(** ** The loop over the buffers *)

(** [for (i = 0; i < POOL_SIZE; i++) flush_bios(i)]; [cipher_segments] holds the
    ciphertext areas of the buffers. *)
Fixpoint flush_buffers (stale : Z) (cipher_segments : Z -> list (list Z)) (indices : list Z) j : option jindisk :=
  match indices with
  | [] => Some j
  | i :: indices =>
      match segbuf_flush_bios stale j i (cipher_segments i) with
      | None => None
      | Some j => flush_buffers stale cipher_segments indices j
      end
  end.

Definition pool_indices : list Z := [0; 1; 2; 3].

(** The data of the last of the buffers that holds a block. *)
Fixpoint last_held (b : segment_buffer) (indices : list Z) (k : Z) : option (list Z) :=
  match indices with
  | [] => None
  | i :: indices => match last_held b indices k with Some d => Some d | None => ds_map (buffer_at b i) !! k end
  end.

(** The blocks of the buffers are the same. *)
Record same_blocks (b b' : segment_buffer) : Prop := {
  sm_pool : pool_wf b -> pool_wf b';
  sm_cur : sb_cur_buffer b' = sb_cur_buffer b;
  sm_map : forall i, 0 <= i < POOL_SIZE -> ds_map (buffer_at b' i) = ds_map (buffer_at b i);
  sm_size : forall i, 0 <= i < POOL_SIZE -> ds_size (buffer_at b' i) = ds_size (buffer_at b i)
}.

#[local] Instance same_blocks_preorder : PreOrder same_blocks.
Proof.
  split; [by split|]. intros b1 b2 b3 [Hp1 Hc1 Hm1 Hs1] [Hp2 Hc2 Hm2 Hs2]. split; [auto|congruence| |].
  - intros i Hi. by rewrite Hm2, Hm1.
  - intros i Hi. by rewrite Hs2, Hs1.
Qed.

Lemma same_blocks_segment b i seg : pool_wf b -> 0 <= i < POOL_SIZE -> same_blocks b (set_buffer b i (with_cur_segment (buffer_at b i) seg)).
Proof.
  intros Hb Hi. pose proof (pw_length _ Hb) as Hl. destruct (pool_at _ _ Hb Hi) as [[Hs Hk Hz] Hsz]. split; [|done| |].
  - intros _. split; [cbn [set_buffer sb_buffer]; by rewrite length_insert|apply Hb|by apply set_buffer_wf|].
    cbn [set_buffer sb_cur_buffer]. rewrite buffer_at_set by (apply Hb || done). pose proof (pw_room _ Hb).
    destruct (decide _) as [Heq|]; [cbn [with_cur_segment ds_size]; by rewrite <- Heq|done].
  - intros i' Hi'. rewrite buffer_at_set by (done || lia). by destruct (decide (i' = i)) as [->|].
  - intros i' Hi'. rewrite buffer_at_set by (done || lia). by destruct (decide (i' = i)) as [->|].
Qed.

Lemma same_blocks_held b b' k ids : same_blocks b b' -> Forall (fun i => 0 <= i < POOL_SIZE) ids -> last_held b' ids k = last_held b ids k.
Proof.
  intros Hsame. induction 1 as [|i ids Hi His IH]; [done|]. cbn [last_held]. by rewrite IH, (sm_map _ _ Hsame i Hi).
Qed.

Definition blocks_in (b : segment_buffer) (indices : list Z) : Z := foldr (fun i n => ds_size (buffer_at b i) + n) 0 indices.

Lemma same_blocks_in b b' ids : same_blocks b b' -> Forall (fun i => 0 <= i < POOL_SIZE) ids -> blocks_in b' ids = blocks_in b ids.
Proof.
  intros Hsame. induction 1 as [|i ids Hi His IH]; [done|]. cbn [blocks_in foldr]. fold (blocks_in b' ids) (blocks_in b ids).
  by rewrite IH, (sm_size _ _ Hsame i Hi).
Qed.

Lemma blocks_in_nonneg b ids : pool_wf b -> Forall (fun i => 0 <= i < POOL_SIZE) ids -> 0 <= blocks_in b ids.
Proof.
  intros Hb. induction 1 as [|i ids Hi _ IH]; [done|]. cbn [blocks_in foldr]. fold (blocks_in b ids).
  destruct (pool_at _ _ Hb Hi) as [[_ _ Hz] _]. lia.
Qed.

(** A buffer takes a segment unless it is empty. *)
Definition segments_for (b : segment_buffer) (i : Z) : Z := if ds_size (buffer_at b i) =? 0 then 0 else 1.
Definition segments_needed (b : segment_buffer) (indices : list Z) : Z := foldr (fun i n => segments_for b i + n) 0 indices.

Lemma segments_needed_nonneg b ids : 0 <= segments_needed b ids.
Proof. induction ids as [|i ids IH]; [done|]. cbn [segments_needed foldr]. fold (segments_needed b ids). unfold segments_for. destruct (_ =? 0); lia. Qed.

Lemma same_blocks_needed b b' ids : same_blocks b b' -> Forall (fun i => 0 <= i < POOL_SIZE) ids -> segments_needed b' ids = segments_needed b ids.
Proof.
  intros Hsame. induction 1 as [|i ids Hi His IH]; [done|]. cbn [segments_needed foldr]. fold (segments_needed b' ids) (segments_needed b ids).
  unfold segments_for. by rewrite IH, (sm_size _ _ Hsame i Hi).
Qed.

(** One buffer: what [segbuf_flush_bios] does when a segment is free. *)
Lemma flush_one stale j gsss i cs : storage_ok j gsss -> pool_wf (j_seg_buffer j) -> 0 <= i < POOL_SIZE ->
  length cs = Z.to_nat BLOCKS_PER_SEGMENT -> segments_for (j_seg_buffer j) i <= free_segments j -> puts_room j gsss (ds_size (buffer_at (j_seg_buffer j) i)) ->
  exists j', segbuf_flush_bios stale j i cs = Some j' /\ flush_stores j j' gsss (buffer_at (j_seg_buffer j) i) /\
    same_blocks (j_seg_buffer j) (j_seg_buffer j') /\ free_segments j - segments_for (j_seg_buffer j) i <= free_segments j' /\
    forall m, 0 <= m -> puts_room j gsss (ds_size (buffer_at (j_seg_buffer j) i) + m) -> puts_room j' gsss m.
Proof.
  intros Hok Hpool Hi Hcs Hfree Hroom. destruct (pool_at _ _ Hpool Hi) as [Hds Hsz]. pose proof (dw_size _ Hds) as Hz.
  unfold segments_for in *. destruct (Z.eqb_spec (ds_size (buffer_at (j_seg_buffer j) i)) 0) as [H0'|Hne].
  - exists j. unfold segbuf_flush_bios. rewrite H0', Z.eqb_refl. split; [done|]. split; [|split; [done|split; [lia|]]].
    + split; [done|]. assert (ds_map (buffer_at (j_seg_buffer j) i) = ∅) as ->; [|split; [|done]; intros k d; by rewrite lookup_empty].
      unfold ds_map. destruct (rb_inorder (ds_root (buffer_at (j_seg_buffer j) i))); [done|cbn [length] in Hz; lia].
    + intros m Hm Hr. by rewrite Z.add_0_l in Hr.
  - destruct (sa_alloc_works (j_seg j) (so_seg _ _ Hok) ltac:(unfold free_segments in Hfree; lia)) as (s & seg & Halloc & Hcount).
    destruct (segbuf_flush_bios_ok rit_range dst_range rit_writes gcm_ok stale j gsss i cs s seg Hok Hpool Hi Hcs Halloc ltac:(lia) Hroom)
      as (j' & Hrun & Hst & Hbuf & Hsvt & Hr). exists j'. split; [done|]. split; [done|].
    split; [rewrite Hbuf; by apply same_blocks_segment|]. split; [|done]. unfold free_segments in *. rewrite Hsvt. lia.
Qed.

(** What the loop needs: room for the records, and a free segment for every
    buffer that is not empty. *)
Definition can_flush j gsss (indices : list Z) : Prop :=
  segments_needed (j_seg_buffer j) indices <= free_segments j /\ puts_room j gsss (blocks_in (j_seg_buffer j) indices).

(** The page of a block that a buffer may hold. *)
Definition held_page (held : option (list Z)) (stored : page) : page :=
  match held with Some d => Filled d | None => stored end.

Lemma flush_buffers_ok stale css gsss indices : Forall (fun i => 0 <= i < POOL_SIZE) indices ->
  (forall i, length (css i) = Z.to_nat BLOCKS_PER_SEGMENT) ->
  forall j, storage_ok j gsss -> pool_wf (j_seg_buffer j) -> can_flush j gsss indices ->
  exists j', flush_buffers stale css indices j = Some j' /\ storage_ok j' gsss /\ same_blocks (j_seg_buffer j) (j_seg_buffer j') /\
    forall k, stored_page j' k = held_page (last_held (j_seg_buffer j) indices k) (stored_page j k).
Proof.
  intros Hin Hcs. induction Hin as [|i indices Hi Hin IH]; intros j Hok Hpool [Hfree Hroom]; [by exists j|].
  cbn [flush_buffers blocks_in segments_needed foldr] in *.
  fold (blocks_in (j_seg_buffer j) indices) in Hroom. fold (segments_needed (j_seg_buffer j) indices) in Hfree.
  pose proof (segments_needed_nonneg (j_seg_buffer j) indices) as Hsn.
  pose proof (blocks_in_nonneg _ indices Hpool Hin) as Hnn. destruct (pool_at _ _ Hpool Hi) as [[_ _ Hz] _].
  destruct (flush_one stale j gsss i (css i) Hok Hpool Hi (Hcs i)) as (j1 & -> & (Hok1 & Hst & Hother) & Hsame & Hfree1 & Hroom1);
    [lia|apply (puts_room_less j gsss _ (ds_size (buffer_at (j_seg_buffer j) i) + blocks_in (j_seg_buffer j) indices)); [lia|done]|].
  destruct (IH j1 Hok1 (sm_pool _ _ Hsame Hpool)) as (j' & -> & Hok' & Hsame' & Hpages).
  { split; [rewrite (same_blocks_needed _ _ _ Hsame Hin); lia|]. rewrite (same_blocks_in _ _ _ Hsame Hin). by apply Hroom1. }
  exists j'. split; [done|]. split; [done|]. split; [by etransitivity|]. intros k. rewrite Hpages, (same_blocks_held _ _ k _ Hsame Hin).
  cbn [last_held]. destruct (last_held (j_seg_buffer j) indices k) as [d|]; [done|]. cbn [held_page].
  destruct (ds_map (buffer_at (j_seg_buffer j) i) !! k) as [d|] eqn:Hd; [exact (Hst k d Hd)|exact (Hother k Hd)].
Qed.

(** The order of the loop is the order of age, or the buffers agree on the blocks
    that several hold. *)
Definition flush_order_fits (b : segment_buffer) : Prop :=
  sb_cur_buffer b = 3 \/
  forall i i' k d d', 0 <= i < POOL_SIZE -> 0 <= i' < POOL_SIZE ->
    ds_map (buffer_at b i) !! k = Some d -> ds_map (buffer_at b i') !! k = Some d' -> d = d'.

Lemma pool_indices_range : Forall (fun i => 0 <= i < POOL_SIZE) pool_indices.
Proof. unfold POOL_SIZE. repeat (constructor; [lia|]). constructor. Qed.

Lemma last_held_some b indices k d : last_held b indices k = Some d -> exists i, i ∈ indices /\ ds_map (buffer_at b i) !! k = Some d.
Proof.
  induction indices as [|i indices IH]; [done|]. cbn [last_held]. destruct (last_held b indices k).
  - intros [= ->]. destruct (IH eq_refl) as (i' & Hi & Hd). exists i'. by split; [right|].
  - intros Hd. exists i. by split; [left|].
Qed.

Lemma last_held_none b indices k : last_held b indices k = None -> forall i, i ∈ indices -> ds_map (buffer_at b i) !! k = None.
Proof.
  induction indices as [|i indices IH]; [by intros _ i' Hi%elem_of_nil|]. cbn [last_held].
  destruct (last_held b indices k); [done|]. intros Hd i' [->|Hi]%elem_of_cons; [done|by apply IH].
Qed.

(** The search by age against the single buffers. *)
Lemma maps_find_some b k d : maps_find (pool_maps b) k = Some d -> exists i, 0 <= i < POOL_SIZE /\ ds_map (buffer_at b i) !! k = Some d.
Proof.
  unfold pool_maps. generalize [0; 1; 2; 3]. intros l. induction l as [|x l IH]; [done|]. cbn [fmap list_fmap maps_find].
  destruct (ds_map (buffer_at b (age_index b x)) !! k) eqn:Hd; [|exact IH]. intros [= ->]. eexists. split; [apply age_range|exact Hd].
Qed.

Lemma maps_find_none b k i : pool_wf b -> 0 <= i < POOL_SIZE -> maps_find (pool_maps b) k = None -> ds_map (buffer_at b i) !! k = None.
Proof.
  intros Hb Hi. assert (exists x, x ∈ [0; 1; 2; 3] /\ age_index b x = i) as (x & Hx & <-).
  { exists ((sb_cur_buffer b + POOL_SIZE - i) mod POOL_SIZE). pose proof (pw_cur _ Hb). unfold age_index, POOL_SIZE in *.
    split; [|divmod_lia]. assert (0 <= (sb_cur_buffer b + 4 - i) mod 4 < 4) as Hm by (apply Z.mod_pos_bound; lia).
    rewrite !elem_of_cons. lia. }
  unfold pool_maps. revert Hx. generalize [0; 1; 2; 3]. intros l. induction l as [|y l IH]; [by intros Hx%elem_of_nil|].
  cbn [fmap list_fmap maps_find]. intros [->|Hx]%elem_of_cons; [by destruct (ds_map (buffer_at b (age_index b y)) !! k)|].
  destruct (ds_map (buffer_at b (age_index b y)) !! k); [done|by apply IH].
Qed.

(** No two buffers hold different data for a block. *)
Definition buffers_agree (b : segment_buffer) : Prop :=
  forall i i' k d d', 0 <= i < POOL_SIZE -> 0 <= i' < POOL_SIZE ->
    ds_map (buffer_at b i) !! k = Some d -> ds_map (buffer_at b i') !! k = Some d' -> d = d'.

(** Then the order does not matter for a block that one of the buffers holds. *)
Lemma last_held_agree b ids k d : pool_wf b -> buffers_agree b -> Forall (fun i => 0 <= i < POOL_SIZE) ids ->
  last_held b ids k = Some d -> maps_find (pool_maps b) k = Some d.
Proof.
  intros Hb Hagree Hids Hl. rewrite Forall_forall in Hids. destruct (last_held_some _ _ _ _ Hl) as (i & Hi & Hd).
  destruct (maps_find (pool_maps b) k) as [d'|] eqn:Hm.
  - destruct (maps_find_some _ _ _ Hm) as (i' & Hi' & Hd'). f_equal. symmetry. by apply (Hagree i i' k); [apply Hids| | |].
  - by rewrite (maps_find_none _ _ _ Hb (Hids i Hi) Hm) in Hd.
Qed.

Lemma maps_find_last b k : pool_wf b -> flush_order_fits b -> last_held b pool_indices k = maps_find (pool_maps b) k.
Proof.
  intros Hb [Hcur|Hagree].
  - unfold pool_maps, pool_indices, age_index. rewrite Hcur. unfold POOL_SIZE. cbn [fmap list_fmap maps_find last_held].
    change ((3 + 4 - 0) mod 4) with 3. change ((3 + 4 - 1) mod 4) with 2. change ((3 + 4 - 2) mod 4) with 1. change ((3 + 4 - 3) mod 4) with 0.
    repeat (destruct (_ !! k); try done).
  - destruct (last_held b pool_indices k) as [d|] eqn:Hl; [symmetry; by eapply last_held_agree, Hl; [| |apply pool_indices_range]|].
    destruct (maps_find (pool_maps b) k) as [d'|] eqn:Hm; [|done]. destruct (maps_find_some _ _ _ Hm) as (i' & Hi' & Hd').
    rewrite (last_held_none _ _ _ Hl) in Hd'; [done|]. unfold pool_indices, POOL_SIZE in *. rewrite !elem_of_cons. lia.
Qed.

(** When the first buffer is the current one, the loop ends with an older buffer:
    of a block that both hold, the older data is stored last. *)
Lemma flush_order_stale b k d d' : sb_cur_buffer b = 0 ->
  ds_map (buffer_at b 0) !! k = Some d -> ds_map (buffer_at b 3) !! k = Some d' ->
  last_held b pool_indices k = Some d' /\ maps_find (pool_maps b) k = Some d.
Proof.
  intros Hcur Hd Hd'. unfold pool_maps, pool_indices, age_index. rewrite Hcur. unfold POOL_SIZE. cbn [fmap list_fmap maps_find last_held].
  change ((0 + 4 - 0) mod 4) with 0. by rewrite Hd, Hd'.
Qed.

(** C33. A flush request makes the buffered writes durable: when there are free
    segments and room in the memtable, the loop over the buffers stores every block,
    so that afterwards the data region holds the block of the buffer that comes last
    in the order of the indices, and what it held before where no buffer has the
    block; the invariant of the tables is kept. That is what a read before the
    request returned, provided the order of the indices is the order in which the
    buffers were filled or no two buffers hold different data for a block. *)
Theorem flush_buffers_durable stale css gsss j : storage_ok j gsss -> pool_wf (j_seg_buffer j) ->
  (forall i, length (css i) = Z.to_nat BLOCKS_PER_SEGMENT) -> can_flush j gsss pool_indices ->
  exists j', flush_buffers stale css pool_indices j = Some j' /\ storage_ok j' gsss /\
    (forall k, stored_page j' k = held_page (last_held (j_seg_buffer j) pool_indices k) (stored_page j k)) /\
    (flush_order_fits (j_seg_buffer j) -> forall k, 0 <= k < 2 ^ 31 -> stored_page j' k = read_page j k).
Proof.
  intros Hok Hpool Hcs Hcan.
  destruct (flush_buffers_ok stale css gsss pool_indices pool_indices_range Hcs j Hok Hpool Hcan) as (j' & Hrun & Hok' & _ & Hpages).
  exists j'. split; [done|]. split; [done|]. split; [done|]. intros Hfits k Hk. unfold read_page.
  rewrite Hpages, (maps_find_last _ _ Hpool Hfits), (segbuf_query_find _ _ Hpool Hk). by destruct (maps_find _ k).
Qed.
End commit.

(** ** The whole request *)

(** The disk, its journal, the device with the tables, and the bits that tell
    which copies of the tables are in use. *)
Record volume `{BlockDev} `{CryptoApi} `{RbTree} `{NodeStore} `{LeafCache bit_leaf} `{Bsearch}
  `{ArrayIntf reverse_index_entry} `{ArrayIntf dst_entry} `{ArrayIntf Z} `{Bufio} : Type := Volume {
  v_disk : jindisk;
  v_journal : journal_region;
  v_metadata : dev;
  v_valid_fields : Z
}.

Section request.
Context `{BlockDevSpec} `{CryptoApiSpec}.
Context `{RbTreeSpec} `{NodeStoreSpec} `{LeafCacheSpec bit_leaf} `{BsearchSpec}.
Context `{ArraySpec reverse_index_entry} `{ArraySpec dst_entry} `{ArraySpec Z} `{!GroupArray}.
Context `{BufioSpec}.
Context (root_key root_iv : list Z) (ecb_encrypt : list Z -> list Z -> result (list Z)).
Context (random_bytes : nat -> list Z) (kmalloc_block : nat -> list Z).
Implicit Types (v : volume).

#[local] Abbreviation add_record := (journal_add_record root_key root_iv ecb_encrypt random_bytes kmalloc_block).
#[local] Abbreviation add_checkpoint := (add_checkpoint_pack_record root_key root_iv ecb_encrypt random_bytes kmalloc_block).
#[local] Abbreviation synchronize := (journal_synchronize root_key root_iv ecb_encrypt random_bytes kmalloc_block).
#[local] Abbreviation jok := (journal_ok root_key ecb_encrypt).

(** [flush_and_commit]; [junk] and [junk'] are the two record variables, [now]
    and [now'] the times. The calls that make the kernel write its caches of the
    index file and of the metadata blocks change nothing a device read returns. *)
Definition flush_and_commit (stale : Z) (css : Z -> list (list Z)) (junk junk' : list Z) (now now' : Z) v : option volume :=
  match flush_buffers stale css pool_indices (v_disk v) with
  | None => None
  | Some j =>
      match add_record (v_journal v) (data_commit_record junk now) with
      | None => None
      | Some (jr, _) =>
          match add_checkpoint junk' now' (v_valid_fields v) (v_metadata v) jr with
          | None => None
          | Some (md, jr) =>
              match synchronize jr with
              | None => None
              | Some jr => Some {| v_disk := j; v_journal := jr; v_metadata := md; v_valid_fields := v_valid_fields v |}
              end
          end
      end
  end.

(** ** What the request leaves *)

Context (rit_range : forall e : reverse_index_entry, darr_entry_ok e <-> 0 <= lba e < 2 ^ 64).
Context (dst_range : forall e : dst_entry, entry_wf e -> darr_entry_ok e).
Context (rit_writes : forall (a : darr (E := reverse_index_entry)) i e,
  darr_ok a -> 0 <= i < Z.of_nat (length (darr_view a)) -> darr_entry_ok e -> is_ok (darr_set a i e).2 = true).
Context (dst_reads : forall (a : darr (E := dst_entry)) i,
  darr_ok a -> 0 <= i < Z.of_nat (length (darr_view a)) -> is_ok (darr_get a i).2 = true).
Context (dst_writes : forall (a : darr (E := dst_entry)) i e,
  darr_ok a -> 0 <= i < Z.of_nat (length (darr_view a)) -> darr_entry_ok e -> is_ok (darr_set a i e).2 = true).
Context (svt_reads : reliable) (svt_writes : writable).
Context (gcm_ok : forall data key iv seq, exists out mac, aes_gcm_cipher_encrypt data key iv seq = Ok (out, mac)).
Context (derive_ok : forall q, exists k, journal_derive_key ecb_encrypt root_key q = Ok k).

(** The log of the journal: the commit record, then the checkpoint record that
    the window starts with, and all of it on the device. *)
Definition log_commit (l : journal_log) (commit checkpoint : list Z) : journal_log :=
  log_sync (log_checkpoint (log_add l commit) checkpoint).

Lemma log_sync_end l : jl_end (log_sync l) = jl_end l /\ jl_start (log_sync l) = jl_start l /\ jl_synced (log_sync l) = jl_end l.
Proof. unfold log_sync. by destruct (Z.eqb_spec (jl_synced l) (jl_end l)). Qed.

Lemma log_push_end l x : jl_end (log_push l x) = jl_end l + 1.
Proof. unfold jl_end. cbn [log_push jl_records]. rewrite length_app. cbn. lia. Qed.

Lemma log_sync_idle l : jl_synced l = jl_end l -> log_sync l = l.
Proof. unfold log_sync. by intros ->%Z.eqb_eq. Qed.

Lemma log_sync_saved l : jl_synced l <> jl_end l -> jl_saved (log_sync l) = jl_start l.
Proof. unfold log_sync. by intros ->%Z.eqb_neq. Qed.

Lemma log_add_within l x : (jl_end l + 1) mod RECORDS_PER_SEGMENT <> 0 -> log_add l x = log_push l x.
Proof. unfold log_add. by intros ->%Z.eqb_neq. Qed.

Lemma log_add_end l x : jl_end (log_add l x) = jl_end l + 1.
Proof.
  unfold log_add. case_match; [by rewrite (proj1 (log_sync_end _)), log_push_end|apply log_push_end].
Qed.

Lemma log_commit_state l c p : jl_synced l <= jl_end l ->
  let l' := log_commit l c p in
  jl_end l' = jl_end l + 2 /\ jl_synced l' = jl_end l + 2 /\ jl_start l' = jl_end l + 1 /\
  ((jl_end l + 2) mod RECORDS_PER_SEGMENT <> 0 -> jl_saved l' = jl_end l + 1).
Proof.
  intros Hsync. cbv zeta. unfold log_commit. destruct (log_sync_end (log_checkpoint (log_add l c) p)) as (He & Hs & Hy).
  rewrite He, Hs, Hy. assert (jl_end (log_checkpoint (log_add l c) p) = jl_end l + 2) as ->.
  { change (jl_end (log_add (log_add l c) p) = jl_end l + 2). rewrite !log_add_end. lia. }
  split; [done|]. split; [done|]. split; [cbn [log_checkpoint jl_start]; apply log_add_end|]. intros Hseg.
  assert (jl_synced (log_checkpoint (log_add l c) p) <= jl_end l + 1) as Hle.
  { cbn [log_checkpoint jl_synced]. unfold log_add at 1. rewrite log_add_end. replace (jl_end l + 1 + 1) with (jl_end l + 2) by lia.
    destruct (Z.eqb_spec ((jl_end l + 2) mod RECORDS_PER_SEGMENT) 0); [done|]. cbn [log_push jl_synced].
    unfold log_add. case_match; [|cbn [log_push jl_synced]; lia]. rewrite (proj2 (proj2 (log_sync_end _))), log_push_end. lia. }
  unfold log_sync. assert (jl_end (log_checkpoint (log_add l c) p) = jl_end l + 2) as ->.
  { change (jl_end (log_add (log_add l c) p) = jl_end l + 2). rewrite !log_add_end. lia. }
  destruct (Z.eqb_spec (jl_synced (log_checkpoint (log_add l c) p)) (jl_end l + 2)); [lia|]. cbn [jl_saved log_checkpoint jl_start].
  apply log_add_end.
Qed.

Lemma log_commit_checkpoint l c p : jl_record (log_commit l c p) (jl_end l + 1) = Some p.
Proof.
  assert (forall l0, jl_records (log_sync l0) = jl_records l0) as Hrs by (intros l0; unfold log_sync; by case_match).
  assert (forall l0 x, jl_records (log_add l0 x) = jl_records l0 ++ [x]) as Hra by (intros l0 x; unfold log_add; case_match; by rewrite ?Hrs).
  unfold jl_record, log_commit. rewrite Hrs. cbn [log_checkpoint jl_records]. rewrite !Hra.
  rewrite lookup_app_r; rewrite length_app; cbn [length]; unfold jl_end; [|lia].
  by replace (Z.to_nat (Z.of_nat (length (jl_records l)) + 1) - (length (jl_records l) + 1))%nat with 0%nat by lia.
Qed.

(** When the checkpoint record is the last one of a segment, adding it has
    written everything, the last synchronization has nothing to do, and the
    superblock still names the window from before the checkpoint. *)
Lemma commit_forgets_checkpoint l c p : jl_start l < jl_end l -> jl_end l + 2 < jl_start l + MAX_RECORDS ->
  (jl_end l + 2) mod RECORDS_PER_SEGMENT = 0 -> jl_synced l <= jl_end l ->
  jl_saved (log_commit l c p) = jl_start l /\ jl_start (log_commit l c p) = jl_end l + 1.
Proof.
  intros Hw Hroom Hseg Hsync. split; [|by apply log_commit_state].
  assert ((jl_end l + 1) mod RECORDS_PER_SEGMENT <> 0) as Hseg1.
  { intros He. change RECORDS_PER_SEGMENT with 31744 in *. clear -Hseg He. divmod_lia. }
  unfold log_commit. rewrite log_sync_idle.
  - cbn [log_checkpoint jl_saved]. rewrite (log_add_within l c Hseg1). unfold log_add. rewrite log_push_end.
    replace (jl_end l + 1 + 1) with (jl_end l + 2) by lia. rewrite Hseg. cbn [Z.eqb].
    rewrite log_sync_saved by (rewrite !log_push_end; cbn [log_push jl_synced]; lia).
    cbn [log_push jl_start]. rewrite log_push_end.
    destruct (Z.eqb_spec (jl_end l + 1) (jl_start l + MAX_RECORDS)); [lia|]. by destruct (Z.eqb_spec (jl_end l + 1 + 1) (jl_start l + MAX_RECORDS)); [lia|].
  - change (jl_synced (log_add (log_add l c) p) = jl_end (log_add (log_add l c) p)). unfold log_add at 1 3. rewrite log_add_end.
    replace (jl_end l + 1 + 1) with (jl_end l + 2) by lia. rewrite Hseg. cbn [Z.eqb].
    by destruct (log_sync_end (log_push (log_add l c) p)) as (-> & _ & ->).
Qed.

(** The window that the checkpoint record carries. *)
Definition checkpoint_of (l : journal_log) (c junk : list Z) (valid_fields now : Z) : list Z :=
  checkpoint_pack_record junk (jl_start (log_add l c) mod MAX_RECORDS) ((jl_end l + 1) mod MAX_RECORDS) valid_fields now.

End request.

(** ** Concrete runs *)

(** The disk of [example_storage]: one of its buffers holds block 7. *)
Definition example_areas (i : Z) : list (list Z) := replicate (Z.to_nat BLOCKS_PER_SEGMENT) [].

Lemma example_can_flush : can_flush example_storage [] pool_indices.
Proof. split; [vm_compute; congruence|]. left. vm_compute. reflexivity. Qed.

Lemma example_order_fits : flush_order_fits example_storage_buffer.
Proof.
  right. intros i i' k d d' Hi Hi'. assert (forall x, 0 <= x < POOL_SIZE -> x <> 0 -> ds_map (buffer_at example_storage_buffer x) = ∅) as Hemp.
  { unfold POOL_SIZE. intros x Hx Hne. assert (x = 1 \/ x = 2 \/ x = 3) as [->|[->| ->]] by lia; by vm_compute. }
  destruct (decide (i = 0)) as [->|Hne]; [|rewrite (Hemp i Hi Hne); by rewrite lookup_empty].
  destruct (decide (i' = 0)) as [->|Hne']; [|rewrite (Hemp i' Hi' Hne'); by rewrite lookup_empty]. congruence.
Qed.

Lemma example_dst_writes (a : darr (E := dst_entry)) i e :
  darr_ok a -> 0 <= i < Z.of_nat (length (darr_view a)) -> darr_entry_ok e -> is_ok (darr_set a i e).2 = true.
Proof. intros _ Hi _. cbn in Hi |- *. by rewrite array_set_in_range. Qed.

Lemma example_dst_reads (a : darr (E := dst_entry)) i :
  darr_ok a -> 0 <= i < Z.of_nat (length (darr_view a)) -> is_ok (darr_get a i).2 = true.
Proof. intros _ Hi. cbn in Hi |- *. by destruct (array_get_in_range a i Hi) as [e ->]. Qed.

Lemma example_rit_writes (a : darr (E := reverse_index_entry)) i e :
  darr_ok a -> 0 <= i < Z.of_nat (length (darr_view a)) -> darr_entry_ok e -> is_ok (darr_set a i e).2 = true.
Proof. intros _ Hi _. cbn in Hi |- *. by rewrite array_set_in_range. Qed.

Lemma example_svt_reads : reliable.
Proof. intros a i _ Hi. cbn in Hi |- *. by destruct (array_get_in_range a i Hi) as [e ->]. Qed.

Lemma example_svt_writes : writable.
Proof. intros a i e _ Hi _. cbn in Hi |- *. by rewrite array_set_in_range. Qed.

Lemma example_encrypts data key iv seq : exists out mac, aes_gcm_cipher_encrypt data key iv seq = Ok (out, mac).
Proof. by eexists _, _. Qed.

Lemma flush_buffers_durable_witness :
  let j := example_storage in
  exists j', flush_buffers 0 example_areas pool_indices j = Some j' /\ storage_ok j' [] /\
    (forall k, stored_page j' k = held_page (last_held (j_seg_buffer j) pool_indices k) (stored_page j k)) /\
    (flush_order_fits (j_seg_buffer j) -> forall k, 0 <= k < 2 ^ 31 -> stored_page j' k = read_page j k).
Proof.
  intros j. refine (flush_buffers_durable (fun e => iff_refl _) dst_list_range example_rit_writes example_dst_reads example_dst_writes
    example_svt_reads example_svt_writes example_encrypts 0 example_areas [] example_storage
    example_storage_ok example_storage_pool _ example_can_flush).
  intros i. unfold example_areas. by rewrite length_replicate.
Defined.

(** The same disk with the journal of a formatted device. *)
Definition example_volume (jr : journal_region) : volume :=
  {| v_disk := example_storage; v_journal := jr; v_metadata := ∅ : gmap Z (list Z); v_valid_fields := 5 |}.

