(* ===== verification/Shutdown.v ===== *)
(** * Shutdown: taking a target down

    [segbuf_destroy] of [kernel-module/c/src/segment_buffer.c], which flushes the
    current buffer and waits for the buffers that are queued, and
    [lsm_tree_destroy] of [kernel-module/c/src/lsm_tree.c], which waits for the
    queued compactions and compacts the memtable. *)
From S2P Require Import Prelude Layout Bytes BlockIo RbTree Memtable DiskStructs SegValidator Rit Dst BitCatalogue Metadata Crypto Cache BitFile BitNode BitBuilder BitLevel LevelFiles Merge MergeSource LsmTree Compaction SegmentBuffer SegmentAllocator Jindisk Storage Commit.

Lemma Forall_take_drop {A} (P : A -> Prop) n x l : Forall P l -> P x -> Forall P (take n l ++ x :: drop n l).
Proof. intros Hl Hx. apply Forall_app. split; [by apply Forall_take|]. constructor; [done|by apply Forall_drop]. Qed.

(** ** The write buffer *)
Section buffer.
Context `{BlockDevSpec} `{CryptoApiSpec}.
Context `{RbTreeSpec} `{NodeStoreSpec} `{LeafCacheSpec bit_leaf} `{BsearchSpec}.
Context `{ArraySpec reverse_index_entry} `{ArraySpec dst_entry} `{ArraySpec Z} `{!GroupArray}.
Context (rit_range : forall e : reverse_index_entry, darr_entry_ok e <-> 0 <= lba e < 2 ^ 64).
Context (dst_range : forall e : dst_entry, entry_wf e -> darr_entry_ok e).
Context (rit_writes : forall (a : darr (E := reverse_index_entry)) i e,
  darr_ok a -> 0 <= i < Z.of_nat (length (darr_view a)) -> darr_entry_ok e -> is_ok (darr_set a i e).2 = true).
Context (dst_reads : forall (a : darr (E := dst_entry)) i,
  darr_ok a -> 0 <= i < Z.of_nat (length (darr_view a)) -> is_ok (darr_get a i).2 = true).
Context (dst_writes : forall (a : darr (E := dst_entry)) i e,
  darr_ok a -> 0 <= i < Z.of_nat (length (darr_view a)) -> darr_entry_ok e -> is_ok (darr_set a i e).2 = true).
Context (svt_reads : reliable) (svt_writes : writable).
Context (gcm_ok : forall data key iv seq, exists out mac, aes_gcm_cipher_encrypt data key iv seq = Ok (out, mac)).
Implicit Types (j : jindisk) (b : segment_buffer).

(** The work of [bufferio_wq] for one buffer. *)
Definition bufferio_handler (stale : Z) (cipher_segments : Z -> list (list Z)) j (index : Z) : option jindisk :=
  segbuf_flush_bios stale j index (cipher_segments index).

(** The works of the queue run one after the other, the oldest first. *)
Fixpoint run_works (stale : Z) (cipher_segments : Z -> list (list Z)) (works : list Z) j : option jindisk :=
  match works with
  | [] => Some j
  | index :: works =>
      match bufferio_handler stale cipher_segments j index with
      | None => None
      | Some j => run_works stale cipher_segments works j
      end
  end.

(** [for (i = 0; i < POOL_SIZE; i++) data_segment_destroy(&this->buffer[i])] *)
Fixpoint destroy_buffers (buffers : list data_segment) : option (list data_segment) :=
  match buffers with
  | [] => Some []
  | ds :: buffers =>
      match data_segment_destroy ds, destroy_buffers buffers with
      | Some ds, Some buffers => Some (ds :: buffers)
      | _, _ => None
      end
  end.

(** [segbuf_destroy]; [early] of the queued works have run when it flushes the
    current buffer, [destroy_workqueue] waits for the others. *)
Definition segbuf_destroy (stale : Z) (cipher_segments : Z -> list (list Z)) (early : nat) j : option jindisk :=
  let b := j_seg_buffer j in
  match run_works stale cipher_segments (take early (sb_works b)) j with
  | None => None
  | Some j =>
      match segbuf_flush_bios stale j (sb_cur_buffer b) (cipher_segments (sb_cur_buffer b)) with
      | None => None
      | Some j =>
          match run_works stale cipher_segments (drop early (sb_works b)) j with
          | None => None
          | Some j =>
              match destroy_buffers (sb_buffer (j_seg_buffer j)) with
              | None => None
              | Some buffers =>
                  Some (with_buffer j {| sb_cur_buffer := sb_cur_buffer b; sb_buffer := buffers; sb_works := [] |})
              end
          end
      end
  end.

Lemma run_works_flush stale css works j : run_works stale css works j = flush_buffers stale css works j.
Proof. revert j. induction works as [|i works IH]; intros j; [done|]. cbn [run_works flush_buffers]. unfold bufferio_handler. by destruct (segbuf_flush_bios _ _ _ _). Qed.

Lemma flush_buffers_app stale css ids ids' j : flush_buffers stale css (ids ++ ids') j =
  match flush_buffers stale css ids j with None => None | Some j => flush_buffers stale css ids' j end.
Proof. revert j. induction ids as [|i ids IH]; intros j; [done|]. cbn [app flush_buffers]. by destruct (segbuf_flush_bios _ _ _ _). Qed.

Lemma destroy_buffers_ok buffers : Forall ds_wf buffers -> exists buffers', destroy_buffers buffers = Some buffers'.
Proof.
  induction 1 as [|ds buffers Hds _ [rest IH]]; [by eexists|]. destruct (data_segment_destroy_spec ds Hds) as [ds' Hd].
  exists (ds' :: rest). cbn [destroy_buffers]. by rewrite Hd, IH.
Qed.

(** The order in which the buffers are flushed. *)
Definition destroy_order b (early : nat) : list Z := take early (sb_works b) ++ sb_cur_buffer b :: drop early (sb_works b).

(** The flushes are the whole effect on the disk. *)
Lemma segbuf_destroy_flushes stale css early j j' : flush_buffers stale css (destroy_order (j_seg_buffer j) early) j = Some j' ->
  pool_wf (j_seg_buffer j') ->
  exists b, segbuf_destroy stale css early j = Some (with_buffer j' b).
Proof.
  unfold destroy_order, segbuf_destroy. cbv zeta. rewrite flush_buffers_app.
  rewrite (run_works_flush stale css (take early (sb_works (j_seg_buffer j))) j).
  destruct (flush_buffers stale css (take early _) j) as [j1|]; [|done]. cbn [flush_buffers].
  destruct (segbuf_flush_bios _ _ _ _) as [j2|]; [|done]. rewrite (run_works_flush stale css (drop early (sb_works (j_seg_buffer j))) j2). intros -> Hpool.
  destruct (destroy_buffers_ok (sb_buffer (j_seg_buffer j'))) as [buffers ->]; [|by eexists].
  apply Forall_lookup. intros i ds Hds. pose proof (lookup_lt_Some _ _ _ Hds) as Hlt. rewrite (pw_length _ Hpool) in Hlt.
  destruct (pool_at (j_seg_buffer j') (Z.of_nat i) Hpool) as [Hw _]; [unfold POOL_SIZE in *; lia|].
  unfold buffer_at in Hw. by rewrite Nat2Z.id, Hds in Hw.
Qed.

(** The buffers that are neither current nor queued were flushed: what a read
    finds only there is stored. *)
Definition flushed_stored j : Prop :=
  forall k d, 0 <= k < 2 ^ 31 -> (forall i, i ∈ sb_cur_buffer (j_seg_buffer j) :: sb_works (j_seg_buffer j) -> ds_map (buffer_at (j_seg_buffer j) i) !! k = None) ->
    segbuf_query_block (j_seg_buffer j) k = Ok d -> stored_page j k = Filled d.

(** Nothing is queued, or the order of the flushes makes no difference. *)
Definition destroy_order_fits b : Prop := sb_works b = [] \/ buffers_agree b.

Lemma destroy_order_range b early : pool_wf b -> Forall (fun i => 0 <= i < POOL_SIZE) (sb_works b) ->
  Forall (fun i => 0 <= i < POOL_SIZE) (destroy_order b early).
Proof. intros Hb Hw. apply Forall_take_drop; [done|apply Hb]. Qed.

Lemma destroy_order_elem b early i : i ∈ destroy_order b early <-> i ∈ sb_cur_buffer b :: sb_works b.
Proof. unfold destroy_order. rewrite <- (take_drop early (sb_works b)) at 3. rewrite elem_of_app, !elem_of_cons, elem_of_app. tauto. Qed.

Lemma destroy_order_newest b early k d : pool_wf b -> Forall (fun i => 0 <= i < POOL_SIZE) (sb_works b) -> destroy_order_fits b ->
  last_held b (destroy_order b early) k = Some d -> maps_find (pool_maps b) k = Some d.
Proof.
  intros Hb Hw [Hnil|Hagree]; [|by apply last_held_agree; [..|apply destroy_order_range]].
  unfold destroy_order. rewrite Hnil, take_nil, drop_nil. cbn [app last_held]. intros Hd.
  rewrite (pool_maps_head b Hb). cbn [maps_find]. by rewrite Hd.
Qed.

Lemma segbuf_destroy_ok stale css early j gsss : storage_ok j gsss -> pool_wf (j_seg_buffer j) ->
  Forall (fun i => 0 <= i < POOL_SIZE) (sb_works (j_seg_buffer j)) -> (forall i, length (css i) = Z.to_nat BLOCKS_PER_SEGMENT) ->
  can_flush j gsss (destroy_order (j_seg_buffer j) early) ->
  exists j', segbuf_destroy stale css early j = Some j' /\ storage_ok j' gsss /\
    forall k, stored_page j' k = held_page (last_held (j_seg_buffer j) (destroy_order (j_seg_buffer j) early) k) (stored_page j k).
Proof.
  intros Hok Hpool Hworks Hcs Hcan.
  destruct (flush_buffers_ok rit_range dst_range rit_writes dst_reads dst_writes svt_reads svt_writes gcm_ok stale css gsss
    (destroy_order (j_seg_buffer j) early) (destroy_order_range _ early Hpool Hworks) Hcs j Hok Hpool Hcan)
    as (j1 & Hrun & Hok1 & Hsame & Hpages).
  destruct (segbuf_destroy_flushes stale css early j j1 Hrun (sm_pool _ _ Hsame Hpool)) as [b ->].
  exists (with_buffer j1 b). split; [done|]. split; [by apply (storage_ok_frame j1)|]. exact Hpages.
Qed.

(** C9. Taking the write buffer down loses no write: when there are free segments
    and room in the memtable, [segbuf_destroy] ends with every block stored in the
    data region as a read returned it before, whatever part of the queue had run by
    the time it flushed the current buffer; the invariant of the tables is kept.
    This needs that the buffers flushed before are stored and that nothing is
    queued, or that no two buffers hold different data for a block. *)
Theorem segbuf_destroy_durable stale css early j gsss : storage_ok j gsss -> pool_wf (j_seg_buffer j) ->
  Forall (fun i => 0 <= i < POOL_SIZE) (sb_works (j_seg_buffer j)) -> (forall i, length (css i) = Z.to_nat BLOCKS_PER_SEGMENT) ->
  can_flush j gsss (destroy_order (j_seg_buffer j) early) -> flushed_stored j -> destroy_order_fits (j_seg_buffer j) ->
  exists j', segbuf_destroy stale css early j = Some j' /\ storage_ok j' gsss /\
    forall k, 0 <= k < 2 ^ 31 -> stored_page j' k = read_page j k.
Proof.
  intros Hok Hpool Hworks Hcs Hcan Hflushed Hfits.
  destruct (segbuf_destroy_ok stale css early j gsss Hok Hpool Hworks Hcs Hcan) as (j' & Hrun & Hok' & Hpages).
  exists j'. split; [done|]. split; [done|]. intros k Hk. rewrite Hpages. unfold read_page.
  pose proof (segbuf_query_find _ _ Hpool Hk) as Hq.
  destruct (last_held (j_seg_buffer j) (destroy_order (j_seg_buffer j) early) k) as [d|] eqn:Hl.
  - rewrite Hq, (destroy_order_newest _ early k d Hpool Hworks Hfits Hl). done.
  - cbn [held_page]. destruct (segbuf_query_block (j_seg_buffer j) k) as [d|e] eqn:Hd; [|done].
    apply Hflushed; [done| |done]. intros i Hi. apply (last_held_none _ _ _ Hl). by apply destroy_order_elem.
Qed.

(** A block rewritten while its older data waits in the queue: the older data is
    stored over the newer. *)
Theorem segbuf_destroy_stores_older stale css j gsss i k d d' : storage_ok j gsss -> pool_wf (j_seg_buffer j) ->
  (forall i, length (css i) = Z.to_nat BLOCKS_PER_SEGMENT) -> can_flush j gsss [sb_cur_buffer (j_seg_buffer j); i] ->
  sb_works (j_seg_buffer j) = [i] -> 0 <= i < POOL_SIZE -> 0 <= k < 2 ^ 31 ->
  ds_map (buffer_at (j_seg_buffer j) (sb_cur_buffer (j_seg_buffer j))) !! k = Some d -> ds_map (buffer_at (j_seg_buffer j) i) !! k = Some d' ->
  exists j', segbuf_destroy stale css 0 j = Some j' /\ read_page j k = Filled d /\ stored_page j' k = Filled d'.
Proof.
  intros Hok Hpool Hcs Hcan Hworks Hi Hk Hd Hd'.
  assert (destroy_order (j_seg_buffer j) 0 = [sb_cur_buffer (j_seg_buffer j); i]) as Horder by (unfold destroy_order; by rewrite Hworks).
  destruct (segbuf_destroy_ok stale css 0 j gsss Hok Hpool) as (j' & Hrun & _ & Hpages);
    [rewrite Hworks; by constructor|done|by rewrite Horder|].
  exists j'. split; [done|]. rewrite Hpages, Horder. cbn [last_held]. rewrite Hd'. split; [|done].
  unfold read_page. rewrite (segbuf_query_find _ _ Hpool Hk), (pool_maps_head _ Hpool). cbn [maps_find]. by rewrite Hd.
Qed.
End buffer.

(** ** The tree *)
Section tree.
Context `{CryptoApiSpec} `{FileIOSpec} `{LeafCacheSpec bit_leaf} `{BsearchSpec} `{MinHeapSpec}.
Context `{ArraySpec Z} `{!GroupArray} `{ArraySpec file_stat} `{ArraySpec reverse_index_entry} `{ArraySpec dst_entry}.
Context (old_mac : list Z) (no_cache : cache (V := bit_leaf)).
Context (random_key : Z -> list Z) (random_buffer : Z -> Z -> Z) (stale catalogue_start : Z).
Implicit Types (this : disk_tree).

#[local] Abbreviation handler := (minor_compaction_handler old_mac no_cache random_key random_buffer stale catalogue_start).
#[local] Abbreviation minor_compaction := (lsm_tree_minor_compaction old_mac no_cache random_key random_buffer stale catalogue_start).

(** The works of [compaction_wq]: each compacts what is then the immutable
    memtable. *)
Fixpoint run_compactions (uninit : Z) (works : nat) this (immutable : option memtable) : option disk_tree :=
  match works with
  | O => Some this
  | S works =>
      match handler uninit this immutable with
      | None => None
      | Some this => run_compactions uninit works this immutable
      end
  end.

(** [lsm_tree_destroy]: what it does to the levels on the disk. *)
Definition lsm_tree_destroy (uninit : Z) this (immutable : option memtable) (m : memtable) (works : nat) : option disk_tree :=
  match run_compactions uninit works this immutable with
  | None => None
  | Some this => if mt_size m =? 0 then Some this else minor_compaction uninit this m
  end.

Context (mac_length : length old_mac = 16%nat) (no_cache_empty : forall k, cache_view no_cache k = None).
Context (keys_encrypt : forall v, encrypts (random_key v)).
Context (table_reads : reliable) (table_writes : writable).
Context (stats_fit : forall f, darr_entry_ok (bit_file_get_stats f)).
Context (start_ok : 0 <= catalogue_start).

#[local] Abbreviation tree_ok := (tree_ok catalogue_start).

(** What is compacted of the immutable memtable. *)
Definition queued (works : nat) (immutable : option memtable) (k : Z) : option record :=
  match works, immutable with S _, Some m => mem_find m k | _, _ => None end.

Lemma empty_memtable_finds m k : memtable_wf m -> mt_size m = 0 -> mem_find m k = None.
Proof.
  intros [_ _ Hcells Hsize _] Hz. unfold mem_find, mt_map. destruct (rb_inorder (mt_root m)) as [|e l]; [done|]. exfalso.
  apply Forall_cons in Hcells as [He Hcells]. cbn in Hsize. pose proof (weight_nonneg l). lia.
Qed.

Lemma visible_layer f g g' k : visible (g k) = visible (g' k) -> visible (layer f g k) = visible (layer f g' k).
Proof. unfold layer. by destruct (f k). Qed.

Lemma run_compactions_ok uninit this immutable works P0 P1 : tree_ok this P0 P1 ->
  works = 0%nat \/ works = 1%nat /\ (exists m, immutable = Some m /\ memtable_ready m) /\ can_make_room this P0 P1 /\ tree_room this ->
  exists this' P0' P1', run_compactions uninit works this immutable = Some this' /\ tree_ok this' P0' P1' /\
    forall k, visible (tree_shows P0' P1' k) = visible (layer (queued works immutable) (tree_shows P0 P1) k).
Proof.
  intros Htree [->|(-> & (m & -> & Hm) & Hroom & Hfree)]; [by exists this, P0, P1|].
  destruct (minor_compaction_done old_mac no_cache random_key random_buffer stale catalogue_start mac_length no_cache_empty keys_encrypt
    table_reads table_writes stats_fit start_ok uninit this m P0 P1 Htree Hroom Hfree Hm) as (this' & P0' & P1' & Hrun & [Hok Hvis _ _]).
  exists this', P0', P1'. cbn [run_compactions minor_compaction_handler]. by rewrite Hrun.
Qed.

(** The tree that is left on the disk shows what the memtables and the levels
    showed, when at most the compaction of the immutable memtable is queued. *)
Theorem lsm_tree_destroy_flushes uninit this immutable m works P0 P1 : tree_ok this P0 P1 -> memtable_wf m ->
  works = 0%nat \/ works = 1%nat /\ (exists m, immutable = Some m /\ memtable_ready m) /\ can_make_room this P0 P1 /\ tree_room this ->
  (forall this1 Q0 Q1, run_compactions uninit works this immutable = Some this1 -> tree_ok this1 Q0 Q1 ->
     mt_size m = 0 \/ memtable_ready m /\ can_make_room this1 Q0 Q1 /\ tree_room this1) ->
  exists this' P0' P1', lsm_tree_destroy uninit this immutable m works = Some this' /\ tree_ok this' P0' P1' /\
    forall k, visible (tree_shows P0' P1' k) = visible (layer (mem_find m) (layer (queued works immutable) (tree_shows P0 P1)) k).
Proof.
  intros Htree Hwf Hworks Hthen. destruct (run_compactions_ok uninit this immutable works P0 P1 Htree Hworks) as (this1 & Q0 & Q1 & Hrun & Htree1 & Hvis).
  unfold lsm_tree_destroy. rewrite Hrun. destruct (Z.eqb_spec (mt_size m) 0) as [Hz|Hz].
  - exists this1, Q0, Q1. split; [done|]. split; [done|]. intros k. rewrite Hvis. unfold layer at 2. by rewrite empty_memtable_finds.
  - destruct (Hthen this1 Q0 Q1 Hrun Htree1) as [|(Hm & Hroom & Hfree)]; [done|].
    destruct (minor_compaction_done old_mac no_cache random_key random_buffer stale catalogue_start mac_length no_cache_empty keys_encrypt
      table_reads table_writes stats_fit start_ok uninit this1 m Q0 Q1 Htree1 Hroom Hfree Hm) as (this' & P0' & P1' & Hrun' & [Hok' Hvis' _ _]).
    exists this', P0', P1'. split; [done|]. split; [done|]. intros k. rewrite Hvis'. by apply visible_layer.
Qed.
End tree.

(** ** A concrete run *)

(** The disk of [example_storage], whose current buffer holds block 7 and whose
    queue is empty. *)
Lemma example_buffers_agree : buffers_agree example_storage_buffer.
Proof. destruct example_order_fits as [Hcur|Hagree]; [done|exact Hagree]. Qed.

Lemma example_flushed_stored : flushed_stored example_storage.
Proof.
  intros k d Hk Hnone Hd. exfalso. change (j_seg_buffer example_storage) with example_storage_buffer in *.
  rewrite (segbuf_query_find _ _ example_storage_pool Hk) in Hd.
  destruct (maps_find (pool_maps example_storage_buffer) k) as [d'|] eqn:Hm; [|done].
  destruct (maps_find_some _ _ _ Hm) as (i & Hi & Hd'). destruct (decide (i = 0)) as [->|Hne].
  - rewrite (Hnone 0) in Hd'; [done|]. left.
  - assert (i = 1 \/ i = 2 \/ i = 3) as Hi' by (unfold POOL_SIZE in *; lia).
    assert (ds_map (buffer_at example_storage_buffer i) = ∅) as Hemp by (destruct Hi' as [->|[->| ->]]; by vm_compute).
    by rewrite Hemp, lookup_empty in Hd'.
Qed.

Lemma segbuf_destroy_durable_witness :
  let j := example_storage in
  exists j', segbuf_destroy 0 example_areas 0 j = Some j' /\ storage_ok j' [] /\
    forall k, 0 <= k < 2 ^ 31 -> stored_page j' k = read_page j k.
Proof.
  intros j. refine (segbuf_destroy_durable (fun e => iff_refl _) dst_list_range example_rit_writes example_dst_reads example_dst_writes
    example_svt_reads example_svt_writes example_encrypts 0 example_areas 0 example_storage []
    example_storage_ok example_storage_pool _ _ _ example_flushed_stored (or_intror example_buffers_agree)).
  - change (Forall (fun i => 0 <= i < POOL_SIZE) []). constructor.
  - intros i. unfold example_areas. by rewrite length_replicate.
  - split; [vm_compute; congruence|]. left. vm_compute. reflexivity.
Defined.
