(* ===== verification/DataLog.v ===== *)
(** * DataLog: the log of the data region

    With the journal enabled, [jindisk_write_blocks] ([dm-jindisk.c]) logs for
    every block it has written where it lies and under which key, as the tables
    and the index say. *)
From S2P Require Import Prelude Layout Bytes BlockIo RbTree Memtable DiskStructs SegValidator Rit Dst Cache BitFile BitLevel LsmTree Metadata Crypto SegmentBuffer SegmentAllocator Journal Jindisk Storage.

(** [struct data_log_record] in the union of a record; the iv is not assigned.
    [j] is what the record variable holds before. *)
Definition data_log_record (j : list Z) (timestamp lba hba : Z) (key mac : list Z) : list Z :=
  let j := splice 0 (le_encode 4 0) j in
  let j := splice 8 (le_encode 8 timestamp) j in
  let j := splice 16 (le_encode 8 lba) j in
  let j := splice 24 (le_encode 8 hba) j in
  let j := splice 32 (bytes_at 16 key) j in
  splice 48 (bytes_at 16 mac) j.

(** [lba] and [hba] in what the journal keeps of the record. *)
Definition data_log_lba (data : list Z) : Z := le_decode (slice 12 8 data).
Definition data_log_hba (data : list Z) : Z := le_decode (slice 20 8 data).

Section data_log.
Context `{BlockDevSpec} `{CryptoApiSpec}.
Context `{RbTreeSpec} `{NodeStoreSpec} `{LeafCacheSpec bit_leaf} `{BsearchSpec}.
Context `{ArraySpec reverse_index_entry} `{ArraySpec dst_entry} `{ArraySpec Z} `{!GroupArray}.
Context `{BufioSpec}.
Context (root_key root_iv : list Z) (ecb_encrypt : list Z -> list Z -> result (list Z)).
Context (random_bytes : nat -> list Z) (kmalloc_block : nat -> list Z).
Implicit Types (j : jindisk) (jr : journal_region).

(** The variables of [jindisk_write_blocks] that a failed call leaves as they
    are; they are not initialised. *)
Record log_vars : Type := LogVars { lv_lba : Z; lv_record : record; lv_j_record : list Z }.

(** [for (i = 0; i < count; i++) { hba += i; ... }]; [n] rounds are left. *)
Fixpoint log_data_loop (n : nat) (ts i hba : Z) (vars : log_vars) j jr : option (jindisk * journal_region) :=
  match n with
  | O => Some (j, jr)
  | S n =>
      let hba := u64 (hba + i) in
      let '(rit, r) := reverse_index_table_get (j_rit j) hba in
      let lba := match r with Ok lba => lba | Err _ => lv_lba vars end in
      let '(t, found) := lsm_tree_search (j_lsm_tree j) (u32 lba) in
      let d_record := match found with Ok d => d | Err _ => lv_record vars end in
      let j_record := data_log_record (lv_j_record vars) ts lba hba (key d_record) (mac d_record) in
      match journal_add_record root_key root_iv ecb_encrypt random_bytes kmalloc_block jr j_record with
      | None => None
      | Some (jr, _) =>
          log_data_loop n ts (i + 1) hba {| lv_lba := lba; lv_record := d_record; lv_j_record := j_record |}
            (with_tree (with_rit j rit) t) jr
      end
  end.

(** [jindisk_write_blocks] with the journal enabled. *)
Definition write_blocks_logged (pba : Z) (buffer : list (list Z)) (ts : Z) (vars : log_vars) j jr : option (jindisk * journal_region) :=
  log_data_loop (length buffer) ts 0 pba vars (jindisk_write_blocks j pba buffer) jr.

(** ** What is logged *)

Context (derive_ok : forall q, exists k, journal_derive_key ecb_encrypt root_key q = Ok k).
Context (gcm_ok : forall data key iv seq, exists out mac, aes_gcm_cipher_encrypt data key (Some iv) seq = Ok (out, mac)).

Lemma data_log_length r ts lba hba k m : length r = RECORD_BYTES -> length (data_log_record r ts lba hba k m) = RECORD_BYTES.
Proof.
  unfold RECORD_BYTES, data_log_record. intros Hr. splice_lengths.
Qed.

Lemma data_log_says r ts l h k m : length r = RECORD_BYTES -> 0 <= h < 2 ^ 64 -> data_log_hba (record_data (data_log_record r ts l h k m)) = h.
Proof.
  intros Hr Hh. pose proof (data_log_length r ts l h k m Hr) as Hlen. unfold RECORD_BYTES in *.
  assert (record_type_at (data_log_record r ts l h k m) = Some DATA_LOG) as Ht.
  { unfold record_type_at, data_log_record. rewrite !slice_splice_other by splice_lengths.
    rewrite (slice_splice_exact 0 4) by splice_lengths. by rewrite le_decode_encode by lia. }
  unfold data_log_hba, record_data. rewrite Ht. cbn [record_member_size]. set (d := data_log_record r ts l h k m) in *.
  unfold slice at 1. rewrite drop_app_ge by (rewrite slice_length by lia; lia). rewrite (slice_length 0 4) by lia.
  fold (slice (20 - 4) 8 (slice RECORD_UNION 72 d)). unfold RECORD_UNION. rewrite slice_slice by lia. cbn [Nat.add Nat.sub].
  subst d. unfold data_log_record. rewrite (slice_splice_other 48), (slice_splice_other 32) by splice_lengths.
  rewrite (slice_splice_exact 24 8) by splice_lengths. apply le_decode_encode. lia.
Qed.

(** The address that the loop names in round [i]: the sum of the numbers up to
    [i] away from the start. *)
Definition logged_address (pba i : Z) : Z := u64 (pba + i * (i + 1) / 2).

Lemma logged_address_next pba i : 0 <= i -> u64 (logged_address pba i + (i + 1)) = logged_address pba (i + 1).
Proof.
  intros Hi. unfold logged_address, u64. rewrite Zplus_mod_idemp_l. f_equal. rewrite <- Z.add_assoc. f_equal.
  replace ((i + 1) * (i + 1 + 1)) with (i * (i + 1) + (i + 1) * 2) by ring. by rewrite Z.div_add by lia.
Qed.

Lemma log_data_loop_ok ts pba : forall n i hba vars j jr l, 0 <= i -> u64 (hba + i) = logged_address pba i ->
  length (lv_j_record vars) = RECORD_BYTES -> journal_ok root_key ecb_encrypt jr l ->
  exists j' jr' rs, log_data_loop n ts i hba vars j jr = Some (j', jr') /\
    journal_ok root_key ecb_encrypt jr' (foldl log_add l rs) /\ length rs = n /\
    forall m x, rs !! m = Some x -> data_log_hba x = logged_address pba (i + Z.of_nat m).
Proof.
  induction n as [|n IH]; intros i hba vars j jr l Hi Hhba Hrec Hj; cbn [log_data_loop]; [by exists j, jr, []|].
  rewrite Hhba. destruct (reverse_index_table_get (j_rit j) (logged_address pba i)) as [rit r].
  set (lba := match r with Ok lba => lba | Err _ => lv_lba vars end).
  destruct (lsm_tree_search (j_lsm_tree j) (u32 lba)) as [t found].
  set (d := match found with Ok d => d | Err _ => lv_record vars end).
  set (x := data_log_record (lv_j_record vars) ts lba (logged_address pba i) (key d) (mac d)).
  assert (length x = RECORD_BYTES) as Hx by (by apply data_log_length).
  destruct (add_record_ok root_key root_iv ecb_encrypt random_bytes kmalloc_block derive_ok gcm_ok jr l x Hj Hx) as (jr1 & -> & Hj1 & _).
  destruct (IH (i + 1) (logged_address pba i) {| lv_lba := lba; lv_record := d; lv_j_record := x |} (with_tree (with_rit j rit) t) jr1
    (log_add l (record_data x)) ltac:(lia) (logged_address_next pba i Hi) Hx Hj1) as (j' & jr' & rs & Hrun & Hok & Hlen & Hrs).
  exists j', jr', (record_data x :: rs). split; [done|]. split; [exact Hok|]. split; [cbn; lia|]. intros [|m] y Hy.
  - injection Hy as <-. rewrite Z.add_0_r. apply data_log_says; [done|]. unfold logged_address, u64. by apply Z.mod_pos_bound.
  - rewrite (Hrs m y Hy). f_equal. lia.
Qed.

(** With the journal enabled, writing [count] blocks always ends with [count]
    records more in the journal, but the addresses they name are not those of the
    blocks: [hba += i] adds up, so that record [i] names the block [i * (i + 1) / 2]
    away from the start. The first two are right, and the logical address and the
    key of every later one are taken from another block. *)
Theorem write_log_addresses pba buffer ts vars j jr l : length (lv_j_record vars) = RECORD_BYTES ->
  journal_ok root_key ecb_encrypt jr l ->
  exists j' jr' rs, write_blocks_logged pba buffer ts vars j jr = Some (j', jr') /\
    journal_ok root_key ecb_encrypt jr' (foldl log_add l rs) /\ length rs = length buffer /\
    forall m x, rs !! m = Some x -> data_log_hba x = u64 (pba + Z.of_nat m * (Z.of_nat m + 1) / 2).
Proof. intros Hrec Hj. apply (log_data_loop_ok ts pba); [done| |done..]. unfold logged_address. by rewrite !Z.add_0_r. Qed.
End data_log.

(** ** A concrete run *)

(** Four blocks are written and logged on the disk of [example_storage]. *)
Definition example_log_vars : log_vars := {| lv_lba := 0; lv_record := negative; lv_j_record := example_record |}.

Lemma write_log_addresses_witness : exists jr,
  let buffer := [[1]; [2]; [3]; [4]] in
  let l := log_fresh example_record in
  exists j' jr' rs, write_blocks_logged [] [] example_ecb example_bytes example_bytes 6 buffer 11 example_log_vars example_storage jr = Some (j', jr') /\
    journal_ok [] example_ecb jr' (foldl log_add l rs) /\ length rs = length buffer /\
    forall m x, rs !! m = Some x -> data_log_hba x = u64 (6 + Z.of_nat m * (Z.of_nat m + 1) / 2).
Proof.
  destruct example_journal as (jr & Hjr & _). exists jr. intros buffer l.
  exact (write_log_addresses [] [] example_ecb example_bytes example_bytes example_derive_ok example_gcm_ok 6 buffer 11 example_log_vars
    example_storage jr l eq_refl Hjr).
Defined.
