(* ===== verification/DeferredBios.v ===== *)
(** * DeferredBios: the request path of the target ([dm-jindisk.c])

    [dm_jindisk_target_map] appends a read or write request to
    [deferred_bios] and schedules [deferred_bio_worker]; the worker takes the
    whole list and runs the writes itself, in order, while each read runs in a
    work item of its own ([go(async_read, bio)]), bounded by the semaphore
    [max_reader]. The workqueue is the kernel's: a work item is queued at most
    once, may be queued again while it runs, and never runs twice at a time. *)
From S2P Require Import Prelude Layout.

Inductive bio_op_kind : Type := REQ_OP_READ | REQ_OP_WRITE | REQ_OP_FLUSH | REQ_OP_OTHER.

(** [bi_size] in bytes; [bi_blocks] is the data of a write. *)
Record bio : Type := Bio { bio_op : bio_op_kind; bi_sector : Z; bi_size : Z; bi_blocks : list (list Z) }.

Definition MAX_READER : Z := 4.

(** ** Serving a request

    What a request does to the state of the device, [jindisk_do_write] and
    [jindisk_do_read], as an interface: the contents [V] that a state shows, how
    a write changes them and what a read answers from them. *)
Class TargetOps (D R : Type) : Type := {
  do_write : D -> bio -> D;
  do_read : D -> bio -> D * R
}.

Class TargetSpec {D R : Type} `{TargetOps D R} (V : Type) : Type := {
  view : D -> V;
  apply_write : V -> bio -> V;
  answer : V -> bio -> R;
  do_write_view : forall d b, view (do_write d b) = apply_write (view d) b;
  do_read_view : forall d b, view (do_read d b).1 = view d;
  do_read_answer : forall d b, (do_read d b).2 = answer (view d) b
}.

Section deferred_bios.
Context {D R V : Type} `{!TargetOps D R} `{!TargetSpec V}.

(** A request with its place in the order of submission. *)
Notation request := (nat * bio)%type.

Record dm_state : Type := DmState {
  ds_disk : D;
  ds_deferred : list request;        (** [deferred_bios] *)
  ds_scheduled : bool;               (** [deferred_bio_worker] is queued *)
  ds_worker : option (list request); (** [bios] of the running worker *)
  ds_readers : list request;         (** reads handed to [go] *)
  ds_max_reader : Z;                 (** the count of the semaphore *)
  ds_submitted : list bio;           (** all requests so far *)
  ds_done : list (nat * option R);   (** [bio_endio], in order *)
  ds_timeouts : Z                    (** failed [down_timeout] calls *)
}.
Implicit Types (s : dm_state).

Definition dm_init (d : D) : dm_state :=
  {| ds_disk := d; ds_deferred := []; ds_scheduled := false; ds_worker := None; ds_readers := [];
     ds_max_reader := MAX_READER; ds_submitted := []; ds_done := []; ds_timeouts := 0 |}.

Definition bio_list_add_safe (l : list request) (b : request) : list request := l ++ [b].

(** [dst] and [src] afterwards. *)
Definition bio_list_take_safe (src : list request) : list request * list request := ([] ++ src, []).

Definition defer_bio s (b : bio) : dm_state :=
  {| ds_disk := ds_disk s; ds_deferred := bio_list_add_safe (ds_deferred s) (length (ds_submitted s), b);
     ds_scheduled := true; ds_worker := ds_worker s; ds_readers := ds_readers s; ds_max_reader := ds_max_reader s;
     ds_submitted := ds_submitted s ++ [b]; ds_done := ds_done s; ds_timeouts := ds_timeouts s |}.

(** The start of [process_deferred_bios]; [None] when the work item is not due. *)
Definition process_start s : option dm_state :=
  match ds_scheduled s, ds_worker s with
  | true, None =>
      let '(bios, deferred) := bio_list_take_safe (ds_deferred s) in
      Some {| ds_disk := ds_disk s; ds_deferred := deferred; ds_scheduled := false; ds_worker := Some bios;
              ds_readers := ds_readers s; ds_max_reader := ds_max_reader s; ds_submitted := ds_submitted s;
              ds_done := ds_done s; ds_timeouts := ds_timeouts s |}
  | _, _ => None
  end.

(** [go(async_read, bio)] after [down_timeout], which has failed if [timed_out]. *)
Definition go_async_read s (r : request) (bios : list request) (timed_out : bool) : dm_state :=
  {| ds_disk := ds_disk s; ds_deferred := ds_deferred s; ds_scheduled := ds_scheduled s; ds_worker := Some bios;
     ds_readers := ds_readers s ++ [r]; ds_max_reader := if timed_out then ds_max_reader s else ds_max_reader s - 1;
     ds_submitted := ds_submitted s; ds_done := ds_done s; ds_timeouts := if timed_out then ds_timeouts s + 1 else ds_timeouts s |}.

Definition worker_bios s (bios : option (list request)) : dm_state :=
  {| ds_disk := ds_disk s; ds_deferred := ds_deferred s; ds_scheduled := ds_scheduled s; ds_worker := bios;
     ds_readers := ds_readers s; ds_max_reader := ds_max_reader s; ds_submitted := ds_submitted s;
     ds_done := ds_done s; ds_timeouts := ds_timeouts s |}.

(** [bio_endio] of a write. *)
Definition end_write s (r : request) (bios : list request) : dm_state :=
  {| ds_disk := do_write (ds_disk s) r.2; ds_deferred := ds_deferred s; ds_scheduled := ds_scheduled s; ds_worker := Some bios;
     ds_readers := ds_readers s; ds_max_reader := ds_max_reader s; ds_submitted := ds_submitted s;
     ds_done := ds_done s ++ [(r.1, None)]; ds_timeouts := ds_timeouts s |}.

(** One turn of the loop of [process_deferred_bios]; [timed_out] tells whether
    [down_timeout] has given up waiting, otherwise the worker waits ([None])
    while the count of the semaphore is 0. The result of [down_timeout] is
    ignored. A request that is neither a read nor a write is dropped. *)
Definition process_next s (timed_out : bool) : option dm_state :=
  match ds_worker s with
  | None => None
  | Some [] => Some (worker_bios s None)
  | Some (r :: bios) =>
      match bio_op r.2 with
      | REQ_OP_READ =>
          if 0 <? ds_max_reader s then Some (go_async_read s r bios false)
          else if timed_out then Some (go_async_read s r bios true) else None
      | REQ_OP_WRITE => Some (end_write s r bios)
      | _ => Some (worker_bios s (Some bios))
      end
  end.

(** [async_read] for the reader at position [i]: the read, [bio_endio] and [up]. *)
Definition async_read s (i : nat) : option dm_state :=
  match ds_readers s !! i with
  | None => None
  | Some r =>
      let '(d, pages) := do_read (ds_disk s) r.2 in
      Some {| ds_disk := d; ds_deferred := ds_deferred s; ds_scheduled := ds_scheduled s; ds_worker := ds_worker s;
              ds_readers := delete i (ds_readers s); ds_max_reader := ds_max_reader s + 1; ds_submitted := ds_submitted s;
              ds_done := ds_done s ++ [(r.1, Some pages)]; ds_timeouts := ds_timeouts s |}
  end.

(** ** Steps *)

Inductive serve : dm_state -> dm_state -> Prop :=
  | serve_start s s' : process_start s = Some s' -> serve s s'
  | serve_next s timed_out s' : process_next s timed_out = Some s' -> serve s s'
  | serve_read s i s' : async_read s i = Some s' -> serve s s'.

Definition deferrable (b : bio) : bool :=
  match bio_op b with REQ_OP_READ | REQ_OP_WRITE => true | _ => false end.

Inductive reachable (d : D) : dm_state -> Prop :=
  | reachable_init : reachable d (dm_init d)
  | reachable_submit s b : reachable d s -> deferrable b = true -> reachable d (defer_bio s b)
  | reachable_serve s s' : reachable d s -> serve s s' -> reachable d s'.

(** ** The order of requests *)

(** The contents after the first [n] of the requests [bs]. *)
Definition apply_bio (v : V) (b : bio) : V := match bio_op b with REQ_OP_WRITE => apply_write v b | _ => v end.
Definition contents (v : V) (bs : list bio) (n : nat) : V := foldl apply_bio v (take n bs).

Definition numbered (bs : list bio) : list request := imap pair bs.

(** A completed request: a write, or a read that answers from the contents after
    at least the requests before it and at most the first [k]. *)
Definition completed (v : V) (bs : list bio) (k : nat) (x : nat * option R) : Prop :=
  exists b, bs !! x.1 = Some b /\
  match x.2 with
  | None => bio_op b = REQ_OP_WRITE
  | Some r => bio_op b = REQ_OP_READ /\ exists n, (x.1 < n <= k)%nat /\ r = answer (contents v bs n) b
  end.

(** [k] requests have left the queue. *)
Record served (d : D) s (k : nat) : Prop := {
  sv_le : (k <= length (ds_submitted s))%nat;
  sv_queue : default [] (ds_worker s) ++ ds_deferred s = drop k (numbered (ds_submitted s));
  sv_contents : view (ds_disk s) = contents (view d) (ds_submitted s) k;
  sv_readers : Forall (fun r => (r.1 < k)%nat /\ ds_submitted s !! r.1 = Some r.2 /\ bio_op r.2 = REQ_OP_READ) (ds_readers s);
  sv_once : (ds_done s).*1 ++ (ds_readers s).*1 ≡ₚ seq 0 k;
  sv_done : Forall (completed (view d) (ds_submitted s) k) (ds_done s)
}.

Record dm_inv (d : D) s : Prop := {
  di_served : exists k, served d s k;
  di_deferrable : Forall (fun b => deferrable b = true) (ds_submitted s);
  di_wakeup : ds_deferred s <> [] -> ds_scheduled s = true;
  di_readers : ds_max_reader s + Z.of_nat (length (ds_readers s)) = MAX_READER + ds_timeouts s;
  di_count : 0 <= ds_max_reader s /\ 0 <= ds_timeouts s
}.

Lemma contents_app v bs b n : (n <= length bs)%nat -> contents v (bs ++ [b]) n = contents v bs n.
Proof. intros Hn. unfold contents. by rewrite take_app_le. Qed.

Lemma contents_next v bs b n : bs !! n = Some b -> contents v bs (S n) = apply_bio (contents v bs n) b.
Proof. intros Hb. unfold contents. rewrite (take_S_r _ _ b Hb), foldl_app. done. Qed.

Lemma completed_app v bs b k x : (k <= length bs)%nat -> completed v bs k x -> completed v (bs ++ [b]) k x.
Proof.
  intros Hk (b' & Hb & Hx). exists b'. split; [by apply lookup_app_l_Some|]. destruct (x.2); [|done].
  destruct Hx as (Hr & n & Hn & ->). split; [done|]. exists n. split; [done|]. by rewrite contents_app by lia.
Qed.

Lemma completed_more v bs k k' x : (k <= k')%nat -> completed v bs k x -> completed v bs k' x.
Proof.
  intros Hk (b' & Hb & Hx). exists b'. split; [done|]. destruct (x.2); [|done].
  destruct Hx as (Hr & n & Hn & ->). split; [done|]. exists n. by split; [lia|].
Qed.

Lemma numbered_app bs b : numbered (bs ++ [b]) = numbered bs ++ [(length bs, b)].
Proof. unfold numbered. rewrite imap_app. cbn. by rewrite Nat.add_0_r. Qed.

Lemma numbered_length bs : length (numbered bs) = length bs.
Proof. apply length_imap. Qed.

(** The head of the queue is the next request. *)
Lemma numbered_drop bs k r q : r :: q = drop k (numbered bs) -> r.1 = k /\ bs !! k = Some r.2 /\ q = drop (S k) (numbered bs).
Proof.
  intros Hq. assert (numbered bs !! k = Some r) as Hk by (by rewrite <- (Nat.add_0_r k), <- lookup_drop, <- Hq).
  unfold numbered in Hk. rewrite list_lookup_imap in Hk. destruct (bs !! k) as [b|] eqn:Hb; cbn in Hk; [|done].
  injection Hk as <-. split; [done|]. split; [done|]. by rewrite <- Nat.add_1_r, <- drop_drop, <- Hq.
Qed.

Lemma dm_init_inv d : dm_inv d (dm_init d).
Proof. split; try done. exists 0%nat. by split. Qed.

Lemma defer_bio_inv d s b : dm_inv d s -> deferrable b = true -> dm_inv d (defer_bio s b).
Proof.
  intros [(k & [Hle Hq Hv Hr Ho Hd]) Hdef Hw Hsem Hcnt] Hb. split; try done.
  - exists k. split; cbn; try done.
    + rewrite length_app. lia.
    + unfold bio_list_add_safe. rewrite numbered_app, drop_app_le by (by rewrite numbered_length). by rewrite app_assoc, Hq.
    + by rewrite contents_app.
    + eapply Forall_impl; [exact Hr|]. intros r (H1 & H2 & H3). split; [done|]. split; [|done]. by apply lookup_app_l_Some.
    + eapply Forall_impl; [exact Hd|]. intros x. by apply completed_app.
  - cbn. apply Forall_app. split; [done|]. by constructor.
Qed.

(** A request leaves the queue. *)
Lemma served_next d s k r q : served d s k -> r :: q = drop k (numbered (ds_submitted s)) ->
  (k < length (ds_submitted s))%nat /\ r.1 = k /\ ds_submitted s !! k = Some r.2 /\ q = drop (S k) (numbered (ds_submitted s)) /\
  contents (view d) (ds_submitted s) (S k) = apply_bio (view (ds_disk s)) r.2 /\
  Forall (completed (view d) (ds_submitted s) (S k)) (ds_done s) /\
  Forall (fun r => (r.1 < S k)%nat /\ ds_submitted s !! r.1 = Some r.2 /\ bio_op r.2 = REQ_OP_READ) (ds_readers s).
Proof.
  intros [Hle Hq Hv Hr Ho Hd] Hrq. destruct (numbered_drop _ _ _ _ Hrq) as (Hk & Hb & Hq').
  split; [by eapply lookup_lt_Some|]. split; [done|]. split; [done|]. split; [done|]. split; [by rewrite (contents_next _ _ r.2), Hv|].
  split; [eapply Forall_impl; [exact Hd|]; intros x; apply completed_more; lia|].
  eapply Forall_impl; [exact Hr|]. intros x (H1 & H2 & H3). split; [lia|done].
Qed.

Lemma process_start_inv d s s' : dm_inv d s -> process_start s = Some s' -> dm_inv d s'.
Proof.
  intros [(k & [Hle Hq Hv Hr Ho Hd]) Hdef Hw Hsem Hcnt] Hrun. unfold process_start in Hrun.
  destruct (ds_scheduled s); [|done]. destruct (ds_worker s); [done|]. injection Hrun as <-. cbn in Hq.
  split; try done. exists k. split; try done. cbn. by rewrite app_nil_r.
Qed.

Lemma process_next_inv d s timed_out s' : dm_inv d s -> process_next s timed_out = Some s' -> dm_inv d s'.
Proof.
  intros [(k & Hs) Hdef Hw Hsem Hcnt] Hrun. unfold process_next in Hrun. pose proof (sv_queue _ _ _ Hs) as Hq.
  destruct (ds_worker s) as [[|r bios]|] eqn:Hwk; [| |done].
  { injection Hrun as <-. split; try done. exists k. by destruct Hs as [Hle _ Hv Hr Ho Hd]. }
  cbn [default app] in Hq. destruct (served_next d s k r _ Hs Hq) as (Hlt & Hk & Hb & Hq' & Hc & Hd & Hr).
  rewrite Forall_lookup in Hdef. pose proof (Hdef _ _ Hb) as Hop. unfold deferrable in Hop. rewrite <- Forall_lookup in Hdef.
  destruct Hs as [Hle _ Hv _ Ho _]. unfold apply_bio in Hc.
  destruct (bio_op r.2) eqn:Hkind; try discriminate.
  - assert (forall t, served d (go_async_read s r bios t) (S k)) as Hgo.
    { intros t. split; cbn -[seq]; try done.
      - apply Forall_app. split; [done|]. constructor; [|done]. rewrite Hk. split; [lia|]. by split.
      - rewrite fmap_app, app_assoc, Ho, seq_S. cbn. by rewrite Hk. }
    destruct (Z.ltb_spec 0 (ds_max_reader s)).
    + injection Hrun as <-. split; try done; cbn; [by exists (S k)|rewrite length_app; cbn; lia|lia].
    + destruct timed_out; [|done]. injection Hrun as <-. split; try done; cbn; [by exists (S k)|rewrite length_app; cbn; lia|lia].
  - injection Hrun as <-. split; try done. exists (S k). split; cbn -[seq]; try done.
    + rewrite do_write_view. by symmetry.
    + rewrite fmap_app, seq_S, <- Ho. cbn. rewrite Hk, <- !app_assoc. apply Permutation_app_head. apply Permutation_app_comm.
    + apply Forall_app. split; [done|]. constructor; [|done]. exists r.2. cbn. by rewrite Hk.
Qed.

Lemma async_read_inv d s i s' : dm_inv d s -> async_read s i = Some s' -> dm_inv d s'.
Proof.
  intros [(k & [Hle Hq Hv Hr Ho Hd]) Hdef Hw Hsem Hcnt] Hrun. unfold async_read in Hrun.
  destruct (ds_readers s !! i) as [r|] eqn:Hi; [|done].
  pose proof (do_read_view (ds_disk s) r.2) as Hview. pose proof (do_read_answer (ds_disk s) r.2) as Hans.
  destruct (do_read (ds_disk s) r.2) as [d' pages]. cbn [fst snd] in *. injection Hrun as <-.
  pose proof Hr as Hri. rewrite Forall_lookup in Hri. destruct (Hri _ _ Hi) as (Ht & Hb & Hop).
  split; try done; cbn.
  - exists k. split; cbn; try done; [congruence|by apply Forall_delete| |].
    + rewrite fmap_app. cbn. rewrite <- app_assoc. rewrite (delete_Permutation _ _ _ Hi) in Ho. cbn in Ho. exact Ho.
    + apply Forall_app. split; [done|]. constructor; [|done]. exists r.2. cbn. split; [done|]. split; [done|].
      exists k. split; [lia|]. by rewrite Hans, Hv.
  - rewrite length_delete by done. apply lookup_lt_Some in Hi. unfold MAX_READER in *. lia.
  - lia.
Qed.

Lemma serve_inv d s s' : dm_inv d s -> serve s s' -> dm_inv d s'.
Proof.
  intros Hinv Hserve. destruct Hserve as [s s' Hr|s t s' Hr|s i s' Hr].
  - by eapply process_start_inv.
  - by eapply process_next_inv.
  - by eapply async_read_inv.
Qed.

Lemma reachable_inv d s : reachable d s -> dm_inv d s.
Proof.
  intros Hr. induction Hr as [|s b _ IH Hb|s s' _ IH Hs]; [apply dm_init_inv|by apply defer_bio_inv|by eapply serve_inv].
Qed.


(** ** Every request is completed *)

Definition remaining s : nat :=
  3 * (length (default [] (ds_worker s)) + length (ds_deferred s)) + length (ds_readers s) +
  (if ds_scheduled s then 2 else 0) + match ds_worker s with Some _ => 1 | None => 0 end.

Lemma serve_remaining s s' : serve s s' -> (remaining s' < remaining s)%nat.
Proof.
  unfold remaining. intros [s0 s0' Hrun|s0 t s0' Hrun|s0 i s0' Hrun].
  - unfold process_start in Hrun. destruct (ds_scheduled s0); [|done]. destruct (ds_worker s0) eqn:Hw; [done|].
    injection Hrun as <-. cbn. lia.
  - unfold process_next in Hrun. destruct (ds_worker s0) as [[|r bios]|] eqn:Hw; [| |done].
    { injection Hrun as <-. cbn. lia. }
    destruct (bio_op r.2).
    + destruct (0 <? ds_max_reader s0); [|destruct t; [|done]]; injection Hrun as <-; cbn; rewrite length_app; cbn; lia.
    + injection Hrun as <-. cbn. lia.
    + injection Hrun as <-. cbn. lia.
    + injection Hrun as <-. cbn. lia.
  - unfold async_read in Hrun. destruct (ds_readers s0 !! i) as [r|] eqn:Hi; [|done]. apply lookup_lt_Some in Hi as Hlt.
    destruct (do_read (ds_disk s0) r.2) as [d' pages]. injection Hrun as <-. cbn. rewrite length_delete by done. lia.
Qed.

Lemma serve_submitted s s' : serve s s' -> ds_submitted s' = ds_submitted s.
Proof.
  intros [s0 s0' Hrun|s0 t s0' Hrun|s0 i s0' Hrun].
  - unfold process_start in Hrun. destruct (ds_scheduled s0), (ds_worker s0); try done. by injection Hrun as <-.
  - unfold process_next in Hrun. destruct (ds_worker s0) as [[|r bios]|]; [by injection Hrun as <-| |done].
    destruct (bio_op r.2); try by injection Hrun as <-.
    destruct (0 <? ds_max_reader s0); [|destruct t; [|done]]; by injection Hrun as <-.
  - unfold async_read in Hrun. destruct (ds_readers s0 !! i) as [r|]; [|done].
    destruct (do_read (ds_disk s0) r.2) as [d' pages]. by injection Hrun as <-.
Qed.

(** No wakeup is lost and the worker never waits for a reader in vain: unless
    every request is completed, a step is possible. *)
Lemma serve_progress d s : dm_inv d s -> (exists s', serve s s') \/ (ds_done s).*1 ≡ₚ seq 0 (length (ds_submitted s)).
Proof.
  intros [(k & [Hle Hq _ _ Ho _]) _ Hw Hsem Hcnt]. destruct (ds_readers s) as [|r readers] eqn:Hr.
  2: { left. destruct (async_read s 0) as [s'|] eqn:Hrun; [exists s'; by eapply serve_read|]. unfold async_read in Hrun.
       rewrite Hr in Hrun. cbn in Hrun. by destruct (do_read (ds_disk s) r.2). }
  cbn in Hsem. destruct (ds_worker s) as [[|r bios]|] eqn:Hwk.
  - left. eexists. apply (serve_next s false). unfold process_next. by rewrite Hwk.
  - left. destruct (process_next s false) as [s'|] eqn:Hrun; [exists s'; by eapply serve_next|]. unfold process_next in Hrun.
    rewrite Hwk in Hrun. destruct (bio_op r.2); try discriminate. destruct (Z.ltb_spec 0 (ds_max_reader s)); [done|]. unfold MAX_READER in Hsem. lia.
  - destruct (ds_scheduled s) eqn:Hs.
    + left. eexists. apply serve_start. unfold process_start. by rewrite Hs, Hwk.
    + right. destruct (ds_deferred s) as [|x l]; [|by discriminate Hw]. cbn in Hq.
      assert (length (drop k (numbered (ds_submitted s))) = 0%nat) as Hlen by (by rewrite <- Hq).
      rewrite length_drop, numbered_length in Hlen. cbn in Ho. rewrite app_nil_r in Ho.
      replace (length (ds_submitted s)) with k by lia. done.
Qed.


(** The number of readers is bounded by [MAX_READER] as long as no
    [down_timeout] fails; each failure raises the bound for good, because
    [async_read] ups the semaphore also when it was not taken. *)
Theorem readers_bounded d s : reachable d s ->
  Z.of_nat (length (ds_readers s)) <= MAX_READER + ds_timeouts s /\
  (ds_readers s = [] -> ds_max_reader s = MAX_READER + ds_timeouts s).
Proof.
  intros Hr. destruct (reachable_inv d s Hr) as [_ _ _ Hsem Hcnt]. split; [lia|]. intros Hn. rewrite Hn in Hsem. cbn in Hsem. lia.
Qed.
End deferred_bios.

(** ** The completion of a read

    [jindisk_do_read] issues one request per run of adjacent blocks
    ([merge_read_io]) and counts them in [wait_cnt]; [decrypt_work] fills the
    pages of a run and completes [wait] when it brings the count to 0. *)
Record read_io : Type := ReadIo {
  ri_runs : nat;       (** runs not yet issued *)
  ri_running : nat;    (** runs issued whose pages are not filled *)
  ri_failed : nat;     (** runs given up by [read_iocb] *)
  ri_wait_cnt : Z;
  ri_complete : nat;   (** the count of the completion *)
  ri_ended : bool      (** [bio_endio] *)
}.

Definition read_io_init (runs : nat) : read_io :=
  {| ri_runs := runs; ri_running := 0; ri_failed := 0; ri_wait_cnt := 0; ri_complete := 0; ri_ended := false |}.

(** [merge_read_io]: [atomic_inc(wait_cnt)] and the request. *)
Definition merge_read_issue (s : read_io) : option read_io :=
  match ri_runs s with
  | O => None
  | S n => Some {| ri_runs := n; ri_running := S (ri_running s); ri_failed := ri_failed s; ri_wait_cnt := ri_wait_cnt s + 1;
                   ri_complete := ri_complete s; ri_ended := ri_ended s |}
  end.

(** The end of [decrypt_work]. *)
Definition decrypt_work_done (s : read_io) : option read_io :=
  match ri_running s with
  | O => None
  | S n => let cnt := ri_wait_cnt s - 1 in
      Some {| ri_runs := ri_runs s; ri_running := n; ri_failed := ri_failed s; ri_wait_cnt := cnt;
              ri_complete := if cnt =? 0 then S (ri_complete s) else ri_complete s; ri_ended := ri_ended s |}
  end.

(** [read_iocb] with an error: it returns at once. *)
Definition read_iocb_error (s : read_io) : option read_io :=
  match ri_running s with
  | O => None
  | S n => Some {| ri_runs := ri_runs s; ri_running := n; ri_failed := S (ri_failed s); ri_wait_cnt := ri_wait_cnt s;
                   ri_complete := ri_complete s; ri_ended := ri_ended s |}
  end.

(** The end of [jindisk_do_read]: it waits if the count is not 0. *)
Definition do_read_end (s : read_io) : option read_io :=
  let ended c := {| ri_runs := ri_runs s; ri_running := ri_running s; ri_failed := ri_failed s; ri_wait_cnt := ri_wait_cnt s;
                    ri_complete := c; ri_ended := true |} in
  match ri_runs s, ri_ended s with
  | O, false =>
      if ri_wait_cnt s =? 0 then Some (ended (ri_complete s))
      else match ri_complete s with O => None | S c => Some (ended c) end
  | _, _ => None
  end.

Inductive read_step (s s' : read_io) : Prop :=
  | read_issue : merge_read_issue s = Some s' -> read_step s s'
  | read_filled : decrypt_work_done s = Some s' -> read_step s s'
  | read_failed : read_iocb_error s = Some s' -> read_step s s'
  | read_end : do_read_end s = Some s' -> read_step s s'.

(** A read of one run. *)
Definition one_run (s : read_io) : Prop :=
  ri_wait_cnt s = Z.of_nat (ri_running s) + Z.of_nat (ri_failed s) /\
  (ri_runs s + ri_running s + ri_failed s <= 1)%nat /\
  (ri_complete s <> 0%nat -> ri_runs s = 0%nat /\ ri_running s = 0%nat /\ ri_failed s = 0%nat) /\
  (ri_ended s = true -> ri_runs s = 0%nat /\ ri_running s = 0%nat /\ ri_failed s = 0%nat).

Lemma one_run_step s s' : one_run s -> read_step s s' -> one_run s'.
Proof.
  unfold one_run. intros (Hc & Hn & Hd & He) [Hrun|Hrun|Hrun|Hrun]; revert Hrun.
  - unfold merge_read_issue. destruct (ri_runs s); [done|]. intros [= <-]. cbn. repeat split; (lia || naive_solver lia).
  - unfold decrypt_work_done. destruct (ri_running s); [done|]. intros [= <-]. cbn.
    destruct (Z.eqb_spec (ri_wait_cnt s - 1) 0); repeat split; (lia || naive_solver lia).
  - unfold read_iocb_error. destruct (ri_running s); [done|]. intros [= <-]. cbn. repeat split; (lia || naive_solver lia).
  - unfold do_read_end. destruct (ri_runs s) eqn:Hr; [|done]. destruct (ri_ended s); [done|].
    destruct (Z.eqb_spec (ri_wait_cnt s) 0); [|destruct (ri_complete s); [done|]]; intros [= <-]; cbn; repeat split; (lia || naive_solver lia).
Qed.

(** A read whose blocks form at most one run ends only when its pages are
    filled; after an error of the device it does not end at all. *)
Theorem read_one_run_ends_filled runs s : (runs <= 1)%nat -> rtc read_step (read_io_init runs) s ->
  ri_ended s = true -> ri_running s = 0%nat /\ ri_failed s = 0%nat.
Proof.
  intros Hruns Hrtc. assert (one_run (read_io_init runs)) as Hinit by (unfold one_run; cbn; repeat split; (lia || done)).
  assert (one_run s) as (_ & _ & _ & He).
  { induction Hrtc as [s|s s1 s' Hstep _ IH]; [done|]. apply IH. by eapply one_run_step. }
  intros Hend. by destruct (He Hend) as (_ & ? & ?).
Qed.

(** C31. A read of two runs can end while the pages of one are not filled: the
    count reaches 0, and completes the wait, when the first run is done before
    the second is issued. *)
Theorem read_two_runs_may_end_early : exists s, rtc read_step (read_io_init 2) s /\ ri_ended s = true /\ ri_running s = 1%nat.
Proof.
  eexists. split; [|split; [|]]; cycle 1.
  - instantiate (1 := {| ri_runs := 0; ri_running := 1; ri_failed := 0; ri_wait_cnt := 1; ri_complete := 0; ri_ended := true |}). done.
  - done.
  - eapply rtc_l; [by apply read_issue|]. eapply rtc_l; [by apply read_filled|]. eapply rtc_l; [by apply read_issue|].
    eapply rtc_l; [by apply read_end|]. done.
Qed.

(** ** Splitting requests: [dm_jindisk_target_map]

    A request of more than [MAX_NR_FETCH] blocks is accepted in part; the device
    mapper then submits the rest as a request of its own. *)
Definition MAX_NR_FETCH : Z := 64.

Inductive map_result : Type := DM_MAPIO_SUBMITTED | DM_MAPIO_REMAPPED.

Definition with_extent (b : bio) (sector size : Z) (blocks : list (list Z)) : bio :=
  {| bio_op := bio_op b; bi_sector := sector; bi_size := size; bi_blocks := blocks |}.

Definition dm_target_offset (begin sector : Z) : Z := u64 (sector - begin).

Definition jindisk_map_bio (begin : Z) (b : bio) : bio :=
  if negb (begin =? 0) then with_extent b (dm_target_offset begin (bi_sector b)) (bi_size b) (bi_blocks b) else b.

(** [dm_accept_partial_bio(bio, n)]: the first [n] sectors. *)
Definition dm_accept_partial_bio (b : bio) (n : Z) : bio :=
  with_extent b (bi_sector b) (n * SECTOR_SIZE) (take (Z.to_nat (n / SECTORS_PER_BLOCK)) (bi_blocks b)).

(** The request accepted and what becomes of it; the flush of [REQ_OP_FLUSH] is
    run before it is passed on. *)
Definition dm_jindisk_target_map (begin : Z) (b : bio) : bio * map_result :=
  let b := jindisk_map_bio begin b in
  let b := if MAX_NR_FETCH * DATA_BLOCK_SIZE <? bi_size b then dm_accept_partial_bio b (MAX_NR_FETCH * SECTORS_PER_BLOCK) else b in
  match bio_op b with
  | REQ_OP_READ | REQ_OP_WRITE => (b, DM_MAPIO_SUBMITTED)
  | _ => (b, DM_MAPIO_REMAPPED)
  end.

(** The device mapper: what was not accepted is mapped again. *)
Fixpoint dm_submit (fuel : nat) (begin : Z) (b : bio) : option (list bio) :=
  match fuel with
  | O => None
  | S fuel =>
      let '(piece, _) := dm_jindisk_target_map begin b in
      let size := bi_size piece in
      if size <? bi_size b then
        let rest := with_extent b (bi_sector b + size / SECTOR_SIZE) (bi_size b - size) (drop (Z.to_nat (size / DATA_BLOCK_SIZE)) (bi_blocks b)) in
        option_map (cons piece) (dm_submit fuel begin rest)
      else Some [piece]
  end.

(** The pieces follow one another from sector [start] on and make up [size]
    bytes; none is longer than [MAX_NR_FETCH] blocks. *)
Fixpoint covers (start size : Z) (pieces : list bio) : Prop :=
  match pieces with
  | [] => size = 0
  | p :: pieces =>
      bi_sector p = start /\ 0 < bi_size p <= MAX_NR_FETCH * DATA_BLOCK_SIZE /\
      covers (start + bi_size p / SECTOR_SIZE) (size - bi_size p) pieces
  end.

Lemma target_map_piece begin b : 0 <= begin <= bi_sector b -> bi_sector b < 2 ^ 64 ->
  let p := (dm_jindisk_target_map begin b).1 in
  bio_op p = bio_op b /\ bi_sector p = bi_sector b - begin /\
  bi_size p = Z.min (bi_size b) (MAX_NR_FETCH * DATA_BLOCK_SIZE) /\
  bi_blocks p = (if MAX_NR_FETCH * DATA_BLOCK_SIZE <? bi_size b then take (Z.to_nat MAX_NR_FETCH) (bi_blocks b) else bi_blocks b).
Proof.
  intros Hb Hs p. subst p. unfold dm_jindisk_target_map.
  assert (bio_op (jindisk_map_bio begin b) = bio_op b /\ bi_sector (jindisk_map_bio begin b) = bi_sector b - begin /\
    bi_size (jindisk_map_bio begin b) = bi_size b /\ bi_blocks (jindisk_map_bio begin b) = bi_blocks b) as (Ho & Hsec & Hsz & Hbl).
  { unfold jindisk_map_bio. destruct (Z.eqb_spec begin 0) as [->|]; cbn; [by rewrite Z.sub_0_r|].
    unfold dm_target_offset. by rewrite u64_small by lia. }
  rewrite <- Ho, <- Hsec, <- Hsz, <- Hbl. set (m := jindisk_map_bio begin b) in *. rewrite Hsz.
  destruct (Z.ltb_spec (MAX_NR_FETCH * DATA_BLOCK_SIZE) (bi_size b)).
  - cbn [dm_accept_partial_bio bio_op with_extent]. destruct (bio_op m) eqn:Hm; cbn [fst dm_accept_partial_bio with_extent bio_op bi_sector bi_size bi_blocks]; rewrite ?Hm;
      (split; [done|split; [done|split; [rewrite Z.min_r by lia; reflexivity|reflexivity]]]).
  - rewrite Z.min_l by lia. destruct (bio_op m) eqn:Hm; cbn [fst]; rewrite ?Hm; done.
Qed.

(** A request of any size reaches the queue whole: the device mapper and the
    target split it, in at most one round per 64 blocks, into requests of at most
    64 blocks that follow one another from its first sector (counted from the
    begin of the target) on, and whose blocks together are those of the
    request. *)
Theorem target_map_covers begin b : 0 <= begin <= bi_sector b -> bi_sector b + bi_size b / SECTOR_SIZE < 2 ^ 64 ->
  0 < bi_size b -> bi_size b = DATA_BLOCK_SIZE * Z.of_nat (length (bi_blocks b)) ->
  exists pieces, dm_submit (S (Z.to_nat (bi_size b / (MAX_NR_FETCH * DATA_BLOCK_SIZE)))) begin b = Some pieces /\
    covers (bi_sector b - begin) (bi_size b) pieces /\ concat (bi_blocks <$> pieces) = bi_blocks b /\
    Forall (fun p => bio_op p = bio_op b) pieces.
Proof.
  intros Hb Hs Hpos Hlen. assert (MAX_NR_FETCH * DATA_BLOCK_SIZE = 262144) as HM by done. rewrite HM.
  assert (forall n b, 0 <= begin <= bi_sector b -> bi_sector b + bi_size b / SECTOR_SIZE < 2 ^ 64 -> 0 < bi_size b ->
    bi_size b = DATA_BLOCK_SIZE * Z.of_nat (length (bi_blocks b)) -> bi_size b / 262144 < Z.of_nat n ->
    exists pieces, dm_submit n begin b = Some pieces /\ covers (bi_sector b - begin) (bi_size b) pieces /\
      concat (bi_blocks <$> pieces) = bi_blocks b /\ Forall (fun p => bio_op p = bio_op b) pieces) as Hall.
  2: { apply Hall; try done. pose proof (Z.div_pos (bi_size b) 262144 ltac:(lia) ltac:(lia)). lia. }
  clear b Hb Hs Hpos Hlen. induction n as [|n IH]; intros b Hb Hs Hpos Hlen Hn.
  { pose proof (Z.div_pos (bi_size b) 262144 ltac:(lia) ltac:(lia)). lia. }
  assert (bi_sector b < 2 ^ 64) as Hsb.
  { unfold SECTOR_SIZE in Hs. pose proof (Z.div_pos (bi_size b) 512 ltac:(lia) ltac:(lia)). lia. }
  pose proof (target_map_piece begin b Hb Hsb) as Hp. cbv zeta in Hp. cbn [dm_submit].
  destruct (dm_jindisk_target_map begin b) as [p res]. cbn [fst] in Hp. destruct Hp as (Hop & Hsec & Hsz & Hbl).
  rewrite HM in Hsz, Hbl. unfold SECTOR_SIZE in *. change DATA_BLOCK_SIZE with 4096 in Hlen, IH. change DATA_BLOCK_SIZE with 4096.
  destruct (Z.ltb_spec 262144 (bi_size b)) as [Hlt|Hge].
  - assert (bi_size p = 262144) as Hsp by lia. rewrite Hsp. destruct (Z.ltb_spec 262144 (bi_size b)); [|lia].
    change (262144 / 512) with 512. change (Z.to_nat (262144 / 4096)) with 64%nat.
    set (rest := with_extent b (bi_sector b + 512) (bi_size b - 262144) (drop 64 (bi_blocks b))).
    destruct (IH rest) as (pieces & Hrun & Hcov & Hcat & Hops); cbn [rest with_extent bi_sector bi_size bi_blocks].
    + lia.
    + revert Hs. clear. intros Hs. replace (bi_size b) with ((bi_size b - 262144) + 512 * 512) in Hs by lia.
      rewrite Z.div_add in Hs by lia. lia.
    + lia.
    + rewrite length_drop. lia.
    + replace (bi_size b) with ((bi_size b - 262144) + 1 * 262144) in Hn by lia. rewrite Z.div_add in Hn by lia. lia.
    + exists (p :: pieces). rewrite Hrun. split; [done|]. cbn [covers fmap list_fmap concat]. rewrite Hsp, HM.
      cbn [rest with_extent bi_sector bi_size bi_blocks bio_op] in Hcov, Hcat, Hops.
      unfold SECTOR_SIZE. change (262144 / 512) with 512. replace (bi_sector b + 512 - begin) with (bi_sector b - begin + 512) in Hcov by lia.
      split; [split; [done|split; [lia|done]]|]. split; [|by constructor].
      rewrite Hcat, Hbl. change (Z.to_nat MAX_NR_FETCH) with 64%nat. apply take_drop.
  - assert (bi_size p = bi_size b) as Hsp by lia. rewrite Hsp, Z.ltb_irrefl. exists [p]. split; [done|].
    cbn [covers fmap list_fmap concat]. rewrite app_nil_r, Hsp, HM.
    split; [split; [done|split; lia]|]. split; [done|]. by constructor.
Qed.

(** ** Concrete runs *)

(** A device as a map from first sectors to what was written there. *)
#[export] Instance map_target : TargetOps (gmap Z (list (list Z))) (option (list (list Z))) := {|
  do_write d b := <[bi_sector b := bi_blocks b]> d;
  do_read d b := (d, d !! bi_sector b)
|}.

#[export] Instance map_target_spec : TargetSpec (gmap Z (list (list Z))).
Proof.
  refine {| view d := d; apply_write v b := <[bi_sector b := bi_blocks b]> v; answer v b := v !! bi_sector b |}; done.
Defined.

Definition example_write : bio := {| bio_op := REQ_OP_WRITE; bi_sector := 8; bi_size := 4096; bi_blocks := [[70]] |}.
Definition example_read : bio := {| bio_op := REQ_OP_READ; bi_sector := 8; bi_size := 4096; bi_blocks := [] |}.

Definition example_submitted : dm_state (D := gmap Z (list (list Z))) (R := option (list (list Z))) :=
  defer_bio (defer_bio (defer_bio (dm_init ∅) example_read) example_write) example_read.

Definition example_started := default example_submitted (process_start example_submitted).
Definition example_next s := default s (process_next (D := gmap Z (list (list Z))) (R := option (list (list Z))) s false).
Definition example_reading := example_next (example_next (example_next (example_next example_started))).
Definition example_answered := default example_reading (async_read example_reading 1).

(** The first read is still running, the second has seen the write. *)
Example example_answered_done : ds_done example_answered = [(1%nat, None); (2%nat, Some (Some [[70]]))].
Proof. vm_compute. reflexivity. Qed.

Lemma example_next_reachable s : is_Some (process_next s false) -> reachable ∅ s -> reachable ∅ (example_next s).
Proof. intros [s' Hs] Hr. unfold example_next. rewrite Hs. by eapply reachable_serve; [|eapply serve_next]. Qed.

Lemma example_answered_reachable : reachable ∅ example_answered.
Proof.
  assert (reachable ∅ example_submitted) as Hs.
  { unfold example_submitted. do 3 (apply reachable_submit; [|done]). apply reachable_init. }
  apply (reachable_serve _ example_reading); [|by apply (serve_read _ 1)].
  unfold example_reading. do 4 (apply example_next_reachable; [by eexists|]).
  apply (reachable_serve _ example_submitted); [exact Hs|]. by apply serve_start.
Qed.



Lemma read_one_run_ends_filled_witness :
  ri_running {| ri_runs := 0; ri_running := 0; ri_failed := 0; ri_wait_cnt := 0; ri_complete := 0; ri_ended := true |} = 0%nat.
Proof.
  refine (proj1 (read_one_run_ends_filled 1 {| ri_runs := 0; ri_running := 0; ri_failed := 0; ri_wait_cnt := 0; ri_complete := 1; ri_ended := true |} _ _ _)).
  - lia.
  - eapply rtc_l; [by apply read_issue|]. eapply rtc_l; [by apply read_filled|]. eapply rtc_l; [by apply read_end|]. done.
  - done.
Defined.

Definition example_large : bio :=
  {| bio_op := REQ_OP_WRITE; bi_sector := 800; bi_size := 4096 * 65; bi_blocks := replicate 64 [1] ++ [[2]] |}.

Lemma target_map_covers_witness :
  exists pieces, dm_submit (S (Z.to_nat (bi_size example_large / (MAX_NR_FETCH * DATA_BLOCK_SIZE)))) 80 example_large = Some pieces /\
    covers (bi_sector example_large - 80) (bi_size example_large) pieces /\ concat (bi_blocks <$> pieces) = bi_blocks example_large /\
    Forall (fun p => bio_op p = bio_op example_large) pieces.
Proof. refine (target_map_covers 80 example_large _ _ _ _); cbn; (lia || done). Defined.
