(* ===== verification/Target.v ===== *)
(** * Target: construction, destruction and control ([dm-jindisk.c])

    The target keeps one object in the global variable [jindisk]; the constructor
    builds it part by part and the destructor takes it apart. The ioctl interface
    of the module looks at the same variable. *)
From S2P Require Import Prelude Layout.

(** ** Acquiring parts in order *)

Section acquire.
Context {P : Type} `{EqDecision P}.

(** The parts created before the first failure, and whether all were. *)
Fixpoint acquire (create : P -> bool) (parts : list P) : list P * bool :=
  match parts with
  | [] => ([], true)
  | p :: parts =>
      if create p then let '(held, ok) := acquire create parts in (p :: held, ok)
      else ([], false)
  end.

Lemma acquire_prefix create parts : (acquire create parts).1 `prefix_of` parts.
Proof.
  induction parts as [|p parts IH]; [done|]. cbn [acquire]. destruct (create p); [|apply prefix_nil].
  destruct (acquire create parts) as [held ok]. by apply prefix_cons.
Qed.

Lemma acquire_all create parts : (acquire create parts).2 = true -> (acquire create parts).1 = parts /\ Forall (fun p => create p = true) parts.
Proof.
  induction parts as [|p parts IH]; [done|]. cbn [acquire]. destruct (create p) eqn:Hp; [|done].
  destruct (acquire create parts) as [held ok]. cbn in *. intros Hok. destruct (IH Hok) as [-> Hf]. by split; [|constructor].
Qed.

Lemma acquire_nodup create parts : NoDup parts -> NoDup (acquire create parts).1.
Proof.
  intros Hn. destruct (acquire_prefix create parts) as [k Hk]. rewrite Hk in Hn. by apply NoDup_app in Hn as [Hn _].
Qed.

(** The parts released by tests of the form [if (this->p) destroy(this->p)]. *)
Definition release_held (held order : list P) : list P := filter (fun p => p ∈ held) order.

Lemma release_held_perm held order : NoDup held -> NoDup order -> (forall p, p ∈ held -> p ∈ order) -> release_held held order ≡ₚ held.
Proof.
  intros Hh Ho Hin. apply NoDup_Permutation; [by apply NoDup_filter|done|]. intros p. unfold release_held. rewrite list_elem_of_filter. specialize (Hin p). tauto.
Qed.
End acquire.

(** ** The metadata object: [metadata_create] of [metadata.c] *)

Inductive meta_part : Type := PBufio | PSuperblock | PJournal | PSegValidator | PRit | PDst | PBitCatalogue.

#[export] Instance meta_part_eq_dec : EqDecision meta_part.
Proof. solve_decision. Defined.

(** [metadata_init] creates them in this order, [metadata_destroy] destroys those
    that exist in the other one. *)
Definition meta_parts : list meta_part := [PBufio; PSuperblock; PJournal; PSegValidator; PRit; PDst; PBitCatalogue].
Definition meta_destroy_order : list meta_part := [PJournal; PBufio; PSuperblock; PSegValidator; PRit; PDst; PBitCatalogue].

Definition metadata_destroy (held : list meta_part) : list meta_part := release_held held meta_destroy_order.

(** The parts that exist, those destroyed, and the result; [format] is what
    formatting the tables returns. *)
Definition metadata_init (create : meta_part -> bool) (action_flag format : Z) : list meta_part * list meta_part * result unit :=
  let should_format := action_flag =? 1 in
  let '(held, ok) := acquire create meta_parts in
  if ok && (negb should_format || (format =? 0)) then (held, [], Ok tt)
  else ([], metadata_destroy held, Err EAGAIN).

Definition metadata_create (create : meta_part -> bool) (action_flag format : Z) : option (list meta_part) * list meta_part :=
  match metadata_init create action_flag format with
  | (held, released, Ok _) => (Some held, released)
  | (_, released, Err _) => (None, released)
  end.

Lemma meta_parts_nodup : NoDup meta_parts /\ NoDup meta_destroy_order.
Proof. split; apply (bool_decide_unpack _); by vm_compute. Qed.

(** The metadata is created whole or not at all: on failure what had been created
    is destroyed, each part once. *)
Lemma metadata_create_all_or_nothing create action_flag format :
  match metadata_create create action_flag format with
  | (Some held, released) => held = meta_parts /\ released = [] /\ Forall (fun p => create p = true) meta_parts /\ (action_flag = 1 -> format = 0)
  | (None, released) => released ≡ₚ (acquire create meta_parts).1 /\
      ((exists p, create p = false) \/ (action_flag = 1 /\ format <> 0))
  end.
Proof.
  unfold metadata_create, metadata_init. destruct (acquire create meta_parts) as [held ok] eqn:Hacq.
  destruct (ok && (negb (action_flag =? 1) || (format =? 0))) eqn:Hok.
  - apply andb_true_iff in Hok as [-> Hf]. pose proof (acquire_all create meta_parts) as Hall. rewrite Hacq in Hall. cbn in Hall.
    destruct (Hall eq_refl) as [-> Hc]. do 3 (split; [done|]). intros ->. cbn in Hf. by apply Z.eqb_eq.
  - split.
    + apply release_held_perm; [|apply meta_parts_nodup|intros p _; unfold meta_destroy_order; destruct p; set_solver].
      pose proof (acquire_nodup create meta_parts (proj1 meta_parts_nodup)) as Hn. by rewrite Hacq in Hn.
    + destruct ok.
      * right. cbn in Hok. apply orb_false_iff in Hok as [H1 H2]. apply negb_false_iff, Z.eqb_eq in H1. apply Z.eqb_neq in H2. done.
      * left. assert (forall parts, (acquire create parts).2 = false -> exists p, create p = false) as Hex.
        { clear. induction parts as [|p parts IH]; [done|]. cbn [acquire]. destruct (create p) eqn:Hp; [|by exists p].
          destruct (acquire create parts) as [h o]. cbn in *. by apply IH. }
        apply (Hex meta_parts). by rewrite Hacq.
Qed.

(** ** The object of the target *)

(** Numbers, because [ret] is not always assigned. *)
Definition EINVAL_ : Z := -22.
Definition ENOMEM_ : Z := -12.
Definition EAGAIN_ : Z := -11.

Inductive target_part : Type := TIoClient | TCipher | TMeta | TLsmTree | TSegAllocator | TSegBuffer.

#[export] Instance target_part_eq_dec : EqDecision target_part.
Proof. solve_decision. Defined.

Definition target_parts : list target_part := [TIoClient; TCipher; TMeta; TLsmTree; TSegAllocator; TSegBuffer].
Definition target_destroy_order : list target_part := [TSegBuffer; TSegAllocator; TLsmTree; TMeta; TCipher; TIoClient].

(** The arguments [metadata_create] is called with. *)
Record meta_args : Type := MetaArgs { ma_key : list Z; ma_iv : list Z; ma_action_flag : Z }.

(** [struct dm_jindisk]: which of its pointers are set. *)
Record dm_jindisk : Type := DmJindisk { dj_raw_dev : option (list Z); dj_held : list target_part; dj_meta_args : option meta_args }.

Inductive release : Type := Destroyed (p : target_part) | PutDevice (d : option (list Z)) | Freed.

(** What [dm_jindisk_destroy] releases, in order. *)
Definition dm_jindisk_releases (o : dm_jindisk) : list release :=
  (Destroyed <$> release_held (dj_held o) target_destroy_order) ++ [PutDevice (dj_raw_dev o); Freed].

(** The variable [jindisk], the objects that are allocated, and what has been
    released of which object. *)
Record module_state : Type := ModuleState {
  ms_jindisk : option nat;
  ms_objects : gmap nat dm_jindisk;
  ms_released : list (nat * release)
}.

Definition module_init_state : module_state := {| ms_jindisk := None; ms_objects := ∅; ms_released := [] |}.

Definition set_object (ms : module_state) (a : nat) (o : dm_jindisk) : module_state :=
  {| ms_jindisk := Some a; ms_objects := <[a := o]> (ms_objects ms); ms_released := ms_released ms |}.

(** [dm_jindisk_destroy(ti, sd)]; [None] when [sd] is [NULL] or has been freed. *)
Definition dm_jindisk_destroy (ms : module_state) (sd : option nat) : option module_state :=
  match sd with
  | None => None
  | Some a =>
      match ms_objects ms !! a with
      | None => None
      | Some o => Some {| ms_jindisk := ms_jindisk ms; ms_objects := delete a (ms_objects ms);
                          ms_released := ms_released ms ++ (pair a <$> dm_jindisk_releases o) |}
      end
  end.

(** ** The constructor *)

(** [hex2bin] and [kstrtoul] of the kernel. *)
Class KernelParse : Type := {
  hex2bin : list Z -> nat -> option (list Z);
  kstrtoul : list Z -> option Z
}.

(** What the kernel decides: the address of a new object, the size in sectors of
    the device that a path leads to, the parts whose creation succeeds, and the
    initial value of [ret]. *)
Record ctr_env : Type := CtrEnv {
  ce_address : option nat;
  ce_devsize : list Z -> option Z;
  ce_create : target_part -> bool;
  ce_ret : Z
}.

Section constructor.
Context `{KernelParse}.

(** The label [bad]: the object of the global variable is destroyed. *)
Definition ctr_bad (ms : module_state) (ret : Z) : option (module_state * option nat * Z) :=
  match dm_jindisk_destroy ms (ms_jindisk ms) with
  | None => None
  | Some ms => Some (ms, None, ret)
  end.

(** The state, [target->private] if it is assigned, and [ret]. *)
Definition dm_jindisk_target_ctr (env : ctr_env) (target_len : Z) (argv : list (list Z)) (ms : module_state)
  : option (module_state * option nat * Z) :=
  match argv with
  | [arg_key; arg_iv; path; flag] =>
      match ce_address env with
      | None => ctr_bad {| ms_jindisk := None; ms_objects := ms_objects ms; ms_released := ms_released ms |} ENOMEM_
      | Some a =>
          let ms0 := set_object ms a {| dj_raw_dev := None; dj_held := []; dj_meta_args := None |} in
          match hex2bin arg_key (Z.to_nat AES_GCM_KEY_SIZE) with
          | None => ctr_bad ms0 EINVAL_
          | Some root_key =>
              match hex2bin arg_iv (Z.to_nat AES_GCM_IV_SIZE) with
              | None => ctr_bad ms0 EINVAL_
              | Some root_iv =>
                  match ce_devsize env path with
                  | None => ctr_bad ms0 (ce_ret env)
                  | Some devsize =>
                      let ms1 := set_object ms a {| dj_raw_dev := Some path; dj_held := []; dj_meta_args := None |} in
                      match kstrtoul flag with
                      | None => ctr_bad ms1 (ce_ret env)
                      | Some action_flag =>
                          if negb (ctr_admits target_len devsize) then ctr_bad ms1 EAGAIN_
                          else
                            let '(held, ok) := acquire (ce_create env) target_parts in
                            let args := {| ma_key := root_key; ma_iv := root_iv; ma_action_flag := action_flag |} in
                            let o := {| dj_raw_dev := Some path; dj_held := held;
                                        dj_meta_args := if ce_create env TIoClient && ce_create env TCipher then Some args else None |} in
                            if ok then Some (set_object ms a o, Some a, 0) else ctr_bad (set_object ms a o) EAGAIN_
                      end
                  end
              end
          end
      end
  | _ => ctr_bad ms EINVAL_
  end.

(** The destructor is given [target->private]; the global variable stays. *)
Definition dm_jindisk_target_dtr (ms : module_state) (private : option nat) : option module_state := dm_jindisk_destroy ms private.

(** ** What the constructor leaves *)

(** The parts of an object that was being built: those created, in order, and
    the reference to the device. *)
Definition built_parts (o : dm_jindisk) : list release := (Destroyed <$> dj_held o) ++ [PutDevice (dj_raw_dev o); Freed].

Lemma target_parts_nodup : NoDup target_parts /\ NoDup target_destroy_order.
Proof. split; apply (bool_decide_unpack _); by vm_compute. Qed.

Lemma releases_built o : NoDup (dj_held o) -> dm_jindisk_releases o ≡ₚ built_parts o.
Proof.
  intros Hn. unfold dm_jindisk_releases, built_parts. f_equiv. apply fmap_Permutation, release_held_perm; [done|apply target_parts_nodup|].
  intros p _. unfold target_destroy_order. destruct p; set_solver.
Qed.

(** The outcome of a constructor that was given an address: success with a whole
    object, or failure with everything that was acquired released once. *)
Definition ctr_outcome (env : ctr_env) (a : nat) (argv : list (list Z)) (ms ms' : module_state) (private : option nat) (ret : Z) : Prop :=
  match private with
  | Some b => b = a /\ ret = 0 /\ ms_released ms' = ms_released ms /\
      exists key iv path flag args, argv = [key; iv; path; flag] /\
        hex2bin key 16 = Some (ma_key args) /\ hex2bin iv 12 = Some (ma_iv args) /\ kstrtoul flag = Some (ma_action_flag args) /\
        ms_objects ms' = <[a := {| dj_raw_dev := Some path; dj_held := target_parts; dj_meta_args := Some args |}]> (ms_objects ms)
  | None => ms_objects ms' = delete a (ms_objects ms) /\
      exists held raw released, ms_released ms' = ms_released ms ++ (pair a <$> released) /\
        released ≡ₚ (Destroyed <$> held) ++ [PutDevice raw; Freed] /\ held `prefix_of` target_parts /\
        Forall (fun p => ce_create env p = true) held
  end.

Lemma ctr_bad_outcome env a argv ms o ret : NoDup (dj_held o) -> dj_held o `prefix_of` target_parts ->
  Forall (fun p => ce_create env p = true) (dj_held o) ->
  exists ms' , ctr_bad (set_object ms a o) ret = Some (ms', None, ret) /\ ctr_outcome env a argv ms ms' None ret.
Proof.
  intros Hn Hp Hc. unfold ctr_bad, dm_jindisk_destroy. cbn [set_object ms_jindisk ms_objects ms_released]. rewrite lookup_insert_eq.
  eexists. split; [done|]. split; [cbn [ms_objects]; by rewrite delete_insert_eq|].
  exists (dj_held o), (dj_raw_dev o), (dm_jindisk_releases o). cbn [ms_released]. split; [done|]. split; [by apply releases_built|done].
Qed.

Lemma acquire_created create (parts : list target_part) : Forall (fun p => create p = true) (acquire create parts).1.
Proof.
  induction parts as [|p parts IH]; [constructor|]. cbn [acquire]. destruct (create p) eqn:Hp; [|constructor].
  destruct (acquire create parts) as [held ok]. by constructor.
Qed.

(** C35. With four arguments and memory for the object the constructor does not
    crash and builds a whole target or none: either it returns 0 with an object
    that has every part, whose metadata was opened with the decoded key, iv and
    action flag, and that becomes the private pointer of the target; or no object
    is left, and what had been created is released, each part once; no other
    object is touched. *)
Theorem ctr_all_or_nothing env a target_len key iv path flag ms : ce_address env = Some a ->
  exists ms' private ret, dm_jindisk_target_ctr env target_len [key; iv; path; flag] ms = Some (ms', private, ret) /\
    ctr_outcome env a [key; iv; path; flag] ms ms' private ret.
Proof.
  intros Ha. unfold dm_jindisk_target_ctr. rewrite Ha. change (Z.to_nat AES_GCM_KEY_SIZE) with 16%nat. change (Z.to_nat AES_GCM_IV_SIZE) with 12%nat.
  assert (forall raw ret, exists ms' private ret',
    ctr_bad (set_object ms a {| dj_raw_dev := raw; dj_held := []; dj_meta_args := None |}) ret = Some (ms', private, ret') /\
    ctr_outcome env a [key; iv; path; flag] ms ms' private ret') as Hearly.
  { intros raw ret. destruct (ctr_bad_outcome env a [key; iv; path; flag] ms {| dj_raw_dev := raw; dj_held := []; dj_meta_args := None |} ret)
      as (ms' & Hrun & Hout); [constructor|apply prefix_nil|constructor|]. by exists ms', None, ret. }
  destruct (hex2bin key 16) as [root_key|] eqn:Hkey; [|apply Hearly].
  destruct (hex2bin iv 12) as [root_iv|] eqn:Hiv; [|apply Hearly].
  destruct (ce_devsize env path) as [devsize|]; [|apply Hearly].
  destruct (kstrtoul flag) as [action_flag|] eqn:Hflag; [|apply Hearly].
  destruct (negb (ctr_admits target_len devsize)); [apply Hearly|].
  destruct (acquire (ce_create env) target_parts) as [held ok] eqn:Hacq.
  set (args := {| ma_key := root_key; ma_iv := root_iv; ma_action_flag := action_flag |}).
  pose proof (acquire_prefix (ce_create env) target_parts) as Hp. pose proof (acquire_created (ce_create env) target_parts) as Hc.
  pose proof (acquire_nodup (ce_create env) target_parts (proj1 target_parts_nodup)) as Hn.
  pose proof (acquire_all (ce_create env) target_parts) as Hall. rewrite Hacq in Hp, Hc, Hn, Hall. cbn in Hp, Hc, Hn, Hall.
  destruct ok.
  - destruct (Hall eq_refl) as [-> Hcreate]. repeat (apply Forall_cons in Hcreate as [? Hcreate]).
    replace (ce_create env TIoClient) with true by done. replace (ce_create env TCipher) with true by done. cbn [andb].
    eexists _, (Some a), 0. split; [done|]. split; [done|]. split; [done|]. split; [done|].
    by exists key, iv, path, flag, args.
  - match goal with |- context [set_object ms a ?o] => destruct (ctr_bad_outcome env a [key; iv; path; flag] ms o EAGAIN_) as (ms' & Hrun & Hout) end;
      [exact Hn|exact Hp|exact Hc|]. exists ms', None, EAGAIN_. by split.
Qed.

(** A wrong number of arguments is fatal. Before the first target the
    constructor dereferences the null pointer; when a target is live it destroys
    the object of that target, whose destructor then runs into freed memory. *)
Theorem ctr_argument_count env target_len argv ms : length argv <> 4%nat ->
  (ms_jindisk ms = None -> dm_jindisk_target_ctr env target_len argv ms = None) /\
  (forall a o, ms_jindisk ms = Some a -> ms_objects ms !! a = Some o ->
     exists ms', dm_jindisk_target_ctr env target_len argv ms = Some (ms', None, EINVAL_) /\
       ms_objects ms' = delete a (ms_objects ms) /\ dm_jindisk_target_dtr ms' (Some a) = None).
Proof.
  intros Hn. assert (dm_jindisk_target_ctr env target_len argv ms = ctr_bad ms EINVAL_) as ->
    by (destruct argv as [|? [|? [|? [|? [|? ?]]]]]; done).
  unfold ctr_bad, dm_jindisk_destroy. split; [by intros ->|]. intros a o -> ->. eexists. split; [done|]. split; [done|].
  unfold dm_jindisk_target_dtr, dm_jindisk_destroy. cbn [ms_objects]. by rewrite lookup_delete_eq.
Qed.

(** When the device is not found or the flag is no number, [ret] was not
    assigned: the constructor fails with whatever the stack held, and with 0 it
    reports success without a target. *)
Lemma ctr_returns_unassigned env a target_len key iv path flag ms : ce_address env = Some a ->
  is_Some (hex2bin key 16) -> is_Some (hex2bin iv 12) -> ce_devsize env path = None ->
  exists ms', dm_jindisk_target_ctr env target_len [key; iv; path; flag] ms = Some (ms', None, ce_ret env).
Proof.
  intros Ha [k Hk] [v Hv] Hd. unfold dm_jindisk_target_ctr. rewrite Ha. change (Z.to_nat AES_GCM_KEY_SIZE) with 16%nat.
  change (Z.to_nat AES_GCM_IV_SIZE) with 12%nat. rewrite Hk, Hv, Hd. unfold ctr_bad, dm_jindisk_destroy.
  cbn [set_object ms_jindisk ms_objects]. rewrite lookup_insert_eq. by eexists.
Qed.
End constructor.

(** ** Control *)

(** [copy_from_user] and [copy_to_user] return the number of bytes that could
    not be copied, [left_in] and [left_out]; the result and the answer stored. *)
Definition ctl_calc_avail_sectors (left_in left_out real_sectors : Z) : option (Z * option Z) :=
  if negb (left_in =? 0) then Some (left_in, None)
  else
    match calc_avail_sectors real_sectors with
    | None => None
    | Some avail => Some (left_out, if left_out =? 0 then Some avail else None)
    end.

(** [None] when the object of the variable has been freed or has no metadata. *)
Definition ctl_get_measurement (ms : module_state) (left_out : Z) : option Z :=
  match ms_jindisk ms with
  | None => Some EINVAL_
  | Some a =>
      match ms_objects ms !! a with
      | None => None
      | Some o => if bool_decide (TMeta ∈ dj_held o) then Some left_out else None
      end
  end.

Inductive ioctl_command : Type := JINDISK_CALC_AVAIL_SECTORS | JINDISK_GET_MEASUREMENT | JINDISK_OTHER.

Definition dev_jindisk_ioctl (ms : module_state) (cmd : ioctl_command) (left_in left_out real_sectors : Z) : option (Z * option Z) :=
  match cmd with
  | JINDISK_CALC_AVAIL_SECTORS => ctl_calc_avail_sectors left_in left_out real_sectors
  | JINDISK_GET_MEASUREMENT => (fun r => (r, None)) <$> ctl_get_measurement ms left_out
  | JINDISK_OTHER => Some (EINVAL_, None)
  end.

(** After the destructor of the only target, the measurement is read from freed
    memory: the variable still points to it. *)
Lemma measurement_after_dtr ms a o left_out : ms_jindisk ms = Some a -> ms_objects ms !! a = Some o ->
  exists ms', dm_jindisk_target_dtr ms (Some a) = Some ms' /\ ctl_get_measurement ms' left_out = None.
Proof.
  intros Hj Ho. unfold dm_jindisk_target_dtr, dm_jindisk_destroy. rewrite Ho. eexists. split; [done|].
  unfold ctl_get_measurement. cbn [ms_jindisk ms_objects]. by rewrite Hj, lookup_delete_eq.
Qed.

(** The counters of [struct disk_statistics]; [parsed] is what [kstrtouint] makes
    of the text. *)
Definition clear_stats_store (parsed : option Z) (n : Z) (disk_counter : list Z) : Z * list Z :=
  match parsed with
  | None => (EINVAL_, disk_counter)
  | Some v => (n, if 0 <? i32 v then replicate (length disk_counter) 0 else disk_counter)
  end.

(** ** The module *)

Inductive registration : Type := RSysfs | RMisc | RTarget.

#[export] Instance registration_eq_dec : EqDecision registration.
Proof. solve_decision. Defined.

Definition register (r : registration) (l : list registration) : list registration := r :: l.
Definition deregister (r : registration) (l : list registration) : list registration := filter (.≠ r) l.

(** What stays registered, and the result; [err] gives the result of each call. *)
Definition init_dm_jindisk_target (err : registration -> Z) : list registration * Z :=
  let r := err RSysfs in
  if negb (r =? 0) then ([], r)
  else
    let l := register RSysfs [] in
    let r := err RMisc in
    if negb (r =? 0) then (deregister RSysfs l, r)
    else
      let l := register RMisc l in
      let r := err RTarget in
      if negb (r =? 0) then (deregister RSysfs (deregister RMisc l), r)
      else (register RTarget l, 0).

Definition cleanup_dm_jindisk_target (l : list registration) : list registration :=
  deregister RTarget (deregister RMisc (deregister RSysfs l)).

(** The module is registered whole or not at all, and leaves nothing behind. *)
Lemma init_all_or_nothing err :
  let '(l, r) := init_dm_jindisk_target err in
  (r = 0 /\ l = [RTarget; RMisc; RSysfs] /\ cleanup_dm_jindisk_target l = []) \/ (r <> 0 /\ l = [] /\ exists x, err x = r).
Proof.
  unfold init_dm_jindisk_target. destruct (Z.eqb_spec (err RSysfs) 0) as [H1|H1]; cbn [negb]; [|right; by eauto].
  destruct (Z.eqb_spec (err RMisc) 0) as [H2|H2]; cbn [negb]; [|right; by eauto].
  destruct (Z.eqb_spec (err RTarget) 0) as [H3|H3]; cbn [negb]; [|right; by eauto]. by left.
Qed.

(** ** Concrete runs *)

Definition hex_digit_value (c : Z) : option Z :=
  if (48 <=? c) && (c <=? 57) then Some (c - 48)
  else if (97 <=? c) && (c <=? 102) then Some (c - 87)
  else if (65 <=? c) && (c <=? 70) then Some (c - 55)
  else None.

Fixpoint list_hex2bin (s : list Z) (n : nat) : option (list Z) :=
  match n, s with
  | O, _ => Some []
  | S n, h :: l :: s =>
      match hex_digit_value h, hex_digit_value l, list_hex2bin s n with
      | Some h, Some l, Some r => Some (16 * h + l :: r)
      | _, _, _ => None
      end
  | _, _ => None
  end.

Fixpoint list_kstrtoul (acc : Z) (s : list Z) : option Z :=
  match s with
  | [] => Some acc
  | c :: s => if (48 <=? c) && (c <=? 57) then list_kstrtoul (10 * acc + (c - 48)) s else None
  end.

#[export] Instance list_kernel_parse : KernelParse := {
  hex2bin := list_hex2bin;
  kstrtoul s := match s with
                | [] => None
                | _ => match list_kstrtoul 0 s with Some v => if v <? 2 ^ 64 then Some v else None | None => None end
                end
}.

(** A device that is large enough, with the allocator failing to start. *)
Definition example_env (failing : option target_part) : ctr_env :=
  {| ce_address := Some 1%nat; ce_devsize := fun _ => Some 25165824; ce_create := fun p => bool_decide (Some p <> failing); ce_ret := 0 |}.

Lemma ctr_all_or_nothing_witness : exists ms' private ret,
  let argv := [replicate 32 48; replicate 24 102; [47]; [49]] in
  dm_jindisk_target_ctr (example_env (Some TLsmTree)) 21741568 argv module_init_state = Some (ms', private, ret) /\
  ctr_outcome (example_env (Some TLsmTree)) 1 argv module_init_state ms' private ret.
Proof. exact (ctr_all_or_nothing (example_env (Some TLsmTree)) 1 21741568 (replicate 32 48) (replicate 24 102) [47] [49] module_init_state eq_refl). Defined.

Lemma ctr_argument_count_witness :
  let o := {| dj_raw_dev := Some [47]; dj_held := target_parts; dj_meta_args := None |} in
  let ms := set_object module_init_state 1 o in
  let argv := [replicate 32 48] in
  (ms_jindisk ms = None -> dm_jindisk_target_ctr (example_env None) 21741568 argv ms = None) /\
  (forall a o, ms_jindisk ms = Some a -> ms_objects ms !! a = Some o ->
     exists ms', dm_jindisk_target_ctr (example_env None) 21741568 argv ms = Some (ms', None, EINVAL_) /\
       ms_objects ms' = delete a (ms_objects ms) /\ dm_jindisk_target_dtr ms' (Some a) = None).
Proof. intros o ms argv. apply (ctr_argument_count (example_env None) 21741568 argv ms). cbn. lia. Defined.
