(* ===== verification/Lifecycle.v ===== *)
(** * Lifecycle: the allocations of the objects

    The [_create] and [_destroy] functions of [kernel-module/c/src]: what each
    takes from the allocator and gives back. An object is the tree of the
    addresses it owns; the contents of the objects are modelled in the files of
    the components. *)
From S2P Require Import Prelude.

(** ** The allocator *)

(** [hp_next] counts the requests; it is also the address of the next block. *)
Record heap : Type := Heap { hp_next : nat; hp_live : gset nat }.

(** [None]: a block is freed that is not allocated. *)
Definition M (A : Type) : Type := heap -> option (A * heap).
Definition ret {A} (a : A) : M A := fun h => Some (a, h).
Definition bind {A B} (m : M A) (k : A -> M B) : M B := fun h => match m h with Some (a, h) => k a h | None => None end.

Declare Scope heap_scope.
Notation "'let*' x ':=' m 'in' k" := (bind m (fun x => k)) (at level 10, x pattern, m at level 100, k at level 200) : heap_scope.
Open Scope heap_scope.

(** [kfree], [vfree] and the calls that free an object of the kernel. *)
Definition kfree (p : nat) : M unit := fun h =>
  if decide (p ∈ hp_live h) then Some (tt, {| hp_next := hp_next h; hp_live := hp_live h ∖ {[p]} |}) else None.

Fixpoint for_each {A} (f : A -> M unit) (l : list A) : M unit :=
  match l with
  | [] => ret tt
  | x :: l => let* _ := f x in for_each f l
  end.

(** The pointer is tested before. *)
Definition if_set {A} (f : A -> M unit) (o : option A) : M unit := match o with Some x => f x | None => ret tt end.

(** Since [h0] the blocks [l] were allocated and not freed. *)
Record holds (h0 h : heap) (l : list nat) : Prop := {
  hd_below : forall p, p ∈ hp_live h -> (p < hp_next h)%nat;
  hd_fresh : Forall (fun p => p ∉ hp_live h0) l;
  hd_nodup : NoDup l;
  hd_live : hp_live h = list_to_set l ∪ hp_live h0
}.

Definition heap_wf (h : heap) : Prop := forall p, p ∈ hp_live h -> (p < hp_next h)%nat.

Lemma holds_start h : heap_wf h -> holds h h [].
Proof. intros Hwf. split; [done|constructor|constructor|]. cbn [list_to_set]. by rewrite union_empty_l_L. Qed.

Lemma holds_perm h0 h l l' : l ≡ₚ l' -> holds h0 h l -> holds h0 h l'.
Proof. intros Hp [Hb Hf Hn Hl]. split; [done|by rewrite <- Hp|by rewrite <- Hp|]. rewrite Hl. f_equal. by apply list_to_set_perm_L. Qed.

Lemma holds_kfree h0 h p l : holds h0 h (p :: l) -> exists h', kfree p h = Some (tt, h') /\ holds h0 h' l.
Proof.
  intros [Hb Hf Hn Hl]. apply Forall_cons in Hf as [Hp Hf]. apply NoDup_cons in Hn as [Hpl Hn]. rewrite list_to_set_cons in Hl. unfold kfree.
  rewrite decide_True by (rewrite Hl, !elem_of_union, elem_of_singleton; tauto). eexists. split; [done|].
  split; cbn [hp_live hp_next]; [|done|done|].
  - intros q [Hq _]%elem_of_difference. by apply Hb.
  - rewrite Hl. apply set_eq. intros q. rewrite elem_of_difference, !elem_of_union, elem_of_singleton, elem_of_list_to_set.
    split; [tauto|]. intros [Hq|Hq]; (split; [tauto|]); intros ->; contradiction.
Qed.

Lemma holds_for_each {A} (f : A -> M unit) (owned : A -> list nat) (xs : list A) :
  (forall x h0 h l, holds h0 h (owned x ++ l) -> exists h', f x h = Some (tt, h') /\ holds h0 h' l) ->
  forall h0 h l, holds h0 h ((xs ≫= owned) ++ l) -> exists h', for_each f xs h = Some (tt, h') /\ holds h0 h' l.
Proof.
  intros Hf. induction xs as [|x xs IH]; intros h0 h l Hh; [by exists h|]. cbn [mbind list_bind for_each] in *. unfold bind.
  rewrite <- app_assoc in Hh. destruct (Hf x h0 h _ Hh) as (h1 & -> & Hh1). by apply IH.
Qed.

Section requests.

(** Whether a request is granted. *)
Context (granted : nat -> bool).

(** [kmalloc], [kzalloc], [vmalloc] and the calls that allocate an object of the
    kernel. *)
Definition kmalloc : M (option nat) := fun h =>
  let n := hp_next h in
  if granted n then Some (Some n, {| hp_next := S n; hp_live := {[n]} ∪ hp_live h |})
  else Some (None, {| hp_next := S n; hp_live := hp_live h |}).

Lemma holds_kmalloc h0 h l : holds h0 h l -> exists o h', kmalloc h = Some (o, h') /\
  match o with Some p => holds h0 h' (p :: l) | None => holds h0 h' l end.
Proof.
  intros [Hb Hf Hn Hl]. unfold kmalloc. destruct (granted (hp_next h)); eexists _, _; (split; [done|]); split; cbn [hp_next hp_live].
  - intros p [->%elem_of_singleton|Hp%Hb]%elem_of_union; lia.
  - constructor; [|done]. intros Hp. assert (hp_next h ∈ hp_live h) as Hp' by (rewrite Hl; apply elem_of_union; by right). apply Hb in Hp'. lia.
  - constructor; [|done]. intros Hp. assert (hp_next h ∈ hp_live h) as Hp' by (rewrite Hl; apply elem_of_union; left; by apply elem_of_list_to_set).
    apply Hb in Hp'. lia.
  - by rewrite list_to_set_cons, Hl, union_assoc_L.
  - intros p Hp%Hb. lia.
  - done.
  - done.
  - done.
Qed.

(** A constructor gives an object that owns its blocks, or nothing and leaves at
    most [lost] blocks behind; a destructor frees the blocks of the object but
    for [kept]. *)
Definition creates {A} (lost : nat) (owned : A -> list nat) (m : M (option A)) : Prop := forall h0 h l, holds h0 h l ->
  exists o h', m h = Some (o, h') /\
    match o with
    | Some x => holds h0 h' (owned x ++ l)
    | None => exists left, (length left <= lost)%nat /\ holds h0 h' (left ++ l)
    end.

Definition destroys {A} (kept owned : A -> list nat) (d : A -> M unit) : Prop := forall x h0 h l, holds h0 h (owned x ++ l) ->
  exists h', d x h = Some (tt, h') /\ holds h0 h' (kept x ++ l).

Lemma creates_none {A} lost (owned : A -> list nat) h0 h l : holds h0 h l ->
  exists o h', ret (A := option A) None h = Some (o, h') /\
    match o with
    | Some x => holds h0 h' (owned x ++ l)
    | None => exists left, (length left <= lost)%nat /\ holds h0 h' (left ++ l)
    end.
Proof. intros Hh. exists None, h. split; [done|]. exists []. split; [cbn; lia|done]. Qed.

Lemma creates_kmalloc : creates 0 (fun p => [p]) kmalloc.
Proof.
  intros h0 h l Hh. destruct (holds_kmalloc h0 h l Hh) as (o & h' & -> & Ho). exists o, h'. split; [done|].
  destruct o; [done|]. by exists [].
Qed.

(** [this = kmalloc; r = init(this); if (r) return NULL; return this]: the block
    is lost when the rest cannot be had. *)
Definition create_or_lose {A B} (init : M (option A)) (mk : nat -> A -> B) : M (option B) :=
  let* this := kmalloc in
  match this with
  | None => ret None
  | Some this => let* r := init in ret (mk this <$> r)
  end.

(** [bad: kfree(this)] *)
Definition create_or_free {A B} (init : M (option A)) (mk : nat -> A -> B) : M (option B) :=
  let* this := kmalloc in
  match this with
  | None => ret None
  | Some this =>
      let* r := init in
      match r with
      | None => let* _ := kfree this in ret None
      | Some x => ret (Some (mk this x))
      end
  end.

Lemma create_or_lose_ok {A B} lost (owned : A -> list nat) (owned' : B -> list nat) init (mk : nat -> A -> B) :
  creates lost owned init -> (forall p x, owned' (mk p x) ≡ₚ p :: owned x) -> creates (S lost) owned' (create_or_lose init mk).
Proof.
  intros Hinit Hmk h0 h l Hh. unfold create_or_lose, bind. destruct (holds_kmalloc h0 h l Hh) as ([p|] & h1 & -> & Hh1); [|by apply creates_none].
  destruct (Hinit h0 h1 (p :: l) Hh1) as (o & h2 & -> & Ho). eexists _, h2. split; [done|]. destruct o as [x|]; cbn [fmap option_fmap option_map].
  - eapply holds_perm, Ho. rewrite Hmk. cbn. by rewrite Permutation_middle.
  - destruct Ho as (left & Hlen & Ho). exists (left ++ [p]). rewrite length_app. split; [cbn; lia|]. by rewrite <- app_assoc.
Qed.

Lemma create_or_free_ok {A B} lost (owned : A -> list nat) (owned' : B -> list nat) init (mk : nat -> A -> B) :
  creates lost owned init -> (forall p x, owned' (mk p x) ≡ₚ p :: owned x) -> creates lost owned' (create_or_free init mk).
Proof.
  intros Hinit Hmk h0 h l Hh. unfold create_or_free, bind. destruct (holds_kmalloc h0 h l Hh) as ([p|] & h1 & -> & Hh1); [|by apply creates_none].
  destruct (Hinit h0 h1 (p :: l) Hh1) as (o & h2 & -> & Ho). destruct o as [x|].
  - eexists _, h2. split; [done|]. eapply holds_perm, Ho. rewrite Hmk. cbn. by rewrite Permutation_middle.
  - destruct Ho as (left & Hlen & Ho). destruct (holds_kfree h0 h2 p (left ++ l)) as (h3 & -> & Hh3).
    { eapply holds_perm, Ho. by rewrite Permutation_middle. }
    eexists _, h3. split; [done|]. by exists left.
Qed.

End requests.

(** Two parts, one after the other; [undo] is what the error path does with the
    first when the second cannot be had. *)
Definition create_both {A B C} (m : M (option A)) (undo : A -> M unit) (k : M (option B)) (mk : A -> B -> C) : M (option C) :=
  let* a := m in
  match a with
  | None => ret None
  | Some x =>
      let* b := k in
      match b with
      | None => let* _ := undo x in ret None
      | Some y => ret (Some (mk x y))
      end
  end.

Lemma create_both_ok {A B C} lost1 lost2 n (owned1 kept : A -> list nat) (owned2 : B -> list nat) (owned : C -> list nat) m undo k mk :
  creates lost1 owned1 m -> creates lost2 owned2 k -> destroys kept owned1 undo -> (forall x, (length (kept x) <= n)%nat) ->
  (forall x y, owned (mk x y) ≡ₚ owned1 x ++ owned2 y) -> creates (lost1 `max` (lost2 + n)) owned (create_both m undo k mk).
Proof.
  intros Hm Hk Hundo Hn Hmk h0 h l Hh. unfold create_both, bind. destruct (Hm h0 h l Hh) as ([x|] & h1 & -> & Hh1).
  2: { eexists _, h1. split; [done|]. destruct Hh1 as (left & Hlen & Hh1). exists left. split; [lia|done]. }
  destruct (Hk h0 h1 _ Hh1) as ([y|] & h2 & -> & Hh2).
  - eexists _, h2. split; [done|]. eapply holds_perm, Hh2. rewrite Hmk, <- app_assoc, Permutation_app_swap_app. done.
  - destruct Hh2 as (left & Hlen & Hh2). destruct (Hundo x h0 h2 (left ++ l)) as (h3 & -> & Hh3).
    { eapply holds_perm, Hh2. apply Permutation_app_swap_app. }
    eexists _, h3. split; [done|]. exists (kept x ++ left). rewrite length_app. specialize (Hn x). split; [lia|]. by rewrite <- app_assoc.
Qed.

Lemma destroys_nothing {A} (owned : A -> list nat) : destroys owned owned (fun _ => ret tt).
Proof. intros x h0 h l Hh. by exists h. Qed.

Lemma destroys_kfree : destroys (fun _ => []) (fun p => [p]) kfree.
Proof. intros p h0 h l Hh. by apply holds_kfree. Qed.

(** One call of a destructor, with more to come or at the end. *)
Lemma destroy_step {A} (kept owned : A -> list nat) d x (k : unit -> M unit) h0 h l rest kept_after :
  destroys kept owned d -> holds h0 h l -> l ≡ₚ owned x ++ rest ->
  (forall h1, holds h0 h1 (kept x ++ rest) -> exists h', k tt h1 = Some (tt, h') /\ holds h0 h' kept_after) ->
  exists h', (let* u := d x in k u) h = Some (tt, h') /\ holds h0 h' kept_after.
Proof. intros Hd Hh Hp Hk. unfold bind. destruct (Hd x h0 h rest) as (h1 & -> & Hh1); [by eapply holds_perm|by apply Hk]. Qed.

Lemma destroy_last {A} (kept owned : A -> list nat) d x h0 h l rest kept_after :
  destroys kept owned d -> holds h0 h l -> l ≡ₚ owned x ++ rest -> kept x ++ rest ≡ₚ kept_after ->
  exists h', d x h = Some (tt, h') /\ holds h0 h' kept_after.
Proof. intros Hd Hh Hp Hk. destruct (Hd x h0 h rest) as (h1 & -> & Hh1); [by eapply holds_perm|]. exists h1. split; [done|by eapply holds_perm]. Qed.

(** The next call is to a destructor; [rest] is what the call does not get. *)
Ltac destroying d Hh rest :=
  first
    [ eapply (destroy_step _ _ _ _ _ _ _ _ rest _ d Hh); [cbn; solve_Permutation|]; clear Hh; intros ? Hh; cbn [app] in Hh
    | eapply (destroy_last _ _ _ _ _ _ _ rest _ d Hh); [cbn; solve_Permutation|cbn; solve_Permutation] ].

Definition owned_opt {A} (owned : A -> list nat) (o : option A) : list nat := match o with Some x => owned x | None => [] end.

Lemma destroys_if_set {A} (kept owned : A -> list nat) d : destroys kept owned d -> destroys (owned_opt kept) (owned_opt owned) (if_set d).
Proof. intros Hd [x|] h0 h l Hh; [by apply Hd|by exists h]. Qed.

Lemma destroys_if_set_all {A} (owned : A -> list nat) d : destroys (fun _ => []) owned d -> destroys (fun _ => []) (owned_opt owned) (if_set d).
Proof. intros Hd [x|] h0 h l Hh; [by apply Hd|by exists h]. Qed.

Lemma destroys_for_each {A} (owned : A -> list nat) d : destroys (fun _ => []) owned d -> destroys (fun _ => []) (fun l => l ≫= owned) (for_each d).
Proof. intros Hd xs. apply holds_for_each. intros x. apply Hd. Qed.

Section tables.
Context (granted : nat -> bool).
#[local] Abbreviation kmalloc := (kmalloc granted).
#[local] Abbreviation create_or_free := (create_or_free granted).
#[local] Abbreviation create_or_lose := (create_or_lose granted).
#[local] Abbreviation holds_kmalloc := (holds_kmalloc granted).
#[local] Abbreviation create_or_free_ok := (create_or_free_ok granted).
#[local] Abbreviation create_or_lose_ok := (create_or_lose_ok granted).

(** ** The ciphers ([crypto.c]) *)

Record gcm_cipher : Type := GcmCipher { gc_this : nat; gc_tfm : nat }.
Definition gcm_owned (c : gcm_cipher) : list nat := [gc_this c; gc_tfm c].

Definition aes_gcm_cipher_init : M (option nat) := kmalloc.
Definition aes_gcm_cipher_create : M (option gcm_cipher) := create_or_free aes_gcm_cipher_init GcmCipher.
Definition aes_gcm_cipher_destroy (c : gcm_cipher) : M unit := let* _ := kfree (gc_tfm c) in kfree (gc_this c).

Record cbc_cipher : Type := CbcCipher { cb_this : nat; cb_parts : nat * nat }.
Definition cbc_owned (c : cbc_cipher) : list nat := [cb_this c; (cb_parts c).1; (cb_parts c).2].

(** The handle and the request; the error path also frees an error pointer in
    place of the handle, which the kernel ignores. *)
Definition aes_cbc_cipher_init : M (option (nat * nat)) := create_both kmalloc kfree kmalloc pair.
Definition aes_cbc_cipher_create : M (option cbc_cipher) := create_or_free aes_cbc_cipher_init CbcCipher.
Definition aes_cbc_cipher_destroy (c : cbc_cipher) : M unit :=
  let* _ := kfree (cb_parts c).1 in let* _ := kfree (cb_parts c).2 in kfree (cb_this c).

Lemma aes_gcm_cipher_create_ok : creates 0 gcm_owned aes_gcm_cipher_create.
Proof. by apply (create_or_free_ok 0 (fun p => [p])); [apply creates_kmalloc|]. Qed.

Lemma aes_gcm_cipher_destroy_ok : destroys (fun _ => []) gcm_owned aes_gcm_cipher_destroy.
Proof.
  intros c h0 h l Hh. destroying destroys_kfree Hh (gc_this c :: l). destroying destroys_kfree Hh l.
Qed.

Lemma aes_cbc_cipher_create_ok : creates 0 cbc_owned aes_cbc_cipher_create.
Proof.
  apply (create_or_free_ok 0 (fun x => [x.1; x.2])); [|done].
  by apply (create_both_ok 0 0 0 (fun p => [p]) (fun _ => []) (fun p => [p])); [apply creates_kmalloc..|apply destroys_kfree|intros ?; cbn; lia|].
Qed.

Lemma aes_cbc_cipher_destroy_ok : destroys (fun _ => []) cbc_owned aes_cbc_cipher_destroy.
Proof. intros c h0 h l Hh. destroying destroys_kfree Hh (cb_this c :: (cb_parts c).2 :: l). destroying destroys_kfree Hh (cb_this c :: l). destroying destroys_kfree Hh l. Qed.

(** ** Arrays and bit sets on the device ([disk_structs.c]) *)

Record array_obj : Type := ArrayObj { ao_this : nat; ao_skcipher : cbc_cipher }.
Definition array_owned (a : array_obj) : list nat := ao_this a :: cbc_owned (ao_skcipher a).

Definition disk_array_create : M (option array_obj) := create_or_lose aes_cbc_cipher_create ArrayObj.
Definition disk_array_destroy (a : array_obj) : M unit := let* _ := aes_cbc_cipher_destroy (ao_skcipher a) in kfree (ao_this a).

Lemma disk_array_create_ok : creates 1 array_owned disk_array_create.
Proof. by apply (create_or_lose_ok 0 cbc_owned); [apply aes_cbc_cipher_create_ok|]. Qed.

Lemma disk_array_destroy_ok : destroys (fun _ => []) array_owned disk_array_destroy.
Proof. intros a h0 h l Hh. unfold array_owned in Hh. destroying aes_cbc_cipher_destroy_ok Hh (ao_this a :: l). destroying destroys_kfree Hh l. Qed.

Record bitset_obj : Type := BitsetObj { so_this : nat; so_array : array_obj }.
Definition bitset_owned (b : bitset_obj) : list nat := so_this b :: array_owned (so_array b).

Definition disk_bitset_create : M (option bitset_obj) := create_or_lose disk_array_create BitsetObj.
Definition disk_bitset_destroy (b : bitset_obj) : M unit := let* _ := disk_array_destroy (so_array b) in kfree (so_this b).

Lemma disk_bitset_create_ok : creates 2 bitset_owned disk_bitset_create.
Proof. by apply (create_or_lose_ok 1 array_owned); [apply disk_array_create_ok|]. Qed.

Lemma disk_bitset_destroy_ok : destroys (fun _ => []) bitset_owned disk_bitset_destroy.
Proof. intros b h0 h l Hh. unfold bitset_owned in Hh. destroying disk_array_destroy_ok Hh (so_this b :: l). destroying destroys_kfree Hh l. Qed.

(** ** The tables ([metadata.c]) *)

(** [superblock_create]; [valid] is what [superblock_init] finds. *)
Definition superblock_create (valid : bool) : M (option nat) :=
  create_or_lose (ret (if valid then Some tt else None)) (fun this _ => this).
Definition superblock_destroy (this : nat) : M unit := kfree this.

Lemma creates_ret {A} (owned : A -> list nat) o : (forall x, owned x = []) -> creates 0 owned (ret o).
Proof. intros Ho h0 h l Hh. exists o, h. split; [done|]. destruct o as [x|]; [by rewrite Ho|by exists []]. Qed.

Lemma superblock_create_ok valid : creates 1 (fun p => [p]) (superblock_create valid).
Proof. by apply (create_or_lose_ok 0 (fun _ => [])); [apply creates_ret|]. Qed.

Record validator_obj : Type := ValidatorObj { vo_this : nat; vo_table : bitset_obj }.
Definition validator_owned (v : validator_obj) : list nat := vo_this v :: bitset_owned (vo_table v).

Definition seg_validator_create : M (option validator_obj) := create_or_lose disk_bitset_create ValidatorObj.
Definition seg_validator_destroy (v : validator_obj) : M unit := let* _ := disk_bitset_destroy (vo_table v) in kfree (vo_this v).

Lemma seg_validator_create_ok : creates 3 validator_owned seg_validator_create.
Proof. by apply (create_or_lose_ok 2 bitset_owned); [apply disk_bitset_create_ok|]. Qed.

Lemma seg_validator_destroy_ok : destroys (fun _ => []) validator_owned seg_validator_destroy.
Proof. intros v h0 h l Hh. unfold validator_owned in Hh. destroying disk_bitset_destroy_ok Hh (vo_this v :: l). destroying destroys_kfree Hh l. Qed.

Record rit_obj : Type := RitObj { ro_this : nat; ro_array : array_obj }.
Definition rit_owned (t : rit_obj) : list nat := ro_this t :: array_owned (ro_array t).

Definition reverse_index_table_create : M (option rit_obj) := create_or_lose disk_array_create RitObj.
Definition reverse_index_table_destroy (t : rit_obj) : M unit := let* _ := disk_array_destroy (ro_array t) in kfree (ro_this t).

Lemma reverse_index_table_create_ok : creates 2 rit_owned reverse_index_table_create.
Proof. by apply (create_or_lose_ok 1 array_owned); [apply disk_array_create_ok|]. Qed.

Lemma reverse_index_table_destroy_ok : destroys (fun _ => []) rit_owned reverse_index_table_destroy.
Proof. intros t h0 h l Hh. unfold rit_owned in Hh. destroying disk_array_destroy_ok Hh (ro_this t :: l). destroying destroys_kfree Hh l. Qed.

Record catalogue_obj : Type := CatalogueObj { co_this : nat; co_parts : validator_obj * array_obj }.
Definition catalogue_owned (c : catalogue_obj) : list nat := co_this c :: validator_owned (co_parts c).1 ++ array_owned (co_parts c).2.

Definition bit_catalogue_create : M (option catalogue_obj) :=
  create_or_free (create_both seg_validator_create seg_validator_destroy disk_array_create pair) CatalogueObj.
Definition bit_catalogue_destroy (c : catalogue_obj) : M unit :=
  let* _ := seg_validator_destroy (co_parts c).1 in let* _ := disk_array_destroy (co_parts c).2 in kfree (co_this c).

Lemma bit_catalogue_create_ok : creates 3 catalogue_owned bit_catalogue_create.
Proof.
  apply (create_or_free_ok 3 (fun x => validator_owned x.1 ++ array_owned x.2)); [|done].
  by apply (create_both_ok 3 1 0 validator_owned (fun _ => []) array_owned);
    [apply seg_validator_create_ok|apply disk_array_create_ok|apply seg_validator_destroy_ok|intros ?; cbn; lia|].
Qed.

Lemma bit_catalogue_destroy_ok : destroys (fun _ => []) catalogue_owned bit_catalogue_destroy.
Proof.
  intros c h0 h l Hh. unfold catalogue_owned in Hh.
  destroying seg_validator_destroy_ok Hh (co_this c :: array_owned (co_parts c).2 ++ l).
  destroying disk_array_destroy_ok Hh (co_this c :: l). destroying destroys_kfree Hh l.
Qed.

(** *** The data segment table *)

(** The pointers of [struct dst]. *)
Record dst_fields : Type := DstFields { df_array : option array_obj; df_node_list : option nat; df_victims : list nat }.
Record dst_obj : Type := DstObj { to_this : nat; to_fields : dst_fields }.

Definition dst_array_owned (f : dst_fields) : list nat := owned_opt array_owned (df_array f).
Definition fields_owned (f : dst_fields) : list nat := dst_array_owned f ++ owned_opt (fun p => [p]) (df_node_list f) ++ df_victims f.
Definition dst_owned (d : dst_obj) : list nat := to_this d :: fields_owned (to_fields d).

Definition victim_destroy (v : nat) : M unit := kfree v.

(** The victims of [dst_load]; one that cannot be allocated is left out. *)
Fixpoint load_victims (n : nat) : M (list nat) :=
  match n with
  | O => ret []
  | S n =>
      let* v := kmalloc in
      let* vs := load_victims n in
      ret (match v with Some v => v :: vs | None => vs end)
  end.

(** The allocations of [dst_init], for [n] victims; [readable] is the result of
    [dst_load]. The fields and whether it succeeds. *)
Definition dst_init_fields (n : nat) (readable : bool) (f : dst_fields) : M (dst_fields * bool) :=
  let* a := disk_array_create in
  match a with
  | None => ret ({| df_array := None; df_node_list := df_node_list f; df_victims := df_victims f |}, false)
  | Some a =>
      let* node_list := kmalloc in
      match node_list with
      | None => ret ({| df_array := Some a; df_node_list := None; df_victims := df_victims f |}, false)
      | Some p =>
          let* vs := load_victims n in
          ret ({| df_array := Some a; df_node_list := Some p; df_victims := vs |}, readable)
      end
  end.

(** Memory that was not cleared is never looked at. *)
Definition no_fields : dst_fields := {| df_array := None; df_node_list := None; df_victims := [] |}.

Definition dst_create (n : nat) (readable : bool) : M (option dst_obj) :=
  let* this := kmalloc in
  match this with
  | None => ret None
  | Some this =>
      let* fr := dst_init_fields n readable no_fields in
      ret (if fr.2 then Some {| to_this := this; to_fields := fr.1 |} else None)
  end.

(** The array is not destroyed. *)
Definition dst_destroy (d : dst_obj) : M unit :=
  let* _ := for_each victim_destroy (df_victims (to_fields d)) in
  let* _ := if_set kfree (df_node_list (to_fields d)) in
  kfree (to_this d).

(** The allocations of [dst_format], once the array is formatted: the pointers to
    the old array and, until it is assigned, to the old list stay. *)
Definition dst_format_again (n : nat) (readable : bool) (d : dst_obj) : M (dst_obj * bool) :=
  let f := to_fields d in
  let* _ := for_each victim_destroy (df_victims f) in
  let* _ := if_set kfree (df_node_list f) in
  let* fr := dst_init_fields n readable {| df_array := df_array f; df_node_list := df_node_list f; df_victims := [] |} in
  ret ({| to_this := to_this d; to_fields := fr.1 |}, fr.2).

Lemma load_victims_ok n h0 h l : holds h0 h l -> exists vs h', load_victims n h = Some (vs, h') /\ (length vs <= n)%nat /\ holds h0 h' (vs ++ l).
Proof.
  revert h l. induction n as [|n IH]; intros h l Hh; [by exists [], h|]. cbn [load_victims]. unfold bind.
  destruct (holds_kmalloc h0 h l Hh) as (v & h1 & -> & Hh1). destruct v as [v|].
  - destruct (IH h1 _ Hh1) as (vs & h2 & -> & Hlen & Hh2). eexists _, h2. split; [done|]. split; [cbn; lia|]. eapply holds_perm, Hh2. cbn. by rewrite Permutation_middle.
  - destruct (IH h1 _ Hh1) as (vs & h2 & -> & Hlen & Hh2). eexists _, h2. split; [done|]. split; [lia|done].
Qed.

(** On success the fields own what was allocated; otherwise at most [5 + n]
    blocks have been. *)
Lemma dst_init_fields_ok n readable f h0 h l : holds h0 h l -> exists f' r h', dst_init_fields n readable f h = Some ((f', r), h') /\
  if r : bool then (exists a p, df_array f' = Some a /\ df_node_list f' = Some p) /\ holds h0 h' (fields_owned f' ++ l)
  else exists left, (length left <= 5 + n)%nat /\ holds h0 h' (left ++ l).
Proof.
  intros Hh. unfold dst_init_fields, bind. destruct (disk_array_create_ok h0 h l Hh) as ([a|] & h1 & -> & Hh1).
  2: { eexists _, _, h1. split; [done|]. destruct Hh1 as (left & Hlen & Hh1). exists left. split; [lia|done]. }
  destruct (holds_kmalloc h0 h1 _ Hh1) as ([p|] & h2 & -> & Hh2).
  2: { eexists _, _, h2. split; [done|]. exists (array_owned a). split; [cbn; lia|done]. }
  destruct (load_victims_ok n h0 h2 _ Hh2) as (vs & h3 & -> & Hlen & Hh3). eexists _, _, h3. split; [done|]. destruct readable.
  - split; [by eexists _, _|]. eapply holds_perm, Hh3. unfold fields_owned, dst_array_owned. cbn [df_array df_node_list df_victims owned_opt]. solve_Permutation.
  - exists (vs ++ p :: array_owned a). rewrite length_app. split; [cbn; lia|]. by rewrite <- app_assoc.
Qed.

Lemma dst_create_ok n readable : creates (6 + n) dst_owned (dst_create n readable).
Proof.
  intros h0 h l Hh. unfold dst_create, bind. destruct (holds_kmalloc h0 h l Hh) as ([p|] & h1 & -> & Hh1); [|by apply creates_none].
  destruct (dst_init_fields_ok n readable no_fields h0 h1 _ Hh1) as (f & r & h2 & -> & Hr). eexists _, h2. split; [done|]. cbn [fst snd]. destruct r.
  - destruct Hr as [_ Hr]. eapply holds_perm, Hr. unfold dst_owned. cbn [to_this to_fields]. solve_Permutation.
  - destruct Hr as (left & Hlen & Hr). exists (left ++ [p]). rewrite length_app. split; [cbn; lia|]. by rewrite <- app_assoc.
Qed.

Lemma destroys_victims : destroys (fun _ => []) (fun vs => vs) (for_each victim_destroy).
Proof.
  intros vs h0 h l Hh. apply (destroys_for_each (fun p => [p]) victim_destroy destroys_kfree).
  assert ((vs ≫= (fun p => [p])) = vs) as -> by (clear; induction vs as [|v vs IH]; [done|]; cbn; by rewrite IH). done.
Qed.

Lemma destroys_pointer : destroys (fun _ => []) (owned_opt (fun p => [p])) (if_set kfree).
Proof. apply destroys_if_set_all, destroys_kfree. Qed.

Lemma dst_destroy_ok : destroys (fun d => dst_array_owned (to_fields d)) dst_owned dst_destroy.
Proof.
  intros [this f] h0 h l Hh. unfold dst_destroy. unfold dst_owned, fields_owned in Hh. cbn [to_this to_fields] in *.
  destroying destroys_victims Hh (this :: dst_array_owned f ++ owned_opt (fun p => [p]) (df_node_list f) ++ l).
  destroying destroys_pointer Hh (this :: dst_array_owned f ++ l).
  destroying destroys_kfree Hh (dst_array_owned f ++ l).
Qed.

(** A second initialisation that succeeds loses the first array. *)
Lemma dst_format_again_ok n readable d h0 h l : holds h0 h (dst_owned d ++ l) -> exists d' r h', dst_format_again n readable d h = Some ((d', r), h') /\
  (r = true -> holds h0 h' (dst_owned d' ++ dst_array_owned (to_fields d) ++ l)).
Proof.
  destruct d as [this f]. intros Hh. unfold dst_format_again. unfold dst_owned, fields_owned in Hh. cbn [to_this to_fields] in *. unfold bind.
  destruct (destroys_victims (df_victims f) h0 h (this :: dst_array_owned f ++ owned_opt (fun p => [p]) (df_node_list f) ++ l)) as (h1 & -> & Hh1);
    [eapply holds_perm, Hh; solve_Permutation|].
  destruct (destroys_pointer (df_node_list f) h0 h1 (this :: dst_array_owned f ++ l)) as (h2 & -> & Hh2); [eapply holds_perm, Hh1; cbn; solve_Permutation|].
  destruct (dst_init_fields_ok n readable {| df_array := df_array f; df_node_list := df_node_list f; df_victims := [] |} h0 h2 _ Hh2) as (f' & r & h3 & -> & Hr).
  eexists _, _, h3. split; [done|]. cbn [fst snd]. intros ->. destruct Hr as [_ Hr]. eapply holds_perm, Hr. unfold dst_owned. cbn [to_this to_fields]. solve_Permutation.
Qed.

(** ** The journal ([journal.c]) *)

Record journal_obj : Type := JournalObj { jo_this : nat; jo_parts : gcm_cipher * nat }.
Definition journal_owned (j : journal_obj) : list nat := jo_this j :: gcm_owned (jo_parts j).1 ++ [(jo_parts j).2].

(** [ready]: the journal was loaded and recovered. *)
Definition journal_region_create (ready : bool) : M (option journal_obj) :=
  create_or_lose
    (create_both (create_both aes_gcm_cipher_create (fun _ => ret tt) kmalloc pair) (fun _ => ret tt)
       (ret (if ready then Some tt else None)) (fun x _ => x)) JournalObj.
Definition journal_region_free (j : journal_obj) : M unit :=
  let* _ := aes_gcm_cipher_destroy (jo_parts j).1 in let* _ := kfree (jo_parts j).2 in kfree (jo_this j).

Lemma journal_region_create_ok ready : creates 4 journal_owned (journal_region_create ready).
Proof.
  apply (create_or_lose_ok 3 (fun x => gcm_owned x.1 ++ [x.2])); [|done].
  apply (create_both_ok 2 0 3 (fun x => gcm_owned x.1 ++ [x.2]) (fun x => gcm_owned x.1 ++ [x.2]) (fun _ => []));
    [|by apply creates_ret|apply destroys_nothing|intros ?; cbn; lia|intros x []; by rewrite app_nil_r].
  by apply (create_both_ok 0 0 2 gcm_owned gcm_owned (fun p => [p]));
    [apply aes_gcm_cipher_create_ok|apply creates_kmalloc|apply destroys_nothing|intros ?; cbn; lia|].
Qed.

Lemma journal_region_free_ok : destroys (fun _ => []) journal_owned journal_region_free.
Proof.
  intros j h0 h l Hh. unfold journal_owned in Hh. destroying aes_gcm_cipher_destroy_ok Hh (jo_this j :: (jo_parts j).2 :: l).
  destroying destroys_kfree Hh (jo_this j :: l). destroying destroys_kfree Hh l.
Qed.

(** ** The metadata ([metadata.c]) *)

(** What the constructors find on the device. *)
Record media : Type := Media {
  md_superblock_valid : bool; md_journal_ready : bool;
  md_victims : nat; md_dst_readable : bool
}.

(** The results of the steps of [metadata_format]; [None] if the device is not to
    be formatted: the tables before the data segment table, its array, the
    victims and the result of the second load, the table after it. *)
Record formatting : Type := Formatting {
  fo_before : bool; fo_array : bool; fo_victims : nat; fo_readable : bool; fo_after : bool
}.

(** [struct metadata], all null at first. *)
Record metadata_obj : Type := MetadataObj {
  mo_this : nat; mo_bc : option nat; mo_superblock : option nat; mo_journal : option journal_obj;
  mo_validator : option validator_obj; mo_rit : option rit_obj; mo_dst : option dst_obj; mo_catalogue : option catalogue_obj
}.

Definition metadata_owned (m : metadata_obj) : list nat :=
  mo_this m :: owned_opt journal_owned (mo_journal m) ++ owned_opt (fun p => [p]) (mo_bc m) ++ owned_opt (fun p => [p]) (mo_superblock m) ++
  owned_opt validator_owned (mo_validator m) ++ owned_opt rit_owned (mo_rit m) ++ owned_opt dst_owned (mo_dst m) ++
  owned_opt catalogue_owned (mo_catalogue m).

Definition metadata_free (m : metadata_obj) : M unit :=
  let* _ := if_set journal_region_free (mo_journal m) in
  let* _ := if_set kfree (mo_bc m) in
  let* _ := if_set superblock_destroy (mo_superblock m) in
  let* _ := if_set seg_validator_destroy (mo_validator m) in
  let* _ := if_set reverse_index_table_destroy (mo_rit m) in
  let* _ := if_set dst_destroy (mo_dst m) in
  let* _ := if_set bit_catalogue_destroy (mo_catalogue m) in
  kfree (mo_this m).

(** [goto bad] *)
Definition metadata_bad (m : metadata_obj) : M (option metadata_obj) := let* _ := metadata_free m in ret None.

(** The second initialisation of the data segment table is the only step of
    [metadata_format] that allocates. *)
Definition metadata_format_objects (fo : formatting) (m : metadata_obj) (d : dst_obj) : M (option metadata_obj) :=
  if negb (fo_before fo && fo_array fo) then metadata_bad m
  else
    let* dr := dst_format_again (fo_victims fo) (fo_readable fo) d in
    let m := {| mo_this := mo_this m; mo_bc := mo_bc m; mo_superblock := mo_superblock m; mo_journal := mo_journal m;
                mo_validator := mo_validator m; mo_rit := mo_rit m; mo_dst := Some dr.1; mo_catalogue := mo_catalogue m |} in
    if dr.2 && fo_after fo then ret (Some m) else metadata_bad m.

Definition metadata_objects_create (md : media) (fo : option formatting) : M (option metadata_obj) :=
  let* this := kmalloc in
  match this with
  | None => ret None
  | Some this =>
      let* bc := kmalloc in
      let m := MetadataObj this bc None None None None None None in
      match bc with
      | None => metadata_bad m
      | Some _ =>
          let* sb := superblock_create (md_superblock_valid md) in
          let m := MetadataObj this bc sb None None None None None in
          match sb with
          | None => metadata_bad m
          | Some _ =>
              let* jr := journal_region_create (md_journal_ready md) in
              let m := MetadataObj this bc sb jr None None None None in
              match jr with
              | None => metadata_bad m
              | Some _ =>
                  let* sv := seg_validator_create in
                  let m := MetadataObj this bc sb jr sv None None None in
                  match sv with
                  | None => metadata_bad m
                  | Some _ =>
                      let* rit := reverse_index_table_create in
                      let m := MetadataObj this bc sb jr sv rit None None in
                      match rit with
                      | None => metadata_bad m
                      | Some _ =>
                          let* d := dst_create (md_victims md) (md_dst_readable md) in
                          let m := MetadataObj this bc sb jr sv rit d None in
                          match d with
                          | None => metadata_bad m
                          | Some d' =>
                              let* bitc := bit_catalogue_create in
                              let m := MetadataObj this bc sb jr sv rit d bitc in
                              match bitc, fo with
                              | None, _ => metadata_bad m
                              | Some _, None => ret (Some m)
                              | Some _, Some fo => metadata_format_objects fo m d'
                              end
                          end
                      end
                  end
              end
          end
      end
  end.

(** What taking the metadata down leaves allocated. *)
Definition metadata_kept (m : metadata_obj) : list nat := owned_opt (fun d => dst_array_owned (to_fields d)) (mo_dst m).

Lemma metadata_free_ok : destroys metadata_kept metadata_owned metadata_free.
Proof.
  intros [this bc sb jr sv rit d bitc] h0 h l Hh. unfold metadata_free, metadata_kept. unfold metadata_owned in Hh.
  cbn [mo_this mo_bc mo_superblock mo_journal mo_validator mo_rit mo_dst mo_catalogue] in *.
  set (B := owned_opt (fun p => [p]) bc) in *. set (S := owned_opt (fun p => [p]) sb) in *. set (V := owned_opt validator_owned sv) in *.
  set (R := owned_opt rit_owned rit) in *. set (D := owned_opt dst_owned d) in *. set (C := owned_opt catalogue_owned bitc) in *.
  destroying (destroys_if_set_all _ _ journal_region_free_ok) Hh (this :: B ++ S ++ V ++ R ++ D ++ C ++ l).
  destroying destroys_pointer Hh (this :: S ++ V ++ R ++ D ++ C ++ l).
  destroying destroys_pointer Hh (this :: V ++ R ++ D ++ C ++ l).
  destroying (destroys_if_set_all _ _ seg_validator_destroy_ok) Hh (this :: R ++ D ++ C ++ l).
  destroying (destroys_if_set_all _ _ reverse_index_table_destroy_ok) Hh (this :: D ++ C ++ l).
  destroying (destroys_if_set _ _ _ dst_destroy_ok) Hh (this :: C ++ l).
  destroying (destroys_if_set_all _ _ bit_catalogue_destroy_ok) Hh (this :: owned_opt (fun d => dst_array_owned (to_fields d)) d ++ l).
  destroying destroys_kfree Hh (owned_opt (fun d => dst_array_owned (to_fields d)) d ++ l).
Qed.

Lemma metadata_bad_ok m h0 h l left part : holds h0 h part -> part ≡ₚ metadata_owned m ++ left ++ l ->
  exists h', metadata_bad m h = Some (None, h') /\ holds h0 h' ((metadata_kept m ++ left) ++ l).
Proof.
  intros Hh Hp. unfold metadata_bad, bind. destruct (metadata_free_ok m h0 h (left ++ l)) as (h1 & -> & Hh1); [by eapply holds_perm|].
  exists h1. by rewrite <- app_assoc.
Qed.

(** A failing step: the parts that exist are destroyed. *)
Lemma metadata_bad_lost m lost h0 h l left part : holds h0 h part -> part ≡ₚ metadata_owned m ++ left ++ l ->
  (length (metadata_kept m) + length left <= lost)%nat ->
  exists o h', metadata_bad m h = Some (o, h') /\
    match o with
    | Some x => holds h0 h' (metadata_owned x ++ l)
    | None => exists left, (length left <= lost)%nat /\ holds h0 h' (left ++ l)
    end.
Proof.
  intros Hh Hp Hlen. destruct (metadata_bad_ok m h0 h l left part Hh Hp) as (h' & -> & Hh'). eexists _, h'. split; [done|].
  eexists. split; [|exact Hh']. by rewrite length_app.
Qed.

Lemma dst_kept_length d : (length (dst_array_owned d) <= 4)%nat.
Proof. unfold dst_array_owned. destruct (df_array d); cbn; lia. Qed.

Ltac bad_part Hh left := eapply (metadata_bad_lost _ _ _ _ _ left _ Hh); [cbn; solve_Permutation|cbn; lia].

Lemma metadata_objects_create_ok md : creates (7 + md_victims md) metadata_owned (metadata_objects_create md None).
Proof.
  intros h0 h l Hh. unfold metadata_objects_create, bind.
  destruct (holds_kmalloc h0 h l Hh) as ([this|] & h1 & -> & Hh1); [|by apply creates_none].
  destruct (holds_kmalloc h0 h1 _ Hh1) as ([bc|] & h2 & -> & Hh2); [|bad_part Hh2 ([] : list nat)].
  destruct (superblock_create_ok (md_superblock_valid md) h0 h2 _ Hh2) as ([sb|] & h3 & -> & Hh3);
    [|destruct Hh3 as (left & Hlen & Hh3); bad_part Hh3 left].
  destruct (journal_region_create_ok (md_journal_ready md) h0 h3 _ Hh3) as ([jr|] & h4 & -> & Hh4);
    [|destruct Hh4 as (left & Hlen & Hh4); bad_part Hh4 left].
  destruct (seg_validator_create_ok h0 h4 _ Hh4) as ([sv|] & h5 & -> & Hh5); [|destruct Hh5 as (left & Hlen & Hh5); bad_part Hh5 left].
  destruct (reverse_index_table_create_ok h0 h5 _ Hh5) as ([rit|] & h6 & -> & Hh6); [|destruct Hh6 as (left & Hlen & Hh6); bad_part Hh6 left].
  destruct (dst_create_ok (md_victims md) (md_dst_readable md) h0 h6 _ Hh6) as ([d|] & h7 & -> & Hh7);
    [|destruct Hh7 as (left & Hlen & Hh7); bad_part Hh7 left].
  destruct (bit_catalogue_create_ok h0 h7 _ Hh7) as ([bitc|] & h8 & -> & Hh8).
  - eexists _, h8. split; [done|]. eapply holds_perm, Hh8. unfold metadata_owned. cbn [mo_this mo_bc mo_superblock mo_journal mo_validator mo_rit mo_dst mo_catalogue owned_opt].
    solve_Permutation.
  - destruct Hh8 as (left & Hlen & Hh8). pose proof (dst_kept_length (to_fields d)). bad_part Hh8 left.
Qed.

(** A table that was created has its array. *)
Lemma dst_create_array n readable h d h' : dst_create n readable h = Some (Some d, h') -> length (dst_array_owned (to_fields d)) = 4%nat.
Proof.
  unfold dst_create, bind, ret. destruct (kmalloc h) as [[[this|] h1]|]; [|done..]. unfold dst_init_fields, bind, ret.
  destruct (disk_array_create h1) as [[[a|] h2]|]; [|done..]. destruct (kmalloc h2) as [[[p|] h3]|]; [|done..].
  destruct (load_victims n h3) as [[vs h4]|]; [|done]. cbn [fst snd]. destruct readable; [|done]. by intros [= <- <-].
Qed.

Lemma metadata_bad_none m h x h' : metadata_bad m h = Some (Some x, h') -> False.
Proof. unfold metadata_bad, bind. by destruct (metadata_free m h) as [[[] ?]|]. Qed.

Lemma metadata_create_kept md h m h' : metadata_objects_create md None h = Some (Some m, h') -> length (metadata_kept m) = 4%nat.
Proof.
  unfold metadata_objects_create, bind. destruct (kmalloc h) as [[[this|] h1]|]; [|done..].
  destruct (kmalloc h1) as [[[bc|] h2]|]; [|by intros []%metadata_bad_none|done].
  destruct (superblock_create _ h2) as [[[sb|] h3]|]; [|by intros []%metadata_bad_none|done].
  destruct (journal_region_create _ h3) as [[[jr|] h4]|]; [|by intros []%metadata_bad_none|done].
  destruct (seg_validator_create h4) as [[[sv|] h5]|]; [|by intros []%metadata_bad_none|done].
  destruct (reverse_index_table_create h5) as [[[rit|] h6]|]; [|by intros []%metadata_bad_none|done].
  destruct (dst_create _ _ h6) as [[[d|] h7]|] eqn:Hd; [|by intros []%metadata_bad_none|done]. apply dst_create_array in Hd.
  destruct (bit_catalogue_create h7) as [[[bitc|] h8]|]; [|by intros []%metadata_bad_none|done]. by intros [= <- <-].
Qed.

End tables.

(** ** The tree ([lsm_tree.c], [cache.c], [memtable.c]) *)
Section tree.
Context (granted : nat -> bool).
#[local] Abbreviation kmalloc := (kmalloc granted).
#[local] Abbreviation create_or_free := (create_or_free granted).

(** A block and a tuple of parts. *)
Record builder_obj : Type := BuilderObj { uo_this : nat; uo_parts : nat * nat }.
Definition builder_owned (b : builder_obj) : list nat := [uo_this b; (uo_parts b).1; (uo_parts b).2].

(** The buffer and the contexts. *)
Definition bit_builder_create : M (option builder_obj) := create_or_free (create_both kmalloc kfree kmalloc pair) BuilderObj.
Definition bit_builder_destroy (b : builder_obj) : M unit :=
  let* _ := kfree (uo_parts b).2 in let* _ := kfree (uo_parts b).1 in kfree (uo_this b).

Lemma bit_builder_create_ok : creates 0 builder_owned bit_builder_create.
Proof.
  apply (create_or_free_ok granted 0 (fun x => [x.1; x.2])); [|done].
  by apply (create_both_ok 0 0 0 (fun p => [p]) (fun _ => []) (fun p => [p])); [apply creates_kmalloc..|apply destroys_kfree|intros ?; cbn; lia|].
Qed.

Lemma bit_builder_destroy_ok : destroys (fun _ => []) builder_owned bit_builder_destroy.
Proof.
  intros b h0 h l Hh. destroying destroys_kfree Hh (uo_this b :: (uo_parts b).1 :: l). destroying destroys_kfree Hh (uo_this b :: l).
  destroying destroys_kfree Hh l.
Qed.

(** [found]: the first leaf could be read. *)
Definition bit_iterator_create (found : bool) : M (option nat) := create_or_free (ret (if found then Some tt else None)) (fun this _ => this).
Definition bit_iterator_destroy (this : nat) : M unit := kfree this.

Definition compaction_job_create : M (option nat) := create_or_free (ret (Some tt)) (fun this _ => this).
Definition compaction_job_destroy (this : nat) : M unit := kfree this.

Lemma bit_iterator_create_ok found : creates 0 (fun p => [p]) (bit_iterator_create found).
Proof. by apply (create_or_free_ok granted 0 (fun _ => [])); [apply creates_ret|]. Qed.

Lemma compaction_job_create_ok : creates 0 (fun p => [p]) compaction_job_create.
Proof. by apply (create_or_free_ok granted 0 (fun _ => [])); [apply creates_ret|]. Qed.

(** The nodes of a cache and the values that their destructors free. *)
Record cache_obj : Type := CacheObj { ca_this : nat; ca_nodes : list (nat * nat) }.
Definition node_owned (n : nat * nat) : list nat := [n.1; n.2].
Definition cache_owned (c : cache_obj) : list nat := ca_this c :: (ca_nodes c ≫= node_owned).

Definition cached_leaf_destroy (leaf : nat) : M unit := kfree leaf.
Definition lru_cache_create : M (option cache_obj) := create_or_free (ret (Some tt)) (fun this _ => {| ca_this := this; ca_nodes := [] |}).
Definition lru_cache_node_destroy (n : nat * nat) : M unit := let* _ := cached_leaf_destroy n.2 in kfree n.1.
Definition lru_cache_destroy (c : cache_obj) : M unit := let* _ := for_each lru_cache_node_destroy (ca_nodes c) in kfree (ca_this c).

Lemma lru_cache_create_ok : creates 0 cache_owned lru_cache_create.
Proof. by apply (create_or_free_ok granted 0 (fun _ => [])); [apply creates_ret|]. Qed.

Lemma lru_cache_destroy_ok : destroys (fun _ => []) cache_owned lru_cache_destroy.
Proof.
  intros c h0 h l Hh. unfold cache_owned in Hh.
  assert (destroys (fun _ => []) node_owned lru_cache_node_destroy) as Hn.
  { intros n h1 h2 l' Hh'. unfold node_owned in Hh'. destroying destroys_kfree Hh' (n.1 :: l'). destroying destroys_kfree Hh' l'. }
  destroying (destroys_for_each _ _ Hn) Hh (ca_this c :: l). destroying destroys_kfree Hh l.
Qed.

(** The cached root and its children, the cache of leaves. *)
Record file_obj : Type := FileObj { fi_this : nat; fi_root : option (nat * nat); fi_leaves : option cache_obj }.
Definition file_owned (f : file_obj) : list nat := fi_this f :: owned_opt node_owned (fi_root f) ++ owned_opt cache_owned (fi_leaves f).

Definition bit_file_destroy_cached_root (root : nat * nat) : M unit := let* _ := kfree root.2 in kfree root.1.
Definition bit_file_destroy (f : file_obj) : M unit :=
  let* _ := if_set bit_file_destroy_cached_root (fi_root f) in
  let* _ := if_set lru_cache_destroy (fi_leaves f) in
  kfree (fi_this f).

Lemma bit_file_destroy_ok : destroys (fun _ => []) file_owned bit_file_destroy.
Proof.
  intros f h0 h l Hh. unfold file_owned in Hh.
  assert (destroys (fun _ => []) node_owned bit_file_destroy_cached_root) as Hn.
  { intros n h1 h2 l' Hh'. unfold node_owned in Hh'. destroying destroys_kfree Hh' (n.1 :: l'). destroying destroys_kfree Hh' l'. }
  destroying (destroys_if_set_all _ _ Hn) Hh (fi_this f :: owned_opt cache_owned (fi_leaves f) ++ l).
  destroying (destroys_if_set_all _ _ lru_cache_destroy_ok) Hh (fi_this f :: l). destroying destroys_kfree Hh l.
Qed.

(** A level, its array of pointers and the files in it. *)
Record level_obj : Type := LevelObj { le_this : nat; le_bit_files : nat; le_files : list file_obj }.
Definition level_owned (v : level_obj) : list nat := le_this v :: le_bit_files v :: (le_files v ≫= file_owned).

Definition bit_level_create : M (option level_obj) :=
  create_or_free kmalloc (fun this bit_files => {| le_this := this; le_bit_files := bit_files; le_files := [] |}).
Definition bit_level_destroy (v : level_obj) : M unit := let* _ := for_each bit_file_destroy (le_files v) in kfree (le_this v).

Lemma bit_level_create_ok : creates 0 level_owned bit_level_create.
Proof. by apply (create_or_free_ok granted 0 (fun p => [p])); [apply creates_kmalloc|]. Qed.

(** The array of pointers is not freed. *)
Lemma bit_level_destroy_ok : destroys (fun v => [le_bit_files v]) level_owned bit_level_destroy.
Proof.
  intros v h0 h l Hh. unfold level_owned in Hh. destroying (destroys_for_each _ _ bit_file_destroy_ok) Hh (le_this v :: le_bit_files v :: l).
  destroying destroys_kfree Hh (le_bit_files v :: l).
Qed.

(** Memtables: the entries with their records. *)
Record entry_obj : Type := EntryObj { eo_this : nat; eo_val : option nat; eo_negative : option nat }.
Definition entry_owned (e : entry_obj) : list nat := eo_this e :: owned_opt (fun p => [p]) (eo_val e) ++ owned_opt (fun p => [p]) (eo_negative e).
Record memtable_obj : Type := MemtableObj { mt_this : nat; mt_entries : list entry_obj }.
Definition memtable_owned (m : memtable_obj) : list nat := mt_this m :: (mt_entries m ≫= entry_owned).

(** The copy of a record; [None] for the null pointer. *)
Definition record_copy (old : option nat) : M (option nat) := match old with None => ret None | Some _ => kmalloc end.
Definition record_destroy (r : option nat) : M unit := if_set kfree r.
Definition delete_memtable_entry (e : entry_obj) : M unit :=
  let* _ := record_destroy (eo_val e) in let* _ := record_destroy (eo_negative e) in kfree (eo_this e).
Definition rbtree_memtable_destroy (m : memtable_obj) : M unit := let* _ := for_each delete_memtable_entry (mt_entries m) in kfree (mt_this m).

Lemma record_copy_ok old : creates 0 (fun p => [p]) (record_copy old).
Proof. destruct old; [apply creates_kmalloc|]. intros h0 h l Hh. by apply creates_none. Qed.

Lemma rbtree_memtable_destroy_ok : destroys (fun _ => []) memtable_owned rbtree_memtable_destroy.
Proof.
  intros m h0 h l Hh. unfold memtable_owned in Hh.
  assert (destroys (fun _ => []) entry_owned delete_memtable_entry) as He.
  { intros e h1 h2 l' Hh'. unfold entry_owned in Hh'. destroying destroys_pointer Hh' (eo_this e :: owned_opt (fun p => [p]) (eo_negative e) ++ l').
    destroying destroys_pointer Hh' (eo_this e :: l'). destroying destroys_kfree Hh' l'. }
  destroying (destroys_for_each _ _ He) Hh (mt_this m :: l). destroying destroys_kfree Hh l.
Qed.
End tree.

(** ** The write buffer and the segment allocator *)
Section buffer.
Context (granted : nat -> bool).
#[local] Abbreviation kmalloc := (kmalloc granted).

(** A buffer: its ciphertext area and its blocks, each with a page. *)
Record segment_obj : Type := SegmentObj { sg_cipher_segment : option nat; sg_blocks : list (nat * nat) }.
Definition segment_owned (s : segment_obj) : list nat := owned_opt (fun p => [p]) (sg_cipher_segment s) ++ (sg_blocks s ≫= node_owned).

Definition segment_block_delete (blk : nat * nat) : M unit := let* _ := kfree blk.2 in kfree blk.1.
Definition data_segment_free (s : segment_obj) : M unit :=
  let* _ := if_set kfree (sg_cipher_segment s) in for_each segment_block_delete (sg_blocks s).

Lemma segment_block_delete_ok : destroys (fun _ => []) node_owned segment_block_delete.
Proof. intros n h0 h l Hh. unfold node_owned in Hh. destroying destroys_kfree Hh (n.1 :: l). destroying destroys_kfree Hh l. Qed.

Lemma data_segment_free_ok : destroys (fun _ => []) segment_owned data_segment_free.
Proof.
  intros s h0 h l Hh. unfold segment_owned in Hh. destroying destroys_pointer Hh ((sg_blocks s ≫= node_owned) ++ l).
  destroying (destroys_for_each _ _ segment_block_delete_ok) Hh l.
Qed.

(** The object, the queue of works and the buffers. *)
Record pool_obj : Type := PoolObj { po_this : nat; po_wq : nat; po_buffers : list segment_obj }.
Definition pool_owned (b : pool_obj) : list nat := po_this b :: po_wq b :: (po_buffers b ≫= segment_owned).

(** Only the first of the four buffers has its area at first; the error path
    destroys what there is, but the object is lost. *)
Definition segbuf_create : M (option pool_obj) :=
  create_or_lose granted (create_both kmalloc kfree kmalloc pair)
    (fun this x => {| po_this := this; po_wq := x.1;
       po_buffers := {| sg_cipher_segment := Some x.2; sg_blocks := [] |} :: replicate 3 {| sg_cipher_segment := None; sg_blocks := [] |} |}).
Definition segbuf_free (b : pool_obj) : M unit :=
  let* _ := kfree (po_wq b) in let* _ := for_each data_segment_free (po_buffers b) in kfree (po_this b).

Lemma segbuf_create_ok : creates 1 pool_owned segbuf_create.
Proof.
  apply (create_or_lose_ok granted 0 (fun x => [x.1; x.2])); [|done].
  by apply (create_both_ok 0 0 0 (fun p => [p]) (fun _ => []) (fun p => [p])); [apply creates_kmalloc..|apply destroys_kfree|intros ?; cbn; lia|].
Qed.

Lemma segbuf_free_ok : destroys (fun _ => []) pool_owned segbuf_free.
Proof.
  intros b h0 h l Hh. unfold pool_owned in Hh. destroying destroys_kfree Hh (po_this b :: (po_buffers b ≫= segment_owned) ++ l).
  destroying (destroys_for_each _ _ data_segment_free_ok) Hh (po_this b :: l). destroying destroys_kfree Hh l.
Qed.

(** [counted]: the validity table could be read. *)
Record allocator_obj : Type := AllocatorObj { al_this : nat; al_wq : nat }.
Definition allocator_owned (a : allocator_obj) : list nat := [al_this a; al_wq a].

Definition sa_create (counted : bool) : M (option allocator_obj) :=
  create_or_lose granted (if counted then kmalloc else ret None) AllocatorObj.
Definition sa_destroy (a : allocator_obj) : M unit := let* _ := kfree (al_wq a) in kfree (al_this a).

Lemma sa_create_ok counted : creates 1 allocator_owned (sa_create counted).
Proof.
  apply (create_or_lose_ok granted 0 (fun p => [p])); [|done]. destruct counted; [apply creates_kmalloc|].
  intros h0 h l Hh. by apply creates_none.
Qed.

Lemma sa_destroy_ok : destroys (fun _ => []) allocator_owned sa_destroy.
Proof. intros a h0 h l Hh. destroying destroys_kfree Hh (al_this a :: l). destroying destroys_kfree Hh l. Qed.
End buffer.

(** Formatting: when the array of the second initialisation is refused, the list
    that [dst_format] has freed is freed again. *)
Definition empty_heap : heap := {| hp_next := 0; hp_live := ∅ |}.
Definition empty_device : media := {| md_superblock_valid := true; md_journal_ready := true; md_victims := 0; md_dst_readable := true |}.
Definition format_everything : formatting :=
  {| fo_before := true; fo_array := true; fo_victims := 0; fo_readable := true; fo_after := true |}.

Theorem format_frees_twice : exists granted : nat -> bool, metadata_objects_create granted empty_device (Some format_everything) empty_heap = None.
Proof. exists (fun n => negb (Nat.eqb n 35)). by vm_compute. Qed.

(** With all requests granted it succeeds. *)
Example format_granted : exists m h, metadata_objects_create (fun _ => true) empty_device (Some format_everything) empty_heap = Some (Some m, h).
Proof. eexists _, _. vm_compute. reflexivity. Qed.

