(* ===== verification/UserKeys.v ===== *)
(** * UserKeys: the key on its way to the kernel

    The command line tool turns the volume key into hexadecimal
    ([utils_hex.c], [vk.c]) and puts it into the parameters of the device mapper
    target ([get_dm_jindisk_params] of [dm.c]); the constructor of the target
    decodes it. C strings are lists of character codes. *)
From Stdlib Require Import String Ascii.
From S2P Require Import Prelude Layout Bytes Target.

Definition chars (s : string) : list Z := (fun c => Z.of_N (N_of_ascii c)) <$> list_ascii_of_string s.

(** ** Hexadecimal: [utils_hex.c] *)

(** [c + '0' + ((unsigned)(9 - c) >> 4 & 0x27)], as a [char]. *)
Definition hex2asc (c : Z) : Z := (c + 48 + Z.land (Z.shiftr (u32 (9 - c)) 4) 39) mod 256.

(** [bytes] is the memory at the pointer, [None] for [NULL]; the result is what is
    written to the fresh memory, which is one byte longer. *)
Definition crypt_bytes_to_hex (size : nat) (bytes : option (list Z)) : option (list Z) :=
  match size, bytes with
  | O, _ => Some (chars "-")
  | S _, None => None
  | S _, Some bytes => Some (take size bytes ≫= fun b => [hex2asc (Z.shiftr b 4); hex2asc (Z.land b 15)])
  end.

(** ** The volume key: [vk.c] *)

Record volume_key : Type := VolumeKey { vk_keylength : Z; vk_key : list Z }.

Definition SHA512_KEYSIZE : Z := 128.

(** [SIZE_MAX - sizeof( *vk)] *)
Definition VK_MAX : Z := 2 ^ 64 - 1 - 8.

Definition crypt_alloc_volume_key (keylength : Z) (key : option (list Z)) : option volume_key :=
  if VK_MAX <? keylength then None
  else Some {| vk_keylength := keylength;
               vk_key := match key with
                         | Some k => take (Z.to_nat keylength) k
                         | None => replicate (Z.to_nat keylength) 0
                         end |}.

(** ** The target: [struct dm_target] *)

(** [struct device]; [dev_fd] is [-1] throughout. *)
Record device : Type := Device { d_path : list Z; d_file_path : option (list Z); d_block_size : Z }.

Definition device_path (d : device) : list Z := default (d_path d) (d_file_path d).

Record dm_target : Type := DmTarget {
  t_device : device;
  t_vk : volume_key;
  t_offset : Z;
  t_size : Z;
  t_action_flag : Z;
  t_holders : Z
}.

(** ["%lu"]: the decimal digits of a number. *)
Fixpoint decimal_loop (fuel : nat) (n : Z) (acc : list Z) : list Z :=
  match fuel with
  | O => acc
  | S fuel => if n <? 10 then 48 + n :: acc else decimal_loop fuel (n / 10) (48 + n mod 10 :: acc)
  end.

(** Twenty digits are enough for 64 bits. *)
Definition decimal (n : Z) : list Z := decimal_loop 20 n [].

Definition SPACE : Z := 32.

(** [keystr_len] and [ivstr_len] *)
Definition keystr_len : nat := 32.
Definition ivstr_len : nat := 24.

(** The digits of [keystr_len + ivstr_len] bytes are computed, of which the first
    [keystr_len + ivstr_len] digits are used. [tail] is how far [strlen] reads
    beyond the digits: the memory has no terminating zero of its own. A text that
    does not fit into [max_size] is refused. *)
Definition get_dm_jindisk_params (tail : Z) (tgt : dm_target) : option (list Z) :=
  match crypt_bytes_to_hex (keystr_len + ivstr_len) (Some (vk_key (t_vk tgt))) with
  | None => None
  | Some hexkeystr =>
      let max_size := Z.of_nat (List.length hexkeystr) + tail + Z.of_nat (List.length (device_path (t_device tgt))) + 64 in
      let key := take keystr_len hexkeystr in
      let iv := take ivstr_len (drop keystr_len hexkeystr) in
      let params := key ++ [SPACE] ++ iv ++ [SPACE] ++ device_path (t_device tgt) ++ [SPACE] ++ decimal (t_action_flag tgt) in
      if max_size <=? Z.of_nat (List.length params) then None else Some params
  end.

(** ** Digits *)

Definition is_hex (c : Z) : Prop := 48 <= c <= 57 \/ 97 <= c <= 102.

#[export] Instance is_hex_dec c : Decision (is_hex c).
Proof. unfold is_hex. apply _. Defined.

Lemma nibble_cases (P : Z -> Prop) : Forall P (Z.of_nat <$> seq 0 16) -> forall c, 0 <= c < 16 -> P c.
Proof.
  intros HP c Hc. rewrite Forall_forall in HP. apply HP. apply list_elem_of_fmap. exists (Z.to_nat c).
  split; [lia|]. apply elem_of_seq. lia.
Qed.

Lemma hex2asc_digit c : 0 <= c < 16 -> is_hex (hex2asc c) /\ hex_digit_value (hex2asc c) = Some c.
Proof.
  revert c. apply nibble_cases. apply (bool_decide_unpack _). by vm_compute.
Qed.

Definition hex_bytes (bs : list Z) : list Z := bs ≫= fun b => [hex2asc (Z.shiftr b 4); hex2asc (Z.land b 15)].

Lemma hex_bytes_length bs : List.length (hex_bytes bs) = (2 * List.length bs)%nat.
Proof. induction bs as [|b bs IH]; [done|]. unfold hex_bytes in *. cbn. rewrite IH. lia. Qed.

Lemma hex_bytes_take n bs : take (2 * n) (hex_bytes bs) = hex_bytes (take n bs).
Proof.
  revert bs. induction n as [|n IH]; intros bs; [by destruct bs|]. destruct bs as [|b bs]; [done|].
  replace (2 * S n)%nat with (S (S (2 * n))) by lia. unfold hex_bytes in *. cbn [mbind list_bind app take]. by rewrite IH.
Qed.

Lemma hex_bytes_drop n bs : drop (2 * n) (hex_bytes bs) = hex_bytes (drop n bs).
Proof.
  revert bs. induction n as [|n IH]; intros bs; [by destruct bs|]. destruct bs as [|b bs]; [done|].
  replace (2 * S n)%nat with (S (S (2 * n))) by lia. unfold hex_bytes in *. cbn [mbind list_bind app drop]. by rewrite IH.
Qed.

Lemma nibbles b : byte b -> 0 <= Z.shiftr b 4 < 16 /\ 0 <= Z.land b 15 < 16 /\ 16 * Z.shiftr b 4 + Z.land b 15 = b.
Proof.
  unfold byte. intros Hb. rewrite Z.shiftr_div_pow2 by lia. change 15 with (Z.ones 4). rewrite Z.land_ones by lia.
  change (2 ^ 4) with 16. pose proof (Z.div_mod b 16). pose proof (Z.mod_pos_bound b 16). split; [|lia].
  split; [apply Z.div_pos; lia|apply Z.div_lt_upper_bound; lia].
Qed.

Lemma hex_bytes_digits bs : Forall byte bs -> Forall is_hex (hex_bytes bs).
Proof.
  unfold hex_bytes. induction 1 as [|b bs Hb _ IH]; [constructor|]. destruct (nibbles b Hb) as (Hh & Hl & _).
  cbn. constructor; [by apply hex2asc_digit|]. constructor; [by apply hex2asc_digit|done].
Qed.


(** ** Decoding in the kernel *)

(** The values of the pairs of digits. *)
Fixpoint hex_pairs (s : list Z) : list Z :=
  match s with
  | h :: l :: s => 16 * default 0 (hex_digit_value h) + default 0 (hex_digit_value l) :: hex_pairs s
  | _ => []
  end.

Lemma hex_pairs_bytes bs : Forall byte bs -> hex_pairs (hex_bytes bs) = bs.
Proof.
  unfold hex_bytes. induction 1 as [|b bs Hb _ IH]; [done|]. destruct (nibbles b Hb) as (Hh & Hl & Heq).
  cbn [mbind list_bind app hex_pairs]. fold (mbind (M := list) (fun b => [hex2asc (Z.shiftr b 4); hex2asc (Z.land b 15)])).
  rewrite (proj2 (hex2asc_digit _ Hh)), (proj2 (hex2asc_digit _ Hl)). cbn [default from_option id]. by rewrite Heq, IH.
Qed.

(** A word of a table line: not empty, without white space and backslash. *)
Definition plain_char (c : Z) : Prop := 32 < c /\ c <> 92.
Definition plain_word (w : list Z) : Prop := w <> [] /\ Forall plain_char w.

Fixpoint join_words (ws : list (list Z)) : list Z :=
  match ws with
  | [] => []
  | [w] => w
  | w :: ws => w ++ [SPACE] ++ join_words ws
  end.

(** [dm_split_args] of the device mapper, and what the kernel documents of it,
    of [hex2bin] and of [kstrtoul]. *)
Class DmSplit : Type := dm_split_args : list Z -> list (list Z).

Class KernelParseSpec `{KernelParse, DmSplit} : Prop := {
  hex2bin_digits s n : List.length s = (2 * n)%nat -> Forall is_hex s -> hex2bin s n = Some (hex_pairs s);
  kstrtoul_decimal n : 0 <= n < 2 ^ 64 -> kstrtoul (decimal n) = Some n;
  dm_split_words ws : Forall plain_word ws -> dm_split_args (join_words ws) = ws
}.

Lemma decimal_loop_digits fuel : forall n acc, 0 <= n -> Forall (fun c => 48 <= c <= 57) acc -> Forall (fun c => 48 <= c <= 57) (decimal_loop fuel n acc).
Proof.
  induction fuel as [|fuel IH]; intros n acc Hn Hacc; [done|]. cbn [decimal_loop]. destruct (Z.ltb_spec n 10); [constructor; [lia|done]|].
  apply IH; [apply Z.div_pos; lia|]. constructor; [|done]. pose proof (Z.mod_pos_bound n 10). lia.
Qed.

Lemma decimal_loop_length fuel : forall n acc, (List.length acc <= List.length (decimal_loop fuel n acc) <= List.length acc + fuel)%nat.
Proof.
  induction fuel as [|fuel IH]; intros n acc; cbn [decimal_loop]; [lia|]. destruct (n <? 10); [cbn; lia|].
  specialize (IH (n / 10) (48 + n mod 10 :: acc)). cbn in IH. lia.
Qed.

Lemma decimal_word n : 0 <= n -> plain_word (decimal n).
Proof.
  intros Hn. split.
  - change (decimal n) with (decimal_loop (S 19) n []). generalize 19%nat as fuel. intros fuel. cbn [decimal_loop]. destruct (n <? 10); [done|]. intros Hnil.
    pose proof (decimal_loop_length fuel (n / 10) [48 + n mod 10]) as Hl. rewrite Hnil in Hl. cbn in Hl. lia.
  - eapply Forall_impl; [apply (decimal_loop_digits 20 n []); [done|constructor]|]. intros c Hc. unfold plain_char. cbn in *. lia.
Qed.

Lemma hex_word bs : Forall byte bs -> bs <> [] -> plain_word (hex_bytes bs).
Proof.
  intros Hb Hn. split; [by destruct bs|]. eapply Forall_impl; [by apply hex_bytes_digits|]. unfold is_hex, plain_char. cbn. intros c. lia.
Qed.

(** ** From the tool to the target *)

Section key_path.
Context `{KernelParseSpec}.

(** C37. The key reaches the kernel: for a volume key of at least 56 bytes, a
    device path without white space and any action flag the tool builds a
    parameter line, and a constructor that is given the words of the line, a
    device that is large enough and no failing part opens the metadata with the
    first 16 bytes of the key, the next 12 as the iv, and the flag. *)
Theorem key_reaches_kernel tail tgt env a target_len devsize ms :
  (56 <= List.length (vk_key (t_vk tgt)))%nat -> Forall byte (vk_key (t_vk tgt)) -> 0 <= tail -> 0 <= t_action_flag tgt < 2 ^ 64 ->
  plain_word (device_path (t_device tgt)) -> ce_address env = Some a -> ce_devsize env (device_path (t_device tgt)) = Some devsize ->
  ctr_admits target_len devsize = true -> (forall p, ce_create env p = true) ->
  exists params, get_dm_jindisk_params tail tgt = Some params /\
    dm_jindisk_target_ctr env target_len (dm_split_args params) ms =
      Some (set_object ms a {| dj_raw_dev := Some (device_path (t_device tgt)); dj_held := target_parts;
              dj_meta_args := Some {| ma_key := take 16 (vk_key (t_vk tgt)); ma_iv := take 12 (drop 16 (vk_key (t_vk tgt)));
                                      ma_action_flag := t_action_flag tgt |} |}, Some a, 0).
Proof.
  intros Hlen Hbytes Htail Hflag Hpath Ha Hdev Hadm Hcreate. set (k := vk_key (t_vk tgt)) in *. set (path := device_path (t_device tgt)) in *.
  unfold get_dm_jindisk_params. fold k path. change (keystr_len + ivstr_len)%nat with 56%nat.
  change (crypt_bytes_to_hex 56 (Some k)) with (Some (hex_bytes (take 56 k))). cbv zeta beta iota.
  set (hex := hex_bytes (take 56 k)). assert (List.length hex = 112%nat) as Hhex by (unfold hex; rewrite hex_bytes_length, length_take; lia).
  assert (take keystr_len hex = hex_bytes (take 16 k)) as ->.
  { unfold hex. change keystr_len with (2 * 16)%nat. rewrite hex_bytes_take, take_take. done. }
  assert (take ivstr_len (drop keystr_len hex) = hex_bytes (take 12 (drop 16 k))) as ->.
  { unfold hex. change keystr_len with (2 * 16)%nat. change ivstr_len with (2 * 12)%nat. rewrite hex_bytes_drop, hex_bytes_take. f_equal.
    rewrite skipn_firstn_comm, take_take. done. }
  set (key := take 16 k). set (iv := take 12 (drop 16 k)).
  assert (List.length key = 16%nat /\ List.length iv = 12%nat) as [Hkl Hil] by (unfold key, iv; rewrite !length_take, length_drop; lia).
  assert (Forall byte key /\ Forall byte iv) as [Hkb Hib] by (split; [by apply Forall_take|by apply Forall_take, Forall_drop]).
  pose proof (decimal_loop_length 20 (t_action_flag tgt) []) as Hdec. fold (decimal (t_action_flag tgt)) in Hdec. cbn [List.length] in Hdec.
  assert (hex_bytes key ++ [SPACE] ++ hex_bytes iv ++ [SPACE] ++ path ++ [SPACE] ++ decimal (t_action_flag tgt) =
    join_words [hex_bytes key; hex_bytes iv; path; decimal (t_action_flag tgt)]) as Hjoin by done.
  destruct (Z.leb_spec (Z.of_nat (List.length hex) + tail + Z.of_nat (List.length path) + 64)
    (Z.of_nat (List.length (hex_bytes key ++ [SPACE] ++ hex_bytes iv ++ [SPACE] ++ path ++ [SPACE] ++ decimal (t_action_flag tgt))))) as [Hbig|_].
  { exfalso. rewrite Hhex in Hbig. repeat (rewrite length_app in Hbig). rewrite !hex_bytes_length, Hkl, Hil in Hbig. cbn [List.length] in Hbig. lia. }
  eexists. split; [done|]. rewrite Hjoin, dm_split_words.
  2: { repeat (apply Forall_cons; split); [by apply hex_word; [|intros Hn; rewrite Hn in Hkl]|by apply hex_word; [|intros Hn; rewrite Hn in Hil]|done| |constructor].
       apply decimal_word. lia. }
  unfold dm_jindisk_target_ctr. rewrite Ha. change (Z.to_nat AES_GCM_KEY_SIZE) with 16%nat. change (Z.to_nat AES_GCM_IV_SIZE) with 12%nat.
  rewrite (hex2bin_digits (hex_bytes key) 16), (hex2bin_digits (hex_bytes iv) 12) by (rewrite ?hex_bytes_length, ?Hkl, ?Hil; by try apply hex_bytes_digits).
  rewrite !hex_pairs_bytes by done. rewrite Hdev, kstrtoul_decimal by done. rewrite Hadm. cbn [negb].
  unfold target_parts. cbn [acquire]. by rewrite !Hcreate.
Qed.
End key_path.

(** ** A concrete kernel *)

Fixpoint split_loop (word s : list Z) : list (list Z) :=
  match s with
  | [] => [word]
  | c :: s => if c =? SPACE then word :: split_loop [] s else split_loop (word ++ [c]) s
  end.

#[export] Instance list_dm_split : DmSplit := fun s => match s with [] => [] | _ => split_loop [] s end.

Lemma split_loop_word w : forall word s, Forall plain_char w -> split_loop word (w ++ s) = split_loop (word ++ w) s.
Proof.
  induction w as [|c w IH]; intros word s Hw; [by rewrite app_nil_r|]. apply Forall_cons in Hw as [Hc Hw]. cbn [app split_loop].
  destruct (Z.eqb_spec c SPACE) as [->|_]; [unfold plain_char, SPACE in Hc; lia|]. rewrite IH by done. by rewrite <- app_assoc.
Qed.

Lemma split_loop_join w ws : Forall plain_word (w :: ws) -> split_loop [] (join_words (w :: ws)) = w :: ws.
Proof.
  revert w. induction ws as [|v ws IH]; intros w Hws; apply Forall_cons in Hws as [[_ Hw] Hws].
  - cbn [join_words]. pose proof (split_loop_word w [] [] Hw) as Hs. rewrite app_nil_r in Hs. by rewrite Hs.
  - change (join_words (w :: v :: ws)) with (w ++ [SPACE] ++ join_words (v :: ws)). rewrite (split_loop_word w [] ([SPACE] ++ join_words (v :: ws)) Hw). cbn [app split_loop]. by rewrite Z.eqb_refl, IH.
Qed.

Lemma list_hex2bin_pairs : forall n s, List.length s = (2 * n)%nat -> Forall is_hex s -> list_hex2bin s n = Some (hex_pairs s).
Proof.
  induction n as [|n IH]; intros s Hl Hs; [by destruct s|]. destruct s as [|h [|l s]]; cbn [List.length] in Hl; [lia..|].
  apply Forall_cons in Hs as [Hh Hs]. apply Forall_cons in Hs as [Hl' Hs].
  assert (forall c, is_hex c -> is_Some (hex_digit_value c)) as Hval.
  { intros c Hc. unfold hex_digit_value. destruct (Z.leb_spec 48 c), (Z.leb_spec c 57); cbn [andb]; [by eexists| | |unfold is_hex in Hc; lia].
    - destruct (Z.leb_spec 97 c), (Z.leb_spec c 102); cbn [andb]; (by eexists) || (unfold is_hex in Hc; lia).
    - unfold is_hex in Hc. lia. }
  destruct (Hval h Hh) as [vh Hvh]. destruct (Hval l Hl') as [vl Hvl]. cbn [list_hex2bin hex_pairs]. rewrite Hvh, Hvl, IH by (done || lia). done.
Qed.

Lemma list_kstrtoul_decimal fuel : forall n acc, 0 <= n < 10 ^ Z.of_nat (S fuel) ->
  list_kstrtoul 0 (decimal_loop (S fuel) n acc) = list_kstrtoul n acc.
Proof.
  assert (forall a c acc, 48 <= c <= 57 -> list_kstrtoul a (c :: acc) = list_kstrtoul (10 * a + (c - 48)) acc) as Hstep.
  { intros a c acc Hc. cbn [list_kstrtoul]. destruct (Z.leb_spec 48 c); [|lia]. by destruct (Z.leb_spec c 57); [|lia]. }
  induction fuel as [|fuel IH]; intros n acc Hn; cbn [decimal_loop]; destruct (Z.ltb_spec n 10) as [Hlt|Hge].
  1, 3: rewrite Hstep by lia; f_equal; lia.
  - change (10 ^ Z.of_nat 1) with 10 in Hn. lia.
  - change (if n / 10 <? 10 then _ else _) with (decimal_loop (S fuel) (n / 10) (48 + n mod 10 :: acc)). rewrite IH.
    + pose proof (Z.mod_pos_bound n 10 eq_refl). rewrite Hstep by lia. f_equal. pose proof (Z.div_mod n 10). lia.
    + split; [apply Z.div_pos; lia|]. apply Z.div_lt_upper_bound; [lia|]. rewrite <- Z.pow_succ_r by lia. rewrite <- Nat2Z.inj_succ. apply Hn.
Qed.

#[export] Instance list_kernel_parse_spec : KernelParseSpec.
Proof.
  split.
  - intros s n. apply list_hex2bin_pairs.
  - intros n Hn. assert (list_kstrtoul 0 (decimal n) = Some n) as Hd.
    { unfold decimal. change 20%nat with (S 19). rewrite list_kstrtoul_decimal; [done|]. split; [lia|]. change (10 ^ Z.of_nat 20) with 100000000000000000000. lia. }
    destruct (decimal_word n) as [Hne _]; [lia|]. unfold kstrtoul, list_kernel_parse. destruct (decimal n) as [|c s] eqn:Hdec; [congruence|].
    rewrite Hd. by destruct (Z.ltb_spec n (2 ^ 64)); [|lia].
  - intros ws Hws. destruct ws as [|w ws]; [done|]. unfold dm_split_args, list_dm_split.
    destruct (join_words (w :: ws)) as [|c s] eqn:Hj; [|rewrite <- Hj; by apply split_loop_join].
    apply Forall_cons in Hws as [[Hw _] _]. destruct w; [done|]. by destruct ws.
Qed.


Definition example_target : dm_target :=
  {| t_device := {| d_path := chars "/dev/vdb"; d_file_path := None; d_block_size := 0 |};
     t_vk := {| vk_keylength := 128; vk_key := replicate 128 200 |}; t_offset := 0; t_size := 0; t_action_flag := 1; t_holders := 0 |}.

Lemma key_reaches_kernel_witness : exists params, get_dm_jindisk_params 0 example_target = Some params /\
  dm_jindisk_target_ctr (example_env None) 21741568 (dm_split_args params) module_init_state =
    Some (set_object module_init_state 1 {| dj_raw_dev := Some (chars "/dev/vdb"); dj_held := target_parts;
            dj_meta_args := Some {| ma_key := replicate 16 200; ma_iv := replicate 12 200; ma_action_flag := 1 |} |}, Some 1%nat, 0).
Proof.
  apply (key_reaches_kernel 0 example_target (example_env None) 1 21741568 25165824 module_init_state).
  - vm_compute. lia.
  - apply Forall_replicate. unfold byte. lia.
  - done.
  - cbn. lia.
  - split; [done|]. repeat (apply Forall_cons; split; [unfold plain_char; vm_compute; (done || (split; congruence))|]). constructor.
  - reflexivity.
  - reflexivity.
  - vm_compute. reflexivity.
  - intros p. reflexivity.
Defined.
