(* ===== verification/UserDevice.v ===== *)
(** * UserDevice: the backing device of the tool ([device.c])

    The checks the command line tool makes on a block device before it creates a
    target on it. The state is the list of open file descriptors, by path. *)
From Stdlib Require Import String.
From S2P Require Import Prelude Layout UserKeys.

(** ** The system *)

(** [errno] numbers. *)
Definition EACCES_ : Z := 13.
Definition EBUSY_ : Z := 16.
Definition ENODEV_ : Z := 19.
Definition EINVAL_NO : Z := 22.
Definition ENOTBLK_ : Z := 15.
Definition EROFS_ : Z := 30.

(** What [stat] tells: [S_ISBLK], [S_ISREG] and [st_size]. *)
Record file_stat : Type := FileStat { st_blk : bool; st_reg : bool; st_size : Z }.

(** [os_open path excl rdwr] is 0 or the value of [errno]; the ioctl calls give
    the value they store, [None] when they return -1. [os_calc] is the ioctl of the
    control device of the kernel module: its result and the answer. *)
Class Os : Type := {
  os_stat : list Z -> option file_stat;
  os_fstat : list Z -> option file_stat;
  os_open : list Z -> bool -> bool -> Z;
  os_blksszget : list Z -> option Z;
  os_blkroget : list Z -> option Z;
  os_blkgetsize64 : list Z -> option Z;
  os_pagesize : Z;
  os_calc : Z -> Z * Z
}.

Definition fds : Type := list (list Z).

(** [close]: one descriptor of the path. *)
Fixpoint close_fd (path : list Z) (l : fds) : fds :=
  match l with
  | [] => []
  | p :: l => if decide (p = path) then l else p :: close_fd path l
  end.

Lemma close_open path l : close_fd path (path :: l) = l.
Proof. cbn. by rewrite decide_True. Qed.

Definition SECTOR_SHIFT : Z := 9.

(** [MISALIGNED(a, b)], not zero; 64 bits. *)
Definition MISALIGNED (a b : Z) : bool := negb (Z.land a (u64 (b - 1)) =? 0).

Section device.
Context `{Os}.
Implicit Types (d : device) (l : fds).

Definition device_block_size_fd (fd : list Z) : Z :=
  match os_fstat fd with
  | None => 0
  | Some st =>
      if st_reg st then os_pagesize
      else match os_blksszget fd with None => os_pagesize | Some arg => u64 arg end
  end.

(** The block size is kept in the device. *)
Definition device_block_size d l : device * Z * fds :=
  if negb (d_block_size d =? 0) then (d, d_block_size d, l)
  else
    let path := device_path d in
    if os_open path false false =? 0 then
      let size := device_block_size_fd path in
      ({| d_path := d_path d; d_file_path := d_file_path d; d_block_size := size |}, size, close_fd path (path :: l))
    else (d, 0, l).

Definition device_ready d l : Z * fds :=
  let path := device_path d in
  if negb (os_open path false false =? 0) then (- EINVAL_NO, l)
  else
    let l := path :: l in
    let r := match os_fstat path with
             | None => - EINVAL_NO
             | Some st => if st_blk st then 0 else if st_reg st then - ENOTBLK_ else - EINVAL_NO
             end in
    (r, close_fd path l).

Definition device_alloc (path : option (list Z)) l : option device * fds :=
  match path with
  | None => (None, l)
  | Some path =>
      let dev := {| d_path := path; d_file_path := None; d_block_size := 0 |} in
      let '(r, l) := device_ready dev l in
      (if r <? 0 then None else Some dev, l)
  end.

(** The descriptor, [real_readonly] and [errno] after the calls of [open]. *)
Definition device_open (path : list Z) (excl : bool) : option (list Z) * Z * Z :=
  let errno := os_open path excl true in
  if errno =? 0 then (Some path, 0, 0)
  else if errno =? EROFS_ then
    let errno := os_open path excl false in
    (if errno =? 0 then Some path else None, 1, errno)
  else (None, 0, errno).

(** [r], [real_readonly] and [real_size] at the label [out] for an open device. *)
Definition device_query (fd : list Z) (st : file_stat) (real_readonly : Z) : Z * Z * Z :=
  if st_reg st then (0, real_readonly, Z.shiftr (u64 (st_size st)) SECTOR_SHIFT)
  else
    match (if real_readonly =? 0 then os_blkroget fd else Some real_readonly) with
    | None => (-1, real_readonly, 0)
    | Some real_readonly =>
        match os_blkgetsize64 fd with
        | None => (-1, real_readonly, 0)
        | Some size => (0, real_readonly, Z.shiftr (u64 size) SECTOR_SHIFT)
        end
    end.

(** The [switch] at the end. *)
Definition device_info_result (r : Z) : Z :=
  if (r =? 0) || (r =? - EBUSY_) || (r =? - EACCES_) then r else - EINVAL_NO.

(** The result, and [readonly] and [size] when it is 0. *)
Definition device_info d l : Z * option (Z * Z) * fds :=
  match os_stat (d_path d) with
  | None => (device_info_result (- EINVAL_NO), None, l)
  | Some st =>
      let '(fd, real_readonly, errno) := device_open (d_path d) (st_blk st) in
      match fd with
      | None =>
          let r := if errno =? EBUSY_ then - EBUSY_ else if negb (errno =? 0) then - errno else - EINVAL_NO in
          (device_info_result r, None, l)
      | Some fd =>
          let l := fd :: l in
          let '(r, real_readonly, real_size) := device_query fd st real_readonly in
          (device_info_result r, if r =? 0 then Some (real_readonly, real_size) else None, close_fd fd l)
      end
  end.

Definition JINDISK_DEVICE : list Z := chars "/dev/jindisk".

(** A failure of the ioctl is returned as a number of sectors, and the descriptor
    stays open. *)
Definition get_payload_size (disk_size : Z) l : Z * fds :=
  if negb (os_open JINDISK_DEVICE false true =? 0) then (0, l)
  else
    let l := JINDISK_DEVICE :: l in
    let '(r, available) := os_calc disk_size in
    if negb (r =? 0) then (u64 r, l) else (available, close_fd JINDISK_DEVICE l).

(** [None] for the dereference of a null [size]; the result, [*size] and the
    descriptors. *)
Definition device_block_adjust d (device_offset : Z) (size : option Z) l : option (Z * Z * device * fds) :=
  let keep r d l := Some (r, default 0 size, d, l) in
  let '(r, info, l) := device_info d l in
  match info with
  | None => keep r d l
  | Some (_, real_size) =>
      let '(d, block_size, l) := device_block_size d l in
      if MISALIGNED real_size (Z.shiftr block_size SECTOR_SHIFT) then keep (- EINVAL_NO) d l
      else if real_size <=? device_offset then keep (- EINVAL_NO) d l
      else
        match size with
        | None => None
        | Some given =>
            if (given =? 0) && (real_size =? 0) then Some (- ENOTBLK_, 0, d, l)
            else
              let wanted := if given =? 0 then u64 (real_size - device_offset) else given in
              if u64 (real_size - device_offset) <? wanted then Some (- EINVAL_NO, wanted, d, l)
              else
                let '(payload, l) := get_payload_size wanted l in
                Some (0, payload, d, l)
        end
  end.

(** ** What is checked *)

Lemma device_info_fds d l : (device_info d l).2 = l.
Proof.
  unfold device_info. destruct (os_stat (d_path d)) as [st|]; [|done].
  destruct (device_open (d_path d) (st_blk st)) as [[[fd|] ro] e]; [|done].
  destruct (device_query fd st ro) as [[r ro'] size]. cbn [snd]. apply close_open.
Qed.

Lemma device_info_ok d l : let '(r, info, _) := device_info d l in
  r <= 0 /\ (r = 0 <-> is_Some info).
Proof.
  assert (forall r, (device_info_result r = 0 <-> r = 0) /\ device_info_result r <= 0) as Hres.
  { intros r. unfold device_info_result, EBUSY_, EACCES_, EINVAL_NO.
    destruct (Z.eqb_spec r 0), (Z.eqb_spec r (- (16))), (Z.eqb_spec r (- (13))); cbn [orb]; lia. }
  unfold device_info. destruct (os_stat (d_path d)) as [st|].
  2: { split; [apply Hres|]. split; [intros Hr; by apply Hres in Hr|by intros []]. }
  destruct (device_open (d_path d) (st_blk st)) as [[[fd|] ro] e].
  - destruct (device_query fd st ro) as [[r ro'] size]. split; [apply Hres|]. rewrite (proj1 (Hres r)).
    destruct (Z.eqb_spec r 0) as [->|Hne]; [split; [by eexists|done]|]. split; [done|by intros []].
  - split; [apply Hres|]. rewrite (proj1 (Hres _)). split; [|by intros []]. unfold EBUSY_, EINVAL_NO.
    destruct (Z.eqb_spec e 16); [done|]. destruct (Z.eqb_spec e 0); cbn [negb]; [done|lia].
Qed.

Lemma device_block_size_fds d l : let '(d', bs, l') := device_block_size d l in
  l' = l /\ device_path d' = device_path d /\ d_path d' = d_path d.
Proof.
  unfold device_block_size. destruct (negb (d_block_size d =? 0)); [done|]. destruct (os_open (device_path d) false false =? 0); [|done].
  split; [apply close_open|done].
Qed.

Lemma device_block_adjust_path d offset size l r out d' l' : device_block_adjust d offset size l = Some (r, out, d', l') ->
  device_path d' = device_path d.
Proof.
  unfold device_block_adjust. destruct (device_info d l) as [[r0 info] l0]. destruct info as [[ro real]|]; [|by intros [= _ _ <- _]].
  pose proof (device_block_size_fds d l0) as Hbs. destruct (device_block_size d l0) as [[d1 bs] l1]. destruct Hbs as (_ & Hp & _).
  destruct (MISALIGNED _ _); [by intros [= _ _ <- _]|]. destruct (real <=? offset); [by intros [= _ _ <- _]|].
  destruct size as [given|]; [|done]. destruct (_ && _); [by intros [= _ _ <- _]|]. destruct (_ <? _); [by intros [= _ _ <- _]|].
  destruct (get_payload_size _ l1) as [payload l2]. by intros [= _ _ <- _].
Qed.

(** The descriptors after the tool has asked the kernel module. *)
Definition payload_fds (wanted : Z) l : fds :=
  if (os_open JINDISK_DEVICE false true =? 0) && negb ((os_calc wanted).1 =? 0) then JINDISK_DEVICE :: l else l.

Lemma get_payload_size_spec wanted l : get_payload_size wanted l =
  (if negb (os_open JINDISK_DEVICE false true =? 0) then 0
   else if negb ((os_calc wanted).1 =? 0) then u64 (os_calc wanted).1 else (os_calc wanted).2, payload_fds wanted l).
Proof.
  unfold get_payload_size, payload_fds. destruct (os_open JINDISK_DEVICE false true =? 0); cbn [negb andb]; [|done].
  destruct (os_calc wanted) as [r avail]. cbn [fst snd]. destruct (r =? 0); cbn [negb]; [by rewrite close_open|done].
Qed.

Lemma device_block_adjust_ok d offset given l : 0 <= offset < 2 ^ 64 -> 0 <= given < 2 ^ 64 ->
  exists r size d' l', device_block_adjust d offset (Some given) l = Some (r, size, d', l') /\ r <= 0 /\
    (r <> 0 -> size = given /\ l' = l) /\
    (r = 0 -> exists ro real_size, (device_info d l).1.2 = Some (ro, real_size) /\ offset < real_size /\
       MISALIGNED real_size (Z.shiftr (device_block_size d l).1.2 SECTOR_SHIFT) = false /\
       let wanted := if given =? 0 then real_size - offset else given in
       offset + wanted <= real_size /\ size = (get_payload_size wanted l).1 /\ l' = payload_fds wanted l).
Proof.
  intros Hoff Hgiven. unfold device_block_adjust.
  pose proof (device_info_fds d l) as Hl. pose proof (device_info_ok d l) as Hok.
  assert (forall ro s, (device_info d l).1.2 = Some (ro, s) -> 0 <= s < 2 ^ 64) as Hreal.
  { intros ro s. unfold device_info. destruct (os_stat (d_path d)) as [st|]; [|done].
    destruct (device_open (d_path d) (st_blk st)) as [[[fd|] ro0] e]; [|done]. unfold device_query.
    assert (forall x, 0 <= x < 2 ^ 64 -> 0 <= Z.shiftr x SECTOR_SHIFT < 2 ^ 64) as Hsh.
    { intros x Hx. unfold SECTOR_SHIFT. rewrite Z.shiftr_div_pow2 by lia. change (2 ^ 9) with 512.
      pose proof (Z.div_pos x 512). pose proof (Z.div_le_upper_bound x 512 x). lia. }
    destruct (st_reg st).
    - cbn. intros [= _ <-]. apply Hsh, u64_range.
    - destruct (if ro0 =? 0 then _ else _) as [ro1|]; [|done]. destruct (os_blkgetsize64 fd) as [x|] eqn:Hx; [|done].
      cbn. intros [= _ <-]. apply Hsh, u64_range. }
  destruct (device_info d l) as [[r info] l0]. cbn [fst snd] in *. subst l0. destruct Hok as [Hr0 Hiff].
  destruct info as [[ro real_size]|].
  2: { exists r, given, d, l. split; [done|]. split; [done|]. split; [done|]. intros ->. by destruct (proj1 Hiff eq_refl). }
  specialize (Hreal _ _ eq_refl). pose proof (device_block_size_fds d l) as Hbs.
  destruct (device_block_size d l) as [[d' bs] l1]. cbn [fst snd]. destruct Hbs as [-> _].
  destruct (MISALIGNED real_size (Z.shiftr bs SECTOR_SHIFT)) eqn:Hmis; [by exists (- EINVAL_NO), given, d', l|].
  destruct (Z.leb_spec real_size offset) as [Hle|Hgt]; [by exists (- EINVAL_NO), given, d', l|].
  destruct (Z.eqb_spec real_size 0) as [|_]; [lia|]. rewrite andb_false_r.
  rewrite (u64_small (real_size - offset)) by lia. cbv zeta. set (wanted := if given =? 0 then real_size - offset else given).
  destruct (Z.ltb_spec (real_size - offset) wanted) as [Hlt|Hge].
  - exists (- EINVAL_NO), wanted, d', l. split; [done|]. split; [done|]. split; [|done]. intros _. split; [|done].
    unfold wanted in *. destruct (given =? 0); [lia|done].
  - rewrite get_payload_size_spec. eexists 0, _, d', _. split; [done|]. split; [done|]. split; [done|]. intros _.
    exists ro, real_size. do 3 (split; [done|]). fold wanted. split; [lia|]. by rewrite get_payload_size_spec.
Qed.

(** C38. The size of the target: with somewhere to put the size the check always
    ends with a result. It succeeds only for a device that could be examined,
    whose size in sectors is a multiple of its block size and lies beyond the
    offset, and for a size that fits behind it, which is then replaced by what the
    kernel module answers; otherwise the size is left as it was. No descriptor
    stays open, but that of the control device when its ioctl fails. *)
Theorem device_block_adjust_checks d offset given l : 0 <= offset < 2 ^ 64 -> 0 <= given < 2 ^ 64 ->
  exists r size d' l', device_block_adjust d offset (Some given) l = Some (r, size, d', l') /\ r <= 0 /\
    (r <> 0 -> size = given /\ l' = l) /\
    (r = 0 -> exists ro real_size, (device_info d l).1.2 = Some (ro, real_size) /\ offset < real_size /\
       MISALIGNED real_size (Z.shiftr (device_block_size d l).1.2 SECTOR_SHIFT) = false /\
       let wanted := if given =? 0 then real_size - offset else given in
       offset + wanted <= real_size /\ size = (get_payload_size wanted l).1 /\ l' = payload_fds wanted l).
Proof. apply device_block_adjust_ok. Qed.

(** When the module cannot answer, the check succeeds all the same: with a size
    of 0 when the control device is missing, with the result of the failed call
    as the size when it is there. *)
Lemma payload_failure_is_a_size wanted l :
  (os_open JINDISK_DEVICE false true <> 0 -> get_payload_size wanted l = (0, l)) /\
  (os_open JINDISK_DEVICE false true = 0 -> (os_calc wanted).1 = -1 -> get_payload_size wanted l = (2 ^ 64 - 1, JINDISK_DEVICE :: l)).
Proof.
  rewrite get_payload_size_spec. unfold payload_fds. split.
  - intros Ho. by destruct (Z.eqb_spec (os_open JINDISK_DEVICE false true) 0).
  - by intros -> ->.
Qed.

(** A regular file is refused, although [device_info] can size one. *)
Lemma regular_file_refused path l st : os_open path false false = 0 -> os_fstat path = Some st -> st_blk st = false ->
  device_alloc (Some path) l = (None, l).
Proof.
  intros Ho Hst Hb. unfold device_alloc, device_ready. cbn [device_path d_path d_file_path default from_option]. rewrite Ho, Hst, Hb.
  cbn [Z.eqb negb]. rewrite close_open. by destruct (st_reg st).
Qed.
End device.

(** ** A concrete system: one block device of 4 GiB *)

#[export] Instance example_os : Os := {
  os_stat := fun p => Some {| st_blk := true; st_reg := false; st_size := 0 |};
  os_fstat := fun p => Some {| st_blk := true; st_reg := false; st_size := 0 |};
  os_open := fun p excl rdwr => 0;
  os_blksszget := fun p => Some 512;
  os_blkroget := fun p => Some 0;
  os_blkgetsize64 := fun p => Some (2 ^ 32);
  os_pagesize := 4096;
  os_calc := fun n => (0, n / 2)
}.

Lemma device_block_adjust_checks_witness :
  let d := {| d_path := chars "/dev/vdb"%string; d_file_path := None; d_block_size := 0 |} in
  exists r size d' l', device_block_adjust d 0 (Some 0) [] = Some (r, size, d', l') /\ r <= 0 /\
    (r <> 0 -> size = 0 /\ l' = []) /\
    (r = 0 -> exists ro real_size, (device_info d []).1.2 = Some (ro, real_size) /\ 0 < real_size /\
       MISALIGNED real_size (Z.shiftr (device_block_size d []).1.2 SECTOR_SHIFT) = false /\
       let wanted := if 0 =? 0 then real_size - 0 else 0 in
       0 + wanted <= real_size /\ size = (get_payload_size wanted []).1 /\ l' = payload_fds wanted []).
Proof. intros d. apply (device_block_adjust_checks d 0 0 []); lia. Defined.
