(* ===== verification/UserCli.v ===== *)
(** * UserCli: the command line tool ([dm.c], [libdm_jindisk.c], [jindisksetup.c])

    The tool creates and removes mapped devices through libdevmapper. The state
    is that of the device mapper, the open descriptors and whether the version of
    the driver has been seen. *)
From Stdlib Require Import String.
From S2P Require Import Prelude Layout Target UserKeys UserDevice.

(** ** libdevmapper *)

Inductive task_kind : Type := DM_DEVICE_LIST_VERSIONS | DM_DEVICE_STATUS | DM_DEVICE_CREATE | DM_DEVICE_TABLE | DM_DEVICE_REMOVE.

#[export] Instance task_kind_eq_dec : EqDecision task_kind.
Proof. solve_decision. Defined.

(** A line of a table: start, size, type and parameters. *)
Record table_line : Type := TableLine { tl_start : Z; tl_size : Z; tl_type : list Z; tl_params : list Z }.

(** What has been put into a task. *)
Record dm_task : Type := DmTask { tk_kind : task_kind; tk_name : list Z; tk_target : option table_line }.

(** [struct dm_info], as far as it is used. *)
Record dm_info : Type := DmInfo { di_exists : bool; di_open_count : Z; di_target_count : Z; di_suspended : bool }.

(** The calls that can fail for want of memory. *)
Inductive dm_call : Type :=
  | TaskCreate (k : task_kind) | TaskSetName (k : task_kind) | TaskNoFlush | TaskSecureData (k : task_kind)
  | TaskAddTarget | TaskGetDriverVersion.

(** [dm_fields] is the number of fields [sscanf] finds in the version. *)
Class DmLib (S : Type) : Type := {
  dm_call_ok : dm_call -> bool;
  dm_task_run : S -> dm_task -> S * bool;
  dm_task_get_info : S -> dm_task -> option dm_info;
  dm_fields : Z
}.

(** A mapped device. *)
Record mapped : Type := Mapped { mp_open_count : Z; mp_suspended : bool; mp_table : list table_line }.

Definition mapped_info (m : option mapped) : dm_info :=
  match m with
  | Some m => {| di_exists := true; di_open_count := mp_open_count m; di_target_count := Z.of_nat (List.length (mp_table m)); di_suspended := mp_suspended m |}
  | None => {| di_exists := false; di_open_count := 0; di_target_count := 0; di_suspended := false |}
  end.

(** What the library documents: a status task succeeds also for a name that is
    not mapped, creating and removing are all or nothing, and after a task that
    ran the information is that of the device. *)
Class DmLibSpec (S : Type) `{DmLib S} : Type := {
  dm_view : S -> gmap (list Z) mapped;
  dm_run_frame s t : tk_kind t <> DM_DEVICE_CREATE -> tk_kind t <> DM_DEVICE_REMOVE -> dm_view (dm_task_run s t).1 = dm_view s;
  dm_run_create s name line : let '(s', ok) := dm_task_run s {| tk_kind := DM_DEVICE_CREATE; tk_name := name; tk_target := Some line |} in
    if ok then dm_view s !! name = None /\ dm_view s' = <[name := {| mp_open_count := 0; mp_suspended := false; mp_table := [line] |}]> (dm_view s)
    else dm_view s' = dm_view s;
  dm_run_remove s name : let '(s', ok) := dm_task_run s {| tk_kind := DM_DEVICE_REMOVE; tk_name := name; tk_target := None |} in
    if ok then (exists m, dm_view s !! name = Some m /\ mp_open_count m <= 0) /\ dm_view s' = delete name (dm_view s)
    else dm_view s' = dm_view s /\ forall m, dm_view s !! name = Some m -> 0 < mp_open_count m;
  dm_run_status s name : (dm_task_run s {| tk_kind := DM_DEVICE_STATUS; tk_name := name; tk_target := None |}).2 = true;
  dm_run_table s name : (dm_task_run s {| tk_kind := DM_DEVICE_TABLE; tk_name := name; tk_target := None |}).2 = bool_decide (is_Some (dm_view s !! name));
  dm_info_view s t : (dm_task_run s t).2 = true ->
    dm_task_get_info (dm_task_run s t).1 t = Some (mapped_info (dm_view (dm_task_run s t).1 !! tk_name t))
}.

Definition ENODEV_R : Z := - ENODEV_.
Definition EINVAL_R : Z := - EINVAL_NO.
Definition EBUSY_R : Z := - EBUSY_.
Definition EEXIST_R : Z := -17.
Definition ENOMEM_R : Z := -12.
Definition ENOTSUP_R : Z := -95.

Section cli.
Context {S : Type} `{Os} `{DmLib S}.
Implicit Types (s : S) (name : list Z).

(** [_dm_ioctl_checked] is the static variable; the second component is the
    result. *)
Definition dm_check_versions (checked : bool) s : S * bool :=
  if negb (dm_call_ok (TaskCreate DM_DEVICE_LIST_VERSIONS)) then (s, checked)
  else
    let '(s, ok) := dm_task_run s {| tk_kind := DM_DEVICE_LIST_VERSIONS; tk_name := []; tk_target := None |} in
    if negb ok then (s, checked)
    else if negb (dm_call_ok TaskGetDriverVersion) then (s, checked)
    else if negb checked && negb (dm_fields =? 3) then (s, checked)
    else (s, true).

Definition _dm_remove name s : S * bool :=
  if negb (dm_call_ok (TaskCreate DM_DEVICE_REMOVE)) then (s, false)
  else if negb (dm_call_ok (TaskSetName DM_DEVICE_REMOVE)) then (s, false)
  else dm_task_run s {| tk_kind := DM_DEVICE_REMOVE; tk_name := name; tk_target := None |}.

(** The result and the information when it is 0. *)
Definition dm_status_dmi name s : S * Z * option dm_info :=
  if negb (dm_call_ok (TaskCreate DM_DEVICE_STATUS)) then (s, EINVAL_R, None)
  else if negb (dm_call_ok TaskNoFlush) then (s, EINVAL_R, None)
  else if negb (dm_call_ok (TaskSetName DM_DEVICE_STATUS)) then (s, EINVAL_R, None)
  else
    let t := {| tk_kind := DM_DEVICE_STATUS; tk_name := name; tk_target := None |} in
    let '(s, ok) := dm_task_run s t in
    if negb ok then (s, EINVAL_R, None)
    else
      match dm_task_get_info s t with
      | None => (s, EINVAL_R, None)
      | Some dmi => if negb (di_exists dmi) then (s, ENODEV_R, None) else (s, 0, Some dmi)
      end.

(** ['/'] *)
Definition has_slash name : bool := bool_decide (47 ∈ name).

Definition dm_status_device name s : S * Z :=
  if has_slash name && negb (bool_decide (is_Some (os_stat name))) then (s, ENODEV_R)
  else
    match dm_status_dmi name s with
    | (s, r, Some dmi) => (s, if r <? 0 then r else if 0 <? di_open_count dmi then 1 else 0)
    | (s, r, None) => (s, r)
    end.

Definition JINDISK_TARGET : list Z := chars "jindisk".

(** [tail] is that of [get_dm_jindisk_params]. *)
Definition _dm_create_device (tail : Z) name (tgt : dm_target) s : S * Z :=
  if negb (dm_call_ok (TaskCreate DM_DEVICE_CREATE)) then (s, EINVAL_R)
  else if negb (dm_call_ok (TaskSetName DM_DEVICE_CREATE)) then (s, EINVAL_R)
  else if negb (dm_call_ok (TaskSecureData DM_DEVICE_CREATE)) then (s, EINVAL_R)
  else
    match get_dm_jindisk_params tail tgt with
    | None => (s, EINVAL_R)
    | Some params =>
        if negb (dm_call_ok TaskAddTarget) then (s, EINVAL_R)
        else
          let t := {| tk_kind := DM_DEVICE_CREATE; tk_name := name;
                      tk_target := Some {| tl_start := t_offset tgt; tl_size := t_size tgt; tl_type := JINDISK_TARGET; tl_params := params |} |} in
          let '(s, ok) := dm_task_run s t in
          if negb ok then
            let '(s, r) := dm_status_device name s in
            let r := if 0 <=? r then EEXIST_R else r in
            (s, if negb (r =? EEXIST_R) && negb (r =? ENODEV_R) then EINVAL_R else r)
          else
            let r := if bool_decide (is_Some (dm_task_get_info s t)) then 0 else EINVAL_R in
            (if r <? 0 then (_dm_remove name s).1 else s, r)
    end.

Definition dm_create_device (tail : Z) name (tgt : option dm_target) s : S * Z :=
  match tgt with
  | None => (s, EINVAL_R)
  | Some tgt => _dm_create_device tail name tgt s
  end.

(** The result and [tgt->holders], which is 0 on every path. *)
Definition dm_query_device name s : S * Z * Z :=
  if negb (dm_call_ok (TaskCreate DM_DEVICE_TABLE)) then (s, EINVAL_R, 0)
  else if negb (dm_call_ok (TaskSecureData DM_DEVICE_TABLE)) then (s, EINVAL_R, 0)
  else if negb (dm_call_ok (TaskSetName DM_DEVICE_TABLE)) then (s, EINVAL_R, 0)
  else
    let t := {| tk_kind := DM_DEVICE_TABLE; tk_name := name; tk_target := None |} in
    let '(s, ok) := dm_task_run s t in
    if negb ok then (s, ENODEV_R, 0)
    else
      match dm_task_get_info s t with
      | None => (s, EINVAL_R, 0)
      | Some dmi =>
          if negb (di_exists dmi) then (s, ENODEV_R, 0)
          else if di_target_count dmi <=? 0 then (s, EINVAL_R, 0)
          else if di_suspended dmi then (s, EINVAL_R, 0)
          else (s, Z.b2z (0 <? di_open_count dmi), 0)
      end.

(** The message speaks of a retry; there is none. *)
Definition dm_remove_device (name : option (list Z)) s : S * Z :=
  match name with
  | None => (s, EINVAL_R)
  | Some name => let '(s, ok) := _dm_remove name s in (s, if ok then 0 else EINVAL_R)
  end.

(** ** [libdm_jindisk.c] *)

Inductive crypt_status_info : Type := CRYPT_INVALID | CRYPT_INACTIVE | CRYPT_ACTIVE | CRYPT_BUSY.

Definition crypt_status (name : option (list Z)) s : S * crypt_status_info :=
  match name with
  | None => (s, CRYPT_INVALID)
  | Some name =>
      let '(s, r) := dm_status_device name s in
      (s, if (r <? 0) && negb (r =? ENODEV_R) then CRYPT_INVALID
          else if r =? 0 then CRYPT_ACTIVE else if 0 <? r then CRYPT_BUSY else CRYPT_INACTIVE)
  end.

(** [None] is a crash. *)
Definition create_or_open_device (tail : Z) name (tgt : dm_target) s (l : fds) : option (S * Z * fds) :=
  match device_block_adjust (t_device tgt) (t_offset tgt) (Some (t_size tgt)) l with
  | None => None
  | Some (r, size, d, l) =>
      if negb (r =? 0) then Some (s, r, l)
      else
        let tgt := {| t_device := d; t_vk := t_vk tgt; t_offset := t_offset tgt; t_size := size; t_action_flag := t_action_flag tgt; t_holders := t_holders tgt |} in
        let '(s, r) := dm_create_device tail name (Some tgt) s in
        Some (s, r, l)
  end.

(** [keyset] is the memory at the pointer. *)
Definition jindisk_activate (tail : Z) (checked : bool) (device_name : option (list Z)) (target_name : list Z)
  (keyset : option (list Z)) (key_size action_flag : Z) s (l : fds) : option (S * Z * fds) :=
  let '(s, versions) := dm_check_versions checked s in
  if negb versions then Some (s, ENOTSUP_R, l)
  else
    match device_alloc device_name l with
    | (None, l) => Some (s, ENOMEM_R, l)
    | (Some jindiskdevice, l) =>
        match keyset with
        | None => Some (s, EINVAL_R, l)
        | Some keys =>
            if negb (key_size =? SHA512_KEYSIZE) then Some (s, EINVAL_R, l)
            else
              match crypt_alloc_volume_key key_size (Some keys) with
              | None => Some (s, ENOMEM_R, l)
              | Some vk =>
                  create_or_open_device tail target_name
                    {| t_device := jindiskdevice; t_vk := vk; t_offset := 0; t_size := 0; t_action_flag := action_flag; t_holders := 0 |} s l
              end
        end
    end.

Definition jindisk_deactivate (checked : bool) (name : option (list Z)) s : S * Z :=
  let '(s, versions) := dm_check_versions checked s in
  if negb versions then (s, ENOTSUP_R)
  else
    match crypt_status name s with
    | (s, CRYPT_ACTIVE) | (s, CRYPT_BUSY) =>
        let '(s, r, holders) := dm_query_device (default [] name) s in
        if (0 <=? r) && negb (holders =? 0) then (s, EBUSY_R)
        else
          let '(s, r) := dm_remove_device name s in
          (s, if r <? 0 then EBUSY_R else r)
    | (s, CRYPT_INACTIVE) => (s, ENODEV_R)
    | (s, CRYPT_INVALID) => (s, EINVAL_R)
    end.

(** ** [jindisksetup.c] *)

(** The PBKDF2 function of OpenSSL, 64 bytes, and the 64 bytes that the compiler
    puts behind the array [binResult]. *)
Context (pbkdf2 : list Z -> list Z) (stack_after : list Z).

(** [action_create] is the action with the flag 1, [action_open] that with 0. The
    key has 64 bytes, 128 are passed on. *)
Definition action_activate (tail flag : Z) (password : list Z) (dev_path : list Z) (dm_name : option (list Z)) s : option (S * Z) :=
  let keyset := pbkdf2 password ++ stack_after in
  match dm_name with
  | None => Some (s, 0)
  | Some dm_name =>
      match jindisk_activate tail false (Some dev_path) dm_name (Some keyset) 128 flag s [] with
      | None => None
      | Some (s, r, _) => Some (s, r)
      end
  end.
Definition action_create (tail : Z) := action_activate tail 1.
Definition action_open (tail : Z) := action_activate tail 0.

Definition action_close (activated_name : option (list Z)) s : S * Z :=
  match activated_name with
  | None => (s, 0)
  | Some name => jindisk_deactivate false (Some name) s
  end.

(** [argv] without the name of the program; the result is the exit code. *)
Definition setup_main (tail : Z) (argv : list (list Z)) s : option (S * Z) :=
  if (List.length argv =? 0)%nat then Some (s, -1)
  else if (5 <=? List.length argv)%nat then Some (s, 0)
  else
    let action := default [] (head argv) in
    if bool_decide (action = chars "create") then
      match argv with
      | [_; password; dev_path; dm_name] => action_create tail password dev_path (Some dm_name) s
      | _ => Some (s, -1)
      end
    else if bool_decide (action = chars "open") then
      match argv with
      | [_; password; dev_path; dm_name] => action_open tail password dev_path (Some dm_name) s
      | _ => Some (s, -1)
      end
    else if bool_decide (action = chars "close") then
      match argv with
      | [_; dm_name] => Some (action_close (Some dm_name) s)
      | _ => Some (s, -1)
      end
    else Some (s, 0).

(** An unknown action, or too many words, changes nothing and reports success. *)
Lemma unknown_action_succeeds tail action args s :
  action <> chars "create" -> action <> chars "open" -> action <> chars "close" -> setup_main tail (action :: args) s = Some (s, 0).
Proof.
  intros Hc Ho Hl. unfold setup_main. cbn [List.length Nat.eqb head default from_option id].
  destruct (5 <=? _)%nat; [done|]. by rewrite !bool_decide_eq_false_2.
Qed.

(** ** What the tool does to the mapped devices *)

Context `{!DmLibSpec S}.

Lemma dm_check_versions_view checked s : dm_view (dm_check_versions checked s).1 = dm_view s.
Proof.
  unfold dm_check_versions. destruct (negb (dm_call_ok _)); [done|].
  set (t := {| tk_kind := DM_DEVICE_LIST_VERSIONS; tk_name := []; tk_target := None |}).
  pose proof (dm_run_frame s t ltac:(done) ltac:(done)) as Hv. destruct (dm_task_run s t) as [s' ok]. cbn [fst] in Hv.
  destruct (negb ok); [done|]. destruct (negb (dm_call_ok _)); [done|]. by destruct (negb checked && negb (dm_fields =? 3)).
Qed.

Lemma dm_status_dmi_view name s : let '(s', r, dmi) := dm_status_dmi name s in dm_view s' = dm_view s /\
  (r = 0 /\ is_Some dmi \/ (r = EINVAL_R \/ r = ENODEV_R) /\ dmi = None).
Proof.
  unfold dm_status_dmi. do 3 (destruct (negb (dm_call_ok _)); [by auto|]).
  set (t := {| tk_kind := DM_DEVICE_STATUS; tk_name := name; tk_target := None |}).
  pose proof (dm_run_frame s t ltac:(done) ltac:(done)) as Hv. destruct (dm_task_run s t) as [s' ok]. cbn [fst] in Hv.
  destruct (negb ok); [by auto|]. destruct (dm_task_get_info s' t) as [dmi|]; [|by auto]. destruct (negb (di_exists dmi)); [by auto|].
  split; [done|]. left. split; [done|by eexists].
Qed.

Lemma dm_status_device_view name s : let '(s', r) := dm_status_device name s in dm_view s' = dm_view s /\
  (r = 0 \/ r = 1 \/ r = EINVAL_R \/ r = ENODEV_R).
Proof.
  unfold dm_status_device. destruct (has_slash name && _); [by auto|]. pose proof (dm_status_dmi_view name s) as Hd.
  destruct (dm_status_dmi name s) as [[s' r] [dmi|]]; destruct Hd as [Hv Hr]; (split; [done|]).
  - destruct Hr as [[-> _]|[_ ?]]; [|done]. cbn. destruct (0 <? di_open_count dmi); auto.
  - destruct Hr as [[_ [? ?]]|[[-> | ->] _]]; [done|auto..].
Qed.

(** Creating a device: all or nothing. *)
Lemma dm_create_view tail name tgt s : let '(s', r) := _dm_create_device tail name tgt s in
  (r = 0 /\ dm_view s !! name = None /\ exists params, get_dm_jindisk_params tail tgt = Some params /\
     dm_view s' = <[name := {| mp_open_count := 0; mp_suspended := false;
       mp_table := [{| tl_start := t_offset tgt; tl_size := t_size tgt; tl_type := JINDISK_TARGET; tl_params := params |}] |}]> (dm_view s)) \/
  (r < 0 /\ dm_view s' = dm_view s).
Proof.
  unfold _dm_create_device. do 3 (destruct (negb (dm_call_ok _)); [by right|]).
  destruct (get_dm_jindisk_params tail tgt) as [params|]; [|by right]. destruct (negb (dm_call_ok _)); [by right|].
  set (line := {| tl_start := t_offset tgt; tl_size := t_size tgt; tl_type := JINDISK_TARGET; tl_params := params |}).
  set (t := {| tk_kind := DM_DEVICE_CREATE; tk_name := name; tk_target := Some line |}).
  pose proof (dm_run_create s name line) as Hrun. fold t in Hrun. pose proof (dm_info_view s t) as Hinfo.
  destruct (dm_task_run s t) as [s' [|]]; cbn [negb fst snd] in *.
  - rewrite (Hinfo eq_refl). destruct Hrun as [Hn Hv]. rewrite bool_decide_eq_true_2 by (by eexists). left.
    split; [done|]. split; [done|]. by exists params.
  - pose proof (dm_status_device_view name s') as Hst. destruct (dm_status_device name s') as [s2 r]. destruct Hst as [Hv Hr]. right.
    split; [|congruence]. by destruct Hr as [-> |[-> |[-> | ->]]].
Qed.

Lemma device_alloc_path path l d l' : device_alloc (Some path) l = (Some d, l') -> d = {| d_path := path; d_file_path := None; d_block_size := 0 |}.
Proof. unfold device_alloc. destruct (device_ready _ l) as [r l0]. destruct (r <? 0); [done|]. by intros [= <- _]. Qed.

(** The device after a successful activation: one line that spans the size the
    kernel module has answered, of the type of this target, with the parameters
    of the key. *)
Definition activated (tail : Z) (path : list Z) (vk : volume_key) (flag : Z) (m : mapped) : Prop :=
  mp_open_count m = 0 /\ mp_suspended m = false /\
  exists tgt, device_path (t_device tgt) = path /\ t_vk tgt = vk /\ t_action_flag tgt = flag /\
    exists params, get_dm_jindisk_params tail tgt = Some params /\
      mp_table m = [{| tl_start := 0; tl_size := t_size tgt; tl_type := JINDISK_TARGET; tl_params := params |}].

(** C39. Activation is all or nothing: the tool does not crash; it returns 0 exactly
    when the device mapper has got a new device of the given name, whose only line
    is that of the target with the key and the flag; with any error the mapped
    devices are as before. *)
Theorem jindisk_activate_all_or_nothing tail checked path target_name keys key_size flag s l :
  exists s' r l', jindisk_activate tail checked (Some path) target_name (Some keys) key_size flag s l = Some (s', r, l') /\
  ((r = 0 /\ key_size = SHA512_KEYSIZE /\ dm_view s !! target_name = None /\
    exists m, activated tail path {| vk_keylength := 128; vk_key := take 128 keys |} flag m /\
      dm_view s' = <[target_name := m]> (dm_view s)) \/
   (r < 0 /\ dm_view s' = dm_view s)).
Proof.
  unfold jindisk_activate. pose proof (dm_check_versions_view checked s) as Hv0. destruct (dm_check_versions checked s) as [s0 versions]. cbn [fst] in Hv0.
  destruct (negb versions); [by exists s0, ENOTSUP_R, l; split; [|right]|].
  destruct (device_alloc (Some path) l) as [[d|] l0] eqn:Halloc; [|by exists s0, ENOMEM_R, l0; split; [|right]].
  apply device_alloc_path in Halloc as ->.
  destruct (Z.eqb_spec key_size SHA512_KEYSIZE) as [->|_]; cbn [negb]; [|by exists s0, EINVAL_R, l0; split; [|right]].
  change (crypt_alloc_volume_key SHA512_KEYSIZE (Some keys)) with (Some {| vk_keylength := 128; vk_key := take 128 keys |}).
  cbv beta iota. unfold create_or_open_device. cbn [t_device t_offset t_size t_vk t_action_flag t_holders].
  set (d := {| d_path := path; d_file_path := None; d_block_size := 0 |}).
  destruct (device_block_adjust_ok d 0 0 l0 ltac:(lia) ltac:(lia)) as (r & size & d' & l1 & Hadj & Hr0 & _). rewrite Hadj.
  destruct (Z.eqb_spec r 0) as [->|Hne]; cbn [negb]; [|exists s0, r, l1; split; [done|right; split; [lia|done]]].
  assert (device_path d' = path) as Hpath by (exact (device_block_adjust_path d 0 (Some 0) l0 0 size d' l1 Hadj)).
  cbn [dm_create_device]. set (tgt := {| t_device := d' |}).
  pose proof (dm_create_view tail target_name tgt s0) as Hcreate. destruct (_dm_create_device tail target_name tgt s0) as [s' r].
  exists s', r, l1. split; [done|]. rewrite Hv0 in Hcreate. destruct Hcreate as [(-> & Hn & params & Hp & Hv)|[Hr Hv]]; [left|by right].
  do 3 (split; [done|]). eexists. split; [|exact Hv]. split; [done|]. split; [done|]. exists tgt. do 3 (split; [done|]). by exists params.
Qed.

(** With every call of the library successful. *)
Lemma dm_status_device_ok name s : (forall c, dm_call_ok c = true) -> has_slash name = false ->
  let '(s', r) := dm_status_device name s in dm_view s' = dm_view s /\
    r = match dm_view s !! name with None => ENODEV_R | Some m => if 0 <? mp_open_count m then 1 else 0 end.
Proof.
  intros Hcall Hslash. unfold dm_status_device. rewrite Hslash. cbn [andb]. unfold dm_status_dmi. rewrite !Hcall. cbn [negb].
  set (t := {| tk_kind := DM_DEVICE_STATUS; tk_name := name; tk_target := None |}).
  pose proof (dm_run_frame s t ltac:(done) ltac:(done)) as Hv. pose proof (dm_run_status s name) as Hok. fold t in Hok.
  pose proof (dm_info_view s t Hok) as Hinfo. destruct (dm_task_run s t) as [s' ok]. cbn [fst snd] in *. subst ok. cbn [negb].
  rewrite Hinfo, Hv. cbn [t tk_name]. destruct (dm_view s !! name) as [m|]; cbn [mapped_info di_exists negb]; [|done]. by split.
Qed.

Lemma _dm_remove_ok name s : (forall c, dm_call_ok c = true) -> let '(s', ok) := _dm_remove name s in
  match dm_view s !! name with
  | Some m => ok = (mp_open_count m <=? 0) /\ dm_view s' = if ok then delete name (dm_view s) else dm_view s
  | None => ok = false /\ dm_view s' = dm_view s
  end.
Proof.
  intros Hcall. unfold _dm_remove. rewrite !Hcall. cbn [negb]. pose proof (dm_run_remove s name) as Hrun.
  destruct (dm_task_run s _) as [s' [|]].
  - destruct Hrun as [(m & -> & Hm) Hv]. split; [|done]. by destruct (Z.leb_spec (mp_open_count m) 0); [|lia].
  - destruct Hrun as [Hv Hm]. destruct (dm_view s !! name) as [m|]; [|done]. split; [|done]. specialize (Hm m eq_refl).
    by destruct (Z.leb_spec (mp_open_count m) 0); [lia|].
Qed.

Lemma dm_query_device_view name s : let '(s', r, holders) := dm_query_device name s in dm_view s' = dm_view s /\ holders = 0.
Proof.
  unfold dm_query_device. do 3 (destruct (negb (dm_call_ok _)); [done|]).
  set (t := {| tk_kind := DM_DEVICE_TABLE; tk_name := name; tk_target := None |}).
  pose proof (dm_run_frame s t ltac:(done) ltac:(done)) as Hv. destruct (dm_task_run s t) as [s' ok]. cbn [fst] in Hv.
  destruct (negb ok); [done|]. destruct (dm_task_get_info s' t) as [dmi|]; [|done]. destruct (negb (di_exists dmi)); [done|].
  destruct (di_target_count dmi <=? 0); [done|]. by destruct (di_suspended dmi).
Qed.

(** Deactivation, when the library has the memory it needs: a device that is
    not mapped gives [-ENODEV]; a device in use gives [-EBUSY] and stays; a device
    that is not in use is removed, and only it. *)
Theorem jindisk_deactivate_outcomes checked name s : (forall c, dm_call_ok c = true) -> has_slash name = false ->
  (dm_check_versions checked s).2 = true ->
  let '(s', r) := jindisk_deactivate checked (Some name) s in
  match dm_view s !! name with
  | None => r = ENODEV_R /\ dm_view s' = dm_view s
  | Some m => if 0 <? mp_open_count m then r = EBUSY_R /\ dm_view s' = dm_view s
              else r = 0 /\ dm_view s' = delete name (dm_view s)
  end.
Proof.
  intros Hcall Hslash Hver. unfold jindisk_deactivate. pose proof (dm_check_versions_view checked s) as Hv0.
  destruct (dm_check_versions checked s) as [s0 versions]. cbn [fst snd] in *. subst versions. cbn [negb crypt_status].
  pose proof (dm_status_device_ok name s0 Hcall Hslash) as Hst. destruct (dm_status_device name s0) as [s1 r1]. destruct Hst as [Hv1 Hr1].
  rewrite Hv0 in Hv1, Hr1. destruct (dm_view s !! name) as [m|] eqn:Hm; rewrite Hr1; [|done].
  assert (forall st : crypt_status_info, st = CRYPT_ACTIVE \/ st = CRYPT_BUSY ->
    let '(s', r) := match st with
      | CRYPT_ACTIVE | CRYPT_BUSY =>
          let '(s, r, holders) := dm_query_device (default [] (Some name)) s1 in
          if (0 <=? r) && negb (holders =? 0) then (s, EBUSY_R)
          else let '(s, r) := dm_remove_device (Some name) s in (s, if r <? 0 then EBUSY_R else r)
      | CRYPT_INACTIVE => (s1, ENODEV_R) | CRYPT_INVALID => (s1, EINVAL_R) end in
    if 0 <? mp_open_count m then r = EBUSY_R /\ dm_view s' = dm_view s else r = 0 /\ dm_view s' = delete name (dm_view s)) as Hremove.
  { intros st Hst. pose proof (dm_query_device_view name s1) as Hq. cbn [default from_option id].
    destruct (dm_query_device name s1) as [[s2 r2] holders]. destruct Hq as [Hv2 ->]. rewrite andb_false_r.
    cbn [dm_remove_device]. pose proof (_dm_remove_ok name s2 Hcall) as Hrm. destruct (_dm_remove name s2) as [s3 ok].
    rewrite Hv2, Hv1, Hm in Hrm. destruct Hrm as [-> Hv3].
    destruct Hst as [-> | ->]; destruct (Z.leb_spec (mp_open_count m) 0), (Z.ltb_spec 0 (mp_open_count m)); try lia; by split. }
  destruct (0 <? mp_open_count m) eqn:Hopen; cbn [Z.ltb Z.compare andb Z.eqb].
  - specialize (Hremove CRYPT_BUSY (or_intror eq_refl)). exact Hremove.
  - specialize (Hremove CRYPT_ACTIVE (or_introl eq_refl)). exact Hremove.
Qed.
End cli.

(** ** A concrete device mapper *)

Definition map_task_run (s : gmap (list Z) mapped) (t : dm_task) : gmap (list Z) mapped * bool :=
  match tk_kind t with
  | DM_DEVICE_LIST_VERSIONS | DM_DEVICE_STATUS => (s, true)
  | DM_DEVICE_TABLE => (s, bool_decide (is_Some (s !! tk_name t)))
  | DM_DEVICE_CREATE =>
      match s !! tk_name t, tk_target t with
      | None, Some line => (<[tk_name t := {| mp_open_count := 0; mp_suspended := false; mp_table := [line] |}]> s, true)
      | _, _ => (s, false)
      end
  | DM_DEVICE_REMOVE =>
      match s !! tk_name t with
      | Some m => if mp_open_count m <=? 0 then (delete (tk_name t) s, true) else (s, false)
      | None => (s, false)
      end
  end.

#[export] Instance map_dm_lib : DmLib (gmap (list Z) mapped) := {
  dm_call_ok := fun _ => true;
  dm_task_run := map_task_run;
  dm_task_get_info := fun s t => Some (mapped_info (s !! tk_name t));
  dm_fields := 3
}.

#[export] Instance map_dm_lib_spec : DmLibSpec (gmap (list Z) mapped).
Proof.
  refine {| dm_view := fun s => s |}.
  - intros s [[] n tg] Hc Hr; done.
  - intros s name line. cbn. unfold map_task_run. cbn. by destruct (s !! name).
  - intros s name. cbn. unfold map_task_run. cbn. destruct (s !! name) as [m|]; [|done]. destruct (Z.leb_spec (mp_open_count m) 0).
    + split; [by exists m|done].
    + split; [done|]. intros m' [= <-]. done.
  - done.
  - done.
  - done.
Defined.

(** One device is in use, one is not. *)
Definition example_mapped : gmap (list Z) mapped :=
  {[ chars "used" := {| mp_open_count := 1; mp_suspended := false; mp_table := [] |};
     chars "idle" := {| mp_open_count := 0; mp_suspended := false; mp_table := [] |} ]}.

Lemma jindisk_activate_all_or_nothing_witness :
  let keys := replicate 128 200 in
  exists s' r l', jindisk_activate 0 false (Some (chars "/dev/vdb")) (chars "disk") (Some keys) 128 1 example_mapped [] = Some (s', r, l') /\
  ((r = 0 /\ 128 = SHA512_KEYSIZE /\ dm_view example_mapped !! chars "disk" = None /\
    exists m, activated 0 (chars "/dev/vdb") {| vk_keylength := 128; vk_key := take 128 keys |} 1 m /\
      dm_view s' = <[chars "disk" := m]> (dm_view example_mapped)) \/
   (r < 0 /\ dm_view s' = dm_view example_mapped)).
Proof. intros keys. exact (jindisk_activate_all_or_nothing 0 false (chars "/dev/vdb") (chars "disk") keys 128 1 example_mapped []). Defined.

Lemma jindisk_deactivate_outcomes_witness :
  let '(s', r) := jindisk_deactivate false (Some (chars "used")) example_mapped in
  match dm_view example_mapped !! chars "used" with
  | None => r = ENODEV_R /\ dm_view s' = dm_view example_mapped
  | Some m => if 0 <? mp_open_count m then r = EBUSY_R /\ dm_view s' = dm_view example_mapped
              else r = 0 /\ dm_view s' = delete (chars "used") (dm_view example_mapped)
  end.
Proof. apply (jindisk_deactivate_outcomes false (chars "used") example_mapped); [done|done|done]. Defined.
